(* ===== verification/_CoqProject ===== *)
-Q . S2P
Prelude.v
Conn.v
GoStrings.v
Lru.v
ConsistentHash.v
SingleFlight.v
GeeCache.v
GroupRun.v
HttpPool.v
Cluster.v
ClusterRun.v
ClusterCache.v
DataPack.v
MsgHandler.v
PoolProgress.v
Registry.v
Discovery.v
Client.v
ClientApi.v
Service.v
Handshake.v
Codec.v
Server.v
Rpc.v
RpcProgress.v
XClient.v
Fleet.v
RpcMain.v
Connection.v
Zinx.v
ZinxEnds.v
Debug.v
