(* ===== verification/Prelude.v ===== *)
(** * Verification of distributed_study

    The repository holds three Go programs that share nothing but their
    language: [geecache], a distributed cache; [geerpc], an RPC framework with
    a registry and a client-side load balancer; and [myzinx], a TCP message
    server.  This library models their code and proves what makes it correct,
    and, where the code does not do what it means to, exactly what it does.

    ** Reading the models

    A Go function is a Rocq function of the same name.  What it may change is
    an argument and a result.  A function that may panic or loop returns an
    [outcome] (below): [Ret], [Panic] or [NoFuel].  A Go error is its text,
    [nil] is [None].  Integers are [Z]; where the source computes with machine
    words the wrap-around is written ([u32], [u64], [i64]).  A Go map is a
    [gmap], and where Go ranges over it the order is an argument.  Shared
    memory that the claims depend on (list elements, byte slices, clients) is
    a store indexed by pointers.  Code that runs on several goroutines is a
    transition system: a state, a type of actions, an executable step
    [step : action → state → option state], and runs of lists of actions; a
    step is one critical section, or one operation on a channel, wait group or
    connection.  A claim over runs is a claim over all interleavings.

    ** geecache (src/geecache)

    A [Group] looks a key up in its own LRU cache; on a miss it runs one load
    per key through singleflight, which asks the node that owns the key on the
    consistent-hash ring, over HTTP, or the local getter, whose value it
    caches.
    - [Lru.v] (lru/lru.go): [Cache], [New], [Add], [Get], [RemoveOldest], [LEN].
      The list and the map of pointers refine the list of pairs in order of
      use.  The fuel of [evict] is the length of the list plus one: every turn
      removes an element.  A negative budget makes the loop endless, which
      [Add_negative_budget_diverges] proves for every fuel.
    - [ConsistentHash.v] (consistenthash.go): [New], [Add], [Get] with
      [sort.Search] (fuel: the length searched) and CRC-32.  [Get] returns the
      clockwise owner; adding a machine moves keys only to it; the order of
      the machines is irrelevant when no two virtual nodes collide.
    - [SingleFlight.v] (singleflight.go): the goroutines of [Group.Do].  One
      execution of the function per key at a time, results of one's own key
      only, termination under every schedule unless the function panics.
    - [GeeCache.v] (byteview.go, cache.go, geecatche.go, peers.go): the
      group for one caller at a time, on a heap of byte arrays.  [Get]
      returns, loads once and caches; cached bytes cannot be written through.
    - [GroupRun.v]: the same [Get] for any number of goroutines at once, over
      the steps of [SingleFlight.v], while others write to slices they hold.
      Every request gets an answer of the source for its own key; all return
      within ten steps of each goroutine.
    - [HttpPool.v] (http.go): [ServeHTTP], [httpGetter.Get], [PickPeer], [Set].
      Nodes agree on one owner; a fetch over HTTP is a [Get] on the other node.
    - [Cluster.v] (main/main.go): nodes as [main] starts them, which fetch from
      each other.  The cluster answers every request with what the data source
      has, and only the owner of a key caches it.  The fuel of [http_Get] is
      the number of nodes: a request never visits a node twice.  Here and in the
      next two files keys hold no space ([HttpPool.remote_Get_space_lost] shows
      what becomes of one) and the virtual nodes of different addresses have
      different hashes (else nodes that list them in another order disagree).
    - [ClusterRun.v]: the nodes of [main] under any number of requests at once,
      with the groups of [GroupRun.v].  A request to another node arrives there
      as a goroutine of its own, or fails.  Every request on every node gets an
      answer of the source for its own key, and no nodes wait for each other:
      twenty-two steps for each request are enough.
    - [ClusterCache.v]: what the nodes of [ClusterRun.v] cache.  A node that does not
      own a key caches it only after a request of its own for that key failed,
      or when the source may fail.
    - [GoStrings.v]: the functions of the packages strings and net/url they use.

    ** geerpc (src/geerpc)

    A [Client] numbers its calls and matches the responses of one connection
    to them; a server reads requests and answers each from its own goroutine;
    an [XClient] picks a server through a [Discovery], which may be refreshed
    from a registry that servers report to by heartbeat.
    - [Client.v] (client.go): [registerCall], [removeCall], [terminateCalls],
      [send], [receive], [Go], [Call], [Close] as steps.  [done] exactly once
      per call, and the reply of its own number, for fewer than 2^64-1 calls
      (the counter wraps there); [Call] never returns a reply.
    - [ClientApi.v] (client.go [Go], [Call]): a program that makes calls and channels
      at any time.  What it reaches, a client of [Client.v] reaches whose calls
      were there at the start, so the theorems carry over; a full channel blocks
      the client for good when the connection ends.
    - [Handshake.v] (client.go [parseOption], [NewClient], [dialTimeout];
      server.go [Accept], [ServeConn], [ServeHTTP], [HandleHTTP]): the options
      are agreed on, in whatever chunks they arrive; the JSON decoder of the
      server swallows what follows them in a chunk.  The fuel of [Decode] is
      above the number of chunks and bytes, of which every read takes one.
    - [Codec.v] (codec/god.go): the interface [Codec] with its laws, and [Write] of
      the gob codec through [bufio.Writer] onto a connection that may fail at
      any write.  It delivers everything in order, or the failure shows: at
      once, in the next write, or as a panic.
    - [Service.v] (service.go): which methods are published, and their values.
    - [Server.v] (server.go): [Register], [findService], [readRequest],
      [serveCodec] against the class [Codec], [handleRequest].  The fuel of
      [serveCodec] is above the number of requests that are written.
    - [Rpc.v], [RpcProgress.v]: a client and a server on one connection, which
      may break anywhere.  A call done without an error was executed once and
      has the reply of that execution; nothing is executed twice; when both
      sides can go no further no call is left behind.
    - [Debug.v] (debug.go): the page of the services, written by its template;
      a reader recovers every service and method from it.
    - [Registry.v] (registry/registry.go): the table with its clock, the
      handler, [Heartbeat].
    - [Discovery.v] (xclient/discovery.go, discovery_gee.go): the class
      [Discovery] states what a discovery promises; both implementations are
      instances.
    - [XClient.v] (xclient/xclient.go): [dial], [Call], [Broadcast], proved
      against [Discovery] alone; the goroutines of a broadcast for any list of
      servers, since no discovery of the package gets as far as giving one.
    - [Fleet.v]: one registry, the heartbeats of its servers and any number of
      XClients over time.  Calls choose servers that were live recently, and
      find a live server when there is one and the list is due; then they wait
      in [client.Call], which returns when their context ends, if it does.
    - [RpcMain.v] (main/main.go): the demonstration.  It cannot report a
      success: its calls wait for contexts that do not end, its broadcasts
      fail or end the process.

    ** myzinx (src/myzinx)

    The reader of a connection unpacks messages and hands them to a worker
    pool, which calls the router of their message id; replies go to the
    writer of the connection through a channel.
    - [Conn.v]: a connection as a sequence of chunks, shared with geerpc.
    - [DataPack.v] (znet/datapack.go, message.go, request.go): [Pack] and
      [Unpack] through [bufio] on a connection that delivers bytes in chunks.
      Reading n bytes has fuel n+1: a read without an error is not empty.
    - [MsgHandler.v] (znet/msghandler.go, router.go, server.go,
      utils/globalobj.go): configuration, routers, worker pool.
    - [PoolProgress.v]: one step of the pool, and what is left to do in a pool
      that cannot go on.
    - [Connection.v] (znet/connection.go): the goroutines of a connection.
    - [Zinx.v] (znet/server.go, main/Server, main/Client): the accept loop and
      the composition of clients, connections and pool.  Every client gets the
      answers to its messages in order, and none is left waiting, when there
      are no more clients than workers and each message has one answer.
    - [ZinxEnds.v]: connections that end in any way, together with the pool
      whose workers are inside their [SendMsg].  A socket carries its own
      answers in order; only a connection that has ended can block another,
      one with the same worker, and then for ever.  As in [MsgHandler.v] this
      is about runs in which no two readers race to start a worker.

    ** What is not modelled

    The generated protobuf code (geecachepb) is a parameter with its round
    trip; JSON and gob encodings, the network, the clock, [math/rand] and the
    user's getters, routers and methods are parameters or are chosen by the
    steps, and so is xclient.NewXClient, which geerpc/main uses and the
    repository does not define.  Flags, listeners, logging (but for what the
    demonstrations report), sleeps and the interfaces of ziface, which have one
    implementation each, have no model. *)

From stdpp Require Export base gmap strings list sorting pretty.
From Stdlib Require Export Ascii ZArith Lia.

#[global] Open Scope Z_scope.

(** ** Machine integers

    A Go integer is its mathematical value in [Z]; the wrap-around of an
    operation is written out where the source performs it. *)

Definition wrapu (w z : Z) : Z := z `mod` 2 ^ w.
Definition wraps (w z : Z) : Z := (z + 2 ^ (w - 1)) `mod` 2 ^ w - 2 ^ (w - 1).

Declare Scope go_scope.
Delimit Scope go_scope with go.

Abbreviation u32 := (wrapu 32).
Abbreviation u64 := (wrapu 64).
Abbreviation i64 := (wraps 64).

(** ** Outcomes of a Go call

    A call returns a value, panics, or has not returned within the fuel
    that bounds the loops of its model. *)

Inductive outcome (A : Type) : Type :=
  | Ret (a : A)
  | Panic (msg : string)
  | NoFuel.
Arguments Ret {A} a.
Arguments Panic {A} msg.
Arguments NoFuel {A}.

Definition obind {A B} (m : outcome A) (k : A → outcome B) : outcome B :=
  match m with
  | Ret a => k a
  | Panic s => Panic s
  | NoFuel => NoFuel
  end.

Notation "'let!' x ':=' m 'in' k" := (obind m (λ x, k))
  (at level 10, x pattern, m at level 100, k at level 200) : go_scope.
#[global] Open Scope go_scope.

(** Go errors are compared with [nil] and printed; an error is its text. *)
Abbreviation error := (option string).

(** ** Tactics *)

(** Case analysis on every match of the goal, keeping the equations. *)
Ltac cases := repeat (case_match; simplify_eq/=; try done).

Create HintDb goword.
Create Rewrite HintDb goword.

(** ** Wrap-around arithmetic *)

(** Two integers are the same [w]-bit word when they agree modulo [2 ^ w];
    sums and differences respect it, and a wrapped integer is its argument. *)
Definition eqm (w a b : Z) : Prop := a `mod` 2 ^ w = b `mod` 2 ^ w.

#[global] Instance eqm_equivalence w : Equivalence (eqm w).
Proof. unfold eqm. split; [by intros a|by intros a b|intros a b c; apply eq_trans]. Qed.

#[global] Instance eqm_add w : Proper (eqm w ==> eqm w ==> eqm w) Z.add.
Proof.
  unfold eqm. intros a b E c d F.
  rewrite <- Zplus_mod_idemp_l, E, Zplus_mod_idemp_l.
  by rewrite <- Zplus_mod_idemp_r, F, Zplus_mod_idemp_r.
Qed.

#[global] Instance eqm_sub w : Proper (eqm w ==> eqm w ==> eqm w) Z.sub.
Proof.
  unfold eqm. intros a b E c d F.
  rewrite <- Zminus_mod_idemp_l, E, Zminus_mod_idemp_l.
  by rewrite <- Zminus_mod_idemp_r, F, Zminus_mod_idemp_r.
Qed.

#[global] Instance wraps_proper w : Proper (eqm w ==> eq) (wraps w).
Proof. intros a b E. unfold wraps. f_equal. by apply eqm_add. Qed.

#[global] Instance wrapu_proper w : Proper (eqm w ==> eq) (wrapu w).
Proof. by intros a b E. Qed.

Lemma eqm_eq w a b : a = b → eqm w a b.
Proof. by intros ->. Qed.

Section word.
Context (w : Z) (Hw : 0 < w).

Lemma wraps_eqm z : eqm w (wraps w z) z.
Proof using Hw. unfold eqm, wraps. rewrite Zminus_mod_idemp_l. f_equal. lia. Qed.

Lemma wrapu_eqm z : eqm w (wrapu w z) z.
Proof using Hw. unfold eqm, wrapu. apply Z.mod_mod, Z.pow_nonzero; lia. Qed.

Lemma wraps_small z : - 2 ^ (w - 1) ≤ z < 2 ^ (w - 1) → wraps w z = z.
Proof using Hw.
  intros H. unfold wraps.
  assert (2 ^ w = 2 * 2 ^ (w - 1)) as E.
  { rewrite <- Z.pow_succ_r by lia. f_equal; lia. }
  rewrite Z.mod_small; lia.
Qed.

Lemma wrapu_small z : 0 ≤ z < 2 ^ w → wrapu w z = z.
Proof using. apply Z.mod_small. Qed.

Lemma wrapu_bound z : 0 ≤ wrapu w z < 2 ^ w.
Proof using Hw. apply Z.mod_pos_bound. apply Z.pow_pos_nonneg; lia. Qed.
End word.

#[export] Hint Resolve eqm_eq : goword.
#[export] Hint Rewrite wraps_eqm wrapu_eqm using lia : goword.

(** Equations between wrapped sums: drop the inner wrap-arounds, then [lia]. *)
Ltac wrap_lia :=
  first [apply wraps_proper | apply wrapu_proper];
  autorewrite with goword; apply eqm_eq; lia.

(** ** Lists *)

Lemma filter_all {A} (P : A → Prop) `{∀ x, Decision (P x)} (l : list A) :
  (∀ x, x ∈ l → P x) → filter P l = l.
Proof.
  induction l as [|x l IH]; intros Hl; [done|].
  rewrite filter_cons_True by (apply Hl; set_solver). f_equal. apply IH. set_solver.
Qed.

Lemma filter_ext_in {A} (P Q : A → Prop) `{∀ x, Decision (P x), ∀ x, Decision (Q x)} (l : list A) :
  (∀ x, x ∈ l → P x ↔ Q x) → filter P l = filter Q l.
Proof.
  induction l as [|x l IH]; intros Hl; [done|]. rewrite !filter_cons.
  rewrite (decide_ext (P x) (Q x)) by (apply Hl; set_solver). by rewrite IH by set_solver.
Qed.

Lemma filter_remove_last {A} `{EqDecision A} (l : list A) x :
  NoDup (l ++ [x]) → filter (.≠ x) (l ++ [x]) = l.
Proof.
  intros (Hl & Hdisj & _)%NoDup_app. rewrite filter_app, filter_cons_False by auto.
  cbn. rewrite app_nil_r. apply filter_all. intros y Hy ->. apply (Hdisj x Hy). set_solver.
Qed.

(** ** Slices

    [xs[i]] panics when [i] is out of range. *)

Definition goindex {A} (l : list A) (i : Z) : outcome A :=
  if bool_decide (i < 0) then Panic "index out of range"
  else match l !! Z.to_nat i with
       | Some x => Ret x
       | None => Panic "index out of range"
       end.

Lemma goindex_lookup {A} (l : list A) (i : nat) x :
  l !! i = Some x → goindex l (Z.of_nat i) = Ret x.
Proof.
  intros H. unfold goindex. rewrite bool_decide_eq_false_2 by lia. by rewrite Nat2Z.id, H.
Qed.

(** ** Strings

    A Go string is its sequence of bytes; [len] counts bytes. *)

Definition bytes_of (s : string) : list Z := (λ a, Z.of_N (Ascii.N_of_ascii a)) <$> String.list_ascii_of_string s.

(** ** Sorted integer sequences *)

Lemma sorted_lookup_le (l : list Z) i j x y :
  StronglySorted Z.le l → l !! i = Some x → l !! j = Some y → (i ≤ j)%nat → x ≤ y.
Proof.
  intros Hs. revert i j. induction Hs as [|a l Hs IH Ha]; intros i j Hi Hj Hij; [done|].
  destruct i as [|i], j as [|j]; cbn in *; simplify_eq; [done| |lia|apply (IH i j); auto; lia].
  rewrite Forall_forall in Ha. apply Ha. by eapply list_elem_of_lookup_2.
Qed.

(** ** Updates of a list at an index in range *)

Lemma lookup_set {A} (l : list A) i x y j :
  l !! i = Some x → <[i := y]> l !! j = if decide (i = j) then Some y else l !! j.
Proof.
  intros Hi%lookup_lt_Some. case_decide; subst.
  - by apply list_lookup_insert_eq.
  - by apply list_lookup_insert_ne.
Qed.

Lemma sum_list_with_set {A} (f : A → nat) (l : list A) i x y :
  l !! i = Some x → (sum_list_with f (<[i := y]> l) + f x = sum_list_with f l + f y)%nat.
Proof.
  revert i. induction l as [|a l IH]; intros [|i] Hi; simpl in *; simplify_eq; [lia|].
  specialize (IH i Hi). lia.
Qed.

(** Looking up a list that was updated at a known index, everywhere. *)
Ltac lookup_set H :=
  repeat (rewrite (lookup_set _ _ _ _ _ H) in * || rewrite length_insert in * );
  repeat (case_decide; simplify_eq/=).

Lemma take_min_length {A} n (l : list A) : take (n `min` length l) l = take n l.
Proof.
  destruct (decide (n ≤ length l)%nat).
  - by rewrite Nat.min_l.
  - by rewrite Nat.min_r, !take_ge by lia.
Qed.

Lemma drop_min_length {A} n (l : list A) : drop (n `min` length l) l = drop n l.
Proof.
  destruct (decide (n ≤ length l)%nat).
  - by rewrite Nat.min_l.
  - by rewrite Nat.min_r, !drop_ge by lia.
Qed.

Lemma NoDup_omap_inj {A B} (f : A → option B) (l : list A) i j x y b :
  NoDup (omap f l) → l !! i = Some x → l !! j = Some y → f x = Some b → f y = Some b → i = j.
Proof.
  revert i j. induction l as [|a l IH]; intros i j Hnd Hi Hj Hx Hy; [done|]. cbn in Hnd.
  assert (∀ k z, l !! k = Some z → f z = Some b → f a ≠ Some b) as Hhead.
  { intros k z Hk Hz Ha. rewrite Ha in Hnd. apply NoDup_cons in Hnd as [Hn _]. apply Hn.
    apply list_elem_of_omap. exists z. split; [|done]. by eapply list_elem_of_lookup_2. }
  destruct i as [|i], j as [|j]; simplify_eq/=; [done|by destruct (Hhead j y)|by destruct (Hhead i x)|].
  f_equal. eapply IH; eauto. destruct (f a); [|done]. by apply NoDup_cons in Hnd as [_ ?].
Qed.

Lemma elem_of_delete_other {A} (l : list A) i j x y : l !! j = Some x → l !! i = Some y → x ≠ y → x ∈ delete i l.
Proof.
  intros Hj Hi Hne. assert (i ≠ j) as Hij by congruence. apply list_elem_of_lookup.
  destruct (decide (j < i)%nat) as [Hlt|Hge].
  - exists j. by rewrite list_lookup_delete_lt.
  - exists (pred j). rewrite list_lookup_delete_ge by lia. by replace (S (pred j)) with j by lia.
Qed.

Lemma lookup_set_inv {A} (l : list A) i j x y z : l !! i = Some x → <[i := y]> l !! j = Some z →
  (j = i ∧ z = y) ∨ (j ≠ i ∧ l !! j = Some z).
Proof. intros Hi H. rewrite (lookup_set _ _ _ _ _ Hi) in H. case_decide; simplify_eq; auto. Qed.

(** Updating one element of a list of lists that is concatenated. *)
Lemma concat_imap_set {A B} (f : nat → A → list B) (l : list A) i x :
  l !! i = Some x → ∃ rest, concat (imap f l) ≡ₚ f i x ++ rest ∧
    ∀ y, concat (imap f (<[i := y]> l)) ≡ₚ f i y ++ rest.
Proof.
  revert f i. induction l as [|a l IH]; intros f [|i] Hi; simplify_eq/=.
  - exists (concat (imap (f ∘ S) l)). by split.
  - destruct (IH (f ∘ S) i Hi) as (rest & Hr & Hy). exists (f 0%nat a ++ rest). split.
    + rewrite Hr. by rewrite Permutation_app_swap_app.
    + intros y. cbn. rewrite (Hy y). by rewrite Permutation_app_swap_app.
Qed.
