(* ===== verification/Conn.v ===== *)
(** * Connections as a reader sees them

    A connection delivers its bytes in chunks, one per successful [Read], so
    what one [Read] returns is visible; after the chunks comes an error.  Used
    by the readers of myzinx messages and of the options of geerpc. *)

From S2P Require Import Prelude.

(** The chunks still to be delivered, and the error after them. *)
Record conn := mkConn { chunks : list (list Z); ending : string }.

Definition EOF : string := "EOF".
Definition ErrUnexpectedEOF : string := "unexpected EOF".

(** [Read(p)] with [len(p) = n]: bytes of one chunk. *)
Definition conn_Read (n : nat) (c : conn) : list Z * error * conn :=
  match chunks c with
  | [] => ([], Some (ending c), c)
  | ch :: cs =>
      (take n ch, None,
       mkConn (if bool_decide (drop n ch = []) then cs else drop n ch :: cs) (ending c))
  end.
