(* ===== verification/GoStrings.v ===== *)
(** * The functions of the Go library on strings that the programs call

    [strings.HasPrefix], [SplitN], [Split], [Join], [LastIndex] and
    [TrimSpace], and the escaping of [net/url], on strings as sequences of
    bytes, with the laws the components use. *)

From S2P Require Import Prelude.

#[local] Open Scope string_scope.

(** ** Cutting *)

(** The rest of [s] after the prefix [p]; [None] when [HasPrefix] is false. *)
Fixpoint strip_prefix (p s : string) : option string :=
  match p, s with
  | "", _ => Some s
  | String a p, String b s => if Ascii.eqb a b then strip_prefix p s else None
  | String _ _, "" => None
  end.

(** [strings.SplitN(s, sep, 2)] for a one-byte separator: the two parts, or
    [None] for the one-element result when there is no separator. *)
Fixpoint cut (sep : ascii) (s : string) : option (string * string) :=
  match s with
  | "" => None
  | String a s =>
      if Ascii.eqb a sep then Some ("", s)
      else (λ p, (String a p.1, p.2)) <$> cut sep s
  end.

(** [s[:i], s[i+1:]] for [i = strings.LastIndex(s, sep)]. *)
Fixpoint cut_last (sep : ascii) (s : string) : option (string * string) :=
  match s with
  | "" => None
  | String a s =>
      match cut_last sep s with
      | Some (x, y) => Some (String a x, y)
      | None => if Ascii.eqb a sep then Some ("", s) else None
      end
  end.

(** [strings.Split(s, sep)] for a one-byte separator. *)
Fixpoint Split (sep : ascii) (s : string) : list string :=
  match s with
  | "" => [""]
  | String a s =>
      let r := Split sep s in
      if Ascii.eqb a sep then "" :: r
      else match r with
           | [] => [String a ""]
           | x :: r => String a x :: r
           end
  end.

Fixpoint Join (l : list string) (sep : string) : string :=
  match l with
  | [] => ""
  | [x] => x
  | x :: l => x ++ sep ++ Join l sep
  end.

Fixpoint contains (c : ascii) (s : string) : bool :=
  match s with "" => false | String a s => Ascii.eqb a c || contains c s end.

(** ** strings.TrimSpace *)

Definition bytes_str (l : list Z) : string :=
  foldr (λ z s, String (Ascii.ascii_of_N (Z.to_N z)) s) "" l.

(** The UTF-8 encodings of the characters of [unicode.IsSpace]. *)
Definition spaces : list string :=
  bytes_str <$> app ([[9]; [10]; [11]; [12]; [13]; [32]; [194; 133]; [194; 160]; [225; 154; 128]; [226; 128; 168];
      [226; 128; 169]; [226; 128; 175]; [226; 129; 159]; [227; 128; 128]])%Z
      ((λ z, [226; 128; 128 + z]) <$> [0; 1; 2; 3; 4; 5; 6; 7; 8; 9; 10])%Z.

Fixpoint rev_str (s acc : string) : string :=
  match s with "" => acc | String a s => rev_str s (String a acc) end.

(** Without the first of the prefixes [ps] that it has. *)
Fixpoint strip_any (ps : list string) (s : string) : option string :=
  match ps with
  | [] => None
  | p :: ps => match strip_prefix p s with Some r => Some r | None => strip_any ps s end
  end.

Fixpoint trim_left (fuel : nat) (ps : list string) (s : string) : string :=
  match fuel with
  | O => s
  | S fuel => match strip_any ps s with Some r => trim_left fuel ps r | None => s end
  end.

(** A space has at least one byte, so the length is enough turns. *)
Definition TrimSpace (s : string) : string :=
  let l := trim_left (String.length s) spaces s in
  rev_str (trim_left (String.length l) ((λ p, rev_str p "") <$> spaces) (rev_str l "")) "".

(** No space at either end. *)
Definition trimmed (s : string) : bool :=
  match strip_any spaces s, strip_any ((λ p, rev_str p "") <$> spaces) (rev_str s "") with
  | None, None => true
  | _, _ => false
  end.

(** ** net/url *)

Definition ascii_of (z : Z) : ascii := Ascii.ascii_of_N (Z.to_N z).
Definition code (a : ascii) : Z := Z.of_N (Ascii.N_of_ascii a).

Definition in_range (lo hi : Z) (a : ascii) : bool := bool_decide (lo ≤ code a ≤ hi)%Z.

(** The bytes [url.QueryEscape] leaves alone. *)
Definition unreserved (a : ascii) : bool :=
  in_range 97 122 a || in_range 65 90 a || in_range 48 57 a ||
  Ascii.eqb a "-"%char || Ascii.eqb a "_"%char || Ascii.eqb a "."%char || Ascii.eqb a "~"%char.

(** ["0123456789ABCDEF"[n]] *)
Definition upperhex (n : Z) : ascii := ascii_of (if bool_decide (n < 10) then 48 + n else 55 + n)%Z.

Fixpoint QueryEscape (s : string) : string :=
  match s with
  | "" => ""
  | String a s =>
      if unreserved a then String a (QueryEscape s)
      else if Ascii.eqb a " "%char then String "+" (QueryEscape s)
      else String "%" (String (upperhex (Z.shiftr (code a) 4))
                         (String (upperhex (Z.land (code a) 15)) (QueryEscape s)))
  end.

Definition unhex (a : ascii) : option Z :=
  if in_range 48 57 a then Some (code a - 48)%Z
  else if in_range 97 102 a then Some (code a - 97 + 10)%Z
  else if in_range 65 70 a then Some (code a - 65 + 10)%Z
  else None.

(** The decoding of the path of a request URL: only %XX is decoded; a
    malformed escape is refused. *)
Fixpoint path_unescape (s : string) : option string :=
  match s with
  | "" => Some ""
  | String "%" s =>
      match s with
      | String x (String y s) =>
          h ← unhex x; l ← unhex y; String (ascii_of (Z.lor (Z.shiftl h 4) l)) <$> path_unescape s
      | _ => None
      end
  | String a s => String a <$> path_unescape s
  end.

(** What a query-escaped string is after the path decoding. *)
Fixpoint space_to_plus (s : string) : string :=
  match s with
  | "" => ""
  | String a s => String (if Ascii.eqb a " "%char then "+"%char else a) (space_to_plus s)
  end.

#[local] Arguments Ascii.eqb : simpl never.
#[local] Arguments String.append !_ _ / : simpl nomatch.

(** ** Laws *)

Lemma app_cons a x y : String a x ++ y = String a (x ++ y).
Proof. done. Qed.

Lemma str_assoc x y z : (x ++ y) ++ z = x ++ y ++ z.
Proof. induction x as [|a x IH]; [done|]. by rewrite !app_cons, IH. Qed.

Lemma str_length x y : String.length (x ++ y) = (String.length x + String.length y)%nat.
Proof. induction x as [|a x IH]; [done|]. rewrite app_cons. cbn. by rewrite IH. Qed.

Lemma contains_app c x y : contains c (x ++ y) = contains c x || contains c y.
Proof. induction x as [|a x IH]; [done|]. rewrite app_cons. cbn. by rewrite IH, orb_assoc. Qed.

Lemma strip_prefix_app p s : strip_prefix p (p ++ s) = Some s.
Proof. induction p as [|a p IH]; [done|]. cbn. by rewrite Ascii.eqb_refl. Qed.

Lemma strip_prefix_Some p s r : strip_prefix p s = Some r → s = p ++ r.
Proof.
  revert s. induction p as [|a p IH]; intros s H; cbn in H; [by simplify_eq|].
  destruct s as [|b s]; [done|]. destruct (Ascii.eqb_spec a b) as [->|]; [|done].
  cbn. by rewrite (IH s H).
Qed.

Lemma cut_app sep x y : contains sep x = false → cut sep (x ++ String sep y) = Some (x, y).
Proof.
  induction x as [|a x IH]; cbn; [by rewrite Ascii.eqb_refl|].
  intros [H1 H2]%orb_false_iff. by rewrite H1, IH.
Qed.

Lemma cut_last_None sep s : cut_last sep s = None ↔ contains sep s = false.
Proof.
  induction s as [|a s IH]; cbn; [done|]. destruct (cut_last sep s) as [[x y]|] eqn:E.
  - split; [done|]. intros [_ H]%orb_false_iff. by apply IH in H.
  - destruct (Ascii.eqb a sep); cbn; [done|]. by rewrite <- IH.
Qed.

Lemma cut_last_app sep x y :
  contains sep y = false → cut_last sep (x ++ String sep y) = Some (x, y).
Proof.
  intros Hy. induction x as [|a x IH]; cbn.
  - by rewrite (proj2 (cut_last_None sep y)), Ascii.eqb_refl.
  - by rewrite IH.
Qed.

Lemma cut_last_Some sep s x y :
  cut_last sep s = Some (x, y) → s = x ++ String sep y ∧ contains sep y = false.
Proof.
  revert x y. induction s as [|a s IH]; intros x y H; cbn in H; [done|].
  destruct (cut_last sep s) as [[x' y']|] eqn:E; simplify_eq.
  - destruct (IH x' y eq_refl) as [-> ?]. done.
  - destruct (Ascii.eqb_spec a sep); simplify_eq. split; [done|]. by apply cut_last_None.
Qed.

Lemma Split_no_sep sep s : contains sep s = false → Split sep s = [s].
Proof.
  induction s as [|a s IH]; cbn; [done|]. intros [-> H]%orb_false_iff. by rewrite IH.
Qed.

Lemma Split_app sep x s : contains sep x = false →
  Split sep (x ++ String sep s) = x :: Split sep s.
Proof.
  induction x as [|a x IH]; cbn; [by rewrite Ascii.eqb_refl|].
  intros [-> H]%orb_false_iff. by rewrite IH.
Qed.

(** Joining with a separator that occurs in no element, then splitting. *)
Lemma Split_ne sep s : Split sep s ≠ [].
Proof. destruct s as [|a s]; [done|]. cbn. by destruct (Ascii.eqb a sep), (Split sep s). Qed.

Lemma Split_app_text sep x s : contains sep x = false →
  Split sep (x ++ s) = match Split sep s with h :: t => (x ++ h) :: t | [] => [] end.
Proof.
  induction x as [|a x IH]; [by intros _; destruct (Split sep s) eqn:E; exact E|]. rewrite app_cons. cbn.
  intros [Ha Hx]%orb_false_iff. rewrite Ha, IH by done. destruct (Split sep s) eqn:E; [|done]. by destruct (Split_ne sep s).
Qed.

Lemma Split_Join sep l :
  l ≠ [] → Forall (λ x, contains sep x = false) l → Split sep (Join l (String sep "")) = l.
Proof.
  intros Hne H. induction H as [|x l Hx Hl IH]; [done|]. destruct l as [|y l].
  - by apply Split_no_sep.
  - change (Join (x :: y :: l) (String sep "")) with (x ++ String sep (Join (y :: l) (String sep ""))).
    rewrite Split_app by done. by rewrite IH.
Qed.

(** Every byte, escaped and decoded. *)
Lemma escape_byte a :
  unreserved a = false → a ≠ " "%char →
  path_unescape (String "%" (String (upperhex (Z.shiftr (code a) 4))
                               (String (upperhex (Z.land (code a) 15)) ""))) = Some (String a "").
Proof. destruct a as [[] [] [] [] [] [] [] []]; by vm_compute. Qed.

Lemma path_unescape_escaped x y h l s :
  unhex x = Some h → unhex y = Some l →
  path_unescape (String "%" (String x (String y s))) =
  String (ascii_of (Z.lor (Z.shiftl h 4) l)) <$> path_unescape s.
Proof. intros Hx Hy. cbn. by rewrite Hx, Hy. Qed.

Lemma path_unescape_plain a s :
  a ≠ "%"%char → path_unescape (String a s) = String a <$> path_unescape s.
Proof. intros H. cbn. by destruct a as [[] [] [] [] [] [] [] []]. Qed.

Lemma path_unescape_app s t r :
  path_unescape s = Some r → path_unescape (s ++ t) = (λ q, r ++ q) <$> path_unescape t.
Proof.
  revert r. induction s as [s IH] using (well_founded_induction
    (Wf_nat.well_founded_ltof string String.length)). intros r H.
  destruct s as [|a s].
  - cbn in *. simplify_eq. by destruct (path_unescape t).
  - destruct (decide (a = "%"%char)) as [->|Ha].
    + destruct s as [|x [|y s]]; [done|done|]. cbn in H |- *.
      destruct (unhex x) as [h|]; [|done]. cbn in *. destruct (unhex y) as [l|]; [|done]. cbn in *.
      destruct (path_unescape s) as [q|] eqn:E; [|done]. cbn in H. simplify_eq.
      rewrite (IH s) with (r := q); [|unfold Wf_nat.ltof; cbn; lia|done].
      by destruct (path_unescape t).
    + rewrite path_unescape_plain in H by done. change (String a s ++ t) with (String a (s ++ t)).
      rewrite path_unescape_plain by done. destruct (path_unescape s) as [q|] eqn:E; [|done].
      cbn in H. simplify_eq. rewrite (IH s) with (r := q); [|unfold Wf_nat.ltof; cbn; lia|done].
      by destruct (path_unescape t).
Qed.

Lemma unescape_QueryEscape s : path_unescape (QueryEscape s) = Some (space_to_plus s).
Proof.
  induction s as [|a s IH]; [done|]. cbn [QueryEscape space_to_plus].
  destruct (unreserved a) eqn:E.
  - rewrite path_unescape_plain, IH by (by intros ->).
    by destruct (Ascii.eqb_spec a " "%char) as [->|].
  - destruct (Ascii.eqb_spec a " "%char) as [->|Hs].
    + by rewrite path_unescape_plain, IH by done.
    + pose proof (escape_byte a E Hs) as Hb.
      eapply (path_unescape_app _ (QueryEscape s)) in Hb. cbn [String.append] in Hb.
      by rewrite Hb, IH.
Qed.

Lemma space_to_plus_id s : contains " " s = false → space_to_plus s = s.
Proof.
  induction s as [|a s IH]; cbn; [done|]. intros [-> H]%orb_false_iff. by rewrite IH.
Qed.

Lemma str_app_assoc x y z : (x ++ y) ++ z = x ++ (y ++ z).
Proof. induction x as [|a x IH]; cbn; [done|]. by rewrite IH. Qed.

(** ** Trimming *)

Lemma rev_str_app s t : rev_str (rev_str s t) "" = rev_str t s.
Proof. revert t. induction s as [|a s IH]; intros t; [done|]. cbn. by rewrite IH. Qed.

Lemma trim_left_None fuel ps s : strip_any ps s = None → trim_left fuel ps s = s.
Proof. intros H. destruct fuel; [done|]. cbn. by rewrite H. Qed.

Lemma TrimSpace_trimmed s : trimmed s = true → TrimSpace s = s.
Proof.
  unfold trimmed, TrimSpace. cbv zeta. intros H. destruct (strip_any spaces s) eqn:E1; [done|].
  destruct (strip_any _ (rev_str s "")) eqn:E2; [done|].
  rewrite (trim_left_None _ spaces s) by done. rewrite trim_left_None by done. apply rev_str_app.
Qed.
