(* ===== verification/Lru.v ===== *)
(** * geecache/lru: the least-recently-used cache

    Models [src/geecache/lru/lru.go].  The doubly linked list of
    [container/list] is the sequence [ll] of its element pointers, front
    first; the entries the elements hold live in a store [elems], so that the
    map [catche] and the list share elements the way the pointers of the code
    do.  A callback [OneEvicted] that is set is called with each evicted entry:
    the calls an operation makes are its second result.

    The abstract cache is the list of (key, value) pairs in order of use.  The
    theorems show that every operation keeps the two structures consistent
    and computes the operation of the abstract cache. *)

From S2P Require Import Prelude.

(** ** The operations of container/list the cache uses, on element pointers *)

Definition list_Remove (e : nat) (l : list nat) : list nat := filter (λ x, x ≠ e) l.
Definition list_MoveToFront (e : nat) (l : list nat) : list nat := e :: list_Remove e l.
Definition list_PushFront (e : nat) (l : list nat) : list nat := e :: l.
Definition list_Back (l : list nat) : option nat := last l.

Section Lru.
Context {Value : Type} (Len : Value → Z).

Record entry := Entry { key : string; value : Value }.

Record Cache := mkCache {
  maxBytes : Z;
  nbytes : Z;
  ll : list nat;
  catche : gmap string nat;
  OneEvicted : bool;            (* is the callback set? *)
  elems : gmap nat entry;       (* the entry of each element allocated so far *)
  fresh : nat;                  (* the next element pointer *)
}.

Definition set_ll (l : list nat) (c : Cache) : Cache :=
  mkCache (maxBytes c) (nbytes c) l (catche c) (OneEvicted c) (elems c) (fresh c).

Definition str_len (s : string) : Z := Z.of_nat (String.length s).

Definition New (max : Z) (onEvicted : bool) : Cache :=
  mkCache max 0 [] ∅ onEvicted ∅ 0.

Definition Get (k : string) (c : Cache) : outcome (option Value * Cache) :=
  match catche c !! k with
  | Some ele =>
      let c := set_ll (list_MoveToFront ele (ll c)) c in
      match elems c !! ele with
      | Some kv => Ret (Some (value kv), c)
      | None => Panic "invalid memory address"
      end
  | None => Ret (None, c)
  end.

Definition RemoveOldest (c : Cache) : outcome (Cache * list (string * Value)) :=
  match list_Back (ll c) with
  | Some ele =>
      match elems c !! ele with
      | Some kv =>
          let c' := mkCache (maxBytes c)
            (i64 (nbytes c - i64 (i64 (str_len (key kv)) + i64 (Len (value kv)))))
            (list_Remove ele (ll c)) (delete (key kv) (catche c))
            (OneEvicted c) (elems c) (fresh c) in
          Ret (c', if OneEvicted c then [(key kv, value kv)] else [])
      | None => Panic "invalid memory address"
      end
  | None => Ret (c, [])
  end.

(** [for c.maxBytes != 0 && c.maxBytes < c.nbytes { c.RemoveOldest() }] *)
Fixpoint evict (fuel : nat) (c : Cache) : outcome (Cache * list (string * Value)) :=
  if bool_decide (maxBytes c ≠ 0 ∧ maxBytes c < nbytes c) then
    match fuel with
    | O => NoFuel
    | S fuel =>
        let! (c1, ev1) := RemoveOldest c in
        let! (c2, ev2) := evict fuel c1 in
        Ret (c2, ev1 ++ ev2)
    end
  else Ret (c, []).

(** The two branches of [Add], before its eviction loop. *)
Definition put (k : string) (v : Value) (c : Cache) : outcome Cache :=
  match catche c !! k with
  | Some ele =>
      match elems c !! ele with
      | Some kv =>
          Ret (mkCache (maxBytes c)
            (i64 (nbytes c + i64 (i64 (Len v) - i64 (Len (value kv)))))
            (list_MoveToFront ele (ll c)) (catche c) (OneEvicted c)
            (<[ele := Entry (key kv) v]> (elems c)) (fresh c))
      | None => Panic "invalid memory address"
      end
  | None =>
      let ele := fresh c in
      Ret (mkCache (maxBytes c)
        (i64 (nbytes c + i64 (i64 (str_len k) + i64 (Len v))))
        (list_PushFront ele (ll c)) (<[k := ele]> (catche c)) (OneEvicted c)
        (<[ele := Entry k v]> (elems c)) (S ele))
  end.

Definition Add (fuel : nat) (k : string) (v : Value) (c : Cache)
  : outcome (Cache * list (string * Value)) :=
  let! c1 := put k v c in evict fuel c1.

Definition Len_cache (c : Cache) : nat := length (ll c).

(** ** The abstract cache *)

Definition absent (k : string) (l : list (string * Value)) : list (string * Value) :=
  filter (λ kv, kv.1 ≠ k) l.

Definition abs_find (k : string) (l : list (string * Value)) : option Value :=
  snd <$> find (λ kv, bool_decide (kv.1 = k)) l.

Definition abs_get (k : string) (l : list (string * Value)) : list (string * Value) :=
  match abs_find k l with Some v => (k, v) :: absent k l | None => l end.

Definition abs_put (k : string) (v : Value) (l : list (string * Value))
  : list (string * Value) := (k, v) :: absent k l.

Definition size_of (kv : string * Value) : Z := str_len kv.1 + Len kv.2.
Definition total (l : list (string * Value)) : Z := foldr (λ kv n, size_of kv + n) 0 l.

Definition sizes_ok (l : list (string * Value)) : Prop :=
  Forall (λ kv, 0 ≤ size_of kv) l.

(** The longest prefix of [l] that fits in [budget] bytes, and the rest. *)
Fixpoint fit (budget : Z) (l : list (string * Value)) : list (string * Value) :=
  match l with
  | [] => []
  | kv :: l =>
      if bool_decide (size_of kv ≤ budget) then kv :: fit (budget - size_of kv) l else []
  end.

Definition keep (max : Z) (l : list (string * Value)) : list (string * Value) :=
  if bool_decide (max = 0) then l else fit max l.

(** The abstraction function and the invariant. *)
Definition pair_of (kv : entry) : string * Value := (key kv, value kv).
Definition absl (h : gmap nat entry) (l : list nat) : list (string * Value) :=
  omap (λ e, pair_of <$> h !! e) l.
Definition abs (c : Cache) : list (string * Value) := absl (elems c) (ll c).

Record wf (c : Cache) : Prop := {
  wf_nodup : NoDup (ll c);
  wf_alloc : ∀ e, e ∈ ll c → is_Some (elems c !! e);
  wf_fresh : ∀ e, is_Some (elems c !! e) → (e < fresh c)%nat;
  wf_map : ∀ k e, catche c !! k = Some e ↔
             e ∈ ll c ∧ ∃ kv, elems c !! e = Some kv ∧ key kv = k;
  wf_nbytes : nbytes c = i64 (total (abs c));
}.

(** The fields no operation changes. *)
Definition same_config (c c' : Cache) : Prop :=
  maxBytes c' = maxBytes c ∧ OneEvicted c' = OneEvicted c.

(** The callback calls of an eviction that leaves the first [n] entries. *)
Definition dropped (cb : bool) (n : nat) (l : list (string * Value))
  : list (string * Value) := if cb then reverse (drop n l) else [].

(** One call of the cache's interface, for the states a client can reach. *)
Inductive step : Cache → Cache → Prop :=
  | step_get k c v c' : Get k c = Ret (v, c') → step c c'
  | step_add fuel k v c c' ev : Add fuel k v c = Ret (c', ev) → step c c'
  | step_remove c c' ev : RemoveOldest c = Ret (c', ev) → step c c'.

Definition reachable (c : Cache) : Prop := ∃ max cb, rtc step (New max cb) c.

#[local] Arguments total : simpl never.
#[local] Arguments absl : simpl never.

(** ** Lemmas on the abstract cache *)

Lemma abs_find_None k l : abs_find k l = None ↔ k ∉ l.*1.
Proof.
  unfold abs_find. induction l as [|[k' v'] l IH]; cbn; [set_solver|].
  case_bool_decide; subst; cbn; [set_solver|]. rewrite IH. set_solver.
Qed.

Lemma abs_find_elem k v l : abs_find k l = Some v → (k, v) ∈ l.
Proof.
  unfold abs_find. intros ([k' v'] & H & [= <-])%fmap_Some_1.
  apply List.find_some in H as [Hin Hb%bool_decide_eq_true]. cbn in *. subst k'. by apply list_elem_of_In.
Qed.

Lemma abs_get_subseteq k l : abs_get k l ⊆ l.
Proof.
  unfold abs_get. destruct (abs_find k l) as [v|] eqn:E; [|done]. apply abs_find_elem in E.
  intros x [->|[_ Hx]%list_elem_of_filter]%elem_of_cons; done.
Qed.

Lemma absent_id k l : k ∉ l.*1 → absent k l = l.
Proof.
  intros Hk. apply filter_all. intros kv Hin <-.
  by apply Hk, list_elem_of_fmap_2.
Qed.

Lemma absent_fst k l : (absent k l).*1 = filter (λ k', k' ≠ k) l.*1.
Proof.
  unfold absent. induction l as [|[k' v'] l IH]; [done|].
  rewrite fmap_cons, !filter_cons. cbn. case_decide; cbn; by rewrite IH.
Qed.

Lemma total_cons kv l : total (kv :: l) = size_of kv + total l.
Proof. done. Qed.

Lemma total_absent k v l :
  NoDup l.*1 → abs_find k l = Some v → total (absent k l) = total l - size_of (k, v).
Proof.
  unfold abs_find, absent. induction l as [|[k' v'] l IH]; [done|].
  rewrite fmap_cons, filter_cons. intros [Hk' Hnd]%NoDup_cons Hf. cbn in Hf.
  case_bool_decide; cbn in Hf; simplify_eq.
  - rewrite decide_False by auto. fold (absent k l). rewrite absent_id, total_cons by done. lia.
  - rewrite decide_True, !total_cons, IH by done. lia.
Qed.

Lemma total_app l1 l2 : total (l1 ++ l2) = total l1 + total l2.
Proof.
  induction l1 as [|a l1 IH]; [done|]. rewrite <- app_comm_cons, !total_cons, IH. lia.
Qed.

Lemma total_nonneg l : sizes_ok l → 0 ≤ total l.
Proof. induction 1; rewrite ?total_cons; [done|lia]. Qed.

Lemma fit_all b l : sizes_ok l → total l ≤ b → fit b l = l.
Proof.
  intros H. revert b. induction H as [|kv l H1 H2 IH]; intros b Hb; [done|].
  rewrite total_cons in Hb. pose proof (total_nonneg _ H2). cbn.
  rewrite bool_decide_eq_true_2 by lia. f_equal. apply IH. lia.
Qed.

Lemma fit_snoc b l kv :
  sizes_ok (l ++ [kv]) → b < total (l ++ [kv]) → fit b (l ++ [kv]) = fit b l.
Proof.
  revert b. induction l as [|a l IH]; intros b H Hb; cbn in *; rewrite total_cons in Hb.
  - unfold total in Hb. cbn in Hb. rewrite bool_decide_eq_false_2 by lia. done.
  - apply Forall_cons in H as [? H]. case_bool_decide; [|done]. f_equal. apply IH; [done|lia].
Qed.

Lemma fit_prefix b l : fit b l `prefix_of` l.
Proof.
  revert b. induction l as [|a l IH]; intros b; cbn; [done|].
  case_bool_decide; [apply prefix_cons, IH | apply prefix_nil].
Qed.

Lemma fit_total b l : 0 ≤ b → total (fit b l) ≤ b.
Proof.
  revert b. induction l as [|a l IH]; intros b Hb; cbn; [done|].
  case_bool_decide; rewrite ?total_cons; [|done]. specialize (IH (b - size_of a)). lia.
Qed.

Lemma fit_longest b l l' :
  sizes_ok l → l' `prefix_of` l → total l' ≤ b → l' `prefix_of` fit b l.
Proof.
  intros H. revert b l'. induction H as [|kv l H1 H2 IH]; intros b l' Hp Ht.
  - by apply prefix_nil_inv in Hp as ->.
  - destruct l' as [|kv' l']; [apply prefix_nil|].
    pose proof (prefix_cons_inv_1 _ _ _ _ Hp) as ->. apply prefix_cons_inv_2 in Hp.
    assert (sizes_ok l') as Hs.
    { destruct Hp as [q ->]. by apply Forall_app in H2 as [? _]. }
    pose proof (total_nonneg _ Hs). rewrite total_cons in Ht. cbn.
    rewrite bool_decide_eq_true_2 by lia. apply prefix_cons, IH; [done|lia].
Qed.

(** ** The abstraction function over the list operations *)

Lemma absl_cons h e l kv : h !! e = Some kv → absl h (e :: l) = pair_of kv :: absl h l.
Proof. intros H. unfold absl. cbn. by rewrite H. Qed.

Lemma absl_app h l1 l2 : absl h (l1 ++ l2) = absl h l1 ++ absl h l2.
Proof. apply omap_app. Qed.

Lemma absl_insert_ne h e kv l : e ∉ l → absl (<[e := kv]> h) l = absl h l.
Proof.
  unfold absl. induction l as [|a l IH]; intros He; [done|].
  cbn. rewrite lookup_insert_ne by set_solver. rewrite IH by set_solver. done.
Qed.

Lemma absl_remove h e k l :
  (∀ e', e' ∈ l → ∃ kv, h !! e' = Some kv ∧ (key kv = k ↔ e' = e)) →
  absl h (list_Remove e l) = absent k (absl h l).
Proof.
  unfold absl, absent, list_Remove. induction l as [|a l IH]; intros H; [done|].
  destruct (H a) as (kv & Ha & Hk); [set_solver|].
  rewrite filter_cons. cbn [omap list_omap]. rewrite Ha. cbn [fmap option_fmap option_map].
  rewrite filter_cons. cbn.
  destruct (decide (a = e)) as [->|Hne].
  - rewrite !decide_False by naive_solver. apply IH. set_solver.
  - rewrite !decide_True by naive_solver. cbn. rewrite Ha. cbn. f_equal. apply IH. set_solver.
Qed.

Lemma absl_find h k e kv l :
  NoDup l → e ∈ l → h !! e = Some kv → key kv = k →
  (∀ e', e' ∈ l → ∃ kv', h !! e' = Some kv' ∧ (key kv' = k ↔ e' = e)) →
  abs_find k (absl h l) = Some (value kv).
Proof.
  unfold abs_find. intros Hnd He Hh Hk H. induction l as [|a l IH]; [set_solver|].
  destruct (H a) as (kv' & Ha & Hk'); [set_solver|].
  erewrite absl_cons by done. cbn. apply NoDup_cons in Hnd as [Hal Hnd].
  case_bool_decide as Hc; cbn in *.
  - apply Hk' in Hc as ->. by simplify_eq.
  - apply IH; [done|set_solver|set_solver].
Qed.

Lemma absl_fst_elem h k l :
  k ∈ (absl h l).*1 ↔ ∃ e kv, e ∈ l ∧ h !! e = Some kv ∧ key kv = k.
Proof.
  unfold absl. rewrite list_elem_of_fmap. setoid_rewrite list_elem_of_omap. split.
  - intros ([k' v'] & -> & e & He & Hf). cbn in Hf.
    apply fmap_Some in Hf as (kv & Hkv & [= -> ->]). by exists e, kv.
  - intros (e & kv & He & Hh & <-). exists (pair_of kv). split; [done|].
    exists e. by rewrite Hh.
Qed.

(** ** The operations *)

Lemma wf_key_iff c k e : wf c → catche c !! k = Some e →
  ∀ e', e' ∈ ll c → ∃ kv, elems c !! e' = Some kv ∧ (key kv = k ↔ e' = e).
Proof.
  intros Hwf Hk e' He'. destruct (wf_alloc c Hwf e' He') as [kv Hkv]. exists kv.
  split; [done|]. pose proof (proj1 (wf_map c Hwf k e) Hk) as (? & kv' & ? & ?).
  split; [|naive_solver]. intros <-.
  assert (catche c !! key kv = Some e') by (apply (wf_map c Hwf); eauto). congruence.
Qed.

Lemma wf_absent_key c k : wf c → catche c !! k = None → k ∉ (abs c).*1.
Proof.
  intros Hwf Hk (e & kv & He & Hh & Hkey)%absl_fst_elem.
  assert (catche c !! k = Some e) by (apply (wf_map c Hwf); eauto). congruence.
Qed.

Lemma wf_abs_find c k : wf c →
  abs_find k (abs c) = (e ← catche c !! k; value <$> elems c !! e).
Proof.
  intros Hwf. destruct (catche c !! k) as [e|] eqn:Hk.
  - destruct (proj1 (wf_map c Hwf k e) Hk) as (He & kv & Hkv & Hkey). cbn. rewrite Hkv.
    eapply absl_find; eauto using wf_nodup, wf_key_iff.
  - by apply abs_find_None, wf_absent_key.
Qed.

Lemma wf_remove_abs c k e : wf c → catche c !! k = Some e →
  absl (elems c) (list_Remove e (ll c)) = absent k (abs c).
Proof. intros Hwf Hk. apply absl_remove. by apply wf_key_iff. Qed.

Lemma NoDup_absl_fst h (l : list nat) :
  NoDup l → (∀ e, e ∈ l → is_Some (h !! e)) →
  (∀ e1 e2 kv1 kv2, e1 ∈ l → e2 ∈ l → h !! e1 = Some kv1 → h !! e2 = Some kv2 →
     key kv1 = key kv2 → e1 = e2) →
  NoDup (absl h l).*1.
Proof.
  induction l as [|e l IH]; intros Hnd Ha Hinj; [constructor|].
  apply NoDup_cons in Hnd as [He Hnd]. destruct (Ha e) as [kv Hkv]; [set_solver|].
  erewrite absl_cons by done. cbn. apply NoDup_cons. split.
  - intros (e' & kv' & He' & Hh & Hkey)%absl_fst_elem.
    rewrite (Hinj e e' kv kv') in He; set_solver.
  - apply IH; [done|set_solver|set_solver].
Qed.

Lemma wf_keys_nodup c : wf c → NoDup (abs c).*1.
Proof.
  intros Hwf. apply NoDup_absl_fst; [apply Hwf | apply Hwf |].
  intros e1 e2 kv1 kv2 H1 H2 Hk1 Hk2 Hkey.
  assert (catche c !! key kv1 = Some e1) by (apply (wf_map c Hwf); eauto).
  assert (catche c !! key kv1 = Some e2) by (apply (wf_map c Hwf); eauto). congruence.
Qed.

Lemma elem_of_MoveToFront e (l : list nat) x :
  e ∈ l → x ∈ list_MoveToFront e l ↔ x ∈ l.
Proof.
  unfold list_MoveToFront, list_Remove. intros He.
  rewrite elem_of_cons, list_elem_of_filter. destruct (decide (x = e)); naive_solver.
Qed.

Lemma NoDup_MoveToFront e (l : list nat) : NoDup l → NoDup (list_MoveToFront e l).
Proof.
  intros H. apply NoDup_cons. split; [|by apply NoDup_filter].
  unfold list_Remove. rewrite list_elem_of_filter. naive_solver.
Qed.

Lemma total_abs_get k l : NoDup l.*1 → total (abs_get k l) = total l.
Proof.
  unfold abs_get. intros Hnd. destruct (abs_find k l) as [v|] eqn:E; [|done].
  rewrite total_cons, (total_absent _ v) by done. lia.
Qed.

Lemma wf_MoveToFront c k e : wf c → catche c !! k = Some e →
  ∃ kv, elems c !! e = Some kv ∧ key kv = k ∧ abs_find k (abs c) = Some (value kv) ∧
    absl (elems c) (list_MoveToFront e (ll c)) = (k, value kv) :: absent k (abs c).
Proof.
  intros Hwf Hk. destruct (proj1 (wf_map c Hwf k e) Hk) as (He & kv & Hkv & Hkey).
  exists kv. split_and!; [done|done| |].
  - rewrite wf_abs_find, Hk by done. cbn. by rewrite Hkv.
  - unfold list_MoveToFront. erewrite absl_cons by done.
    rewrite (wf_remove_abs c k) by done. unfold pair_of. by rewrite Hkey.
Qed.

Lemma Get_ok c k : wf c → ∃ c',
  Get k c = Ret (abs_find k (abs c), c') ∧
  wf c' ∧ abs c' = abs_get k (abs c) ∧ same_config c c'.
Proof.
  intros Hwf. unfold Get, abs_get. destruct (catche c !! k) as [e|] eqn:Hk.
  - destruct (wf_MoveToFront c k e Hwf Hk) as (kv & Hkv & Hkey & Hf & Habs).
    destruct (proj1 (wf_map c Hwf k e) Hk) as [He _].
    cbn. rewrite Hkv, Hf. eexists. split_and!; [done| |by apply Habs|done].
    split; cbn.
    + by apply NoDup_MoveToFront, Hwf.
    + intros x Hx. apply Hwf. by apply elem_of_MoveToFront in Hx.
    + apply Hwf.
    + intros k' e'. rewrite elem_of_MoveToFront by done. apply Hwf.
    + rewrite (wf_nbytes c Hwf). f_equal. symmetry. etrans; [exact (f_equal total Habs)|].
      rewrite <- (total_abs_get k (abs c)) by by apply wf_keys_nodup.
      unfold abs_get. by rewrite Hf.
  - rewrite (proj2 (abs_find_None _ _)) by by apply wf_absent_key. by exists c.
Qed.

Lemma wf_Back c l kv : wf c → abs c = l ++ [kv] → ∃ q e ent,
  ll c = q ++ [e] ∧ elems c !! e = Some ent ∧ pair_of ent = kv ∧ absl (elems c) q = l.
Proof.
  intros Hwf Habs. destruct (decide (ll c = [])) as [E|E].
  { unfold abs in Habs. rewrite E in Habs. by destruct l. }
  destruct (exists_last E) as (q & e & Hq).
  destruct (wf_alloc c Hwf e) as [ent Hent]; [rewrite Hq; set_solver|].
  unfold abs in Habs. rewrite Hq, absl_app in Habs.
  erewrite (absl_cons _ e) in Habs by done. apply app_inj_tail in Habs as [? ?].
  by exists q, e, ent.
Qed.

Lemma RemoveOldest_ok c l kv : wf c → abs c = l ++ [kv] → ∃ c',
  RemoveOldest c = Ret (c', if OneEvicted c then [kv] else []) ∧
  wf c' ∧ abs c' = l ∧ same_config c c'.
Proof.
  intros Hwf Habs. destruct (wf_Back c l kv Hwf Habs) as (q & e & ent & Hq & Hent & <- & Hl).
  pose proof (wf_nodup c Hwf) as Hnd.
  assert (list_Remove e (ll c) = q) as Hrem by (rewrite Hq in *; by apply filter_remove_last).
  rewrite Hq in Hnd. apply NoDup_app in Hnd as (Hndq & Hdisj & _).
  assert (catche c !! key ent = Some e) as Hk.
  { apply (wf_map c Hwf). rewrite Hq. split; [set_solver|eauto]. }
  assert (last (ll c) = Some e) as Hlast by (rewrite Hq; apply last_snoc).
  unfold RemoveOldest, list_Back. rewrite Hlast, Hent, Hrem.
  eexists. split_and!; [done| |by apply Hl|done]. split; cbn.
  - done.
  - intros x Hx. apply (wf_alloc c Hwf). rewrite Hq. set_solver.
  - apply Hwf.
  - intros k' e'. destruct (decide (key ent = k')) as [<-|Hne].
    + rewrite lookup_delete_eq. split; [done|]. intros (He' & kv' & Hkv' & Hkey').
      assert (catche c !! key ent = Some e') as Hk'.
      { apply (wf_map c Hwf). rewrite Hq. split; [set_solver|eauto]. }
      rewrite Hk in Hk'. simplify_eq. exfalso. eapply Hdisj; [done|set_solver].
    + rewrite lookup_delete_ne by done. rewrite (wf_map c Hwf), Hq, elem_of_app, list_elem_of_singleton.
      naive_solver.
  - rewrite (wf_nbytes c Hwf), Habs, total_app, total_cons. unfold abs; cbn. rewrite Hl.
    unfold total, size_of, pair_of. cbn. wrap_lia.
Qed.

Lemma RemoveOldest_nil c : wf c → abs c = [] → RemoveOldest c = Ret (c, []).
Proof.
  intros Hwf Habs. unfold RemoveOldest, list_Back.
  destruct (ll c) as [|e q] eqn:E; [done|].
  destruct (wf_alloc c Hwf e) as [kv Hkv]; [rewrite E; set_solver|].
  unfold abs in Habs. rewrite E in Habs. by erewrite absl_cons in Habs.
Qed.

(** The word-sized sums of the source are the wrapped mathematical sums. *)
Lemma i64_add_size a x y : i64 (i64 a + i64 (i64 x + i64 y)) = i64 (a + (x + y)).
Proof. wrap_lia. Qed.

Lemma i64_add_diff a x y : i64 (i64 a + i64 (i64 x - i64 y)) = i64 (a + (x - y)).
Proof. wrap_lia. Qed.

Lemma put_hit c k v e : wf c → catche c !! k = Some e → ∃ c',
  put k v c = Ret c' ∧ wf c' ∧ abs c' = abs_put k v (abs c) ∧ same_config c c'.
Proof.
  intros Hwf Hk. destruct (wf_MoveToFront c k e Hwf Hk) as (kv & Hkv & Hkey & Hf & Habs).
  destruct (proj1 (wf_map c Hwf k e) Hk) as [He _].
  assert (absl (<[e:=Entry (key kv) v]> (elems c)) (list_MoveToFront e (ll c))
          = abs_put k v (abs c)) as Habs'.
  { unfold list_MoveToFront, abs_put in *.
    erewrite absl_cons by apply lookup_insert_eq. unfold pair_of; cbn [key value].
    rewrite Hkey, absl_insert_ne by (unfold list_Remove; rewrite list_elem_of_filter; naive_solver).
    by rewrite (wf_remove_abs c k e) by done. }
  unfold put. rewrite Hk, Hkv. eexists. split_and!; [done| |by apply Habs'|done]. split; cbn.
  - by apply NoDup_MoveToFront, Hwf.
  - intros x Hx%elem_of_MoveToFront; [|done]. rewrite lookup_insert_is_Some'.
    right. by apply Hwf.
  - intros x. rewrite lookup_insert_is_Some'. intros [<-|Hx]; eapply wf_fresh; eauto.
  - intros k' e'. rewrite elem_of_MoveToFront, (wf_map c Hwf) by done.
    rewrite lookup_insert. case_decide; naive_solver.
  - rewrite (wf_nbytes c Hwf), i64_add_diff. unfold abs at 2. cbn. rewrite Habs'.
    unfold abs_put. rewrite total_cons, (total_absent _ (value kv)) by (done || by apply wf_keys_nodup).
    unfold size_of. cbn. f_equal. lia.
Qed.

Lemma put_miss c k v : wf c → catche c !! k = None → ∃ c',
  put k v c = Ret c' ∧ wf c' ∧ abs c' = abs_put k v (abs c) ∧ same_config c c'.
Proof.
  intros Hwf Hk. pose proof (wf_absent_key c k Hwf Hk) as Hab.
  assert (fresh c ∉ ll c) as Hfr.
  { intros H%(wf_alloc c Hwf)%(wf_fresh c Hwf). lia. }
  assert (elems c !! fresh c = None) as Hfr'.
  { destruct (elems c !! fresh c) eqn:E; [|done].
    assert (fresh c < fresh c)%nat by (apply Hwf; eauto). lia. }
  assert (absl (<[fresh c:=Entry k v]> (elems c)) (fresh c :: ll c)
          = abs_put k v (abs c)) as Habs'.
  { erewrite absl_cons by apply lookup_insert_eq. unfold abs_put, pair_of; cbn [key value].
    by rewrite absl_insert_ne, absent_id by done. }
  unfold put. rewrite Hk. eexists. split_and!; [done| |by apply Habs'|done]. split; cbn.
  - apply NoDup_cons. split; [done|apply Hwf].
  - intros x [->|Hx]%elem_of_cons; rewrite lookup_insert_is_Some'; [by left|].
    right. by apply Hwf.
  - intros x. rewrite lookup_insert_is_Some'. intros [<-|Hx%(wf_fresh c Hwf)]; lia.
  - intros k' e'. unfold list_PushFront. rewrite elem_of_cons, !lookup_insert.
    destruct (wf_map c Hwf k' e') as [Hm1 Hm2]. repeat case_decide; subst; naive_solver.
  - rewrite (wf_nbytes c Hwf), i64_add_size. unfold abs at 2. cbn. unfold list_PushFront.
    rewrite Habs'. unfold abs_put. rewrite total_cons, absent_id by done.
    unfold size_of. cbn. f_equal. lia.
Qed.

Lemma put_ok c k v : wf c → ∃ c',
  put k v c = Ret c' ∧ wf c' ∧ abs c' = abs_put k v (abs c) ∧ same_config c c'.
Proof.
  intros Hwf. destruct (catche c !! k) as [e|] eqn:E; eauto using put_hit, put_miss.
Qed.

Lemma New_wf max cb : wf (New max cb).
Proof.
  split; cbn; [constructor|set_solver| | |done].
  - intros e [? He]. by rewrite lookup_empty in He.
  - intros k e. rewrite lookup_empty. set_solver.
Qed.

Lemma keep_prefix max (l : list (string * Value)) : keep max l `prefix_of` l.
Proof. unfold keep. case_bool_decide; [done|apply fit_prefix]. Qed.

Lemma dropped_snoc (cb : bool) n (l : list (string * Value)) kv : (n ≤ length l)%nat →
  (if cb then [kv] else []) ++ dropped cb n l = dropped cb n (l ++ [kv]).
Proof. intros Hn. destruct cb; [|done]. cbn. by rewrite drop_app_le, reverse_snoc. Qed.

Lemma dropped_all cb (l : list (string * Value)) : dropped cb (length l) l = [].
Proof. destruct cb; [|done]. cbn. by rewrite drop_all. Qed.

Lemma nbytes_total c :
  wf c → sizes_ok (abs c) → total (abs c) < 2 ^ 63 → nbytes c = total (abs c).
Proof.
  intros Hwf Hs Ht. rewrite (wf_nbytes c Hwf). apply wraps_small; [lia|].
  pose proof (total_nonneg _ Hs). lia.
Qed.

Lemma sizes_ok_snoc l kv : sizes_ok (l ++ [kv]) → sizes_ok l ∧ total l ≤ total (l ++ [kv]).
Proof.
  intros [? [Hkv _]%Forall_cons]%Forall_app. split; [done|]. rewrite total_app, total_cons.
  unfold total at 3. cbn. lia.
Qed.

Lemma evict_ok fuel (c : Cache) :
  wf c → 0 ≤ maxBytes c → sizes_ok (abs c) → total (abs c) < 2 ^ 63 →
  (length (abs c) ≤ fuel)%nat → ∃ c',
  evict fuel c = Ret (c', dropped (OneEvicted c) (length (keep (maxBytes c) (abs c))) (abs c)) ∧
  wf c' ∧ abs c' = keep (maxBytes c) (abs c) ∧ same_config c c'.
Proof.
  revert c. induction fuel as [|fuel IH]; intros c Hwf Hmax Hs Ht Hlen;
    cbn [evict]; case_bool_decide as Hg; rewrite nbytes_total in Hg by done.
  1: { destruct (abs c); [unfold total in Hg; cbn in *; lia|cbn in *; lia]. }
  1,3: assert (keep (maxBytes c) (abs c) = abs c) as Hk
         by (unfold keep; case_bool_decide; [done|apply fit_all; [done|lia]]);
       rewrite Hk, dropped_all; by exists c.
  destruct Hg as [Hnz Hg]. destruct (decide (abs c = [])) as [E|E].
  { rewrite E in Hg. unfold total in Hg. cbn in Hg. lia. }
  destruct (exists_last E) as (l & kv & Habs).
  destruct (RemoveOldest_ok c l kv Hwf Habs) as (c1 & Hr & Hwf1 & Habs1 & Hm & Hcb).
  rewrite Habs in Hs, Ht, Hg, Hlen. rewrite length_app in Hlen. cbn in Hlen.
  destruct (sizes_ok_snoc _ _ Hs) as [Hs1 Ht1].
  destruct (IH c1) as (c2 & He & Hwf2 & Habs2 & Hm2 & Hcb2); rewrite ?Habs1, ?Hm; try done; try lia.
  rewrite Hm, Hcb, Habs1 in He. rewrite Hm, Habs1 in Habs2.
  assert (keep (maxBytes c) (abs c) = keep (maxBytes c) l) as Hk.
  { unfold keep. rewrite bool_decide_eq_false_2 by done. rewrite Habs. by apply fit_snoc. }
  rewrite Hr. cbn [obind]. rewrite He. cbn [obind]. exists c2.
  rewrite Hk, Habs, dropped_snoc by apply prefix_length, keep_prefix.
  unfold same_config in *. rewrite Hm2, Hcb2. auto.
Qed.

Lemma i64_total_nil : i64 (total []) = 0.
Proof. done. Qed.

(** Without any assumption on the sizes, the loop stops once the list is
    empty, because the wrapped sum of no entries is zero. *)
Lemma evict_terminates fuel c :
  wf c → 0 ≤ maxBytes c → (length (abs c) ≤ fuel)%nat → ∃ c' ev,
  evict fuel c = Ret (c', ev) ∧ wf c' ∧ same_config c c' ∧
  (maxBytes c = 0 ∨ nbytes c' ≤ maxBytes c) ∧ abs c' `prefix_of` abs c.
Proof.
  revert c. induction fuel as [|fuel IH]; intros c Hwf Hmax Hlen; cbn [evict];
    case_bool_decide as Hg.
  1: { pose proof (wf_nbytes c Hwf) as Hn. destruct (abs c); [|cbn in *; lia].
       rewrite Hn, i64_total_nil in Hg. lia. }
  1,3: exists c, []; split_and!; [done|done|done| |done];
       destruct (decide (maxBytes c = 0)); [by left|right; lia].
  destruct (decide (abs c = [])) as [E|E].
  { rewrite (wf_nbytes c Hwf), E, i64_total_nil in Hg. lia. }
  destruct (exists_last E) as (l & kv & Habs).
  destruct (RemoveOldest_ok c l kv Hwf Habs) as (c1 & Hr & Hwf1 & Habs1 & Hm & Hcb).
  rewrite Habs, length_app in Hlen. cbn in Hlen.
  destruct (IH c1) as (c2 & ev & He & Hwf2 & [Hm2 Hcb2] & Hb & Hp);
    rewrite ?Habs1, ?Hm; try done; try lia.
  rewrite Hr. cbn [obind]. rewrite He. cbn [obind]. do 2 eexists.
  split_and!; [done|done| | |].
  - split; congruence.
  - by rewrite <- Hm.
  - rewrite Habs. rewrite Habs1 in Hp. by apply prefix_app_r.
Qed.

Lemma evict_diverges fuel c :
  wf c → maxBytes c < 0 → sizes_ok (abs c) → total (abs c) < 2 ^ 63 →
  evict fuel c = NoFuel.
Proof.
  revert c. induction fuel as [|fuel IH]; intros c Hwf Hmax Hs Ht; cbn [evict];
    rewrite bool_decide_eq_true_2
      by (rewrite nbytes_total by done; pose proof (total_nonneg _ Hs); lia); [done|].
  destruct (decide (abs c = [])) as [E|E].
  { rewrite RemoveOldest_nil by done. cbn [obind]. by rewrite IH. }
  destruct (exists_last E) as (l & kv & Habs).
  destruct (RemoveOldest_ok c l kv Hwf Habs) as (c1 & Hr & Hwf1 & Habs1 & Hm & Hcb).
  rewrite Hr. cbn [obind]. rewrite Habs in Hs, Ht. destruct (sizes_ok_snoc _ _ Hs) as [Hs1 Ht1].
  rewrite IH; rewrite ?Hm, ?Habs1; by try lia.
Qed.

Lemma put_sizes c k v : wf c → sizes_ok ((k, v) :: abs c) → sizes_ok (abs_put k v (abs c)).
Proof.
  intros Hwf [Hkv Hs]%Forall_cons. apply Forall_cons. split; [done|].
  unfold absent. apply Forall_forall. intros x [_ Hx]%list_elem_of_filter.
  by eapply Forall_forall in Hs.
Qed.

Lemma length_abs_put k v l : (length (abs_put k v l) ≤ S (length l))%nat.
Proof. cbn. apply le_n_S. apply length_filter. Qed.

Lemma Add_spec fuel (c : Cache) k v :
  wf c → 0 ≤ maxBytes c → sizes_ok ((k, v) :: abs c) →
  total (abs_put k v (abs c)) < 2 ^ 63 → (length (abs c) < fuel)%nat →
  let l := abs_put k v (abs c) in
  let kept := keep (maxBytes c) l in
  ∃ c', Add fuel k v c = Ret (c', dropped (OneEvicted c) (length kept) l) ∧
    wf c' ∧ abs c' = kept ∧ same_config c c'.
Proof.
  intros Hwf Hmax Hs Ht Hf. cbn zeta.
  destruct (put_ok c k v Hwf) as (c1 & Hp & Hwf1 & Habs1 & Hm1 & Hcb1).
  pose proof (length_abs_put k v (abs c)).
  destruct (evict_ok fuel c1) as (c2 & He & Hwf2 & Habs2 & Hm2 & Hcb2);
    rewrite ?Habs1, ?Hm1; try done; try lia; [by apply put_sizes|].
  exists c2. unfold Add. rewrite Hp. cbn [obind]. rewrite He, Habs2, Hm1, Hcb1, Habs1.
  split_and!; try done. split; congruence.
Qed.

Lemma RemoveOldest_wf c : wf c → ∃ c' ev, RemoveOldest c = Ret (c', ev) ∧ wf c'.
Proof.
  intros Hwf. destruct (decide (abs c = [])) as [E|E].
  - exists c, []. split; [by apply RemoveOldest_nil|done].
  - destruct (exists_last E) as (l & kv & Habs).
    destruct (RemoveOldest_ok c l kv Hwf Habs) as (c1 & ? & ? & _). eauto.
Qed.

Lemma wf_length c : wf c → length (ll c) = length (abs c).
Proof.
  intros Hwf. unfold abs. pose proof (wf_alloc c Hwf) as Ha. revert Ha.
  generalize (ll c). intros l. induction l as [|e l IH]; intros Ha; [done|].
  destruct (Ha e) as [kv Hkv]; [set_solver|]. erewrite absl_cons by done. cbn.
  f_equal. apply IH. set_solver.
Qed.

Lemma Add_total (c : Cache) k v :
  wf c → 0 ≤ maxBytes c → ∃ c' ev,
  Add (S (Len_cache c)) k v c = Ret (c', ev) ∧ wf c' ∧ same_config c c' ∧
  (maxBytes c = 0 ∨ nbytes c' ≤ maxBytes c) ∧ abs c' `prefix_of` abs_put k v (abs c).
Proof.
  intros Hwf Hmax.
  destruct (put_ok c k v Hwf) as (c1 & Hp & Hwf1 & Habs1 & Hm1 & Hcb1).
  pose proof (length_abs_put k v (abs c)). pose proof (wf_length c Hwf). unfold Len_cache.
  destruct (evict_terminates (S (length (ll c))) c1) as (c2 & ev & He & Hwf2 & [Hm2 Hcb2] & Hb & Hpre);
    rewrite ?Habs1, ?Hm1; try done; try lia.
  exists c2, ev. unfold Add, same_config. rewrite Hp, <- Hm1. cbn [obind]. rewrite He.
  split_and!; try done; congruence.
Qed.

Lemma keep_head max kv l :
  max = 0 ∨ size_of kv ≤ max → ∃ l', keep max (kv :: l) = kv :: l'.
Proof.
  intros H. unfold keep. case_bool_decide; [eauto|]. cbn.
  rewrite bool_decide_eq_true_2 by lia. eauto.
Qed.

Lemma abs_find_head k v l : abs_find k ((k, v) :: l) = Some v.
Proof. unfold abs_find. cbn. by rewrite bool_decide_eq_true_2. Qed.

Lemma step_wf c c' : step c c' → wf c → wf c'.
Proof.
  intros Hst Hwf. destruct Hst as [k c v c' Hg|fuel k v c c' ev Ha|c c' ev Hr].
  - destruct (Get_ok c k Hwf) as (c1 & Hg1 & ? & _). rewrite Hg in Hg1. by simplify_eq.
  - destruct (put_ok c k v Hwf) as (c1 & Hp & Hwf1 & _). unfold Add in Ha.
    rewrite Hp in Ha. cbn [obind] in Ha. clear Hp Hwf c.
    revert c1 c' ev Hwf1 Ha. induction fuel as [|fuel IH]; intros c1 c' ev Hwf1 Ha;
      cbn [evict] in Ha; case_bool_decide; simplify_eq; try done.
    destruct (RemoveOldest_wf c1 Hwf1) as (c2 & ev2 & Hr & Hwf2). rewrite Hr in Ha.
    cbn [obind] in Ha. destruct (evict fuel c2) as [[c3 ev3]| |] eqn:He; cbn in Ha; simplify_eq.
    by eapply IH.
  - destruct (RemoveOldest_wf c Hwf) as (c1 & ev1 & Hr1 & ?). rewrite Hr in Hr1. by simplify_eq.
Qed.

Lemma reachable_wf c : reachable c → wf c.
Proof.
  intros (max & cb & Hr). revert Hr. generalize (New_wf max cb). generalize (New max cb).
  intros c0 Hwf Hr. induction Hr; eauto using step_wf.
Qed.

(** ** Properties *)

(** C12: [Add] on a cache with a non-negative byte budget returns, and what it
    leaves is the abstract cache's answer: the new pair goes to the front, the
    longest prefix (in order of use) that fits the budget stays, and the
    callback is called with the dropped pairs, least recently used first. *)
Theorem Add_refines fuel (c : Cache) k v :
  reachable c → 0 ≤ maxBytes c → sizes_ok ((k, v) :: abs c) →
  total (abs_put k v (abs c)) < 2 ^ 63 → (length (abs c) < fuel)%nat →
  let l := abs_put k v (abs c) in
  let kept := keep (maxBytes c) l in
  ∃ c', Add fuel k v c = Ret (c', dropped (OneEvicted c) (length kept) l) ∧
    abs c' = kept ∧ same_config c c' ∧
    (∀ p, maxBytes c ≠ 0 → p `prefix_of` l → total p ≤ maxBytes c → p `prefix_of` kept).
Proof.
  intros Hr%reachable_wf Hmax Hs Ht Hf. cbn zeta.
  destruct (Add_spec fuel c k v) as (c' & ? & ? & ? & ?); try done.
  exists c'. split_and!; try done. intros p Hnz Hp Hle.
  unfold keep. rewrite bool_decide_eq_false_2 by done.
  apply fit_longest; [by apply put_sizes|done|done].
Qed.

(** C17: in every state a client can reach, the list and the map of the cache
    describe the same elements, no element is listed twice, no pointer
    dangles, and the byte counter is the (wrapped) sum of the key and value
    sizes of the entries. *)
Theorem reachable_consistent (c : Cache) :
  reachable c →
  NoDup (abs c).*1 ∧ nbytes c = i64 (total (abs c)) ∧
  (∀ k, is_Some (catche c !! k) ↔ k ∈ (abs c).*1) ∧
  Len_cache c = length (abs c).
Proof.
  intros Hwf%reachable_wf. split_and!; [by apply wf_keys_nodup|apply Hwf| |].
  - intros k. split.
    + intros [e He]. apply absl_fst_elem. apply (wf_map c Hwf) in He as (? & kv & ? & ?).
      by exists e, kv.
    + intros (e & kv & ? & ? & ?)%absl_fst_elem. exists e. apply (wf_map c Hwf). eauto.
  - by apply wf_length.
Qed.

(** The eviction loop of [Add] terminates whatever the sizes of the values
    are, in at most one turn per entry, and leaves the counter within the
    budget (a budget of 0 means no limit). *)
Theorem Add_terminates (c : Cache) k v :
  reachable c → 0 ≤ maxBytes c → ∃ c' ev,
  Add (S (Len_cache c)) k v c = Ret (c', ev) ∧
  (maxBytes c = 0 ∨ nbytes c' ≤ maxBytes c).
Proof.
  intros Hwf%reachable_wf Hmax.
  destruct (Add_total c k v Hwf Hmax) as (c' & ev & ? & _ & _ & ? & _). eauto.
Qed.

(** A negative byte budget makes [Add] loop forever: the loop condition
    stays true on the empty list, on which [RemoveOldest] does nothing. *)
Theorem Add_negative_budget_diverges (c : Cache) k v :
  reachable c → maxBytes c < 0 → sizes_ok ((k, v) :: abs c) →
  total (abs_put k v (abs c)) < 2 ^ 63 → ∀ fuel, Add fuel k v c = NoFuel.
Proof.
  intros Hwf%reachable_wf Hmax Hs Ht fuel.
  destruct (put_ok c k v Hwf) as (c1 & Hp & Hwf1 & Habs1 & Hm1 & Hcb1).
  unfold Add. rewrite Hp. cbn [obind].
  apply evict_diverges; rewrite ?Habs1, ?Hm1; try done. by apply put_sizes.
Qed.

(** [Get] returns the value of the key or a miss, changes neither the
    pairs nor the counter, and makes a key that is present the most recently
    used one; a miss changes nothing. *)
Theorem Get_refines (c : Cache) k :
  reachable c → ∃ c', Get k c = Ret (abs_find k (abs c), c') ∧
    abs c' = abs_get k (abs c) ∧ nbytes c' = nbytes c ∧ same_config c c' ∧
    (abs_find k (abs c) = None → c' = c).
Proof.
  intros Hwf%reachable_wf. destruct (Get_ok c k Hwf) as (c' & Hg & Hwf' & Habs & Hc).
  exists c'. split_and!; try done.
  - rewrite (wf_nbytes c' Hwf'), (wf_nbytes c Hwf), Habs.
    by rewrite total_abs_get by by apply wf_keys_nodup.
  - intros Hn. unfold Get in Hg. rewrite wf_abs_find in Hn, Hg by done.
    destruct (catche c !! k) as [e|] eqn:E; [|by simplify_eq]. cbn in *.
    by destruct (elems c !! e).
Qed.
End Lru.

(** ** Concrete instances *)

Lemma New_reachable {V} (Len : V → Z) max cb : reachable Len (New max cb).
Proof. exists max, cb. reflexivity. Qed.

(** An entry larger than the whole budget is evicted by its own [Add]. *)
Lemma Add_refines_witness :
  ∃ c', Add str_len 1 "k"%string "12345"%string (New 3 true) = Ret (c', [("k", "12345")]%string) ∧
        abs c' = [].
Proof.
  destruct (Add_refines str_len 1 (New 3 true) "k" "12345") as (c' & H & H2 & _).
  - apply New_reachable.
  - cbn; lia.
  - repeat constructor; vm_compute; congruence.
  - vm_compute; congruence.
  - cbn; lia.
  - exists c'. split; [exact H|exact H2].
Defined.

Lemma reachable_consistent_witness :
  NoDup (abs (New (Value := string) 3 true)).*1 ∧ nbytes (New (Value := string) 3 true) = 0.
Proof.
  destruct (reachable_consistent str_len (New 3 true)) as (H & H2 & _).
  - apply New_reachable.
  - split; [exact H|exact H2].
Defined.

Lemma Add_terminates_witness :
  ∃ c' ev, Add str_len 1 "k"%string "v"%string (New 3 false) = Ret (c', ev) ∧
           (3 = 0 ∨ nbytes c' ≤ 3).
Proof.
  apply (Add_terminates str_len (New 3 false)); [apply New_reachable|cbn; lia].
Defined.

Lemma Add_negative_budget_diverges_witness :
  maxBytes (New (Value := string) (-1) false) < 0 ∧
  ∀ fuel, Add str_len fuel "k"%string "v"%string (New (-1) false) = NoFuel.
Proof.
  split; [reflexivity|]. apply (Add_negative_budget_diverges str_len (New (-1) false)).
  - apply New_reachable.
  - cbn; lia.
  - repeat constructor; vm_compute; congruence.
  - vm_compute; congruence.
Defined.

Lemma Get_refines_witness :
  ∃ c', Get "k"%string (New (Value := string) 3 true) = Ret (None, c') ∧ abs c' = [].
Proof.
  destruct (Get_refines str_len (New 3 true) "k") as (c' & H & H2 & _);
    [apply New_reachable|]. exists c'. split; [exact H|exact H2].
Defined.

(** The scenario of TestOnEvicted in [src/geecache/lru/lru_test.go]: with ten
    bytes, adding k3 evicts key1 and k2. *)
Example on_evicted_scenario :
  (let! (c1, e1) := Add str_len 5 "key1"%string "123456"%string (New 10 true) in
   let! (c2, e2) := Add str_len 5 "k2"%string "k2"%string c1 in
   let! (c3, e3) := Add str_len 5 "k3"%string "k3"%string c2 in
   let! (c4, e4) := Add str_len 5 "k4"%string "k4"%string c3 in
   Ret ((e1 ++ e2 ++ e3 ++ e4).*1, (abs c4).*1, nbytes c4))
  = Ret (["key1"; "k2"]%string, ["k4"; "k3"]%string, 8).
Proof. vm_compute. reflexivity. Qed.
