(* ===== verification/ConsistentHash.v ===== *)
(** * geecache/consistenthash: the hash ring

    Models [src/geecache/consistenthash/consistenthash.go] with the functions
    of the Go library it calls: [crc32.ChecksumIEEE] bit by bit, the binary
    search of [sort.Search] on machine integers, [sort.Ints] and
    [strconv.Itoa].  The ring is specified by the clockwise owner of a hash
    ([ring_owner]); the theorems show that [Get] finds it, that adding nodes
    moves keys only to the added nodes, and when the order of the nodes does
    not matter. *)

From S2P Require Import Prelude.

(** ** hash/crc32 *)

Definition crc32_poly : Z := 0xEDB88320.

Fixpoint crc32_bits (n : nat) (c : Z) : Z :=
  match n with
  | O => c
  | S n => crc32_bits n
             (if Z.odd c then Z.lxor (Z.shiftr c 1) crc32_poly else Z.shiftr c 1)
  end.

Definition ChecksumIEEE (data : string) : Z :=
  Z.lxor (foldl (λ c b, crc32_bits 8 (Z.lxor c b)) 0xFFFFFFFF (bytes_of data)) 0xFFFFFFFF.

(** ** sort.Search

    [h := int(uint(i+j) >> 1)] on 64-bit integers. *)

Definition mid (i j : Z) : Z := Z.shiftr (u64 (i64 (i + j))) 1.

Fixpoint search_loop (fuel : nat) (f : Z → outcome bool) (i j : Z) : outcome Z :=
  if bool_decide (i < j) then
    match fuel with
    | O => NoFuel
    | S fuel =>
        let h := mid i j in
        let! b := f h in
        if (b : bool) then search_loop fuel f i h else search_loop fuel f (h + 1) j
    end
  else Ret i.

Definition Search (n : Z) (f : Z → outcome bool) : outcome Z :=
  search_loop (Z.to_nat n) f 0 n.

(** ** The ring *)

Definition Hash : Type := string → Z.

Record Map := mkMap {
  hash : Hash;
  replicas : Z;
  keys : list Z;
  hasMap : gmap Z string;
}.

Definition New (replicas : Z) (fn : option Hash) : Map :=
  mkMap (default ChecksumIEEE fn) replicas [] ∅.

(** [int(m.hash(data))]: the hash is an unsigned 32-bit integer. *)
Definition hash_int (m : Map) (data : string) : Z := u32 (hash m data).

Definition add_replica (key : string) (m : Map) (i : nat) : Map :=
  let h := hash_int m (pretty (Z.of_nat i) +:+ key) in
  mkMap (hash m) (replicas m) (keys m ++ [h]) (<[h := key]> (hasMap m)).

Definition add_key (m : Map) (key : string) : Map :=
  foldl (add_replica key) m (seq 0 (Z.to_nat (replicas m))).

Definition Add (ks : list string) (m : Map) : Map :=
  let m := foldl add_key m ks in
  mkMap (hash m) (replicas m) (merge_sort Z.le (keys m)) (hasMap m).

Definition Get (key : string) (m : Map) : outcome string :=
  if bool_decide (keys m = []) then Ret ""%string
  else
    let h := hash_int m key in
    let n := Z.of_nat (length (keys m)) in
    let! idx := Search n (λ i, let! k := goindex (keys m) i in Ret (bool_decide (h ≤ k))) in
    let! k := goindex (keys m) (Z.rem idx n) in
    Ret (default ""%string (hasMap m !! k)).

(** ** Specification *)

(** The (hash, node) pairs of the virtual nodes of [ks], in insertion order. *)
Definition vnodes (m : Map) (ks : list string) : list (Z * string) :=
  flat_map (λ key, (λ i, (hash_int m (pretty (Z.of_nat i) +:+ key), key))
                     <$> seq 0 (Z.to_nat (replicas m))) ks.

(** The first point of the ring at or after [h], going round at the end. *)
Definition ring_owner (ring : list Z) (h k : Z) : Prop :=
  k ∈ ring ∧
  ((h ≤ k ∧ ∀ k', k' ∈ ring → h ≤ k' → k ≤ k') ∨
   ((∀ k', k' ∈ ring → k' < h) ∧ ∀ k', k' ∈ ring → k ≤ k')).

(** The rings a client can build: [New] followed by any calls of [Add]. *)
Inductive built (r : Z) (fn : option Hash) : list string → Map → Prop :=
  | built_new : built r fn [] (New r fn)
  | built_add ns ks m : built r fn ns m → built r fn (ns ++ ks) (Add ks m).

Definition no_collision (m : Map) (ks : list string) : Prop :=
  ∀ h a b, (h, a) ∈ vnodes m ks → (h, b) ∈ vnodes m ks → a = b.

Record wf (ns : list string) (m : Map) : Prop := {
  wf_sorted : Sorted Z.le (keys m);
  wf_dom : ∀ h, h ∈ keys m ↔ is_Some (hasMap m !! h);
  wf_node : ∀ h n, hasMap m !! h = Some n → (h, n) ∈ vnodes m ns;
  wf_len : ns ≠ [] → 0 < replicas m → keys m ≠ [];
}.

(** [f] answers inside the range and is monotone: false before [r], true from
    [r] on. *)
Definition threshold (f : Z → outcome bool) (n r : Z) : Prop :=
  0 ≤ r ≤ n ∧ ∀ i, 0 ≤ i < n → f i = Ret (bool_decide (r ≤ i)).

(** The map after inserting the pairs of [l] from left to right. *)
Definition insert_all (l : list (Z * string)) (hm : gmap Z string) : gmap Z string :=
  foldl (λ hm p, <[p.1 := p.2]> hm) hm l.

(** The number of points of the ring before [h]. *)
Definition rank (h : Z) (ring : list Z) : nat := length (filter (λ x, x < h) ring).

(** A hash for concrete rings, that of TestHashing in
    [src/geecache/consistenthash/consistenthash_test.go]: the decimal value. *)
Definition atoi_hash (s : string) : Z := foldl (λ a c, a * 10 + (c - 48)) 0 (bytes_of s).

(** ** sort.Search finds the least index *)

Lemma mid_eq i j : 0 ≤ i → i < j → j < 2 ^ 63 → mid i j = (i + j) `div` 2.
Proof.
  intros. unfold mid. rewrite Z.shiftr_div_pow2 by lia. f_equal.
  unfold wrapu, wraps. rewrite Zminus_mod_idemp_l.
  replace (i + j + 2 ^ (64 - 1) - 2 ^ (64 - 1)) with (i + j) by lia.
  apply Z.mod_small. lia.
Qed.

Lemma mid_bounds i j : 0 ≤ i → i < j → j < 2 ^ 63 → i ≤ mid i j < j.
Proof. intros. rewrite mid_eq by done. Z.div_mod_to_equations. lia. Qed.

Lemma search_loop_ok fuel f n r i j :
  threshold f n r → n < 2 ^ 63 → 0 ≤ i → i ≤ r ≤ j → j ≤ n → j - i ≤ Z.of_nat fuel →
  search_loop fuel f i j = Ret r.
Proof.
  intros [Hr Hf] Hn. revert i j. induction fuel as [|fuel IH]; intros i j Hi Hrij Hj Hfuel;
    cbn [search_loop]; case_bool_decide; try lia; try (f_equal; lia).
  pose proof (mid_bounds i j). rewrite Hf by lia. cbn [obind].
  case_bool_decide; apply IH; lia.
Qed.

Lemma Search_ok n f r : threshold f n r → n < 2 ^ 63 → Search n f = Ret r.
Proof. intros Hf Hn. pose proof Hf as [? _]. eapply search_loop_ok; eauto; lia. Qed.

Lemma rank_lookup ring h i x :
  StronglySorted Z.le ring → ring !! i = Some x → (h ≤ x ↔ (rank h ring ≤ i)%nat).
Proof.
  intros Hs. revert i. unfold rank. induction Hs as [|y ring Hs IH Hy]; intros i Hi; [done|].
  rewrite filter_cons. destruct i as [|i]; cbn in Hi.
  - simplify_eq. case_decide as Hd; cbn; [lia|].
    assert (filter (λ z, z < h) ring = []) as ->; [|cbn; lia].
    apply elem_of_nil_inv. intros z [Hz1 Hz2]%list_elem_of_filter.
    rewrite Forall_forall in Hy. specialize (Hy z Hz2). lia.
  - rewrite (IH i Hi). case_decide as Hd; cbn; [lia|].
    rewrite Forall_forall in Hy.
    assert (filter (λ z, z < h) ring = []) as ->; [|cbn; lia].
    apply elem_of_nil_inv. intros z [Hz1 Hz2]%list_elem_of_filter. specialize (Hy z Hz2). lia.
Qed.

Lemma rank_length h ring : (rank h ring ≤ length ring)%nat.
Proof. apply length_filter. Qed.

Lemma sorted_index ring h :
  Sorted Z.le ring →
  threshold (λ i, let! k := goindex ring i in Ret (bool_decide (h ≤ k)))
    (Z.of_nat (length ring)) (Z.of_nat (rank h ring)).
Proof.
  intros Hs%Sorted_StronglySorted; [|intros ???; lia].
  split; [pose proof (rank_length h ring); lia|]. intros i Hi.
  destruct (lookup_lt_is_Some_2 ring (Z.to_nat i)) as [x Hx]; [lia|].
  rewrite <- (Z2Nat.id i) by lia. erewrite goindex_lookup by done. cbn [obind]. f_equal.
  apply bool_decide_ext. rewrite (rank_lookup ring h _ x) by done. lia.
Qed.

(** The ring element the code selects. *)
Lemma rank_owner ring h :
  Sorted Z.le ring → ring ≠ [] → ∃ k,
  goindex ring (Z.rem (Z.of_nat (rank h ring)) (Z.of_nat (length ring))) = Ret k ∧
  ring_owner ring h k.
Proof.
  intros Hs%Sorted_StronglySorted Hne; [|intros ???; lia].
  pose proof (rank_length h ring) as Hr.
  assert (0 < length ring)%nat as Hpos by (destruct ring; [done|cbn; lia]).
  destruct (decide (rank h ring = length ring)) as [E|E].
  - destruct (lookup_lt_is_Some_2 ring 0) as [k Hk]; [done|]. exists k. split.
    + rewrite E, Z.rem_same by lia. by apply (goindex_lookup ring 0).
    + split; [by eapply list_elem_of_lookup_2|]. right. split.
      * intros k' [i Hi]%list_elem_of_lookup. pose proof (lookup_lt_Some _ _ _ Hi).
        pose proof (rank_lookup ring h i k' Hs Hi). lia.
      * intros k' [i Hi]%list_elem_of_lookup. apply (sorted_lookup_le ring 0 i); auto; lia.
  - destruct (lookup_lt_is_Some_2 ring (rank h ring)) as [k Hk]; [lia|]. exists k. split.
    + rewrite Z.rem_small by lia. by apply goindex_lookup.
    + split; [by eapply list_elem_of_lookup_2|]. left. split.
      * by apply (rank_lookup ring h (rank h ring) k).
      * intros k' [i Hi]%list_elem_of_lookup Hle.
        apply (rank_lookup ring h i k' Hs Hi) in Hle.
        by apply (sorted_lookup_le ring (rank h ring) i).
Qed.

Lemma ring_owner_unique ring h k1 k2 : ring_owner ring h k1 → ring_owner ring h k2 → k1 = k2.
Proof.
  intros [H1 [[Ha Hb]|[Ha Hb]]] [H2 [[Hc Hd]|[Hc Hd]]].
  - pose proof (Hb k2 H2). pose proof (Hd k1 H1). lia.
  - pose proof (Hc k1 H1). lia.
  - pose proof (Ha k2 H2). lia.
  - pose proof (Hb k2 H2). pose proof (Hd k1 H1). lia.
Qed.

(** An owner that is a point of a smaller ring owns there too. *)
Lemma ring_owner_subset ring ring' h k :
  (∀ x, x ∈ ring → x ∈ ring') → k ∈ ring → ring_owner ring' h k → ring_owner ring h k.
Proof. intros Hsub Hk [_ H]. split; [done|]. naive_solver. Qed.

(** ** What Add builds *)

#[local] Arguments vnodes : simpl never.

Lemma insert_all_app l1 l2 hm : insert_all (l1 ++ l2) hm = insert_all l2 (insert_all l1 hm).
Proof. apply foldl_app. Qed.

Lemma insert_all_notin l hm h : h ∉ l.*1 → insert_all l hm !! h = hm !! h.
Proof.
  unfold insert_all. revert hm. induction l as [|[h' n] l IH]; intros hm Hh; [done|].
  cbn in *. rewrite IH by set_solver. apply lookup_insert_ne. set_solver.
Qed.

Lemma insert_all_in l hm h : h ∈ l.*1 → ∃ n, insert_all l hm !! h = Some n ∧ (h, n) ∈ l.
Proof.
  revert hm. induction l as [|[h' n] l IH] using rev_ind; intros hm Hh; [set_solver|].
  rewrite insert_all_app. cbn. destruct (decide (h' = h)) as [->|Hne].
  - exists n. rewrite lookup_insert_eq. split; [done|set_solver].
  - rewrite lookup_insert_ne by done. destruct (IH hm) as (n' & ? & ?);
      [rewrite fmap_app in Hh; set_solver|]. exists n'. split; [done|set_solver].
Qed.

Lemma foldl_add_replica key l m :
  foldl (add_replica key) m l =
  mkMap (hash m) (replicas m)
    (keys m ++ ((λ i, hash_int m (pretty (Z.of_nat i) +:+ key)) <$> l))
    (insert_all ((λ i, (hash_int m (pretty (Z.of_nat i) +:+ key), key)) <$> l) (hasMap m)).
Proof.
  revert m. induction l as [|i l IH]; intros m.
  - cbn. rewrite app_nil_r. by destruct m.
  - cbn. rewrite IH. cbn. by rewrite <- app_assoc.
Qed.

Lemma vnodes_cons m k ks :
  vnodes m (k :: ks) =
  ((λ i, (hash_int m (pretty (Z.of_nat i) +:+ k), k)) <$> seq 0 (Z.to_nat (replicas m)))
    ++ vnodes m ks.
Proof. done. Qed.

Lemma vnodes_app m ks1 ks2 : vnodes m (ks1 ++ ks2) = vnodes m ks1 ++ vnodes m ks2.
Proof. apply flat_map_app. Qed.

Lemma vnodes_config m m' ks :
  hash m' = hash m → replicas m' = replicas m → vnodes m' ks = vnodes m ks.
Proof. intros Hh Hr. unfold vnodes, hash_int. by rewrite Hh, Hr. Qed.

Lemma foldl_add_key ks m :
  foldl add_key m ks =
  mkMap (hash m) (replicas m) (keys m ++ (vnodes m ks).*1) (insert_all (vnodes m ks) (hasMap m)).
Proof.
  revert m. induction ks as [|k ks IH]; intros m.
  - cbn. rewrite app_nil_r. by destruct m.
  - cbn [foldl]. rewrite IH. unfold add_key. rewrite foldl_add_replica. cbn.
    rewrite vnodes_cons, fmap_app, insert_all_app, <- list_fmap_compose, app_assoc.
    by rewrite !(vnodes_config m (mkMap _ _ _ _)).
Qed.

Lemma Add_eq ks m :
  Add ks m =
  mkMap (hash m) (replicas m) (merge_sort Z.le (keys m ++ (vnodes m ks).*1))
    (insert_all (vnodes m ks) (hasMap m)).
Proof. unfold Add. rewrite foldl_add_key. done. Qed.

Lemma elem_of_keys_Add ks m h : h ∈ keys (Add ks m) ↔ h ∈ keys m ∨ h ∈ (vnodes m ks).*1.
Proof. rewrite Add_eq. cbn. by rewrite merge_sort_Permutation, elem_of_app. Qed.

Lemma New_map_wf r fn : wf [] (New r fn).
Proof.
  split; cbn; [constructor| |set_solver|done].
  intros h. rewrite lookup_empty. split; [set_solver|by intros []].
Qed.

Lemma vnodes_nonempty m ks : ks ≠ [] → 0 < replicas m → ∃ h, h ∈ (vnodes m ks).*1.
Proof.
  intros Hks Hr. destruct ks as [|k ks]; [done|].
  exists (hash_int m (pretty 0 +:+ k)). rewrite vnodes_cons.
  destruct (Z.to_nat (replicas m)) as [|n] eqn:E; [lia|]. set_solver.
Qed.

Lemma Add_wf ns ks m : wf ns m → wf (ns ++ ks) (Add ks m).
Proof.
  intros [Hs Hd Hn Hl]. split.
  - rewrite Add_eq. cbn. apply Sorted_merge_sort. intros ??; lia.
  - intros h. rewrite elem_of_keys_Add, Hd, Add_eq. cbn.
    destruct (decide (h ∈ (vnodes m ks).*1)) as [Hin|Hin].
    + destruct (insert_all_in _ (hasMap m) h Hin) as (n & -> & _). naive_solver.
    + rewrite insert_all_notin by done. naive_solver.
  - intros h n. rewrite (vnodes_config m), vnodes_app, elem_of_app by (by rewrite Add_eq).
    rewrite Add_eq. cbn. destruct (decide (h ∈ (vnodes m ks).*1)) as [Hin|Hin].
    + destruct (insert_all_in _ (hasMap m) h Hin) as (n' & -> & ?). naive_solver.
    + rewrite insert_all_notin by done. eauto.
  - intros Hne Hr E. assert (∀ h, h ∉ keys (Add ks m)) as Hno by (rewrite E; set_solver).
    assert (replicas m = replicas (Add ks m)) as Hrm by (by rewrite Add_eq).
    rewrite <- Hrm in Hr. destruct (decide (ks = [])) as [->|Hks].
    + rewrite app_nil_r in Hne. apply (Hl Hne Hr). apply elem_of_nil_inv.
      intros h Hh. apply (Hno h), elem_of_keys_Add. by left.
    + destruct (vnodes_nonempty m ks Hks Hr) as [h Hh].
      apply (Hno h), elem_of_keys_Add. by right.
Qed.

Lemma built_wf r fn ns m : built r fn ns m → wf ns m.
Proof. induction 1; auto using New_map_wf, Add_wf. Qed.

Lemma built_config r fn ns m :
  built r fn ns m → hash m = default ChecksumIEEE fn ∧ replicas m = r.
Proof. induction 1 as [|ns ks m _ IH]; [done|]. by rewrite Add_eq. Qed.

Lemma Get_lookup ns m key :
  wf ns m → keys m ≠ [] → Z.of_nat (length (keys m)) < 2 ^ 63 → ∃ k n,
  ring_owner (keys m) (hash_int m key) k ∧ hasMap m !! k = Some n ∧ Get key m = Ret n.
Proof.
  intros [Hs Hd _ _] Hne Hlen. destruct (rank_owner (keys m) (hash_int m key)) as (k & Hk & Ho);
    [done..|]. destruct (proj1 (Hd k)) as [n Hn]; [apply Ho|].
  exists k, n. split_and!; [done|done|]. unfold Get. rewrite bool_decide_eq_false_2 by done.
  rewrite (Search_ok _ _ (Z.of_nat (rank (hash_int m key) (keys m)))) by eauto using sorted_index.
  cbn [obind]. rewrite Hk. cbn [obind]. by rewrite Hn.
Qed.

Lemma Get_empty m key : keys m = [] → Get key m = Ret ""%string.
Proof. intros E. unfold Get. by rewrite bool_decide_eq_true_2. Qed.

Lemma vnodes_elem m ks h n :
  (h, n) ∈ vnodes m ks → n ∈ ks ∧ ∃ i : nat, h = hash_int m (pretty (Z.of_nat i) +:+ n).
Proof.
  unfold vnodes. intros (k & Hk & Hin)%list_elem_of_In%in_flat_map.
  apply list_elem_of_In, list_elem_of_fmap in Hin as (i & [= -> ->] & _).
  split; [by apply list_elem_of_In|]. by exists i.
Qed.

Lemma Get_member ns m key n :
  wf ns m → Z.of_nat (length (keys m)) < 2 ^ 63 → Get key m = Ret n → n = ""%string ∨ n ∈ ns.
Proof.
  intros Hwf Hlen Hg. destruct (decide (keys m = [])) as [E|E].
  - rewrite Get_empty in Hg by done. left. by simplify_eq.
  - destruct (Get_lookup ns m key) as (k & n' & _ & Hn & Hg'); [done..|]. right.
    rewrite Hg in Hg'. simplify_eq. by apply (wf_node ns m Hwf), vnodes_elem in Hn as [? _].
Qed.

Lemma threshold_exists (f : Z → bool) (n : nat) :
  (∀ i j, 0 ≤ i → i ≤ j → j < Z.of_nat n → f i = true → f j = true) →
  ∃ r, threshold (λ i, Ret (f i)) (Z.of_nat n) r.
Proof.
  induction n as [|n IH]; intros Hmono; [exists 0; split; [lia|intros; lia]|].
  destruct IH as (r & Hr & Hf); [intros i j ???; apply Hmono; lia|].
  destruct (f (Z.of_nat n)) eqn:E.
  - exists r. split; [lia|]. intros i Hi. destruct (decide (i = Z.of_nat n)) as [->|].
    + rewrite E, bool_decide_eq_true_2 by lia. done.
    + apply Hf. lia.
  - exists (Z.of_nat (S n)). split; [lia|]. intros i Hi. f_equal.
    rewrite bool_decide_eq_false_2 by lia. destruct (f i) eqn:Ei; [|done].
    rewrite (Hmono i (Z.of_nat n)) in E by (done || lia). done.
Qed.

(** The points an [Add] changes are those of the added nodes. *)
Lemma hasMap_Add ks m h :
  h ∉ (vnodes m ks).*1 → hasMap (Add ks m) !! h = hasMap m !! h.
Proof. intros Hh. rewrite Add_eq. by apply insert_all_notin. Qed.

Lemma length_keys_Add ks m : (length (keys m) ≤ length (keys (Add ks m)))%nat.
Proof. rewrite Add_eq. cbn. rewrite merge_sort_Permutation, length_app. lia. Qed.

Lemma Get_Add_moves ns ks m key n n' :
  wf ns m → Z.of_nat (length (keys (Add ks m))) < 2 ^ 63 →
  Get key m = Ret n → Get key (Add ks m) = Ret n' → n' = n ∨ n' ∈ ks.
Proof.
  intros Hwf Hlen Hg Hg'. pose proof (length_keys_Add ks m). pose proof (Add_wf ns ks m Hwf) as Hwf'.
  destruct (decide (keys (Add ks m) = [])) as [E|E].
  { rewrite Get_empty in Hg' by done. rewrite E in H. cbn in H.
    rewrite Get_empty in Hg by (apply nil_length_inv; lia). left. by simplify_eq. }
  destruct (Get_lookup _ _ key Hwf' E Hlen) as (k' & x' & Ho' & Hx' & Hgx').
  rewrite Hg' in Hgx'. injection Hgx' as <-.
  destruct (decide (k' ∈ (vnodes m ks).*1)) as [Hin|Hin].
  { right. rewrite Add_eq in Hx'. cbn in Hx'.
    destruct (insert_all_in _ (hasMap m) k' Hin) as (y & Hy & Hmem). simplify_eq.
    by apply vnodes_elem in Hmem as [? _]. }
  left. rewrite hasMap_Add in Hx' by done.
  assert (k' ∈ keys m) as Hk' by (apply (wf_dom _ _ Hwf); eauto).
  assert (keys m ≠ []) as Hne by (intros E'; rewrite E' in Hk'; set_solver).
  destruct (Get_lookup ns m key Hwf Hne) as (k & x & Ho & Hx & Hgx); [lia|].
  rewrite Hg in Hgx. injection Hgx as <-.
  assert (hash_int (Add ks m) key = hash_int m key) as Hh by (by rewrite Add_eq).
  rewrite Hh in Ho'. assert (k = k') as ->; [|congruence].
  eapply ring_owner_unique; [done|]. eapply ring_owner_subset; [|done|done].
  intros z Hz. apply elem_of_keys_Add. by left.
Qed.

Lemma insert_all_no_collision l hm h n :
  (∀ a b, (h, a) ∈ l → (h, b) ∈ l → a = b) → (h, n) ∈ l → insert_all l hm !! h = Some n.
Proof.
  intros Hc Hin. destruct (insert_all_in l hm h) as (n' & -> & Hn').
  - apply list_elem_of_fmap. by exists (h, n).
  - f_equal. by apply Hc.
Qed.

Lemma vnodes_perm m ks ks' : ks ≡ₚ ks' → vnodes m ks ≡ₚ vnodes m ks'.
Proof.
  intros Hp. unfold vnodes. apply Permutation_flat_map. done.
Qed.

Lemma Add_perm ks ks' m : no_collision m ks → ks ≡ₚ ks' → Add ks m = Add ks' m.
Proof.
  intros Hc Hp. pose proof (vnodes_perm m ks ks' Hp) as Hv. rewrite !Add_eq. f_equal.
  - apply (StronglySorted_unique Z.le); try apply StronglySorted_merge_sort; try apply _.
    by rewrite !merge_sort_Permutation, Hv.
  - apply map_eq. intros h. destruct (decide (h ∈ (vnodes m ks).*1)) as [Hin|Hin].
    + pose proof Hin as ([h' n] & -> & Hn)%list_elem_of_fmap. cbn.
      rewrite (insert_all_no_collision _ _ h' n) by (eauto using Hc).
      symmetry. apply insert_all_no_collision; [|by rewrite <- Hv].
      intros a b. rewrite <- Hv. apply Hc.
    + rewrite !insert_all_notin; [done| |done]. by rewrite <- Hv.
Qed.

(** ** Properties *)

(** C18: [Get] on any ring built from [New] by [Add]s that has a point returns
    the node of the key's clockwise owner: the least point at or after the
    hash of the key, or the least point of all when there is none. *)
Theorem Get_owner r fn ns m key :
  built r fn ns m → keys m ≠ [] → Z.of_nat (length (keys m)) < 2 ^ 63 →
  ∃ k n, ring_owner (keys m) (hash_int m key) k ∧ hasMap m !! k = Some n ∧
         n ∈ ns ∧ Get key m = Ret n.
Proof.
  intros Hb%built_wf Hne Hlen. destruct (Get_lookup ns m key Hb Hne Hlen) as (k & n & ? & Hn & ?).
  exists k, n. split_and!; try done. by apply (wf_node _ _ Hb), vnodes_elem in Hn as [? _].
Qed.

(** C19: adding nodes to a ring moves a key only to one of the added nodes;
    every other key keeps its node (also when hashes collide). *)
Theorem Add_moves_only_to_added r fn ns ks m key n n' :
  built r fn ns m → Z.of_nat (length (keys (Add ks m))) < 2 ^ 63 →
  Get key m = Ret n → Get key (Add ks m) = Ret n' → n' = n ∨ n' ∈ ks.
Proof. intros Hb%built_wf. by apply (Get_Add_moves ns). Qed.

(** C20: without hash collisions between different nodes, the ring does not
    depend on the order in which the nodes are listed, so servers that list
    the same peers in different orders choose the same node for every key. *)
Theorem Add_order_irrelevant ks ks' m key :
  no_collision m ks → ks ≡ₚ ks' → Get key (Add ks m) = Get key (Add ks' m).
Proof. intros Hc Hp. by rewrite (Add_perm ks ks'). Qed.

(** [sort.Search] on a predicate that is false then true returns the least
    index where it is true, or [n]; its machine-word midpoint never overflows. *)
Theorem Search_least (f : Z → bool) (n : nat) :
  Z.of_nat n < 2 ^ 63 →
  (∀ i j, 0 ≤ i → i ≤ j → j < Z.of_nat n → f i = true → f j = true) →
  ∃ r, Search (Z.of_nat n) (λ i, Ret (f i)) = Ret r ∧ 0 ≤ r ≤ Z.of_nat n ∧
       (∀ i, 0 ≤ i < r → f i = false) ∧ (∀ i, r ≤ i < Z.of_nat n → f i = true).
Proof.
  intros Hn Hmono. destruct (threshold_exists f n Hmono) as (r & Hr & Hf).
  exists r. split; [by apply Search_ok|]. split; [done|].
  assert (∀ i, 0 ≤ i < Z.of_nat n → f i = bool_decide (r ≤ i)) as Hf'.
  { intros i Hi. specialize (Hf i Hi). by injection Hf. }
  split; intros i Hi; rewrite Hf' by lia.
  - apply bool_decide_eq_false_2. lia.
  - apply bool_decide_eq_true_2. lia.
Qed.

(** ** Concrete instances *)

Example hashing_scenario :
  let m := Add ["6"; "4"; "2"]%string (New 3 (Some atoi_hash)) in
  keys m = [2; 4; 6; 12; 14; 16; 22; 24; 26] ∧
  (λ k, Get k m) <$> ["2"; "11"; "23"; "27"]%string = Ret <$> ["2"; "2"; "4"; "2"]%string ∧
  Get "27" (Add ["8"]%string m) = Ret "8"%string.
Proof. vm_compute. auto. Qed.

Example crc32_check_value : ChecksumIEEE "123456789" = 0xCBF43926.
Proof. vm_compute. reflexivity. Qed.

Lemma demo_built ns :
  built 3 (Some atoi_hash) ns (Add ns (New 3 (Some atoi_hash))).
Proof. apply (built_add _ _ [] ns), built_new. Qed.

Lemma Get_owner_witness :
  let m := Add ["6"; "4"; "2"]%string (New 3 (Some atoi_hash)) in
  ∃ k n, ring_owner (keys m) (hash_int m "11") k ∧ hasMap m !! k = Some n ∧
         n ∈ ["6"; "4"; "2"]%string ∧ Get "11" m = Ret n.
Proof.
  apply (Get_owner 3 (Some atoi_hash) ["6"; "4"; "2"]%string
           (Add ["6"; "4"; "2"]%string (New 3 (Some atoi_hash))) "11").
  - apply demo_built.
  - vm_compute. congruence.
  - vm_compute. congruence.
Defined.

Lemma Add_moves_only_to_added_witness :
  "8"%string = "2"%string ∨ "8"%string ∈ ["8"]%string.
Proof.
  apply (Add_moves_only_to_added 3 (Some atoi_hash) ["6"; "4"; "2"]%string ["8"]%string
           (Add ["6"; "4"; "2"]%string (New 3 (Some atoi_hash))) "27").
  - apply demo_built.
  - vm_compute. congruence.
  - vm_compute. reflexivity.
  - vm_compute. reflexivity.
Defined.

Lemma Add_order_irrelevant_witness :
  Get "23" (Add ["6"; "4"]%string (New 1 (Some atoi_hash)))
  = Get "23" (Add ["4"; "6"]%string (New 1 (Some atoi_hash))).
Proof.
  apply Add_order_irrelevant.
  - intros h a b.
    change (vnodes (New 1 (Some atoi_hash)) ["6"; "4"]%string)
      with [(6, "6"); (4, "4")]%string.
    set_solver.
  - apply perm_swap.
Defined.

Lemma Search_least_witness :
  ∃ r, Search 5 (λ i, Ret (bool_decide (3 ≤ i))) = Ret r ∧ 0 ≤ r ≤ 5 ∧
       (∀ i, 0 ≤ i < r → bool_decide (3 ≤ i) = false) ∧
       (∀ i, r ≤ i < 5 → bool_decide (3 ≤ i) = true).
Proof.
  apply (Search_least (λ i, bool_decide (3 ≤ i)) 5).
  - lia.
  - intros i j _ Hij _ Hi. apply bool_decide_eq_true in Hi. apply bool_decide_eq_true. lia.
Defined.
