(* ===== verification/SingleFlight.v ===== *)
(** * geecache/singleflight: duplicate call suppression

    Models [src/geecache/singleflight/singleflight.go] as a transition system
    on the goroutines that execute [Group.Do].  A goroutine's program counter
    is the point of [Do] it has reached; each step is one critical section of
    [g.mu] (so the mutex is the atomicity of the step), one execution of [fn],
    one [wg.Done] or one [wg.Wait] that returns.  [Do_solo] runs one caller
    alone through those steps, for the sequential clients. *)

From S2P Require Import Prelude.

Section SingleFlight.
Context {V : Type}.

(** [wg] is the counter of the wait group; [Val] is nil until [fn] returned. *)
Record call := mkCall { wg : nat; Val : option V; err : error }.

Inductive pc :=
  | PStart                            (* about to call Do *)
  | PWait (c : nat)                   (* c.wg.Wait() *)
  | PRun (c : nat)                    (* fn() *)
  | PRan (c : nat)                    (* c.wg.Done() *)
  | PDelete (c : nat)                 (* delete(g.m, key) *)
  | PRet (v : option V) (e : error)   (* Do has returned *)
  | PDead (c : nat).                  (* fn panicked *)

(** [m] is nil until the first call; a call is its position in [calls].
    [owner] is ghost state that no step reads: the goroutine and the key each
    call was made for. *)
Record Group := mkGroup {
  m : option (gmap string nat);
  calls : list call;
  ths : list (string * pc);
  owner : list (nat * string);
}.

Inductive action :=
  | Enter | RunOk (v : V) (e : error) | RunPanic | Done | Delete | Wake.

Definition set_pc (t : nat) (k : string) (p : pc) (g : Group) : Group :=
  mkGroup (m g) (calls g) (<[t := (k, p)]> (ths g)) (owner g).

(** Lines 20 to 33: one critical section. *)
Definition enter (t : nat) (key : string) (g : Group) : Group :=
  let gm := default ∅ (m g) in
  match gm !! key with
  | Some c => set_pc t key (PWait c) (mkGroup (Some gm) (calls g) (ths g) (owner g))
  | None =>
      let c := length (calls g) in
      set_pc t key (PRun c)
        (mkGroup (Some (<[key := c]> gm)) (calls g ++ [mkCall 1 None None]) (ths g)
           (owner g ++ [(t, key)]))
  end.

Definition set_call (c : nat) (cl : call) (g : Group) : Group :=
  mkGroup (m g) (<[c := cl]> (calls g)) (ths g) (owner g).

(** One step of goroutine [t]; [None] when it cannot take it now. *)
Definition step (t : nat) (a : action) (g : Group) : option Group :=
  '(key, p) ← ths g !! t;
  match p, a with
  | PStart, Enter => Some (enter t key g)
  | PRun c, RunOk v e =>
      cl ← calls g !! c;
      Some (set_pc t key (PRan c) (set_call c (mkCall (wg cl) (Some v) e) g))
  | PRun c, RunPanic => Some (set_pc t key (PDead c) g)
  | PRan c, Done =>
      cl ← calls g !! c;
      Some (set_pc t key (PDelete c) (set_call c (mkCall (pred (wg cl)) (Val cl) (err cl)) g))
  | PDelete c, Delete =>
      cl ← calls g !! c;
      Some (set_pc t key (PRet (Val cl) (err cl))
              (mkGroup (delete key <$> m g) (calls g) (ths g) (owner g)))
  | PWait c, Wake =>
      cl ← calls g !! c;
      if bool_decide (wg cl = 0%nat) then Some (set_pc t key (PRet (Val cl) (err cl)) g) else None
  | _, _ => None
  end.

Fixpoint run (tr : list (nat * action)) (g : Group) : option Group :=
  match tr with
  | [] => Some g
  | (t, a) :: tr => g' ← step t a g; run tr g'
  end.

(** A group whose goroutines are about to call [Do] with the given keys. *)
Definition init (ks : list string) : Group :=
  mkGroup None [] ((λ k, (k, PStart)) <$> ks) [].

Definition spawn (key : string) (g : Group) : Group :=
  mkGroup (m g) (calls g) (ths g ++ [(key, PStart)]) (owner g).

(** A call of [Do] by a new goroutine while no other goroutine runs: the value
    and error it returns, the group after it and the state of the world after
    [fn]; [None] when the caller blocks for ever. *)
Definition Do_solo {W} (key : string) (fn : W → V * error * W) (g : Group) (w : W)
  : option (option V * error * Group * W) :=
  let t := length (ths g) in
  g1 ← step t Enter (spawn key g);
  let '(g3, w') :=
    match ths g1 !! t with
    | Some (_, PRun _) =>
        let '(v, e, w') := fn w in
        (g2 ← step t (RunOk v e) g1; g3 ← step t Done g2; step t Delete g3, w')
    | _ => (step t Wake g1, w)
    end in
  g3 ← g3;
  match ths g3 !! t with
  | Some (_, PRet v e) => Some (v, e, g3, w')
  | _ => None
  end.

(** ** Specification *)

(** The call a goroutine is executing [fn] for (until it has left the map). *)
Definition leads (p : pc) : option nat :=
  match p with PRun c | PRan c | PDelete c | PDead c => Some c | _ => None end.

Definition running (p : pc) : bool :=
  match p with PRun _ | PRan _ | PDead _ => true | _ => false end.

Definition has_run (p : pc) : bool :=
  match p with PRan _ | PDelete _ | PRet _ _ => true | _ => false end.

Definition returned (g : Group) (t : nat) (k : string) (v : option V) (e : error) : Prop :=
  ths g !! t = Some (k, PRet v e).

Definition weight (x : string * pc) : nat :=
  match x.2 with
  | PStart => 4 | PRun _ => 3 | PRan _ => 2 | PDelete _ => 1 | PWait _ => 1
  | PRet _ _ | PDead _ => 0
  end.

Definition measure (g : Group) : nat := sum_list_with weight (ths g).

Definition gmap_of (g : Group) : gmap string nat := default ∅ (m g).

Record inv (g : Group) : Prop := {
  inv_owner_len : length (owner g) = length (calls g);
  (* a leader is in the map, under its own key, and owns the call *)
  inv_leader : ∀ t k p c, ths g !! t = Some (k, p) → leads p = Some c →
    gmap_of g !! k = Some c ∧ owner g !! c = Some (t, k);
  (* a call in the map has a leader *)
  inv_map : ∀ k c, gmap_of g !! k = Some c →
    ∃ t p, owner g !! c = Some (t, k) ∧ ths g !! t = Some (k, p) ∧ leads p = Some c;
  (* the wait group is released exactly when the leader is past Done *)
  inv_wg : ∀ c cl t k p, calls g !! c = Some cl → owner g !! c = Some (t, k) →
    ths g !! t = Some (k, p) →
    wg cl = (if running p then 1 else 0)%nat;
  (* calls know their owner *)
  inv_owner : ∀ c t k, owner g !! c = Some (t, k) →
    ∃ p, ths g !! t = Some (k, p) ∧
      (leads p = Some c ∨ ∃ cl, calls g !! c = Some cl ∧ p = PRet (Val cl) (err cl));
  inv_wait : ∀ t k c, ths g !! t = Some (k, PWait c) → ∃ t', owner g !! c = Some (t', k);
}.

(** Where a step of a goroutine leads. *)
Definition next (p : pc) (a : action) (p' : pc) : Prop :=
  match p, a with
  | PStart, Enter => ∃ c, p' = PWait c ∨ p' = PRun c
  | PWait _, Wake | PDelete _, Delete => ∃ v e, p' = PRet v e
  | PRun c, RunOk _ _ => p' = PRan c
  | PRun c, RunPanic => p' = PDead c
  | PRan c, Done => p' = PDelete c
  | _, _ => False
  end.

Definition returned_all (g : Group) : Prop :=
  ∀ t k p, ths g !! t = Some (k, p) → ∃ v e, p = PRet v e.

(** The goroutines that wait for a call whose leader has panicked. *)
Definition stuck_on (k : string) (c : nat) (g : Group) (t : nat) : Prop :=
  ths g !! t = Some (k, PStart) ∨ ths g !! t = Some (k, PWait c).

(** A group no goroutine is executing [Do] on, for its clients. *)
Definition idle (g : Group) : Prop := gmap_of g = ∅.

(** After the steps [tr]: a finished call holds what its owner's execution of
    [fn] returned, and a goroutine that has returned holds the result of a
    finished call for its own key. *)
Record results (tr : list (nat * action)) (g : Group) : Prop := {
  res_call : ∀ c cl t k p, calls g !! c = Some cl → owner g !! c = Some (t, k) →
    ths g !! t = Some (k, p) → has_run p = true →
    ∃ v, Val cl = Some v ∧ (t, RunOk v (err cl)) ∈ tr;
  res_ret : ∀ t k v e, returned g t k v e →
    ∃ c cl t', calls g !! c = Some cl ∧ owner g !! c = Some (t', k) ∧
      wg cl = 0%nat ∧ v = Val cl ∧ e = err cl;
}.
End SingleFlight.
Arguments call : clear implicits.
Arguments pc : clear implicits.
Arguments Group : clear implicits.
Arguments action : clear implicits.

Section proofs.
Context {V : Type}.
Implicit Types (g : Group V) (a : action V) (p : pc V).

Lemma run_app tr1 tr2 g : run (tr1 ++ tr2) g = (g' ← run tr1 g; run tr2 g').
Proof.
  revert g. induction tr1 as [|[t a] tr1 IH]; intros g; [done|].
  cbn. destruct (step t a g); [apply IH|done].
Qed.

Lemma default_delete k (o : option (gmap string nat)) :
  default ∅ (delete k <$> o) = delete k (default ∅ o).
Proof. destruct o; cbn; [done|]. by rewrite delete_empty. Qed.

(** A goroutine that neither leads nor has returned owns no call. *)
Lemma not_owner g t k p c k' :
  inv g → ths g !! t = Some (k, p) → leads p = None → (∀ v e, p ≠ PRet v e) →
  owner g !! c = Some (t, k') → False.
Proof.
  intros Hi Ht Hl Hr Ho. destruct (inv_owner g Hi c t k' Ho) as (p' & Hp' & H).
  rewrite Ht in Hp'. simplify_eq. naive_solver.
Qed.

Lemma init_inv ks : inv (init (V := V) ks).
Proof.
  assert (∀ t k p, ths (init (V := V) ks) !! t = Some (k, p) → p = PStart) as Hs.
  { intros t k p. cbn. rewrite list_lookup_fmap, fmap_Some. naive_solver. }
  split; cbn; try done; intros.
  - apply Hs in H. by subst.
  - apply Hs in H. done.
Qed.

Lemma enter_hit_inv g t k c :
  inv g → ths g !! t = Some (k, PStart) → gmap_of g !! k = Some c →
  inv (set_pc t k (PWait c) (mkGroup (Some (gmap_of g)) (calls g) (ths g) (owner g))).
Proof.
  intros Hi Ht Hk. pose proof Hi as [H1 H2 H3 H4 H5 H6].
  pose proof (not_owner g t k PStart) as Hno.
  split; cbn; [done|..].
  - intros t' k' p c' Ht' Hl. lookup_set Ht. eauto.
  - intros k' c' Hk'. destruct (H3 k' c' Hk') as (t' & p & Ho & Ht' & Hl).
    exists t', p. lookup_set Ht; naive_solver.
  - intros c' cl t' k' p Hc Ho Ht'. lookup_set Ht; [|by eauto]. exfalso. by eapply Hno.
  - intros c' t' k' Ho. destruct (H5 c' t' k' Ho) as (p & Hp & Hd). exists p. split; [|done].
    lookup_set Ht; [|done]. exfalso. by eapply Hno.
  - intros t' k' c' Ht'. lookup_set Ht; [|by eauto].
    destruct (H3 _ _ Hk) as (t'' & p & Ho & _). eauto.
Qed.

Lemma enter_miss_inv g t k :
  inv g → ths g !! t = Some (k, PStart) → gmap_of g !! k = None →
  inv (set_pc t k (PRun (length (calls g)))
         (mkGroup (Some (<[k := length (calls g)]> (gmap_of g)))
            (calls g ++ [mkCall 1 None None]) (ths g) (owner g ++ [(t, k)]))).
Proof.
  intros Hi Ht Hk. pose proof Hi as [H1 H2 H3 H4 H5 H6].
  pose proof (not_owner g t k PStart) as Hno.
  split; cbn.
  - rewrite !length_app. cbn. lia.
  - intros t' k' p c' Ht' Hl. lookup_set Ht.
    + unfold gmap_of. cbn. rewrite lookup_insert_eq, <- H1, lookup_app_r, Nat.sub_diag by lia. done.
    + destruct (H2 _ _ _ _ Ht' Hl) as [Hm Ho]. unfold gmap_of at 1. cbn.
      rewrite lookup_insert_ne by congruence. split; [done|]. by apply lookup_app_l_Some.
  - intros k' c' Hk'. unfold gmap_of in Hk'. cbn in Hk'. fold (gmap_of g) in Hk'.
    apply lookup_insert_Some in Hk' as [[<- <-]|[Hne Hk']].
    + exists t, (PRun (length (calls g))). lookup_set Ht.
      rewrite <- H1, lookup_app_r, Nat.sub_diag by lia. done.
    + destruct (H3 _ _ Hk') as (t' & p & Ho & Ht' & Hl). exists t', p.
      split_and!; [by apply lookup_app_l_Some| |done]. by lookup_set Ht.
  - intros c' cl t' k' p Hc Ho Ht'.
    apply lookup_app_Some in Ho as [Ho|[Hge Ho]].
    + pose proof (lookup_lt_Some _ _ _ Ho). rewrite lookup_app_l in Hc by lia.
      lookup_set Ht; [exfalso; by eapply Hno|eauto].
    + pose proof (lookup_lt_Some _ _ _ Ho) as Hlt. cbn in Hlt.
      assert (c' = length (owner g)) as -> by lia. rewrite Nat.sub_diag in Ho. cbn in Ho. simplify_eq.
      rewrite H1, lookup_app_r, Nat.sub_diag in Hc by lia. cbn in Hc. simplify_eq.
      lookup_set Ht. done.
  - intros c' t' k' Ho. apply lookup_app_Some in Ho as [Ho|[Hge Ho]].
    + destruct (H5 c' t' k' Ho) as (p & Hp & Hd). exists p.
      split; [lookup_set Ht; [exfalso; by eapply Hno|done]|].
      destruct Hd as [?|(cl & Hcl & ->)]; [by left|right]. exists cl.
      split; [by apply lookup_app_l_Some|done].
    + pose proof (lookup_lt_Some _ _ _ Ho) as Hlt. cbn in Hlt.
      assert (c' = length (owner g)) as -> by lia. rewrite Nat.sub_diag in Ho. cbn in Ho. simplify_eq.
      exists (PRun (length (calls g))). lookup_set Ht. split; [done|]. left. by rewrite H1.
  - intros t' k' c' Ht'. lookup_set Ht. destruct (H6 _ _ _ Ht') as [t'' Ho].
    exists t''. by apply lookup_app_l_Some.
Qed.

(** A leader that stays a leader of its call, with the call's record updated. *)
Lemma lead_inv g t k p p' c cl cl' :
  inv g → ths g !! t = Some (k, p) → leads p = Some c → leads p' = Some c →
  calls g !! c = Some cl → wg cl' = (if running p' then 1 else 0)%nat →
  inv (set_pc t k p' (set_call c cl' g)).
Proof.
  intros Hi Ht Hl Hl' Hc Hwg. pose proof Hi as [H1 H2 H3 H4 H5 H6].
  destruct (H2 _ _ _ _ Ht Hl) as [Hm Hown].
  split; cbn; unfold gmap_of in *; cbn in *.
  - by rewrite length_insert.
  - intros t' k' q c' Ht' Hq. lookup_set Ht; eauto.
  - intros k' c' Hk'. destruct (H3 k' c' Hk') as (t' & q & Ho & Ht' & Hlq).
    destruct (decide (t' = t)) as [->|Hne].
    + rewrite Ht in Ht'. simplify_eq. exists t, p'. lookup_set Ht. eauto.
    + exists t', q. lookup_set Ht. done.
  - intros c' cl0 t' k' q Hc' Ho Ht'. destruct (decide (c' = c)) as [->|Hc''].
    + lookup_set Hc. lookup_set Ht. done.
    + lookup_set Hc. destruct (decide (t' = t)) as [->|Hne]; lookup_set Ht; [|by eauto].
      destruct (H5 c' t k' Ho) as (q' & Hq' & [?|(?&?&->)]); rewrite Ht in Hq'; simplify_eq; congruence.
  - intros c' t' k' Ho. destruct (H5 c' t' k' Ho) as (q & Hq & Hd).
    destruct (decide (t' = t)) as [->|Hne].
    + rewrite Ht in Hq. simplify_eq. exists p'. lookup_set Ht. split; [done|]. left.
      destruct Hd as [?|(?&?&->)]; [congruence|done].
    + exists q. lookup_set Ht. split; [done|]. destruct Hd as [?|(cl0 & Hcl0 & ->)]; [by left|].
      right. exists cl0. split; [|done]. by lookup_set Hc.
  - intros t' k' c' Ht'. lookup_set Ht. eauto.
Qed.

Lemma panic_inv g t k c :
  inv g → ths g !! t = Some (k, PRun c) → inv (set_pc t k (PDead c) g).
Proof.
  intros Hi Ht. pose proof Hi as [H1 H2 H3 H4 H5 H6].
  destruct (H2 _ _ _ _ Ht eq_refl) as [Hm Hown].
  destruct (lookup_lt_is_Some_2 (calls g) c) as [cl Hc].
  { rewrite <- H1. by eapply lookup_lt_Some. }
  pose proof (lead_inv g t k (PRun c) (PDead c) c cl cl Hi Ht eq_refl eq_refl Hc) as Hl.
  unfold set_call in Hl. rewrite (list_insert_id _ _ _ Hc) in Hl. unfold set_pc in *.
  apply Hl. by apply (H4 c cl t k (PRun c)).
Qed.

Lemma delete_inv g t k c cl :
  inv g → ths g !! t = Some (k, PDelete c) → calls g !! c = Some cl →
  inv (set_pc t k (PRet (Val cl) (err cl))
         (mkGroup (delete k <$> m g) (calls g) (ths g) (owner g))).
Proof.
  intros Hi Ht Hc. pose proof Hi as [H1 H2 H3 H4 H5 H6].
  destruct (H2 _ _ _ _ Ht eq_refl) as [Hm Hown].
  split; cbn; unfold set_pc, gmap_of in *; cbn.
  - done.
  - intros t' k' q c' Ht' Hq. destruct (decide (t' = t)) as [->|Hne]; lookup_set Ht.
    destruct (H2 _ _ _ _ Ht' Hq) as [Hm' Ho']. split; [|done].
    rewrite default_delete, lookup_delete_ne; [done|]. intros <-. congruence.
  - intros k' c'. rewrite default_delete. intros [Hne Hk']%lookup_delete_Some.
    destruct (H3 k' c' Hk') as (t' & q & Ho & Ht' & Hlq). exists t', q. split; [done|].
    destruct (decide (t' = t)) as [->|]; [congruence|]. by lookup_set Ht.
  - intros c' cl' t' k' q Hc' Ho Ht'. destruct (decide (t' = t)) as [->|Hne]; lookup_set Ht; [|by eauto].
    destruct (H5 c' t k' Ho) as (q' & Hq' & [?|(?&?&->)]); rewrite Ht in Hq'; simplify_eq/=.
    by apply (H4 c' _ t k' (PDelete c')).
  - intros c' t' k' Ho. destruct (H5 c' t' k' Ho) as (q & Hq & Hd).
    destruct (decide (t' = t)) as [->|Hne]; [|exists q; by lookup_set Ht].
    rewrite Ht in Hq. simplify_eq. exists (PRet (Val cl) (err cl)). lookup_set Ht. split; [done|].
    right. exists cl. destruct Hd as [?|(?&?&?)]; by simplify_eq/=.
  - intros t' k' c' Ht'. lookup_set Ht. eauto.
Qed.

Lemma wake_inv g t k c cl :
  inv g → ths g !! t = Some (k, PWait c) → calls g !! c = Some cl →
  inv (set_pc t k (PRet (Val cl) (err cl)) g).
Proof.
  intros Hi Ht Hc. pose proof Hi as [H1 H2 H3 H4 H5 H6].
  pose proof (not_owner g t k (PWait c)) as Hno.
  split; cbn; unfold set_pc, gmap_of in *; cbn; [done|..].
  - intros t' k' q c' Ht' Hq. lookup_set Ht. eauto.
  - intros k' c' Hk'. destruct (H3 k' c' Hk') as (t' & q & Ho & Ht' & Hlq). exists t', q.
    split; [done|]. destruct (decide (t' = t)) as [->|]; [by rewrite Ht in Ht'; simplify_eq|].
    by lookup_set Ht.
  - intros c' cl' t' k' q Hc' Ho Ht'. destruct (decide (t' = t)) as [->|Hne]; lookup_set Ht; [|by eauto].
    exfalso. by eapply Hno.
  - intros c' t' k' Ho. destruct (H5 c' t' k' Ho) as (q & Hq & Hd).
    destruct (decide (t' = t)) as [->|Hne]; [|exists q; by lookup_set Ht]. exfalso. by eapply Hno.
  - intros t' k' c' Ht'. lookup_set Ht. eauto.
Qed.

Lemma inv_wg_lead g t k p c cl :
  inv g → ths g !! t = Some (k, p) → leads p = Some c → calls g !! c = Some cl →
  wg cl = (if running p then 1 else 0)%nat.
Proof. intros Hi Ht Hl Hc. eapply (inv_wg g Hi); eauto. by eapply (inv_leader g Hi). Qed.

Lemma flight_step_inv t a g g' : inv g → step t a g = Some g' → inv g'.
Proof.
  intros Hi Hs. unfold step in Hs. destruct (ths g !! t) as [[k p]|] eqn:Ht; [|done].
  cbn in Hs. destruct p as [|c|c|c|c|v e|c], a as [|v' e'| | | |]; try done; simplify_eq.
  - unfold enter. fold (gmap_of g). destruct (gmap_of g !! k) as [c|] eqn:Hk.
    + by apply enter_hit_inv.
    + by apply enter_miss_inv.
  - destruct (calls g !! c) as [cl|] eqn:Hc; [|done]. cbn in Hs. case_bool_decide; simplify_eq.
    by eapply wake_inv.
  - destruct (calls g !! c) as [cl|] eqn:Hc; [|done]. cbn in Hs. simplify_eq.
    eapply lead_inv; eauto. by apply (inv_wg_lead g t k (PRun c) c cl).
  - by apply panic_inv.
  - destruct (calls g !! c) as [cl|] eqn:Hc; [|done]. cbn in Hs. simplify_eq.
    eapply lead_inv; eauto. cbn. by rewrite (inv_wg_lead g t k (PRan c) c cl).
  - destruct (calls g !! c) as [cl|] eqn:Hc; [|done]. cbn in Hs. simplify_eq.
    by eapply delete_inv.
Qed.

Lemma flight_run_inv tr g g' : inv g → run tr g = Some g' → inv g'.
Proof.
  revert g. induction tr as [|[t a] tr IH]; intros g Hi Hr; cbn in Hr; [by simplify_eq|].
  destruct (step t a g) as [g1|] eqn:E; [|done]. eauto using flight_step_inv.
Qed.

Lemma call_of g c t k : inv g → owner g !! c = Some (t, k) → ∃ cl, calls g !! c = Some cl.
Proof.
  intros Hi Ho. apply lookup_lt_is_Some_2. rewrite <- (inv_owner_len g Hi).
  by eapply lookup_lt_Some.
Qed.

(** Steps that append to the calls or leave them alone keep the results, when
    the goroutine that moves neither owned nor now owns a finished call. *)
Lemma results_mono tr x g t k p p' m' cs os :
  results tr g → ths g !! t = Some (k, p) → has_run p = false → has_run p' = false →
  (∀ c t' k', (owner g ++ os) !! c = Some (t', k') → t' = t ∨ owner g !! c = Some (t', k')) →
  length (owner g) = length (calls g) →
  results (tr ++ [x]) (set_pc t k p' (mkGroup m' (calls g ++ cs) (ths g) (owner g ++ os))).
Proof.
  intros [R1 R2] Ht Hp Hp' Ho Hlen. split; cbn.
  - intros c cl t' k' q Hc Ho' Ht' Hq. destruct (decide (t' = t)) as [->|Hne]; lookup_set Ht; [congruence|].
    destruct (Ho _ _ _ Ho') as [?|Ho'']; [done|]. pose proof (lookup_lt_Some _ _ _ Ho'').
    rewrite lookup_app_l in Hc by lia. destruct (R1 _ _ _ _ _ Hc Ho'' Ht' Hq) as (v & ? & ?).
    exists v. set_solver.
  - intros t' k' v e Hr. unfold returned in *. cbn in Hr.
    destruct (decide (t' = t)) as [->|Hne]; lookup_set Ht.
    destruct (R2 _ _ _ _ Hr) as (c & cl & t'' & Hc & Ho' & Hw & Hv & He). exists c, cl, t''.
    split_and!; [by apply lookup_app_l_Some|by apply lookup_app_l_Some|done..].
Qed.

(** A leader that finishes [fn] or releases the wait group. *)
Lemma lead_results tr x g t k p p' c cl cl' :
  inv g → results tr g → ths g !! t = Some (k, p) → leads p = Some c → running p = true →
  calls g !! c = Some cl → leads p' = Some c →
  (has_run p' = true → ∃ v, Val cl' = Some v ∧ (t, RunOk v (err cl')) ∈ tr ++ [x]) →
  results (tr ++ [x]) (set_pc t k p' (set_call c cl' g)).
Proof.
  intros Hi [R1 R2] Ht Hl Hrun Hc Hl' Hv.
  destruct (inv_leader g Hi _ _ _ _ Ht Hl) as [_ Ho].
  split; cbn.
  - intros c' cl2 t' k' q Hc' Ho' Ht' Hq. destruct (decide (c' = c)) as [->|Hne].
    + simplify_eq. lookup_set Hc. lookup_set Ht. auto.
    + lookup_set Hc. destruct (decide (t' = t)) as [->|]; lookup_set Ht.
      * destruct (inv_owner g Hi c' t k' Ho') as (q' & Hq' & [?|(?&?&->)]);
          rewrite Ht in Hq'; simplify_eq; done.
      * destruct (R1 _ _ _ _ _ Hc' Ho' Ht' Hq) as (v & ? & ?). exists v. set_solver.
  - intros t' k' v e Hr. unfold returned in *. cbn in Hr.
    destruct (decide (t' = t)) as [->|Hne]; lookup_set Ht.
    destruct (R2 _ _ _ _ Hr) as (c' & cl2 & t'' & Hc' & Ho' & Hwg & ?).
    exists c', cl2, t''. split; [|done]. destruct (decide (c' = c)) as [->|]; [|by lookup_set Hc].
    pose proof (inv_wg_lead g t k p c cl Hi Ht Hl Hc) as Hwg'. rewrite Hrun in Hwg'. congruence.
Qed.

Lemma step_results tr t a g g' :
  inv g → results tr g → step t a g = Some g' → results (tr ++ [(t, a)]) g'.
Proof.
  intros Hi Hres Hs. unfold step in Hs. destruct (ths g !! t) as [[k p]|] eqn:Ht; [|done].
  pose proof (inv_owner_len g Hi) as Hlen.
  cbn in Hs. destruct p as [|c|c|c|c|v e|c], a as [|v' e'| | | |]; try done; simplify_eq.
  - unfold enter. fold (gmap_of g). destruct (gmap_of g !! k) as [c|] eqn:Hk.
    + pose proof (results_mono tr (t, Enter) g t k PStart (PWait c) (Some (gmap_of g)) [] []) as R.
      rewrite !app_nil_r in R. apply R; auto.
    + eapply results_mono; eauto. intros c t' k' [?|[Hge Ho]]%lookup_app_Some; [by right|left].
      destruct (c - length (owner g))%nat; cbn in Ho; by simplify_eq.
  - destruct (calls g !! c) as [cl|] eqn:Hc; [|done]. cbn in Hs. case_bool_decide as Hw; simplify_eq.
    destruct (inv_wait g Hi _ _ _ Ht) as [t' Ho]. destruct Hres as [R1 R2].
    split; cbn; [|].
    + intros c' cl' t2 k2 q Hc' Ho' Ht' Hq.
      destruct (decide (t2 = t)) as [->|]; [exfalso; by eapply (not_owner g t k (PWait c))|].
      lookup_set Ht. destruct (R1 _ _ _ _ _ Hc' Ho' Ht' Hq) as (v & ? & ?). exists v. set_solver.
    + intros t2 k2 v e Hr. unfold returned in *. cbn in Hr. destruct (decide (t2 = t)) as [->|]; lookup_set Ht.
      * exists c, cl, t'. done.
      * eauto.
  - destruct (calls g !! c) as [cl|] eqn:Hc; [|done]. cbn in Hs. simplify_eq.
    by apply lead_results with (PRun c) cl; [..|intros; set_solver].
  - pose proof (results_mono tr (t, RunPanic) g t k (PRun c) (PDead c) (m g) [] []) as R.
    rewrite !app_nil_r in R. destruct g. apply R; auto.
  - destruct (calls g !! c) as [cl|] eqn:Hc; [|done]. cbn in Hs. simplify_eq.
    destruct (inv_leader g Hi _ _ _ _ Ht eq_refl) as [_ Ho].
    destruct (res_call tr g Hres _ _ _ _ _ Hc Ho Ht eq_refl) as (v & Hv & Hin).
    apply lead_results with (PRan c) cl; auto. intros _. exists v. set_solver.
  - destruct (calls g !! c) as [cl|] eqn:Hc; [|done]. cbn in Hs. simplify_eq.
    destruct (inv_leader g Hi _ _ _ _ Ht eq_refl) as [_ Ho].
    destruct (res_call tr g Hres _ _ _ _ _ Hc Ho Ht eq_refl) as (v & Hv & Hin).
    pose proof (inv_wg_lead g t k (PDelete c) c cl Hi Ht eq_refl Hc) as Hwg. destruct Hres as [R1 R2].
    split; cbn.
    + intros c' cl' t2 k2 q Hc' Ho' Ht' Hq. destruct (decide (t2 = t)) as [->|]; lookup_set Ht.
      * destruct (R1 c' cl' t k2 (PDelete c)) as (v' & ? & ?); [done..|]. exists v'. set_solver.
      * destruct (R1 _ _ _ _ _ Hc' Ho' Ht' Hq) as (v' & ? & ?). exists v'. set_solver.
    + intros t2 k2 v2 e Hr. unfold returned in *. cbn in Hr. destruct (decide (t2 = t)) as [->|]; lookup_set Ht.
      * exists c, cl, t. done.
      * eauto.
Qed.

Lemma run_snoc tr x g g' :
  run (tr ++ [x]) g = Some g' → ∃ g1, run tr g = Some g1 ∧ step x.1 x.2 g1 = Some g'.
Proof.
  rewrite run_app. destruct (run tr g) as [g1|]; [|done]. destruct x as [t a]. cbn.
  intros H. exists g1. split; [done|]. by destruct (step t a g1).
Qed.

Lemma init_results ks : results [] (init (V := V) ks).
Proof.
  split; [done|]. intros t k v e H. unfold returned in H. cbn in H.
  apply list_lookup_fmap_Some in H as (? & ? & ?). done.
Qed.

Lemma run_init tr ks g : run tr (init ks) = Some g → inv g ∧ results tr g.
Proof.
  intros Hr. split; [by eapply flight_run_inv, Hr; apply init_inv|].
  revert g Hr. induction tr as [|x tr IH] using rev_ind; intros g Hr.
  - cbn in Hr. simplify_eq. apply init_results.
  - apply run_snoc in Hr as (g1 & Hr & Hs). destruct x as [t a].
    eapply step_results; eauto. eapply flight_run_inv; [apply init_inv|done].
Qed.

Lemma step_ths t a g g' : step t a g = Some g' →
  ∃ k p p', ths g !! t = Some (k, p) ∧ ths g' = <[t := (k, p')]> (ths g) ∧
    (weight (k, p') < weight (k, p))%nat ∧
    ((∃ c, p' = PDead c) → a = RunPanic).
Proof.
  intros Hs. unfold step in Hs. destruct (ths g !! t) as [[k p]|] eqn:Ht; [|done]. cbn in Hs.
  exists k, p. destruct p as [|c|c|c|c|v e|c], a as [|v' e'| | | |]; try done; simplify_eq;
    try (destruct (calls g !! c); [|done]; cbn in Hs; try case_bool_decide; simplify_eq);
    try (eexists; split_and!; [done|reflexivity|cbn; lia|naive_solver]).
  unfold enter. destruct (default ∅ (m g) !! k);
    (eexists; split_and!; [done|reflexivity|cbn; lia|naive_solver]).
Qed.

Lemma step_measure t a g g' : step t a g = Some g' → (measure g' < measure g)%nat.
Proof.
  intros (k & p & p' & Ht & Hths & Hw & _)%step_ths. unfold measure. rewrite Hths.
  pose proof (sum_list_with_set weight (ths g) t (k, p) (k, p') Ht). lia.
Qed.

Lemma run_measure tr g g' : run tr g = Some g' → (length tr + measure g' ≤ measure g)%nat.
Proof.
  revert g. induction tr as [|[t a] tr IH]; intros g Hr; cbn in Hr; [simplify_eq/=; lia|].
  destruct (step t a g) as [g1|] eqn:E; [|done]. apply step_measure in E.
  specialize (IH g1 Hr). cbn. lia.
Qed.

Lemma init_measure ks : measure (init (V := V) ks) = (4 * length ks)%nat.
Proof.
  unfold measure, init. cbn [ths]. induction ks as [|k ks IH]; [done|].
  change (4 + sum_list_with weight ((λ k : string, (k, @PStart V)) <$> ks) = 4 * S (length ks))%nat.
  lia.
Qed.

(** What was returned is what an execution of [fn] for the same key returned. *)
Lemma returned_ran tr g t k v e : inv g → results tr g → returned g t k v e →
  ∃ t' x p, v = Some x ∧ (t', RunOk x e) ∈ tr ∧ ths g !! t' = Some (k, p).
Proof.
  intros Hi Hr Hret.
  destruct (res_ret tr g Hr _ _ _ _ Hret) as (c & cl & t' & Hc & Ho & Hwg & -> & ->).
  destruct (inv_owner g Hi _ _ _ Ho) as (p & Hp & Hd).
  pose proof (inv_wg g Hi _ _ _ _ _ Hc Ho Hp) as Hw. rewrite Hwg in Hw.
  assert (has_run p = true) as Hrun.
  { destruct Hd as [Hl|(? & ? & ->)]; [|done]. by destruct p. }
  destruct (res_call tr g Hr _ _ _ _ _ Hc Ho Hp Hrun) as (x & Hx & Hin).
  by exists t', x, p.
Qed.

Lemma step_next t a g g' : step t a g = Some g' → ∃ k p p', ths g !! t = Some (k, p) ∧
  ths g' = <[t := (k, p')]> (ths g) ∧ next p a p'.
Proof.
  intros Hs. unfold step in Hs. destruct (ths g !! t) as [[k p]|] eqn:Ht; [|done]. cbn in Hs.
  exists k, p. destruct p as [|c|c|c|c|v e|c], a as [|v' e'| | | |]; try done; simplify_eq;
    try (destruct (calls g !! c); [|done]; cbn in Hs; try case_bool_decide; simplify_eq);
    try (eexists; split_and!; [done|reflexivity|cbn; eauto]).
  unfold enter. destruct (default ∅ (m g) !! k); (eexists; split_and!; [done|reflexivity|cbn; eauto]).
Qed.

(** The goroutines keep their keys. *)
Lemma run_keys tr g g' : run tr g = Some g' → (ths g').*1 = (ths g).*1.
Proof.
  revert g. induction tr as [|[t a] tr IH]; intros g Hr; cbn in Hr; [by simplify_eq|].
  destruct (step t a g) as [g1|] eqn:Hs; [|done]. rewrite (IH _ Hr).
  destruct (step_ths _ _ _ _ Hs) as (k & p & p' & Ht & -> & _). rewrite list_fmap_insert. cbn.
  apply list_insert_id. by rewrite list_lookup_fmap, Ht.
Qed.

Lemma no_panic tr ks g : run tr (init ks) = Some g → (∀ t, (t, RunPanic) ∉ tr) →
  ∀ t k c, ths g !! t ≠ Some (k, PDead c).
Proof.
  revert g. induction tr as [|[t a] tr IH] using rev_ind; intros g Hr Hp t' k' c' Ht'.
  - cbn in Hr. simplify_eq. cbn in Ht'. apply list_lookup_fmap_Some in Ht' as (? & ? & ?). done.
  - apply run_snoc in Hr as (g1 & Hr & Hs). cbn in Hs.
    destruct (step_ths _ _ _ _ Hs) as (k & p & p' & Ht & Hths & _ & Hd). rewrite Hths in Ht'.
    destruct (decide (t' = t)) as [->|]; lookup_set Ht.
    + apply (Hp t). rewrite Hd by eauto. set_solver.
    + eapply IH; eauto. set_solver.
Qed.

Lemma leader_steps g t k p c a : inv g → ths g !! t = Some (k, p) → leads p = Some c →
  match p, a with PRun _, RunOk _ _ | PRan _, Done | PDelete _, Delete => True | _, _ => False end →
  ∃ g', step t a g = Some g'.
Proof.
  intros Hi Ht Hl Ha. destruct (inv_leader g Hi _ _ _ _ Ht Hl) as [_ Ho].
  destruct (call_of g c t k Hi Ho) as [cl Hc]. unfold step. rewrite Ht.
  destruct p, a; try done; simplify_eq/=; rewrite Hc; by eexists.
Qed.

Lemma leader_can_step g t k p c :
  inv g → ths g !! t = Some (k, p) → leads p = Some c → (∀ d, p ≠ PDead d) → V →
  ∃ a g', step t a g = Some g'.
Proof.
  intros Hi Ht Hl Hd v.
  destruct p; simplify_eq/=; [exists (RunOk v None)|exists Done|exists Delete|naive_solver];
    by eapply leader_steps.
Qed.

(** A goroutine that arrives later changes no step of the others. *)
Lemma set_pc_spawn t key p g k : (t < length (ths g))%nat → set_pc t key p (spawn k g) = spawn k (set_pc t key p g).
Proof. intros Ht. unfold set_pc, spawn. cbn. by rewrite insert_app_l. Qed.

Lemma step_spawn t a g g' k : step t a g = Some g' → step t a (spawn k g) = Some (spawn k g').
Proof.
  unfold step. cbn [spawn ths calls m]. destruct (ths g !! t) as [[key p]|] eqn:Ht; [|done].
  pose proof (lookup_lt_Some _ _ _ Ht) as Hlt. rewrite (lookup_app_l_Some _ _ _ _ Ht). cbn [mbind option_bind].
  destruct p as [|c|c|c|c|v e|c], a; intros H; try done;
    try (destruct (calls g !! c) as [cl|]; [|done]; cbn [mbind option_bind] in H |- * );
    try (case_bool_decide; [|done]); try (unfold enter in H |- *; cbn [spawn m calls owner] in *; destruct (default ∅ (m g) !! key));
    injection H as <-; f_equal; by rewrite <- set_pc_spawn.
Qed.

Lemma run_spawn tr g g' k : run tr g = Some g' → run tr (spawn k g) = Some (spawn k g').
Proof.
  revert g. induction tr as [|[t a] tr IH]; intros g H; cbn [run] in *; [by injection H as <-|].
  destruct (step t a g) as [g1|] eqn:Hs; [|done]. rewrite (step_spawn _ _ _ _ k Hs). by apply IH.
Qed.

Lemma init_spawn ks k : spawn (V := V) k (init ks) = init (ks ++ [k]).
Proof. unfold spawn, init. cbn. by rewrite fmap_app. Qed.

(** Whoever takes a step is a goroutine of the group. *)
Lemma run_actor tr g g' t a : run tr g = Some g' → (t, a) ∈ tr → (t < length (ths g'))%nat.
Proof.
  revert g. induction tr as [|[u x] tr IH]; intros g H Hin; [by apply elem_of_nil in Hin|]. cbn [run] in H.
  destruct (step u x g) as [g1|] eqn:Hs; [|done]. apply elem_of_cons in Hin as [[= -> ->]|Hin]; [|by eapply IH].
  destruct (step_next _ _ _ _ Hs) as (k & p & p' & Ht & Hths & _). pose proof (run_keys _ _ _ H) as Hk.
  apply (f_equal length) in Hk. rewrite !length_fmap, Hths, length_insert in Hk. rewrite Hk. by eapply lookup_lt_Some.
Qed.

(** A goroutine that waits can go on when no execution of [fn] is under way. *)
Lemma waiter_wakes g t k c : inv g →
  (∀ t p c, ths g !! t = Some (k, p) → leads p = Some c → False) →
  ths g !! t = Some (k, PWait c) → ∃ g', step t Wake g = Some g'.
Proof.
  intros Hi Hno Ht. destruct (inv_wait g Hi _ _ _ Ht) as [t' Ho]. destruct (call_of g c t' k Hi Ho) as [cl Hc].
  destruct (inv_owner g Hi _ _ _ Ho) as (p & Hp & [Hl|(cl' & Hcl' & ->)]); [exfalso; by eapply Hno|].
  simplify_eq. pose proof (inv_wg g Hi _ _ _ _ _ Hc Ho Hp) as Hwg. cbn in Hwg.
  unfold step. rewrite Ht. cbn. rewrite Hc. cbn. rewrite bool_decide_eq_true_2 by done. by eexists.
Qed.

Lemma progress g : inv g → V → (∀ t k c, ths g !! t ≠ Some (k, PDead c)) →
  (∀ t a, step t a g = None) → returned_all g.
Proof.
  intros Hi v Hd Hq t k p Ht.
  assert (∀ t k p c, ths g !! t = Some (k, p) → leads p = Some c → False) as Hno.
  { intros t' k' p' c Ht' Hl. destruct (leader_can_step g t' k' p' c) as (a & g' & Hs); eauto.
    - intros d ->. by eapply Hd.
    - by rewrite Hq in Hs. }
  destruct p as [|c|c|c|c|v0 e|c]; try (exfalso; by eapply Hno).
  - specialize (Hq t Enter). unfold step in Hq. by rewrite Ht in Hq.
  - destruct (waiter_wakes g t k c Hi (λ t', Hno t' k) Ht) as [g' Hs]. by rewrite Hq in Hs.
  - eauto.
Qed.

Lemma returned_all_empty g : inv g → returned_all g → gmap_of g = ∅.
Proof.
  intros Hi Hr. apply map_empty. intros k. destruct (gmap_of g !! k) as [c|] eqn:E; [|done].
  destruct (inv_map g Hi _ _ E) as (t & p & _ & Ht & Hl).
  destruct (Hr _ _ _ Ht) as (v & e & ->). done.
Qed.

Lemma panic_step g t k c x a g' :
  inv g → ths g !! t = Some (k, PDead c) → step x a g = Some g' →
  ths g' !! t = Some (k, PDead c) ∧ (∀ t', stuck_on k c g t' → stuck_on k c g' t').
Proof.
  intros Hi Ht Hs. destruct (inv_leader g Hi _ _ _ _ Ht eq_refl) as [Hm Ho].
  destruct (call_of g c t k Hi Ho) as [cl Hc].
  pose proof (inv_wg g Hi _ _ _ _ _ Hc Ho Ht) as Hwg. cbn in Hwg.
  pose proof Hs as (k' & p & p' & Hx & Hths & _)%step_ths. rewrite Hths.
  assert (x ≠ t) as Hne.
  { intros ->. unfold step in Hs. rewrite Ht in Hs. by destruct a. }
  split; [by rewrite list_lookup_insert_ne|].
  intros t' Hst. unfold stuck_on in *. rewrite Hths.
  destruct (decide (t' = x)) as [->|Hne']; [|by rewrite list_lookup_insert_ne by done].
  unfold step in Hs. destruct Hst as [E|E]; rewrite E in Hs; cbn in Hs; destruct a; simplify_eq.
  - right. unfold enter in Hths. fold (gmap_of g) in Hths. rewrite Hm in Hths. cbn in Hths.
    rewrite <- Hths. by rewrite (lookup_set _ _ _ _ _ Hx), decide_True.
  - rewrite Hc in Hs. cbn in Hs. by rewrite bool_decide_eq_false_2 in Hs by lia.
Qed.

Lemma panic_run tr g t k c g' :
  inv g → ths g !! t = Some (k, PDead c) → run tr g = Some g' →
  ∀ t', stuck_on k c g t' → stuck_on k c g' t'.
Proof.
  revert g. induction tr as [|[x a] tr IH]; intros g Hi Ht Hr t' Hst; cbn in Hr; [by simplify_eq|].
  destruct (step x a g) as [g1|] eqn:E; [|done].
  destruct (panic_step g t k c x a g1 Hi Ht E) as [Ht1 Hst1].
  apply (IH g1); eauto using flight_step_inv.
Qed.

(** ** The sequential contract *)

Lemma Do_solo_idle {W} key (fn : W → V * error * W) g w v e w' :
  idle g → fn w = (v, e, w') →
  ∃ g', Do_solo key fn g w = Some (Some v, e, g', w') ∧ idle g'.
Proof.
  unfold idle, gmap_of. intros Hg Hfn. unfold Do_solo, step, spawn, enter. cbn [m calls ths owner].
  rewrite lookup_app_r, Nat.sub_diag by done. cbn [lookup list_lookup mbind option_bind].
  rewrite Hg, lookup_empty. cbn [set_pc m calls ths owner].
  assert (∀ p : pc V, <[length (ths g) := (key, p)]> (ths g ++ [(key, PStart)])
            = ths g ++ [(key, p)]) as Hset.
  { intros p. by rewrite insert_app_r_alt, Nat.sub_diag. }
  rewrite Hset, lookup_app_r, Nat.sub_diag by done. cbn. rewrite Hfn.
  rewrite lookup_app_r, Nat.sub_diag by done. cbn.
  assert (∀ p q : pc V, <[length (ths g) := (key, p)]> (ths g ++ [(key, q)])
            = ths g ++ [(key, p)]) as Hset'.
  { intros p q. by rewrite insert_app_r_alt, Nat.sub_diag. }
  assert (∀ c c' : call V, <[length (calls g) := c]> (calls g ++ [c'])
            = calls g ++ [c]) as Hcall.
  { intros c c'. by rewrite insert_app_r_alt, Nat.sub_diag. }
  repeat (rewrite ?Hset', ?Hcall; rewrite lookup_app_r, Nat.sub_diag by done; cbn).
  eexists. split; [done|]. cbn. apply map_eq. intros i. rewrite lookup_delete, lookup_insert.
  by case_decide; rewrite ?lookup_empty.
Qed.

(** ** Properties *)

(** C21: at no time do two goroutines execute [fn] for the same key. *)
Theorem fn_runs_alone ks tr g k t1 t2 c1 c2 :
  run tr (init (V := V) ks) = Some g →
  ths g !! t1 = Some (k, PRun c1) → ths g !! t2 = Some (k, PRun c2) → t1 = t2.
Proof.
  intros [Hi _]%run_init H1 H2.
  destruct (inv_leader g Hi _ _ _ _ H1 eq_refl), (inv_leader g Hi _ _ _ _ H2 eq_refl). congruence.
Qed.

(** What [Do] returns to a goroutine is exactly the value and error some
    execution of [fn] for the same key returned, in every interleaving: a
    waiter never sees a call that has not finished. *)
Theorem Do_returns_fn_result ks tr g t k v e :
  run tr (init (V := V) ks) = Some g → returned g t k v e →
  ∃ t' x, v = Some x ∧ (t', RunOk x e) ∈ tr ∧ ∃ p, ths g !! t' = Some (k, p).
Proof.
  intros [Hi Hr]%run_init Hret.
  destruct (returned_ran tr g t k v e Hi Hr Hret) as (t' & x & p & ? & ? & ?). exists t', x. eauto.
Qed.

(** Every schedule of [n] calls takes at most 4n steps, and if no execution
    of [fn] panics, then when no goroutine can move, all of them have returned
    and the group keeps no call. *)
Theorem Do_terminates ks tr g :
  V → run tr (init (V := V) ks) = Some g →
  (length tr ≤ 4 * length ks)%nat ∧
  ((∀ t, (t, RunPanic) ∉ tr) → (∀ t a, step t a g = None) → returned_all g ∧ gmap_of g = ∅).
Proof.
  intros v Hr. split.
  - apply run_measure in Hr. rewrite init_measure in Hr. lia.
  - intros Hp Hq. pose proof (run_init _ _ _ Hr) as [Hi _].
    assert (returned_all g) by eauto using progress, no_panic. eauto using returned_all_empty.
Qed.

(** When [fn] panics, its key is lost: the call stays in the map with its
    wait group held, and every goroutine that was waiting for it, or calls [Do]
    with the key afterwards, never returns. *)
Theorem panic_blocks_key ks tr g t k c tr' g' t' :
  run tr (init (V := V) ks) = Some g → ths g !! t = Some (k, PDead c) →
  run tr' g = Some g' → stuck_on k c g t' → ∀ v e, ~ returned g' t' k v e.
Proof.
  intros [Hi _]%run_init Ht Hr Hst v e Hret.
  destruct (panic_run tr' g t k c g' Hi Ht Hr t' Hst) as [H|H]; unfold returned in Hret; congruence.
Qed.
End proofs.

(** ** Concrete instances *)

(** Two callers of one key: the second joins the first's call. *)
Lemma Do_returns_fn_result_witness :
  ∃ g, run [(0%nat, Enter); (1%nat, Enter); (0%nat, RunOk 7 None); (0%nat, Done); (1%nat, Wake); (0%nat, Delete)]
         (init ["a"; "a"]%string) = Some g ∧
       ∃ t' x, Some 7 = Some x ∧
         (t', RunOk x None) ∈ [(0%nat, Enter); (1%nat, Enter); (0%nat, RunOk 7 None); (0%nat, Done); (1%nat, Wake); (0%nat, Delete)] ∧
         ∃ p, ths g !! t' = Some ("a"%string, p).
Proof.
  eexists. split; [vm_compute; reflexivity|].
  eapply (Do_returns_fn_result ["a"; "a"]%string _ _ 1 "a"); reflexivity.
Defined.

Lemma fn_runs_alone_witness :
  ∃ g t, run [(0%nat, Enter); (1%nat, Enter)] (init (V := Z) ["a"; "a"]%string) = Some g ∧
         ths g !! t = Some ("a"%string, PRun 0) ∧ t = 0%nat.
Proof.
  eexists _, 0%nat. split; [vm_compute; reflexivity|]. split; [reflexivity|].
  exact (fn_runs_alone (V := Z) ["a"; "a"]%string [(0%nat, Enter); (1%nat, Enter)] _ "a" 0 0 0 0
           eq_refl eq_refl eq_refl).
Defined.

Lemma Do_terminates_witness :
  (length [(0%nat, Enter); (1%nat, Enter); (0%nat, RunOk 7 None)] ≤ 4 * 2)%nat.
Proof.
  eapply (Do_terminates ["a"; "a"]%string [(0%nat, Enter); (1%nat, Enter); (0%nat, RunOk 7 None)] _ 7).
  reflexivity.
Defined.

Lemma panic_blocks_key_witness :
  ∃ g, run [(0%nat, Enter); (1%nat, Enter); (0%nat, RunPanic)] (init (V := Z) ["a"; "a"]%string) = Some g ∧
       ∀ v e, ~ returned g 1 "a" v e.
Proof.
  eexists. split; [vm_compute; reflexivity|].
  eapply (panic_blocks_key ["a"; "a"]%string [(0%nat, Enter); (1%nat, Enter); (0%nat, RunPanic)] _ 0 "a" 0 []);
    [reflexivity|reflexivity|reflexivity|]. right. reflexivity.
Defined.
