(* ===== verification/GeeCache.v ===== *)
(** * geecache: byte views, the cache wrapper and the cache groups

    Models [src/geecache/byteview.go], [cache.go], [peers.go] and
    [geecatche.go] for one request at a time.  Byte slices are pointers into a
    heap, so that which slices share memory is visible; [E] is the state of
    everything outside the process (the data source, the other nodes).  A
    [Getter] and a [PeerGetter] are arbitrary functions on the heap and that
    state.  The mutex of [cache] is held for a whole [add] or [get], which are
    single steps here; [loader.Do] runs through the steps of SingleFlight. *)

From S2P Require Import Prelude Lru SingleFlight.

(** ** Byte slices *)

(** A slice is its pointer and length (views of a whole buffer are all the code
    makes); a nil slice is one of length 0. *)
Record slice := Slice { ptr : nat; slen : Z }.
Abbreviation Heap := (list (list Z)).

Definition nil_slice : slice := Slice 0 0.

Definition bytes_at (h : Heap) (s : slice) : list Z :=
  take (Z.to_nat (slen s)) (default [] (h !! ptr s)).

(** [copy(dst, src)] *)
Definition copy_bytes (dst src : list Z) : list Z :=
  take (length dst) src ++ drop (length src) dst.

Record ByteView := mkView { b : slice }.

Definition ByteView_Len (v : ByteView) : Z := slen (b v).

Definition cloneBytes (s : slice) (h : Heap) : slice * Heap :=
  let c := replicate (Z.to_nat (slen s)) 0 in
  (Slice (length h) (slen s), h ++ [copy_bytes c (bytes_at h s)]).

Definition Byteslice (v : ByteView) (h : Heap) : slice * Heap := cloneBytes (b v) h.

Definition ByteView_String (v : ByteView) (h : Heap) : list Z := bytes_at h (b v).

Definition zero_view : ByteView := mkView nil_slice.

(** A write through a slice by whoever holds it. *)
Definition heap_write (p : nat) (bs : list Z) (h : Heap) : Heap := <[p := bs]> h.

(** ** cache.go *)

Record cache := mkCache { lru : option (Lru.Cache (Value := ByteView)); cacheBytes : Z }.

Definition cache_add (key : string) (v : ByteView) (c : cache) : outcome cache :=
  let l := default (Lru.New (cacheBytes c) false) (lru c) in
  let! (l', _) := Lru.Add ByteView_Len (S (Lru.Len_cache l)) key v l in
  Ret (mkCache (Some l') (cacheBytes c)).

Definition cache_get (key : string) (c : cache) : outcome (option ByteView * cache) :=
  match lru c with
  | None => Ret (None, c)
  | Some l => let! (v, l') := Lru.Get key l in Ret (v, mkCache (Some l') (cacheBytes c))
  end.

Section Group.
Context {E : Type}.

Record World := mkWorld { heap : Heap; env : E }.

(** [Get(key) ([]byte, error)] *)
Definition Getter : Type := string → World → slice * error * World.

(** [Get(in *pb.Request, out *pb.Response) error]: the group and key of the
    request; the error and the Value of the response. *)
Definition PeerGetter : Type := string → string → World → error * slice * World.

(** [PickPeer(key) (peer, ok)] *)
Definition PerrPicker : Type := string → outcome (option PeerGetter).

(** The interface-valued function of geecatche.go: [f.Get(key)] calls [f]. *)
Definition GetterFunc_Get (f : Getter) (key : string) : World → slice * error * World := f key.

Record Group := mkGroup {
  name : string;
  getter : Getter;
  mainCache : cache;
  peers : option PerrPicker;
  loader : SingleFlight.Group ByteView;
}.

Definition getFromPeer (gname : string) (peer : PeerGetter) (key : string) (w : World)
  : ByteView * error * World :=
  let '(err, value, w) := peer gname key w in
  match err with
  | Some e => (zero_view, Some e, w)
  | None => (mkView value, None, w)
  end.

Definition populateCache (key : string) (value : ByteView) (c : cache) : outcome cache :=
  cache_add key value c.

Definition getLocally (g : Getter) (key : string) (c : cache) (w : World)
  : outcome (ByteView * error * (cache * World)) :=
  let '(bytes, err, w) := g key w in
  match err with
  | Some e => Ret (zero_view, Some e, (c, w))
  | None =>
      let '(s, h) := cloneBytes bytes (heap w) in
      let value := mkView s in
      let! c := populateCache key value c in
      Ret (value, None, (c, mkWorld h (env w)))
  end.

(** The function [load] passes to [g.loader.Do]. *)
Definition load_fn (g : Group) (key : string) (c : cache) (w : World)
  : outcome (ByteView * error * (cache * World)) :=
  match peers g with
  | Some pick =>
      let! p := pick key in
      match p with
      | Some peer =>
          let '(value, err, w) := getFromPeer (name g) peer key w in
          match err with
          | None => Ret (value, None, (c, w))
          | Some _ => getLocally (getter g) key c w
          end
      | None => getLocally (getter g) key c w
      end
  | None => getLocally (getter g) key c w
  end.

(** A function that may not return, run by [Do]: the state it leaves records
    that it did not. *)
Definition in_outcome {S A} (f : S → outcome (A * error * S)) (a0 : A) (s : outcome S)
  : A * error * outcome S :=
  match s with
  | Ret s =>
      match f s with
      | Ret (a, e, s) => (a, e, Ret s)
      | Panic msg => (a0, None, Panic msg)
      | NoFuel => (a0, None, NoFuel)
      end
  | _ => (a0, None, s)
  end.

Definition set_state (g : Group) (c : cache) (l : SingleFlight.Group ByteView) : Group :=
  mkGroup (name g) (getter g) c (peers g) l.

Definition load (key : string) (g : Group) (w : World)
  : outcome (ByteView * error * Group * World) :=
  match Do_solo key (in_outcome (λ '(c, w), load_fn g key c w) zero_view)
          (loader g) (Ret (mainCache g, w)) with
  | Some (view, err, l, s) =>
      let! (c, w) := s in
      match err, view with
      | None, Some v => Ret (v, None, set_state g c l, w)
      | None, None => Panic "interface conversion: interface is nil"
      | Some e, _ => Ret (zero_view, Some e, set_state g c l, w)
      end
  | None => NoFuel
  end.

Definition Get (key : string) (g : Group) (w : World)
  : outcome (ByteView * error * Group * World) :=
  if bool_decide (key = ""%string) then Ret (zero_view, Some "key is required"%string, g, w)
  else
    let! (hit, c) := cache_get key (mainCache g) in
    let g := set_state g c (loader g) in
    match hit with
    | Some v => Ret (v, None, g, w)
    | None => load key g w
    end.

Definition RegisterPeers (p : PerrPicker) (g : Group) : outcome Group :=
  match peers g with
  | Some _ => Panic "RegisterPeerPicker called more than once"
  | None => Ret (mkGroup (name g) (getter g) (mainCache g) (Some p) (loader g))
  end.

(** ** The groups of a process: [groups] maps a name to a pointer into [objs]. *)

Record Proc := mkProc { groups : gmap string nat; objs : list Group; world : World }.

Definition NewGroup (gname : string) (bytes : Z) (g : option Getter) (p : Proc)
  : outcome (nat * Proc) :=
  match g with
  | None => Panic "nil Getter"
  | Some g =>
      let obj := mkGroup gname g (mkCache None bytes) None (SingleFlight.init []) in
      Ret (length (objs p),
           mkProc (<[gname := length (objs p)]> (groups p)) (objs p ++ [obj]) (world p))
  end.

Definition GetGroup (gname : string) (p : Proc) : option nat := groups p !! gname.

(** [group.Get(key)] through the pointer. *)
Definition group_Get (gp : nat) (key : string) (p : Proc) : outcome (ByteView * error * Proc) :=
  match objs p !! gp with
  | Some g =>
      let! (v, e, g, w) := Get key g (world p) in
      Ret (v, e, mkProc (groups p) (<[gp := g]> (objs p)) w)
  | None => Panic "invalid memory address or nil pointer dereference"
  end.

(** ** Specification *)

(** The slice is inside its buffer. *)
Definition slice_ok (h : Heap) (s : slice) : Prop :=
  0 ≤ slen s ∧ Z.of_nat (length (bytes_at h s)) = slen s.

Definition cached (c : cache) : list (string * ByteView) :=
  match lru c with None => [] | Some l => Lru.abs l end.

Record cache_ok (c : cache) : Prop := {
  ok_bytes : 0 ≤ cacheBytes c;
  ok_lru : ∀ l, lru c = Some l → Lru.wf ByteView_Len l ∧ Lru.maxBytes l = cacheBytes c;
}.

Record group_ok (g : Group) : Prop := {
  ok_cache : cache_ok (mainCache g);
  ok_loader : SingleFlight.idle (loader g);
}.

(** The pair of [key] and [v] can be kept within the budget of [c]. *)
Definition room_for (c : cache) (key : string) (v : ByteView) : Prop :=
  Lru.sizes_ok ByteView_Len ((key, v) :: cached c) ∧
  Lru.total ByteView_Len (Lru.abs_put key v (cached c)) < 2 ^ 63 ∧
  (cacheBytes c = 0 ∨ Lru.size_of ByteView_Len (key, v) ≤ cacheBytes c).

(** The world in which [getter] is called on a miss: no other node is asked,
    or the one asked failed. *)
Inductive asks_getter (g : Group) (key : string) (w : World) : World → Prop :=
  | ask_no_peers : peers g = None → asks_getter g key w w
  | ask_own_key pick : peers g = Some pick → pick key = Ret None → asks_getter g key w w
  | ask_failed pick peer e s w1 : peers g = Some pick → pick key = Ret (Some peer) →
      peer (name g) key w = (Some e, s, w1) → asks_getter g key w w1.

(** The node picker answers (its own map of peers is set up). *)
Definition picker_ok (g : Group) (key : string) : Prop :=
  ∀ pick, peers g = Some pick → ∃ r, pick key = Ret r.

Definition same_group (g g' : Group) : Prop :=
  name g' = name g ∧ getter g' = getter g ∧ peers g' = peers g.
End Group.
Arguments World : clear implicits.
Arguments Group : clear implicits.
Arguments Proc : clear implicits.
Arguments Getter : clear implicits.
Arguments PeerGetter : clear implicits.
Arguments PerrPicker : clear implicits.

(** A concrete group: the data source of [src/geecache/geecatche_test.go],
    reduced to Tom; the buffer of the source is the slice at pointer 0. *)
Definition tom_db : Getter unit := λ key w,
  if bool_decide (key = "Tom"%string) then (Slice 0 3, None, w)
  else (nil_slice, Some (key +:+ " not exist")%string, w).

Definition tom_world : World unit := mkWorld [[54; 51; 48]] tt.

Definition scores : Group unit :=
  mkGroup "scores" tom_db (mkCache None 2048) None (SingleFlight.init []).

(** ** The cache wrapper *)

Lemma cache_get_ok k c : cache_ok c → ∃ c',
  cache_get k c = Ret (Lru.abs_find k (cached c), c') ∧ cache_ok c' ∧
  cached c' = Lru.abs_get k (cached c) ∧ cacheBytes c' = cacheBytes c.
Proof.
  intros Hok. pose proof Hok as [Hb Hl]. unfold cache_get, cached. destruct (lru c) as [l|] eqn:El.
  - destruct (Hl l eq_refl) as [Hwf Hm].
    destruct (Lru.Get_ok ByteView_Len l k Hwf) as (l' & Hg & Hwf' & Habs & Hm' & _).
    rewrite Hg. cbn [obind]. eexists. split_and!; [done| |done|done].
    split; cbn; [done|]. intros ? [= <-]. split; [done|congruence].
  - exists c. by rewrite El.
Qed.

Lemma default_wf c : cache_ok c →
  let l := default (Lru.New (cacheBytes c) false) (lru c) in
  Lru.wf ByteView_Len l ∧ Lru.maxBytes l = cacheBytes c ∧ Lru.abs l = cached c.
Proof.
  intros [Hb Hl]. unfold cached. destruct (lru c) as [l|] eqn:El; cbn.
  - destruct (Hl l eq_refl). done.
  - split; [apply Lru.New_wf|done].
Qed.

Lemma cache_add_ok k v c : cache_ok c → ∃ c',
  cache_add k v c = Ret c' ∧ cache_ok c' ∧ cacheBytes c' = cacheBytes c ∧
  (room_for c k v → Lru.abs_find k (cached c') = Some v) ∧ cached c' ⊆ (k, v) :: cached c.
Proof.
  intros Hok. destruct (default_wf c Hok) as (Hwf & Hm & Habs).
  unfold cache_add. cbn zeta. set (l := default _ _) in *.
  destruct (Lru.Add_total ByteView_Len l k v Hwf) as (l' & ev & Ha & Hwf' & [Hm' _] & _ & Hpre);
    [rewrite Hm; apply Hok|].
  rewrite Ha. cbn [obind]. eexists. split_and!; [done| |done| |].
  - split; cbn; [apply Hok|]. intros ? [= <-]. split; [done|congruence].
  - intros (Hs & Ht & Hfit). unfold cached at 1. cbn.
    destruct (Lru.Add_spec ByteView_Len (S (Lru.Len_cache l)) l k v) as (l2 & Ha2 & _ & Habs2 & _);
      rewrite ?Hm, ?Habs; try done; [apply Hok| |].
    { unfold Lru.Len_cache. rewrite (Lru.wf_length _ l Hwf), Habs. lia. }
    rewrite Ha in Ha2. simplify_eq. rewrite Habs2, Hm, Habs. unfold Lru.abs_put.
    destruct (Lru.keep_head ByteView_Len (cacheBytes c) (k, v) (Lru.absent k (cached c)))
      as [l3 ->]; [done|]. apply Lru.abs_find_head.
  - unfold cached at 1. cbn. rewrite Habs in Hpre. intros x Hx.
    eapply elem_of_prefix in Hx; [|done]. unfold Lru.abs_put, Lru.absent in Hx.
    apply elem_of_cons in Hx as [->|[_ Hx]%list_elem_of_filter]; [by left|by right].
Qed.

(** ** Byte slices *)

Lemma copy_bytes_all dst src : length src = length dst → copy_bytes dst src = src.
Proof.
  intros H. unfold copy_bytes. rewrite H, drop_all, app_nil_r. apply take_ge. lia.
Qed.

Lemma cloneBytes_ok s h : slice_ok h s →
  let '(s', h') := cloneBytes s h in
  bytes_at h' s' = bytes_at h s ∧ ptr s' = length h ∧ slen s' = slen s ∧ h `prefix_of` h' ∧
  slice_ok h' s'.
Proof.
  intros [Hs Hl]. unfold cloneBytes. cbn.
  assert (bytes_at (h ++ [copy_bytes (replicate (Z.to_nat (slen s)) 0) (bytes_at h s)])
            (Slice (length h) (slen s)) = bytes_at h s) as Hb.
  { unfold bytes_at at 1. cbn. rewrite lookup_app_r, Nat.sub_diag by done. cbn.
    rewrite copy_bytes_all by (rewrite length_replicate; lia). apply take_ge. lia. }
  split_and!; [done|done|done|by eexists|]. split; cbn; [done|]. by rewrite Hb.
Qed.

Section proofs.
Context {E : Type}.
Implicit Types (g : Group E) (w : World E).

(** ** Loading *)

Lemma getLocally_total (gt : Getter E) key c w : cache_ok c → ∃ v e c' w',
  getLocally gt key c w = Ret (v, e, (c', w')) ∧ cache_ok c' ∧ cacheBytes c' = cacheBytes c.
Proof.
  intros Hok. unfold getLocally. destruct (gt key w) as [[s [e|]] w1].
  - do 4 eexists. split_and!; done.
  - destruct (cloneBytes s (heap w1)) as [s' h]. unfold populateCache.
    destruct (cache_add_ok key (mkView s') c Hok) as (c' & -> & ? & ? & _). cbn.
    do 4 eexists. split_and!; done.
Qed.

Lemma getLocally_error (gt : Getter E) key c w s e w1 :
  gt key w = (s, Some e, w1) → getLocally gt key c w = Ret (zero_view, Some e, (c, w1)).
Proof. intros H. unfold getLocally. by rewrite H. Qed.

Lemma getLocally_stores (gt : Getter E) key c w s w1 :
  cache_ok c → gt key w = (s, None, w1) → slice_ok (heap w1) s →
  let v := mkView (Slice (length (heap w1)) (slen s)) in
  ∃ c' w', getLocally gt key c w = Ret (v, None, (c', w')) ∧ cache_ok c' ∧
    ByteView_String v (heap w') = bytes_at (heap w1) s ∧ env w' = env w1 ∧
    length (heap w') = S (length (heap w1)) ∧ slice_ok (heap w') (b v) ∧
    (room_for c key v → Lru.abs_find key (cached c') = Some v) ∧
    heap w1 `prefix_of` heap w' ∧ cached c' ⊆ (key, v) :: cached c.
Proof.
  intros Hok Hg Hs. cbn zeta. unfold getLocally. rewrite Hg.
  pose proof (cloneBytes_ok s (heap w1) Hs) as Hc. unfold cloneBytes in *. cbn in Hc.
  destruct Hc as (Hb & _ & _ & _ & Hok'). unfold populateCache.
  destruct (cache_add_ok key (mkView (Slice (length (heap w1)) (slen s))) c Hok)
    as (c' & Ha & ? & _ & Hr & Hsub). cbn. rewrite Ha. cbn. do 2 eexists. split_and!; try done.
  - cbn. rewrite length_app. cbn. lia.
  - cbn. by eexists.
Qed.

Lemma load_run g key w : group_ok g →
  ∃ l, SingleFlight.idle l ∧
  load key g w =
    (let! (v, e, (c, w')) := load_fn g key (mainCache g) w in
     match e with
     | None => Ret (v, None, set_state g c l, w')
     | Some e => Ret (zero_view, Some e, set_state g c l, w')
     end).
Proof.
  intros [Hc Hl]. unfold load.
  set (fn := in_outcome _ _). destruct (fn (Ret (mainCache g, w))) as [[v e] s] eqn:Hfn.
  destruct (Do_solo_idle key fn (loader g) _ v e s Hl Hfn) as (l & -> & Hl').
  exists l. split; [done|]. subst fn. cbn in Hfn.
  destruct (load_fn g key (mainCache g) w) as [[[v' e'] [c w']]| |]; by simplify_eq/=.
Qed.

Lemma load_fn_total g key c w : cache_ok c → picker_ok g key → ∃ v e c' w',
  load_fn g key c w = Ret (v, e, (c', w')) ∧ cache_ok c' ∧ cacheBytes c' = cacheBytes c.
Proof.
  intros Hok Hp. unfold load_fn, picker_ok in *. destruct (peers g) as [pick|]; [|by apply getLocally_total].
  destruct (Hp pick eq_refl) as [[peer|] ->]; cbn.
  - destruct (getFromPeer (name g) peer key w) as [[v [e|]] w1]; [by apply getLocally_total|].
    do 4 eexists. split_and!; done.
  - by apply getLocally_total.
Qed.

Lemma Get_miss g key w : group_ok g → key ≠ ""%string →
  Lru.abs_find key (cached (mainCache g)) = None → ∃ c,
  cache_ok c ∧ cached c = cached (mainCache g) ∧ cacheBytes c = cacheBytes (mainCache g) ∧
  Get key g w = load key (set_state g c (loader g)) w.
Proof.
  intros [Hc Hl] Hk Hf. unfold Get. rewrite bool_decide_eq_false_2 by done.
  destruct (cache_get_ok key _ Hc) as (c & -> & Hc' & Hab & Hby). rewrite Hf. cbn.
  exists c. split_and!; try done. rewrite Hab. unfold Lru.abs_get. by rewrite Hf.
Qed.

Lemma Get_hit g key w v : group_ok g → key ≠ ""%string →
  Lru.abs_find key (cached (mainCache g)) = Some v → ∃ g',
  Get key g w = Ret (v, None, g', w) ∧ group_ok g' ∧ same_group g g' ∧
  cached (mainCache g') = Lru.abs_get key (cached (mainCache g)).
Proof.
  intros [Hc Hl] Hk Hf. unfold Get. rewrite bool_decide_eq_false_2 by done.
  destruct (cache_get_ok key _ Hc) as (c & -> & Hc' & Hab & Hby). rewrite Hf. cbn.
  eexists. split_and!; [done|by split|done|done].
Qed.

Lemma NewGroup_ok gname bytes (gt : Getter E) : 0 ≤ bytes →
  group_ok (mkGroup gname gt (mkCache None bytes) None (SingleFlight.init [])).
Proof. intros H. split; [split; cbn; [done|by intros]|done]. Qed.

Lemma load_fn_asks g key c w w1 :
  asks_getter g key w w1 → load_fn g key c w = getLocally (getter g) key c w1.
Proof.
  unfold load_fn, getFromPeer. intros [->|pick -> ->|pick peer e s w2 -> Hp Hf]; try done.
  rewrite Hp. cbn. by rewrite Hf.
Qed.

(** The three ways a miss ends: the getter's value, its error, another node's
    value. *)
Lemma Get_loads g key w w1 s w2 :
  group_ok g → key ≠ ""%string → Lru.abs_find key (cached (mainCache g)) = None →
  asks_getter g key w w1 → getter g key w1 = (s, None, w2) → slice_ok (heap w2) s →
  ∃ v g' w', Get key g w = Ret (v, None, g', w') ∧
    ByteView_String v (heap w') = bytes_at (heap w2) s ∧ slice_ok (heap w') (b v) ∧
    env w' = env w2 ∧ heap w2 `prefix_of` heap w' ∧ group_ok g' ∧ same_group g g' ∧
    cached (mainCache g') ⊆ (key, v) :: cached (mainCache g) ∧
    (room_for (mainCache g) key v → Lru.abs_find key (cached (mainCache g')) = Some v).
Proof.
  intros Hg Hk Hf Ha Hget Hs.
  destruct (Get_miss g key w Hg Hk Hf) as (c & Hc & Hcc & Hby & ->).
  destruct (load_run (set_state g c (loader g)) key w) as (l & Hl & ->); [by split; [|apply Hg]|].
  rewrite (load_fn_asks _ _ _ _ w1) by (by destruct Ha; econstructor).
  destruct (getLocally_stores (getter g) key c w1 s w2 Hc Hget Hs)
    as (c' & w' & Hgl & Hc' & Hstr & Henv & _ & Hsl & Hroom & Hpre & Hsub).
  cbn [mainCache set_state getter]. rewrite Hgl. cbn [obind].
  do 3 eexists. split_and!; [done|done|done|done|done|by split|done|by rewrite <- Hcc|].
  intros Hr. apply Hroom. unfold room_for in *. by rewrite Hcc, Hby.
Qed.

Lemma Get_fails g key w w1 s e w2 :
  group_ok g → key ≠ ""%string → Lru.abs_find key (cached (mainCache g)) = None →
  asks_getter g key w w1 → getter g key w1 = (s, Some e, w2) →
  ∃ g', Get key g w = Ret (zero_view, Some e, g', w2) ∧
    cached (mainCache g') = cached (mainCache g) ∧ group_ok g' ∧ same_group g g'.
Proof.
  intros Hg Hk Hf Ha Hget.
  destruct (Get_miss g key w Hg Hk Hf) as (c & Hc & Hcc & Hby & ->).
  destruct (load_run (set_state g c (loader g)) key w) as (l & Hl & ->); [by split; [|apply Hg]|].
  rewrite (load_fn_asks _ _ _ _ w1) by (by destruct Ha; econstructor).
  cbn [mainCache set_state getter]. rewrite (getLocally_error _ _ _ _ s e w2) by done. cbn [obind].
  eexists. split_and!; [done|done|by split|done].
Qed.

Lemma Get_fetches g key w pick peer s w1 :
  group_ok g → key ≠ ""%string → Lru.abs_find key (cached (mainCache g)) = None →
  peers g = Some pick → pick key = Ret (Some peer) → peer (name g) key w = (None, s, w1) →
  ∃ g', Get key g w = Ret (mkView s, None, g', w1) ∧
    cached (mainCache g') = cached (mainCache g) ∧ group_ok g' ∧ same_group g g'.
Proof.
  intros Hg Hk Hf Hp Hpick Hpeer.
  destruct (Get_miss g key w Hg Hk Hf) as (c & Hc & Hcc & Hby & ->).
  destruct (load_run (set_state g c (loader g)) key w) as (l & Hl & ->); [by split; [|apply Hg]|].
  unfold load_fn, getFromPeer. cbn [mainCache set_state peers name]. rewrite Hp, Hpick. cbn [obind].
  rewrite Hpeer. cbn [obind]. eexists. split_and!; [done|done|by split|done].
Qed.

(** ** Properties *)

(** [Group.Get] always returns when the byte budget is not negative and the
    peer picker answers, whatever the getter and the peers do, and it leaves
    the cache consistent and no call in flight, so the next request can run. *)
Theorem Get_returns g key w :
  group_ok g → picker_ok g key → ∃ v e g' w',
  Get key g w = Ret (v, e, g', w') ∧ group_ok g' ∧ same_group g g'.
Proof.
  intros Hg Hp. destruct (decide (key = ""%string)) as [->|Hk].
  { unfold Get. rewrite bool_decide_eq_true_2 by done. do 4 eexists. by split. }
  destruct (Lru.abs_find key (cached (mainCache g))) as [v|] eqn:Hf.
  - destruct (Get_hit g key w v Hg Hk Hf) as (g' & H & Hok & Hsame & _). by do 4 eexists.
  - destruct (Get_miss g key w Hg Hk Hf) as (c & Hc & _ & _ & ->).
    destruct (load_run (set_state g c (loader g)) key w) as (l & Hl & ->); [by split; [|apply Hg]|].
    destruct (load_fn_total (set_state g c (loader g)) key c w) as (v & e & c' & w' & Hlf & Hc' & _);
      [done..|]. cbn [mainCache set_state] in *. rewrite Hlf. cbn [obind].
    destruct e; do 4 eexists; (split_and!; [done|by split|done]).
Qed.

(** C22: when the getter is asked and answers, [Get] returns a copy of the bytes
    it gave; if the entry fits the budget, a later [Get] of the key returns
    the same view without asking anybody. *)
Theorem Get_loads_and_caches g key w w1 s w2 :
  group_ok g → key ≠ ""%string → Lru.abs_find key (cached (mainCache g)) = None →
  asks_getter g key w w1 → getter g key w1 = (s, None, w2) → slice_ok (heap w2) s →
  ∃ v g' w', Get key g w = Ret (v, None, g', w') ∧
    ByteView_String v (heap w') = bytes_at (heap w2) s ∧ env w' = env w2 ∧ group_ok g' ∧
    (room_for (mainCache g) key v → ∀ w3, ∃ g'', Get key g' w3 = Ret (v, None, g'', w3)).
Proof.
  intros Hg Hk Hf Ha Hget Hs.
  destruct (Get_loads g key w w1 s w2) as (v & g' & w' & H & Hb & _ & He & _ & Hg' & _ & _ & Hr); [done..|].
  exists v, g', w'. split_and!; [done..|]. intros Hroom w3.
  destruct (Get_hit g' key w3 v Hg' Hk (Hr Hroom)) as (g'' & Hg'' & _). by exists g''.
Qed.

(** When the getter is asked and fails, [Get] returns its error with the
    empty view and caches nothing, so the next request asks again. *)
Theorem Get_error_not_cached g key w w1 s e w2 :
  group_ok g → key ≠ ""%string → Lru.abs_find key (cached (mainCache g)) = None →
  asks_getter g key w w1 → getter g key w1 = (s, Some e, w2) →
  ∃ g', Get key g w = Ret (zero_view, Some e, g', w2) ∧
    cached (mainCache g') = cached (mainCache g) ∧ group_ok g'.
Proof.
  intros Hg Hk Hf Ha Hget. destruct (Get_fails g key w w1 s e w2) as (g' & H & Hc & Hg' & _); [done..|].
  by exists g'.
Qed.

(** A value another node answers with is returned as it is and not stored
    in the local cache; the local getter is not asked. *)
Theorem Get_from_peer g key w pick peer s w1 :
  group_ok g → key ≠ ""%string → Lru.abs_find key (cached (mainCache g)) = None →
  peers g = Some pick → pick key = Ret (Some peer) → peer (name g) key w = (None, s, w1) →
  ∃ g', Get key g w = Ret (mkView s, None, g', w1) ∧
    cached (mainCache g') = cached (mainCache g) ∧ group_ok g'.
Proof.
  intros Hg Hk Hf Hp Hpick Hpeer.
  destruct (Get_fetches g key w pick peer s w1) as (g' & H & Hc & Hg' & _); [done..|]. by exists g'.
Qed.

(** C23: the bytes of a cached view cannot be changed through the slices that
    leave or enter the cache: [Byteslice] hands out a copy, and a loaded value
    is a copy of the getter's buffer, so writing to either buffer afterwards
    leaves the view as it was. *)
Theorem cached_bytes_isolated (gt : Getter E) key c w s w1 written h2 :
  cache_ok c → gt key w = (s, None, w1) → slice_ok (heap w1) s →
  (ptr s < length (heap w1))%nat →
  ∃ v c' w', getLocally gt key c w = Ret (v, None, (c', w')) ∧
    ByteView_String v (heap_write (ptr s) written (heap w')) = bytes_at (heap w1) s ∧
    (heap w' `prefix_of` h2 →
     let '(out, h3) := Byteslice v h2 in
     bytes_at h3 out = bytes_at (heap w1) s ∧
     ByteView_String v (heap_write (ptr out) written h3) = bytes_at (heap w1) s).
Proof.
  intros Hok Hg Hs Hlt.
  destruct (getLocally_stores gt key c w s w1 Hok Hg Hs)
    as (c' & w' & Hgl & _ & Hstr & _ & Hlen & [Hv1 Hv2] & _).
  set (v := mkView (Slice (length (heap w1)) (slen s))) in *.
  assert (∀ h p, heap w' `prefix_of` h → p ≠ ptr (b v) →
    ByteView_String v (heap_write p written h) = bytes_at (heap w1) s) as Hframe.
  { intros h p [h' ->] Hne. rewrite <- Hstr. unfold ByteView_String, bytes_at, heap_write.
    rewrite list_lookup_insert_ne by done. rewrite lookup_app_l by (cbn; lia). done. }
  exists v, c', w'. split_and!; [done|apply Hframe; [done|cbn; lia]|].
  intros Hh2. pose proof (cloneBytes_ok (b v) h2) as Hc.
  assert (bytes_at h2 (b v) = bytes_at (heap w1) s) as Hb.
  { destruct Hh2 as [h' ->]. rewrite <- Hstr. unfold ByteView_String, bytes_at.
    rewrite lookup_app_l by (cbn; lia). done. }
  unfold Byteslice. destruct (cloneBytes (b v) h2) as [out h3].
  destruct Hc as (Hbo & Hpo & _ & Hp3 & _); [split; [done|]; rewrite Hb, <- Hstr; apply Hv2|].
  split; [congruence|]. apply Hframe; [by etrans|]. rewrite Hpo.
  pose proof (prefix_length _ _ Hh2). cbn in *. lia.
Qed.
End proofs.

(** ** Concrete instances *)

Lemma Get_returns_witness :
  ∃ v e g' w', Get "Sam" scores tom_world = Ret (v, e, g', w') ∧ group_ok g' ∧ same_group scores g'.
Proof.
  apply (Get_returns scores "Sam" tom_world).
  - apply NewGroup_ok. lia.
  - intros pick H. discriminate H.
Defined.

Lemma Get_loads_and_caches_witness :
  ∃ v g' w', Get "Tom" scores tom_world = Ret (v, None, g', w') ∧
    ByteView_String v (heap w') = [54; 51; 48] ∧
    ∀ w3, ∃ g'', Get "Tom" g' w3 = Ret (v, None, g'', w3).
Proof.
  destruct (Get_loads_and_caches scores "Tom" tom_world tom_world (Slice 0 3) tom_world)
    as (v & g' & w' & H & Hs & _ & _ & Hr).
  - apply NewGroup_ok. lia.
  - discriminate.
  - reflexivity.
  - by apply ask_no_peers.
  - reflexivity.
  - split; vm_compute; congruence.
  - exists v, g', w'. split; [exact H|]. split; [exact Hs|]. apply Hr.
    vm_compute in H. injection H as <- _ _. split; [|split; [|right]]; vm_compute; try congruence.
    repeat constructor; vm_compute; congruence.
Defined.

Lemma Get_error_not_cached_witness :
  ∃ g', Get "Sam" scores tom_world = Ret (zero_view, Some "Sam not exist"%string, g', tom_world) ∧
    cached (mainCache g') = [] ∧ group_ok g'.
Proof.
  apply (Get_error_not_cached scores "Sam" tom_world tom_world nil_slice).
  - apply NewGroup_ok. lia.
  - discriminate.
  - reflexivity.
  - by apply ask_no_peers.
  - reflexivity.
Defined.

Lemma Get_from_peer_witness :
  let peer : PeerGetter unit := λ _ _ w, (None, Slice 0 3, w) in
  let g := mkGroup "scores" tom_db (mkCache None 2048) (Some (λ _, Ret (Some peer)))
             (SingleFlight.init []) in
  ∃ g', Get "Tom" g tom_world = Ret (mkView (Slice 0 3), None, g', tom_world) ∧
    cached (mainCache g') = [] ∧ group_ok g'.
Proof.
  intros peer g.
  apply (Get_from_peer g "Tom" tom_world (λ _, Ret (Some peer)) peer); try reflexivity.
  - split; [apply (NewGroup_ok "scores" 2048 tom_db); lia|reflexivity].
  - discriminate.
Defined.

Lemma cached_bytes_isolated_witness :
  ∃ v c' w', getLocally tom_db "Tom" (mkCache None 2048) tom_world = Ret (v, None, (c', w')) ∧
    ByteView_String v (heap_write 0 [0; 0; 0] (heap w')) = [54; 51; 48].
Proof.
  destruct (cached_bytes_isolated tom_db "Tom" (mkCache None 2048) tom_world (Slice 0 3) tom_world
              [0; 0; 0] []) as (v & c' & w' & H & Hv & _).
  - apply (NewGroup_ok "scores" 2048 tom_db). lia.
  - reflexivity.
  - split; vm_compute; congruence.
  - cbn. lia.
  - exists v, c', w'. split; [exact H|exact Hv].
Defined.
