(* ===== verification/GroupRun.v ===== *)
(** * geecache: a group under concurrent requests

    Models any number of goroutines that call [Group.Get] of
    [src/geecache/geecatche.go] at the same time, as a transition system on top
    of that of [SingleFlight.v].  A step is a critical section of the cache's
    mutex or of the loader's, one call of the getter or of another node, one
    copy of bytes, or one wait-group operation.  Between the steps, whoever
    else holds byte slices may write to them and the world outside may change;
    only the bytes that belong to the cache's own views, and a slice the getter
    has just returned, are left alone.  (A getter that panics is the subject of
    [SingleFlight.panic_blocks_key].) *)

From S2P Require Import Prelude Lru SingleFlight GeeCache.

Section GroupRun.
Context {E : Type}.

(** ** State *)

(** Inside the function that [load] passes to [Do]: about to pick a peer, to ask
    it, to call the getter, to copy what it returned, to populate the cache, or
    to return. *)
Inductive fpc :=
  | FPick | FPeer (peer : PeerGetter E) | FGetter | FClone (s : slice) | FAdd (v : ByteView)
  | FRet (v : ByteView) (e : error).

(** About to look into the cache, inside [Do], inside the function, or back. *)
Inductive tpc := TCache | TDo | TFn (p : fpc) | TRet (v : ByteView) (e : error).

(** The goroutines of [tpcs] are those of the loader of [grp].  Ghost state: the
    buffers of the views that were made, and the steps of the loader. *)
Record gsys := mkSys {
  grp : Group E; world : World E; tpcs : list tpc;
  owned : list nat; flights : list (nat * SingleFlight.action ByteView) }.

(** A step of the goroutine [t], which is determined by where it is, or a change
    of the world by others. *)
Inductive gaction := Step (t : nat) | Outside (w : World E).

Definition set_tpc (t : nat) (p : tpc) (s : gsys) : gsys :=
  mkSys (grp s) (world s) (<[t := p]> (tpcs s)) (owned s) (flights s).
Definition set_world (w : World E) (s : gsys) : gsys :=
  mkSys (grp s) w (tpcs s) (owned s) (flights s).
Definition set_cache (c : cache) (s : gsys) : gsys :=
  mkSys (set_state (grp s) c (loader (grp s))) (world s) (tpcs s) (owned s) (flights s).
Definition own (p : nat) (s : gsys) : gsys :=
  mkSys (grp s) (world s) (tpcs s) (p :: owned s) (flights s).

(** [load] behind [Do]; a nil view without an error would be a failed type
    assertion. *)
Definition unpack (v : option ByteView) (e : error) : tpc :=
  match e, v with
  | None, Some v => TRet v None
  | None, None => TDo
  | Some e, _ => TRet zero_view (Some e)
  end.

(** Where a goroutine of the loader is in [Get]. *)
Definition resume (p : SingleFlight.pc ByteView) : tpc :=
  match p with
  | PRun _ => TFn FPick
  | PRet v e => unpack v e
  | _ => TDo
  end.

(** A step of [Do]. *)
Definition flight (t : nat) (a : SingleFlight.action ByteView) (s : gsys) : option gsys :=
  l ← SingleFlight.step t a (loader (grp s));
  '(_, p) ← ths l !! t;
  Some (set_tpc t (resume p)
    (mkSys (set_state (grp s) (mainCache (grp s)) l) (world s) (tpcs s) (owned s) (flights s ++ [(t, a)]))).

Definition fn_step (t : nat) (key : string) (p : fpc) (s : gsys) : option gsys :=
  match p with
  | FPick =>
      match peers (grp s) with
      | None => Some (set_tpc t (TFn FGetter) s)
      | Some pick =>
          match pick key with
          | Ret (Some peer) => Some (set_tpc t (TFn (FPeer peer)) s)
          | Ret None => Some (set_tpc t (TFn FGetter) s)
          | _ => None
          end
      end
  | FPeer peer =>
      let '(v, err, w) := getFromPeer (name (grp s)) peer key (world s) in
      match err with
      | None => Some (set_tpc t (TFn (FRet v None)) (own (ptr (b v)) (set_world w s)))
      | Some _ => Some (set_tpc t (TFn FGetter) (set_world w s))
      end
  | FGetter =>
      let '(bytes, err, w) := getter (grp s) key (world s) in
      match err with
      | None => Some (set_tpc t (TFn (FClone bytes)) (set_world w s))
      | Some e => Some (set_tpc t (TFn (FRet zero_view (Some e))) (set_world w s))
      end
  | FClone bytes =>
      let '(c, h) := cloneBytes bytes (heap (world s)) in
      Some (set_tpc t (TFn (FAdd (mkView c))) (own (ptr c) (set_world (mkWorld h (env (world s))) s)))
  | FAdd v =>
      match populateCache key v (mainCache (grp s)) with
      | Ret c => Some (set_tpc t (TFn (FRet v None)) (set_cache c s))
      | _ => None
      end
  | FRet v e => flight t (RunOk v e) s
  end.

(** Where a goroutine is in [Do], its next step there. *)
Definition do_step (t : nat) (p : SingleFlight.pc ByteView) (s : gsys) : option gsys :=
  match p with
  | PStart => flight t Enter s
  | PWait _ => flight t Wake s
  | PRan _ => flight t Done s
  | PDelete _ => flight t Delete s
  | _ => None
  end.

(** Not written to by others: the buffers of views, and a slice on its way from
    the getter to [cloneBytes]. *)
Definition protected (s : gsys) : list nat :=
  owned s ++ omap (λ p, match p with TFn (FClone sl) => Some (ptr sl) | _ => None end) (tpcs s).

(** A change by others keeps the buffers there are, and the protected bytes. *)
Definition allowed (s : gsys) (w : World E) : bool :=
  bool_decide (length (heap (world s)) ≤ length (heap w))%nat &&
  forallb (λ p, bool_decide (heap w !! p = heap (world s) !! p)) (protected s).

Definition gstep (a : gaction) (s : gsys) : option gsys :=
  match a with
  | Outside w => if allowed s w then Some (set_world w s) else None
  | Step t =>
      p ← tpcs s !! t;
      '(key, q) ← ths (loader (grp s)) !! t;
      match p with
      | TCache =>
          if bool_decide (key = ""%string) then
            Some (set_tpc t (TRet zero_view (Some "key is required"%string)) s)
          else match cache_get key (mainCache (grp s)) with
               | Ret (Some v, c) => Some (set_tpc t (TRet v None) (set_cache c s))
               | Ret (None, c) => Some (set_tpc t TDo (set_cache c s))
               | _ => None
               end
      | TDo => do_step t q s
      | TFn f => fn_step t key f s
      | TRet _ _ => None
      end
  end.

Fixpoint grun (tr : list gaction) (s : gsys) : option gsys :=
  match tr with
  | [] => Some s
  | a :: tr => s' ← gstep a s; grun tr s'
  end.

(** Goroutines about to call [Get] with the keys [ks] on a group with a cache. *)
Definition start (g : Group E) (ks : list string) (own : list nat) (w : World E) : gsys :=
  mkSys (set_state g (mainCache g) (SingleFlight.init ks)) w (replicate (length ks) TCache) own [].

(** A new goroutine about to call [Get]. *)
Definition arrive (key : string) (s : gsys) : gsys :=
  mkSys (set_state (grp s) (mainCache (grp s)) (SingleFlight.spawn key (loader (grp s)))) (world s)
    (tpcs s ++ [TCache]) (owned s) (flights s).
End GroupRun.
Arguments fpc : clear implicits.
Arguments tpc : clear implicits.
Arguments gsys : clear implicits.
Arguments gaction : clear implicits.

(** ** Specification *)

Section Spec.
Context {E : Type} (g0 : Group E) (ks : list string).
(** What the data source may answer for a key. *)
Context (answers : string → list Z + string → Prop).

(** The getter only adds to the heap, and gives an answer for the key. *)
Definition getter_ok : Prop := ∀ key w s e w', getter g0 key w = (s, e, w') →
  heap w `prefix_of` heap w' ∧
  match e with
  | None => answers key (inl (bytes_at (heap w') s)) ∧ slice_ok (heap w') s
  | Some x => answers key (inr x)
  end.

(** Another node only adds to the heap; when it does not fail, it gives an
    answer for the key. *)
Definition peers_ok : Prop := ∀ pick key, peers g0 = Some pick → ∃ o, pick key = Ret o ∧
  ∀ peer w e s w', o = Some peer → peer (name g0) key w = (e, s, w') →
    heap w `prefix_of` heap w' ∧
    (e = None → answers key (inl (bytes_at (heap w') s)) ∧ slice_ok (heap w') s).

(** A view of an answer for the key, which nobody else writes to. *)
Definition view_ok (s : gsys E) (key : string) (v : ByteView) : Prop :=
  answers key (inl (ByteView_String v (heap (world s)))) ∧ slice_ok (heap (world s)) (b v) ∧
  ptr (b v) ∈ owned s.

Definition fn_ok (s : gsys E) (key : string) (v : ByteView) (e : error) : Prop :=
  match e with None => view_ok s key v | Some x => answers key (inr x) end.

Definition result_ok (s : gsys E) (key : string) (v : ByteView) (e : error) : Prop :=
  if bool_decide (key = "") then e = Some "key is required"%string else fn_ok s key v e.

Definition fpc_ok (s : gsys E) (key : string) (p : fpc E) : Prop :=
  match p with
  | FPick | FGetter => True
  | FPeer peer => ∃ pick, peers g0 = Some pick ∧ pick key = Ret (Some peer)
  | FClone sl => answers key (inl (bytes_at (heap (world s)) sl)) ∧ slice_ok (heap (world s)) sl
  | FAdd v => view_ok s key v
  | FRet v e => fn_ok s key v e
  end.

(** Where a goroutine is, and where it is in the loader. *)
Definition tpc_ok (s : gsys E) (key : string) (p : tpc E) (q : SingleFlight.pc ByteView) : Prop :=
  match p, q with
  | TCache, PStart => True
  | TDo, (PStart | PWait _ | PRan _ | PDelete _) => key ≠ ""
  | TFn f, PRun _ => key ≠ "" ∧ fpc_ok s key f
  | TRet v e, (PStart | PRet _ _) => result_ok s key v e
  | _, _ => False
  end.

Record ginv (s : gsys E) : Prop := {
  gi_run : SingleFlight.run (flights s) (SingleFlight.init ks) = Some (loader (grp s));
  gi_len : length (tpcs s) = length (ths (loader (grp s)));
  gi_tpc : ∀ t p key q, tpcs s !! t = Some p → ths (loader (grp s)) !! t = Some (key, q) → tpc_ok s key p q;
  gi_cache : cache_ok (mainCache (grp s));
  gi_cached : Forall (λ kv, view_ok s kv.1 kv.2) (cached (mainCache (grp s)));
  gi_flights : ∀ t x e key q, (t, RunOk x e) ∈ flights s →
    ths (loader (grp s)) !! t = Some (key, q) → fn_ok s key x e;
  gi_group : same_group g0 (grp s);
}.

(** The steps a goroutine can still take. *)
Definition gweight (x : tpc E * SingleFlight.pc ByteView) : nat :=
  match x with
  | (TCache, _) => 10
  | (TDo, PStart) => 9
  | (TFn FPick, _) => 8 | (TFn (FPeer _), _) => 7 | (TFn FGetter, _) => 6 | (TFn (FClone _), _) => 5
  | (TFn (FAdd _), _) => 4 | (TFn (FRet _ _), _) => 3
  | (TDo, PRan _) => 2
  | (TDo, (PDelete _ | PWait _)) => 1
  | _ => 0
  end.

Definition gmeasure (s : gsys E) : nat := sum_list_with gweight (zip (tpcs s) (ths (loader (grp s))).*2).

Definition is_step (a : gaction E) : bool := match a with Step _ => true | Outside _ => false end.

(** ** Bytes that nobody else writes to *)

Lemma bytes_keep h h' sl : slice_ok h sl →
  ((ptr sl < length h)%nat → h' !! ptr sl = h !! ptr sl) →
  bytes_at h' sl = bytes_at h sl ∧ slice_ok h' sl.
Proof using.
  intros Hok Hk. pose proof Hok as [Hs Hl].
  assert (bytes_at h' sl = bytes_at h sl) as Hb.
  { destruct (decide (ptr sl < length h)%nat) as [Hlt|Hge].
    - unfold bytes_at. by rewrite Hk.
    - unfold bytes_at in Hl. rewrite (lookup_ge_None_2 h) in Hl by lia. cbn [default] in Hl.
      rewrite take_nil in Hl. unfold bytes_at. by rewrite <- Hl. }
  split; [done|]. split; [done|]. by rewrite Hb.
Qed.

(** The next heap has the protected bytes of this one. *)
Definition kept (s : gsys E) (w : World E) : Prop :=
  ∀ p, p ∈ protected s → (p < length (heap (world s)))%nat → heap w !! p = heap (world s) !! p.

Lemma prefix_kept s w : heap (world s) `prefix_of` heap w → kept s w.
Proof using. intros [h Hh] p _ Hp. by rewrite Hh, lookup_app_l. Qed.

Lemma allowed_kept s w : allowed s w = true → kept s w.
Proof using.
  intros [_ H]%andb_true_iff p Hp _. rewrite forallb_forall in H. apply list_elem_of_In, H in Hp.
  by apply bool_decide_eq_true in Hp.
Qed.

(** Facts about views hold on, with more buffers owned and others' writes. *)
Definition grows (s s' : gsys E) : Prop := owned s ⊆ owned s' ∧ kept s (world s').

Lemma view_grows s s' key v : grows s s' → view_ok s key v → view_ok s' key v.
Proof using.
  intros [Ho Hk] (Ha & Hs & Hp). destruct (bytes_keep _ (heap (world s')) _ Hs) as [Hb Hs'].
  { intros Hlt. apply Hk; [|done]. apply elem_of_app. by left. }
  split_and!; [|done|by apply Ho]. unfold ByteView_String. by rewrite Hb.
Qed.

Lemma fn_grows s s' key v e : grows s s' → fn_ok s key v e → fn_ok s' key v e.
Proof using. intros Hg. destruct e; [done|]. by apply view_grows. Qed.

Lemma tpc_grows s s' t key p q : grows s s' → tpcs s !! t = Some p → tpc_ok s key p q → tpc_ok s' key p q.
Proof using.
  intros Hg Ht. destruct p as [| |[| | |sl|v|v e]|v e], q; try done; cbn.
  - intros (Hk & Ha & Hs). split; [done|]. destruct (bytes_keep _ (heap (world s')) _ Hs) as [-> Hs']; [|done].
    intros Hlt. apply Hg; [|done]. apply elem_of_app. right. apply list_elem_of_omap.
    exists (TFn (FClone sl)). split; [by eapply list_elem_of_lookup_2|done].
  - intros [Hk Hv]. split; [done|]. by eapply view_grows.
  - intros [Hk Hv]. split; [done|]. by eapply fn_grows.
  - unfold result_ok. case_bool_decide; [done|]. by apply fn_grows.
  - unfold result_ok. case_bool_decide; [done|]. by apply fn_grows.
Qed.

(** ** Steps *)

Lemma set_tpc_lookup (s : gsys E) t p u : is_Some (tpcs s !! t) →
  <[t := p]> (tpcs s) !! u = if decide (t = u) then Some p else tpcs s !! u.
Proof using. intros [x Hx]. exact (lookup_set _ _ _ _ _ Hx). Qed.

(** A goroutine moves outside the loader. *)
Lemma ginv_local s s' t p p' : ginv s → tpcs s !! t = Some p → tpcs s' = <[t := p']> (tpcs s) →
  flights s' = flights s → loader (grp s') = loader (grp s) → same_group (grp s) (grp s') → grows s s' →
  cache_ok (mainCache (grp s')) →
  Forall (λ kv, view_ok s' kv.1 kv.2) (cached (mainCache (grp s'))) →
  (∀ key q, ths (loader (grp s)) !! t = Some (key, q) → tpc_ok s key p q → tpc_ok s' key p' q) →
  ginv s'.
Proof using.
  intros [Hrun Hlen Htpc Hc Hcd Hfl Hgr] Ht Htp Hf Hl Hsame Hg Hc' Hcd' Hnew. split; rewrite ?Hf, ?Hl; try done.
  - by rewrite Htp, length_insert.
  - intros u x key q Hu Hq. rewrite Htp, set_tpc_lookup in Hu by (by eexists). case_decide; [subst|].
    + simplify_eq. apply (Hnew key q); [done|]. by eapply Htpc.
    + eapply tpc_grows; [done|done|]. by eapply Htpc.
  - intros u x e key q Hin Hq. eapply fn_grows; [done|]. by eapply Hfl.
  - destruct Hgr as (H1 & H2 & H3), Hsame as (H4 & H5 & H6). split_and!; congruence.
Qed.

Lemma grows_same s s' : owned s' = owned s → world s' = world s → grows s s'.
Proof using. intros Ho Hw. split; [by rewrite Ho|]. intros p _ _. by rewrite Hw. Qed.

Lemma cached_grows s s' c : grows s s' → Forall (λ kv, view_ok s kv.1 kv.2) c →
  Forall (λ kv, view_ok s' kv.1 kv.2) c.
Proof using. intros Hg H. eapply Forall_impl; [exact H|]. intros kv. by apply view_grows. Qed.

Lemma ginv_world s w : ginv s → kept s w → ginv (set_world w s).
Proof using.
  intros [Hrun Hlen Htpc Hc Hcd Hfl Hgr] Ha. assert (grows s (set_world w s)) as Hg by done.
  split; try done.
  - intros t p key q Ht Hq. eapply tpc_grows; [exact Hg|done|]. by eapply Htpc.
  - by apply (cached_grows s).
  - intros t x e key q Hin Hq. eapply fn_grows; [exact Hg|]. by eapply Hfl.
Qed.

(** A goroutine moves inside the loader. *)
Lemma ginv_flight s s' t a key p q : ginv s → tpcs s !! t = Some p →
  ths (loader (grp s)) !! t = Some (key, q) → key ≠ "" → flight t a s = Some s' → a ≠ RunPanic →
  (∀ v e, a = RunOk v e → fn_ok s key v e) → ginv s'.
Proof using.
  intros [Hrun Hlen Htpc Hc Hcd Hfl Hgr] Ht Hq Hkey H Ha Hok. unfold flight in H.
  destruct (SingleFlight.step t a (loader (grp s))) as [l|] eqn:Hst; [|done]. cbn in H.
  destruct (step_next _ _ _ _ Hst) as (k' & q0 & q' & Hq0 & Hths & Hn). simplify_eq.
  assert (ths l !! t = Some (key, q')) as Hqt by (rewrite Hths; by rewrite (lookup_set _ _ _ _ _ Hq), decide_True).
  rewrite Hqt in H. cbn in H. simplify_eq.
  assert (SingleFlight.run (flights s ++ [(t, a)]) (init ks) = Some l) as Hrun'.
  { rewrite run_app, Hrun. cbn. by rewrite Hst. }
  set (s' := set_tpc _ _ _). assert (grows s s') as Hg by (by apply grows_same).
  assert (∀ u x e k r, (u, RunOk x e) ∈ flights s ++ [(t, a)] → ths l !! u = Some (k, r) → fn_ok s k x e) as Hfl'.
  { intros u x e k r Hin Hu. rewrite Hths, (lookup_set _ _ _ _ _ Hq) in Hu.
    apply elem_of_app in Hin as [Hin|[=]%list_elem_of_singleton]; [|subst; rewrite decide_True in Hu by done].
    - case_decide; [subst; simplify_eq|]; by eapply Hfl.
    - simplify_eq. by apply Hok. }
  split; try done.
  - cbn. by rewrite length_insert, Hths, length_insert.
  - intros u x k r Hu Hr. cbn in Hu. rewrite set_tpc_lookup in Hu by (by eexists). cbn in Hr. case_decide as Hut.
    + subst. rewrite Hqt in Hr. simplify_eq.
      assert (∀ v e, r = PRet v e → tpc_ok s' k (unpack v e) r) as Hret.
      { intros v e ->. destruct (run_init _ _ _ Hrun') as [Hi Hres].
        destruct (returned_ran _ _ u k v e Hi Hres Hqt) as (u' & y & r' & -> & Hin & Hu').
        specialize (Hfl' _ _ _ _ _ Hin Hu'). destruct e; cbn; unfold result_ok;
          (rewrite bool_decide_eq_false_2 by done); [done|]. by eapply fn_grows. }
      destruct q, a; cbn in Hn; try done.
      * destruct Hn as (c & [->| ->]); by cbn.
      * destruct Hn as (v & e & ->). by apply Hret.
      * by subst r.
      * by subst r.
      * destruct Hn as (v & e & ->). by apply Hret.
    + eapply tpc_grows; [exact Hg|done|]. rewrite Hths, (lookup_set _ _ _ _ _ Hq), decide_False in Hr by done. by eapply Htpc.
Qed.

Context (Hgetter : getter_ok) (Hpeers : peers_ok).

Lemma cached_get s key v c : cache_ok (mainCache (grp s)) → cache_get key (mainCache (grp s)) = Ret (v, c) →
  Forall (λ kv, view_ok s kv.1 kv.2) (cached (mainCache (grp s))) →
  cache_ok c ∧ Forall (λ kv, view_ok s kv.1 kv.2) (cached c) ∧ ∀ x, v = Some x → view_ok s key x.
Proof using.
  intros Hc Hget Hcd. destruct (cache_get_ok key _ Hc) as (c' & Hget' & Hc' & Hcc & _).
  rewrite Hget in Hget'. simplify_eq.
  rewrite Forall_forall in Hcd. split_and!; [done| |].
  - rewrite Hcc. apply Forall_forall. intros kv Hkv%Lru.abs_get_subseteq. by apply Hcd.
  - intros x Hx%Lru.abs_find_elem. by apply (Hcd (key, x)).
Qed.

(** A goroutine moves inside the function, and leaves the group as it is. *)
Lemma fn_move s s2 t key f c p' : ginv s → tpcs s !! t = Some (TFn f) →
  ths (loader (grp s)) !! t = Some (key, PRun c) → tpcs s2 = tpcs s → flights s2 = flights s → grp s2 = grp s →
  grows s s2 → (∀ q, tpc_ok (set_tpc t p' s2) key p' (PRun q)) → ginv (set_tpc t p' s2).
Proof using.
  intros Hi Ht Hq H1 H2 H3 Hgr Hok. pose proof Hi as [_ _ _ Hc Hcd _ _].
  eapply (ginv_local s _ t (TFn f) p'); cbn; try done; rewrite ?H1, ?H3; try done.
  - by eapply cached_grows.
  - intros k r Hk _. simplify_eq. apply Hok.
Qed.

(** A request to another node comes back with an error, or with an answer. *)
Lemma peer_inv s s' t key p0 peer c e sl w : ginv s → tpcs s !! t = Some (TFn (FPeer p0)) →
  ths (loader (grp s)) !! t = Some (key, PRun c) → key ≠ "" →
  peer (name g0) key (world s) = (e, sl, w) → heap (world s) `prefix_of` heap w →
  (e = None → answers key (inl (bytes_at (heap w) sl)) ∧ slice_ok (heap w) sl) →
  fn_step t key (FPeer peer) s = Some s' → ginv s'.
Proof using.
  intros Hi Ht Hq Hkey Hcall Hpre Hans H. pose proof Hi as [_ _ _ _ _ _ (Hn & _)].
  cbn [fn_step] in H. unfold getFromPeer in H. rewrite Hn, Hcall in H.
  destruct e as [e|]; simplify_eq; eapply fn_move; try done.
  - split; [done|by apply prefix_kept].
  - split; [intros x Hx; by right|by apply prefix_kept].
  - intros q. destruct (Hans eq_refl) as [Ha Hs]. cbn. split; [done|]. split_and!; [done|done|by left].
Qed.

Lemma fn_step_inv s s' t key f c : ginv s → tpcs s !! t = Some (TFn f) →
  ths (loader (grp s)) !! t = Some (key, PRun c) → key ≠ "" → fpc_ok s key f →
  fn_step t key f s = Some s' → ginv s'.
Proof using Hgetter Hpeers.
  intros Hi Ht Hq Hkey Hf H. pose proof Hi as [_ _ _ Hc Hcd _ (Hn & Hg & Hp)].
  pose proof (λ s2 p', fn_move s s2 t key f c p' Hi Ht Hq) as Hmove.
  destruct f as [|peer| |sl|v|v e]; cbn [fn_step] in H.
  - destruct (peers (grp s)) as [pick|] eqn:Hpk.
    + destruct (pick key) as [[peer|]| |] eqn:Hpick; simplify_eq; apply Hmove; try done; try by apply grows_same.
      intros q. cbn. split; [done|]. exists pick. by rewrite <- Hp.
    + simplify_eq. by apply Hmove.
  - destruct Hf as (pick & Hpk & Hpick). destruct (Hpeers pick key Hpk) as (o & Ho & Hpeer).
    rewrite Hpick in Ho. simplify_eq. destruct (peer (name g0) key (world s)) as [[e sl] w] eqn:Hcall.
    destruct (Hpeer peer (world s) e sl w eq_refl Hcall). by eapply peer_inv.
  - destruct (getter (grp s) key (world s)) as [[sl e] w] eqn:Hcall. rewrite Hg in Hcall.
    destruct (Hgetter _ _ _ _ _ Hcall) as [Hpre Hans].
    destruct e as [e|]; simplify_eq; apply Hmove; try done; by (split; [done|by apply prefix_kept]).
  - destruct Hf as [Ha Hs]. pose proof (cloneBytes_ok sl (heap (world s)) Hs) as Hcl.
    destruct (cloneBytes sl (heap (world s))) as [sl' h] eqn:Hclone. destruct Hcl as (Hb & _ & _ & Hpre & Hs').
    simplify_eq. apply Hmove; try done.
    + split; [intros x Hx; by right|by apply prefix_kept].
    + intros q. cbn. split; [done|]. split_and!; [|done|by left]. unfold ByteView_String. cbn. by rewrite Hb.
  - unfold populateCache in H. destruct (cache_add_ok key v _ Hc) as (c' & Hadd & Hc' & _ & _ & Hsub).
    rewrite Hadd in H. simplify_eq. eapply (ginv_local s _ t (TFn (FAdd v))); cbn; try done.
    apply Forall_forall. intros kv Hkv%Hsub. apply elem_of_cons in Hkv as [->|Hkv]; [done|].
    rewrite Forall_forall in Hcd. by apply Hcd.
  - eapply (ginv_flight s s' t (RunOk v e)); try done. intros v' e' [= <- <-]. done.
Qed.

Lemma gstep_inv a s s' : ginv s → gstep a s = Some s' → ginv s'.
Proof using Hgetter Hpeers.
  intros Hi H. destruct a as [t|w]; cbn in H.
  2: { destruct (allowed s w) eqn:Ha; simplify_eq. by apply ginv_world, allowed_kept. }
  destruct (tpcs s !! t) as [p|] eqn:Ht; [|done]. cbn in H.
  destruct (ths (loader (grp s)) !! t) as [[key q]|] eqn:Hq; [|done]. cbn in H.
  pose proof (gi_tpc _ Hi _ _ _ _ Ht Hq) as Hok. pose proof Hi as [_ _ _ Hc Hcd _ _].
  destruct p as [| |f|v e]; [| | |done].
  - case_bool_decide as Hk; [simplify_eq|].
    + eapply (ginv_local s _ t TCache); try done.
      intros k r Hr Hpc. destruct r; try done. by simplify_eq.
    + destruct (cache_get key (mainCache (grp s))) as [[v c]| |] eqn:Hget; [|by destruct s|by destruct s].
      destruct (cached_get s key v c Hc Hget Hcd) as (Hc' & Hcd' & Hv).
      destruct v as [v|]; simplify_eq; (eapply (ginv_local s _ t TCache); try done);
        intros k r Hr Hpc; (destruct r; try done); simplify_eq; cbn; try done.
      unfold result_ok. rewrite bool_decide_eq_false_2 by done. by apply Hv.
  - assert (key ≠ "") as Hkey by (by destruct q). destruct q; cbn in Hok, H; try done;
      by eapply (ginv_flight s s' t _ key TDo).
  - destruct q as [| |c| | | |]; cbn in Hok; try done. destruct Hok as [Hkey Hf]. by eapply fn_step_inv.
Qed.

Lemma grun_inv tr s s' : ginv s → grun tr s = Some s' → ginv s'.
Proof using Hgetter Hpeers.
  revert s. induction tr as [|a tr IH]; intros s Hi H; cbn in H; [by simplify_eq|].
  destruct (gstep a s) as [s1|] eqn:Hst; [|done]. eapply IH; [|done]. by eapply gstep_inv.
Qed.

(** ** Every step brings a goroutine forward *)

Lemma zip_set (s s' : gsys E) t p p' key q q' : tpcs s !! t = Some p →
  ths (loader (grp s)) !! t = Some (key, q) → tpcs s' = <[t := p']> (tpcs s) →
  ths (loader (grp s')) = <[t := (key, q')]> (ths (loader (grp s))) →
  (gweight (p', q') < gweight (p, q))%nat → (gmeasure s' < gmeasure s)%nat.
Proof using.
  intros Ht Hq Htp Hths Hw. unfold gmeasure. rewrite Htp, Hths, list_fmap_insert. cbn [snd].
  rewrite <- (insert_zip_with pair).
  pose proof (sum_list_with_set gweight (zip (tpcs s) (ths (loader (grp s))).*2) t (p, q) (p', q')) as H.
  rewrite lookup_zip_with, Ht, list_lookup_fmap, Hq in H. specialize (H eq_refl). lia.
Qed.

Lemma local_measure (s s' : gsys E) t p p' key q : tpcs s !! t = Some p →
  ths (loader (grp s)) !! t = Some (key, q) → tpcs s' = <[t := p']> (tpcs s) →
  loader (grp s') = loader (grp s) → (gweight (p', q) < gweight (p, q))%nat → (gmeasure s' < gmeasure s)%nat.
Proof using.
  intros Ht Hq Htp Hl. eapply zip_set; [done..|]. rewrite Hl. by rewrite list_insert_id.
Qed.

Lemma flight_measure (s s' : gsys E) t a p key q : tpcs s !! t = Some p →
  ths (loader (grp s)) !! t = Some (key, q) → flight t a s = Some s' → a ≠ RunPanic →
  p = match a with RunOk v e => TFn (FRet v e) | _ => TDo end → (gmeasure s' < gmeasure s)%nat.
Proof using.
  intros Ht Hq H Ha Hp. unfold flight in H.
  destruct (SingleFlight.step t a (loader (grp s))) as [l|] eqn:Hst; [|done]. cbn in H.
  destruct (step_next _ _ _ _ Hst) as (k' & q0 & q' & Hq0 & Hths & Hn). rewrite Hq in Hq0. simplify_eq.
  assert (ths l !! t = Some (k', q')) as Hqt by (rewrite Hths; by rewrite (lookup_set _ _ _ _ _ Hq), decide_True).
  rewrite Hqt in H. cbn in H. simplify_eq. eapply zip_set; [done|done|done|cbn; exact Hths|].
  assert (∀ v e, gweight (resume (E := E) (PRet v e), PRet v e) = 0%nat) as Hret by (intros [v|] [e|]; done).
  destruct q0, a; try done; cbn in Hn.
  - destruct Hn as (c & [->| ->]); cbn; lia.
  - destruct Hn as (v & e & ->). rewrite Hret. cbn. lia.
  - subst. cbn. lia.
  - subst. cbn. lia.
  - destruct Hn as (v & e & ->). rewrite Hret. cbn. lia.
Qed.

Lemma peer_measure (s s' : gsys E) t key p0 peer q : tpcs s !! t = Some (TFn (FPeer p0)) →
  ths (loader (grp s)) !! t = Some (key, q) → fn_step t key (FPeer peer) s = Some s' → (gmeasure s' < gmeasure s)%nat.
Proof using.
  intros Ht Hq H. cbn [fn_step] in H. destruct (getFromPeer _ _ _ _) as [[v [e|]] w];
    injection H as <-; (eapply local_measure; [done|done|reflexivity|done|]); cbn; lia.
Qed.

Lemma gstep_measure a s s' : ginv s → gstep a s = Some s' →
  (gmeasure s' + (if is_step a then 1 else 0) ≤ gmeasure s)%nat.
Proof using.
  intros Hi H. destruct a as [t|w]; cbn in H |- *.
  2: { destruct (allowed s w); simplify_eq. unfold gmeasure. cbn. lia. }
  destruct (tpcs s !! t) as [p|] eqn:Ht; [|done]. cbn in H.
  destruct (ths (loader (grp s)) !! t) as [[key q]|] eqn:Hq; [|done]. cbn in H.
  pose proof (gi_tpc _ Hi _ _ _ _ Ht Hq) as Hok. enough (gmeasure s' < gmeasure s)%nat by lia.
  destruct p as [| |f|v e]; [| | |done].
  - case_bool_decide; [|destruct (cache_get key (mainCache (grp s))) as [[[v|] c]| |]; try done];
      injection H as <-; (eapply local_measure; [done|done|reflexivity|done|]); destruct q; try done; cbn; lia.
  - destruct q; cbn in Hok, H; try done; by eapply flight_measure.
  - destruct q as [| |c| | | |]; cbn in Hok; try done.
    destruct f as [|peer| |sl|v|v e]; cbn [fn_step] in H.
    + destruct (peers (grp s)) as [pick|]; [destruct (pick key) as [[peer|]| |]; try done|];
        injection H as <-; (eapply local_measure; [done|done|reflexivity|done|]); cbn; lia.
    + by eapply peer_measure.
    + destruct (getter _ _ _) as [[v [e|]] w];
        injection H as <-; (eapply local_measure; [done|done|reflexivity|done|]); cbn; lia.
    + destruct (cloneBytes _ _) as [c' h].
      injection H as <-; (eapply local_measure; [done|done|reflexivity|done|]); cbn; lia.
    + destruct (populateCache _ _ _) as [c'| |]; try done.
      injection H as <-; (eapply local_measure; [done|done|reflexivity|done|]); cbn; lia.
    + by eapply flight_measure.
Qed.

Lemma grun_measure tr s s' : ginv s → grun tr s = Some s' →
  (length (filter is_step tr) + gmeasure s' ≤ gmeasure s)%nat.
Proof using Hgetter Hpeers.
  revert s. induction tr as [|a tr IH]; intros s Hi H; cbn in H; [simplify_eq/=; lia|].
  destruct (gstep a s) as [s1|] eqn:Hst; [|done]. pose proof (gstep_measure _ _ _ Hi Hst) as Hm.
  specialize (IH s1 (gstep_inv _ _ _ Hi Hst) H).
  rewrite filter_cons. destruct (is_step a); case_decide; cbn in *; try done; lia.
Qed.

(** ** Progress *)

Lemma flight_enabled (s : gsys E) t a l : SingleFlight.step t a (loader (grp s)) = Some l → ∃ s', flight t a s = Some s'.
Proof using.
  intros Hst. destruct (step_next _ _ _ _ Hst) as (k & q & q' & Hq & Hths & _). unfold flight.
  rewrite Hst. cbn. rewrite Hths, (lookup_set _ _ _ _ _ Hq), decide_True by done. cbn. by eexists.
Qed.

(** Only a goroutine that waits for another one may be unable to go on. *)
Lemma gstep_enabled (s : gsys E) t p key q : ginv s → tpcs s !! t = Some p → ths (loader (grp s)) !! t = Some (key, q) →
  (∀ v e, p ≠ TRet v e) → (∀ c, q ≠ PWait c) → ∃ s', gstep (Step t) s = Some s'.
Proof using Hpeers.
  intros Hi Ht Hq Hp Hw. pose proof (gi_tpc _ Hi _ _ _ _ Ht Hq) as Hok.
  destruct (run_init _ _ _ (gi_run _ Hi)) as [Hfi _]. pose proof Hi as [_ _ _ Hc _ _ (Hn & Hg & Hpp)].
  cbn. rewrite Ht. cbn. rewrite Hq. cbn. destruct p as [| |f|v e]; [| | |by destruct (Hp v e)].
  - case_bool_decide; [by eexists|]. destruct (cache_get_ok key _ Hc) as (c & -> & _).
    destruct (Lru.abs_find _ _); by eexists.
  - destruct q as [|c|c|c|c|v e|c]; cbn in Hok; try done; [|by destruct (Hw c)|..].
    + assert (∃ l, SingleFlight.step t Enter (loader (grp s)) = Some l) as [l Hl]
        by (unfold SingleFlight.step; rewrite Hq; by eexists). by eapply flight_enabled.
    + destruct (leader_steps _ t key (PRan c) c Done Hfi Hq eq_refl I) as [l Hl]. by eapply flight_enabled.
    + destruct (leader_steps _ t key (PDelete c) c Delete Hfi Hq eq_refl I) as [l Hl]. by eapply flight_enabled.
  - destruct q as [| |c| | | |]; cbn in Hok; try done. destruct f as [|peer| |sl|v|v e]; cbn [fn_step].
    + destruct (peers (grp s)) as [pick|] eqn:Hpk; [|by eexists].
      destruct (Hpeers pick key (eq_sym Hpp)) as (o & -> & _). destruct o; by eexists.
    + destruct (getFromPeer _ _ _ _) as [[v [e|]] w]; by eexists.
    + destruct (getter _ _ _) as [[v [e|]] w]; by eexists.
    + destruct (cloneBytes _ _) as [c' h]. by eexists.
    + unfold populateCache. destruct (cache_add_ok key v _ Hc) as (c' & -> & _). by eexists.
    + destruct (leader_steps _ t key (PRun c) c (RunOk v e) Hfi Hq eq_refl I) as [l Hl]. by eapply flight_enabled.
Qed.

(** The goroutines with a key are back when none of them can go on and none
    waits for another node. *)
Lemma stopped_key s k : ginv s → (∀ t q peer, ths (loader (grp s)) !! t = Some (k, q) → tpcs s !! t ≠ Some (TFn (FPeer peer))) →
  (∀ t, (∀ peer, tpcs s !! t ≠ Some (TFn (FPeer peer))) → gstep (Step t) s = None) →
  ∀ t q, ths (loader (grp s)) !! t = Some (k, q) → (∃ v e, tpcs s !! t = Some (TRet v e)) ∧ leads q = None.
Proof using Hpeers.
  intros Hi Hfar Hq. destruct (run_init _ _ _ (gi_run _ Hi)) as [Hfi _].
  assert (∀ t q, ths (loader (grp s)) !! t = Some (k, q) → (∀ c, q ≠ PWait c) →
    (∃ v e, tpcs s !! t = Some (TRet v e)) ∧ leads q = None) as Hback.
  { intros t q Ht Hw. destruct (lookup_lt_is_Some_2 (tpcs s) t) as [p Hp].
    { rewrite (gi_len _ Hi). by eapply lookup_lt_Some. }
    pose proof (gi_tpc _ Hi _ _ _ _ Hp Ht) as Hok. specialize (Hq t ltac:(intros peer; by eapply Hfar)).
    destruct p as [| |f|v e]; [..|split; [by do 2 eexists|by destruct q]]; exfalso;
      (edestruct (gstep_enabled s t _ k q Hi Hp Ht) as [s' Hs]; [done|done|by rewrite Hq in Hs]). }
  intros t q Ht. destruct q as [|c|c|c|c|v e|c]; try (by eapply Hback). exfalso.
  destruct (waiter_wakes _ t k c Hfi) as [l Hl]; [|done|].
  { intros u q' c' Hu Hl. destruct (Hback u q' Hu ltac:(by intros d ->)) as [_ Hn]. congruence. }
  destruct (lookup_lt_is_Some_2 (tpcs s) t) as [p Hp].
  { rewrite (gi_len _ Hi). by eapply lookup_lt_Some. }
  pose proof (gi_tpc _ Hi _ _ _ _ Hp Ht) as Hok. destruct (flight_enabled s t Wake l Hl) as [s' Hs].
  specialize (Hq t ltac:(intros peer; by eapply Hfar)). cbn in Hq. rewrite Hp in Hq. cbn in Hq. rewrite Ht in Hq.
  cbn in Hq. destruct p; try done. cbn in Hq. by rewrite Hs in Hq.
Qed.

(** Nobody can go on, or waits for another node, only when all are back. *)
Lemma stopped s : ginv s → (∀ t peer, tpcs s !! t ≠ Some (TFn (FPeer peer))) → (∀ t, gstep (Step t) s = None) →
  (∀ t p, tpcs s !! t = Some p → ∃ v e, p = TRet v e) ∧ SingleFlight.idle (loader (grp s)).
Proof using Hpeers.
  intros Hi Hfar Hq. destruct (run_init _ _ _ (gi_run _ Hi)) as [Hfi _].
  pose proof (λ k, stopped_key s k Hi ltac:(intros; apply Hfar) ltac:(intros; apply Hq)) as Hk. split.
  - intros t p Ht. destruct (lookup_lt_is_Some_2 (ths (loader (grp s))) t) as [[k q] Hth].
    { rewrite <- (gi_len _ Hi). by eapply lookup_lt_Some. }
    destruct (Hk k t q Hth) as [(v & e & Hv) _]. exists v, e. congruence.
  - apply map_empty. intros k. destruct (gmap_of _ !! k) as [c|] eqn:Hc; [|done]. exfalso.
    destruct (inv_map _ Hfi _ _ Hc) as (t & q & _ & Ht & Hl). destruct (Hk k t q Ht) as [_ Hn]. congruence.
Qed.

(** A goroutine that asks another node can always go on. *)
Lemma nobody_asks s t peer : ginv s → (∀ t, gstep (Step t) s = None) → tpcs s !! t ≠ Some (TFn (FPeer peer)).
Proof using Hpeers.
  intros Hi Hq Ht. destruct (lookup_lt_is_Some_2 (ths (loader (grp s))) t) as [[k q] Hth].
  { rewrite <- (gi_len _ Hi). by eapply lookup_lt_Some. }
  pose proof (gi_tpc _ Hi _ _ _ _ Ht Hth) as Hok.
  destruct (gstep_enabled s t _ k q Hi Ht Hth) as [s' Hs]; [done|by destruct q|by rewrite Hq in Hs].
Qed.

(** ** The start *)

Lemma start_inv own w : cache_ok (mainCache g0) →
  Forall (λ kv, view_ok (start g0 ks own w) kv.1 kv.2) (cached (mainCache g0)) → ginv (start g0 ks own w).
Proof using.
  intros Hc Hcd. split; try done.
  - cbn. by rewrite length_replicate, length_fmap.
  - intros t p key q Ht Hq. cbn in *. apply lookup_replicate in Ht as [-> _].
    apply list_lookup_fmap_Some in Hq as (k & Hk & _). by simplify_eq.
  - intros t x e key q Hin. by apply elem_of_nil in Hin.
Qed.

Lemma ginv_keys s : ginv s → (ths (loader (grp s))).*1 = ks.
Proof using.
  intros Hi. rewrite (run_keys _ _ _ (gi_run _ Hi)). cbn. rewrite <- list_fmap_compose. apply list_fmap_id.
Qed.

Lemma start_keys s t key p : ginv s → ks !! t = Some key → tpcs s !! t = Some p →
  ∃ q, ths (loader (grp s)) !! t = Some (key, q).
Proof using.
  intros Hi Hk Ht. rewrite <- (ginv_keys s Hi) in Hk.
  apply list_lookup_fmap_Some in Hk as ([k q] & -> & Hq). by exists q.
Qed.

Lemma gmeasure_start own w : gmeasure (start g0 ks own w) = (10 * length ks)%nat.
Proof using.
  unfold gmeasure, start. cbn. induction ks as [|k l IH]; [done|]. cbn in IH |- *. rewrite IH. lia.
Qed.

(** ** Properties *)

(** Concurrent requests are answered by the data source: in every
    interleaving of any number of calls of Get, whether they hit the cache,
    load the value, ask another node or wait for a load of another goroutine,
    and whatever others write to the slices they hold and do in between, a call
    that has returned has an answer of the source for its own key, or the
    error for the empty key; and its bytes stay as they are. *)
Theorem gets_return_answers own w tr s t key v e :
  cache_ok (mainCache g0) → Forall (λ kv, view_ok (start g0 ks own w) kv.1 kv.2) (cached (mainCache g0)) →
  grun tr (start g0 ks own w) = Some s → ks !! t = Some key → tpcs s !! t = Some (TRet v e) →
  if bool_decide (key = "") then e = Some "key is required"%string
  else match e with
       | None => answers key (inl (ByteView_String v (heap (world s))))
       | Some x => answers key (inr x)
       end.
Proof using Hgetter Hpeers.
  intros Hc Hcd Hr Hk Ht. pose proof (grun_inv _ _ _ (start_inv own w Hc Hcd) Hr) as Hi.
  destruct (start_keys s t key _ Hi Hk Ht) as [q Hq]. pose proof (gi_tpc _ Hi _ _ _ _ Ht Hq) as Hok.
  assert (result_ok s key v e) as Hres by (by destruct q).
  unfold result_ok in Hres. case_bool_decide; [done|]. destruct e; [done|]. apply Hres.
Qed.

(** A key is loaded by one goroutine at a time: two goroutines that are
    asking the getter or another node for the same key, or storing what it
    gave, are the same. *)
Theorem one_load_per_key own w tr s t1 t2 key f1 f2 :
  cache_ok (mainCache g0) → Forall (λ kv, view_ok (start g0 ks own w) kv.1 kv.2) (cached (mainCache g0)) →
  grun tr (start g0 ks own w) = Some s → ks !! t1 = Some key → ks !! t2 = Some key →
  tpcs s !! t1 = Some (TFn f1) → tpcs s !! t2 = Some (TFn f2) → t1 = t2.
Proof using Hgetter Hpeers.
  intros Hc Hcd Hr Hk1 Hk2 Ht1 Ht2. pose proof (grun_inv _ _ _ (start_inv own w Hc Hcd) Hr) as Hi.
  destruct (start_keys s t1 key _ Hi Hk1 Ht1) as [q1 Hq1], (start_keys s t2 key _ Hi Hk2 Ht2) as [q2 Hq2].
  pose proof (gi_tpc _ Hi _ _ _ _ Ht1 Hq1) as Hok1. pose proof (gi_tpc _ Hi _ _ _ _ Ht2 Hq2) as Hok2.
  destruct (run_init _ _ _ (gi_run _ Hi)) as [Hfi _].
  destruct q1 as [| |c1| | | |], q2 as [| |c2| | | |]; try done.
  destruct (inv_leader _ Hfi _ _ _ _ Hq1 eq_refl), (inv_leader _ Hfi _ _ _ _ Hq2 eq_refl). congruence.
Qed.

(** C7: concurrent requests all return: whatever the schedule, the goroutines
    take at most ten steps each, and when none of them can go on, all are back
    from Get, no load is under way and the cache is in order. *)
Theorem gets_all_return own w tr s :
  cache_ok (mainCache g0) → Forall (λ kv, view_ok (start g0 ks own w) kv.1 kv.2) (cached (mainCache g0)) →
  grun tr (start g0 ks own w) = Some s →
  (length (filter is_step tr) ≤ 10 * length ks)%nat ∧
  ((∀ t, gstep (Step t) s = None) →
   (∀ t, (t < length ks)%nat → ∃ v e, tpcs s !! t = Some (TRet v e)) ∧ group_ok (grp s)).
Proof using Hgetter Hpeers.
  intros Hc Hcd Hr. pose proof (start_inv own w Hc Hcd) as H0. pose proof (grun_inv _ _ _ H0 Hr) as Hi.
  split.
  - pose proof (grun_measure _ _ _ H0 Hr). rewrite gmeasure_start in *. lia.
  - intros Hq. assert (∀ t peer, tpcs s !! t ≠ Some (TFn (FPeer peer))) as Hfar by (intros; by apply nobody_asks).
    destruct (stopped s Hi Hfar Hq) as [Hall Hidle]. split; [|split; [apply Hi|done]].
    intros t Ht. destruct (lookup_lt_is_Some_2 (tpcs s) t) as [p Hp].
    { rewrite (gi_len _ Hi). rewrite <- (ginv_keys s Hi), length_fmap in Ht. done. }
    destruct (Hall t p Hp) as (v & e & ->). by do 2 eexists.
Qed.
End Spec.

(** ** Arrivals *)

Section Arrivals.
Context {E : Type} (g0 : Group E) (answers : string → list Z + string → Prop).

Lemma tpc_arrive s k key p q : tpc_ok g0 answers s key p q → tpc_ok g0 answers (arrive k s) key p q.
Proof using. by destruct p as [| |[]|], q. Qed.

Lemma ginv_arrive ks s k : ginv g0 ks answers s → ginv g0 (ks ++ [k]) answers (arrive k s).
Proof using.
  intros [Hrun Hlen Htpc Hc Hcd Hfl Hgr]. split; try done.
  - rewrite <- init_spawn. by apply run_spawn.
  - cbn. rewrite !length_app. cbn. by rewrite Hlen.
  - intros t p key q Ht Hq. cbn in Ht, Hq. apply lookup_snoc_Some in Ht as [[Hlt Ht]|[-> <-]].
    + rewrite lookup_app_l in Hq by (by rewrite <- Hlen). eapply tpc_arrive, Htpc; eauto.
    + rewrite lookup_app_r, Hlen, Nat.sub_diag in Hq by (by rewrite Hlen). by injection Hq as <- <-.
  - intros t x e key q Hin Hq. cbn in Hq. apply lookup_snoc_Some in Hq as [[_ Hq]|[-> Hk]]; [by eapply Hfl|].
    exfalso. pose proof (run_actor _ _ _ _ _ Hrun Hin). lia.
Qed.

Lemma gmeasure_arrive (s : gsys E) k : length (tpcs s) = length (ths (loader (grp s))) →
  gmeasure (arrive k s) = (10 + gmeasure s)%nat.
Proof using.
  intros Hl. unfold gmeasure, arrive. cbn. rewrite fmap_app, zip_with_app by (by rewrite length_fmap).
  rewrite sum_list_with_app. cbn. lia.
Qed.
End Arrivals.

(** ** Witnesses *)

(** The source of [src/geecache/main/main.go], reduced to Tom, with a new slice
    for each call. *)
Definition fresh_db : Getter unit := λ key w,
  if bool_decide (key = "Tom"%string) then
    (Slice (length (heap w)) 3, None, mkWorld (heap w ++ [[54; 51; 48]]) (env w))
  else (nil_slice, Some (key +:+ " not exist")%string, w).

Definition db_answers (key : string) (r : list Z + string) : Prop :=
  r = if bool_decide (key = "Tom"%string) then inl [54; 51; 48] else inr (key +:+ " not exist")%string.

Definition fresh_scores : Group unit :=
  mkGroup "scores" fresh_db (mkCache None 2048) None (SingleFlight.init []).

Definition demo_keys : list string := ["Tom"; "Tom"; ""; "Bob"; "Tom"]%string.

(** The first two calls share a load; while it runs, its slice is overwritten
    after it was copied; the last one finds the value in the cache. *)
Definition demo_trace : list (gaction unit) :=
  [Step 0; Step 1; Step 0; Step 3; Step 1; Step 0; Step 0; Step 0; Outside (mkWorld [[0; 0; 0]; [54; 51; 48]] tt);
   Step 0; Step 2; Step 0; Step 0; Step 1; Step 0; Step 3; Step 3; Step 3; Step 3; Step 3; Step 3; Step 4].

Abbreviation demo_run := (grun demo_trace (start fresh_scores demo_keys [] (mkWorld [] tt))).

Example demo_results :
  (λ s, (λ p, match p with TRet v e => Some (ByteView_String v (heap (world s)), e) | _ => None end) <$> tpcs s) <$>
    demo_run =
  Some [Some ([54; 51; 48], None); Some ([54; 51; 48], None); Some ([], Some "key is required"%string);
        Some ([], Some "Bob not exist"%string); Some ([54; 51; 48], None)].
Proof. vm_compute. reflexivity. Qed.

Lemma fresh_getter_ok : getter_ok fresh_scores db_answers.
Proof.
  intros key w s e w'. unfold fresh_scores, fresh_db, db_answers. cbn. case_bool_decide; intros H1; simplify_eq.
  - split; [by eexists|]. unfold slice_ok, bytes_at. cbn. by rewrite lookup_app_r, Nat.sub_diag.
  - done.
Qed.

Lemma fresh_peers_ok : peers_ok fresh_scores db_answers.
Proof. done. Qed.

Lemma fresh_cache_ok : cache_ok (mainCache fresh_scores).
Proof. split; [cbn; lia|by intros]. Qed.

Lemma gets_return_answers_witness : ∃ s, demo_run = Some s ∧
  (λ p, match p with TRet v None => Some (db_answers "Tom" (inl (ByteView_String v (heap (world s))))) | _ => None end)
    <$> tpcs s !! 1%nat = Some (Some (db_answers "Tom" (inl [54; 51; 48]))) ∧ db_answers "Tom" (inl [54; 51; 48]).
Proof.
  assert ((λ s, tpcs s !! 1%nat) <$> demo_run = Some (Some (TRet (mkView (Slice 1 3)) None)) ∧
    (λ s, heap (world s)) <$> demo_run = Some [[0; 0; 0]; [54; 51; 48]]) as [H1 H2] by (vm_compute; split; reflexivity).
  destruct demo_run as [s|] eqn:Hr; [|discriminate H1]. cbn in H1, H2. injection H1 as H1. injection H2 as H2.
  exists s. split; [reflexivity|]. rewrite H1. cbn. rewrite H2. split; [reflexivity|].
  pose proof (gets_return_answers fresh_scores demo_keys db_answers fresh_getter_ok fresh_peers_ok [] (mkWorld [] tt)
    demo_trace s 1 "Tom" _ None fresh_cache_ok (Forall_nil_2 _) Hr eq_refl H1) as H. cbn in H. rewrite H2 in H. exact H.
Defined.

(** While the first goroutine loads Tom, the second is not inside the load. *)
Lemma one_load_per_key_witness : ∃ s f,
  grun [Step 0; Step 1; Step 0; Step 1; Step 0] (start fresh_scores demo_keys [] (mkWorld [] tt)) = Some s ∧
  tpcs s !! 0%nat = Some (TFn f) ∧ 0%nat = 0%nat.
Proof.
  eexists. exists FGetter. split; [vm_compute; reflexivity|]. split; [reflexivity|].
  refine (one_load_per_key fresh_scores demo_keys db_answers fresh_getter_ok fresh_peers_ok [] (mkWorld [] tt)
    [Step 0; Step 1; Step 0; Step 1; Step 0] _ 0 0 "Tom" FGetter FGetter fresh_cache_ok (Forall_nil_2 _)
    eq_refl eq_refl eq_refl eq_refl eq_refl).
Defined.

Lemma gets_all_return_witness : (length (filter is_step demo_trace) ≤ 10 * 5)%nat.
Proof.
  assert (is_Some demo_run) as [s Hs] by (vm_compute; eexists; reflexivity).
  exact (proj1 (gets_all_return fresh_scores demo_keys db_answers fresh_getter_ok fresh_peers_ok [] (mkWorld [] tt)
    demo_trace s fresh_cache_ok (Forall_nil_2 _) Hs)).
Defined.
