(* ===== verification/HttpPool.v ===== *)
(** * geecache/http: the HTTP node pool

    Models [src/geecache/http.go]: the server side [ServeHTTP] on the groups of
    its process, the client side [httpGetter.Get], and the choice of the node
    of a key.  The protobuf library is a pair of functions with the law the
    code relies on (decoding an encoded value gives it back); [http.Get] is a
    function from a URL and the state of the world to what came back, and
    [deliver] is the network that carries a request to another node's
    [ServeHTTP]. *)

From S2P Require Import Prelude GoStrings ConsistentHash GeeCache.

#[local] Open Scope string_scope.

Definition defaultBasePath : string := "/_geecache/".
Definition defaultReplicas : Z := 50.

Record httpGetter := mkGetter { baseURL : string }.

Record HTTPPool := mkPool {
  self : string;
  basePath : string;
  pool_peers : option ConsistentHash.Map;
  httpGetters : gmap string httpGetter;
}.

Definition NewHTTPPool (self : string) : HTTPPool := mkPool self defaultBasePath None ∅.

Definition Set_peers (ps : list string) (p : HTTPPool) : HTTPPool :=
  mkPool (self p) (basePath p)
    (Some (ConsistentHash.Add ps (ConsistentHash.New defaultReplicas None)))
    (foldl (λ m peer, <[peer := mkGetter (peer +:+ basePath p)]> m) ∅ ps).

(** The getter and [true], or [nil, false]; the getter is the nil pointer when
    the map has none for the peer. *)
Definition PickPeer (p : HTTPPool) (key : string) : outcome (option (option httpGetter)) :=
  match pool_peers p with
  | None => Panic "invalid memory address or nil pointer dereference"
  | Some m =>
      let! peer := ConsistentHash.Get key m in
      if bool_decide (peer ≠ "" ∧ peer ≠ self p) then Ret (Some (httpGetters p !! peer))
      else Ret None
  end.

(** ** HTTP *)

Record response := mkResponse { StatusCode : Z; Body : list Z }.

(** [http.Error] writes the text and a newline. *)
Definition http_error (msg : string) (code : Z) : response :=
  mkResponse code (bytes_of msg ++ [10%Z])%list.

Definition Status (code : Z) : string :=
  pretty code +:+ " " +:+
  (if bool_decide (code = 200%Z) then "OK"
   else if bool_decide (code = 400%Z) then "Bad Request"
   else if bool_decide (code = 404%Z) then "Not Found"
   else if bool_decide (code = 500%Z) then "Internal Server Error" else "").

(** What [http.Get] comes back with: an error, or a status and a body whose
    reading may fail. *)
Inductive fetch :=
  | FetchErr (e : string)
  | FetchOk (code : Z) (body : list Z) (read_err : error).

Section Http.
Context (Marshal Unmarshal : list Z → list Z + string).

Section Server.
Context {E : Type}.

(** What [ServeHTTP] does with a path before it calls [Get]: an answer, or a
    group, as [GetGroup] finds it, and a key. *)
Definition route {A} (GetGroup : string → option A) (pool : HTTPPool) (path : string)
  : outcome (response + A * string) :=
  match strip_prefix (basePath pool) path with
  | None => Panic ("HTTPPool serving unexpected path: " +:+ path)
  | Some rest =>
      match cut "/" rest with
      | None => Ret (inl (http_error "bad request" 400))
      | Some (groupName, key) =>
          match GetGroup groupName with
          | None => Ret (inl (http_error ("no such group: " +:+ groupName) 404))
          | Some group => Ret (inr (group, key))
          end
      end
  end.

(** What it writes after [Get]. *)
Definition reply (view : ByteView) (err : error) (h : Heap) : response * Heap :=
  match err with
  | Some e => (http_error e 500, h)
  | None =>
      let '(s, h) := Byteslice view h in
      match Marshal (bytes_at h s) with
      | inr e => (http_error e 500, h)
      | inl body => (mkResponse 200 body, h)
      end
  end.

Definition ServeHTTP (pool : HTTPPool) (path : string) (p : Proc E)
  : outcome (response * Proc E) :=
  let! r := route (λ groupName, GetGroup groupName p) pool path in
  match r with
  | inl r => Ret (r, p)
  | inr (group, key) =>
      let! (view, err, p) := group_Get group key p in
      let '(r, h) := reply view err (heap (world p)) in
      Ret (r, mkProc (groups p) (objs p) (mkWorld h (env (world p))))
  end.
End Server.

Section Client.
Context {E : Type} (http_Get : string → World E → fetch * World E).

Definition request_url (h : httpGetter) (group key : string) : string :=
  baseURL h +:+ QueryEscape group +:+ "/" +:+ QueryEscape key.

(** [h.Get(in, out)]: the error, and [out.Value] in a new buffer. *)
Definition httpGetter_Get (h : httpGetter) : PeerGetter E := λ group key w,
  let '(res, w) := http_Get (request_url h group key) w in
  match res with
  | FetchErr e => (Some e, nil_slice, w)
  | FetchOk code body read_err =>
      if bool_decide (code ≠ 200%Z) then
        (Some ("server returned: " +:+ Status code), nil_slice, w)
      else
        match read_err with
        | Some e => (Some ("reading response: " +:+ e), nil_slice, w)
        | None =>
            match Unmarshal body with
            | inr e => (Some ("decoding response body: " +:+ e), nil_slice, w)
            | inl value =>
                (None, Slice (length (heap w)) (Z.of_nat (length value)),
                 mkWorld (heap w ++ [value])%list (env w))
            end
        end
  end.

(** The pool as the picker of a group: [load] calls [Get] on the getter it
    returned, so a nil getter panics there. *)
Definition pool_picker (p : HTTPPool) : PerrPicker E := λ key,
  let! r := PickPeer p key in
  match r with
  | None => Ret None
  | Some (Some h) => Ret (Some (httpGetter_Get h))
  | Some None => Panic "invalid memory address or nil pointer dereference"
  end.
End Client.

(** The network between two nodes: a request to [host] runs its [ServeHTTP] on
    the decoded path; a handler that panics or never answers breaks the
    connection. *)
Definition deliver {E} (host : string) (pool : HTTPPool) (u : string) (w : World (Proc E))
  : fetch * World (Proc E) :=
  match strip_prefix host u with
  | None => (FetchErr "no such host", w)
  | Some raw =>
      match path_unescape raw with
      | None => (FetchOk 400 [] None, w)
      | Some path =>
          match ServeHTTP pool path (env w) with
          | Ret (r, remote) => (FetchOk (StatusCode r) (Body r) None, mkWorld (heap w) remote)
          | _ => (FetchErr "EOF", w)
          end
      end
  end.
End Http.

(** A concrete remote node: the group "scores" whose source knows "a b" only. *)
Definition space_db : Getter unit := λ key w,
  if bool_decide (key = "a b") then (Slice 0 1, None, w)
  else (nil_slice, Some (key +:+ " not exist"), w).

Definition space_node : Proc unit :=
  mkProc {[ "scores" := 0%nat ]}
    [mkGroup "scores" space_db (mkCache None 2048) None (SingleFlight.init [])]
    (mkWorld [[42%Z]] tt).

(** A stand-in for the protobuf library: field 1, a byte string shorter than
    128 bytes, as its tag, its length and its bytes. *)
Definition demo_marshal (v : list Z) : list Z + string :=
  if bool_decide (length v < 128)%nat then inl (10%Z :: Z.of_nat (length v) :: v)
  else inr "too long".

Definition demo_unmarshal (m : list Z) : list Z + string :=
  match m with
  | t :: n :: v =>
      if bool_decide (t = 10%Z ∧ n = Z.of_nat (length v)) then inl v else inr "malformed"
  | _ => inr "malformed"
  end.

(** ** Lemmas *)

Lemma length_vnodes m ks :
  length (vnodes m ks) = (Z.to_nat (replicas m) * length ks)%nat.
Proof.
  induction ks as [|k ks IH]; [cbn; lia|].
  rewrite vnodes_cons, length_app, IH, length_fmap, length_seq. cbn. lia.
Qed.

Lemma length_ring ps :
  length (keys (Add ps (ConsistentHash.New defaultReplicas None))) = (50 * length ps)%nat.
Proof.
  rewrite Add_eq. cbn. rewrite merge_sort_Permutation. cbn.
  by rewrite length_fmap, length_vnodes.
Qed.

Lemma getters_fold bp ps m peer :
  foldl (λ m peer, <[peer := mkGetter (peer +:+ bp)]> m) m ps !! peer =
  if bool_decide (peer ∈ ps) then Some (mkGetter (peer +:+ bp)) else (m : gmap string httpGetter) !! peer.
Proof.
  revert m. induction ps as [|p ps IH]; intros m; [done|].
  cbn [foldl]. rewrite IH, lookup_insert.
  destruct (decide (p = peer)) as [->|Hne].
  - rewrite (bool_decide_eq_true_2 (peer ∈ peer :: ps)) by set_solver. by case_bool_decide.
  - assert (peer ∈ p :: ps ↔ peer ∈ ps) as Hiff by set_solver.
    by rewrite (bool_decide_ext _ _ Hiff).
Qed.

(** The node that [Set] of [ps] makes every pool choose for a key. *)
Lemma ring_node ps key : (50 * Z.of_nat (length ps) < 2 ^ 63)%Z → ∃ owner,
  ConsistentHash.Get key (Add ps (ConsistentHash.New defaultReplicas None)) = Ret owner ∧
  (owner = "" ∨ owner ∈ ps) ∧ (ps ≠ [] → owner ∈ ps).
Proof.
  intros Hlen. pose proof (length_ring ps) as Hr.
  pose proof (Add_wf [] ps _ (New_map_wf defaultReplicas None)) as Hwf. cbn [app] in Hwf.
  destruct (decide (ps = [])) as [->|Hne].
  - exists "". split; [by apply Get_empty|]. split; [by left|done].
  - assert (keys (Add ps (ConsistentHash.New defaultReplicas None)) ≠ []) as Hk.
    { intros E. rewrite E in Hr. destruct ps; [done|cbn in Hr; lia]. }
    destruct (Get_lookup ps _ key Hwf Hk) as (k & n & _ & Hn & Hg); [lia|].
    exists n. apply (wf_node _ _ Hwf), vnodes_elem in Hn as [Hin _]. auto.
Qed.

Lemma PickPeer_Set ps p key owner :
  ConsistentHash.Get key (Add ps (ConsistentHash.New defaultReplicas None)) = Ret owner →
  (owner = "" ∨ owner ∈ ps) →
  PickPeer (Set_peers ps p) key =
    Ret (if bool_decide (owner ≠ "" ∧ owner ≠ self p)
         then Some (Some (mkGetter (owner +:+ basePath p))) else None).
Proof.
  intros Hg Ho. unfold PickPeer. cbn [Set_peers pool_peers httpGetters self]. rewrite Hg. cbn [obind].
  case_bool_decide as Hb; [|done]. rewrite getters_fold, bool_decide_eq_true_2 by naive_solver. done.
Qed.

Lemma NoDup_no_collision m ks : NoDup (vnodes m ks).*1 → no_collision m ks.
Proof.
  intros Hnd h x y Hx Hy. apply list_elem_of_lookup in Hx as [i Hi], Hy as [j Hj].
  assert (i = j) as ->; [|congruence].
  eapply NoDup_lookup; [done|..]; rewrite list_lookup_fmap, ?Hi, ?Hj; done.
Qed.

(** What every pool makes of the ring: the owner answers a key itself, and every
    other node asks the owner. *)
Lemma PickPeer_owner ps ps' node key owner :
  no_collision (ConsistentHash.New defaultReplicas None) ps → ps ≡ₚ ps' →
  ConsistentHash.Get key (Add ps (ConsistentHash.New defaultReplicas None)) = Ret owner →
  owner ∈ ps → owner ≠ "" →
  PickPeer (Set_peers ps' (NewHTTPPool node)) key =
    Ret (if bool_decide (node = owner) then None
         else Some (Some (mkGetter (owner +:+ defaultBasePath)))).
Proof.
  intros Hc Hp Hg Ho Hne. rewrite (Add_perm ps ps' _ Hc Hp) in Hg.
  rewrite (PickPeer_Set ps' _ key owner Hg) by (right; by rewrite <- Hp).
  cbn [self NewHTTPPool basePath]. destruct (decide (node = owner)) as [->|Hn].
  - rewrite bool_decide_eq_false_2 by naive_solver. by rewrite bool_decide_eq_true_2.
  - rewrite bool_decide_eq_true_2 by naive_solver. by rewrite bool_decide_eq_false_2.
Qed.

(** ** Properties *)

(** After [Set], all nodes that list the same peers, in any order, agree on
    one owner of each key: the owner answers the key itself and every other
    node asks exactly the owner, so a request is forwarded at most once. *)
Theorem PickPeer_one_owner ps key :
  (50 * Z.of_nat (length ps) < 2 ^ 63)%Z → ps ≠ [] → "" ∉ ps →
  no_collision (ConsistentHash.New defaultReplicas None) ps →
  ∃ owner, owner ∈ ps ∧ ∀ ps' node, ps ≡ₚ ps' →
    PickPeer (Set_peers ps' (NewHTTPPool node)) key =
      Ret (if bool_decide (node = owner) then None
           else Some (Some (mkGetter (owner +:+ defaultBasePath)))).
Proof.
  intros Hlen Hne Hemp Hc. destruct (ring_node ps key Hlen) as (owner & Hg & _ & Ho).
  specialize (Ho Hne). exists owner. split; [done|]. intros ps' node Hp.
  apply (PickPeer_owner ps); [done..|]. by intros ->.
Qed.

Section Http.
Context (Marshal Unmarshal : list Z → list Z + string).
Context {E : Type}.

(** What the server makes of the URL the client builds. *)
Lemma wire_path (host group key : string) :
  path_unescape (defaultBasePath +:+ QueryEscape group +:+ "/" +:+ QueryEscape key) =
  Some (defaultBasePath +:+ space_to_plus group +:+ "/" +:+ space_to_plus key).
Proof.
  rewrite (path_unescape_app defaultBasePath _ defaultBasePath) by done.
  rewrite (path_unescape_app (QueryEscape group) _ (space_to_plus group))
    by apply unescape_QueryEscape.
  rewrite (path_unescape_app "/" _ "/") by done.
  by rewrite unescape_QueryEscape.
Qed.

Lemma route_path {A} (find : string → option A) pool g k :
  basePath pool = defaultBasePath → contains "/" g = false →
  route find pool (defaultBasePath +:+ g +:+ "/" +:+ k) =
  Ret match find g with
      | None => inl (http_error ("no such group: " +:+ g) 404)
      | Some x => inr (x, k)
      end.
Proof.
  intros Hb Hg. unfold route. rewrite Hb, strip_prefix_app.
  change (g +:+ "/" +:+ k) with (g +:+ String "/" k). rewrite cut_app by done. by destruct (find g).
Qed.

Lemma reply_value v h body : slice_ok h (b v) → Marshal (ByteView_String v h) = inl body →
  ∃ h', reply Marshal v None h = (mkResponse 200 body, h') ∧ h `prefix_of` h'.
Proof.
  intros Hok Hm. unfold reply. pose proof (cloneBytes_ok (b v) h Hok) as Hcl. unfold Byteslice.
  destruct (cloneBytes (b v) h) as [s h']. destruct Hcl as (Hb & _ & _ & Hp & _).
  rewrite Hb. unfold ByteView_String in Hm. rewrite Hm. by exists h'.
Qed.

(** The two answers of a server whose group answers: its bytes, or its error. *)
Lemma ServeHTTP_value pool (p : Proc E) g k gp v p1 body :
  basePath pool = defaultBasePath → contains "/" g = false → GetGroup g p = Some gp →
  group_Get gp k p = Ret (v, None, p1) → slice_ok (heap (world p1)) (b v) →
  Marshal (ByteView_String v (heap (world p1))) = inl body →
  ∃ h, ServeHTTP Marshal pool (defaultBasePath +:+ g +:+ "/" +:+ k) p =
         Ret (mkResponse 200 body, mkProc (groups p1) (objs p1) (mkWorld h (env (world p1)))) ∧
       heap (world p1) `prefix_of` h.
Proof.
  intros Hbp Hgs Hgg Hget Hok Hm. unfold ServeHTTP. rewrite route_path by done. rewrite Hgg. cbn [obind].
  rewrite Hget. cbn [obind]. destruct (reply_value v _ body Hok Hm) as (h & -> & Hp). by exists h.
Qed.

Lemma ServeHTTP_error pool (p : Proc E) g k gp v e p1 :
  basePath pool = defaultBasePath → contains "/" g = false → GetGroup g p = Some gp →
  group_Get gp k p = Ret (v, Some e, p1) →
  ServeHTTP Marshal pool (defaultBasePath +:+ g +:+ "/" +:+ k) p = Ret (http_error e 500, p1).
Proof.
  intros Hbp Hgs Hgg Hget. unfold ServeHTTP. rewrite route_path by done. rewrite Hgg. cbn [obind].
  rewrite Hget. cbn [obind]. by destruct p1 as [? ? [? ?]].
Qed.

(** A request adds to the heap, and has a value only from an answer with status
    200 that decodes to it. *)
Lemma httpGetter_Get_received {E'} res h group key (w w' : World E') e s :
  httpGetter_Get Unmarshal (λ _ w, (res, w)) h group key w = (e, s, w') →
  heap w `prefix_of` heap w' ∧
  (e = None → ∃ body, res = FetchOk 200 body None ∧ Unmarshal body = inl (bytes_at (heap w') s) ∧
    slice_ok (heap w') s).
Proof.
  unfold httpGetter_Get. destruct res as [x|code body [x|]]; [|case_bool_decide as Hc..]; intros H; simplify_eq/=;
    try by split.
  destruct (Unmarshal body) as [value|x] eqn:Hu; simplify_eq/=; [|by split].
  split; [by eexists|]. intros _. exists body.
  assert (bytes_at (heap w ++ [value])%list (Slice (length (heap w)) (Z.of_nat (length value))) = value) as Hb.
  { unfold bytes_at. cbn. rewrite lookup_app_r, Nat.sub_diag by done. cbn. rewrite Nat2Z.id. by apply take_ge. }
  split_and!; [done|by rewrite Hb|]. split; [cbn; lia|]. by rewrite Hb.
Qed.

(** What the client makes of an answer with status 200. *)
Lemma httpGetter_Get_ok {E'} (http_Get : string → World E' → fetch * World E') h group key w body w1 value :
  http_Get (request_url h group key) w = (FetchOk 200 body None, w1) → Unmarshal body = inl value →
  ∃ s h', httpGetter_Get Unmarshal http_Get h group key w = (None, s, mkWorld h' (env w1)) ∧
    bytes_at h' s = value ∧ slice_ok h' s ∧ heap w1 `prefix_of` h'.
Proof.
  intros Hget Hu. unfold httpGetter_Get. rewrite Hget. cbn. rewrite Hu. do 2 eexists. split; [done|].
  assert (bytes_at (heap w1 ++ [value])%list (Slice (length (heap w1)) (Z.of_nat (length value))) = value)
    as Hb.
  { unfold bytes_at. cbn. rewrite lookup_app_r, Nat.sub_diag by done. cbn. rewrite Nat2Z.id.
    by apply take_ge. }
  split_and!; [done| |by eexists]. split; [cbn; lia|]. by rewrite Hb.
Qed.

(** Asking another node over HTTP is asking its group directly: when the
    group name holds no '/' or space and the key no space, the client's [Get]
    returns the bytes the remote [Group.Get] of the same group and key
    returns, and changes the remote node in the same way. *)
Theorem remote_Get_is_direct host pool group key (w : World (Proc E)) gp v p1 body :
  (∀ x y, Marshal x = inl y → Unmarshal y = inl x) →
  basePath pool = defaultBasePath →
  contains "/" group = false → contains " " group = false → contains " " key = false →
  GetGroup group (env w) = Some gp → group_Get gp key (env w) = Ret (v, None, p1) →
  slice_ok (heap (world p1)) (b v) →
  Marshal (ByteView_String v (heap (world p1))) = inl body →
  ∃ s w', httpGetter_Get Unmarshal (deliver Marshal host pool)
            (mkGetter (host +:+ defaultBasePath)) group key w = (None, s, w') ∧
    bytes_at (heap w') s = ByteView_String v (heap (world p1)) ∧
    groups (env w') = groups p1 ∧ objs (env w') = objs p1 ∧
    env (world (env w')) = env (world p1) ∧ heap (world p1) `prefix_of` heap (world (env w')).
Proof.
  intros Hlaw Hbp Hgs Hgsp Hks Hgg Hget Hok Hm.
  destruct (ServeHTTP_value pool (env w) group key gp v p1 body) as (h & Hs & Hp); [done..|].
  destruct (httpGetter_Get_ok (deliver Marshal host pool) (mkGetter (host +:+ defaultBasePath))
    group key w body (mkWorld (heap w) (mkProc (groups p1) (objs p1) (mkWorld h (env (world p1)))))
    (ByteView_String v (heap (world p1)))) as (s & h' & Hg & Hb & _).
  - unfold deliver, request_url. cbn [baseURL]. rewrite str_app_assoc, strip_prefix_app.
    rewrite wire_path by done. rewrite !space_to_plus_id by done. by rewrite Hs.
  - by apply Hlaw.
  - rewrite Hg. do 2 eexists. by split_and!.
Qed.
End Http.

(** A key that holds a space does not survive the way to another node: the
    client escapes the space as '+', which the server's path decoding keeps,
    so the remote group is asked for the key with '+' for the space.  Here the
    remote group has the key and the client gets an error. *)
Theorem remote_Get_space_lost :
  (∃ v p1, group_Get 0 "a b" space_node = Ret (v, None, p1)) ∧
  ∃ s w', httpGetter_Get demo_unmarshal
      (deliver demo_marshal "http://b:1" (NewHTTPPool "http://b:1"))
      (mkGetter ("http://b:1" +:+ defaultBasePath)) "scores" "a b" (mkWorld [] space_node) =
    (Some "server returned: 500 Internal Server Error", s, w').
Proof. split; do 2 eexists; vm_compute; reflexivity. Qed.

(** ** Concrete instances *)

Lemma PickPeer_one_owner_witness :
  let ps := ["http://localhost:8001"; "http://localhost:8002"] in
  ∃ owner, owner ∈ ps ∧ ∀ ps' node, ps ≡ₚ ps' →
    PickPeer (Set_peers ps' (NewHTTPPool node)) "Tom" =
      Ret (if bool_decide (node = owner) then None
           else Some (Some (mkGetter (owner +:+ defaultBasePath)))).
Proof.
  intros ps. apply (PickPeer_one_owner ps "Tom").
  - vm_compute. reflexivity.
  - discriminate.
  - apply (bool_decide_eq_true_1 ("" ∉ ps)). vm_compute. reflexivity.
  - apply NoDup_no_collision. apply (bool_decide_eq_true_1 (NoDup _)). vm_compute. reflexivity.
Defined.

Lemma remote_Get_is_direct_witness :
  let db : Getter unit := λ _ w, (Slice 0 1, None, w) in
  let node := mkProc {[ "scores" := 0%nat ]}
                [mkGroup "scores" db (mkCache None 2048) None (SingleFlight.init [])]
                (mkWorld [[42%Z]] tt) in
  ∃ s w', httpGetter_Get demo_unmarshal
            (deliver demo_marshal "http://b:1" (NewHTTPPool "http://b:1"))
            (mkGetter ("http://b:1" +:+ defaultBasePath)) "scores" "Tom" (mkWorld [] node)
          = (None, s, w') ∧
    bytes_at (heap w') s = [42%Z].
Proof.
  intros db node.
  destruct (group_Get 0 "Tom" node) as [[[v e] p1]| |] eqn:Hg;
    [|vm_compute in Hg; discriminate Hg..].
  vm_compute in Hg. injection Hg as <- <- <-.
  edestruct (remote_Get_is_direct demo_marshal demo_unmarshal "http://b:1"
    (NewHTTPPool "http://b:1") "scores" "Tom" (mkWorld [] node) 0) as (s & w' & H & Hs & _);
    [|reflexivity|reflexivity|reflexivity|reflexivity|reflexivity|vm_compute; reflexivity| | |].
  - intros x y Hx. unfold demo_marshal in Hx. case_bool_decide; [|done]. injection Hx as <-.
    unfold demo_unmarshal. by rewrite bool_decide_eq_true_2.
  - split; vm_compute; congruence.
  - vm_compute. reflexivity.
  - exists s, w'. split; [exact H|]. rewrite Hs. vm_compute. reflexivity.
Defined.
