(* ===== verification/Cluster.v ===== *)
(** * geecache: a cluster of nodes

    Composes [GeeCache.v] and [HttpPool.v] the way [src/geecache/main/main.go]
    does: every node is a process with a pool, groups whose getter asks a
    common data source, and a server; a node that does not own a key asks the
    owner over HTTP.  A node at rest is plain data; [attach] makes it a running
    process by giving its groups their getter and their peers, which reach the
    other nodes through [http_Get].  A request that comes back to a node which
    is itself waiting for the answer finds the key in flight there and is never
    answered: [hung] records that. *)

From S2P Require Import Prelude GoStrings ConsistentHash GeeCache HttpPool.

#[local] Open Scope string_scope.

(** ** Nodes at rest *)

Record GroupSt := mkGroupSt {
  gs_name : string; gs_cache : cache; gs_peers : bool; gs_loader : SingleFlight.Group ByteView }.

Record Node := mkNode {
  pool : HTTPPool; n_groups : gmap string nat; n_objs : list GroupSt; n_heap : Heap }.

(** ** URLs *)

(** The host a URL is sent to, and its path. *)
Definition split_url (u : string) : option (string * string) :=
  match strip_prefix "http://" u with
  | Some r =>
      match cut "/" r with
      | Some (host, path) => Some (host, "/" +:+ path)
      | None => Some (r, "")
      end
  | None => None
  end.

(** [addr[7:]], where a server of [addr] listens. *)
Definition listen_host (addr : string) : outcome string :=
  if bool_decide (String.length addr < 7)%nat then Panic "slice bounds out of range"
  else Ret (String.substring 7 (String.length addr - 7) addr).

Section Cluster.
Context (Marshal Unmarshal : list Z → list Z + string).
(** The data source: what the getter of a group does for a key. *)
Context {D : Type} (source : string → string → D → (list Z + string) * D).

(** What a running node sees of the rest: the nodes at rest by their host, the
    hosts that wait for this request, the data source. *)
Record Outside := mkOutside {
  others : gmap string Node; busy : list string; data : D; hung : bool }.

Definition with_data (d : D) (o : Outside) : Outside := mkOutside (others o) (busy o) d (hung o).
Definition with_hung (o : Outside) : Outside := mkOutside (others o) (busy o) (data o) true.

(** The getter of [createGroup]: a new slice with the value, or an error. *)
Definition getter_of (gname : string) : Getter Outside := λ key w,
  match source gname key (data (env w)) with
  | (inl v, d) => (Slice (length (heap w)) (Z.of_nat (length v)), None,
                   mkWorld (heap w ++ [v])%list (with_data d (env w)))
  | (inr e, d) => (nil_slice, Some e, mkWorld (heap w) (with_data d (env w)))
  end.

(** ** Running a node *)

Definition wake (hg : string → World Outside → fetch * World Outside) (p : HTTPPool) (g : GroupSt)
  : Group Outside :=
  mkGroup (gs_name g) (getter_of (gs_name g)) (gs_cache g)
    (if gs_peers g then Some (pool_picker Unmarshal hg p) else None) (gs_loader g).

Definition rest (g : Group Outside) : GroupSt :=
  mkGroupSt (name g) (mainCache g) (match peers g with Some _ => true | None => false end) (loader g).

Definition attach (hg : string → World Outside → fetch * World Outside) (n : Node) (o : Outside)
  : Proc Outside :=
  mkProc (n_groups n) (wake hg (pool n) <$> n_objs n) (mkWorld (n_heap n) o).

Definition detach (n : Node) (p : Proc Outside) : Node :=
  mkNode (pool n) (groups p) (rest <$> objs p) (heap (world p)).

(** [http.Get] to a node: its [ServeHTTP] runs on the decoded path, and may ask
    further nodes, each at most once.  A panic of the handler ends the
    connection; what it leaves of the node, a key in flight for ever, is not
    part of an outcome, and the node is taken to be as before.  No request of
    the theorems below panics. *)
Fixpoint http_Get (fuel : nat) (u : string) (w : World Outside) : fetch * World Outside :=
  let o := env w in
  let hang := (FetchErr "", mkWorld (heap w) (with_hung o)) in
  match split_url u with
  | None => (FetchErr "unsupported protocol scheme", w)
  | Some (host, raw) =>
      match others o !! host with
      | None => if bool_decide (host ∈ busy o) then hang else (FetchErr "connection refused", w)
      | Some n =>
          match path_unescape raw, fuel with
          | None, _ => (FetchOk 400 [] None, w)
          | Some _, O => hang
          | Some path, S fuel =>
              let o' := mkOutside (delete host (others o)) (host :: busy o) (data o) (hung o) in
              match ServeHTTP Marshal (pool n) path (attach (http_Get fuel) n o') with
              | Ret (r, p) =>
                  let o2 := env (world p) in
                  (FetchOk (StatusCode r) (Body r) None,
                   mkWorld (heap w)
                     (mkOutside (<[host := detach n p]> (others o2)) (busy o) (data o2) (hung o2)))
              | Panic _ => (FetchErr "EOF", w)
              | NoFuel => hang
              end
          end
      end
  end.

(** ** The cluster *)

Record cluster := mkCluster { nodes : gmap string Node; cdata : D }.

(** Runs [f] on the process at [host]; the answer of a request that hangs never
    comes. *)
Definition on_node {A} (host : string) (f : Proc Outside → outcome (A * Proc Outside)) (c : cluster)
  : outcome (A * cluster) :=
  match nodes c !! host with
  | None => Panic "connection refused"
  | Some n =>
      let o := mkOutside (delete host (nodes c)) [host] (cdata c) false in
      let! (a, p) := f (attach (http_Get (size (nodes c))) n o) in
      let o := env (world p) in
      if hung o then NoFuel else Ret (a, mkCluster (<[host := detach n p]> (others o)) (data o))
  end.

(** ** main.go *)

(** The handler of [/api]: the value of [gee.Get(key)], or its error. *)
Definition api_handler (gp : nat) (key : string) (p : Proc Outside) : outcome (response * Proc Outside) :=
  let! (view, err, p) := group_Get gp key p in
  match err with
  | Some e => Ret (http_error e 500, p)
  | None =>
      let '(s, h) := Byteslice view (heap (world p)) in
      Ret (mkResponse 200 (bytes_at h s), mkProc (groups p) (objs p) (mkWorld h (env (world p))))
  end.

Definition api (host : string) (gp : nat) (key : string) : cluster → outcome (response * cluster) :=
  on_node host (api_handler gp key).

(** [createGroup] on a new process. *)
Definition createGroup (gname : string) (bytes : Z) (o : Outside) : outcome (nat * Proc Outside) :=
  NewGroup gname bytes (Some (getter_of gname)) (mkProc ∅ [] (mkWorld [] o)).

(** [createGroup], then [startCacheServer] up to [http.ListenAndServe]. *)
Definition start_node (gname : string) (bytes : Z) (addr : string) (addrs : list string) (o : Outside)
  : outcome Node :=
  let! (gp, p) := createGroup gname bytes o in
  let peers := Set_peers addrs (NewHTTPPool addr) in
  match objs p !! gp with
  | Some g =>
      let! g := RegisterPeers (pool_picker Unmarshal (λ _ w, (FetchErr "", w)) peers) g in
      Ret (mkNode peers (groups p) (rest <$> <[gp := g]> (objs p)) (heap (world p)))
  | None => Panic "invalid memory address or nil pointer dereference"
  end.

(** The processes of a cluster, each with its address and the list of all
    addresses in the order its map of them was ranged over. *)
Fixpoint start_cluster (gname : string) (bytes : Z) (procs : list (string * list string)) (d : D)
  : outcome cluster :=
  match procs with
  | [] => Ret (mkCluster ∅ d)
  | (addr, addrs) :: procs =>
      let! c := start_cluster gname bytes procs d in
      let! host := listen_host addr in
      let! n := start_node gname bytes addr addrs (mkOutside ∅ [] d false) in
      Ret (mkCluster (<[host := n]> (nodes c)) d)
  end.

(** Requests for keys to the API servers of some nodes, one after another. *)
Fixpoint api_requests (reqs : list (string * string)) (c : cluster) : outcome (list response * cluster) :=
  match reqs with
  | [] => Ret ([], c)
  | (host, key) :: reqs =>
      let! (r, c) := api host 0 key c in
      let! (rs, c) := api_requests reqs c in
      Ret (r :: rs, c)
  end.

(** ** Specification *)

(** The response to a request for a key, when [r] is what the source has. *)
Definition answer (key : string) (r : list Z + string) : response :=
  if bool_decide (key = "") then http_error "key is required" 500
  else match r with inl v => mkResponse 200 v | inr e => http_error e 500 end.

(** [ps] are the addresses of the cluster, [gname] is its group, and [f] what
    the source has. *)
Context (f : string → list Z + string) (gname : string) (ps : list string).

Definition owner (key : string) : outcome string :=
  ConsistentHash.Get key (Add ps (ConsistentHash.New defaultReplicas None)).

(** A view that is cached for a key at [addr] has the value of the key, and
    [addr] owns the key. *)
Definition entry_ok (addr : string) (h : Heap) (kv : string * ByteView) : Prop :=
  f kv.1 = inl (bytes_at h (b kv.2)) ∧ slice_ok h (b kv.2) ∧ owner kv.1 = Ret addr.

Record node_ok (addr : string) (n : Node) : Prop := {
  nok_pool : ∃ ps', ps ≡ₚ ps' ∧ pool n = Set_peers ps' (NewHTTPPool addr);
  nok_groups : n_groups n = {[ gname := 0%nat ]};
  nok_objs : ∃ g, n_objs n = [g] ∧ gs_name g = gname ∧ gs_peers g = true ∧
    cache_ok (gs_cache g) ∧ SingleFlight.idle (gs_loader g) ∧
    Forall (entry_ok addr (n_heap n)) (cached (gs_cache g));
}.

(** Every node but those at the hosts in [except] is there and in order. *)
Definition nodes_ok (except : list string) (m : gmap string Node) : Prop :=
  ∀ host, "http://" +:+ host ∈ ps → host ∉ except →
    ∃ n, m !! host = Some n ∧ node_ok ("http://" +:+ host) n.

Definition cluster_ok (c : cluster) : Prop := nodes_ok [] (nodes c).

(** What [Get] gives for a key that the source has as [r]. *)
Definition answers (r : list Z + string) (v : ByteView) (e : error) (h : Heap) : Prop :=
  match r with
  | inl bs => e = None ∧ ByteView_String v h = bs ∧ slice_ok h (b v)
  | inr x => e = Some x
  end.
End Cluster.

(** ** Slices *)

Lemma bytes_at_prefix h h' s : slice_ok h s → h `prefix_of` h' → bytes_at h' s = bytes_at h s.
Proof.
  intros [Hs Hl] [l ->]. unfold bytes_at in *. destruct (h !! ptr s) as [bs|] eqn:E.
  - by rewrite (lookup_app_l_Some _ _ _ _ E).
  - cbn in Hl. rewrite take_nil in Hl. cbn in Hl. replace (slen s) with 0%Z by lia. by rewrite !take_0.
Qed.

Lemma slice_ok_prefix h h' s : slice_ok h s → h `prefix_of` h' → slice_ok h' s.
Proof. intros Hs Hp. pose proof Hs as [? ?]. split; [done|]. by rewrite (bytes_at_prefix h). Qed.

(** ** The owner of a key on its node *)

Section proofs.
Context (Marshal Unmarshal : list Z → list Z + string).
Context {D : Type} (source : string → string → D → (list Z + string) * D).
Context (f : string → list Z + string) (gname : string) (ps : list string).
Context (Hsource : ∀ k d, source gname k d = (f k, d)).
Implicit Types (n : Node) (o : Outside (D := D)).

Abbreviation wakes := (wake Unmarshal source).
Abbreviation node_in_order := (node_ok f gname ps).

Lemma entry_ok_prefix addr h h' kv : entry_ok f ps addr h kv → h `prefix_of` h' → entry_ok f ps addr h' kv.
Proof.
  intros (Hf & Hs & Ho) Hp. split_and!; [|by eapply slice_ok_prefix|done].
  by rewrite (bytes_at_prefix h).
Qed.

Lemma with_data_id o : with_data (data o) o = o.
Proof. by destruct o. Qed.

Lemma rest_wake hg p g : rest (wakes hg p g) = g.
Proof. by destruct g as [? ? [] ?]. Qed.

Lemma getter_value key w bs : f key = inl bs → ∃ s w1,
  getter_of source gname key w = (s, None, w1) ∧ bytes_at (heap w1) s = bs ∧ slice_ok (heap w1) s ∧
  env w1 = env w ∧ heap w `prefix_of` heap w1.
Proof using Hsource.
  intros Hf. unfold getter_of. rewrite Hsource, Hf. do 2 eexists. split; [done|]. cbn.
  assert (bytes_at (heap w ++ [bs])%list (Slice (length (heap w)) (Z.of_nat (length bs))) = bs) as Hb.
  { unfold bytes_at. cbn. rewrite lookup_app_r, Nat.sub_diag by done. cbn. rewrite Nat2Z.id.
    by apply take_ge. }
  split_and!; [done| |apply with_data_id|by eexists]. split; [cbn; lia|]. by rewrite Hb.
Qed.

Lemma getter_error key w e : f key = inr e → ∃ w1,
  getter_of source gname key w = (nil_slice, Some e, w1) ∧ env w1 = env w ∧ heap w1 = heap w.
Proof using Hsource.
  intros Hf. unfold getter_of. rewrite Hsource, Hf. eexists. split_and!; [done|apply with_data_id|done].
Qed.

Lemma group_in_order hg p g : cache_ok (gs_cache g) → SingleFlight.idle (gs_loader g) →
  group_ok (wakes hg p g).
Proof. by split. Qed.

(** A node at [addr] whose group has changed to [g'], on a grown heap. *)
Lemma node_in_order_set addr hg n o g g' h o' :
  node_in_order addr n → n_objs n = [g] → n_heap n `prefix_of` h → gs_peers g = true →
  group_ok g' → same_group (wakes hg (pool n) g) g' →
  Forall (entry_ok f ps addr h) (cached (mainCache g')) →
  node_in_order addr (detach n (mkProc (n_groups n) (<[0%nat := g']> (objs (attach Unmarshal source hg n o)))
                                 (mkWorld h o'))).
Proof.
  intros [Hpool Hgr (g0 & Hobjs & Hname & _ & _)] Hn Hh Hpe [Hc Hl] (Hn' & _ & Hp') Hall.
  split; [done|done|]. rewrite Hn in Hobjs. simplify_eq. unfold detach, attach. cbn. rewrite Hn. cbn.
  eexists. split; [done|]. cbn. split_and!; [done| |done|done|done].
  rewrite Hp'. cbn. by rewrite Hpe.
Qed.

Lemma attached_group hg n o g : n_objs n = [g] →
  objs (attach Unmarshal source hg n o) !! 0%nat = Some (wakes hg (pool n) g).
Proof. intros H. cbn. by rewrite H. Qed.

(** The node that owns a key answers it from its cache or from the source. *)
Lemma own_Get hg addr n o key : node_in_order addr n → key ≠ "" →
  owner ps key = Ret addr → PickPeer (pool n) key = Ret None → ∃ v e p',
  group_Get 0 key (attach Unmarshal source hg n o) = Ret (v, e, p') ∧
  answers (f key) v e (heap (world p')) ∧ env (world p') = o ∧ groups p' = n_groups n ∧
  node_in_order addr (detach n p').
Proof using Hsource.
  intros Hn Hk Ho Hpick. pose proof Hn as [_ _ (g & Hobjs & Hname & Hpe & Hc & Hl & Hall)].
  unfold group_Get. rewrite (attached_group hg n o g Hobjs).
  set (w := mkWorld (n_heap n) o). pose proof (group_in_order hg (pool n) g Hc Hl) as Hg.
  change (world (attach Unmarshal source hg n o)) with w.
  destruct (Lru.abs_find key (cached (gs_cache g))) as [v|] eqn:Hf.
  - destruct (Get_hit (wakes hg (pool n) g) key w v Hg Hk Hf) as (g' & -> & Hg' & Hsame & Hcd). cbn [obind].
    assert (entry_ok f ps addr (n_heap n) (key, v)) as (Hfk & Hsl & _)
      by (eapply Forall_forall; [done|by apply Lru.abs_find_elem]).
    do 3 eexists. split; [done|]. cbn in Hfk. rewrite Hfk. split_and!; [done|done|done|].
    apply (node_in_order_set addr hg n o g); try done.
    rewrite Hcd. apply Forall_forall. intros kv Hkv%Lru.abs_get_subseteq. by eapply Forall_forall.
  - assert (asks_getter (wakes hg (pool n) g) key w w) as Hask.
    { eapply ask_own_key; [cbn; by rewrite Hpe|]. unfold pool_picker. by rewrite Hpick. }
    destruct (f key) as [bs|e] eqn:Hfk.
    + destruct (getter_value key w bs Hfk) as (s & w2 & Hget & Hbs & Hs & He2 & Hp2).
      destruct (Get_loads (wakes hg (pool n) g) key w w s w2 Hg Hk Hf Hask) as
        (v & g' & [h' o'] & -> & Hv & Hvok & He' & Hp' & Hg' & Hsame & Hsub & _); [by cbn; rewrite Hname|done|].
      cbn [obind heap env] in *. do 3 eexists. split; [done|]. cbn [world env]. split_and!;
        [by rewrite <- Hbs, <- Hv|by rewrite He', He2|done|].
      apply (node_in_order_set addr hg n o g); try done; [by etrans|].
      apply Forall_forall. intros kv [->|Hkv]%Hsub%elem_of_cons.
      * split_and!; cbn; [by rewrite Hfk, <- Hbs, <- Hv|done|done].
      * eapply entry_ok_prefix; [by eapply Forall_forall|by etrans].
    + destruct (getter_error key w e Hfk) as ([h2 o2] & Hget & He2 & Hh2).
      cbn [heap env] in He2, Hh2.
      destruct (Get_fails (wakes hg (pool n) g) key w w nil_slice e (mkWorld h2 o2) Hg Hk Hf Hask) as
        (g' & -> & Hcd & Hg' & Hsame); [by cbn; rewrite Hname|].
      cbn [obind]. do 3 eexists. split; [done|]. cbn [world env]. split_and!; [done|by rewrite He2|done|].
      apply (node_in_order_set addr hg n o g); try done; [by rewrite Hh2|].
      by rewrite Hcd, Hh2.
Qed.

(** ** Asking the owner *)

Context (Hmarshal : ∀ x, ∃ y, Marshal x = inl y ∧ Unmarshal y = inl x).
Context (Hgslash : contains "/" gname = false) (Hgspace : contains " " gname = false).

Lemma split_url_node host path : contains "/" host = false →
  split_url (("http://" +:+ host) +:+ String "/" path) = Some (host, String "/" path).
Proof.
  intros Hh. unfold split_url. rewrite str_app_assoc, strip_prefix_app. by rewrite cut_app.
Qed.

Lemma node_in_order_prefix addr n (p : Proc (Outside (D := D))) h : node_in_order addr (detach n p) → heap (world p) `prefix_of` h →
  node_in_order addr (detach n (mkProc (groups p) (objs p) (mkWorld h (env (world p))))).
Proof.
  intros [Hpool Hgr (g & Hobjs & Hname & Hpe & Hc & Hl & Hall)] Hp. split; [done|done|].
  exists g. split_and!; try done. eapply Forall_impl; [done|]. intros kv Hkv. by eapply entry_ok_prefix.
Qed.

(** A request over HTTP to the owner of a key: the answer is what the source
    has, and only the owner has changed. *)
Lemma peer_Get fuel host n key (w : World (Outside (D := D))) :
  let addr := "http://" +:+ host in
  contains "/" host = false → others (env w) !! host = Some n → node_in_order addr n →
  key ≠ "" → contains " " key = false → owner ps key = Ret addr → PickPeer (pool n) key = Ret None →
  ∃ err s w' n',
    httpGetter_Get Unmarshal (http_Get Marshal Unmarshal source (S fuel)) (mkGetter (addr +:+ defaultBasePath))
      gname key w = (err, s, w') ∧
    env w' = mkOutside (<[host := n']> (others (env w))) (busy (env w)) (data (env w)) (hung (env w)) ∧
    node_in_order addr n' ∧ heap w `prefix_of` heap w' ∧
    match f key with
    | inl bs => err = None ∧ bytes_at (heap w') s = bs ∧ slice_ok (heap w') s
    | inr _ => is_Some err
    end.
Proof using Hsource Hmarshal Hgslash Hgspace.
  intros addr Hslash Hn Hok Hk Hks Ho Hpick. subst addr.
  set (o' := mkOutside (delete host (others (env w))) (host :: busy (env w)) (data (env w)) (hung (env w))).
  set (hg := http_Get Marshal Unmarshal source fuel).
  destruct (own_Get hg _ n o' key Hok Hk Ho Hpick) as (v & e & p' & Hget & Ha & He & Hgr & Hn').
  pose proof Hok as [(ps' & _ & Hpool) Hgroups _].
  assert (GetGroup gname (attach Unmarshal source hg n o') = Some 0%nat) as Hgg.
  { unfold GetGroup. cbn. rewrite Hgroups. apply lookup_singleton_eq. }
  assert (basePath (pool n) = defaultBasePath) as Hbp by (by rewrite Hpool).
  set (u := ("http://" +:+ host) +:+ defaultBasePath).
  assert (∀ r p1, ServeHTTP Marshal (pool n) (defaultBasePath +:+ gname +:+ "/" +:+ key)
                    (attach Unmarshal source hg n o') = Ret (r, p1) → env (world p1) = o' →
    http_Get Marshal Unmarshal source (S fuel) (u +:+ QueryEscape gname +:+ "/" +:+ QueryEscape key) w =
      (FetchOk (StatusCode r) (Body r) None,
       mkWorld (heap w) (mkOutside (<[host := detach n p1]> (others (env w))) (busy (env w))
                           (data (env w)) (hung (env w))))) as Hfetch.
  { intros r p1 Hs Hp1. unfold u. rewrite str_app_assoc.
    change (defaultBasePath +:+ QueryEscape gname +:+ "/" +:+ QueryEscape key) with
      (String "/" ("_geecache/" +:+ QueryEscape gname +:+ "/" +:+ QueryEscape key)).
    cbn [http_Get]. rewrite split_url_node by done. rewrite Hn.
    change (String "/" ("_geecache/" +:+ QueryEscape gname +:+ "/" +:+ QueryEscape key)) with
      (defaultBasePath +:+ QueryEscape gname +:+ "/" +:+ QueryEscape key).
    rewrite wire_path, !space_to_plus_id by done. fold hg o'. rewrite Hs, Hp1. cbn.
    by rewrite insert_delete_eq. }
  unfold answers in Ha. destruct (f key) as [bs|e0] eqn:Hfk.
  - destruct Ha as (-> & Hbs & Hsl). destruct (Hmarshal bs) as (body & Hm & Hu).
    destruct (ServeHTTP_value Marshal (pool n) (attach Unmarshal source hg n o') gname key 0%nat v p' body)
      as (h & Hs & Hpre); [done..|by rewrite Hbs|].
    destruct (httpGetter_Get_ok Unmarshal (http_Get Marshal Unmarshal source (S fuel)) (mkGetter u) gname key
      w body _ bs (Hfetch _ _ Hs He) Hu) as (s & h' & Hg & Hb & Hso & Hpre').
    exists None, s. rewrite Hg. do 2 eexists. split_and!; [done|done| |done|done|done|done].
    by apply node_in_order_prefix.
  - subst e. pose proof (ServeHTTP_error Marshal (pool n) (attach Unmarshal source hg n o') gname key 0%nat v
      e0 p' Hbp Hgslash Hgg Hget) as Hs.
    unfold httpGetter_Get. unfold request_url. cbn [baseURL]. rewrite (Hfetch _ _ Hs He). cbn.
    do 4 eexists. split_and!; [done|done|done|done|by eexists].
Qed.

(** ** Any node *)

Context (Haddrs : ∀ a, a ∈ ps → ∃ host, a = "http://" +:+ host ∧ contains "/" host = false).
Context (Hsize : (50 * Z.of_nat (length ps) < 2 ^ 63)%Z)
  (Hring : no_collision (ConsistentHash.New defaultReplicas None) ps).
Abbreviation good_nodes := (nodes_ok f gname ps).

Lemma owner_host key : ps ≠ [] → ∃ host, owner ps key = Ret ("http://" +:+ host) ∧
  "http://" +:+ host ∈ ps ∧ contains "/" host = false ∧
  ∀ ps' node, ps ≡ₚ ps' → PickPeer (Set_peers ps' (NewHTTPPool node)) key =
    Ret (if bool_decide (node = "http://" +:+ host) then None
         else Some (Some (mkGetter (("http://" +:+ host) +:+ defaultBasePath)))).
Proof using Haddrs Hsize Hring.
  intros Hne. destruct (ring_node ps key Hsize) as (ow & Hg & _ & Hin). specialize (Hin Hne).
  destruct (Haddrs ow Hin) as (host & -> & Hs). exists host. split_and!; [done|done|done|].
  intros ps' node Hp. by apply (PickPeer_owner ps).
Qed.

Lemma nodes_ok_insert except host n m : good_nodes except m → node_in_order ("http://" +:+ host) n →
  good_nodes except (<[host := n]> m).
Proof.
  intros Hm Hn h Hin Hex. destruct (decide (host = h)) as [->|Hne].
  - exists n. by rewrite lookup_insert_eq.
  - rewrite lookup_insert_ne by done. by apply Hm.
Qed.

(** A node that does not own a key asks the owner, and falls back on the source
    only to fail as the owner did. *)
Lemma forwarded_Get fuel host ow n n2 key (o : Outside (D := D)) :
  let hg := http_Get Marshal Unmarshal source (S fuel) in
  node_in_order ("http://" +:+ host) n → good_nodes [host] (others o) →
  others o !! ow = Some n2 → node_in_order ("http://" +:+ ow) n2 → contains "/" ow = false →
  key ≠ "" → contains " " key = false → owner ps key = Ret ("http://" +:+ ow) → host ≠ ow →
  PickPeer (pool n) key = Ret (Some (Some (mkGetter (("http://" +:+ ow) +:+ defaultBasePath)))) →
  PickPeer (pool n2) key = Ret None → ∃ v e p',
  group_Get 0 key (attach Unmarshal source hg n o) = Ret (v, e, p') ∧
  answers (f key) v e (heap (world p')) ∧ hung (env (world p')) = hung o ∧
  data (env (world p')) = data o ∧ good_nodes [host] (others (env (world p'))) ∧
  node_in_order ("http://" +:+ host) (detach n p').
Proof using Hsource Hmarshal Hgslash Hgspace.
  intros hg Hn Ho Hn2 Hok2 Hslash Hk Hks How Hown Hp1 Hp2.
  pose proof Hn as [_ _ (g & Hobjs & Hname & Hpe & Hc & Hl & Hall)].
  set (w := mkWorld (n_heap n) o). pose proof (group_in_order hg (pool n) g Hc Hl) as Hg.
  destruct (peer_Get fuel ow n2 key w Hslash Hn2 Hok2 Hk Hks How Hp2)
    as (err & s & [h1 o1] & n2' & Hget & Henv & Hn2' & Hpre & Hres). cbn [heap env] in *. subst o1.
  set (o1 := mkOutside _ _ _ _) in *. fold hg in Hget.
  assert (good_nodes [host] (others o1)) as Ho1 by by apply nodes_ok_insert.
  assert (Lru.abs_find key (cached (gs_cache g)) = None) as Hmiss.
  { destruct (Lru.abs_find key (cached (gs_cache g))) as [v|] eqn:E; [|done].
    apply Lru.abs_find_elem in E. rewrite Forall_forall in Hall. apply Hall in E as (_ & _ & E). cbn in E.
    rewrite How in E. destruct Hown. by injection E. }
  assert (peers (wakes hg (pool n) g) = Some (pool_picker Unmarshal hg (pool n))) as Hpeers
    by (cbn; by rewrite Hpe).
  assert (pool_picker Unmarshal hg (pool n) key = Ret (Some (httpGetter_Get Unmarshal hg
    (mkGetter (("http://" +:+ ow) +:+ defaultBasePath))))) as Hpk by (unfold pool_picker; by rewrite Hp1).
  unfold group_Get. rewrite (attached_group hg n o g Hobjs).
  change (world (attach Unmarshal source hg n o)) with w.
  assert (∀ h, heap w `prefix_of` h → Forall (entry_ok f ps ("http://" +:+ host) h) (cached (gs_cache g))) as Hall'
    by (intros h Hh; eapply Forall_impl; [done|]; intros kv Hkv; by eapply entry_ok_prefix).
  destruct (f key) as [bs|e0] eqn:Hfk.
  - destruct Hres as (-> & Hb & Hs). edestruct (Get_fetches (wakes hg (pool n) g) key w) as (g' & -> & Hcd & Hg' & Hsame);
      [done|done|done|done|done|cbn; by rewrite Hname|].
    cbn [obind]. do 3 eexists. split; [done|]. cbn [world env]. split_and!; [done|done|done|done|].
    apply (node_in_order_set _ hg n o g); try done. rewrite Hcd. by apply Hall'.
  - destruct Hres as [ee ->]. destruct (getter_error key (mkWorld h1 o1) e0 Hfk) as ([h2 o2] & Hgt & He2 & Hh2).
    cbn [heap env] in He2, Hh2. subst h2 o2.
    destruct (Get_fails (wakes hg (pool n) g) key w (mkWorld h1 o1) nil_slice e0 (mkWorld h1 o1) Hg Hk Hmiss)
      as (g' & -> & Hcd & Hg' & Hsame).
    { eapply ask_failed; [done|done|]. cbn. by rewrite Hname. }
    { cbn. by rewrite Hname. }
    cbn [obind]. do 3 eexists. split; [done|]. cbn [world env]. split_and!; [done|done|done|done|].
    apply (node_in_order_set _ hg n o g); try done. rewrite Hcd. by apply Hall'.
Qed.

Lemma node_Get fuel host n key (o : Outside (D := D)) :
  "http://" +:+ host ∈ ps → node_in_order ("http://" +:+ host) n → good_nodes [host] (others o) →
  key ≠ "" → contains " " key = false → ∃ v e p',
  group_Get 0 key (attach Unmarshal source (http_Get Marshal Unmarshal source (S fuel)) n o)
    = Ret (v, e, p') ∧
  answers (f key) v e (heap (world p')) ∧ hung (env (world p')) = hung o ∧
  data (env (world p')) = data o ∧ good_nodes [host] (others (env (world p'))) ∧
  node_in_order ("http://" +:+ host) (detach n p').
Proof using Hsource Hmarshal Hgslash Hgspace Haddrs Hsize Hring.
  intros Hin Hn Ho Hk Hks. pose proof Hn as [(ps' & Hperm & Hpool) _ _].
  destruct (owner_host key) as (ow & How & Howin & Hslash & Hpick); [by intros E; rewrite E in Hin; apply elem_of_nil in Hin|].
  pose proof (Hpick ps' ("http://" +:+ host) Hperm) as Hp1. rewrite <- Hpool in Hp1.
  case_bool_decide as Hown.
  { rewrite <- Hown in How.
    destruct (own_Get (http_Get Marshal Unmarshal source (S fuel)) _ n o key Hn Hk How Hp1)
      as (v & e & p' & H & Ha & He & _ & Hn').
    exists v, e, p'. rewrite He. by split_and!. }
  assert (host ≠ ow) as Hne by (by intros ->).
  destruct (Ho ow Howin) as (n2 & Hn2 & Hok2); [set_solver|].
  pose proof Hok2 as [(ps2 & Hperm2 & Hpool2) _ _].
  pose proof (Hpick ps2 ("http://" +:+ ow) Hperm2) as Hp2.
  rewrite <- Hpool2, bool_decide_eq_true_2 in Hp2 by done. by eapply forwarded_Get.
Qed.

(** The empty key is refused before anything else happens. *)
Lemma empty_Get hg addr n (o : Outside (D := D)) : node_in_order addr n → ∃ p',
  group_Get 0 "" (attach Unmarshal source hg n o) = Ret (zero_view, Some "key is required", p') ∧
  env (world p') = o ∧ node_in_order addr (detach n p').
Proof.
  intros Hn. pose proof Hn as [_ _ (g & Hobjs & Hname & Hpe & Hc & Hl & Hall)].
  unfold group_Get. rewrite (attached_group hg n o g Hobjs). cbn. eexists. split_and!; [done|done|].
  by apply (node_in_order_set addr hg n o g).
Qed.

(** ** The API *)

Lemma nodes_ok_whole host n m : good_nodes [host] m → node_in_order ("http://" +:+ host) n →
  good_nodes [] (<[host := n]> m).
Proof.
  intros Hm Hn h Hin _. destruct (decide (host = h)) as [->|Hne].
  - exists n. by rewrite lookup_insert_eq.
  - rewrite lookup_insert_ne by done. apply Hm; set_solver.
Qed.

Lemma api_handler_ok addr n (p : Proc Outside) key v e p' r :
  group_Get 0 key p = Ret (v, e, p') → answers r v e (heap (world p')) →
  node_in_order addr (detach n p') → ∃ p2,
  api_handler (D := D) 0 key p = Ret (match r with inl bs => mkResponse 200 bs | inr x => http_error x 500 end, p2) ∧
  env (world p2) = env (world p') ∧ node_in_order addr (detach n p2).
Proof.
  intros Hg Ha Hn. unfold api_handler. rewrite Hg. cbn [obind]. destruct r as [bs|x].
  - destruct Ha as (-> & Hbs & Hs). pose proof (cloneBytes_ok _ _ Hs) as Hc. unfold Byteslice.
    destruct (cloneBytes (b v) (heap (world p'))) as [s h]. destruct Hc as (Hb & _ & _ & Hp & _).
    eexists. split; [by rewrite Hb, <- Hbs|]. split; [done|]. by apply node_in_order_prefix.
  - cbn in Ha. subst e. by exists p'.
Qed.

Lemma api_ok host key c : cluster_ok f gname ps c → "http://" +:+ host ∈ ps → contains " " key = false →
  ∃ c', api Marshal Unmarshal source host 0 key c = Ret (answer key (f key), c') ∧ cluster_ok f gname ps c'.
Proof using Hsource Hmarshal Hgslash Hgspace Haddrs Hsize Hring.
  intros Hc Hin Hks. destruct (Hc host Hin) as (n & Hn & Hok); [set_solver|].
  unfold api, on_node. rewrite Hn. destruct (size (nodes c)) as [|k] eqn:Ek.
  { apply map_size_empty_inv in Ek. rewrite Ek in Hn. by rewrite lookup_empty in Hn. }
  set (o := mkOutside (delete host (nodes c)) [host] (cdata c) false).
  assert (good_nodes [host] (others o)) as Ho.
  { intros h Hh Hne. cbn. rewrite lookup_delete_ne by set_solver. apply Hc; set_solver. }
  unfold answer. case_bool_decide as Hk.
  - subst key. destruct (empty_Get (http_Get Marshal Unmarshal source (S k)) _ n o Hok) as (p' & Hg & He & Hn').
    unfold api_handler. rewrite Hg. cbn [obind]. rewrite He. cbn [hung o]. eexists. split; [done|].
    by apply nodes_ok_whole.
  - destruct (node_Get k host n key o Hin Hok Ho Hk Hks) as (v & e & p' & Hg & Ha & Hh & Hd & Hot & Hn').
    destruct (api_handler_ok ("http://" +:+ host) n _ key v e p' (f key) Hg Ha Hn') as (p2 & -> & He & Hn2).
    cbn [obind]. rewrite He, Hh. cbn [hung o]. eexists. split; [done|]. by apply nodes_ok_whole.
Qed.

Lemma api_requests_ok reqs c : cluster_ok f gname ps c →
  Forall (λ '(host, key), "http://" +:+ host ∈ ps ∧ contains " " key = false) reqs →
  ∃ c', api_requests Marshal Unmarshal source reqs c = Ret ((λ '(host, key), answer key (f key)) <$> reqs, c') ∧
    cluster_ok f gname ps c'.
Proof using Hsource Hmarshal Hgslash Hgspace Haddrs Hsize Hring.
  intros Hc Hr. revert c Hc. induction Hr as [|[host key] reqs [Hin Hks] Hr IH]; intros c Hc; [by exists c|].
  cbn [api_requests]. destruct (api_ok host key c Hc Hin Hks) as (c1 & -> & Hc1). cbn [obind].
  destruct (IH c1 Hc1) as (c2 & -> & Hc2). by exists c2.
Qed.

(** ** Starting *)

Lemma substring_all s : String.substring 0 (String.length s) s = s.
Proof. induction s as [|a s IH]; [done|]. cbn. by rewrite IH. Qed.

Lemma listen_host_addr host : listen_host ("http://" +:+ host) = Ret host.
Proof.
  unfold listen_host.
  change (String.length ("http://" +:+ host)) with (7 + String.length host)%nat.
  rewrite bool_decide_eq_false_2 by lia. replace (7 + String.length host - 7)%nat with (String.length host) by lia.
  change (Ret (String.substring 0 (String.length host) host) = Ret host). by rewrite substring_all.
Qed.

Lemma start_node_ok bytes addr addrs (o : Outside (D := D)) : (0 ≤ bytes)%Z → ps ≡ₚ addrs → ∃ n,
  start_node Unmarshal source gname bytes addr addrs o = Ret n ∧ node_in_order addr n.
Proof.
  intros Hb Hp. unfold start_node, createGroup, NewGroup. cbn. eexists. split; [done|].
  split; [by eexists|done|]. cbn. eexists. split; [done|]. cbn. split_and!; done.
Qed.

Lemma start_cluster_ok bytes procs d : (0 ≤ bytes)%Z →
  Forall (λ '(addr, addrs), ps ≡ₚ addrs ∧ ∃ host, addr = "http://" +:+ host) procs → ∃ c,
  start_cluster Unmarshal source gname bytes procs d = Ret c ∧
  ∀ host, "http://" +:+ host ∈ procs.*1 →
    ∃ n, nodes c !! host = Some n ∧ node_in_order ("http://" +:+ host) n.
Proof.
  intros Hb Hp. induction Hp as [|[addr addrs] procs [Hperm [host ->]] Hp IH].
  { eexists. split; [done|]. intros host Hin. by apply elem_of_nil in Hin. }
  destruct IH as (c & Hc & Hnodes). cbn [start_cluster]. rewrite Hc. cbn [obind].
  rewrite listen_host_addr. cbn [obind].
  destruct (start_node_ok bytes ("http://" +:+ host) addrs (mkOutside ∅ [] d false) Hb Hperm) as (n & -> & Hn).
  cbn [obind]. eexists. split; [done|]. cbn [nodes fmap list_fmap fst]. intros h Hin.
  destruct (decide (host = h)) as [->|Hne]; [exists n; by rewrite lookup_insert_eq|].
  rewrite lookup_insert_ne by done. apply Hnodes. apply elem_of_cons in Hin as [Hin|Hin]; [|done].
  destruct Hne. by injection Hin.
Qed.

(** Everything the cluster can be after it was started on [ps]. *)
Lemma cluster_run bytes procs d reqs :
  (0 ≤ bytes)%Z → procs.*1 = ps → Forall (λ p, ps ≡ₚ p.2) procs →
  Forall (λ '(host, key), "http://" +:+ host ∈ ps ∧ contains " " key = false) reqs →
  ∃ c c', start_cluster Unmarshal source gname bytes procs d = Ret c ∧
    api_requests Marshal Unmarshal source reqs c =
      Ret ((λ '(host, key), answer key (f key)) <$> reqs, c') ∧ cluster_ok f gname ps c'.
Proof using Hsource Hmarshal Hgslash Hgspace Haddrs Hsize Hring.
  intros Hb Hps Hperm Hreqs. destruct (start_cluster_ok bytes procs d Hb) as (c & Hc & Hnodes).
  { rewrite Forall_forall in Hperm |- *. intros [addr addrs] Hin. split; [by apply (Hperm _ Hin)|].
    destruct (Haddrs addr) as (host & Hh & _); [|by exists host].
    rewrite <- Hps. by apply (list_elem_of_fmap_2 fst _ (addr, addrs)). }
  destruct (api_requests_ok reqs c) as (c' & Hc' & Hok); [|done|by exists c, c'].
  intros host Hin _. apply Hnodes. by rewrite Hps.
Qed.

(** ** Properties *)

(** C1: a cluster is its data source.  Started on any list of addresses, each
    process with the list in an order of its own, the cluster answers every
    sequence of requests, whichever node each is sent to: a request for a key
    returns the value or the error that the source has for it, through
    caching, eviction, the choice of the owner and the hop over HTTP, and
    always terminates.

    Required: the answers of the source do not change; no key of a request holds
    a space, which the HTTP client would turn into a plus sign, so that the
    owner is asked for another key ([HttpPool.remote_Get_space_lost]); no two
    virtual nodes of different addresses have the same hash, since the
    processes list the addresses in orders of their own; the name of the group
    has no slash and no space, and hosts have no slash; the byte budget is not
    negative; there are fewer than 2^63 virtual nodes; and protobuf decodes
    what it encodes. *)
Theorem cluster_is_source bytes procs d reqs :
  (0 ≤ bytes)%Z → procs.*1 = ps → Forall (λ p, ps ≡ₚ p.2) procs →
  Forall (λ '(host, key), "http://" +:+ host ∈ ps ∧ contains " " key = false) reqs →
  ∃ c c', start_cluster Unmarshal source gname bytes procs d = Ret c ∧
    api_requests Marshal Unmarshal source reqs c =
      Ret ((λ '(host, key), answer key (f key)) <$> reqs, c').
Proof using Hsource Hmarshal Hgslash Hgspace Haddrs Hsize Hring.
  intros Hb Hps Hperm Hreqs. destruct (cluster_run bytes procs d reqs) as (c & c' & Hc & Hr & _); [done..|].
  by exists c, c'.
Qed.

(** Wherever the requests were sent, afterwards a key is cached nowhere but on
    the node that owns it, and what is cached is what the source has. *)
Theorem only_owner_caches bytes procs d reqs c rs c' host n g k v :
  (0 ≤ bytes)%Z → procs.*1 = ps → Forall (λ p, ps ≡ₚ p.2) procs →
  Forall (λ '(host, key), "http://" +:+ host ∈ ps ∧ contains " " key = false) reqs →
  start_cluster Unmarshal source gname bytes procs d = Ret c →
  api_requests Marshal Unmarshal source reqs c = Ret (rs, c') →
  "http://" +:+ host ∈ ps → nodes c' !! host = Some n → g ∈ n_objs n → (k, v) ∈ cached (gs_cache g) →
  owner ps k = Ret ("http://" +:+ host) ∧ f k = inl (ByteView_String v (n_heap n)).
Proof using Hsource Hmarshal Hgslash Hgspace Haddrs Hsize Hring.
  intros Hb Hps Hperm Hreqs Hs Hr Hin Hn Hg Hkv.
  destruct (cluster_run bytes procs d reqs) as (c1 & c2 & Hs1 & Hr1 & Hok); [done..|].
  rewrite Hs in Hs1. injection Hs1 as <-. rewrite Hr in Hr1. injection Hr1 as _ <-.
  destruct (Hok host Hin) as (n1 & Hn1 & [_ _ (g1 & Hobjs & _ & _ & _ & _ & Hall)]); [set_solver|].
  rewrite Hn in Hn1. injection Hn1 as <-. rewrite Hobjs in Hg. apply list_elem_of_singleton in Hg as ->.
  rewrite Forall_forall in Hall. apply Hall in Hkv as (Hf & _ & Ho). done.
Qed.
End proofs.

(** ** The demonstration program *)

Definition db : gmap string (list Z) :=
  {[ "Tom" := bytes_of "630"; "Jack" := bytes_of "589"; "Sam" := bytes_of "567" ]}.

Definition db_get (key : string) : list Z + string :=
  match db !! key with Some v => inl v | None => inr (key +:+ " not exist") end.

(** The getter that [createGroup] of main.go makes; no state of its own. *)
Definition SlowDB (_ key : string) (d : unit) : (list Z + string) * unit := (db_get key, d).

Definition addrs : list string :=
  ["http://localhost:8001"; "http://localhost:8002"; "http://localhost:8003"].

Definition addrMap : gmap Z string :=
  {[ 8001 := "http://localhost:8001"; 8002 := "http://localhost:8002"; 8003 := "http://localhost:8003" ]}%Z.

(** [main] for the flag [-port], up to [http.ListenAndServe]: the host it
    listens on, and the node.  A port that is not in [addrMap] has the address
    "".  [order] is the order in which [addrMap] is visited. *)
Definition main (Unmarshal : list Z → list Z + string) (order : list string → list string) (port : Z)
  : outcome (string * Node) :=
  let addr := default "" (addrMap !! port) in
  let! n := start_node Unmarshal SlowDB "scores" 2048 addr (order (map_to_list addrMap).*2)
    (mkOutside ∅ [] tt false) in
  let! host := listen_host addr in
  Ret (host, n).

Definition demo_procs : list (string * list string) := (λ a, (a, reverse addrs)) <$> addrs.

(** A stand-in for the protobuf library: a tag before the bytes. *)
Definition tag_marshal (v : list Z) : list Z + string := inl (10%Z :: v).
Definition tag_unmarshal (m : list Z) : list Z + string :=
  match m with _ :: v => inl v | [] => inr "malformed" end.

Definition demo_reqs : list (string * string) :=
  [("localhost:8001", "Tom"); ("localhost:8002", "Tom"); ("localhost:8003", "Tom"); ("localhost:8001", "Tom");
   ("localhost:8001", "Bob"); ("localhost:8002", "")].

Example main_8002 : (λ x, (x.1, self (pool x.2))) <$>
  (match main tag_unmarshal reverse 8002 with Ret x => Some x | _ => None end) =
  Some ("localhost:8002", "http://localhost:8002").
Proof. vm_compute. reflexivity. Qed.

(** A port without an address is not refused: the slice of the empty address
    panics. *)
Example main_8004 : main tag_unmarshal reverse 8004 = Panic "slice bounds out of range".
Proof. vm_compute. reflexivity. Qed.

Lemma demo_addrs a : a ∈ addrs → ∃ host, a = "http://" +:+ host ∧ contains "/" host = false.
Proof.
  unfold addrs. intros [->|Ha]%elem_of_cons; [by exists "localhost:8001"|].
  apply elem_of_cons in Ha as [->|Ha]; [by exists "localhost:8002"|].
  apply list_elem_of_singleton in Ha as ->. by exists "localhost:8003".
Qed.

Lemma demo_ring : no_collision (ConsistentHash.New defaultReplicas None) addrs.
Proof. apply NoDup_no_collision. apply (bool_decide_eq_true_1 (NoDup _)). vm_compute. reflexivity. Qed.

Lemma tag_law x : ∃ y, tag_marshal x = inl y ∧ tag_unmarshal y = inl x.
Proof. by eexists. Qed.

Lemma demo_orders : Forall (λ p, addrs ≡ₚ p.2) demo_procs.
Proof.
  unfold demo_procs. apply Forall_fmap, Forall_true. intros a.
  change (addrs ≡ₚ reverse addrs). symmetry. apply reverse_Permutation.
Qed.

Lemma demo_reqs_ok :
  Forall (λ '(host, key), "http://" +:+ host ∈ addrs ∧ contains " " key = false) demo_reqs.
Proof.
  unfold demo_reqs. repeat (apply Forall_cons; split; [split; [set_solver|reflexivity]|]). by constructor.
Qed.

Lemma cluster_is_source_witness : ∃ c c',
  start_cluster tag_unmarshal SlowDB "scores" 2048 demo_procs tt = Ret c ∧
  api_requests tag_marshal tag_unmarshal SlowDB demo_reqs c =
    Ret ((λ '(host, key), answer key (db_get key)) <$> demo_reqs, c').
Proof.
  apply (cluster_is_source tag_marshal tag_unmarshal SlowDB db_get "scores" addrs
    (λ _ _, eq_refl) tag_law eq_refl eq_refl demo_addrs eq_refl demo_ring 2048 demo_procs tt demo_reqs).
  - lia.
  - reflexivity.
  - apply demo_orders.
  - apply demo_reqs_ok.
Defined.

Lemma only_owner_caches_witness : ∃ c rs c',
  start_cluster tag_unmarshal SlowDB "scores" 2048 demo_procs tt = Ret c ∧
  api_requests tag_marshal tag_unmarshal SlowDB demo_reqs c = Ret (rs, c') ∧
  ∀ n g k v, nodes c' !! "localhost:8001" = Some n → g ∈ n_objs n → (k, v) ∈ cached (gs_cache g) →
    owner addrs k = Ret "http://localhost:8001" ∧ db_get k = inl (ByteView_String v (n_heap n)).
Proof.
  destruct (cluster_run tag_marshal tag_unmarshal SlowDB db_get "scores" addrs
    (λ _ _, eq_refl) tag_law eq_refl eq_refl demo_addrs eq_refl demo_ring 2048 demo_procs tt demo_reqs
    ltac:(lia) eq_refl demo_orders demo_reqs_ok) as (c & c' & Hs & Hr & _).
  exists c. eexists. exists c'. split; [exact Hs|]. split; [exact Hr|]. intros n g k v.
  apply (only_owner_caches tag_marshal tag_unmarshal SlowDB db_get "scores" addrs
    (λ _ _, eq_refl) tag_law eq_refl eq_refl demo_addrs eq_refl demo_ring 2048 demo_procs tt demo_reqs c _ c'
    "localhost:8001" n g k v ltac:(lia) eq_refl demo_orders demo_reqs_ok Hs Hr).
  by left.
Defined.

(** The model runs: three nodes, the first of which owns "Tom" and is the only
    one to cache it. *)
Example demo_cluster :
  (let! c := start_cluster tag_unmarshal SlowDB "scores" 2048 demo_procs tt in
   let! (rs, c) := api_requests tag_marshal tag_unmarshal SlowDB demo_reqs c in
   Ret (StatusCode <$> rs, Body <$> head rs,
        (λ n, (λ g, (cached (gs_cache g)).*1) <$> n_objs n) <$>
          omap (λ h, nodes c !! h) ["localhost:8001"; "localhost:8002"; "localhost:8003"])) =
  Ret ([200; 200; 200; 200; 500; 500]%Z, Some [54; 51; 48]%Z, [[["Tom"]]; [[]]; [[]]]).
Proof. vm_compute. reflexivity. Qed.
