(* ===== verification/ClusterRun.v ===== *)
(** * geecache: a cluster under concurrent requests

    Puts the groups of [GroupRun.v] on the nodes of [src/geecache/main/main.go]:
    any number of requests run on every node at the same time, and a goroutine
    that asks the owner of its key does so with a request that arrives there as
    a new goroutine of [ServeHTTP], is answered when that goroutine is back from
    [Get], and may fail at any moment. *)

From S2P Require Import Prelude GoStrings ConsistentHash Lru SingleFlight GeeCache GroupRun HttpPool Cluster.

#[local] Open Scope string_scope.

Section ClusterRun.
Context (Marshal Unmarshal : list Z → list Z + string) {E : Type}.

(** ** State *)

(** A process: where it listens, its pool and its group. *)
Record site := mkSite { host : string; s_pool : HTTPPool; sys : gsys E }.

(** [sent] has, for a goroutine that asks another node, the goroutine that
    serves its request, each by its node and its position there. *)
Record csys := mkCsys { sites : list site; sent : gmap (nat * nat) (nat * nat) }.

(** A step of the node [i] on its own, which for a goroutine that asks another
    node is that its request fails; the request of its goroutine [t] arrives;
    the answer to it arrives. *)
Inductive caction := CRun (i : nat) (a : gaction E) | CSend (i t : nat) | CReply (i t : nat).

Definition set_sys (g : gsys E) (s : site) : site := mkSite (host s) (s_pool s) g.
Definition with_site (i : nat) (s : site) (c : csys) : csys := mkCsys (<[i := s]> (sites c)) (sent c).

(** The node, the key and the peer of a goroutine that asks another node. *)
Definition asking (i t : nat) (c : csys) : option (site * string * httpGetter) :=
  s ← sites c !! i;
  p ← tpcs (sys s) !! t;
  '(key, _) ← ths (loader (grp (sys s))) !! t;
  match p, PickPeer (s_pool s) key with
  | TFn (FPeer _), Ret (Some (Some h)) => Some (s, key, h)
  | _, _ => None
  end.

(** [http.Get] comes back with [res]. *)
Definition receive (i t : nat) (res : fetch) (c : csys) : option csys :=
  '(s, key, h) ← asking i t c;
  g ← fn_step t key (FPeer (httpGetter_Get Unmarshal (λ _ w, (res, w)) h)) (sys s);
  Some (with_site i (set_sys g s) c).

(** [GetGroup] of a process with one group. *)
Definition the_group (s : site) (groupName : string) : option unit :=
  if bool_decide (groupName = name (grp (sys s))) then Some tt else None.

(** A request reaches the server of its URL, which answers it right away or
    calls [Get] in a goroutine of its own. *)
Definition send (i t : nat) (c : csys) : option csys :=
  '(s, key, h) ← asking i t c;
  match sent c !! (i, t), split_url (request_url h (name (grp (sys s))) key) with
  | Some _, _ => None
  | None, None => receive i t (FetchErr "unsupported protocol scheme") c
  | None, Some (to, raw) =>
      match list_find (λ s, host s = to) (sites c), path_unescape raw with
      | None, _ => receive i t (FetchErr "connection refused") c
      | Some _, None => receive i t (FetchOk 400 [] None) c
      | Some (j, s'), Some path =>
          match route (the_group s') (s_pool s') path with
          | Ret (inr (_, key)) =>
              Some (mkCsys (<[j := set_sys (arrive key (sys s')) s']> (sites c))
                      (<[(i, t) := (j, length (tpcs (sys s')))]> (sent c)))
          | Ret (inl r) => receive i t (FetchOk (StatusCode r) (Body r) None) c
          | _ => receive i t (FetchErr "EOF") c
          end
      end
  end.

(** The goroutine that serves a request is back from [Get]: it writes its
    answer, which the one that asked reads. *)
Definition answered (i t : nat) (c : csys) : option csys :=
  '(j, u) ← sent c !! (i, t);
  s ← sites c !! j;
  match tpcs (sys s) !! u with
  | Some (TRet v e) =>
      let w := world (sys s) in
      let '(r, h) := reply Marshal v e (heap w) in
      receive i t (FetchOk (StatusCode r) (Body r) None)
        (with_site j (set_sys (set_world (mkWorld h (env w)) (sys s)) s) c)
  | _ => None
  end.

Definition cstep (a : caction) (c : csys) : option csys :=
  match a with
  | CRun i a => s ← sites c !! i; g ← gstep a (sys s); Some (with_site i (set_sys g s) c)
  | CSend i t => send i t c
  | CReply i t => answered i t c
  end.

Fixpoint crun (tr : list caction) (c : csys) : option csys :=
  match tr with
  | [] => Some c
  | a :: tr => c' ← cstep a c; crun tr c'
  end.

(** ** The start *)

(** A process to start: its host, the addresses in the order [Set] is given
    them, the data source of its group, and the keys it will be asked for. *)
Record launch := mkLaunch {
  l_host : string; l_order : list string; l_getter : Getter E; l_world : World E; l_reqs : list string }.

Definition address (l : launch) : string := "http://" +:+ l_host l.
Definition pool_of (l : launch) : HTTPPool := Set_peers (l_order l) (NewHTTPPool (address l)).

(** [createGroup] and [RegisterPeers]; a request fails unless it is answered. *)
Definition group_of (gname : string) (bytes : Z) (l : launch) : Group E :=
  mkGroup gname (l_getter l) (mkCache None bytes)
    (Some (pool_picker Unmarshal (λ _ w, (FetchErr "", w)) (pool_of l))) (SingleFlight.init []).

Definition start_site (gname : string) (bytes : Z) (l : launch) : site :=
  mkSite (l_host l) (pool_of l) (start (group_of gname bytes l) (l_reqs l) [] (l_world l)).

Definition start_sites (gname : string) (bytes : Z) (ls : list launch) : csys :=
  mkCsys (start_site gname bytes <$> ls) ∅.

(** ** Specification *)

(** [ls] are the processes of the cluster, [gname] is its group, and [answers]
    is what the source may answer. *)
Context (gname : string) (bytes : Z) (ls : list launch) (answers : string → list Z + string → Prop).

Definition addresses : list string := address <$> ls.

Definition site_keys (s : site) : list string := (ths (loader (grp (sys s)))).*1.

(** Its group is in order, and it is asked for the keys of its own requests, or
    for keys that it owns. *)
Record site_ok (l : launch) (s : site) : Prop := {
  so_host : host s = l_host l;
  so_pool : s_pool s = pool_of l;
  so_inv : ginv (group_of gname bytes l) (site_keys s) answers (sys s);
  so_reqs : l_reqs l `prefix_of` site_keys s;
  so_keys : ∀ t k, site_keys s !! t = Some k →
    contains " " k = false ∧ ((t < length (l_reqs l))%nat ∨ owner addresses k = Ret (address l));
}.

Definition key_at (c : csys) (i t : nat) : option string := s ← sites c !! i; site_keys s !! t.

(** A request is served by a goroutine of the owner, for the same key. *)
Definition sent_ok (c : csys) : Prop := ∀ i t j u, sent c !! (i, t) = Some (j, u) →
  ∃ l l' k, ls !! i = Some l ∧ (t < length (l_reqs l))%nat ∧ ls !! j = Some l' ∧
    owner addresses k = Ret (address l') ∧ key_at c i t = Some k ∧ key_at c j u = Some k.

Definition cinv (c : csys) : Prop := Forall2 site_ok ls (sites c) ∧ sent_ok c.

(** The answers an asking goroutine may be given. *)
Definition res_ok (k : string) (res : fetch) : Prop := ∀ body v,
  res = FetchOk 200 body None → Unmarshal body = inl v → answers k (inl v).

(** A value that can be decoded, unless the source may fail. *)
Definition value_or_error (k : string) (res : fetch) : Prop :=
  (∃ body v, res = FetchOk 200 body None ∧ Unmarshal body = inl v) ∨ ∃ x, answers k (inr x).

Definition requests : nat := sum_list_with (λ l, length (l_reqs l)) ls.

(** The steps the cluster can still take: each request may be sent once, which
    makes one more goroutine. *)
Definition cmeasure (c : csys) : nat :=
  (sum_list_with (λ s, gmeasure (sys s)) (sites c) + 12 * (requests - size (sent c)))%nat.

Definition counts (a : caction) : bool := match a with CRun _ a => is_step a | _ => true end.

(** Nothing but the failure of requests can happen. *)
Definition only_failures (c : csys) : Prop :=
  (∀ i t, cstep (CSend i t) c = None ∧ cstep (CReply i t) c = None) ∧
  ∀ i s t, sites c !! i = Some s → (∀ peer, tpcs (sys s) !! t ≠ Some (TFn (FPeer peer))) →
    cstep (CRun i (Step t)) c = None.
End ClusterRun.
Arguments csys : clear implicits.
Arguments site : clear implicits.
Arguments launch : clear implicits.

Section slots.
Context {E : Type}.

(** The requests of the processes, each by its node and its position there. *)
Fixpoint slots (i : nat) (ls : list (launch E)) : list (nat * nat) :=
  match ls with
  | [] => []
  | l :: ls => (pair i <$> seq 0 (length (l_reqs l))) ++ slots (S i) ls
  end%list.

Lemma length_slots i ls' : length (slots i ls') = requests ls'.
Proof using.
  revert i. induction ls' as [|l ls' IH]; intros i; [done|]. cbn [slots].
  rewrite length_app, length_fmap, length_seq, IH. done.
Qed.

Lemma slots_elem ls' i j t l : ls' !! j = Some l → (t < length (l_reqs l))%nat → ((i + j)%nat, t) ∈ slots i ls'.
Proof using.
  revert i j. induction ls' as [|l' ls' IH]; intros i [|j] Hl Ht; cbn in Hl; try done; cbn [slots]; apply elem_of_app.
  - injection Hl as ->. left. apply list_elem_of_fmap. exists t. rewrite Nat.add_0_r. split; [done|].
    apply elem_of_seq. lia.
  - right. rewrite Nat.add_succ_r. by apply (IH (S i)).
Qed.

Lemma gmeasure_starts Unmarshal gname bytes (ls : list (launch E)) :
  sum_list_with (λ s, gmeasure (sys s)) (start_site Unmarshal gname bytes <$> ls) = (10 * requests ls)%nat.
Proof using.
  unfold requests. induction ls as [|l ls IH]; [done|]. rewrite fmap_cons. cbn [sum_list_with sys start_site].
  rewrite gmeasure_start, IH. lia.
Qed.
End slots.

Section proofs.
Context (Marshal Unmarshal : list Z → list Z + string) {E : Type}.
Context (gname : string) (bytes : Z) (ls : list (launch E)) (answers : string → list Z + string → Prop).
Context (Hmarshal : ∀ x, ∃ y, Marshal x = inl y ∧ Unmarshal y = inl x).
Context (Hgslash : contains "/" gname = false) (Hgspace : contains " " gname = false) (Hbytes : (0 ≤ bytes)%Z).
Context (Hsize : (50 * Z.of_nat (length ls) < 2 ^ 63)%Z)
  (Hring : no_collision (ConsistentHash.New defaultReplicas None) (addresses ls)).
(** Each process has the addresses in an order of its own, a host without
    slashes, a getter that asks the source, and requests without spaces. *)
Context (Hlaunch : Forall (λ l, addresses ls ≡ₚ l_order l ∧ contains "/" (l_host l) = false ∧
  getter_ok (group_of Unmarshal gname bytes l) answers ∧
  Forall (λ k, contains " " k = false) (l_reqs l)) ls).
Implicit Types (c : csys E) (s : site E) (l : launch E).

Abbreviation group := (group_of Unmarshal gname bytes).
Abbreviation in_order := (site_ok Unmarshal gname bytes ls answers).
Abbreviation cluster_inv := (cinv Unmarshal gname bytes ls answers).
Abbreviation key_owner := (owner (addresses ls)).

(** ** Owners *)

Lemma key_owner_host k l : l ∈ ls → ∃ l', l' ∈ ls ∧ key_owner k = Ret (address l') ∧
  ∀ l2, l2 ∈ ls → PickPeer (pool_of l2) k = Ret (if bool_decide (address l2 = address l') then None
    else Some (Some (mkGetter (address l' +:+ defaultBasePath)))).
Proof using Hsize Hring Hlaunch.
  intros Hl. destruct (owner_host (addresses ls)) with (key := k) as (h & Ho & Hin & _ & Hpick).
  - intros a (l1 & -> & Hl1)%list_elem_of_fmap. rewrite Forall_forall in Hlaunch.
    exists (l_host l1). split; [done|]. by apply (Hlaunch l1 Hl1).
  - unfold addresses. by rewrite length_fmap.
  - done.
  - intros Hn. apply fmap_nil_inv in Hn. rewrite Hn in Hl. by apply elem_of_nil in Hl.
  - apply list_elem_of_fmap in Hin as (l' & Ha & Hl'). exists l'. split; [done|]. rewrite <- Ha. split; [done|].
    intros l2 Hl2. rewrite Forall_forall in Hlaunch. by apply Hpick, (Hlaunch l2 Hl2).
Qed.

Lemma group_peers_ok l : l ∈ ls → peers_ok (group l) answers.
Proof using Hsize Hring Hlaunch.
  intros Hl pick k [= <-]. unfold pool_picker. destruct (key_owner_host k l Hl) as (l' & _ & _ & Hp).
  rewrite (Hp l Hl). cbn [obind]. case_bool_decide as Hb; [by eexists|]. eexists. split; [done|].
  intros peer w e sl w' [= <-] H. destruct (httpGetter_Get_received _ _ _ _ _ _ _ _ _ H) as [Hpre Hv].
  split; [done|]. intros He. by destruct (Hv He) as (? & ? & _).
Qed.

Lemma getter_of_launch l : l ∈ ls → getter_ok (group l) answers.
Proof using Hlaunch. intros Hl. rewrite Forall_forall in Hlaunch. by apply (Hlaunch l Hl). Qed.

(** ** Sites *)

Lemma site_keys_tpc l s t p : in_order l s → tpcs (sys s) !! t = Some p →
  ∃ k q, ths (loader (grp (sys s))) !! t = Some (k, q) ∧ site_keys s !! t = Some k.
Proof using.
  intros Hs Ht. destruct (lookup_lt_is_Some_2 (ths (loader (grp (sys s)))) t) as [[k q] Hq].
  { rewrite <- (gi_len _ _ _ _ (so_inv _ _ _ _ _ _ _ Hs)). by eapply lookup_lt_Some. }
  exists k, q. split; [done|]. unfold site_keys. by rewrite list_lookup_fmap, Hq.
Qed.

Lemma site_keys_ths s t k q : ths (loader (grp (sys s))) !! t = Some (k, q) → site_keys s !! t = Some k.
Proof using. intros Hq. unfold site_keys. by rewrite list_lookup_fmap, Hq. Qed.

(** The site moves on with the same goroutines, or with one more. *)
Lemma site_ok_move l s g : in_order l s → ginv (group l) (site_keys s) answers g → in_order l (set_sys g s).
Proof using.
  intros [Hh Hp Hi Hr Hk] Hg. assert (site_keys (set_sys g s) = site_keys s) as Hkeys by exact (ginv_keys _ _ _ _ Hg).
  split; rewrite ?Hkeys; done.
Qed.

Lemma site_ok_arrive l s k : in_order l s → contains " " k = false → key_owner k = Ret (address l) →
  in_order l (set_sys (arrive k (sys s)) s).
Proof using.
  intros [Hh Hp Hi Hr Hk] Hsp Ho. assert (site_keys (set_sys (arrive k (sys s)) s) = (site_keys s ++ [k])%list) as Hkeys
    by (unfold site_keys; cbn; by rewrite fmap_app).
  split; rewrite ?Hkeys; try done.
  - by apply ginv_arrive.
  - by apply prefix_app_r.
  - intros t x Hx. apply lookup_snoc_Some in Hx as [[_ Hx]|[_ <-]]; [by eapply Hk|auto].
Qed.

Lemma start_site_ok l : l ∈ ls → in_order l (start_site Unmarshal gname bytes l).
Proof using Hbytes Hlaunch.
  intros Hl. assert (site_keys (start_site Unmarshal gname bytes l) = l_reqs l) as Hkeys.
  { unfold site_keys, start_site, start. cbn. rewrite <- list_fmap_compose. apply list_fmap_id. }
  split; rewrite ?Hkeys; try done.
  - apply start_inv; [|by constructor]. split; [done|by intros].
  - intros t k Ht. rewrite Forall_forall in Hlaunch. destruct (Hlaunch l Hl) as (_ & _ & _ & Hk).
    rewrite Forall_forall in Hk. split; [by eapply Hk, list_elem_of_lookup_2|]. left. by eapply lookup_lt_Some.
Qed.

(** ** One site changes *)

Definition keeps_keys c c' : Prop := ∀ i t k, key_at c i t = Some k → key_at c' i t = Some k.

Lemma keys_set c c' i s s' : sites c !! i = Some s → sites c' = <[i := s']> (sites c) →
  site_keys s `prefix_of` site_keys s' → keeps_keys c c'.
Proof using.
  intros Hi Hc Hp j t k. unfold key_at. rewrite Hc. destruct (decide (i = j)) as [<-|Hne].
  - rewrite list_lookup_insert_eq by (by eapply lookup_lt_Some). rewrite Hi. cbn. intros Hk. by eapply prefix_lookup_Some.
  - by rewrite list_lookup_insert_ne.
Qed.

Lemma cinv_site c i s s' : cluster_inv c → sites c !! i = Some s →
  (∀ l, ls !! i = Some l → in_order l s → in_order l s') → site_keys s `prefix_of` site_keys s' →
  cluster_inv (with_site i s' c).
Proof using.
  intros [Hs Hsent] Hi Hok Hp. split.
  - cbn. destruct (Forall2_lookup_r _ _ _ _ _ Hs Hi) as (l & Hl & Hlok).
    pose proof (Forall2_insert _ _ _ l s' i Hs (Hok l Hl Hlok)) as Hset. by rewrite (list_insert_id ls i l Hl) in Hset.
  - intros j t j' u Hj. destruct (Hsent j t j' u Hj) as (l & l' & k & Hl & Ht & Hl' & Ho & Hk & Hk').
    assert (keeps_keys c (with_site i s' c)) as Hkeep by by eapply keys_set.
    exists l, l', k. split_and!; try done; by apply Hkeep.
Qed.

(** A step of a site on its own. *)
Lemma cinv_move c i s l g : cluster_inv c → sites c !! i = Some s → ls !! i = Some l →
  ginv (group l) (site_keys s) answers g → cluster_inv (with_site i (set_sys g s) c).
Proof using.
  intros Hc Hi Hl Hg. apply (cinv_site c i s); [done|done| |].
  - intros l' Hl' Hs. simplify_eq. by apply site_ok_move.
  - change (site_keys s `prefix_of` (ths (loader (grp g))).*1). by rewrite (ginv_keys _ _ _ _ Hg).
Qed.

Lemma measure_site c i s s' : sites c !! i = Some s →
  (cmeasure ls (with_site i s' c) + gmeasure (sys s) = cmeasure ls c + gmeasure (sys s'))%nat.
Proof using.
  intros Hi. unfold cmeasure. cbn [with_site sites sent].
  pose proof (sum_list_with_set (λ s, gmeasure (sys s)) (sites c) i s s' Hi) as H. cbn in H. lia.
Qed.

Lemma site_of c i s : cluster_inv c → sites c !! i = Some s → ∃ l, ls !! i = Some l ∧ l ∈ ls ∧ in_order l s.
Proof using.
  intros [Hs _] Hi. destruct (Forall2_lookup_r _ _ _ _ _ Hs Hi) as (l & Hl & Hok). exists l.
  split_and!; [done|by eapply list_elem_of_lookup_2|done].
Qed.

(** ** Asking *)

(** A goroutine that asks another node asks the owner of its key, which is not
    its own node; its request is for a key of its node's own requests. *)
Lemma asking_spec c i t s k h : cluster_inv c → asking i t c = Some (s, k, h) →
  ∃ l l' p cl, sites c !! i = Some s ∧ ls !! i = Some l ∧ in_order l s ∧
    tpcs (sys s) !! t = Some (TFn (FPeer p)) ∧ ths (loader (grp (sys s))) !! t = Some (k, PRun cl) ∧
    k ≠ "" ∧ contains " " k = false ∧ (t < length (l_reqs l))%nat ∧
    l' ∈ ls ∧ key_owner k = Ret (address l') ∧ h = mkGetter (address l' +:+ defaultBasePath).
Proof using Hsize Hring Hlaunch.
  intros Hc H. unfold asking in H. destruct (sites c !! i) as [s0|] eqn:Hi; [|done]. cbn [mbind option_bind] in H.
  destruct (tpcs (sys s0) !! t) as [p|] eqn:Ht; [|done]. cbn [mbind option_bind] in H.
  destruct (ths (loader (grp (sys s0))) !! t) as [[k0 q]|] eqn:Hq; [|done]. cbn [mbind option_bind] in H.
  destruct p as [| |[|p| | | |]|]; try done.
  destruct (PickPeer (s_pool s0) k0) as [[[h0|]|]| |] eqn:Hp; try done. injection H as -> -> ->.
  destruct (site_of c i s Hc Hi) as (l & Hl & Hin & Hok).
  pose proof (gi_tpc _ _ _ _ (so_inv _ _ _ _ _ _ _ Hok) _ _ _ _ Ht Hq) as Htp.
  destruct q as [| |cl| | | |]; try done. destruct Htp as [Hk _].
  destruct (key_owner_host k l Hin) as (l' & Hin' & Ho & Hpick).
  rewrite (so_pool _ _ _ _ _ _ _ Hok), (Hpick l Hin) in Hp. case_bool_decide as Hne; [done|]. injection Hp as <-.
  destruct (so_keys _ _ _ _ _ _ _ Hok t k) as [Hsp Hown]; [by eapply site_keys_ths|].
  exists l, l', p, cl. split_and!; try done. destruct Hown as [?|Hown]; [done|]. destruct Hne. congruence.
Qed.

Lemma asking_peer c i t s p : cluster_inv c → sites c !! i = Some s → tpcs (sys s) !! t = Some (TFn (FPeer p)) →
  ∃ k h, asking i t c = Some (s, k, h).
Proof using Hsize Hring Hlaunch.
  intros Hc Hi Ht. destruct (site_of c i s Hc Hi) as (l & Hl & Hin & Hok).
  destruct (site_keys_tpc l s t _ Hok Ht) as (k & q & Hq & _).
  pose proof (gi_tpc _ _ _ _ (so_inv _ _ _ _ _ _ _ Hok) _ _ _ _ Ht Hq) as Htp.
  destruct q as [| |cl| | | |]; try done. destruct Htp as (_ & pick & [= <-] & Hp).
  unfold pool_picker in Hp. rewrite <- (so_pool _ _ _ _ _ _ _ Hok) in Hp.
  destruct (PickPeer (s_pool s) k) as [[[h|]|]| |] eqn:Hpk; try done. exists k, h.
  unfold asking. rewrite Hi. cbn [mbind option_bind]. rewrite Ht. cbn [mbind option_bind]. rewrite Hq.
  cbn [mbind option_bind]. by rewrite Hpk.
Qed.

(** ** Answers *)

Lemma receive_enabled c i t s k h res : asking i t c = Some (s, k, h) → ∃ c', receive Unmarshal i t res c = Some c'.
Proof using.
  intros Ha. unfold receive. rewrite Ha. cbn [mbind option_bind]. cbn [fn_step].
  destruct (getFromPeer _ _ _ _) as [[v [e|]] w]; by eexists.
Qed.

Lemma receive_inv c i t s k h res c' : cluster_inv c → asking i t c = Some (s, k, h) →
  res_ok Unmarshal answers k res → receive Unmarshal i t res c = Some c' → cluster_inv c'.
Proof using Hsize Hring Hlaunch.
  intros Hc Ha Hres H. unfold receive in H. rewrite Ha in H. cbn [mbind option_bind] in H.
  destruct (asking_spec c i t s k h Hc Ha) as (l & l' & p & cl & Hi & Hl & Hok & Ht & Hq & Hk & _).
  destruct (fn_step _ _ _ _) as [g|] eqn:Hst; [|done]. injection H as <-.
  eapply cinv_move; [done|done|done|].
  destruct (httpGetter_Get Unmarshal (λ _ w, (res, w)) h (name (group l)) k (world (sys s))) as [[e sl] w] eqn:Hg.
  destruct (httpGetter_Get_received _ _ _ _ _ _ _ _ _ Hg) as [Hpre Hv].
  eapply peer_inv; [exact (so_inv _ _ _ _ _ _ _ Hok)|done|done|done|exact Hg|done| |done].
  intros He. destruct (Hv He) as (body & Hb & Hu & Hsl). split; [|done]. by eapply Hres.
Qed.

(** What a server writes for a goroutine that is back from [Get]. *)
Lemma reply_ok l s u k q v e r h : in_order l s → tpcs (sys s) !! u = Some (TRet v e) →
  ths (loader (grp (sys s))) !! u = Some (k, q) → k ≠ "" →
  reply Marshal v e (heap (world (sys s))) = (r, h) →
  heap (world (sys s)) `prefix_of` h ∧ res_ok Unmarshal answers k (FetchOk (StatusCode r) (Body r) None) ∧
  value_or_error Unmarshal answers k (FetchOk (StatusCode r) (Body r) None).
Proof using Hmarshal.
  intros Hok Ht Hq Hk H. pose proof (gi_tpc _ _ _ _ (so_inv _ _ _ _ _ _ _ Hok) _ _ _ _ Ht Hq) as Htp.
  assert (result_ok answers (sys s) k v e) as Hr by (by destruct q). unfold result_ok in Hr.
  rewrite bool_decide_eq_false_2 in Hr by done. destruct e as [e|].
  - cbn in H. injection H as <- <-. split_and!; [done|by intros body w [=]|]. right. by exists e.
  - destruct Hr as (Ha & Hsl & _). destruct (Hmarshal (ByteView_String v (heap (world (sys s))))) as (body & Hm & Hu).
    destruct (reply_value Marshal v _ body Hsl Hm) as (h' & Hrep & Hpre). rewrite Hrep in H. injection H as <- <-.
    split_and!; [done|intros b w [= <-] Hb; rewrite Hu in Hb; by injection Hb as <-|]. left. by do 2 eexists.
Qed.

(** ** Requests *)

Lemma group_name l s : in_order l s → name (grp (sys s)) = gname.
Proof using. intros Hok. by destruct (gi_group _ _ _ _ (so_inv _ _ _ _ _ _ _ Hok)) as (-> & _). Qed.

Lemma find_site c l : cluster_inv c → l ∈ ls → ∃ j s' l', list_find (λ s, host s = l_host l) (sites c) = Some (j, s') ∧
  sites c !! j = Some s' ∧ ls !! j = Some l' ∧ in_order l' s' ∧ address l' = address l.
Proof using.
  intros Hc (i & Hl)%list_elem_of_lookup. destruct (Forall2_lookup_l _ _ _ _ _ (proj1 Hc) Hl) as (s & Hs & Hok).
  destruct (list_find_elem_of (λ s, host s = l_host l) (sites c) s) as [[j s'] Hf];
    [by eapply list_elem_of_lookup_2|by apply (so_host _ _ _ _ _ _ _ Hok)|].
  pose proof Hf as (Hj & Hh & _)%list_find_Some. destruct (site_of c j s' Hc Hj) as (l' & Hl' & _ & Hok').
  exists j, s', l'. split_and!; [done..|]. unfold address. by rewrite <- (so_host _ _ _ _ _ _ _ Hok'), Hh.
Qed.

(** A request that is not lost becomes a goroutine on the owner of its key. *)
Lemma send_spec c i t s k h : cluster_inv c → asking i t c = Some (s, k, h) → sent c !! (i, t) = None →
  ∃ j s' l', sites c !! j = Some s' ∧ ls !! j = Some l' ∧ in_order l' s' ∧ key_owner k = Ret (address l') ∧
    send Unmarshal i t c = Some (mkCsys (<[j := set_sys (arrive k (sys s')) s']> (sites c))
      (<[(i, t) := (j, length (tpcs (sys s')))]> (sent c))).
Proof using Hsize Hring Hlaunch Hgslash Hgspace.
  intros Hc Ha Hsent. destruct (asking_spec c i t s k h Hc Ha)
    as (l & l1 & p & cl & Hi & Hl & Hok & Ht & Hq & Hk & Hsp & Hlt & Hl1 & Ho & ->).
  destruct (find_site c l1 Hc Hl1) as (j & s' & l' & Hf & Hj & Hl' & Hok' & Haddr).
  exists j, s', l'. rewrite Haddr. split_and!; [done..|]. unfold send. rewrite Ha. cbn [mbind option_bind].
  rewrite Hsent, (group_name l s Hok). unfold request_url. cbn [baseURL]. unfold address. rewrite str_app_assoc.
  change (defaultBasePath +:+ QueryEscape gname +:+ "/" +:+ QueryEscape k) with
    (String "/" ("_geecache/" +:+ QueryEscape gname +:+ "/" +:+ QueryEscape k)).
  rewrite split_url_node.
  2: { rewrite Forall_forall in Hlaunch. by apply (Hlaunch l1 Hl1). }
  rewrite Hf.
  change (String "/" ("_geecache/" +:+ QueryEscape gname +:+ "/" +:+ QueryEscape k)) with
    (defaultBasePath +:+ QueryEscape gname +:+ "/" +:+ QueryEscape k).
  rewrite wire_path, !space_to_plus_id by done.
  rewrite route_path; [|by rewrite (so_pool _ _ _ _ _ _ _ Hok')|done].
  unfold the_group. by rewrite (group_name l' s' Hok'), bool_decide_eq_true_2.
Qed.

Lemma sends_inv c i t c' : cluster_inv c → send Unmarshal i t c = Some c' → cluster_inv c'.
Proof using Hsize Hring Hlaunch Hgslash Hgspace.
  intros Hc H. destruct (asking i t c) as [[[s k] h]|] eqn:Ha; [|unfold send in H; by rewrite Ha in H].
  destruct (sent c !! (i, t)) eqn:Hsent; [unfold send in H; rewrite Ha in H; cbn in H; by rewrite Hsent in H|].
  destruct (send_spec c i t s k h Hc Ha Hsent) as (j & s' & l' & Hj & Hl' & Hok' & Ho & Hsd).
  rewrite Hsd in H. injection H as <-.
  destruct (asking_spec c i t s k h Hc Ha) as (l & _ & p & cl & Hi & Hl & _ & _ & Hq & _ & Hsp & Hlt & _).
  set (s1 := set_sys (arrive k (sys s')) s').
  assert (site_keys s1 = (site_keys s' ++ [k])%list) as Hkeys by (unfold site_keys; cbn; by rewrite fmap_app).
  assert (site_keys s' `prefix_of` site_keys s1) as Hpre by (rewrite Hkeys; by apply prefix_app_r).
  destruct (cinv_site c j s' s1 Hc Hj) as [Hs1 Hse]; [|done|].
  { intros l2 Hl2 _. simplify_eq. by apply site_ok_arrive. }
  split; [exact Hs1|]. intros i2 t2 j2 u2 H2. cbn [sent] in H2. destruct (decide ((i, t) = (i2, t2))) as [[= <- <-]|Hne].
  - rewrite lookup_insert_eq in H2. injection H2 as <- <-. exists l, l', k. split_and!; try done.
    + eapply (keys_set c _ j s' s1); [done|done|done|]. unfold key_at. rewrite Hi. cbn. by eapply site_keys_ths.
    + unfold key_at. cbn [sites]. rewrite list_lookup_insert_eq by (by eapply lookup_lt_Some). cbn [mbind option_bind].
      fold s1. rewrite Hkeys, lookup_app_r; unfold site_keys; rewrite length_fmap,
        (gi_len _ _ _ _ (so_inv _ _ _ _ _ _ _ Hok')); [|done]. by rewrite Nat.sub_diag.
  - rewrite lookup_insert_ne in H2 by done. exact (Hse i2 t2 j2 u2 H2).
Qed.

(** ** Steps *)

(** A change of bytes on a node leaves the asking goroutines where they are. *)
Lemma asking_world c i t j s' w : sites c !! j = Some s' →
  (λ x, (x.1.2, x.2)) <$> asking i t (with_site j (set_sys (set_world w (sys s')) s') c) =
  (λ x, (x.1.2, x.2)) <$> asking i t c.
Proof using.
  intros Hj. unfold asking. cbn [with_site sites]. destruct (decide (j = i)) as [->|Hne].
  - rewrite list_lookup_insert_eq by (by eapply lookup_lt_Some). rewrite Hj. cbn [mbind option_bind].
    cbn [set_sys set_world sys s_pool tpcs grp].
    destruct (tpcs (sys s') !! t) as [p|]; [|done]. cbn [mbind option_bind].
    destruct (ths (loader (grp (sys s'))) !! t) as [[k0 q]|]; [|done]. cbn [mbind option_bind].
    by destruct p as [| |[]|], (PickPeer (s_pool s') k0) as [[[]|]| |].
  - by rewrite list_lookup_insert_ne.
Qed.

Lemma asking_before c i t j s' w s2 k h : sites c !! j = Some s' →
  asking i t (with_site j (set_sys (set_world w (sys s')) s') c) = Some (s2, k, h) → ∃ s, asking i t c = Some (s, k, h).
Proof using.
  intros Hj Ha. pose proof (asking_world c i t j s' w Hj) as H. rewrite Ha in H.
  destruct (asking i t c) as [[[s k0] h0]|]; [|done]. injection H as -> ->. by exists s.
Qed.

Lemma asking_after c i t j s' w s k h : sites c !! j = Some s' → asking i t c = Some (s, k, h) →
  ∃ s2, asking i t (with_site j (set_sys (set_world w (sys s')) s') c) = Some (s2, k, h).
Proof using.
  intros Hj Ha. pose proof (asking_world c i t j s' w Hj) as H. rewrite Ha in H.
  destruct (asking i t (with_site _ _ _)) as [[[s2 k0] h0]|]; [|done]. injection H as -> ->. by exists s2.
Qed.

(** The goroutine that serves a request has the key of the one that asks. *)
Lemma server_key c i t j u s k h s' : cluster_inv c → asking i t c = Some (s, k, h) →
  sent c !! (i, t) = Some (j, u) → sites c !! j = Some s' → site_keys s' !! u = Some k.
Proof using Hsize Hring Hlaunch.
  intros Hc Ha Hsent Hj. destruct (proj2 Hc i t j u Hsent) as (l & l' & k' & _ & _ & _ & _ & Hk & Hk').
  destruct (asking_spec c i t s k h Hc Ha) as (_ & _ & _ & cl & Hi & _ & _ & _ & Hq & _).
  unfold key_at in Hk, Hk'. rewrite Hi in Hk. rewrite Hj in Hk'. cbn in Hk, Hk'.
  rewrite (site_keys_ths _ _ _ _ Hq) in Hk. congruence.
Qed.

Lemma answered_enabled c i t j u s k h s' v e : asking i t c = Some (s, k, h) → sent c !! (i, t) = Some (j, u) →
  sites c !! j = Some s' → tpcs (sys s') !! u = Some (TRet v e) → ∃ c', answered Marshal Unmarshal i t c = Some c'.
Proof using.
  intros Ha Hsent Hj Hu. unfold answered. rewrite Hsent. cbn [mbind option_bind]. rewrite Hj. cbn [mbind option_bind].
  rewrite Hu. destruct (reply Marshal v e _) as [r h'].
  destruct (asking_after c i t j s' (mkWorld h' (env (world (sys s')))) s k h Hj Ha) as [s2 Ha2].
  by eapply receive_enabled.
Qed.

(** The answer is given to a goroutine that asks, by the goroutine that serves it. *)
Lemma answered_spec c i t c' : answered Marshal Unmarshal i t c = Some c' → ∃ j u s s' k h v e r hp,
  asking i t c = Some (s, k, h) ∧ sent c !! (i, t) = Some (j, u) ∧ sites c !! j = Some s' ∧
  tpcs (sys s') !! u = Some (TRet v e) ∧ reply Marshal v e (heap (world (sys s'))) = (r, hp) ∧
  receive Unmarshal i t (FetchOk (StatusCode r) (Body r) None)
    (with_site j (set_sys (set_world (mkWorld hp (env (world (sys s')))) (sys s')) s') c) = Some c'.
Proof using.
  intros H. unfold answered in H. destruct (sent c !! (i, t)) as [[j u]|] eqn:Hsent; [|done]. cbn [mbind option_bind] in H.
  destruct (sites c !! j) as [s'|] eqn:Hj; [|done]. cbn [mbind option_bind] in H.
  destruct (tpcs (sys s') !! u) as [[| | |v e]|] eqn:Hu; try done.
  destruct (reply Marshal v e (heap (world (sys s')))) as [r hp] eqn:Hrep.
  assert (∃ s k h, asking i t c = Some (s, k, h)) as (s & k & h & Ha).
  { pose proof H as Hr. unfold receive in Hr. destruct (asking i t (with_site _ _ _)) as [[[s k] h]|] eqn:Ha; [|done].
    destruct (asking_before c i t j s' _ s k h Hj Ha) as [s0 Ha0]. by do 3 eexists. }
  exists j, u, s, s', k, h, v, e, r, hp. done.
Qed.

Lemma answered_receive c i t c' : cluster_inv c → answered Marshal Unmarshal i t c = Some c' → ∃ c1 s k h res,
  cluster_inv c1 ∧ cmeasure ls c1 = cmeasure ls c ∧ asking i t c1 = Some (s, k, h) ∧
  res_ok Unmarshal answers k res ∧ receive Unmarshal i t res c1 = Some c' ∧ value_or_error Unmarshal answers k res ∧
  ∀ i s1, sites c1 !! i = Some s1 → ∃ s0, sites c !! i = Some s0 ∧ tpcs (sys s1) = tpcs (sys s0) ∧ grp (sys s1) = grp (sys s0).
Proof using Hmarshal Hsize Hring Hlaunch.
  intros Hc H. destruct (answered_spec c i t c' H) as (j & u & s & s' & k & h & v & e & r & hp & Ha & Hsent & Hj & Hu & Hrep & Hr).
  destruct (site_of c j s' Hc Hj) as (l & Hl & Hin & Hok).
  pose proof (server_key c i t j u s k h s' Hc Ha Hsent Hj) as Hk.
  destruct (site_keys_tpc l s' u _ Hok Hu) as (k' & q & Hq & Hk'). rewrite Hk in Hk'. injection Hk' as <-.
  destruct (asking_spec c i t s k h Hc Ha) as (_ & _ & _ & _ & _ & _ & _ & _ & _ & Hne & _).
  destruct (reply_ok l s' u k q v e r hp Hok Hu Hq Hne Hrep) as (Hpre & Hres & Hval).
  destruct (asking_after c i t j s' (mkWorld hp (env (world (sys s')))) s k h Hj Ha) as [s2 Ha2].
  do 5 eexists. split; [|split; [|split; [exact Ha2|split; [exact Hres|split; [exact Hr|split; [exact Hval|]]]]]].
  - eapply cinv_move; [done|done|done|]. apply ginv_world; [apply Hok|]. by apply prefix_kept.
  - set (s1 := set_sys _ s'). pose proof (measure_site c j s' s1 Hj).
    assert (gmeasure (sys s1) = gmeasure (sys s')) by done. lia.
  - intros i' s1 Hs1. cbn in Hs1. rewrite (lookup_set _ _ _ _ _ Hj) in Hs1.
    case_decide; [subst; injection Hs1 as <-; by exists s'|by exists s1].
Qed.

Lemma answered_inv c i t c' : cluster_inv c → answered Marshal Unmarshal i t c = Some c' → cluster_inv c'.
Proof using Hmarshal Hsize Hring Hlaunch.
  intros Hc H. destruct (answered_receive c i t c' Hc H) as (c1 & s & k & h & res & Hc1 & _ & Ha & Hres & Hr & _).
  by eapply receive_inv.
Qed.

Lemma cstep_inv a c c' : cluster_inv c → cstep Marshal Unmarshal a c = Some c' → cluster_inv c'.
Proof using Hmarshal Hsize Hring Hlaunch Hgslash Hgspace.
  intros Hc H. destruct a as [i a|i t|i t]; [|by eapply sends_inv|by eapply answered_inv]. cbn in H.
  destruct (sites c !! i) as [s|] eqn:Hi; [|done]. cbn in H. destruct (gstep a (sys s)) as [g|] eqn:Hg; [|done].
  injection H as <-. destruct (site_of c i s Hc Hi) as (l & Hl & Hin & Hok). eapply cinv_move; [done|done|done|].
  eapply gstep_inv; [by apply getter_of_launch|by apply group_peers_ok|apply Hok|done].
Qed.

Lemma crun_inv tr c c' : cluster_inv c → crun Marshal Unmarshal tr c = Some c' → cluster_inv c'.
Proof using Hmarshal Hsize Hring Hlaunch Hgslash Hgspace.
  revert c. induction tr as [|a tr IH]; intros c Hc H; cbn [crun] in H; [by injection H as <-|].
  destruct (cstep Marshal Unmarshal a c) as [c1|] eqn:Hst; [|done]. eapply IH; [|exact H]. by eapply cstep_inv.
Qed.

Lemma start_cinv : cluster_inv (start_sites Unmarshal gname bytes ls).
Proof using Hbytes Hlaunch.
  split; [|by intros]. cbn. apply Forall2_fmap_r, Forall_Forall2_diag, Forall_forall. intros l. by apply start_site_ok.
Qed.

(** ** Termination *)

Lemma sent_bound c : cluster_inv c → (size (sent c) ≤ requests ls)%nat.
Proof using.
  intros [_ Hs]. rewrite <- (length_slots 0), <- length_map_to_list, <- (length_fmap fst).
  apply submseteq_length, NoDup_submseteq; [apply NoDup_fst_map_to_list|].
  intros [i t] ([[i' t'] [j u]] & [= -> ->] & Hin)%list_elem_of_fmap. apply elem_of_map_to_list in Hin.
  destruct (Hs _ _ _ _ Hin) as (l & _ & _ & Hl & Ht & _). by eapply (slots_elem ls 0).
Qed.

Lemma receive_measure c i t res c' : cluster_inv c → receive Unmarshal i t res c = Some c' →
  (cmeasure ls c' < cmeasure ls c)%nat.
Proof using Hsize Hring Hlaunch.
  intros Hc H. unfold receive in H. destruct (asking i t c) as [[[s k] h]|] eqn:Ha; [|done]. cbn [mbind option_bind] in H.
  destruct (asking_spec c i t s k h Hc Ha) as (l & l' & p & cl & Hi & Hl & Hok & Ht & Hq & _).
  destruct (fn_step _ _ _ _) as [g|] eqn:Hst; [|done]. injection H as <-.
  pose proof (measure_site c i s (set_sys g s) Hi) as Hm. pose proof (peer_measure _ _ _ _ _ _ _ Ht Hq Hst). cbn in *. lia.
Qed.

Lemma send_measure c i t c' : cluster_inv c → send Unmarshal i t c = Some c' → (cmeasure ls c' < cmeasure ls c)%nat.
Proof using Hsize Hring Hlaunch Hgslash Hgspace.
  intros Hc H. destruct (asking i t c) as [[[s k] h]|] eqn:Ha; [|unfold send in H; by rewrite Ha in H].
  destruct (sent c !! (i, t)) eqn:Hsent; [unfold send in H; rewrite Ha in H; cbn in H; by rewrite Hsent in H|].
  destruct (send_spec c i t s k h Hc Ha Hsent) as (j & s' & l' & Hj & Hl' & Hok' & Ho & Hsd).
  pose proof (sent_bound c' (sends_inv c i t c' Hc H)) as Hb. rewrite Hsd in H. injection H as <-. cbn [sent] in Hb.
  pose proof (measure_site c j s' (set_sys (arrive k (sys s')) s') Hj) as Hm.
  pose proof (gmeasure_arrive (sys s') k (gi_len _ _ _ _ (so_inv _ _ _ _ _ _ _ Hok'))) as Ha2.
  unfold cmeasure in *. cbn [with_site sites sent set_sys sys] in *.
  rewrite map_size_insert_None in Hb |- * by done. lia.
Qed.

Lemma cstep_measure a c c' : cluster_inv c → cstep Marshal Unmarshal a c = Some c' →
  (cmeasure ls c' + (if counts a then 1 else 0) ≤ cmeasure ls c)%nat.
Proof using Hmarshal Hsize Hring Hlaunch Hgslash Hgspace.
  intros Hc H. destruct a as [i a|i t|i t]; cbn [counts].
  - cbn in H. destruct (sites c !! i) as [s|] eqn:Hi; [|done]. cbn in H.
    destruct (gstep a (sys s)) as [g|] eqn:Hg; [|done]. injection H as <-.
    destruct (site_of c i s Hc Hi) as (l & Hl & Hin & Hok).
    pose proof (gstep_measure _ _ _ _ _ _ (so_inv _ _ _ _ _ _ _ Hok) Hg).
    pose proof (measure_site c i s (set_sys g s) Hi). cbn in *. lia.
  - pose proof (send_measure c i t c' Hc H). lia.
  - destruct (answered_receive c i t c' Hc H) as (c1 & s & k & h & res & Hc1 & <- & _ & _ & Hr & _).
    pose proof (receive_measure c1 i t res c' Hc1 Hr). lia.
Qed.

Lemma crun_measure tr c c' : cluster_inv c → crun Marshal Unmarshal tr c = Some c' →
  (length (filter counts tr) + cmeasure ls c' ≤ cmeasure ls c)%nat.
Proof using Hmarshal Hsize Hring Hlaunch Hgslash Hgspace.
  revert c. induction tr as [|a tr IH]; intros c Hc H; cbn [crun] in H; [injection H as <-; cbn; lia|].
  destruct (cstep Marshal Unmarshal a c) as [c1|] eqn:Hst; [|done]. pose proof (cstep_measure a c c1 Hc Hst) as Hm.
  specialize (IH c1 (cstep_inv a c c1 Hc Hst) H).
  rewrite filter_cons. destruct (counts a); case_decide; cbn in *; try done; lia.
Qed.

Lemma start_cmeasure : cmeasure ls (start_sites Unmarshal gname bytes ls) = (22 * requests ls)%nat.
Proof using.
  unfold cmeasure, start_sites. cbn [sites sent]. rewrite map_size_empty, gmeasure_starts. lia.
Qed.

(** ** Progress *)

(** The owner of a key never asks another node for it. *)
Lemma owner_does_not_ask c j s l k t q peer : cluster_inv c → sites c !! j = Some s → ls !! j = Some l →
  key_owner k = Ret (address l) → ths (loader (grp (sys s))) !! t = Some (k, q) → tpcs (sys s) !! t ≠ Some (TFn (FPeer peer)).
Proof using Hsize Hring Hlaunch.
  intros Hc Hj Hl Ho Hq Ht. destruct (site_of c j s Hc Hj) as (l' & Hl' & Hin & Hok). simplify_eq.
  pose proof (gi_tpc _ _ _ _ (so_inv _ _ _ _ _ _ _ Hok) _ _ _ _ Ht Hq) as Htp.
  destruct q; try done. destruct Htp as (_ & pick & [= <-] & Hp). unfold pool_picker in Hp.
  destruct (key_owner_host k l Hin) as (l' & _ & Ho' & Hpick). rewrite (Hpick l Hin) in Hp.
  rewrite bool_decide_eq_true_2 in Hp by congruence. done.
Qed.

Lemma cannot_step c i s t : cstep Marshal Unmarshal (CRun i (Step t)) c = None → sites c !! i = Some s →
  gstep (Step t) (sys s) = None.
Proof using. cbn [cstep]. intros H Hi. rewrite Hi in H. cbn [mbind option_bind] in H. by destruct (gstep _ _). Qed.

(** Nobody asks when only failures can happen: the request could be sent, or its
    answer received, since nothing that the owner does for it depends on
    another node. *)
Lemma nobody_asks_peer c i s t peer : cluster_inv c → only_failures Marshal Unmarshal c → sites c !! i = Some s →
  tpcs (sys s) !! t ≠ Some (TFn (FPeer peer)).
Proof using Hsize Hring Hlaunch Hgslash Hgspace.
  intros Hc [Hnet Hrun] Hi Ht. destruct (asking_peer c i t s peer Hc Hi Ht) as (k & h & Ha).
  destruct (Hnet i t) as [Hsend Hreply]. cbn [cstep] in Hsend, Hreply.
  destruct (sent c !! (i, t)) as [[j u]|] eqn:Hsent.
  2: { destruct (send_spec c i t s k h Hc Ha Hsent) as (? & ? & ? & _ & _ & _ & _ & Hs). congruence. }
  destruct (proj2 Hc i t j u Hsent) as (l & l' & k' & _ & _ & Hl' & Ho & Hk1 & Hk2).
  unfold key_at in Hk2. destruct (sites c !! j) as [s'|] eqn:Hj; [|done]. cbn in Hk2.
  pose proof (server_key c i t j u s k h s' Hc Ha Hsent Hj) as Hku. rewrite Hku in Hk2. injection Hk2 as <-.
  destruct (site_of c j s' Hc Hj) as (l2 & Hl2 & Hin & Hok). simplify_eq.
  apply list_lookup_fmap_Some in Hku as ([k1 q] & Hkk & Hq). cbn in Hkk. subst k1.
  destruct (stopped_key (group l') (site_keys s') answers (group_peers_ok l' Hin) (sys s') k) with (t := u) (q := q)
    as [(v & e & Hv) _]; [apply Hok|..|done|].
  - intros t' q' p' Hq'. by eapply owner_does_not_ask.
  - intros t' Hnp. eapply cannot_step; [|exact Hj]. by apply (Hrun j s').
  - destruct (answered_enabled c i t j u s k h s' v e Ha Hsent Hj Hv) as [c' Hc']. congruence.
Qed.

(** ** Properties *)

(** C2: a cluster under concurrent requests is its data source: in every
    interleaving of the requests on all nodes, of the ones the nodes send to
    each other, of their answers and of their failures, a call of Get that has
    returned, on whichever node, has an answer of the source for its own key,
    or the error for the empty key.

    Required, here and for the next theorem: no key of a request holds a space
    (the owner would be asked for the key with a plus sign instead,
    [HttpPool.remote_Get_space_lost]); no two virtual nodes of different
    addresses have the same hash; every process has the same addresses, in any
    order; the name of the group has no slash and no space, and hosts have no
    slash; the byte budget is not negative; a getter only answers what the
    source may answer, without writing to the heap it finds; there are
    fewer than 2^63 virtual nodes; and protobuf decodes what it encodes. *)
Theorem cluster_gets_return_answers tr c i l s t key v e :
  crun Marshal Unmarshal tr (start_sites Unmarshal gname bytes ls) = Some c →
  ls !! i = Some l → l_reqs l !! t = Some key →
  sites c !! i = Some s → tpcs (sys s) !! t = Some (TRet v e) →
  if bool_decide (key = "") then e = Some "key is required"
  else match e with
       | None => answers key (inl (ByteView_String v (heap (world (sys s)))))
       | Some x => answers key (inr x)
       end.
Proof using Hmarshal Hgslash Hgspace Hbytes Hsize Hring Hlaunch.
  intros Hr Hl Hk Hi Ht. pose proof (crun_inv _ _ _ start_cinv Hr) as Hc.
  destruct (site_of c i s Hc Hi) as (l' & Hl' & _ & Hok). simplify_eq.
  destruct (site_keys_tpc l s t _ Hok Ht) as (k & q & Hq & Hk').
  rewrite (prefix_lookup_Some _ _ _ _ Hk (so_reqs _ _ _ _ _ _ _ Hok)) in Hk'. injection Hk' as <-.
  pose proof (gi_tpc _ _ _ _ (so_inv _ _ _ _ _ _ _ Hok) _ _ _ _ Ht Hq) as Htp.
  assert (result_ok answers (sys s) key v e) as Hres by (by destruct q).
  unfold result_ok in Hres. case_bool_decide; [done|]. destruct e; [done|]. apply Hres.
Qed.

(** C5: a cluster under concurrent requests does not deadlock: whatever the
    schedule, it takes at most twenty-two steps for each request, and when
    nothing can happen any more but the failure of requests under way, none is
    under way, and every call of Get, on every node, has returned.  No node
    waits for another one that waits for it, since the owner of a key never
    asks anyone for it. *)
Theorem cluster_gets_all_return tr c :
  crun Marshal Unmarshal tr (start_sites Unmarshal gname bytes ls) = Some c →
  (length (filter counts tr) ≤ 22 * requests ls)%nat ∧
  (only_failures Marshal Unmarshal c → ∀ i l t, ls !! i = Some l → (t < length (l_reqs l))%nat →
    ∃ s v e, sites c !! i = Some s ∧ tpcs (sys s) !! t = Some (TRet v e)).
Proof using Hmarshal Hgslash Hgspace Hbytes Hsize Hring Hlaunch.
  intros Hr. pose proof (crun_inv _ _ _ start_cinv Hr) as Hc. split.
  - pose proof (crun_measure _ _ _ start_cinv Hr) as Hm. rewrite start_cmeasure in Hm. lia.
  - intros Hquiet i l t Hl Ht. destruct (Forall2_lookup_l _ _ _ _ _ (proj1 Hc) Hl) as (s & Hi & Hok).
    destruct (stopped (group l) (site_keys s) answers (group_peers_ok l (list_elem_of_lookup_2 _ _ _ Hl)) (sys s)) as [Hall _].
    + apply Hok.
    + intros u peer. by eapply nobody_asks_peer.
    + intros u. eapply cannot_step; [|exact Hi]. eapply Hquiet; [exact Hi|].
      intros peer. by eapply nobody_asks_peer.
    + destruct (lookup_lt_is_Some_2 (tpcs (sys s)) t) as [p Hp].
      { rewrite (gi_len _ _ _ _ (so_inv _ _ _ _ _ _ _ Hok)), <- (length_fmap fst).
        pose proof (prefix_length _ _ (so_reqs _ _ _ _ _ _ _ Hok)) as Hlen. unfold site_keys in Hlen. lia. }
      destruct (Hall t p Hp) as (v & e & ->). by exists s, v, e.
Qed.
End proofs.

(** ** Witnesses *)

(** Two nodes and the keys they are asked for at the same time; the first owns
    Tom. *)
Definition demo_hosts : list string := ["http://localhost:8001"; "http://localhost:8002"].

Definition demo_launches : list (launch unit) :=
  [mkLaunch "localhost:8001" (reverse demo_hosts) fresh_db (mkWorld [] tt) ["Tom"];
   mkLaunch "localhost:8002" demo_hosts fresh_db (mkWorld [] tt) ["Tom"; "Tom"]].

Abbreviation at_node i := (λ t, CRun i (Step t)).

(** The second node's two requests share a call to the first node, where that
    call shares a load with the request of the first node. *)
Definition demo_trace : list (caction (E := unit)) :=
  (at_node 1 <$> [0; 0; 0; 1; 1]%nat) ++ CSend 1 0 :: (at_node 0 <$> [0; 1; 0; 1; 0; 0; 0; 0; 0; 0; 1; 0]%nat) ++
  CReply 1 0 :: (at_node 1 <$> [0; 0; 0; 1]%nat).

Abbreviation demo_run :=
  (crun tag_marshal tag_unmarshal demo_trace (start_sites tag_unmarshal "scores" 2048 demo_launches)).

Lemma demo_hosts_ring : no_collision (ConsistentHash.New defaultReplicas None) (addresses demo_launches).
Proof. apply NoDup_no_collision. apply (bool_decide_eq_true_1 (NoDup _)). vm_compute. reflexivity. Qed.

Lemma demo_launches_ok : Forall (λ l, addresses demo_launches ≡ₚ l_order l ∧ contains "/" (l_host l) = false ∧
  getter_ok (group_of tag_unmarshal "scores" 2048 l) db_answers ∧ Forall (λ k, contains " " k = false) (l_reqs l))
  demo_launches.
Proof.
  unfold demo_launches. repeat (apply Forall_cons; split).
  - split_and!; [symmetry; apply (reverse_Permutation demo_hosts)|done|exact fresh_getter_ok|repeat constructor].
  - split_and!; [done|done|exact fresh_getter_ok|repeat constructor].
  - constructor.
Qed.

Lemma cluster_gets_return_answers_witness : ∃ c s v, demo_run = Some c ∧ sites c !! 1%nat = Some s ∧
  tpcs (sys s) !! 0%nat = Some (TRet v None) ∧ ByteView_String v (heap (world (sys s))) = [54; 51; 48]%Z ∧
  db_answers "Tom" (inl (ByteView_String v (heap (world (sys s))))).
Proof.
  assert ((λ c, s ← sites c !! 1%nat; p ← tpcs (sys s) !! 0%nat;
    match p with TRet v None => Some (ByteView_String v (heap (world (sys s)))) | _ => None end) <$> demo_run =
    Some (Some [54; 51; 48]%Z)) as H by (vm_compute; reflexivity).
  destruct demo_run as [c|] eqn:Hr; [|discriminate H]. cbn in H. injection H as H.
  destruct (sites c !! 1%nat) as [s|] eqn:Hs; [|discriminate H]. cbn in H.
  destruct (tpcs (sys s) !! 0%nat) as [[| | |v [e|]]|] eqn:Ht; try discriminate H. cbn in H. injection H as H.
  exists c, s, v. split; [reflexivity|]. split; [exact Hs|]. split; [exact Ht|]. split; [exact H|].
  exact (cluster_gets_return_answers tag_marshal tag_unmarshal "scores" 2048 demo_launches db_answers tag_law
    eq_refl eq_refl ltac:(lia) eq_refl demo_hosts_ring demo_launches_ok demo_trace c 1%nat _ s 0%nat "Tom" v None
    Hr eq_refl eq_refl Hs Ht).
Defined.

Definition back (p : tpc unit) : bool := match p with TRet _ _ => true | _ => false end.

Lemma all_back (c : csys unit) : forallb (λ s, forallb back (tpcs (sys s))) (sites c) = true →
  only_failures tag_marshal tag_unmarshal c.
Proof.
  intros H. assert (∀ i s t p, sites c !! i = Some s → tpcs (sys s) !! t = Some p → back p) as Hb.
  { intros i s t p Hi%list_elem_of_lookup_2%list_elem_of_In Ht%list_elem_of_lookup_2%list_elem_of_In.
    rewrite forallb_forall in H. specialize (H s Hi). rewrite forallb_forall in H. apply Is_true_eq_left, (H p Ht). }
  assert (∀ i t, asking i t c = None) as Ha.
  { intros i t. unfold asking. destruct (sites c !! i) as [s|] eqn:Hi; [|done]. cbn [mbind option_bind].
    destruct (tpcs (sys s) !! t) as [p|] eqn:Ht; [|done]. cbn [mbind option_bind]. specialize (Hb i s t p Hi Ht).
    destruct (ths (loader (grp (sys s))) !! t) as [[k q]|]; [|done]. by destruct p. }
  split.
  - intros i t. cbn [cstep]. split; [unfold send; by rewrite Ha|].
    destruct (answered tag_marshal tag_unmarshal i t c) as [c'|] eqn:H2; [|done].
    destruct (answered_spec _ _ c i t c' H2) as (j & u & s & s' & k & h & v & e & r & hp & H3 & _). by rewrite Ha in H3.
  - intros i s t Hi _. cbn [cstep]. rewrite Hi. cbn [mbind option_bind]. unfold gstep.
    destruct (tpcs (sys s) !! t) as [p|] eqn:Ht; [|done]. cbn [mbind option_bind]. specialize (Hb i s t p Hi Ht).
    destruct (ths (loader (grp (sys s))) !! t) as [[k q]|]; [|done]. by destruct p.
Qed.

Lemma cluster_gets_all_return_witness : ∃ c, demo_run = Some c ∧ only_failures tag_marshal tag_unmarshal c ∧
  (length (filter counts demo_trace) ≤ 22 * 3)%nat ∧ ∃ s v e, sites c !! 0%nat = Some s ∧ tpcs (sys s) !! 0%nat = Some (TRet v e).
Proof.
  assert ((λ c, forallb (λ s, forallb back (tpcs (sys s))) (sites c)) <$> demo_run = Some true) as H
    by (vm_compute; reflexivity).
  destruct demo_run as [c|] eqn:Hr; [|discriminate H]. injection H as H.
  pose proof (all_back c H) as Hq.
  destruct (cluster_gets_all_return tag_marshal tag_unmarshal "scores" 2048 demo_launches db_answers tag_law
    eq_refl eq_refl ltac:(lia) eq_refl demo_hosts_ring demo_launches_ok demo_trace c Hr) as [Hlen Hall].
  exists c. split; [reflexivity|]. split; [exact Hq|]. split; [exact Hlen|].
  exact (Hall Hq 0%nat _ 0%nat eq_refl ltac:(cbn; lia)).
Defined.
