(* ===== verification/ClusterCache.v ===== *)
(** * geecache: what a cluster caches under concurrent requests

    Shows, for the clusters of [ClusterRun.v], where values are kept: a node
    that is not the owner of a key caches it only after a request of its own
    for that key has failed, or when the source may answer it with an error. *)

From S2P Require Import Prelude GoStrings ConsistentHash Lru SingleFlight GeeCache GroupRun HttpPool Cluster ClusterRun.

#[local] Open Scope string_scope.

(** ** Specification *)

Section Spec.
Context {E : Type}.
Implicit Types (s : gsys E) (c : csys E).

(** On the way from the getter to the cache. *)
Definition loading (p : tpc E) : bool :=
  match p with TFn FGetter | TFn (FClone _) | TFn (FAdd _) => true | _ => false end.

Definition cached_keys s : list string := (cached (mainCache (grp s))).*1.
Definition key_of s (t : nat) : option string := (ths (loader (grp s))).*1 !! t.

(** The key is in the cache, or about to be. *)
Definition keeps_key s (k : string) : Prop :=
  k ∈ cached_keys s ∨ ∃ t p, tpcs s !! t = Some p ∧ loading p = true ∧ key_of s t = Some k.

(** The node and the key of the request that fails in a step. *)
Definition failure (a : caction (E := E)) c : list (nat * string) :=
  match a with
  | CRun i (Step t) => match asking i t c with Some (_, k, _) => [(i, k)] | None => [] end
  | _ => []
  end.

Fixpoint failures (Marshal Unmarshal : list Z → list Z + string) (tr : list (caction (E := E))) c : list (nat * string) :=
  match tr with
  | [] => []
  | a :: tr =>
      failure a c ++
      match cstep Marshal Unmarshal a c with Some c' => failures Marshal Unmarshal tr c' | None => [] end
  end.
End Spec.

(** ** One node *)

Section Node.
Context {E : Type} (g0 : Group E) (ks : list string) (answers : string → list Z + string → Prop).
Implicit Types (s : gsys E).

(** A goroutine moves, and the cache gets no key that was not on its way. *)
Lemma keeps_move (fresh : Prop) s s' t p p' k : keeps_key s' k → tpcs s !! t = Some p → tpcs s' = <[t := p']> (tpcs s) →
  (ths (loader (grp s'))).*1 = (ths (loader (grp s))).*1 → (∀ x, x ∈ cached_keys s' → keeps_key s x) →
  (loading p' = true → loading p = true ∨ fresh) → keeps_key s k ∨ fresh ∧ key_of s t = Some k.
Proof using.
  intros Hk Ht Htp Hths Hc Hp. destruct Hk as [Hk|(u & x & Hu & Hx & Hk)]; [left; by apply Hc|].
  unfold key_of in Hk. rewrite Hths in Hk. rewrite Htp, (lookup_set _ _ _ _ _ Ht) in Hu.
  case_decide as Htu; [subst u|left; right; by exists u, x]. injection Hu as <-.
  destruct (Hp Hx) as [?|?]; [left; right; by exists t, p|by right].
Qed.

Lemma flight_moves s s' t a : flight t a s = Some s' → ∃ q, tpcs s' = <[t := resume q]> (tpcs s) ∧
  (ths (loader (grp s'))).*1 = (ths (loader (grp s))).*1 ∧ mainCache (grp s') = mainCache (grp s).
Proof using.
  unfold flight. destruct (SingleFlight.step t a (loader (grp s))) as [l|] eqn:Hs; [|done]. cbn [mbind option_bind].
  destruct (ths l !! t) as [[k q]|]; [|done]. intros [= <-]. exists q. split_and!; [done| |done].
  cbn. destruct (step_next _ _ _ _ Hs) as (k' & q0 & q' & Hq & -> & _).
  rewrite list_fmap_insert. apply list_insert_id. by rewrite list_lookup_fmap, Hq.
Qed.

Lemma loading_resume q : loading (E := E) (resume q) = false.
Proof using. destruct q as [| | | | |v e|]; try done. by destruct e, v. Qed.

Lemma keeps_flight s s' t a p k : tpcs s !! t = Some p → flight t a s = Some s' → keeps_key s' k → keeps_key s k.
Proof using.
  intros Ht Hf Hk. destruct (flight_moves s s' t a Hf) as (q & Htp & Hths & Hc).
  destruct (keeps_move False s s' t p (resume q) k) as [?|[[] _]]; try done.
  - intros x. unfold cached_keys. rewrite Hc. by left.
  - by rewrite loading_resume.
Qed.

Lemma keeps_local (fresh : Prop) s s' t p p' k : keeps_key s' k → tpcs s !! t = Some p → tpcs s' = <[t := p']> (tpcs s) →
  loader (grp s') = loader (grp s) → mainCache (grp s') = mainCache (grp s) →
  (loading p' = true → loading p = true ∨ fresh) → keeps_key s k ∨ fresh ∧ key_of s t = Some k.
Proof using.
  intros Hk Ht Htp Hl Hc Hp. apply (keeps_move fresh s s' t p p' k Hk Ht Htp); [by rewrite Hl| |done].
  intros x. unfold cached_keys. rewrite Hc. by left.
Qed.

(** A request that comes back leads to the getter only with an error. *)
Lemma keeps_peer s s' t k0 p0 peer k : tpcs s !! t = Some (TFn (FPeer p0)) → key_of s t = Some k0 →
  fn_step t k0 (FPeer peer) s = Some s' → keeps_key s' k →
  keeps_key s k ∨ k = k0 ∧ ∃ e sl w, peer (name (grp s)) k0 (world s) = (Some e, sl, w).
Proof using.
  intros Ht Hk0 H Hk. cbn [fn_step] in H. unfold getFromPeer in H.
  destruct (peer (name (grp s)) k0 (world s)) as [[[e|] sl] w] eqn:Hp; injection H as <-.
  - destruct (keeps_local True _ _ t _ (TFn FGetter) k Hk Ht eq_refl eq_refl eq_refl (λ _, or_intror I))
      as [?|[_ Hkk]]; [by left|right]. split; [congruence|]. by exists e, sl, w.
  - left. by destruct (keeps_local False _ _ t _ (TFn (FRet (mkView sl) None)) k Hk Ht eq_refl eq_refl eq_refl ltac:(done)) as [?|[[] _]].
Qed.

(** A key comes to a node when no peer was picked for it, or the one that was
    picked is asked, in vain. *)
Lemma keeps_gstep a s s' k : ginv g0 ks answers s → gstep a s = Some s' → keeps_key s' k →
  keeps_key s k ∨ ∃ t, a = Step t ∧ key_of s t = Some k ∧
    ((tpcs s !! t = Some (TFn FPick) ∧ ∀ pick, peers g0 = Some pick → pick k = Ret None) ∨
     ∃ peer, tpcs s !! t = Some (TFn (FPeer peer))).
Proof using.
  intros Hi H Hk. destruct a as [t|w]; cbn in H; [|destruct (allowed s w); simplify_eq; by left].
  destruct (tpcs s !! t) as [p|] eqn:Ht; [|done]. cbn in H.
  destruct (ths (loader (grp s)) !! t) as [[key q]|] eqn:Hq; [|done]. cbn in H.
  assert (key_of s t = Some key) as Hkey by (unfold key_of; by rewrite list_lookup_fmap, Hq).
  pose proof Hi as [_ _ Htp Hc _ _ (Hn & Hg & Hpp)]. specialize (Htp t p key q Ht Hq).
  destruct p as [| |f|v e]; [| | |done].
  - case_bool_decide; [injection H as <-; left;
      by destruct (keeps_local False _ _ t _ _ k Hk Ht eq_refl eq_refl eq_refl ltac:(done)) as [?|[[] _]]|].
    destruct (cache_get_ok key _ Hc) as (c' & Hget & _ & Hcd & _). rewrite Hget in H. left.
    assert (∀ p', loading p' = false → s' = set_tpc t p' (set_cache c' s) → keeps_key s k) as Hmove.
    { intros p' Hp' ->. destruct (keeps_move False s _ t TCache p' k Hk Ht eq_refl eq_refl) as [?|[[] _]]; try done.
      - intros x. unfold cached_keys. cbn. rewrite Hcd. intros ((kx & v) & -> & Hx)%list_elem_of_fmap.
        left. apply (list_elem_of_fmap_2 fst _ (kx, v)). by eapply Lru.abs_get_subseteq.
      - by rewrite Hp'. }
    destruct (Lru.abs_find key _); injection H as <-; by refine (Hmove _ _ eq_refl).
  - left. destruct q; cbn in H; try done; by eapply keeps_flight.
  - destruct q as [| |cl| | | |]; try done. destruct f as [|peer| |sl|v|v e]; [| |left..].
    all: try (cbn [fn_step] in H).
    + assert (∀ p', s' = set_tpc t p' s → keeps_key s k ∨ key_of s t = Some k) as Hmove.
      { intros p' ->. destruct (keeps_local True _ _ t _ _ k Hk Ht eq_refl eq_refl eq_refl (λ _, or_intror I)) as [?|[_ ?]]; auto. }
      destruct (peers (grp s)) as [pick|] eqn:Hpk.
      * destruct (pick key) as [[peer|]| |] eqn:Hpick; try done; injection H as <-.
        -- left. by destruct (keeps_local False _ _ t _ _ k Hk Ht eq_refl eq_refl eq_refl ltac:(done)) as [?|[[] _]].
        -- destruct (Hmove _ eq_refl) as [?|Hkk]; [by left|right]. exists t. split_and!; [done|done|left].
           split; [done|]. intros pick' Hp'. rewrite Hp', Hkey in *. by simplify_eq.
      * injection H as <-. destruct (Hmove _ eq_refl) as [?|Hkk]; [by left|right]. exists t. split_and!; [done|done|left].
        split; [done|]. intros pick' Hp'. by rewrite <- Hpp in Hp'.
    + destruct (keeps_peer s s' t key peer peer k Ht Hkey H Hk) as [?|[-> _]]; [by left|right].
      exists t. split_and!; [done|done|by right; exists peer].
    + destruct (getter (grp s) key (world s)) as [[bytes [e|]] w]; injection H as <-;
        by destruct (keeps_local False _ _ t _ _ k Hk Ht eq_refl eq_refl eq_refl ltac:(by left)) as [?|[[] _]].
    + destruct (cloneBytes sl (heap (world s))) as [c h]; injection H as <-;
        by destruct (keeps_local False _ _ t _ _ k Hk Ht eq_refl eq_refl eq_refl ltac:(by left)) as [?|[[] _]].
    + unfold populateCache in H. destruct (cache_add_ok key v _ Hc) as (c' & Hadd & _ & _ & _ & Hsub). rewrite Hadd in H.
      injection H as <-. destruct (keeps_move False s _ t (TFn (FAdd v)) _ k Hk Ht eq_refl eq_refl) as [?|[[] _]]; try done.
      intros x. unfold cached_keys. cbn. intros ((kx & vx) & -> & Hx)%list_elem_of_fmap.
      apply Hsub, elem_of_cons in Hx as [[= -> ->]|Hx]; [right; by exists t, (TFn (FAdd v))|].
      left. by apply (list_elem_of_fmap_2 fst _ (kx, vx)).
    + by eapply keeps_flight.
Qed.
End Node.

(** ** The cluster *)

Section Cluster.
Context (Marshal Unmarshal : list Z → list Z + string) {E : Type}.
Context (gname : string) (bytes : Z) (ls : list (launch E)) (answers : string → list Z + string → Prop).
Context (Hmarshal : ∀ x, ∃ y, Marshal x = inl y ∧ Unmarshal y = inl x).
Context (Hgslash : contains "/" gname = false) (Hgspace : contains " " gname = false) (Hbytes : (0 ≤ bytes)%Z).
Context (Hsize : (50 * Z.of_nat (length ls) < 2 ^ 63)%Z)
  (Hring : no_collision (ConsistentHash.New defaultReplicas None) (addresses ls)).
Context (Hlaunch : Forall (λ l, addresses ls ≡ₚ l_order l ∧ contains "/" (l_host l) = false ∧
  getter_ok (group_of Unmarshal gname bytes l) answers ∧
  Forall (λ k, contains " " k = false) (l_reqs l)) ls).
Implicit Types (c : csys E) (s : site E) (l : launch E).

Abbreviation cluster_inv := (cinv Unmarshal gname bytes ls answers).

(** A key is kept by its owner, or by a node in [fs], or the source may fail. *)
Definition kept_right (fs : list (nat * string)) c : Prop := ∀ i l s k, ls !! i = Some l → sites c !! i = Some s →
  keeps_key (sys s) k → owner (addresses ls) k = Ret (address l) ∨ (i, k) ∈ fs ∨ ∃ x, answers k (inr x).

(** One site changes, and keeps nothing new without a reason. *)
Lemma kept_site fs c i s s' : kept_right fs c → sites c !! i = Some s →
  (∀ l k, ls !! i = Some l → keeps_key (sys s') k → keeps_key (sys s) k ∨
    (owner (addresses ls) k = Ret (address l) ∨ (i, k) ∈ fs ∨ ∃ x, answers k (inr x))) →
  kept_right fs (with_site i s' c).
Proof using.
  intros Hk Hi Hs j l s0 k Hl Hj Hkk. cbn in Hj. rewrite (lookup_set _ _ _ _ _ Hi) in Hj.
  case_decide as Hij; [subst j; injection Hj as <-|by eapply Hk].
  destruct (Hs l k Hl Hkk) as [?|?]; [by eapply Hk|done].
Qed.

Lemma kept_receive fs c i t s k h res c' : cluster_inv c → kept_right fs c → asking i t c = Some (s, k, h) →
  value_or_error Unmarshal answers k res → receive Unmarshal i t res c = Some c' → kept_right fs c'.
Proof using Hsize Hring Hlaunch.
  intros Hc Hk Ha Hv H. unfold receive in H. rewrite Ha in H. cbn [mbind option_bind] in H.
  destruct (asking_spec Unmarshal gname bytes ls answers Hsize Hring Hlaunch c i t s k h Hc Ha)
    as (l & l' & p & cl & Hi & Hl & Hok & Ht & Hq & _).
  destruct (fn_step _ _ _ _) as [g|] eqn:Hst; [|done]. injection H as <-. apply (kept_site fs c i s); [done|done|].
  intros l0 x _ Hx.
  assert (key_of (sys s) t = Some k) as Hkey by (unfold key_of; by rewrite list_lookup_fmap, Hq).
  destruct (keeps_peer _ _ _ _ _ _ x Ht Hkey Hst Hx) as [?|[-> (e & sl & w & He)]]; [by left|right; right; right].
  destruct Hv as [(body & v & -> & Hu)|?]; [|done]. unfold httpGetter_Get in He. cbn in He. by rewrite Hu in He.
Qed.

Lemma kept_arrive s k x : length (tpcs (sys s)) = length (ths (loader (grp (sys s)))) →
  keeps_key (arrive k (sys s)) x → keeps_key (sys s) x.
Proof using.
  intros Hl [Hx|(t & p & Ht & Hp & Hk)]; [by left|right]. cbn in Ht. apply lookup_snoc_Some in Ht as [[Hlt Ht]|[_ <-]]; [|done].
  exists t, p. split_and!; [done|done|]. unfold key_of, arrive in Hk. cbn in Hk. rewrite fmap_app, lookup_app_l in Hk; [done|].
  by rewrite length_fmap, <- Hl.
Qed.

Lemma kept_send fs c i t c' : cluster_inv c → kept_right fs c → send Unmarshal i t c = Some c' → kept_right fs c'.
Proof using Hsize Hring Hlaunch Hgslash Hgspace.
  intros Hc Hk H. destruct (asking i t c) as [[[s k] h]|] eqn:Ha; [|unfold send in H; by rewrite Ha in H].
  destruct (sent c !! (i, t)) eqn:Hsent; [unfold send in H; rewrite Ha in H; cbn in H; by rewrite Hsent in H|].
  destruct (send_spec Unmarshal gname bytes ls answers Hgslash Hgspace Hsize Hring Hlaunch c i t s k h Hc Ha Hsent)
    as (j & s' & l' & Hj & Hl' & Hok' & Ho & Hsd).
  rewrite Hsd in H. injection H as <-. intros j2 l s2 x Hl Hj2 Hx.
  refine (kept_site fs c j s' (set_sys (arrive k (sys s')) s') Hk Hj _ j2 l s2 x Hl Hj2 Hx).
  intros l2 y _ Hy. left. eapply kept_arrive; [|exact Hy]. by apply (gi_len _ _ _ _ (so_inv _ _ _ _ _ _ _ Hok')).
Qed.

Lemma kept_answered fs c i t c' : cluster_inv c → kept_right fs c → answered Marshal Unmarshal i t c = Some c' →
  kept_right fs c'.
Proof using Hmarshal Hsize Hring Hlaunch.
  intros Hc Hk H.
  destruct (answered_receive Marshal Unmarshal gname bytes ls answers Hmarshal Hsize Hring Hlaunch c i t c' Hc H)
    as (c1 & s & k & h & res & Hc1 & _ & Ha & _ & Hr & Hv & Hsame).
  eapply kept_receive; [exact Hc1| |exact Ha|exact Hv|exact Hr].
  intros j l s1 x Hl Hj Hx. destruct (Hsame j s1 Hj) as (s0 & Hj0 & Ht & Hg). apply (Hk j l s0 x Hl Hj0).
  unfold keeps_key, cached_keys, key_of in *. by rewrite <- Ht, <- Hg.
Qed.

Lemma kept_mono fs fs' c : kept_right fs c → fs ⊆ fs' → kept_right fs' c.
Proof using. intros Hk Hf i l s k Hl Hi Hx. destruct (Hk i l s k Hl Hi Hx) as [?|[?|?]]; auto. Qed.

Lemma kept_run (fs : list (nat * string)) c i t s k : cluster_inv c → sites c !! i = Some s → key_of (sys s) t = Some k →
  (∃ peer, tpcs (sys s) !! t = Some (TFn (FPeer peer))) → (i, k) ∈ (fs ++ failure (CRun i (Step t)) c)%list.
Proof using Hsize Hring Hlaunch.
  intros Hc Hi Hk [peer Ht].
  destruct (asking_peer Unmarshal gname bytes ls answers Hsize Hring Hlaunch c i t s peer Hc Hi Ht) as (k' & h & Ha).
  destruct (asking_spec Unmarshal gname bytes ls answers Hsize Hring Hlaunch c i t s k' h Hc Ha)
    as (_ & _ & _ & cl & _ & _ & _ & _ & Hq & _).
  unfold key_of in Hk. rewrite list_lookup_fmap, Hq in Hk. injection Hk as <-.
  apply elem_of_app. right. cbn [failure]. rewrite Ha. by left.
Qed.

Lemma kept_cstep fs a c c' : cluster_inv c → kept_right fs c → cstep Marshal Unmarshal a c = Some c' →
  kept_right (fs ++ failure a c)%list c'.
Proof using Hmarshal Hsize Hring Hlaunch Hgslash Hgspace.
  intros Hc Hk H. destruct a as [i a|i t|i t]; cbn [failure]; rewrite ?app_nil_r;
    [|by eapply kept_send|by eapply kept_answered].
  cbn [cstep] in H. destruct (sites c !! i) as [s|] eqn:Hi; [|done]. cbn [mbind option_bind] in H.
  destruct (gstep a (sys s)) as [g|] eqn:Hg; [|done]. injection H as <-.
  destruct (site_of Unmarshal gname bytes ls answers c i s Hc Hi) as (l & Hl & Hin & Hok).
  apply (kept_site _ c i s); [by eapply kept_mono; [exact Hk|apply list_subseteq_app_l]|done|].
  intros l0 k Hl0 Hx. simplify_eq.
  destruct (keeps_gstep _ _ _ a (sys s) g k (so_inv _ _ _ _ _ _ _ Hok) Hg Hx) as [?|(t & -> & Hkt & [[Ht Hp]|Hpeer])];
    [by left|right; left|right; right; left].
  - specialize (Hp _ eq_refl). unfold pool_picker in Hp.
    destruct (key_owner_host Unmarshal gname bytes ls answers Hsize Hring Hlaunch k l Hin) as (l' & _ & Ho & Hpick).
    rewrite (Hpick l Hin) in Hp. case_bool_decide as Haddr; [congruence|done].
  - by eapply kept_run.
Qed.

Lemma kept_crun fs tr c c' : cluster_inv c → kept_right fs c → crun Marshal Unmarshal tr c = Some c' →
  kept_right (fs ++ failures Marshal Unmarshal tr c)%list c'.
Proof using Hmarshal Hsize Hring Hlaunch Hgslash Hgspace.
  revert fs c. induction tr as [|a tr IH]; intros fs c Hc Hk H; cbn [crun failures] in *.
  - injection H as <-. by rewrite app_nil_r.
  - destruct (cstep Marshal Unmarshal a c) as [c1|] eqn:Hst; [|done]. rewrite app_assoc. apply IH; [| |done].
    + eapply cstep_inv; try done.
    + by apply kept_cstep.
Qed.

(** ** Properties *)

(** C14: under concurrent requests a key stays with its owner: in every interleaving,
    a node that has a key in its cache is the owner of the key, or a request
    that it sent to the owner for that very key failed on the way, or the
    source may answer the key with an error.

    Required: no key of a request holds a space (the owner would be asked for
    the key with a plus sign instead, and an error for that one would make the
    node load the key itself); no two virtual nodes of different addresses have
    the same hash; every process has the same addresses, in any order; the name
    of the group has no slash and no space, and hosts have no slash; the byte
    budget is not negative; getters answer what the source may answer; there
    are fewer than 2^63 virtual nodes; and protobuf decodes what it encodes. *)
Theorem only_owner_caches_concurrently tr c i l s k v :
  crun Marshal Unmarshal tr (start_sites Unmarshal gname bytes ls) = Some c →
  ls !! i = Some l → sites c !! i = Some s → (k, v) ∈ cached (mainCache (grp (sys s))) →
  owner (addresses ls) k = Ret (address l) ∨
  (i, k) ∈ failures Marshal Unmarshal tr (start_sites Unmarshal gname bytes ls) ∨
  ∃ x, answers k (inr x).
Proof using Hmarshal Hgslash Hgspace Hbytes Hsize Hring Hlaunch.
  intros Hr Hl Hi Hkv. eapply (kept_crun [] tr); [by apply start_cinv| |exact Hr|exact Hl|exact Hi|].
  - intros j l0 s0 k0 _ Hj. cbn in Hj. apply list_lookup_fmap_Some in Hj as (l1 & -> & _).
    intros [Hx|(t & p & Ht & Hp & _)]; [by apply elem_of_nil in Hx|].
    cbn in Ht. by apply lookup_replicate in Ht as [-> _].
  - left. by apply (list_elem_of_fmap_2 fst _ (k, v)).
Qed.
End Cluster.

(** ** Witnesses *)

Lemma only_owner_caches_concurrently_witness : ∃ c s v, demo_run = Some c ∧ sites c !! 0%nat = Some s ∧
  ("Tom", v) ∈ cached (mainCache (grp (sys s))) ∧
  (owner demo_hosts "Tom" = Ret "http://localhost:8001" ∨
   (0%nat, "Tom") ∈ failures tag_marshal tag_unmarshal demo_trace (start_sites tag_unmarshal "scores" 2048 demo_launches) ∨
   ∃ x, db_answers "Tom" (inr x)).
Proof.
  assert ((λ c, (λ s, cached (mainCache (grp (sys s)))) <$> sites c !! 0%nat) <$> demo_run =
    Some (Some [("Tom", mkView (Slice 1 3))])) as H by (vm_compute; reflexivity).
  destruct demo_run as [c|] eqn:Hr; [|discriminate H]. cbn in H. injection H as H.
  destruct (sites c !! 0%nat) as [s|] eqn:Hs; [|discriminate H]. cbn in H. injection H as H.
  exists c, s, (mkView (Slice 1 3)). split; [reflexivity|]. split; [exact Hs|].
  assert (("Tom", mkView (Slice 1 3)) ∈ cached (mainCache (grp (sys s)))) as Hin by (rewrite H; left).
  split; [exact Hin|].
  exact (only_owner_caches_concurrently tag_marshal tag_unmarshal "scores" 2048 demo_launches db_answers tag_law
    eq_refl eq_refl ltac:(lia) eq_refl demo_hosts_ring demo_launches_ok demo_trace c 0%nat _ s "Tom" _ Hr eq_refl Hs Hin).
Defined.
