(* ===== verification/DataPack.v ===== *)
(** * myzinx/znet: messages and their packing on a byte stream

    Models [src/myzinx/znet/message.go], [datapack.go] and [request.go] with
    the functions of the Go library they call: [binary.Write] and
    [binary.Read] of little-endian fields, [io.ReadFull], and the buffered
    reader [bufio.NewReader] of 4096 bytes that [Unpack] puts on the
    connection.  A connection delivers its bytes in chunks, one per successful
    [Read], so what one [Read] returns is visible.  Bytes are integers from 0
    to 255. *)

From S2P Require Import Prelude Conn.

(** ** Messages *)

Record Message := mkMessage { Id : Z; DataLen : Z; Data : list Z }.

Definition NewMsgPackage (id : Z) (data : list Z) : Message :=
  mkMessage id (u32 (Z.of_nat (length data))) data.

Definition GetDataLen (msg : Message) : Z := DataLen msg.
Definition GetMsgId (msg : Message) : Z := Id msg.
Definition GetData (msg : Message) : list Z := Data msg.
Definition SetDataLen (len : Z) (msg : Message) : Message := mkMessage (Id msg) len (Data msg).
Definition SetMsgId (id : Z) (msg : Message) : Message := mkMessage id (DataLen msg) (Data msg).
Definition SetData (data : list Z) (msg : Message) : Message :=
  mkMessage (Id msg) (DataLen msg) data.

(** ** encoding/binary, little endian, 32 bits *)

Definition put_uint32 (v : Z) : list Z :=
  [Z.land v 255; Z.land (Z.shiftr v 8) 255; Z.land (Z.shiftr v 16) 255; Z.land (Z.shiftr v 24) 255].

Definition uint32_of (bs : list Z) : Z :=
  match bs with
  | [b0; b1; b2; b3] =>
      Z.lor b0 (Z.lor (Z.shiftl b1 8) (Z.lor (Z.shiftl b2 16) (Z.shiftl b3 24)))
  | _ => 0
  end.

(** ** The connection and the readers on it *)

Definition defaultBufSize : nat := Z.to_nat 4096.

(** A [bufio.Reader]: the bytes read ahead and the error seen. *)
Record bufReader := mkReader { buf : list Z; rerr : error; rd : conn }.

Definition NewReader (c : conn) : bufReader := mkReader [] None c.

(** [b.Read(p)] with [len(p) = n]. *)
Definition buf_Read (n : nat) (r : bufReader) : list Z * error * bufReader :=
  if bool_decide (n = 0%nat) then
    if bool_decide (buf r = []) then ([], rerr r, mkReader [] None (rd r)) else ([], None, r)
  else if bool_decide (buf r = []) then
    match rerr r with
    | Some e => ([], Some e, mkReader [] None (rd r))
    | None =>
        if bool_decide (defaultBufSize ≤ n)%nat then
          let '(bs, e, c) := conn_Read n (rd r) in (bs, e, mkReader [] None c)
        else
          let '(bs, e, c) := conn_Read defaultBufSize (rd r) in
          if bool_decide (bs = []) then ([], e, mkReader [] None c)
          else (take n bs, None, mkReader (drop n bs) e c)
    end
  else (take n (buf r), None, mkReader (drop n (buf r)) (rerr r) (rd r)).

(** [io.ReadFull(r, p)] with [len(p) = n], [got] bytes of it already read. *)
Fixpoint read_full (fuel : nat) (n : nat) (got : list Z) (r : bufReader)
  : outcome (list Z * error * bufReader) :=
  if bool_decide (length got < n)%nat then
    match fuel with
    | O => NoFuel
    | S fuel =>
        let '(bs, e, r) := buf_Read (n - length got) r in
        let got := got ++ bs in
        match e with
        | None => read_full fuel n got r
        | Some e =>
            if bool_decide (n ≤ length got)%nat then Ret (got, None, r)
            else if bool_decide (0 < length got)%nat && bool_decide (e = EOF)
                 then Ret (got, Some ErrUnexpectedEOF, r)
                 else Ret (got, Some e, r)
        end
    end
  else Ret (got, None, r).

(** Every turn reads a byte or ends. *)
Definition ReadFull (n : nat) (r : bufReader) := read_full (S n) n [] r.

(** ** The codec *)

Definition GetHeadLen : Z := 8.

Definition Pack (msg : Message) : list Z * error :=
  (put_uint32 (GetDataLen msg) ++ put_uint32 (GetMsgId msg) ++ GetData msg, None).

(** [Unpack] on a connection; [max] is [GlobalObject.MaxPackerSize].  The
    connection that is left has lost what the reader had read ahead. *)
Definition Unpack (max : Z) (c : conn) : outcome (option Message * error * conn) :=
  let! (b1, e1, r1) := ReadFull 4 (NewReader c) in
  match e1 with
  | Some e => Ret (None, Some e, rd r1)
  | None =>
      let dataLen := uint32_of b1 in
      let! (b2, e2, r2) := ReadFull 4 r1 in
      match e2 with
      | Some e => Ret (None, Some e, rd r2)
      | None =>
          let id := uint32_of b2 in
          if bool_decide (dataLen < 0 ∨ max < dataLen) then
            Ret (None, Some "Too large msg data recieved"%string, rd r2)
          else
            let! (b3, e3, r3) := ReadFull (Z.to_nat dataLen) r2 in
            match e3 with
            | Some e => Ret (None, Some e, rd r3)
            | None => Ret (Some (mkMessage id dataLen b3), None, rd r3)
            end
      end
  end.

(** ** Specification *)

(** A connection never delivers an empty chunk. *)
Definition conn_ok (c : conn) : Prop := Forall (λ ch, ch ≠ []) (chunks c).

Definition u32_ok (z : Z) : Prop := 0 ≤ z < 2 ^ 32.

(** A reader has [bs] at hand before the chunks [cs]: read ahead, or in the
    chunks in front of [cs]. *)
Definition at_hand (r : bufReader) (bs : list Z) (cs : list (list Z)) (e : string) : Prop :=
  rerr r = None ∧ ending (rd r) = e ∧
  ∃ cs1, chunks (rd r) = cs1 ++ cs ∧ Forall (λ ch, ch ≠ []) cs1 ∧ buf r ++ concat cs1 = bs.

(** The error of a read that finds only [bs] before the end of the stream. *)
Definition short (bs : list Z) (e : string) : error :=
  Some (if bool_decide (0 < length bs)%nat && bool_decide (e = EOF) then ErrUnexpectedEOF else e).

(** One message read off a string of bytes: what [Unpack] computes when the
    chunks are put together. *)
Definition parse (max : Z) (bs : list Z) (e : string) : option Message * error :=
  let head := drop 4 bs in
  let body := drop 8 bs in
  if bool_decide (length bs < 4)%nat then (None, short bs e)
  else if bool_decide (length head < 4)%nat then (None, short head e)
  else
    let dataLen := uint32_of (take 4 bs) in
    if bool_decide (dataLen < 0 ∨ max < dataLen) then (None, Some "Too large msg data recieved"%string)
    else if bool_decide (length body < Z.to_nat dataLen)%nat then (None, short body e)
    else (Some (mkMessage (uint32_of (take 4 head)) dataLen (take (Z.to_nat dataLen) body)), None).

(** ** Requests and the base router *)

(** [request.go]: a connection, here its identifier, and a message. *)
Record Request := mkRequest { req_conn : Z; req_msg : Message }.

Definition GetConnection (r : Request) : Z := req_conn r.
Definition Request_GetData (r : Request) : list Z := GetData (req_msg r).
Definition GetMsgID (r : Request) : Z := GetMsgId (req_msg r).

(** ** Little-endian fields *)

Lemma uint32_put v : u32_ok v → uint32_of (put_uint32 v) = v.
Proof.
  intros [H0 Hlt]. unfold put_uint32, uint32_of. change 255 with (Z.ones 8).
  apply Z.bits_inj'. intros i Hi.
  assert (∀ k, 0 ≤ k → Z.testbit (Z.land (Z.shiftr v k) (Z.ones 8)) (i - k)
                 = (bool_decide (k ≤ i < k + 8) && Z.testbit v i)%bool) as Hb.
  { intros k Hk. rewrite Z.land_spec. destruct (decide (i < k)).
    - rewrite Z.testbit_neg_r by lia. by rewrite bool_decide_eq_false_2 by lia.
    - rewrite Z.shiftr_spec, Z.testbit_ones by lia. replace (i - k + k) with i by lia.
      destruct (decide (i < k + 8)).
      + rewrite bool_decide_eq_true_2, (proj2 (Z.leb_le _ _)), (proj2 (Z.ltb_lt _ _)) by lia.
        by rewrite andb_true_r.
      + rewrite bool_decide_eq_false_2, (proj2 (Z.ltb_ge _ _)) by lia. rewrite !andb_false_r. done. }
  rewrite !Z.lor_spec, !Z.shiftl_spec, !Hb by lia.
  pose proof (Hb 0 ltac:(lia)) as Hb0. rewrite Z.shiftr_0_r, Z.sub_0_r in Hb0. rewrite Hb0.
  destruct (decide (i < 32)).
  - destruct (Z.testbit v i); rewrite ?andb_true_r, ?andb_false_r; [|done].
    repeat case_bool_decide; try done; lia.
  - rewrite (Z.bits_above_log2 v i), !andb_false_r; [done|done|].
    destruct (decide (v = 0)) as [->|]; [cbn; lia|].
    apply Z.lt_le_trans with 32; [|lia]. apply Z.log2_lt_pow2; lia.
Qed.

Lemma length_put_uint32 v : length (put_uint32 v) = 4%nat.
Proof. done. Qed.

(** ** Reading from what is at hand *)

Lemma take_nonempty {A} n (l : list A) : (0 < n)%nat → l ≠ [] → take n l ≠ [].
Proof. destruct n, l; [lia|lia|done|done]. Qed.

Lemma conn_Read_at_hand n ch cs1 cs e : (0 < n)%nat → ch ≠ [] →
  Forall (λ ch, ch ≠ []) cs1 →
  ∃ cs1', conn_Read n (mkConn ((ch :: cs1) ++ cs) e) = (take n ch, None, mkConn (cs1' ++ cs) e) ∧
    Forall (λ ch, ch ≠ []) cs1' ∧ concat cs1' = drop n ch ++ concat cs1.
Proof.
  intros Hn Hch Hall. unfold conn_Read. cbn. case_bool_decide as E.
  - exists cs1. by rewrite E.
  - exists (drop n ch :: cs1). split_and!; [done|by constructor|done].
Qed.

Lemma buf_Read_at_hand n r bs cs e :
  at_hand r bs cs e → (0 < n)%nat → bs ≠ [] → ∃ k r',
  buf_Read n r = (take k bs, None, r') ∧ at_hand r' (drop k bs) cs e ∧
  (0 < k ≤ n)%nat ∧ (k ≤ length bs)%nat.
Proof.
  intros (Hr & He & cs1 & Hcs & Hall & Hbs) Hn Hne. unfold buf_Read.
  rewrite bool_decide_eq_false_2 by lia. destruct r as [bu re [chs en]]. cbn in *. subst re en.
  destruct bu as [|x bu].
  - cbn. destruct cs1 as [|ch cs1]; [by subst|].
    apply Forall_cons in Hall as [Hch Hall]. cbn in Hbs.
    assert (0 < length ch)%nat by (destruct ch; [done|cbn; lia]).
    assert (length bs = length ch + length (concat cs1))%nat as Hlen
      by (by rewrite <- Hbs, length_app).
    case_bool_decide as Hbig; rewrite Hcs.
    + destruct (conn_Read_at_hand n ch cs1 cs e) as (cs1' & Hrd & Hall' & Hc'); [done..|].
      rewrite Hrd. exists (n `min` length ch)%nat. exists (mkReader [] None (mkConn (cs1' ++ cs) e)).
      unfold at_hand. split_and!; [|done|done|exists cs1'; split_and!; [done|done|]|lia|lia|lia].
      * f_equal. f_equal. rewrite <- Hbs, take_app_le by lia. symmetry. apply take_min_length.
      * cbn. rewrite Hc', <- Hbs, drop_app_le by lia. f_equal. symmetry. apply drop_min_length.
    + destruct (conn_Read_at_hand defaultBufSize ch cs1 cs e) as (cs1' & Hrd & Hall' & Hc');
        [unfold defaultBufSize; lia|done..|].
      rewrite Hrd. rewrite bool_decide_eq_false_2
        by (apply take_nonempty; [unfold defaultBufSize; lia|done]).
      exists (n `min` length ch)%nat. exists (mkReader (drop n (take defaultBufSize ch)) None (mkConn (cs1' ++ cs) e)).
      unfold at_hand. split_and!; [|done|done|exists cs1'; split_and!; [done|done|]|lia|lia|lia].
      * f_equal. f_equal. rewrite <- Hbs, take_app_le, take_take by lia.
        rewrite take_min_length. f_equal. lia.
      * cbn. rewrite Hc', <- Hbs, drop_app_le, drop_min_length by lia.
        rewrite app_assoc. f_equal. apply drop_take_drop. lia.
  - change ((x :: bu) ++ concat cs1 = bs) in Hbs.
    exists (n `min` length (x :: bu))%nat. exists (mkReader (drop n (x :: bu)) None (mkConn chs e)). cbn -[take drop Nat.min length].
    unfold at_hand. split_and!; [|done|done|exists cs1; split_and!; [done|done|]| | |].
    + f_equal. f_equal. rewrite <- Hbs, take_app_le by lia. symmetry. apply take_min_length.
    + cbn -[take drop Nat.min length]. rewrite <- Hbs, drop_app_le, drop_min_length by lia. done.
    + cbn [length]. lia.
    + lia.
    + rewrite <- Hbs, length_app. lia.
Qed.

Lemma buf_Read_end n r e : at_hand r [] [] e → (0 < n)%nat →
  ∃ r', buf_Read n r = ([], Some e, r').
Proof.
  intros (Hr & He & cs1 & Hcs & Hall & Hbs) Hn. unfold buf_Read.
  rewrite bool_decide_eq_false_2 by lia. destruct r as [bu re [chs en]]. cbn in *. subst re en.
  apply app_eq_nil in Hbs as [-> Hc]. rewrite app_nil_r in Hcs. subst chs.
  assert (cs1 = []) as ->.
  { destruct cs1 as [|ch cs1]; [done|]. apply Forall_cons in Hall as [Hch _]. cbn in Hc.
    by apply app_eq_nil in Hc as [-> _]. }
  cbn. case_bool_decide; eauto.
Qed.

Lemma read_full_enough fuel n got r bs cs e :
  at_hand r bs cs e → (length got ≤ n ≤ length got + length bs)%nat →
  (n - length got ≤ fuel)%nat → ∃ r',
  read_full fuel n got r = Ret (got ++ take (n - length got) bs, None, r') ∧
  at_hand r' (drop (n - length got) bs) cs e.
Proof.
  revert got r bs. induction fuel as [|fuel IH]; intros got r bs Hr Hn Hf; cbn [read_full];
    case_bool_decide as Hlt.
  - lia.
  - replace (n - length got)%nat with 0%nat by lia. rewrite take_0, drop_0, app_nil_r. eauto.
  - assert (bs ≠ []) by (intros ->; cbn in *; lia).
    destruct (buf_Read_at_hand (n - length got) r bs cs e) as (k & r' & -> & Hr' & Hk & Hkb);
      [done|lia|done|].
    destruct (IH (got ++ take k bs) r' (drop k bs)) as (r'' & -> & Hr''); [done|..];
      rewrite ?length_app, ?length_take, ?length_drop, ?Nat.min_l by lia; [lia|lia|].
    rewrite length_app, length_take, Nat.min_l in Hr'' by lia.
    exists r''. rewrite <- app_assoc, drop_drop in *.
    replace (k + (n - (length got + k)))%nat with (n - length got)%nat in Hr'' by lia.
    split; [|done]. repeat f_equal. rewrite take_drop_commute.
    replace (k + (n - (length got + k)))%nat with (n - length got)%nat by lia.
    rewrite <- (take_drop k (take (n - length got) bs)) at 2.
    f_equal. by rewrite take_take, Nat.min_l by lia.
  - replace (n - length got)%nat with 0%nat by lia. rewrite take_0, drop_0, app_nil_r. eauto.
Qed.

Lemma read_full_short fuel n got r bs e :
  at_hand r bs [] e → (length got + length bs < n)%nat → (length bs < fuel)%nat → ∃ r',
  read_full fuel n got r = Ret (got ++ bs, short (got ++ bs) e, r').
Proof.
  revert got r bs. induction fuel as [|fuel IH]; intros got r bs Hr Hn Hf; cbn [read_full]; [lia|].
  rewrite bool_decide_eq_true_2 by lia. destruct (decide (bs = [])) as [->|Hbs].
  - destruct (buf_Read_end (n - length got) r e) as [r' ->]; [done|lia|].
    rewrite app_nil_r. cbn in *. rewrite bool_decide_eq_false_2 by lia. unfold short. cases; eauto.
  - destruct (buf_Read_at_hand (n - length got) r bs [] e) as (k & r' & -> & Hr' & Hk & Hkb);
      [done|lia|done|].
    destruct (IH (got ++ take k bs) r' (drop k bs)) as (r'' & ->); [done|..];
      rewrite ?length_app, ?length_take, ?length_drop, ?Nat.min_l by lia; [lia|lia|].
    rewrite <- app_assoc, take_drop. eauto.
Qed.

#[local] Arguments ReadFull : simpl never.

Lemma ReadFull_enough n r bs cs e : at_hand r bs cs e → (n ≤ length bs)%nat → ∃ r',
  ReadFull n r = Ret (take n bs, None, r') ∧ at_hand r' (drop n bs) cs e.
Proof.
  intros Hr Hn. destruct (read_full_enough (S n) n [] r bs cs e) as (r' & H); [done|cbn; lia..|].
  cbn [length] in H. rewrite Nat.sub_0_r in H. eauto.
Qed.

Lemma ReadFull_short n r bs e : at_hand r bs [] e → (length bs < n)%nat → ∃ r',
  ReadFull n r = Ret (bs, short bs e, r').
Proof. intros Hr Hn. apply (read_full_short (S n) n [] r bs e); [done|cbn; lia..]. Qed.

Lemma NewReader_at_hand cs1 cs e : Forall (λ ch, ch ≠ []) cs1 →
  at_hand (NewReader (mkConn (cs1 ++ cs) e)) (concat cs1) cs e.
Proof. intros H. repeat split. exists cs1. auto. Qed.

(** ** Unpack *)

(** C10: decoding always returns, and the message or error it returns is [parse]
    of the bytes the connection delivers: the message when there are enough
    bytes, "EOF" when the stream ends between two fields, "unexpected EOF"
    inside one, the size error when the announced length exceeds the maximum,
    however the bytes are cut into chunks. *)
Theorem Unpack_parses max c : conn_ok c →
  ∃ c', Unpack max c = Ret (parse max (concat (chunks c)) (ending c), c').
Proof.
  destruct c as [cs e]. intros Hc. pose proof (NewReader_at_hand cs [] e Hc) as Hr.
  rewrite app_nil_r in Hr. unfold Unpack, parse. cbn [chunks ending].
  set (bs := concat cs) in *.
  destruct (bool_decide_reflect (length bs < 4)%nat) as [H4|H4].
  { destruct (ReadFull_short 4 _ bs e Hr H4) as [r1 ->]. cbn. eauto. }
  destruct (ReadFull_enough 4 _ bs [] e Hr ltac:(lia)) as (r1 & -> & Hr1). cbn [obind].
  destruct (bool_decide_reflect (length (drop 4 bs) < 4)%nat) as [H8|H8].
  { destruct (ReadFull_short 4 _ _ e Hr1 H8) as [r2 ->]. cbn. eauto. }
  destruct (ReadFull_enough 4 _ _ [] e Hr1 ltac:(lia)) as (r2 & -> & Hr2). cbn [obind].
  destruct (bool_decide_reflect (uint32_of (take 4 bs) < 0 ∨ max < uint32_of (take 4 bs)));
    [eauto|].
  rewrite drop_drop in Hr2. change (4 + 4)%nat with 8%nat in Hr2.
  destruct (bool_decide_reflect
    (length (drop 8 bs) < Z.to_nat (uint32_of (take 4 bs)))%nat) as [Hb|Hb].
  { destruct (ReadFull_short _ _ _ e Hr2 Hb) as [r3 ->]. cbn. eauto. }
  destruct (ReadFull_enough (Z.to_nat (uint32_of (take 4 bs))) _ _ [] e Hr2) as (r3 & -> & _);
    [lia|cbn; eauto].
Qed.

Lemma take_put v l : take 4 (put_uint32 v ++ l) = put_uint32 v.
Proof. done. Qed.

Lemma drop_put v l : drop 4 (put_uint32 v ++ l) = l.
Proof. done. Qed.

(** When the chunks up to [cs1] are exactly a packed message, Unpack consumes
    those chunks. *)
Lemma Unpack_prefix max cs1 cs e msg rest :
  Forall (λ ch, ch ≠ []) cs1 → concat cs1 = (Pack msg).1 ++ rest → u32_ok (Id msg) →
  DataLen msg = Z.of_nat (length (Data msg)) → u32_ok (DataLen msg) → DataLen msg ≤ max → ∃ r,
  Unpack max (mkConn (cs1 ++ cs) e) = Ret (Some msg, None, rd r) ∧ at_hand r rest cs e.
Proof.
  intros Hcs Hbs Hid Hlen Hu Hmax. pose proof (NewReader_at_hand cs1 cs e Hcs) as Hr.
  rewrite Hbs in Hr. unfold Pack, GetDataLen, GetMsgId, GetData in Hr. cbn [fst] in Hr.
  rewrite <- !app_assoc in Hr. unfold Unpack.
  destruct (ReadFull_enough 4 _ _ cs e Hr) as (r1 & -> & Hr1).
  { rewrite length_app, length_put_uint32. lia. }
  rewrite take_put, drop_put in *. cbn [obind]. rewrite uint32_put by done.
  destruct (ReadFull_enough 4 _ _ cs e Hr1) as (r2 & -> & Hr2).
  { rewrite length_app, length_put_uint32. lia. }
  rewrite take_put, drop_put in *. cbn [obind]. rewrite uint32_put by done.
  rewrite bool_decide_eq_false_2 by (unfold u32_ok in *; lia).
  destruct (ReadFull_enough (Z.to_nat (DataLen msg)) _ _ cs e Hr2) as (r3 & -> & Hr3).
  { rewrite length_app. lia. }
  rewrite Hlen, Nat2Z.id, take_app_length, drop_app_length in *. cbn. exists r3. split; [|done].
  rewrite <- Hlen. by destruct msg.
Qed.

Lemma concat_nil_inv (cs1 : list (list Z)) :
  Forall (λ ch, ch ≠ []) cs1 → concat cs1 = [] → cs1 = [].
Proof.
  intros Hall Hc. destruct cs1 as [|ch cs1]; [done|]. apply Forall_cons in Hall as [Hch _].
  cbn in Hc. by apply app_eq_nil in Hc as [-> _].
Qed.

(** C24: a message packed by the sender is unpacked by the receiver as it was,
    however the network cuts its bytes into chunks, and the chunks after it are
    left on the connection. *)
Theorem Unpack_Pack max cs1 cs e id data :
  Forall (λ ch, ch ≠ []) cs1 → concat cs1 = (Pack (NewMsgPackage id data)).1 →
  u32_ok id → Z.of_nat (length data) < 2 ^ 32 → Z.of_nat (length data) ≤ max →
  Unpack max (mkConn (cs1 ++ cs) e) = Ret (Some (NewMsgPackage id data), None, mkConn cs e).
Proof.
  intros Hcs Hbs Hid Hlen Hmax.
  assert (DataLen (NewMsgPackage id data) = Z.of_nat (length data)) as HL
    by (cbn; apply wrapu_small; lia).
  destruct (Unpack_prefix max cs1 cs e (NewMsgPackage id data) []) as (r & -> & Hr);
    rewrite ?HL, ?app_nil_r; [done|done|done|done|unfold u32_ok; lia|done|].
  destruct Hr as (_ & He & cs1' & Hch & Hall & Hnil). apply app_eq_nil in Hnil as [_ Hnil].
  apply concat_nil_inv in Hnil; [|done]. subst cs1'. destruct r as [? ? [chs en]]. cbn in *.
  by subst.
Qed.

Lemma Unpack_Pack_witness :
  Unpack 4096 (mkConn ([[2; 0; 0]; [0; 7; 0; 0; 0; 104]; [105]] ++ [[1]]) EOF) =
    Ret (Some (NewMsgPackage 7 [104; 105]), None, mkConn [[1]] EOF).
Proof.
  apply (Unpack_Pack 4096 [[2; 0; 0]; [0; 7; 0; 0; 0; 104]; [105]] [[1]] EOF 7 [104; 105]).
  - repeat constructor; discriminate.
  - reflexivity.
  - unfold u32_ok. lia.
  - cbn. lia.
  - cbn. lia.
Defined.

Lemma Unpack_parses_witness : ∃ c',
  Unpack 4096 (mkConn [[2; 0]; [0; 0; 7; 0]] EOF) = Ret (None, Some ErrUnexpectedEOF, c').
Proof.
  apply (Unpack_parses 4096 (mkConn [[2; 0]; [0; 0; 7; 0]] EOF)).
  repeat constructor; discriminate.
Defined.

(** ** Bytes read ahead *)

Lemma ReadFull_buffered n bs c : (n ≤ length bs)%nat →
  ReadFull n (mkReader bs None c) = Ret (take n bs, None, mkReader (drop n bs) None c).
Proof.
  intros Hn. unfold ReadFull. cbn [read_full length]. destruct (decide (n = 0%nat)) as [->|Hn0]; [done|].
  rewrite bool_decide_eq_true_2 by lia. unfold buf_Read. rewrite Nat.sub_0_r. cbn [buf rerr rd].
  rewrite !bool_decide_eq_false_2 by (destruct bs; cbn in *; lia || done).
  cbn [app]. destruct n; [done|]. cbn [read_full].
  rewrite bool_decide_eq_false_2; [done|]. rewrite length_take. lia.
Qed.

Lemma ReadFull_first n ch cs e : (0 < n < defaultBufSize)%nat → (n ≤ length ch ≤ defaultBufSize)%nat →
  ReadFull n (NewReader (mkConn (ch :: cs) e)) = Ret (take n ch, None, mkReader (drop n ch) None (mkConn cs e)).
Proof.
  intros Hn Hch. unfold ReadFull. destruct n as [|n]; [lia|]. cbn [read_full length].
  rewrite bool_decide_eq_true_2 by lia. unfold buf_Read. rewrite Nat.sub_0_r. cbn [NewReader buf rerr rd].
  rewrite bool_decide_eq_false_2, bool_decide_eq_true_2, bool_decide_eq_false_2 by (lia || done).
  unfold conn_Read. cbn [chunks ending]. rewrite take_ge, drop_ge by lia.
  rewrite bool_decide_eq_false_2 by (intros ->; cbn in *; lia).
  cbn [app]. rewrite bool_decide_eq_false_2; [done|]. rewrite length_take. lia.
Qed.

(** Bytes that arrive in the same chunk as a message and behind it are lost:
    Unpack reads them ahead into a buffered reader that it drops, so a second
    message sent right after the first is never seen by the next Unpack. *)
Theorem Unpack_loses_read_ahead max cs e id data rest :
  u32_ok id → Z.of_nat (length data) < 2 ^ 32 → Z.of_nat (length data) ≤ max →
  (length ((Pack (NewMsgPackage id data)).1 ++ rest) ≤ defaultBufSize)%nat →
  Unpack max (mkConn (((Pack (NewMsgPackage id data)).1 ++ rest) :: cs) e) =
    Ret (Some (NewMsgPackage id data), None, mkConn cs e).
Proof.
  intros Hid Hlen Hmax. assert (u32 (Z.of_nat (length data)) = Z.of_nat (length data)) as HL
    by (apply wrapu_small; lia).
  unfold Pack, NewMsgPackage, GetDataLen, GetMsgId, GetData. cbn [fst Id DataLen Data]. rewrite HL.
  rewrite <- !app_assoc. intros Hbuf. rewrite !length_app, !length_put_uint32 in Hbuf.
  unfold Unpack. rewrite ReadFull_first;
    [|unfold defaultBufSize; lia|rewrite !length_app, !length_put_uint32; lia].
  cbn [obind]. rewrite take_put, drop_put, uint32_put by (unfold u32_ok; lia).
  rewrite ReadFull_buffered by (rewrite !length_app, length_put_uint32; lia).
  cbn [obind]. rewrite take_put, drop_put, uint32_put by done.
  rewrite bool_decide_eq_false_2 by lia.
  rewrite ReadFull_buffered by (rewrite length_app; lia).
  rewrite Nat2Z.id, take_app_length. done.
Qed.

Lemma Unpack_loses_read_ahead_witness :
  let m1 := NewMsgPackage 1 [10] in let m2 := NewMsgPackage 2 [20] in
  Unpack 4096 (mkConn [(Pack m1).1 ++ (Pack m2).1] EOF) = Ret (Some m1, None, mkConn [] EOF).
Proof.
  apply (Unpack_loses_read_ahead 4096 [] EOF 1 [10] (Pack (NewMsgPackage 2 [20])).1).
  - unfold u32_ok. lia.
  - cbn. lia.
  - cbn. lia.
  - vm_compute. lia.
Defined.
