(* ===== verification/MsgHandler.v ===== *)
(** * myzinx: configuration, message handler and worker pool

    Models [src/myzinx/utils/globalobj.go] (the global parameters and their
    reload from the configuration file), [src/myzinx/znet/msghandler.go] (the
    router table, the worker pool and its task queues), [router.go] and the
    parts of [server.go] that set these up.  The pool is a transition system:
    the reader goroutine of each connection hands the requests it reads to
    [SendMsgToTaskQueue], whose accesses to the shared slice [TaskQueue] are
    separate steps (the code takes no lock), and workers receive from bounded
    channels.  A router is known by its identity; what its handlers do is
    recorded as the sequence of calls made to them. *)

From S2P Require Import Prelude Conn DataPack.

(** ** utils/globalobj.go *)

Record GlobalObj := mkGlobalObj {
  Host : string; TcpPort : Z; Name : string; Version : string;
  MaxPackerSize : Z; MaxConn : Z; g_WorkerPoolSize : Z; MaxWorkerTaskLen : Z;
  ConfFilePath : string }.

(** A decoded JSON object: the fields it mentions. *)
Record Config := mkConfig {
  c_Host : option string; c_TcpPort : option Z; c_Name : option string; c_Version : option string;
  c_MaxPackerSize : option Z; c_MaxConn : option Z; c_WorkerPoolSize : option Z;
  c_MaxWorkerTaskLen : option Z; c_ConfFilePath : option string }.

(** [json.Unmarshal] into a struct: a field that is not mentioned keeps its value. *)
Definition Unmarshal (c : Config) (g : GlobalObj) : GlobalObj :=
  mkGlobalObj (default (Host g) (c_Host c)) (default (TcpPort g) (c_TcpPort c))
    (default (Name g) (c_Name c)) (default (Version g) (c_Version c))
    (default (MaxPackerSize g) (c_MaxPackerSize c)) (default (MaxConn g) (c_MaxConn c))
    (default (g_WorkerPoolSize g) (c_WorkerPoolSize c))
    (default (MaxWorkerTaskLen g) (c_MaxWorkerTaskLen c))
    (default (ConfFilePath g) (c_ConfFilePath c)).

(** The file at the fixed path, decoded: an error of the read or of the
    decoder panics. *)
Definition Reload (file : Config + string) (g : GlobalObj) : outcome GlobalObj :=
  match file with
  | inl c => Ret (Unmarshal c g)
  | inr err => Panic err
  end.

Definition GlobalObject_defaults : GlobalObj :=
  mkGlobalObj "0.0.0.0" 7777 "ZinxServerApp" "tcp4" 4096 12000 10 1024 "conf/zinx.json".

(** [init()] *)
Definition GlobalObject_init (file : Config + string) : outcome GlobalObj :=
  Reload file GlobalObject_defaults.

Section MsgHandler.
Context {R : Type}.

(** ** Routers *)

Inductive method := PreHandle | Handle | PostHandle.

(** A call of a router's method. *)
Record event := mkEvent { ev_method : method; ev_router : R; ev_req : Request }.

(** ** The handler *)

(** [TaskQueue] holds nil or a channel, here its position in a heap. *)
Record MsgHandle := mkMsgHandle {
  Apis : gmap Z R; WorkerPoolSize : Z; TaskQueue : list (option nat); IsopenWorkerPool : bool }.

Definition NewMsgHandle (g : GlobalObj) : MsgHandle :=
  mkMsgHandle ∅ (g_WorkerPoolSize g) (replicate (Z.to_nat (g_WorkerPoolSize g)) None) false.

(** The calls it makes, in order. *)
Definition DoMsgHandle (mh : MsgHandle) (req : Request) : list event :=
  match Apis mh !! GetMsgID req with
  | None => []
  | Some handler =>
      [mkEvent PreHandle handler req; mkEvent Handle handler req; mkEvent PostHandle handler req]
  end.

Definition AddRouter (msgID : Z) (router : R) (mh : MsgHandle) : outcome MsgHandle :=
  match Apis mh !! msgID with
  | Some _ => Panic ("repeated api , msgId = " +:+ pretty msgID)
  | None =>
      Ret (mkMsgHandle (<[msgID := router]> (Apis mh)) (WorkerPoolSize mh) (TaskQueue mh)
             (IsopenWorkerPool mh))
  end.

Definition StartWorkerPool (mh : MsgHandle) : MsgHandle :=
  if IsopenWorkerPool mh then mh
  else mkMsgHandle (Apis mh) (WorkerPoolSize mh) (TaskQueue mh) true.

Definition IsOpen (mh : MsgHandle) : bool := IsopenWorkerPool mh.

(** [connID % WorkerPoolSize] *)
Definition workerID (connID : Z) (mh : MsgHandle) : outcome nat :=
  if bool_decide (WorkerPoolSize mh = 0) then Panic "integer divide by zero"
  else Ret (Z.to_nat (connID `mod` WorkerPoolSize mh)).

(** ** server.go *)

Record Server := mkServer {
  s_Name : string; s_IPVersion : string; s_IP : string; s_Port : Z; s_msgHandler : MsgHandle }.

(** Reloads the configuration first; also returns the global object. *)
Definition NewServer (name : string) (file : Config + string) (g : GlobalObj)
  : outcome (Server * GlobalObj) :=
  let! g := Reload file g in
  Ret (mkServer (Name g) (Version g) (Host g) (TcpPort g) (NewMsgHandle g), g).

Definition Server_AddRouter (msgId : Z) (router : R) (s : Server) : outcome Server :=
  let! mh := AddRouter msgId router (s_msgHandler s) in
  Ret (mkServer (s_Name s) (s_IPVersion s) (s_IP s) (s_Port s) mh).

(** The identifiers the accept loop gives to its next [n] connections, from [cid]. *)
Fixpoint accept_cids (n : nat) (cid : Z) : list Z :=
  match n with
  | O => []
  | S n => cid :: accept_cids n (u32 (cid + 1))
  end.

(** ** The pool as a transition system *)

(** Where a connection's reader is: reading the next message, or in
    [SendMsgToTaskQueue] at the test for nil, the [make], the [go] or the send. *)
Inductive rpc :=
  | RRead
  | RCheck (req : Request)
  | RMake (req : Request) (w : nat)
  | RGo (req : Request) (w : nat)
  | RSend (req : Request) (w : nat)
  | RPanic.

(** [seen] is ghost state: the requests the reader has made so far. *)
Record reader := mkRdr { connID : Z; rp : rpc; seen : list Request }.

(** A goroutine that handles requests: a worker on a channel, or the goroutine
    of one request ([on] is [None]); [todo] is what is left of [DoMsgHandle]. *)
Record worker := mkWorker { on : option nat; todo : list event }.

Record sys := mkSys {
  mh : MsgHandle; chans : list (list Request); rdrs : list reader;
  gors : list worker; log : list event }.

Inductive action :=
  | ARead (t : nat) (msg : Message)   (* Unpack returned a message *)
  | ACheck (t : nat)                  (* if mh.TaskQueue[workerID] == nil *)
  | AMake (t : nat)                   (* mh.TaskQueue[workerID] = make(...) *)
  | AGo (t : nat)                     (* go mh.StartOneWorker(...) *)
  | ASend (t : nat)                   (* mh.TaskQueue[workerID] <- request *)
  | AHandoff (t g : nat)              (* the same, to a worker that waits *)
  | ARecv (g : nat)                   (* request := <-taskQueue *)
  | AExec (g : nat).                  (* the next call of DoMsgHandle *)

Definition set_rp (t : nat) (r : reader) (p : rpc) (l : list reader) : list reader :=
  <[t := mkRdr (connID r) p (seen r)]> l.

Definition set_queue (w : nat) (q : nat) (h : MsgHandle) : MsgHandle :=
  mkMsgHandle (Apis h) (WorkerPoolSize h) (<[w := Some q]> (TaskQueue h)) (IsopenWorkerPool h).

(** [TaskQueue[w]], when it is not nil. *)
Definition queue_at (w : nat) (s : sys) : option nat := mjoin (TaskQueue (mh s) !! w).

(** One step; [None] when it cannot be taken now. [cap] is [MaxWorkerTaskLen]. *)
Definition step (cap : nat) (a : action) (s : sys) : option sys :=
  let '(mkSys h chs rs gs lg) := s in
  match a with
  | ARead t msg =>
      r ← rs !! t;
      match rp r with
      | RRead =>
          let req := mkRequest (connID r) msg in
          let r' := mkRdr (connID r) (if IsOpen h then RCheck req else RRead) (seen r ++ [req]) in
          Some (mkSys h chs (<[t := r']> rs)
                  (if IsOpen h then gs else gs ++ [mkWorker None (DoMsgHandle h req)]) lg)
      | _ => None
      end
  | ACheck t =>
      r ← rs !! t;
      match rp r with
      | RCheck req =>
          match workerID (connID r) h with
          | Ret w =>
              match TaskQueue h !! w with
              | None => Some (mkSys h chs (set_rp t r RPanic rs) gs lg)
              | Some None => Some (mkSys h chs (set_rp t r (RMake req w) rs) gs lg)
              | Some (Some _) => Some (mkSys h chs (set_rp t r (RSend req w) rs) gs lg)
              end
          | _ => Some (mkSys h chs (set_rp t r RPanic rs) gs lg)
          end
      | _ => None
      end
  | AMake t =>
      r ← rs !! t;
      match rp r with
      | RMake req w =>
          Some (mkSys (set_queue w (length chs) h) (chs ++ [[]]) (set_rp t r (RGo req w) rs) gs lg)
      | _ => None
      end
  | AGo t =>
      r ← rs !! t;
      match rp r with
      | RGo req w =>
          q ← queue_at w s;
          Some (mkSys h chs (set_rp t r (RSend req w) rs) (gs ++ [mkWorker (Some q) []]) lg)
      | _ => None
      end
  | ASend t =>
      r ← rs !! t;
      match rp r with
      | RSend req w =>
          q ← queue_at w s;
          ch ← chs !! q;
          if bool_decide (length ch < cap)%nat then
            Some (mkSys h (<[q := ch ++ [req]]> chs) (set_rp t r RRead rs) gs lg)
          else None
      | _ => None
      end
  | AHandoff t g =>
      r ← rs !! t; wk ← gs !! g;
      match rp r, todo wk with
      | RSend req w, [] =>
          q ← queue_at w s;
          ch ← chs !! q;
          if bool_decide (ch = [] ∧ on wk = Some q) then
            Some (mkSys h chs (set_rp t r RRead rs)
                    (<[g := mkWorker (Some q) (DoMsgHandle h req)]> gs) lg)
          else None
      | _, _ => None
      end
  | ARecv g =>
      wk ← gs !! g; q ← on wk; ch ← chs !! q;
      match todo wk, ch with
      | [], req :: ch =>
          Some (mkSys h (<[q := ch]> chs) rs
                  (<[g := mkWorker (Some q) (DoMsgHandle h req)]> gs) lg)
      | _, _ => None
      end
  | AExec g =>
      wk ← gs !! g;
      match todo wk with
      | ev :: evs => Some (mkSys h chs rs (<[g := mkWorker (on wk) evs]> gs) (lg ++ [ev]))
      | [] => None
      end
  end.

Fixpoint run (cap : nat) (tr : list action) (s : sys) : option sys :=
  match tr with
  | [] => Some s
  | a :: tr => s' ← step cap a s; run cap tr s'
  end.

(** A started server: readers of connections with the given identifiers. *)
Definition started (h : MsgHandle) (cids : list Z) : sys :=
  mkSys h [] ((λ c, mkRdr c RRead []) <$> cids) [] [].

(** ** Specification *)

Definition of_conn (c : Z) (l : list event) : list event :=
  filter (λ ev, req_conn (ev_req ev) = c) l.

(** The calls that handling the requests in order makes. *)
Definition handle_all (h : MsgHandle) (reqs : list Request) : list event :=
  reqs ≫= DoMsgHandle h.

Definition initialising (r : reader) : option nat :=
  match rp r with RMake _ w | RGo _ w => Some w | _ => None end.

(** No two readers are between the test for nil and the [go] for one worker. *)
Definition calm (s : sys) : bool := bool_decide (NoDup (omap initialising (rdrs s))).

Fixpoint calm_run (cap : nat) (tr : list action) (s : sys) : bool :=
  calm s && match tr with
            | [] => true
            | a :: tr => match step cap a s with Some s' => calm_run cap tr s' | None => true end
            end.

(** A handler whose workers have not been started. *)
Definition fresh (h : MsgHandle) : Prop :=
  TaskQueue h = replicate (Z.to_nat (WorkerPoolSize h)) None.

(** Nothing is being handled or waits to be. *)
Definition drained (s : sys) : Prop :=
  Forall (λ ch, ch = []) (chans s) ∧ Forall (λ wk, todo wk = []) (gors s) ∧
  Forall (λ r, rp r = RRead) (rdrs s).

Definition in_hand (p : rpc) : list Request :=
  match p with
  | RCheck req | RMake req _ | RGo req _ | RSend req _ => [req]
  | RRead | RPanic => []
  end.

Definition wid (h : MsgHandle) (c : Z) : nat := Z.to_nat (c `mod` WorkerPoolSize h).

(** What is left to do of the worker on channel [q]. *)
Definition todo_on (q : nat) (gs : list worker) : list event :=
  gs ≫= λ wk, if decide (on wk = Some q) then todo wk else [].

(** The calls still to be made for the requests of [c] that are with its worker. *)
Definition stage (c : Z) (s : sys) : list event :=
  match queue_at (wid (mh s) c) s with
  | Some q =>
      of_conn c (todo_on q (gors s)) ++
      handle_all (mh s) (filter (λ req, req_conn req = c) (default [] (chans s !! q)))
  | None => []
  end.

Definition uniq (gs : list worker) : Prop := NoDup (on <$> gs).

Definition pc_ok (s : sys) (r : reader) : Prop :=
  match rp r with
  | RRead => True
  | RCheck req => req_conn req = connID r
  | RMake req w => req_conn req = connID r ∧ w = wid (mh s) (connID r) ∧ queue_at w s = None
  | RGo req w =>
      req_conn req = connID r ∧ w = wid (mh s) (connID r) ∧
      ∃ q, queue_at w s = Some q ∧ Some q ∉ on <$> gors s
  | RSend req w =>
      req_conn req = connID r ∧ w = wid (mh s) (connID r) ∧ ∃ q, queue_at w s = Some q
  | RPanic => False
  end.

Definition chan_ok (s : sys) (w q : nat) : Prop :=
  ∃ ch, chans s !! q = Some ch ∧ Forall (λ req, wid (mh s) (req_conn req) = w) ch.

Definition worker_ok (s : sys) (wk : worker) : Prop :=
  ∃ w q, on wk = Some q ∧ queue_at w s = Some q ∧
    Forall (λ ev, wid (mh s) (req_conn (ev_req ev)) = w) (todo wk).

Record inv (s : sys) : Prop := {
  inv_open : IsOpen (mh s) = true;
  inv_size : 0 < WorkerPoolSize (mh s) ∧
             length (TaskQueue (mh s)) = Z.to_nat (WorkerPoolSize (mh s));
  inv_cids : NoDup (connID <$> rdrs s);
  inv_pc : ∀ t r, rdrs s !! t = Some r → pc_ok s r;
  inv_chan : ∀ w q, queue_at w s = Some q → chan_ok s w q;
  inv_inj : ∀ w w' q, queue_at w s = Some q → queue_at w' s = Some q → w = w';
  inv_worker : ∀ g wk, gors s !! g = Some wk → worker_ok s wk;
  inv_uniq : uniq (gors s);
  inv_flow : ∀ t r, rdrs s !! t = Some r →
    of_conn (connID r) (log s) ++ stage (connID r) s ++ handle_all (mh s) (in_hand (rp r)) =
    handle_all (mh s) (seen r);
}.

(** ** Lists of calls *)

Lemma DoMsgHandle_req h req ev : ev ∈ DoMsgHandle h req → ev_req ev = req.
Proof. unfold DoMsgHandle. case_match; set_solver. Qed.

Lemma of_conn_Do c h req :
  of_conn c (DoMsgHandle h req) = if decide (req_conn req = c) then DoMsgHandle h req else [].
Proof.
  unfold of_conn. case_decide as Hc.
  - apply filter_all. intros ev Hev. by rewrite (DoMsgHandle_req _ _ _ Hev).
  - unfold DoMsgHandle. case_match; [|done]. cbn. by rewrite !decide_False.
Qed.

Lemma of_conn_app c l1 l2 : of_conn c (l1 ++ l2) = of_conn c l1 ++ of_conn c l2.
Proof. apply filter_app. Qed.

Lemma handle_all_app h l1 l2 : handle_all h (l1 ++ l2) = handle_all h l1 ++ handle_all h l2.
Proof. apply bind_app. Qed.

Lemma handle_all_cons h req l : handle_all h (req :: l) = DoMsgHandle h req ++ handle_all h l.
Proof. done. Qed.

Lemma todo_on_nil q gs : Forall (λ wk, on wk ≠ Some q) gs → todo_on q gs = [].
Proof.
  intros H. induction H as [|wk gs Hwk _ IH]; [done|]. unfold todo_on in *. cbn.
  by rewrite decide_False, IH.
Qed.

Lemma todo_on_app q gs gs' : todo_on q (gs ++ gs') = todo_on q gs ++ todo_on q gs'.
Proof. apply bind_app. Qed.

Lemma todo_on_unique q gs g wk :
  gs !! g = Some wk → on wk = Some q → uniq gs → todo_on q gs = todo wk.
Proof.
  intros Hg Hq Hu. rewrite <- (take_drop_middle gs g wk Hg) in Hu |- *. unfold uniq in Hu.
  rewrite fmap_app, fmap_cons, Hq in Hu.
  apply NoDup_app in Hu as (_ & Hdisj & (Hn & _)%NoDup_cons). rewrite todo_on_app.
  change (todo_on q (wk :: drop (S g) gs)) with
    ((if decide (on wk = Some q) then todo wk else []) ++ todo_on q (drop (S g) gs)).
  rewrite decide_True, !todo_on_nil, app_nil_r; [done| | |done];
    apply Forall_forall; intros x Hx Hxq.
  - apply Hn. rewrite <- Hxq. by apply list_elem_of_fmap_2.
  - apply (Hdisj (Some q)); [|set_solver]. rewrite <- Hxq. by apply list_elem_of_fmap_2.
Qed.

Lemma todo_on_other q gs g wk wk' :
  gs !! g = Some wk → on wk ≠ Some q → on wk' ≠ Some q →
  todo_on q (<[g := wk']> gs) = todo_on q gs.
Proof.
  intros Hg Hq Hq'. rewrite <- (take_drop_middle gs g wk Hg) at 2.
  rewrite insert_take_drop by (by eapply lookup_lt_Some). rewrite !todo_on_app. f_equal.
  cbn. by rewrite !decide_False.
Qed.

Lemma todo_on_absent q gs : Some q ∉ on <$> gs → todo_on q gs = [].
Proof.
  intros H. apply todo_on_nil. apply Forall_forall. intros x Hx Hxq. apply H. rewrite <- Hxq.
  by apply list_elem_of_fmap_2.
Qed.

(** ** Updates that leave part of the state alone *)

Lemma fmap_set_id {A B} (f : A → B) (l : list A) i x y :
  l !! i = Some x → f y = f x → f <$> <[i := y]> l = f <$> l.
Proof.
  intros Hi Hf. rewrite list_fmap_insert, Hf. apply list_insert_id. by rewrite list_lookup_fmap, Hi.
Qed.

Lemma connID_set_rp t r p rs : rs !! t = Some r → connID <$> set_rp t r p rs = connID <$> rs.
Proof. intros H. by eapply fmap_set_id. Qed.

Lemma pc_ok_ext s s' r :
  mh s = mh s' → on <$> gors s = on <$> gors s' → pc_ok s r → pc_ok s' r.
Proof. unfold pc_ok, queue_at. by intros -> ->. Qed.

Lemma worker_ok_ext s s' wk : mh s = mh s' → worker_ok s wk → worker_ok s' wk.
Proof. unfold worker_ok, queue_at. by intros ->. Qed.

Lemma chan_ok_ext s s' w q :
  mh s = mh s' → chans s !! q = chans s' !! q → chan_ok s w q → chan_ok s' w q.
Proof. unfold chan_ok. by intros -> ->. Qed.

Lemma same_reader s t t' r r' : inv s → rdrs s !! t = Some r → rdrs s !! t' = Some r' →
  connID r = connID r' → t = t'.
Proof.
  intros Hs Ht Ht' Hc. apply (NoDup_lookup _ _ _ (connID r) (inv_cids _ Hs));
    rewrite list_lookup_fmap; [by rewrite Ht|by rewrite Ht', Hc].
Qed.

(** The worker of another connection does not touch this one's calls. *)
Lemma foreign_todo s wk q c w : worker_ok s wk → on wk = Some q → inv s →
  queue_at w s = Some q → w ≠ wid (mh s) c → of_conn c (todo wk) = [].
Proof.
  intros (w' & q' & Hon & Hq' & Hall) Hq Hs Hw Hne. rewrite Hq in Hon. simplify_eq.
  pose proof (inv_inj _ Hs _ _ _ Hw Hq') as <-.
  unfold of_conn. induction Hall as [|ev evs Hev _ IH]; [done|].
  rewrite filter_cons_False; [done|congruence].
Qed.

(** ** The steps keep the invariant *)

Section steps.
Context (cap : nat) (h : MsgHandle) (chs : list (list Request)) (rs : list reader)
  (gs : list worker) (lg : list event).
Let s := mkSys h chs rs gs lg.
Context (Hs : inv s) (Hcalm : calm s = true).

Lemma ARead_inv t msg s' : step cap (ARead t msg) s = Some s' → inv s'.
Proof using Hs.
  intros H. cbn in H. rewrite (inv_open _ Hs : IsOpen h = true) in H.
  destruct (rs !! t) as [r|] eqn:Ht; simplify_eq/=. destruct (rp r) eqn:Hp; simplify_eq/=.
  destruct Hs as [Ho Hz Hc Hpc Hch Hi Hw Hu Hf]. split; cbn; try done.
  - by erewrite fmap_set_id by done.
  - intros t' r' [[-> ->]|[_ Hr']]%(lookup_set_inv _ _ _ _ _ _ Ht); [done|].
    by eapply pc_ok_ext; [..|by eapply Hpc].
  - intros t' r' [[-> ->]|[_ Hr']]%(lookup_set_inv _ _ _ _ _ _ Ht); [|by eapply Hf].
    cbn [connID rp seen log mh in_hand].
    specialize (Hf _ _ Ht). rewrite Hp in Hf. cbn [in_hand handle_all mbind list_bind] in Hf.
    rewrite app_nil_r in Hf. rewrite handle_all_app, app_assoc. f_equal. exact Hf.
Qed.

(** A step that only moves a reader on, with the same request in hand. *)
Lemma move_inv t r p : rs !! t = Some r → in_hand p = in_hand (rp r) →
  pc_ok s (mkRdr (connID r) p (seen r)) → inv (mkSys h chs (set_rp t r p rs) gs lg).
Proof using Hs.
  intros Ht Hin Hp. destruct Hs as [Ho Hz Hc Hpc Hch Hi Hw Hu Hf]. split; cbn; try done.
  - by rewrite connID_set_rp.
  - intros t' r' [[-> ->]|[_ Hr']]%(lookup_set_inv _ _ _ _ _ _ Ht);
      (eapply pc_ok_ext; [..|done || by eapply Hpc]; done).
  - intros t' r' [[-> ->]|[_ Hr']]%(lookup_set_inv _ _ _ _ _ _ Ht); cbn.
    + rewrite Hin. apply (Hf _ _ Ht).
    + apply (Hf _ _ Hr').
Qed.

Lemma wid_lt c : (wid h c < length (TaskQueue h))%nat.
Proof using Hs.
  destruct (inv_size _ Hs) as [Hpos Hlen]. cbn in *. rewrite Hlen. unfold wid.
  pose proof (Z.mod_pos_bound c (WorkerPoolSize h) Hpos). lia.
Qed.

Lemma ACheck_inv t s' : step cap (ACheck t) s = Some s' → inv s'.
Proof using Hs.
  intros H. cbn in H. destruct (rs !! t) as [r|] eqn:Ht; simplify_eq/=.
  destruct (rp r) as [|req| | | |] eqn:Hp; simplify_eq/=.
  pose proof (inv_pc _ Hs _ _ Ht) as Hok. unfold pc_ok in Hok. rewrite Hp in Hok.
  destruct (inv_size _ Hs) as [Hpos _]. cbn in Hpos.
  unfold workerID in H. rewrite bool_decide_eq_false_2 in H by lia. fold (wid h (connID r)) in H.
  destruct (lookup_lt_is_Some_2 _ _ (wid_lt (connID r))) as [x Hx]. rewrite Hx in H.
  destruct x as [q|]; simplify_eq/=; apply move_inv; rewrite ?Hp; try done;
    unfold pc_ok, queue_at; cbn; rewrite Hx; eauto.
Qed.

Lemma calm_other t t' r r' w : rs !! t = Some r → rs !! t' = Some r' →
  initialising r = Some w → initialising r' = Some w → t = t'.
Proof using Hcalm.
  unfold calm in Hcalm. cbn in Hcalm. apply bool_decide_eq_true in Hcalm. by apply NoDup_omap_inj.
Qed.

(** The state after a worker's channel is made. *)
Let made t r req w :=
  mkSys (set_queue w (length chs) h) (chs ++ [[]]) (set_rp t r (RGo req w) rs) gs lg.

Lemma queue_at_made t r req w w' : (w < length (TaskQueue h))%nat →
  queue_at w' (made t r req w) = if decide (w' = w) then Some (length chs) else queue_at w' s.
Proof using.
  intros Hw. unfold queue_at, made. cbn. case_decide as E.
  - subst w'. by rewrite list_lookup_insert_eq.
  - by rewrite list_lookup_insert_ne.
Qed.

Lemma queue_at_lt w q : queue_at w s = Some q → (q < length chs)%nat.
Proof using Hs. intros (ch & Hq & _)%(inv_chan _ Hs). by apply lookup_lt_Some in Hq. Qed.

Lemma queue_fresh : Some (length chs) ∉ on <$> gs.
Proof using Hs.
  intros (wk & Hon & [g Hg]%list_elem_of_lookup)%list_elem_of_fmap.
  destruct (inv_worker _ Hs _ _ Hg) as (w & q & Hq & Hat & _). rewrite Hq in Hon. simplify_eq.
  apply queue_at_lt in Hat. lia.
Qed.

(** The new channel is empty and has no worker, so nothing is waiting in it. *)
Lemma stage_made t r req w c : (w < length (TaskQueue h))%nat → queue_at w s = None →
  stage c (made t r req w) = stage c s.
Proof using Hs.
  intros Hw Hnone. unfold stage. change (mh (made t r req w)) with (set_queue w (length chs) h).
  change (wid (set_queue w (length chs) h) c) with (wid h c). rewrite queue_at_made by done.
  change (wid (mh s) c) with (wid h c). case_decide as E.
  - rewrite E, Hnone. cbn [gors chans made]. rewrite (todo_on_absent _ gs queue_fresh). by rewrite list_lookup_middle.
  - destruct (queue_at (wid h c) s) as [q|] eqn:Hq; [|done]. cbn.
    by rewrite lookup_app_l by (by eapply queue_at_lt).
Qed.

Lemma AMake_inv t s' : step cap (AMake t) s = Some s' → inv s'.
Proof using Hs Hcalm.
  intros H. cbn in H. destruct (rs !! t) as [r|] eqn:Ht; simplify_eq/=.
  destruct (rp r) as [| |req w| | |] eqn:Hp; simplify_eq/=.
  pose proof (inv_pc _ Hs _ _ Ht) as Hok. unfold pc_ok in Hok. rewrite Hp in Hok.
  destruct Hok as (Hreq & Hwid & Hnone). cbn in Hwid.
  assert (w < length (TaskQueue h))%nat as Hlt by (subst w; apply wid_lt).
  pose proof (λ w', queue_at_made t r req w w' Hlt) as Hq'.
  pose proof (λ c, stage_made t r req w c Hlt Hnone) as Hst. fold (made t r req w).
  destruct Hs as [Ho Hz Hc Hpc Hch Hi Hw Hu Hf]. cbn in *.
  split; try done.
  - cbn. by rewrite length_insert.
  - cbn. by rewrite connID_set_rp.
  - intros t' r' [[-> ->]|[Hne Hr']]%(lookup_set_inv _ _ _ _ _ _ Ht).
    + split_and!; [done|done|]. exists (length chs). rewrite Hq', decide_True by done.
      split; [done|apply queue_fresh].
    + specialize (Hpc _ _ Hr'). unfold pc_ok in *. destruct (rp r') eqn:Hp'; try done.
      * destruct Hpc as (? & ? & Hn'). split_and!; try done. rewrite Hq', decide_False; [done|].
        intros ->. destruct Hne. eapply (calm_other t' t); [done|done| |];
          unfold initialising; [by rewrite Hp'|by rewrite Hp].
      * destruct Hpc as (? & ? & q & Hn' & Hg). split_and!; try done. exists q.
        rewrite Hq', decide_False; [done|]. intros ->. by rewrite Hnone in Hn'.
      * destruct Hpc as (? & ? & q & Hn'). split_and!; try done. rewrite Hq'. case_decide; eauto.
  - intros w' q. rewrite Hq'. unfold chan_ok. cbn. case_decide as E; intros Hq; simplify_eq.
    + exists []. split; [|constructor]. by apply list_lookup_middle.
    + destruct (Hch _ _ Hq) as (ch & Hl & Hall). exists ch. split; [|done].
      by apply lookup_app_l_Some.
  - intros w1 w2 q. rewrite !Hq'. repeat case_decide; intros H1 H2; simplify_eq; [done| | |by eapply Hi].
    + apply queue_at_lt in H2. lia.
    + apply queue_at_lt in H1. lia.
  - intros g wk Hg. destruct (Hw _ _ Hg) as (w' & q & Hon & Hat & Hall). exists w', q.
    split_and!; [done| |done]. rewrite Hq', decide_False; [done|]. intros ->. congruence.
  - intros t' r' [[-> ->]|[_ Hr']]%(lookup_set_inv _ _ _ _ _ _ Ht); rewrite Hst.
    + specialize (Hf _ _ Ht). by rewrite Hp in Hf.
    + apply (Hf _ _ Hr').
Qed.

Lemma AGo_inv t s' : step cap (AGo t) s = Some s' → inv s'.
Proof using Hs Hcalm.
  intros H. cbn in H. destruct (rs !! t) as [r|] eqn:Ht; simplify_eq/=.
  destruct (rp r) as [| | |req w| |] eqn:Hp; simplify_eq/=.
  pose proof (inv_pc _ Hs _ _ Ht) as Hok. unfold pc_ok in Hok. rewrite Hp in Hok.
  destruct Hok as (Hreq & Hwid & q & Hq & Hnew). cbn in Hwid, Hnew.
  fold s in H. rewrite Hq in H. cbn in H. simplify_eq.
  destruct Hs as [Ho Hz Hc Hpc Hch Hi Hw Hu Hf]. cbn in *. set (s' := mkSys _ _ _ _ _).
  split; try done.
  - cbn. by rewrite connID_set_rp.
  - intros t' r' [[-> ->]|[Hne Hr']]%(lookup_set_inv _ _ _ _ _ _ Ht); [by unfold pc_ok; cbn; eauto|].
    specialize (Hpc _ _ Hr'). unfold pc_ok in *. destruct (rp r') eqn:Hp'; try done.
    destruct Hpc as (? & ? & q' & Hn' & Hg). split_and!; try done. exists q'. split; [done|].
    cbn. rewrite fmap_app. intros [Hin|Hin]%elem_of_app; [done|]. cbn in Hin.
    apply list_elem_of_singleton in Hin. simplify_eq. pose proof (Hi _ _ _ Hq Hn') as E.
    destruct Hne. eapply (calm_other t' t); [done|done| |];
      unfold initialising; [by rewrite Hp'|by rewrite Hp, E].
  - intros g wk [Hg|[_ Hg]]%lookup_app_Some; [by eapply worker_ok_ext; [|by eapply Hw]|].
    apply list_lookup_singleton_Some in Hg as [_ <-]. by eexists _, q.
  - unfold uniq. cbn. rewrite fmap_app. apply NoDup_app. split_and!; [done| |apply NoDup_singleton].
    intros x Hx ->%list_elem_of_singleton. done.
  - intros t' r' Hr'.
    assert (∃ r0, rs !! t' = Some r0 ∧ connID r0 = connID r' ∧ seen r0 = seen r' ∧
            in_hand (rp r0) = in_hand (rp r')) as (r0 & Hr0 & Hcid & Hseen & Hin).
    { apply (lookup_set_inv _ _ _ _ _ _ Ht) in Hr' as [[-> ->]|[_ Hr']]; [|by eauto].
      exists r. cbn. by rewrite Hp. }
    specialize (Hf _ _ Hr0). rewrite Hcid, Hseen, Hin in Hf.
    change (mh s') with h. rewrite <- Hf. f_equal. f_equal. unfold stage.
    change (queue_at (wid (mh s') (connID r')) s') with (queue_at (wid h (connID r')) s).
    change (mh s) with h. change (mh s') with h.
    destruct (queue_at (wid h (connID r')) s) as [q'|]; [|done].
    unfold s'. cbn [gors chans mh]. rewrite todo_on_app. f_equal. f_equal.
    unfold todo_on at 2. cbn. case_decide; cbn; by rewrite ?app_nil_r.
Qed.

(** The requests of one connection in a channel, after a send or a receive on
    a channel. *)
Lemma chan_set q ch ch' q' : chs !! q = Some ch →
  default [] (<[q := ch']> chs !! q') = if decide (q = q') then ch' else default [] (chs !! q').
Proof using. intros Hq. rewrite (lookup_set _ _ _ _ _ Hq). by case_decide. Qed.

Lemma stage_of c chs' rs' gs' lg' : stage c (mkSys h chs' rs' gs' lg') =
  match queue_at (wid h c) s with
  | Some q => of_conn c (todo_on q gs') ++
      handle_all h (filter (λ req, req_conn req = c) (default [] (chs' !! q)))
  | None => []
  end.
Proof using. done. Qed.

Lemma send_inv t r req w q ch : rs !! t = Some r → rp r = RSend req w →
  queue_at w s = Some q → chs !! q = Some ch →
  inv (mkSys h (<[q := ch ++ [req]]> chs) (set_rp t r RRead rs) gs lg).
Proof using Hs.
  intros Ht Hp Hq Hchq.
  pose proof (inv_pc _ Hs _ _ Ht) as Hok. unfold pc_ok in Hok. rewrite Hp in Hok.
  destruct Hok as (Hreq & -> & _). cbn in Hq.
  pose proof (same_reader s t) as Hsame.
  destruct Hs as [Ho Hz Hc Hpc Hch Hi Hw Hu Hf]. cbn in *. split; try done.
  - cbn. by rewrite connID_set_rp.
  - intros t' r' [[-> ->]|[Hne Hr']]%(lookup_set_inv _ _ _ _ _ _ Ht); [done|].
    by eapply pc_ok_ext; [..|by eapply Hpc].
  - intros w' q' Hq'. destruct (Hch w' q' Hq') as (ch' & Hl & Hall). unfold chan_ok. cbn.
    rewrite (lookup_set _ _ _ _ _ Hchq). case_decide; subst; [|by eauto].
    cbn in Hl. simplify_eq. exists (ch ++ [req]). split; [done|]. apply Forall_app.
    split; [done|]. pose proof (Hi _ _ _ Hq Hq') as <-. rewrite Forall_singleton. cbn. by rewrite Hreq.
  - intros t' r' [[-> ->]|[Hne Hr']]%(lookup_set_inv _ _ _ _ _ _ Ht);
      cbn [connID rp seen log mh in_hand].
    + specialize (Hf _ _ Ht). rewrite Hp in Hf. rewrite <- Hf. f_equal.
      unfold s. rewrite !stage_of, Hq. cbn [in_hand].
      rewrite (chan_set _ _ _ _ Hchq), decide_True, Hchq by done. cbn [default].
      rewrite filter_app, filter_cons_True by done. rewrite handle_all_app, <- !app_assoc.
      change (handle_all h []) with (@nil event). by rewrite app_nil_r.
    + rewrite <- (Hf _ _ Hr'). f_equal. f_equal. unfold s. rewrite !stage_of.
      destruct (queue_at (wid h (connID r')) s) as [q'|]; [|done]. f_equal. f_equal.
      rewrite (chan_set _ _ _ _ Hchq). case_decide; [subst q'|done]. rewrite Hchq. cbn [default].
      rewrite filter_app, filter_cons_False; [by rewrite app_nil_r|]. rewrite Hreq. intros E.
      destruct Hne. symmetry. by eapply Hsame.
Qed.

Lemma ASend_inv t s' : step cap (ASend t) s = Some s' → inv s'.
Proof using Hs.
  intros H. cbn in H. destruct (rs !! t) as [r|] eqn:Ht; simplify_eq/=.
  destruct (rp r) as [| | | |req w|] eqn:Hp; simplify_eq/=. fold s in H.
  destruct (queue_at w s) as [q|] eqn:Hq; simplify_eq/=.
  destruct (chs !! q) as [ch|] eqn:Hchq; simplify_eq/=.
  case_bool_decide; simplify_eq/=. by eapply send_inv.
Qed.

(** A worker's step, on its calls and on the requests in its channel. *)
Lemma worker_inv g wk w q ch ch' evs lg' :
  gs !! g = Some wk → on wk = Some q → queue_at w s = Some q → chs !! q = Some ch →
  Forall (λ req, wid h (req_conn req) = w) ch' →
  Forall (λ ev, wid h (req_conn (ev_req ev)) = w) evs →
  (∀ c, of_conn c lg' ++ of_conn c evs ++ handle_all h (filter (λ req, req_conn req = c) ch') =
        of_conn c lg ++ of_conn c (todo wk) ++ handle_all h (filter (λ req, req_conn req = c) ch)) →
  (∀ c, wid h c ≠ w → of_conn c lg' = of_conn c lg) →
  inv (mkSys h (<[q := ch']> chs) rs (<[g := mkWorker (Some q) evs]> gs) lg').
Proof using Hs.
  intros Hg Hon Hat Hchq Hch' Hevs Hsum Hlog.
  destruct Hs as [Ho Hz Hc Hpc Hch Hi Hw Hu Hf]. cbn in *.
  assert (on <$> <[g := mkWorker (Some q) evs]> gs = on <$> gs) as Hons
    by (by eapply fmap_set_id).
  split; try done.
  - intros t' r' Hr'. eapply pc_ok_ext; [..|by eapply Hpc]; done.
  - intros w' q' Hq'. destruct (Hch w' q' Hq') as (ch0 & Hl & Hall). unfold chan_ok. cbn.
    rewrite (lookup_set _ _ _ _ _ Hchq). case_decide; subst; [|by eauto].
    exists ch'. split; [done|]. by rewrite <- (Hi _ _ _ Hat Hq').
  - intros g' wk' [[-> ->]|[_ Hg']]%(lookup_set_inv _ _ _ _ _ _ Hg).
    + by exists w, q.
    + by eapply worker_ok_ext; [|by eapply Hw].
  - unfold uniq. cbn. by rewrite Hons.
  - intros t r Ht. cbn in Ht. cbn [log mh]. rewrite <- (Hf _ _ Ht), stage_of.
    rewrite (stage_of (connID r) chs rs gs lg : stage (connID r) s = _).
    destruct (decide (wid h (connID r) = w)) as [Hwid|Hwid].
    + rewrite Hwid, Hat, (chan_set _ _ _ _ Hchq), decide_True, Hchq by done. cbn [default].
      rewrite (todo_on_unique q gs g wk) by done.
      rewrite (todo_on_unique q _ g (mkWorker (Some q) evs)); cbn;
        [| |done|unfold uniq; by rewrite Hons].
      * rewrite !app_assoc. f_equal. rewrite <- !app_assoc. apply Hsum.
      * rewrite (lookup_set _ _ _ _ _ Hg). by rewrite decide_True.
    + rewrite Hlog by done. f_equal. f_equal.
      destruct (queue_at (wid h (connID r)) s) as [q'|] eqn:Hq'; [|done].
      assert (q ≠ q') as Hqq by (intros ->; apply Hwid; eapply Hi; done).
      rewrite (chan_set _ _ _ _ Hchq), decide_False, (todo_on_other q' gs g wk); try done;
        cbn; congruence.
Qed.

Lemma recv_inv g wk w q req ch : gs !! g = Some wk → on wk = Some q → todo wk = [] →
  queue_at w s = Some q → chs !! q = Some (req :: ch) →
  inv (mkSys h (<[q := ch]> chs) rs (<[g := mkWorker (Some q) (DoMsgHandle h req)]> gs) lg).
Proof using Hs.
  intros Hg Hon Htodo Hat Hchq.
  destruct (inv_chan _ Hs _ _ Hat) as (ch0 & Hl & Hall). cbn in Hl. rewrite Hchq in Hl. simplify_eq.
  apply Forall_cons in Hall as [Hreq Hall]. eapply worker_inv; try done.
  - apply Forall_forall. intros ev Hev. by rewrite (DoMsgHandle_req _ _ _ Hev).
  - intros c. f_equal. rewrite Htodo, of_conn_Do. case_decide.
    + by rewrite filter_cons_True.
    + by rewrite filter_cons_False.
Qed.

Lemma worker_at g wk : gs !! g = Some wk → ∃ w q ch, on wk = Some q ∧ queue_at w s = Some q ∧
  chs !! q = Some ch ∧ Forall (λ req, wid h (req_conn req) = w) ch ∧
  Forall (λ ev, wid h (req_conn (ev_req ev)) = w) (todo wk).
Proof using Hs.
  intros Hg. destruct (inv_worker _ Hs _ _ Hg) as (w & q & Hon & Hat & Hall).
  destruct (inv_chan _ Hs _ _ Hat) as (ch & Hl & Hch). by exists w, q, ch.
Qed.

Lemma ARecv_inv g s' : step cap (ARecv g) s = Some s' → inv s'.
Proof using Hs.
  intros H. cbn in H. destruct (gs !! g) as [wk|] eqn:Hg; simplify_eq/=.
  destruct (worker_at _ _ Hg) as (w & q & ch & Hon & Hat & Hchq & _ & _).
  rewrite Hon in H. cbn in H. rewrite Hchq in H. cbn in H.
  destruct (todo wk) eqn:Htodo; [|done]. destruct ch as [|req ch]; [done|]. simplify_eq.
  by eapply recv_inv.
Qed.

Lemma AExec_inv g s' : step cap (AExec g) s = Some s' → inv s'.
Proof using Hs.
  intros H. cbn in H. destruct (gs !! g) as [wk|] eqn:Hg; simplify_eq/=.
  destruct (worker_at _ _ Hg) as (w & q & ch & Hon & Hat & Hchq & Hch & Htodo).
  destruct (todo wk) as [|ev evs] eqn:Hev; [done|]. simplify_eq.
  apply Forall_cons in Htodo as [Hevw Htodo]. rewrite Hon, <- (list_insert_id chs q ch Hchq).
  eapply worker_inv; try done.
  - intros c. rewrite Hev, of_conn_app, <- app_assoc. f_equal. rewrite (app_assoc (of_conn c [ev])).
    by rewrite <- of_conn_app.
  - intros c Hc. rewrite of_conn_app. unfold of_conn at 2. rewrite filter_cons_False; [apply app_nil_r|].
    congruence.
Qed.
End steps.

Lemma AHandoff_inv cap t g s s' : inv s → step cap (AHandoff t g) s = Some s' → inv s'.
Proof.
  destruct s as [h chs rs gs lg]. intros Hs H. cbn in H.
  destruct (rs !! t) as [r|] eqn:Ht; [|done]. cbn in H.
  destruct (gs !! g) as [wk|] eqn:Hg; [|done]. cbn in H.
  destruct (rp r) as [| | | |req w|] eqn:Hp; try done. destruct (todo wk) eqn:Htodo; [|done].
  destruct (queue_at w _) as [q|] eqn:Hq; [|done]. cbn in H.
  destruct (chs !! q) as [ch|] eqn:Hchq; [|done]. cbn in H. case_bool_decide as Hb; [|done].
  destruct Hb as [-> Hon]. simplify_eq.
  pose proof (send_inv h chs rs gs lg Hs t r req w q [] Ht Hp Hq Hchq) as Hs1.
  pose proof (recv_inv _ _ _ _ _ Hs1 g wk w q req [] Hg Hon Htodo Hq) as Hs2.
  rewrite list_insert_insert_eq, (list_insert_id chs q []) in Hs2 by exact Hchq.
  apply Hs2.
  rewrite (lookup_set _ _ _ _ _ Hchq). by rewrite decide_True.
Qed.

Lemma pool_step_inv cap a s s' : inv s → calm s = true → step cap a s = Some s' → inv s'.
Proof.
  destruct a; intros Hs Hc H; try (destruct s as [h chs rs gs lg]).
  - by eapply ARead_inv.
  - by eapply ACheck_inv.
  - by eapply AMake_inv.
  - by eapply AGo_inv.
  - by eapply ASend_inv.
  - by eapply AHandoff_inv.
  - by eapply ARecv_inv.
  - by eapply AExec_inv.
Qed.

Lemma pool_run_inv cap tr s s' : inv s → calm_run cap tr s = true → run cap tr s = Some s' → inv s'.
Proof.
  revert s. induction tr as [|a tr IH]; intros s Hs Hc H; cbn in *; [by simplify_eq|].
  apply andb_true_iff in Hc as [Hc Hrun]. destruct (step cap a s) as [s1|] eqn:Hst; [|done].
  eapply IH; [by eapply pool_step_inv|done|done].
Qed.

(** ** From a started server *)

Lemma queue_at_fresh h cids w : fresh h → queue_at w (started h cids) = None.
Proof.
  intros Hf. unfold queue_at. cbn. rewrite Hf. destruct (replicate _ _ !! w) eqn:E; [|done].
  by apply lookup_replicate in E as [-> _].
Qed.

Lemma pool_started_inv h cids : IsOpen h = true → 0 < WorkerPoolSize h → fresh h → NoDup cids →
  inv (started h cids).
Proof.
  intros Ho Hw Hf Hnd. split; cbn; try done.
  - by rewrite Hf, length_replicate.
  - rewrite <- list_fmap_compose. cbn. by rewrite list_fmap_id.
  - intros t r Hr. rewrite list_lookup_fmap in Hr. destruct (cids !! t); by simplify_eq/=.
  - intros w q. by rewrite queue_at_fresh.
  - intros w w' q. by rewrite queue_at_fresh.
  - constructor.
  - intros t r Hr. rewrite list_lookup_fmap in Hr. destruct (cids !! t) eqn:E; simplify_eq/=.
    unfold stage. by rewrite queue_at_fresh.
Qed.

(** What no step changes. *)
Lemma step_const cap a s s' : step cap a s = Some s' →
  Apis (mh s') = Apis (mh s) ∧ WorkerPoolSize (mh s') = WorkerPoolSize (mh s) ∧
  connID <$> rdrs s' = connID <$> rdrs s.
Proof.
  destruct s as [h chs rs gs lg]. intros H.
  destruct a; cbn in H;
    repeat (match type of H with
            | context [mbind _ ?o] => destruct o eqn:?; [|done]
            | context [match ?x with _ => _ end] => destruct x eqn:?; try done
            end; cbn in H); simplify_eq; cbn; split_and!; try done;
    by eapply fmap_set_id.
Qed.

Lemma run_const cap tr s s' : run cap tr s = Some s' →
  Apis (mh s') = Apis (mh s) ∧ WorkerPoolSize (mh s') = WorkerPoolSize (mh s) ∧
  connID <$> rdrs s' = connID <$> rdrs s.
Proof.
  revert s. induction tr as [|a tr IH]; intros s H; cbn in H; [by simplify_eq|].
  destruct (step cap a s) as [s1|] eqn:Hst; [|done].
  apply step_const in Hst as (E1 & E2 & E3). apply IH in H as (F1 & F2 & F3). by rewrite F1, F2, F3.
Qed.

Lemma NoDup_initialising s : inv s → NoDup (wid (mh s) <$> (connID <$> rdrs s)) → calm s = true.
Proof.
  intros Hs Hnd. apply bool_decide_eq_true.
  assert (∀ r, r ∈ rdrs s → ∀ w, initialising r = Some w → w = wid (mh s) (connID r)) as Hin.
  { intros r [t Ht]%list_elem_of_lookup w Hw. pose proof (inv_pc _ Hs _ _ Ht) as Hok.
    unfold pc_ok, initialising in *. destruct (rp r); simplify_eq; tauto. }
  clear Hs. induction (rdrs s) as [|r l IH]; [constructor|]. cbn in *.
  apply NoDup_cons in Hnd as [Hnin Hnd].
  assert (NoDup (omap initialising l)) as Hl by (apply IH; [done|]; intros; apply Hin; set_solver).
  destruct (initialising r) as [w|] eqn:Hr; [|done]. apply NoDup_cons. split; [|done].
  intros (r' & Hr' & Hw')%list_elem_of_omap. apply Hnin.
  rewrite <- (Hin r ltac:(set_solver) w Hr), (Hin r' ltac:(set_solver) w Hw').
  by do 2 apply list_elem_of_fmap_2.
Qed.

Lemma distinct_calm cap tr s : inv s → NoDup (wid (mh s) <$> (connID <$> rdrs s)) →
  calm_run cap tr s = true.
Proof.
  revert s. induction tr as [|a tr IH]; intros s Hs Hnd; cbn;
    rewrite (NoDup_initialising s Hs Hnd); [done|]. cbn.
  destruct (step cap a s) as [s'|] eqn:Hst; [|done].
  pose proof (pool_step_inv _ _ _ _ Hs (NoDup_initialising s Hs Hnd) Hst) as Hs'.
  apply step_const in Hst as (_ & Hw & Hc). apply IH; [done|]. rewrite Hc.
  unfold wid in *. by rewrite Hw.
Qed.

Lemma handle_all_Apis h h' reqs : Apis h' = Apis h → handle_all h' reqs = handle_all h reqs.
Proof. unfold handle_all, DoMsgHandle. by intros ->. Qed.

Lemma drained_stage c s : drained s → stage c s = [].
Proof.
  intros (Hch & Hwk & _). unfold stage. destruct (queue_at _ _) as [q|]; [|done].
  assert (todo_on q (gors s) = []) as ->.
  { unfold todo_on. induction Hwk as [|wk l Hwk _ IH]; [done|]. cbn. rewrite Hwk, IH. by case_decide. }
  destruct (chans s !! q) as [ch|] eqn:E; [|done]. rewrite Forall_lookup in Hch. by rewrite (Hch _ _ E).
Qed.

Lemma dispatch_ok cap h cids tr s :
  IsOpen h = true → 0 < WorkerPoolSize h → fresh h → NoDup cids →
  calm_run cap tr (started h cids) = true ∨ NoDup (wid h <$> cids) →
  run cap tr (started h cids) = Some s → ∀ t r, rdrs s !! t = Some r →
  rp r ≠ RPanic ∧
  of_conn (connID r) (log s) `prefix_of` handle_all h (seen r) ∧
  (drained s → of_conn (connID r) (log s) = handle_all h (seen r)).
Proof.
  intros Ho Hw Hf Hnd Hcalm Hrun t r Hr. pose proof (pool_started_inv h cids Ho Hw Hf Hnd) as H0.
  assert (calm_run cap tr (started h cids) = true) as Hc.
  { destruct Hcalm as [?|Hd]; [done|]. apply distinct_calm; [done|]. cbn.
    rewrite <- (list_fmap_compose _ connID). cbn. by rewrite list_fmap_id. }
  pose proof (pool_run_inv _ _ _ _ H0 Hc Hrun) as Hs. apply run_const in Hrun as [Ha _].
  rewrite <- (handle_all_Apis h (mh s)) by done. rewrite <- (inv_flow _ Hs _ _ Hr).
  split_and!.
  - intros Hp. pose proof (inv_pc _ Hs _ _ Hr) as Hok. unfold pc_ok in Hok. by rewrite Hp in Hok.
  - by apply prefix_app_r.
  - intros Hd. rewrite (drained_stage _ _ Hd). destruct Hd as (_ & _ & Hrd).
    rewrite Forall_lookup in Hrd. rewrite (Hrd _ _ Hr). cbn. by rewrite app_nil_r.
Qed.

(** C15: with the pool open, the messages of one connection are handled one at a
    time in the order the connection delivered them, each exactly once: the
    calls made for it so far are a prefix of the calls that handling its
    messages in order makes, and all of them once nothing is in flight.  This
    holds when no two connections race to start the same worker, in particular
    when the connections are served by different workers; and no reader
    panics. *)
Theorem dispatch_in_order cap h cids tr s :
  IsOpen h = true → 0 < WorkerPoolSize h → fresh h → NoDup cids →
  calm_run cap tr (started h cids) = true ∨ NoDup (wid h <$> cids) →
  run cap tr (started h cids) = Some s → ∀ t r, rdrs s !! t = Some r →
  rp r ≠ RPanic ∧
  of_conn (connID r) (log s) `prefix_of` handle_all h (seen r) ∧
  (drained s → of_conn (connID r) (log s) = handle_all h (seen r)).
Proof. apply dispatch_ok. Qed.
End MsgHandler.
Arguments MsgHandle : clear implicits.
Arguments event : clear implicits.
Arguments sys : clear implicits.

(** ** Witnesses and corner cases *)

(** A pool of [n] workers with one router, for message 1. *)
Definition demo_pool (n : Z) : MsgHandle string :=
  StartWorkerPool (mkMsgHandle {[ 1 := "ping"%string ]} n (replicate (Z.to_nat n) None) false).

Definition demo_trace : list action :=
  [ARead 0 (NewMsgPackage 1 [10]); ACheck 0; ARead 1 (NewMsgPackage 1 [30]); ACheck 1; AMake 0;
   AMake 1; AGo 1; AGo 0; ASend 0; ARead 0 (NewMsgPackage 1 [20]); ACheck 0; AHandoff 1 0;
   ASend 0; ARecv 1; AExec 1; AExec 0; AExec 1; AExec 0; AExec 1; ARecv 1; AExec 0; AExec 1;
   AExec 1; AExec 1].

Definition demo_log (l : list (event string)) : list (method * list Z) :=
  (λ ev, (ev_method ev, Request_GetData (ev_req ev))) <$> l.

Lemma pool_demo_run : ∃ s, run 8 demo_trace (started (demo_pool 2) [4; 7]) = Some s ∧
  rdrs s !! 0%nat = Some (mkRdr 4 RRead [mkRequest 4 (NewMsgPackage 1 [10]);
                                         mkRequest 4 (NewMsgPackage 1 [20])]) ∧ drained s.
Proof.
  eexists. split; [vm_compute; reflexivity|]. split; [reflexivity|].
  split_and!; repeat constructor.
Qed.

Lemma dispatch_in_order_witness : ∃ s,
  run 8 demo_trace (started (demo_pool 2) [4; 7]) = Some s ∧
  of_conn 4 (log s) = handle_all (demo_pool 2)
    [mkRequest 4 (NewMsgPackage 1 [10]); mkRequest 4 (NewMsgPackage 1 [20])].
Proof.
  destruct pool_demo_run as (s & Hrun & Hr & Hd). exists s. split; [exact Hrun|].
  assert (NoDup [4; 7]) as Hnd by (apply (bool_decide_eq_true_1 _); reflexivity).
  assert (calm_run 8 demo_trace (started (demo_pool 2) [4; 7]) = true) as Hc by reflexivity.
  refine (proj2 (proj2 (dispatch_in_order 8 (demo_pool 2) [4; 7] demo_trace s _ _ _ Hnd
    (or_introl Hc) Hrun 0%nat _ Hr)) Hd); reflexivity.
Defined.

(** The test for nil and the [make] of a task queue are not atomic: when two
    connections race to start the same worker, two workers run and the two
    messages of one connection are handled in the wrong order. *)
Theorem race_reorders : ∃ tr s r, run 1024 tr (started (demo_pool 1) [0; 1]) = Some s ∧
  rdrs s !! 0%nat = Some r ∧ connID r = 0 ∧ drained s ∧
  map (λ req, Request_GetData req) (seen r) = [[10]; [20]] ∧
  demo_log (of_conn 0 (log s)) =
    [(PreHandle, [20]); (Handle, [20]); (PostHandle, [20]);
     (PreHandle, [10]); (Handle, [10]); (PostHandle, [10])].
Proof.
  exists [ARead 0 (NewMsgPackage 1 [10]); ACheck 0; ARead 1 (NewMsgPackage 1 [30]); ACheck 1;
          AMake 0; AGo 0; ASend 0; ARecv 0; AMake 1; AGo 1;
          ARead 0 (NewMsgPackage 1 [20]); ACheck 0; ASend 0; ARecv 1; AExec 1; AExec 1; AExec 1;
          AExec 0; AExec 0; AExec 0; ASend 1; ARecv 1; AExec 1; AExec 1; AExec 1].
  eexists. eexists. split; [vm_compute; reflexivity|]. split; [reflexivity|].
  split_and!; try reflexivity; repeat constructor.
Qed.

(** ** Connection identifiers *)

Lemma accept_cids_lookup n c i : u32_ok c → (i < n)%nat →
  accept_cids n c !! i = Some (u32 (c + Z.of_nat i)).
Proof.
  unfold u32_ok. revert c i. induction n as [|n IH]; intros c i Hc Hi; [lia|]. cbn [accept_cids].
  destruct i as [|i].
  - cbn. rewrite Z.add_0_r, wrapu_small by done. done.
  - cbn [lookup list_lookup]. rewrite IH by (try lia; apply wrapu_bound; lia). f_equal.
    unfold wrapu. rewrite Zplus_mod_idemp_l. f_equal. lia.
Qed.

Lemma length_accept_cids n c : length (accept_cids n c) = n.
Proof. revert c. induction n; intros c; cbn; auto. Qed.

(** The accept loop numbers connections from 0; the identifiers of the first
    2^32 connections of a server are different, and the next one reuses 0. *)
Theorem accept_cids_distinct n :
  (Z.of_nat n ≤ 2 ^ 32 → NoDup (accept_cids n 0)) ∧
  (2 ^ 32 < Z.of_nat n → accept_cids n 0 !! Z.to_nat (2 ^ 32) = Some 0).
Proof.
  split; intros Hn.
  - apply NoDup_alt. intros i j x Hi Hj.
    pose proof (lookup_lt_Some _ _ _ Hi) as Hli. pose proof (lookup_lt_Some _ _ _ Hj) as Hlj.
    rewrite length_accept_cids in *.
    rewrite accept_cids_lookup in Hi, Hj by (unfold u32_ok; lia). simplify_eq.
    rewrite !Z.add_0_l, !wrapu_small in * by lia. lia.
  - rewrite accept_cids_lookup by (unfold u32_ok; lia). by rewrite Z2Nat.id by lia.
Qed.

Lemma accept_cids_distinct_witness : NoDup (accept_cids 3 0).
Proof. apply (accept_cids_distinct 3). lia. Defined.

(** Registering a router makes it the one whose three methods are called, in
    order, for its message, leaves every other message as it was, and panics
    for a message that has one. *)
Theorem AddRouter_dispatch {R} id (router : R) h :
  (Apis h !! id = None → ∃ h', AddRouter id router h = Ret h' ∧
     (∀ req, GetMsgID req = id → DoMsgHandle h' req =
        [mkEvent PreHandle router req; mkEvent Handle router req; mkEvent PostHandle router req]) ∧
     (∀ req, GetMsgID req ≠ id → DoMsgHandle h' req = DoMsgHandle h req) ∧
     ∀ router', ∃ e, AddRouter id router' h' = Panic e) ∧
  (is_Some (Apis h !! id) → ∃ e, AddRouter id router h = Panic e).
Proof.
  split; [intros Hn|intros [x Hx]]; unfold AddRouter; rewrite ?Hn, ?Hx; [|by eauto].
  eexists. split; [done|]. unfold DoMsgHandle. cbn. split_and!.
  - intros req <-. by rewrite lookup_insert_eq.
  - intros req Hreq. by rewrite lookup_insert_ne.
  - intros router'. rewrite lookup_insert_eq. eauto.
Qed.

Lemma AddRouter_dispatch_witness : ∃ e,
  AddRouter 1 "pong"%string (demo_pool 2) = Panic e.
Proof. apply (AddRouter_dispatch 1 "pong"%string (demo_pool 2)). by eexists. Defined.
