(* ===== verification/PoolProgress.v ===== *)
(** * myzinx: what the worker pool does in one step, and when it stops

    Lemmas on the transition system of [MsgHandler.v] for the files that put it
    together with connections: how a step changes the readers and the calls
    that were made, that every task queue has a worker, and what is left to do
    in a pool that cannot go on although some of its goroutines may be held up
    by the routers they call. *)

From S2P Require Import Prelude DataPack MsgHandler.

Ltac pool_cases H :=
  repeat (match type of H with
          | context [mbind _ ?o] => destruct o eqn:?; [|done]
          | context [match ?x with _ => _ end] => destruct x eqn:?; try done
          end; cbn in H); simplify_eq; cbn.

#[export] Instance is_exec_dec (a : action) : Decision (∃ g, a = AExec g).
Proof. destruct a; try (right; by intros [? ?]). left. by eexists. Defined.

Section PoolProgress.
Context {R : Type} {cap : nat}.

(** The call that [AExec g] makes. *)
Definition next_event (g : nat) (s : sys R) : option (event R) :=
  wk ← gors s !! g; head (todo wk).

Definition has_worker (q : nat) (p : sys R) : Prop := ∃ g wk, gors p !! g = Some wk ∧ on wk = Some q.

(** Every task queue has a worker, or a reader that is about to start it. *)
Definition staffed (p : sys R) : Prop := ∀ w q, queue_at w p = Some q →
  has_worker q p ∨ ∃ t r req, rdrs p !! t = Some r ∧ rp r = RGo req w.

(** The goroutine that goes on in a step. *)
Definition mover (a : action) : option nat :=
  match a with AHandoff _ g | ARecv g | AExec g => Some g | _ => None end.

(** No step is possible but that a message arrives, and steps of goroutines
    that are not free. *)
Definition pool_quiet (free : nat → bool) (p : sys R) : Prop :=
  ∀ a, (∀ t m, a ≠ ARead t m) → (∀ g, mover a = Some g → free g = true) → step cap a p = None.

(** The goroutine [g] is the worker on the queue of [c]. *)
Definition serves (g : nat) (c : Z) (p : sys R) : Prop := ∃ q wk,
  queue_at (wid (mh p) c) p = Some q ∧ gors p !! g = Some wk ∧ on wk = Some q.

Definition held_up (free : nat → bool) (c : Z) (p : sys R) : Prop := ∃ g, serves g c p ∧ free g = false.

(** ** One step *)

Lemma step_seen a (s s' : sys R) t r : step cap a s = Some s' → (∀ u m, a ≠ ARead u m) →
  rdrs s !! t = Some r → ∃ r', rdrs s' !! t = Some r' ∧ connID r' = connID r ∧ seen r' = seen r.
Proof using.
  destruct s as [h chs rs gs lg]. intros H Ha Hr. cbn in Hr.
  assert (∀ u x p, rs !! u = Some x → ∃ r', set_rp u x p rs !! t = Some r' ∧ connID r' = connID r ∧
    seen r' = seen r) as Hset.
  { intros u x p Hu. unfold set_rp. rewrite (lookup_set _ _ _ _ _ Hu). case_decide; [|by exists r].
    subst. simplify_eq. by eexists. }
  destruct a; cbn in H; try (by destruct (Ha t0 msg));
    pool_cases H; solve [by exists r | by apply Hset].
Qed.

Lemma step_log a (s s' : sys R) : step cap a s = Some s' → (∀ g, a ≠ AExec g) → log s' = log s.
Proof using.
  destruct s as [h chs rs gs lg]. intros H Ha. destruct a; cbn in H; try (by destruct (Ha g));
    by pool_cases H.
Qed.

Lemma step_exec g (s s' : sys R) : step cap (AExec g) s = Some s' → ∃ ev, next_event g s = Some ev ∧
  log s' = log s ++ [ev] ∧ rdrs s' = rdrs s ∧ ∃ wk, gors s !! g = Some wk ∧ ev ∈ todo wk.
Proof using.
  destruct s as [h chs rs gs lg]. intros H. cbn in H. unfold next_event. cbn.
  destruct (gs !! g) as [wk|]; [|done]. cbn in H |- *. destruct (todo wk) as [|ev evs] eqn:E; [done|].
  simplify_eq. exists ev. split_and!; try done. exists wk. split; [done|]. rewrite E. by left.
Qed.

Lemma step_read t m (s s' : sys R) : step cap (ARead t m) s = Some s' → ∃ r p, rdrs s !! t = Some r ∧
  log s' = log s ∧
  rdrs s' = <[t := mkRdr (connID r) p (seen r ++ [mkRequest (connID r) m])]> (rdrs s).
Proof using.
  destruct s as [h chs rs gs lg]. intros H. cbn in H. destruct (rs !! t) as [r|] eqn:Hr; [|done]. cbn in H.
  destruct (rp r); try done. simplify_eq. cbn. rewrite Hr. by do 2 eexists.
Qed.

(** ** Workers *)

Lemma step_workers a (p p' : sys R) q : step cap a p = Some p' → has_worker q p → has_worker q p'.
Proof using.
  destruct p as [h chs rs gs lg]. intros H (g & wk & Hg & Hq). cbn in Hg.
  assert (∀ x wk0 td, gs !! x = Some wk0 → ∃ g wk, <[x := mkWorker (on wk0) td]> gs !! g = Some wk ∧ on wk = Some q) as Hset.
  { intros x wk0 td Hx. exists g. rewrite (lookup_set _ _ _ _ _ Hx). case_decide; [|by exists wk].
    subst. simplify_eq. by eexists. }
  unfold has_worker. destruct a; cbn in H; pool_cases H; try (by exists g, wk);
    try (exists g, wk; by rewrite lookup_app_l_Some with (x := wk)).
  - apply bool_decide_eq_true in Heqb as [_ Hon]. rewrite <- Hon. by apply Hset.
  - match goal with E : on _ = Some ?n |- context [mkWorker (Some ?n) _] => rewrite <- E end. by apply Hset.
  - by apply Hset.
Qed.

Lemma step_go a (p p' : sys R) t r req w : step cap a p = Some p' → rdrs p !! t = Some r → rp r = RGo req w →
  rdrs p' !! t = Some r ∨ ∀ q, queue_at w p = Some q → has_worker q p'.
Proof using.
  destruct p as [h chs rs gs lg]. intros H Hr Hp. cbn in Hr.
  assert (∀ u x y, rs !! u = Some x → rp x ≠ RGo req w → <[u := y]> rs !! t = Some r) as Hset.
  { intros u x y Hu Hne. rewrite (lookup_set _ _ _ _ _ Hu). case_decide; [|done]. subst. congruence. }
  destruct a; cbn in H; pool_cases H; try (by left);
    try (left; eapply Hset; [eassumption|congruence]).
  destruct (decide (t0 = t)) as [->|Hne].
  - right. intros q Hq. simplify_eq. assert (n = q) as -> by congruence. exists (length gs), (mkWorker (Some q) []). cbn.
    rewrite lookup_app_r, Nat.sub_diag by done. by split.
  - left. unfold set_rp. by rewrite list_lookup_insert_ne.
Qed.

Lemma step_queue a (p p' : sys R) w q : step cap a p = Some p' → queue_at w p' = Some q →
  queue_at w p = Some q ∨ ∃ t r req, rdrs p' !! t = Some r ∧ rp r = RGo req w.
Proof using.
  destruct p as [h chs rs gs lg]. intros H Hq. destruct a; cbn in H; pool_cases H; try (by left).
  destruct (decide (w0 = w)) as [->|Hne].
  - right. exists t. eexists. exists req. unfold set_rp. cbn. rewrite (lookup_set _ _ _ _ _ Heqo), decide_True by done.
    split; [done|]. done.
  - left. unfold queue_at, set_queue in *. cbn in *. by rewrite list_lookup_insert_ne in Hq.
Qed.

Lemma step_staffed a (p p' : sys R) : step cap a p = Some p' → staffed p → staffed p'.
Proof using.
  intros H Hs w q Hq. destruct (step_queue _ _ _ _ _ H Hq) as [Hq0|?]; [|by right].
  destruct (Hs w q Hq0) as [Hw|(t & r & req & Hr & Hp)]; [left; by eapply step_workers|].
  destruct (step_go _ _ _ _ _ _ _ H Hr Hp) as [Hr'|Hw]; [right; by exists t, r, req|left; by apply Hw].
Qed.

(** ** The worker of a connection *)

Lemma serves_unique (p : sys R) g g' c : inv p → serves g c p → serves g' c p → g = g'.
Proof using.
  intros Hi (q & wk & Hq & Hg & Ho) (q' & wk' & Hq' & Hg' & Ho'). simplify_eq.
  pose proof (inv_uniq _ Hi) as Hu. unfold uniq in Hu. eapply NoDup_lookup; [exact Hu| |];
    rewrite list_lookup_fmap; [rewrite Hg|rewrite Hg']; cbn; [done|congruence].
Qed.

Lemma serves_wid (p : sys R) g c c' : inv p → serves g c p → serves g c' p → wid (mh p) c = wid (mh p) c'.
Proof using.
  intros Hi (q & wk & Hq & Hg & Ho) (q' & wk' & Hq' & Hg' & Ho'). simplify_eq. by eapply (inv_inj _ Hi).
Qed.

Lemma step_gor a (p p' : sys R) g wk : step cap a p = Some p' → gors p !! g = Some wk →
  ∃ wk', gors p' !! g = Some wk' ∧ on wk' = on wk.
Proof using.
  destruct p as [h chs rs gs lg]. intros H Hg. cbn in Hg.
  assert (∀ x wk0 o td, gs !! x = Some wk0 → o = on wk0 →
    ∃ wk', <[x := mkWorker o td]> gs !! g = Some wk' ∧ on wk' = on wk) as Hset.
  { intros x wk0 o td Hx ->. rewrite (lookup_set _ _ _ _ _ Hx). case_decide; [|by exists wk].
    subst. simplify_eq. by eexists. }
  destruct a; cbn in H; pool_cases H; try (by exists wk);
    try (exists wk; by rewrite lookup_app_l_Some with (x := wk)).
  - apply bool_decide_eq_true in Heqb as [_ Hon]. by eapply Hset.
  - by eapply Hset.
  - by eapply Hset.
Qed.

Lemma step_serves a (p p' : sys R) g c : inv p → step cap a p = Some p' → serves g c p → serves g c p'.
Proof using.
  intros Hi H (q & wk & Hq & Hg & Ho). destruct (step_gor _ _ _ _ _ H Hg) as (wk' & Hg' & Ho').
  exists q, wk'. rewrite Ho'. split_and!; try done.
  destruct (step_const _ _ _ _ H) as (_ & Hw & _). unfold wid in *. rewrite Hw. clear Hg Ho Hg' Ho' wk wk'.
  destruct p as [h chs rs gs lg]. destruct a; cbn in H; pool_cases H; try done.
  match goal with E : rs !! t = Some ?r, Ep : rp ?r = _ |- _ =>
    pose proof (inv_pc _ Hi _ _ E) as Hok; unfold pc_ok in Hok; rewrite Ep in Hok end.
  destruct Hok as (_ & Hw' & Hn). unfold queue_at, set_queue in *. cbn in *.
  destruct (decide (w = Z.to_nat (c `mod` WorkerPoolSize h))) as [Heq|Hne].
  - rewrite <- Heq in Hq. congruence.
  - by rewrite list_lookup_insert_ne.
Qed.

Lemma exec_serves (p p' : sys R) g ev : inv p → step cap (AExec g) p = Some p' → next_event g p = Some ev →
  serves g (GetConnection (ev_req ev)) p.
Proof using.
  intros Hi H Hev. destruct (step_exec _ _ _ H) as (ev' & Hev' & _ & _ & wk & Hg & Hin).
  destruct (inv_worker _ Hi _ _ Hg) as (w & q & Ho & Hq & Hall). rewrite Forall_forall in Hall.
  assert (ev' = ev) as -> by congruence. specialize (Hall ev Hin). subst w. by exists q, wk.
Qed.

(** ** A pool that cannot go on *)

(** A free worker has nothing to do, and nothing in its queue. *)
Lemma quiet_worker free p g wk : pool_quiet free p → free g = true → gors p !! g = Some wk →
  todo wk = [] ∧ ∀ q ch, on wk = Some q → chans p !! q = Some ch → ch = [].
Proof using.
  intros Hq Hf Hg.
  pose proof (Hq (AExec g) ltac:(done) ltac:(by intros ? [= <-])) as He.
  pose proof (Hq (ARecv g) ltac:(done) ltac:(by intros ? [= <-])) as Hr. destruct p as [h chs rs gs lg].
  cbn in *. rewrite Hg in He, Hr. cbn in He, Hr. destruct (todo wk); [|done]. split; [done|].
  intros q ch Hon Hch. rewrite Hon in Hr. cbn in Hr. rewrite Hch in Hr. cbn in Hr. by destruct ch.
Qed.

(** No reader is about to start a worker. *)
Lemma quiet_go free p t r req w : inv p → pool_quiet free p → rdrs p !! t = Some r → rp r ≠ RGo req w.
Proof using.
  intros Hi Hq Hr Hp. pose proof (Hq (AGo t) ltac:(done) ltac:(done)) as H.
  pose proof (inv_pc _ Hi _ _ Hr) as Hok. unfold pc_ok in Hok. rewrite Hp in Hok.
  destruct Hok as (_ & -> & q & Hqq & _). destruct p as [h chs rs gs lg]. cbn in *.
  rewrite Hr in H. cbn in H. rewrite Hp in H. by rewrite Hqq in H.
Qed.

(** A reader waits for a message, or for a worker that is held up. *)
Lemma quiet_reader free p t r : (0 < cap)%nat → inv p → staffed p → pool_quiet free p →
  rdrs p !! t = Some r → rp r = RRead ∨ held_up free (connID r) p.
Proof using.
  intros Hcap Hi Hs Hq Hr. pose proof (inv_pc _ Hi _ _ Hr) as Hok. unfold pc_ok in Hok.
  destruct (rp r) as [|req|req w|req w|req w|] eqn:Hp; try done; [by left|right..].
  - pose proof (Hq (ACheck t) ltac:(done) ltac:(done)) as H. destruct p as [h chs rs gs lg]. cbn in *.
    rewrite Hr in H. cbn in H. rewrite Hp in H. destruct (workerID _ _) as [w| |]; try done.
    by destruct (TaskQueue h !! w) as [[|]|].
  - pose proof (Hq (AMake t) ltac:(done) ltac:(done)) as H. destruct p as [h chs rs gs lg]. cbn in *.
    rewrite Hr in H. cbn in H. by rewrite Hp in H.
  - by destruct (quiet_go free p t r req w Hi Hq Hr).
  - destruct Hok as (_ & -> & q & Hqq). destruct (inv_chan _ Hi _ _ Hqq) as (ch & Hch & _).
    destruct (Hs _ _ Hqq) as [(g & wk & Hg & Hon)|(u & x & req' & Hu & Hx)]; [|by destruct (quiet_go free p u x _ _ Hi Hq Hu Hx)].
    destruct (free g) eqn:Hf; [exfalso|exists g; split; [by exists q, wk|done]].
    destruct (quiet_worker free p g wk Hq Hf Hg) as [_ Hw]. pose proof (Hw q ch Hon Hch) as ->.
    pose proof (Hq (ASend t) ltac:(done) ltac:(done)) as H. destruct p as [h chs rs gs lg]. cbn in *.
    rewrite Hr in H. cbn in H. rewrite Hp in H. rewrite Hqq in H.
    cbn in H. rewrite Hch in H. cbn in H. by rewrite bool_decide_eq_true_2 in H.
Qed.

(** Nothing is left to do for a connection whose worker is not held up. *)
Lemma quiet_stage free p c : inv p → staffed p → pool_quiet free p →
  stage c p = [] ∨ held_up free c p.
Proof using.
  intros Hi Hs Hq. unfold stage. destruct (queue_at _ _) as [q|] eqn:Hqq; [|by left].
  destruct (Hs _ _ Hqq) as [(g & wk & Hg & Hon)|(u & x & req & Hu & Hx)]; [|by destruct (quiet_go free p u x _ _ Hi Hq Hu Hx)].
  destruct (free g) eqn:Hf; [left|right; exists g; split; [by exists q, wk|done]].
  destruct (quiet_worker free p g wk Hq Hf Hg) as [Ht Hw].
  rewrite (todo_on_unique q _ g wk), Ht by (try done; apply (inv_uniq _ Hi)). cbn.
  destruct (chans p !! q) as [ch|] eqn:Hch; [|done]. by rewrite (Hw q ch Hon Hch).
Qed.

(** What has arrived on a connection has been handled, unless its worker is
    held up. *)
Lemma quiet_served free p t r : (0 < cap)%nat → inv p → staffed p → pool_quiet free p → rdrs p !! t = Some r →
  (rp r = RRead ∧ of_conn (connID r) (log p) = handle_all (mh p) (seen r)) ∨ held_up free (connID r) p.
Proof using.
  intros Hcap Hi Hs Hq Hr. destruct (quiet_reader free p t r Hcap Hi Hs Hq Hr) as [Hp|]; [|by right].
  destruct (quiet_stage free p (connID r) Hi Hs Hq) as [Hst|]; [left|by right].
  split; [done|]. pose proof (inv_flow _ Hi _ _ Hr) as Hf. rewrite Hp, Hst in Hf. cbn in Hf.
  by rewrite app_nil_r in Hf.
Qed.
End PoolProgress.
Arguments pool_quiet {R} cap free p.
