(* ===== verification/Registry.v ===== *)
(** * geerpc/registry: the service registry and the heartbeat

    Models [src/geerpc/registry/registry.go].  A time is a number of
    nanoseconds; every call of [time.Now] is an argument, so a handler gets
    the reading of the clock for each of its calls.  The order in which Go
    ranges over a map is an argument too.  [registry.mu] makes every
    operation atomic, so a history of requests is a sequence. *)

From S2P Require Import Prelude GoStrings.

Definition Minute : Z := 60 * 10 ^ 9.
Definition defaultPath : string := "/_geerpc_/registry".
Definition defaultTimeout : Z := 5 * Minute.

Record ServerItem := mkServerItem { Addr : string; start : Z }.
Record GeeRegistry := mkRegistry { timeout : Z; servers : gmap string ServerItem }.

Definition New (timeout : Z) : GeeRegistry := mkRegistry timeout ∅.
Definition DefaultGeeRegister : GeeRegistry := New defaultTimeout.

Definition putServer (now : Z) (addr : string) (r : GeeRegistry) : GeeRegistry :=
  match servers r !! addr with
  | None => mkRegistry (timeout r) (<[addr := mkServerItem addr now]> (servers r))
  | Some s => mkRegistry (timeout r) (<[addr := mkServerItem (Addr s) now]> (servers r))
  end.

(** The test of the loop: no expiry, or [start.Add(timeout).After(now)]. *)
Definition not_expired (timeout : Z) (s : ServerItem) (now : Z) : bool :=
  bool_decide (timeout = 0) || bool_decide (now < start s + timeout).

(** The loop over the map: [todo] is the keys still to be visited, [now addr]
    the clock when [addr] is. *)
Fixpoint alive_loop (now : string → Z) (todo : list string) (alive : list string) (r : GeeRegistry)
  : list string * GeeRegistry :=
  match todo with
  | [] => (alive, r)
  | addr :: todo =>
      match servers r !! addr with
      | None => alive_loop now todo alive r
      | Some s =>
          if not_expired (timeout r) s (now addr) then alive_loop now todo (alive ++ [addr]) r
          else alive_loop now todo alive (mkRegistry (timeout r) (delete addr (servers r)))
      end
  end.

(** [sort.Strings] *)
Definition Strings (l : list string) : list string := merge_sort String.le l.

(** [iter] is the order in which the range visits the keys. *)
Definition aliveServers (iter : list string → list string) (now : string → Z) (r : GeeRegistry)
  : list string * GeeRegistry :=
  let '(alive, r) := alive_loop now (iter (map_to_list (servers r)).*1) [] r in
  (Strings alive, r).

(** ** HTTP *)

Record request := mkRequest { Method : string; X_Geerpc_Server : string }.
Record response := mkResponse { Status : Z; X_Geerpc_Servers : string }.

Definition ServeHTTP (iter : list string → list string) (now : string → Z) (req : request)
  (r : GeeRegistry) : response * GeeRegistry :=
  if bool_decide (Method req = "GET"%string) then
    let '(alive, r) := aliveServers iter now r in (mkResponse 200 (Join alive ","), r)
  else if bool_decide (Method req = "POST"%string) then
    let addr := X_Geerpc_Server req in
    if bool_decide (addr = ""%string) then (mkResponse 500 "", r)
    else (mkResponse 200 "", putServer (now addr) addr r)
  else (mkResponse 405 "", r).

(** The path and the registry that [HandleHTTP] puts into the default mux. *)
Definition GeeRegistry_HandleHTTP (registryPath : string) (r : GeeRegistry)
  (mux : gmap string GeeRegistry) : outcome (gmap string GeeRegistry) :=
  match mux !! registryPath with
  | Some _ => Panic ("http: multiple registrations for " +:+ registryPath)
  | None => Ret (<[registryPath := r]> mux)
  end.

Definition HandleHTTP (mux : gmap string GeeRegistry) := GeeRegistry_HandleHTTP defaultPath DefaultGeeRegister mux.

(** ** Heartbeat *)

(** What [sendHeartbeat] asks the registry. *)
Definition sendHeartbeat_request (addr : string) : request := mkRequest "POST" addr.

(** The ticks of the goroutine: [send k] is the error of the [k]-th heartbeat,
    [err] the last one; the times of the heartbeats sent in the next [n] ticks. *)
Fixpoint beats (send : nat → error) (duration : Z) (n k : nat) (now : Z) (err : error) : list Z :=
  match n, err with
  | S n, None => now + duration :: beats send duration n (S k) (now + duration) (send (S k))
  | _, _ => []
  end.

(** The times of the heartbeats sent during the first [n] ticks after [now];
    a ticker of a negative period panics. *)
Definition Heartbeat (send : nat → error) (duration now : Z) (n : nat) : outcome (list Z) :=
  let duration := if bool_decide (duration = 0) then defaultTimeout - 1 * Minute else duration in
  let err := send 0%nat in
  if bool_decide (duration ≤ 0) then Panic "non-positive interval for NewTicker"
  else Ret (now :: beats send duration n 0 now err).

(** ** Specification *)

(** A history of the registry: heartbeats received and lists asked for. *)
Inductive op :=
  | Post (now : Z) (addr : string)
  | List_ (iter : list string → list string) (now : string → Z).

Definition apply_op (o : op) (r : GeeRegistry) : response * GeeRegistry :=
  match o with
  | Post now addr => ServeHTTP id (λ _, now) (mkRequest "POST" addr) r
  | List_ iter now => ServeHTTP iter now (mkRequest "GET" "") r
  end.

Definition run (h : list op) (r : GeeRegistry) : GeeRegistry :=
  foldl (λ r o, (apply_op o r).2) r h.

(** The clock does not go back from one operation to the next; it is at most
    [hi] at the end. *)
Fixpoint in_time_order (lo : Z) (h : list op) (hi : Z) : Prop :=
  match h with
  | [] => lo ≤ hi
  | Post now addr :: h => lo ≤ now ∧ addr ≠ ""%string ∧ in_time_order now h hi
  | List_ iter now :: h =>
      (∀ l, iter l ≡ₚ l) ∧ ∃ mid, (∀ a, lo ≤ now a ≤ mid) ∧ in_time_order mid h hi
  end.

(** The time of the last heartbeat of [addr] in a history. *)
Fixpoint last_post (addr : string) (h : list op) : option Z :=
  match h with
  | [] => None
  | Post now a :: h =>
      match last_post addr h with
      | Some t => Some t
      | None => if bool_decide (a = addr) then Some now else None
      end
  | List_ _ _ :: h => last_post addr h
  end.

(** The server [a] is in the registry and has not expired. *)
Definition alive_now (r : GeeRegistry) (now : string → Z) (a : string) : bool :=
  match servers r !! a with Some s => not_expired (timeout r) s (now a) | None => false end.

(** A server whose last heartbeat is [t] is alive at [now]. *)
Definition fresh (timeout t now : Z) : Prop := timeout = 0 ∨ now < t + timeout.

(** The registry after a history that ends by the time [hi]: an entry records
    its last heartbeat, and an address without an entry has expired. *)
Definition tracks (timeout_ : Z) (h : list op) (hi : Z) (r : GeeRegistry) : Prop :=
  timeout r = timeout_ ∧
  ∀ a, match servers r !! a with
       | Some s => Addr s = a ∧ last_post a h = Some (start s)
       | None => ∀ t, last_post a h = Some t → timeout_ ≠ 0 ∧ t + timeout_ ≤ hi
       end.

(** ** Lists of servers *)

Lemma not_expired_fresh timeout s now :
  not_expired timeout s now = true ↔ fresh timeout (start s) now.
Proof. unfold not_expired, fresh. rewrite orb_true_iff, !bool_decide_eq_true. done. Qed.

Lemma alive_loop_spec now todo alive r : NoDup todo →
  (alive_loop now todo alive r).1 = alive ++ filter (λ a, alive_now r now a = true) todo ∧
  timeout (alive_loop now todo alive r).2 = timeout r ∧
  ∀ a, servers (alive_loop now todo alive r).2 !! a =
    if decide (a ∈ todo ∧ alive_now r now a = false) then None else servers r !! a.
Proof.
  intros Hnd. revert alive r. induction Hnd as [|a todo Ha Hnd IH]; intros alive r; cbn [alive_loop].
  { split_and!; [by rewrite app_nil_r|done|]. intros a. rewrite decide_False; [done|set_solver]. }
  assert (∀ b, alive_now r now b = true → filter (λ a, alive_now r now a = true) [b] = [b]) as Hf.
  { intros b Hb. by rewrite filter_cons_True. }
  destruct (servers r !! a) as [s|] eqn:Hs.
  - assert (alive_now r now a = not_expired (timeout r) s (now a)) as Haa
      by (unfold alive_now; by rewrite Hs).
    destruct (not_expired (timeout r) s (now a)) eqn:He.
    + destruct (IH (alive ++ [a]) r) as (-> & -> & Hl). split_and!; [|done|].
      * rewrite filter_cons_True by done. by rewrite <- app_assoc.
      * intros b. rewrite Hl. apply decide_ext. rewrite elem_of_cons. intuition congruence.
    + set (r' := mkRegistry _ _). destruct (IH alive r') as (-> & -> & Hl).
      assert (∀ b, b ≠ a → alive_now r' now b = alive_now r now b) as Hother.
      { intros b Hb. unfold alive_now, r'. cbn. by rewrite lookup_delete_ne. }
      split_and!; [|done|].
      * rewrite filter_cons_False by congruence. f_equal. apply filter_ext_in.
        intros b Hb. rewrite Hother; [done|]. by intros ->.
      * intros b. rewrite Hl. cbn [r' servers]. destruct (decide (b = a)) as [->|Hb].
        { rewrite lookup_delete_eq, (decide_True (P := a ∈ a :: todo ∧ _)) by (split; [set_solver|done]).
          by case_decide. }
        rewrite lookup_delete_ne by done. rewrite Hother by done.
        apply decide_ext. rewrite elem_of_cons. intuition congruence.
  - assert (alive_now r now a = false) as Haa by (unfold alive_now; by rewrite Hs).
    destruct (IH alive r) as (-> & -> & Hl). split_and!; [|done|].
    + rewrite filter_cons_False by congruence. done.
    + intros b. rewrite Hl. destruct (decide (b = a)) as [->|Hb].
      { rewrite Hs. by repeat case_decide. }
      apply decide_ext. rewrite elem_of_cons. intuition congruence.
Qed.

Lemma aliveServers_ok iter now r : (∀ l, iter l ≡ₚ l) →
  let '(l, r') := aliveServers iter now r in
  StronglySorted String.le l ∧ NoDup l ∧ (∀ a, a ∈ l ↔ alive_now r now a = true) ∧
  timeout r' = timeout r ∧
  ∀ a, servers r' !! a = if alive_now r now a then servers r !! a else None.
Proof.
  intros Hiter. unfold aliveServers.
  assert (NoDup (iter (map_to_list (servers r)).*1)) as Hnd.
  { rewrite Hiter. apply NoDup_fst_map_to_list. }
  destruct (alive_loop_spec now _ [] r Hnd) as (Hl & Ht & Hs).
  destruct (alive_loop _ _ _ _) as [l r'] eqn:E. cbn in Hl, Ht, Hs. subst l.
  assert (∀ a, alive_now r now a = true → a ∈ iter (map_to_list (servers r)).*1) as Hin.
  { intros a Ha. unfold alive_now in Ha. destruct (servers r !! a) as [s|] eqn:Hsa; [|done].
    rewrite Hiter. apply list_elem_of_fmap. exists (a, s). by rewrite elem_of_map_to_list. }
  unfold Strings. split_and!.
  - apply StronglySorted_merge_sort; apply _.
  - rewrite merge_sort_Permutation. by apply NoDup_filter.
  - intros a. rewrite merge_sort_Permutation, list_elem_of_filter. naive_solver.
  - done.
  - intros a. rewrite Hs. destruct (alive_now r now a) eqn:Ha.
    + by rewrite decide_False by naive_solver.
    + destruct (servers r !! a) as [s|] eqn:Hsa; [|by case_decide].
      rewrite decide_True; [done|]. split; [|done]. rewrite Hiter. apply list_elem_of_fmap.
      exists (a, s). by rewrite elem_of_map_to_list.
Qed.

(** ** Histories *)

Lemma in_time_order_le lo h hi : in_time_order lo h hi → lo ≤ hi.
Proof.
  revert lo. induction h as [|[now a|iter now] h IH]; intros lo; cbn; [done| |].
  - intros (? & _ & H%IH). lia.
  - intros (_ & mid & Hm & H%IH). specialize (Hm ""%string). lia.
Qed.

Lemma in_time_order_app lo h1 h2 hi : in_time_order lo (h1 ++ h2) hi ↔
  ∃ mid, in_time_order lo h1 mid ∧ in_time_order mid h2 hi.
Proof.
  revert lo. induction h1 as [|[now a|iter now] h1 IH]; intros lo; cbn.
  - split.
    + intros H. exists lo. by split.
    + intros (mid & Hle & H). destruct h2 as [|[now a|iter now] h2]; cbn in *; [lia| |].
      * destruct H as (? & ? & ?). split_and!; [lia|done|done].
      * destruct H as (? & m' & Hm & ?). split; [done|]. exists m'. split; [|done].
        intros a. specialize (Hm a). lia.
  - rewrite IH. naive_solver.
  - setoid_rewrite IH. naive_solver.
Qed.

Lemma last_post_app a h1 h2 : last_post a (h1 ++ h2) =
  match last_post a h2 with Some t => Some t | None => last_post a h1 end.
Proof.
  induction h1 as [|[now b|iter now] h1 IH]; cbn.
  - by destruct (last_post a h2).
  - rewrite IH. by destruct (last_post a h2).
  - done.
Qed.

Lemma last_post_lo lo h hi a t : in_time_order lo h hi → last_post a h = Some t → lo ≤ t.
Proof.
  revert lo. induction h as [|[now b|iter now] h IH]; intros lo Ho E; cbn in *; [done| |].
  - destruct Ho as (? & _ & Ho). destruct (last_post a h) eqn:E'.
    + simplify_eq. specialize (IH _ Ho eq_refl). lia.
    + case_bool_decide; simplify_eq. lia.
  - destruct Ho as (_ & mid & Hm & Ho). specialize (IH _ Ho E). specialize (Hm ""%string). lia.
Qed.

(** A heartbeat in a history bounds the last one from below. *)
Lemma last_post_ge lo h hi a t : in_time_order lo h hi → Post t a ∈ h →
  ∃ t', last_post a h = Some t' ∧ t ≤ t'.
Proof.
  revert lo. induction h as [|o h IH]; intros lo Ho Hin; [set_solver|].
  destruct o as [now b|iter now]; cbn in *.
  - destruct Ho as (Hlo & _ & Ho). apply elem_of_cons in Hin as [Heq|Hin].
    + simplify_eq. rewrite bool_decide_eq_true_2 by done.
      destruct (last_post b h) as [t'|] eqn:E; [|exists now; split; [done|lia]].
      exists t'. split; [done|]. by eapply last_post_lo.
    + destruct (IH _ Ho Hin) as (t' & -> & ?). eauto.
  - destruct Ho as (_ & mid & _ & Ho). apply elem_of_cons in Hin as [?|Hin]; [done|]. by eapply IH.
Qed.

Lemma apply_Post now a r : a ≠ ""%string →
  apply_op (Post now a) r = (mkResponse 200 "", putServer now a r).
Proof. intros Ha. cbn. unfold ServeHTTP. cbn. by rewrite (bool_decide_eq_false_2 (a = ""%string)). Qed.

Lemma apply_List iter now r : apply_op (List_ iter now) r =
  let '(alive, r') := aliveServers iter now r in (mkResponse 200 (Join alive ","), r').
Proof. done. Qed.

Lemma Post_tracks T h hi now a r : tracks T h hi r → hi ≤ now → a ≠ ""%string →
  tracks T (h ++ [Post now a]) now (apply_op (Post now a) r).2.
Proof.
  intros [HT Htr] Hle Ha. rewrite apply_Post by done. cbn [snd].
  assert (∀ b, servers (putServer now a r) !! b =
    if decide (b = a) then Some (mkServerItem a now) else servers r !! b) as Hput.
  { intros b. unfold putServer. specialize (Htr a).
    destruct (servers r !! a) as [s|]; cbn; [destruct Htr as [-> _]|]; case_decide; subst;
      by rewrite ?lookup_insert_eq, ?lookup_insert_ne by done. }
  split; [rewrite <- HT; unfold putServer; by destruct (servers r !! a)|]. intros b. rewrite Hput, last_post_app. cbn.
  case_decide as Hb; subst.
  - by rewrite bool_decide_eq_true_2.
  - rewrite bool_decide_eq_false_2 by done. specialize (Htr b).
    destruct (servers r !! b) as [s|]; [done|]. intros t Ht. destruct (Htr t Ht). split; [done|lia].
Qed.

Lemma List_tracks T h lo hi iter now r : tracks T h lo r → (∀ l, iter l ≡ₚ l) →
  (∀ a, lo ≤ now a ≤ hi) → tracks T (h ++ [List_ iter now]) hi (apply_op (List_ iter now) r).2.
Proof.
  intros [HT Htr] Hiter Hnow. rewrite apply_List.
  pose proof (aliveServers_ok iter now r Hiter) as Hok. destruct (aliveServers iter now r) as [l r'].
  destruct Hok as (_ & _ & _ & HT' & Hs). cbn. split; [congruence|]. intros a.
  rewrite Hs, last_post_app. cbn. specialize (Htr a). specialize (Hnow a). unfold alive_now.
  destruct (servers r !! a) as [s|].
  - destruct (not_expired _ _ _) eqn:E; [done|]. intros t Ht. destruct Htr as [_ Htr]. rewrite Htr in Ht.
    simplify_eq. unfold not_expired in E. apply orb_false_iff in E as [E1 E2].
    apply bool_decide_eq_false in E1, E2. split; [done|lia].
  - intros t Ht. destruct (Htr t Ht). split; [done|lia].
Qed.

Lemma run_tracks T h h0 lo hi r : tracks T h0 lo r → in_time_order lo h hi →
  tracks T (h0 ++ h) hi (run h r).
Proof.
  revert h0 lo r. induction h as [|o h IH]; intros h0 lo r Htr Ho; cbn.
  - rewrite app_nil_r. cbn in Ho. destruct Htr as [HT Htr]. split; [done|]. intros a. specialize (Htr a).
    destruct (servers r !! a); [done|]. intros t Ht. destruct (Htr t Ht). split; [done|lia].
  - rewrite (cons_middle o h0 h), app_assoc. destruct o as [now a|iter now]; cbn in Ho.
    + destruct Ho as (Hlo & Ha & Ho). eapply IH; [|done]. by eapply Post_tracks.
    + destruct Ho as (Hiter & mid & Hmid & Ho). eapply IH; [|done]. by eapply List_tracks.
Qed.

Lemma New_tracks T lo : tracks T [] lo (New T).
Proof. split; [done|]. intros a. unfold New. cbn [servers]. by rewrite lookup_empty. Qed.

(** What a GET answers after a history, from the history alone. *)
Lemma list_after T h lo hi iter now : in_time_order lo (h ++ [List_ iter now]) hi →
  ∃ l, (apply_op (List_ iter now) (run h (New T))).1 = mkResponse 200 (Join l ",") ∧
  StronglySorted String.le l ∧ NoDup l ∧
  ∀ a, a ∈ l ↔ ∃ t, last_post a h = Some t ∧ fresh T t (now a).
Proof.
  intros (mid & Ho & Hl)%in_time_order_app. cbn in Hl. destruct Hl as (Hiter & m' & Hnow & _).
  pose proof (run_tracks T h [] lo mid (New T) (New_tracks T lo) Ho) as [HT Htr].
  rewrite apply_List.
  pose proof (aliveServers_ok iter now (run h (New T)) Hiter) as Hok.
  destruct (aliveServers iter now _) as [l r']. destruct Hok as (Hsort & Hnd & Hin & _).
  exists l. split_and!; [done..|]. intros a. rewrite Hin. unfold alive_now. specialize (Htr a).
  specialize (Hnow a). cbn in Htr. destruct (servers _ !! a) as [s|].
  - destruct Htr as [_ Htr]. rewrite not_expired_fresh, HT, Htr. naive_solver.
  - split; [done|]. intros (t & Ht & [->|Hf]); destruct (Htr t Ht); [done|lia].
Qed.

(** ** Properties *)

(** C25: whatever heartbeats and requests the registry has seen, in whatever order
    it walks its map, a GET answers with the sorted list, without duplicates,
    of exactly the servers whose last heartbeat is not older than the timeout
    at the time the server is visited; the deletion of expired entries is not
    observable. *)
Theorem registry_lists_live_servers T h lo hi iter now :
  in_time_order lo (h ++ [List_ iter now]) hi →
  ∃ l, (apply_op (List_ iter now) (run h (New T))).1 = mkResponse 200 (Join l ",") ∧
  StronglySorted String.le l ∧ NoDup l ∧
  ∀ a, a ∈ l ↔ ∃ t, last_post a h = Some t ∧ (T = 0 ∨ now a < t + T).
Proof. apply list_after. Qed.

Lemma registry_lists_live_servers_witness : ∃ l,
  (apply_op (List_ reverse (λ _, 12)) (run [Post 1 "b"; List_ id (λ _, 2); Post 5 "a"; Post 7 "c"]
     (New 6))).1 = mkResponse 200 (Join l ",") ∧
  StronglySorted String.le l ∧ NoDup l ∧
  ∀ a, a ∈ l ↔ ∃ t, last_post a [Post 1 "b"; List_ id (λ _, 2); Post 5 "a"; Post 7 "c"] = Some t ∧
    (6 = 0 ∨ 12 < t + 6).
Proof.
  apply (registry_lists_live_servers 6 [Post 1 "b"; List_ id (λ _, 2); Post 5 "a"; Post 7 "c"] 0 12
    reverse (λ _, 12)).
  cbn. split_and!; try lia; try discriminate; [done|]. exists 2. split; [lia|].
  split_and!; try lia; try discriminate. { intros l. apply reverse_Permutation. }
  exists 12. split; [lia|lia].
Defined.

Lemma beats_ok send d n k now : (∀ i, (k ≤ i < k + n)%nat → send i = None) →
  beats send d n k now (send k) = (λ i, now + Z.of_nat i * d) <$> seq 1 n.
Proof.
  revert k now. induction n as [|n IH]; intros k now Hs; cbn [beats seq fmap list_fmap]; [done|].
  rewrite (Hs k) by lia. rewrite IH by (intros i Hi; apply Hs; lia). f_equal; [lia|].
  rewrite <- (fmap_S_seq 1 n), <- list_fmap_compose. apply list_fmap_ext. intros i x _. cbn. lia.
Qed.

Lemma beats_stop send d n k j now e : (∀ i, (k ≤ i < j)%nat → send i = None) →
  send j = Some e → (k ≤ j ≤ k + n)%nat →
  beats send d n k now (send k) = (λ i, now + Z.of_nat i * d) <$> seq 1 (j - k).
Proof.
  revert k now. induction n as [|n IH]; intros k now Hs Hj Hn; cbn [beats].
  - by replace (j - k)%nat with 0%nat by lia.
  - destruct (decide (k = j)) as [->|Hkj].
    + rewrite Hj, Nat.sub_diag. done.
    + rewrite (Hs k) by lia. rewrite IH by (try done; try lia; intros; apply Hs; lia).
      replace (j - k)%nat with (S (j - S k)) by lia. cbn [seq fmap list_fmap]. f_equal; [lia|].
      rewrite <- (fmap_S_seq 1), <- list_fmap_compose. apply list_fmap_ext. intros i x _. cbn. lia.
Qed.

(** C26: with the default period a server stays listed by a registry with the
    default timeout: if every heartbeat succeeds and the registry has received
    those sent so far, then a GET during the run of the heartbeat lists it. *)
Theorem Heartbeat_keeps_listed send addr t0 n times h lo hi iter now :
  Heartbeat send 0 t0 n = Ret times → (∀ k, (k ≤ n)%nat → send k = None) →
  in_time_order lo (h ++ [List_ iter now]) hi →
  (∀ b, b ∈ times → b ≤ now addr → Post b addr ∈ h) →
  t0 ≤ now addr < t0 + (Z.of_nat n + 1) * (4 * Minute) →
  ∃ l, (apply_op (List_ iter now) (run h DefaultGeeRegister)).1 = mkResponse 200 (Join l ",") ∧
  addr ∈ l.
Proof.
  intros Hb Hsend Ho Hrecv Hnow. destruct (list_after defaultTimeout h lo hi iter now Ho)
    as (l & Hl & _ & _ & Hin). exists l. split; [done|]. apply Hin.
  unfold Heartbeat in Hb. rewrite bool_decide_eq_false_2 in Hb by (vm_compute; congruence).
  rewrite bool_decide_eq_true_2 in Hb by done. replace (defaultTimeout - 1 * Minute) with (4 * Minute) in Hb by done.
  rewrite beats_ok in Hb by (intros i Hi; apply Hsend; lia). simplify_eq.
  assert (0 < 4 * Minute) as Hpos by done. set (d := 4 * Minute) in *.
  pose (k := (now addr - t0) / d).
  assert (t0 + k * d ≤ now addr < t0 + k * d + d ∧ 0 ≤ k ≤ Z.of_nat n) as (Hk & Hk0).
  { unfold k. pose proof (Z.mul_div_le (now addr - t0) d Hpos).
    pose proof (Z.mul_succ_div_gt (now addr - t0) d Hpos).
    assert (0 ≤ (now addr - t0) / d) by (apply Z.div_pos; lia).
    assert ((now addr - t0) / d < Z.of_nat n + 1) by (apply Z.div_lt_upper_bound; lia). lia. }
  apply in_time_order_app in Ho as (mid & Ho & _).
  destruct (last_post_ge lo h mid addr (t0 + k * d) Ho) as (t' & Ht' & Hle).
  { apply Hrecv; [|lia]. apply elem_of_cons. destruct (decide (k = 0)) as [->|Hkz]; [left; lia|right].
    apply list_elem_of_fmap. exists (Z.to_nat k). rewrite elem_of_seq. split; [|lia].
    by rewrite Z2Nat.id by lia. }
  exists t'. split; [done|]. right. unfold defaultTimeout, d, Minute in *. lia.
Qed.

Lemma Heartbeat_keeps_listed_witness : ∃ l,
  (apply_op (List_ id (λ _, 250 * 10 ^ 9)) (run [Post 0 "s"; Post (240 * 10 ^ 9) "s"] DefaultGeeRegister)).1
    = mkResponse 200 (Join l ",") ∧ "s"%string ∈ l.
Proof.
  apply (Heartbeat_keeps_listed (λ _, None) "s" 0 1 [0; 240 * 10 ^ 9]
    [Post 0 "s"; Post (240 * 10 ^ 9) "s"] 0 (250 * 10 ^ 9)).
  - reflexivity.
  - reflexivity.
  - cbn. split_and!; try lia; try discriminate; [done|]. exists (250 * 10 ^ 9). split; [intros _; lia|lia].
  - intros b [->|[->|[]%elem_of_nil]%elem_of_cons]%elem_of_cons _; [left|right; left].
  - unfold Minute. lia.
Defined.

(** The heartbeat stops for good at its first failed request: however long
    it runs afterwards, nothing is sent after it, so the server disappears
    from the registry although it is running. *)
Theorem Heartbeat_stops_at_error send d t0 n j e :
  0 < d → (∀ i, (i < j)%nat → send i = None) → send j = Some e → (j ≤ n)%nat →
  Heartbeat send d t0 n = Ret ((λ i, t0 + Z.of_nat i * d) <$> seq 0 (S j)).
Proof.
  intros Hd Hs Hj Hn. unfold Heartbeat. rewrite (bool_decide_eq_false_2 (d = 0)) by lia.
  rewrite (bool_decide_eq_false_2 (d ≤ 0)) by lia.
  rewrite (beats_stop send d n 0 j t0 e) by (try done; try lia; intros; apply Hs; lia).
  rewrite Nat.sub_0_r. cbn [seq fmap list_fmap]. by replace (t0 + Z.of_nat 0 * d) with t0 by lia.
Qed.

Lemma Heartbeat_stops_at_error_witness :
  Heartbeat (λ k, if bool_decide (k = 1%nat) then Some "refused"%string else None) 10 100 50 =
  Ret [100; 110].
Proof.
  apply (Heartbeat_stops_at_error _ 10 100 50 1 "refused"); [lia| |reflexivity|lia].
  intros i Hi. rewrite bool_decide_eq_false_2; [reflexivity|lia].
Defined.
