(* ===== verification/Discovery.v ===== *)
(** * geerpc/xclient: service discovery and load balancing

    Models [src/geerpc/xclient/discovery.go] and [discovery_gee.go]: the list
    of servers with its selection modes, and the discovery that refreshes the
    list from a registry.  [sync.RWMutex] is modelled with its counters,
    because one method takes it in one mode and releases it in the other.  The
    generator of [math/rand] is the hypothesis that [Intn n] is below [n]; the
    registry is reached through the function [fetch] that answers a GET. *)

From S2P Require Import Prelude GoStrings.
From S2P Require Registry.

(** ** sync.RWMutex *)

Record RWMutex := mkRWMutex { writer : bool; readers : nat }.

(** A call that has to wait has not returned. *)
Definition Lock (mu : RWMutex) : outcome RWMutex :=
  if writer mu || bool_decide (readers mu ≠ 0%nat) then NoFuel else Ret (mkRWMutex true 0).

Definition Unlock (mu : RWMutex) : outcome RWMutex :=
  if writer mu then Ret (mkRWMutex false (readers mu))
  else Panic "fatal error: sync: Unlock of unlocked RWMutex".

Definition RLock (mu : RWMutex) : outcome RWMutex :=
  if writer mu then NoFuel else Ret (mkRWMutex false (S (readers mu))).

Definition unlocked : RWMutex := mkRWMutex false 0.

(** ** The interface *)

Definition RandomSelect : Z := 0.
Definition RoundRobinSelect : Z := 1.

(** What a call sees of the world: its first and second reading of the clock,
    and the registry's answer to a GET, the header or an error. *)
Record Env := mkEnv { now1 : Z; now2 : Z; fetch : string → string + string }.

Class Discovery (D : Type) := {
  d_Refresh : Env → D → outcome (error * D);
  d_Update : Env → list string → D → outcome (error * D);
  d_Get : Env → Z → D → outcome (string * error * D);
  d_GetAll : Env → D → outcome (list string * error * D);
}.

(** The transport bounds the size of a header. *)
Definition env_ok (e : Env) : Prop :=
  ∀ a h, fetch e a = inl h → Z.of_nat (String.length h) < 2 ^ 31 - 1.

(** What a client may rely on: when no call is in progress, [Get] returns, and
    what it returns without an error is one of the servers known then. *)
Class DiscoveryLaws (D : Type) `{Discovery D} := {
  idle : D → Prop;
  known : D → list string;
  Get_known e m d : env_ok e → idle d →
    ∃ s err d', d_Get e m d = Ret (s, err, d') ∧ idle d' ∧ (err = None → s ∈ known d');
}.

Section Discovery.
(** [rand.Rand]: the result of the [k]-th call of [Intn]. *)
Context (Intn : nat → Z → Z).

(** [r] counts the calls of the generator. *)
Record MultiServersDiscovery := mkMulti {
  r : nat; mu : RWMutex; servers : list string; index : Z }.

Definition NewMultiServerDiscovery (servers : list string) : MultiServersDiscovery :=
  mkMulti 1 unlocked servers (Intn 0 (2 ^ 31 - 1 - 1)).

Definition with_mu (mu : RWMutex) (d : MultiServersDiscovery) : MultiServersDiscovery :=
  mkMulti (r d) mu (servers d) (index d).

Definition Multi_Refresh (d : MultiServersDiscovery) : outcome (error * MultiServersDiscovery) :=
  Ret (None, d).

Definition Multi_Update (servers : list string) (d : MultiServersDiscovery)
  : outcome (error * MultiServersDiscovery) :=
  let! m1 := Lock (mu d) in
  let d := mkMulti (r d) m1 servers (index d) in
  let! m2 := Unlock (mu d) in Ret (None, with_mu m2 d).

(** The body of [Get], between [Lock] and [Unlock]. *)
Definition select (mode : Z) (d : MultiServersDiscovery)
  : outcome (string * error * MultiServersDiscovery) :=
  let n := Z.of_nat (length (servers d)) in
  if bool_decide (n = 0) then Ret (""%string, Some "rpc discovery: no available servers"%string, d)
  else if bool_decide (mode = RandomSelect) then
    let! s := goindex (servers d) (Intn (r d) n) in
    Ret (s, None, mkMulti (S (r d)) (mu d) (servers d) (index d))
  else if bool_decide (mode = RoundRobinSelect) then
    let! s := goindex (servers d) (Z.rem (index d) n) in
    Ret (s, None, mkMulti (r d) (mu d) (servers d) (Z.rem (i64 (index d + 1)) n))
  else Ret (""%string, Some "rpc discovery: not supported select mode"%string, d).

Definition Multi_Get (mode : Z) (d : MultiServersDiscovery)
  : outcome (string * error * MultiServersDiscovery) :=
  let! m1 := Lock (mu d) in
  let! (s, err, d) := select mode (with_mu m1 d) in
  let! m2 := Unlock (mu d) in Ret (s, err, with_mu m2 d).

(** [RLock], and the deferred [Unlock]. *)
Definition Multi_GetAll (d : MultiServersDiscovery)
  : outcome (list string * error * MultiServersDiscovery) :=
  let! m1 := RLock (mu d) in
  let servers := servers d in
  let! m2 := Unlock m1 in Ret (servers, None, with_mu m2 d).

#[export] Instance Multi_Discovery : Discovery MultiServersDiscovery := {
  d_Refresh _ := Multi_Refresh;
  d_Update _ := Multi_Update;
  d_Get _ := Multi_Get;
  d_GetAll _ := Multi_GetAll;
}.

(** ** discovery_gee.go *)

Record GeeRegistryDiscovery := mkGee {
  multi : MultiServersDiscovery; registry : string; timeout : Z; lastUpdate : Z }.

Definition defaultUpdateTimeout : Z := 10 * 10 ^ 9.

(** The zero [time.Time], January 1 of year 1, in nanoseconds from 1970. *)
Definition zero_time : Z := - 62135596800 * 10 ^ 9.

Definition NewGeeRegistryDiscovery (registerAddr : string) (timeout : Z) : GeeRegistryDiscovery :=
  let timeout := if bool_decide (timeout = 0) then defaultUpdateTimeout else timeout in
  mkGee (NewMultiServerDiscovery []) registerAddr timeout zero_time.

Definition Gee_Update (e : Env) (servers : list string) (d : GeeRegistryDiscovery)
  : outcome (error * GeeRegistryDiscovery) :=
  let! m1 := Lock (mu (multi d)) in
  let multi := mkMulti (r (multi d)) m1 servers (index (multi d)) in
  let! m2 := Unlock (mu multi) in
  Ret (None, mkGee (with_mu m2 multi) (registry d) (timeout d) (now1 e)).

(** The servers named by the header. *)
Definition parse_servers (header : string) : list string :=
  TrimSpace <$> filter (λ s, TrimSpace s ≠ ""%string) (Split ","%char header).

(** Between [Lock] and [Unlock]. *)
Definition refresh_body (e : Env) (d : GeeRegistryDiscovery) : error * GeeRegistryDiscovery :=
  if bool_decide (now1 e < lastUpdate d + timeout d) then (None, d)
  else match fetch e (registry d) with
       | inr err => (Some err, d)
       | inl header =>
           let multi' := mkMulti (r (multi d)) (mu (multi d)) (parse_servers header) (index (multi d)) in
           (None, mkGee multi' (registry d) (timeout d) (now2 e))
       end.

Definition gee_mu (m : RWMutex) (d : GeeRegistryDiscovery) : GeeRegistryDiscovery :=
  mkGee (with_mu m (multi d)) (registry d) (timeout d) (lastUpdate d).

Definition Gee_Refresh (e : Env) (d : GeeRegistryDiscovery) : outcome (error * GeeRegistryDiscovery) :=
  let! m1 := Lock (mu (multi d)) in
  let '(err, d) := refresh_body e (gee_mu m1 d) in
  let! m2 := Unlock (mu (multi d)) in Ret (err, gee_mu m2 d).

Definition Gee_Get (e : Env) (mode : Z) (d : GeeRegistryDiscovery)
  : outcome (string * error * GeeRegistryDiscovery) :=
  let! (err, d) := Gee_Refresh e d in
  match err with
  | Some err => Ret (""%string, Some err, d)
  | None =>
      let! (s, err, m) := Multi_Get mode (multi d) in
      Ret (s, err, mkGee m (registry d) (timeout d) (lastUpdate d))
  end.

Definition Gee_GetAll (e : Env) (d : GeeRegistryDiscovery)
  : outcome (list string * error * GeeRegistryDiscovery) :=
  let! (err, d) := Gee_Refresh e d in
  match err with
  | Some err => Ret ([], Some err, d)
  | None =>
      let! (l, err, m) := Multi_GetAll (multi d) in
      Ret (l, err, mkGee m (registry d) (timeout d) (lastUpdate d))
  end.

#[export] Instance Gee_Discovery : Discovery GeeRegistryDiscovery := {
  d_Refresh := Gee_Refresh;
  d_Update := Gee_Update;
  d_Get := Gee_Get;
  d_GetAll := Gee_GetAll;
}.

(** ** Specification *)

(** [k] calls of [Get] in a row. *)
Fixpoint get_many (k : nat) (mode : Z) (d : MultiServersDiscovery)
  : outcome (list (string * error) * MultiServersDiscovery) :=
  match k with
  | O => Ret ([], d)
  | S k =>
      let! (s, err, d) := Multi_Get mode d in
      let! (l, d) := get_many k mode d in Ret ((s, err) :: l, d)
  end.

(** No call is in progress, and the index is one the code can have. *)
Definition Multi_idle (d : MultiServersDiscovery) : Prop :=
  mu d = unlocked ∧ 0 ≤ index d < 2 ^ 31 ∧ Z.of_nat (length (servers d)) < 2 ^ 31.

(** An address that survives the header: not empty, without commas and without
    spaces at its ends. *)
Definition clean (s : string) : bool :=
  bool_decide (s ≠ ""%string) && negb (contains ","%char s) && trimmed s.

(** The registry's answer to a GET, as [http.Get] hands it over. *)
Definition from_registry (iter : list string → list string) (now : string → Z)
  (reg : Registry.GeeRegistry) (_ : string) : string + string :=
  inl (Registry.X_Geerpc_Servers (Registry.ServeHTTP iter now (Registry.mkRequest "GET" "") reg).1).

(** ** Get *)

Definition rr_at (d : MultiServersDiscovery) (j : nat) : string :=
  default ""%string (servers d !! Z.to_nat ((index d + Z.of_nat j) `mod` Z.of_nat (length (servers d)))).

Lemma Multi_Get_select mode d s err d' : mu d = unlocked →
  select mode (with_mu (mkRWMutex true 0) d) = Ret (s, err, d') → mu d' = mkRWMutex true 0 →
  Multi_Get mode d = Ret (s, err, with_mu unlocked d').
Proof.
  intros Hmu Hs Hm. unfold Multi_Get.
  assert (Lock (mu d) = Ret (mkRWMutex true 0)) as -> by (by rewrite Hmu).
  cbn [obind]. rewrite Hs. cbn [obind]. by rewrite Hm.
Qed.

Lemma goindex_default (l : list string) i : 0 ≤ i < Z.of_nat (length l) →
  goindex l i = Ret (default ""%string (l !! Z.to_nat i)) ∧ default ""%string (l !! Z.to_nat i) ∈ l.
Proof.
  intros Hi. destruct (lookup_lt_is_Some_2 l (Z.to_nat i)) as [x Hx]; [lia|].
  rewrite Hx. cbn. split; [|by eapply list_elem_of_lookup_2].
  rewrite <- (goindex_lookup l (Z.to_nat i) x Hx). f_equal. lia.
Qed.

Lemma round_robin_one d : Multi_idle d → servers d ≠ [] →
  Multi_Get RoundRobinSelect d = Ret (rr_at d 0, None,
    mkMulti (r d) unlocked (servers d) ((index d + 1) `mod` Z.of_nat (length (servers d)))).
Proof.
  intros (Hmu & Hi & Hn) Hne. set (n := Z.of_nat (length (servers d))) in *.
  assert (0 < n) by (unfold n; destruct (servers d); [done|cbn; lia]).
  pose proof (Z.mod_pos_bound (index d) n ltac:(lia)).
  assert (Hsel : select RoundRobinSelect (with_mu (mkRWMutex true 0) d) = Ret (rr_at d 0, None,
    mkMulti (r d) (mkRWMutex true 0) (servers d) ((index d + 1) `mod` n))).
  { unfold select. cbn [with_mu servers index r mu]. fold n. rewrite bool_decide_eq_false_2 by lia.
    rewrite bool_decide_eq_false_2, bool_decide_eq_true_2 by done.
    rewrite Z.rem_mod_nonneg by lia.
    destruct (goindex_default (servers d) (index d `mod` n)) as [-> _]; [fold n; lia|]. cbn [obind].
    rewrite (wraps_small 64), Z.rem_mod_nonneg by lia. unfold rr_at. by rewrite Z.add_0_r. }
  by rewrite (Multi_Get_select _ _ _ _ _ Hmu Hsel eq_refl).
Qed.

Lemma round_robin_many k d : Multi_idle d → servers d ≠ [] → ∃ d',
  get_many k RoundRobinSelect d = Ret ((λ j, (rr_at d j, None)) <$> seq 0 k, d') ∧
  Multi_idle d' ∧ servers d' = servers d.
Proof.
  revert d. induction k as [|k IH]; intros d Hd Hne; [by exists d|]. cbn [get_many].
  rewrite round_robin_one by done. cbn [obind]. set (d1 := mkMulti _ _ _ _).
  destruct Hd as (Hmu & Hi & Hn).
  assert (0 < Z.of_nat (length (servers d))) by (destruct (servers d); [done|cbn; lia]).
  assert (Multi_idle d1) as Hd1.
  { split; [done|split; [|done]]. cbn.
    pose proof (Z.mod_pos_bound (index d + 1) (Z.of_nat (length (servers d))) ltac:(lia)). lia. }
  destruct (IH d1 Hd1 Hne) as (d' & -> & Hd' & Hs'). cbn [obind]. exists d'.
  split_and!; [|done|done]. do 2 f_equal. cbn [seq fmap list_fmap]. f_equal.
  rewrite <- (fmap_S_seq 0), <- list_fmap_compose. apply list_fmap_ext. intros j x _. cbn.
  unfold rr_at. cbn -[Z.of_nat Z.add].
  rewrite Zplus_mod_idemp_l. by replace (index d + 1 + Z.of_nat x) with (index d + Z.of_nat (S x)) by lia.
Qed.

Lemma Multi_Get_total (HIntn : ∀ k n, 0 < n → 0 ≤ Intn k n < n) mode d : Multi_idle d →
  ∃ s err d', Multi_Get mode d = Ret (s, err, d') ∧ Multi_idle d' ∧ (err = None → s ∈ servers d').
Proof.
  intros Hd. pose proof Hd as (Hmu & Hi & Hn).
  assert (∀ e, select mode (with_mu (mkRWMutex true 0) d) =
      Ret (""%string, Some e, with_mu (mkRWMutex true 0) d) →
    ∃ s err d', Multi_Get mode d = Ret (s, err, d') ∧ Multi_idle d' ∧ (err = None → s ∈ servers d'))
    as Hfail.
  { intros e Hs. rewrite (Multi_Get_select _ _ _ _ _ Hmu Hs eq_refl). do 3 eexists.
    split; [done|split; [by unfold Multi_idle|intros [=]]]. }
  destruct (decide (servers d = [])) as [He|Hne].
  { eapply Hfail. unfold select. cbn. by rewrite He. }
  assert (Z.of_nat (length (servers d)) ≠ 0) by (destruct (servers d); [done|cbn; lia]).
  destruct (decide (mode = RandomSelect)) as [->|Hm].
  { destruct (goindex_default (servers d) (Intn (r d) (Z.of_nat (length (servers d)))))
      as [Hg Hin]; [apply HIntn; lia|].
    erewrite (Multi_Get_select RandomSelect d); [|done|unfold select; cbn [with_mu servers index r mu];
      rewrite bool_decide_eq_false_2, bool_decide_eq_true_2, Hg by done; reflexivity|reflexivity].
    do 3 eexists. split; [done|split; [by unfold Multi_idle|by intros _]]. }
  destruct (decide (mode = RoundRobinSelect)) as [->|Hm'].
  { rewrite round_robin_one by done. do 3 eexists. split; [done|].
    pose proof (Z.mod_pos_bound (index d + 1) (Z.of_nat (length (servers d))) ltac:(lia)).
    split; [unfold Multi_idle; cbn; split_and!; [done|lia|lia|done]|]. intros _. cbn. unfold rr_at. rewrite Z.add_0_r.
    apply goindex_default. apply Z.mod_pos_bound. lia. }
  eapply Hfail. unfold select. cbn [with_mu servers index r mu].
  by rewrite !bool_decide_eq_false_2.
Qed.

(** Get keeps the list, and fails only for want of servers or of a mode. *)
Lemma select_spec mode d s err d' : select mode d = Ret (s, err, d') →
  servers d' = servers d ∧
  (is_Some err → servers d = [] ∨ mode ≠ RandomSelect ∧ mode ≠ RoundRobinSelect).
Proof.
  unfold select. intros H. case_bool_decide as Hn.
  { simplify_eq. split; [done|]. intros _. left. destruct (servers d'); [done|cbn in Hn; lia]. }
  case_bool_decide as Hr; [|case_bool_decide as Hrr].
  - destruct (goindex _ _); [|done|done]. cbn in H. simplify_eq. split; [done|]. by intros [? [=]].
  - destruct (goindex _ _); [|done|done]. cbn in H. simplify_eq. split; [done|]. by intros [? [=]].
  - simplify_eq. split; [done|]. intros _. by right.
Qed.

Lemma Multi_Get_spec mode d s err d' : Multi_Get mode d = Ret (s, err, d') →
  servers d' = servers d ∧
  (is_Some err → servers d = [] ∨ mode ≠ RandomSelect ∧ mode ≠ RoundRobinSelect).
Proof.
  unfold Multi_Get. intros H. destruct (Lock (mu d)) as [m1| |]; [|done|done]. cbn [obind] in H.
  destruct (select mode (with_mu m1 d)) as [[[s1 e1] d1]| |] eqn:Hs; [|done|done]. cbn [obind] in H.
  destruct (Unlock (mu d1)); [|done|done]. cbn in H. simplify_eq. by apply select_spec in Hs.
Qed.

(** ** Refresh *)

Lemma Gee_Refresh_body e d : mu (multi d) = unlocked →
  Gee_Refresh e d = let '(err, d') := refresh_body e (gee_mu (mkRWMutex true 0) d) in
                    Ret (err, gee_mu unlocked d').
Proof.
  intros Hmu. unfold Gee_Refresh.
  assert (Lock (mu (multi d)) = Ret (mkRWMutex true 0)) as -> by (by rewrite Hmu). cbn [obind].
  unfold refresh_body. cbn [gee_mu with_mu multi registry timeout lastUpdate mu].
  repeat case_match; simplify_eq; done.
Qed.

Lemma length_Split sep s : (length (Split sep s) ≤ S (String.length s))%nat.
Proof.
  induction s as [|a s IH]; cbn; [lia|]. destruct (Ascii.eqb a sep); cbn; [lia|].
  destruct (Split sep s); cbn in *; lia.
Qed.

Lemma length_parse_servers h : (length (parse_servers h) ≤ S (String.length h))%nat.
Proof.
  unfold parse_servers. rewrite length_fmap.
  pose proof (length_filter (λ s, TrimSpace s ≠ ""%string) (Split ","%char h)).
  pose proof (length_Split ","%char h). lia.
Qed.

Definition Gee_idle (d : GeeRegistryDiscovery) : Prop := Multi_idle (multi d).

Lemma Gee_Refresh_total e d : env_ok e → Gee_idle d →
  ∃ err d', Gee_Refresh e d = Ret (err, d') ∧ Gee_idle d'.
Proof.
  intros He (Hmu & Hi & Hn). rewrite Gee_Refresh_body by done. unfold refresh_body.
  cbn [gee_mu with_mu multi registry timeout lastUpdate mu r servers index].
  case_bool_decide; [|destruct (fetch e (registry d)) as [h|err] eqn:Hf]; do 2 eexists; split; try done;
    unfold Gee_idle, Multi_idle; cbn; split_and!; try done; try lia.
  specialize (He _ _ Hf). pose proof (length_parse_servers h). lia.
Qed.

#[export] Instance Multi_laws (HIntn : ∀ k n, 0 < n → 0 ≤ Intn k n < n) :
  DiscoveryLaws MultiServersDiscovery := {
  idle := Multi_idle;
  known := servers;
  Get_known e m d _ := Multi_Get_total HIntn m d;
}.

#[export, refine] Instance Gee_laws (HIntn : ∀ k n, 0 < n → 0 ≤ Intn k n < n) :
  DiscoveryLaws GeeRegistryDiscovery := {
  idle := Gee_idle;
  known d := servers (multi d);
}.
Proof.
  intros e m d He Hd. cbn. unfold Gee_Get.
  destruct (Gee_Refresh_total e d He Hd) as (err & d1 & -> & Hd1). cbn [obind].
  destruct err as [err|]; [by do 3 eexists|].
  destruct (Multi_Get_total HIntn m (multi d1) Hd1) as (s & err & m' & -> & Hm' & Hs). cbn [obind].
  do 3 eexists. split; [done|]. by split.
Defined.

Lemma clean_parse l : Forall (λ s, clean s = true) l → parse_servers (Join l ",") = l.
Proof.
  intros Hl. destruct l as [|s l]; [done|]. unfold parse_servers. rewrite Split_Join.
  - assert (∀ x, x ∈ s :: l → x ≠ ""%string ∧ TrimSpace x = x) as Hx.
    { rewrite Forall_forall in Hl. intros x Hx. specialize (Hl x Hx). unfold clean in Hl.
      apply andb_true_iff in Hl as [[Hne _]%andb_true_iff Ht]. apply bool_decide_eq_true in Hne.
      split; [done|by apply TrimSpace_trimmed]. }
    rewrite filter_all by (intros x Hin; destruct (Hx x Hin) as [Hne ->]; done).
    rewrite <- (list_fmap_id (s :: l)) at 2. apply Forall_fmap_ext. apply Forall_forall.
    intros x Hin. by apply Hx.
  - done.
  - eapply Forall_impl; [done|]. intros x Hx. unfold clean in Hx.
    apply andb_true_iff in Hx as [[_ Hc]%andb_true_iff _]. by apply negb_true_iff in Hc.
Qed.

(** ** Properties *)

(** The list rotated by the index. *)
Lemma rr_rotation d : servers d ≠ [] → rr_at d <$> seq 0 (length (servers d)) ≡ₚ servers d.
Proof.
  intros Hne. set (n := Z.of_nat (length (servers d))).
  assert (0 < n) by (unfold n; destruct (servers d); [done|cbn; lia]).
  pose proof (Z.mod_pos_bound (index d) n ltac:(lia)) as Hb.
  set (k := Z.to_nat (index d `mod` n)).
  assert (rr_at d <$> seq 0 (length (servers d)) = drop k (servers d) ++ take k (servers d)) as ->.
  { apply list_eq_same_length with (length (servers d)).
    - rewrite length_app, length_drop, length_take. unfold k, n in *. lia.
    - by rewrite length_fmap, length_seq.
    - intros j x y Hj Hx Hy. rewrite list_lookup_fmap, lookup_seq_lt in Hx by done.
      cbn in Hx. simplify_eq. unfold rr_at. fold n.
      assert ((index d + Z.of_nat j) `mod` n = (Z.of_nat k + Z.of_nat j) `mod` n) as E.
      { unfold k. rewrite Z2Nat.id by lia. by rewrite Zplus_mod_idemp_l. }
      rewrite E. destruct (decide (k + j < length (servers d))%nat) as [Hlt|Hge].
      + rewrite Z.mod_small by (unfold n; lia). rewrite lookup_app_l in Hy
          by (rewrite length_drop; lia). rewrite lookup_drop in Hy.
        replace (Z.to_nat (Z.of_nat k + Z.of_nat j)) with (k + j)%nat by lia. by rewrite Hy.
      + rewrite lookup_app_r in Hy by (rewrite length_drop; lia). rewrite length_drop in Hy.
        rewrite lookup_take_lt in Hy by lia.
        replace ((Z.of_nat k + Z.of_nat j) `mod` n) with (Z.of_nat (j - (length (servers d) - k)))
          by (apply (Z.mod_unique _ _ 1); unfold n in *; lia).
        rewrite Nat2Z.id. by rewrite Hy. }
  rewrite Permutation_app_comm. by rewrite take_drop.
Qed.

(** C27: round robin is fair: [n] calls of Get in a row on [n] servers return every
    server once, without an error, and leave the discovery ready for the next
    calls, on the same servers. *)
Theorem round_robin_fair d : Multi_idle d → servers d ≠ [] → ∃ l d',
  get_many (length (servers d)) RoundRobinSelect d = Ret (l, d') ∧
  l ≡ₚ (λ s, (s, None)) <$> servers d ∧ Multi_idle d' ∧ servers d' = servers d.
Proof.
  intros Hd Hne. destruct (round_robin_many (length (servers d)) d Hd Hne) as (d' & -> & Hd' & Hs).
  do 2 eexists. split; [done|]. split; [|done].
  rewrite <- (rr_rotation d Hne) at 2. by rewrite <- list_fmap_compose.
Qed.

(** A list published by the registry reaches the client unchanged: when the
    discovery's list is out of date, a refresh stores exactly the servers that
    the registry lists at that moment (none of them when there are none),
    provided their addresses have no comma and no space at an end; when the
    list is recent the registry is not asked and the list stays. *)
Theorem Refresh_from_registry iter now reg n1 n2 d :
  Gee_idle d → let e := mkEnv n1 n2 (from_registry iter now reg) in
  Forall (λ a, clean a = true) (Registry.aliveServers iter now reg).1 →
  Gee_Refresh e d = Ret (None,
    if bool_decide (n1 < lastUpdate d + timeout d) then d
    else mkGee (mkMulti (r (multi d)) unlocked (Registry.aliveServers iter now reg).1 (index (multi d)))
           (registry d) (timeout d) n2).
Proof.
  intros (Hmu & _) e Hclean. rewrite Gee_Refresh_body by done. unfold refresh_body.
  cbn [gee_mu with_mu multi registry timeout lastUpdate mu r servers index e now1 now2].
  case_bool_decide.
  - unfold gee_mu, with_mu. cbn. rewrite <- Hmu. by destruct d as [[] ? ? ?].
  - unfold e, from_registry, Registry.ServeHTTP. cbn [fetch Registry.Method].
    rewrite (bool_decide_eq_true_2 ("GET" = "GET")%string) by done.
    destruct (Registry.aliveServers iter now reg) as [l reg']. cbn [fst Registry.X_Geerpc_Servers] in Hclean |- *.
    by rewrite clean_parse.
Qed.

(** GetAll releases for writing a lock it took for reading, so it never
    returns: a call on an idle discovery ends the process with a fatal
    error. *)
Theorem GetAll_fatal d : mu d = unlocked →
  Multi_GetAll d = Panic "fatal error: sync: Unlock of unlocked RWMutex".
Proof. intros Hmu. unfold Multi_GetAll. by rewrite Hmu. Qed.
End Discovery.

Lemma round_robin_fair_witness : ∃ l d',
  get_many (λ _ _, 0) 3 RoundRobinSelect (mkMulti 1 unlocked ["a"; "b"; "c"]%string 7) = Ret (l, d') ∧
  l ≡ₚ [("a"%string, None); ("b"%string, None); ("c"%string, None)] ∧ Multi_idle d' ∧
  servers d' = ["a"; "b"; "c"]%string.
Proof.
  apply (round_robin_fair (λ _ _, 0) (mkMulti 1 unlocked ["a"; "b"; "c"]%string 7)).
  - unfold Multi_idle. cbn. split_and!; [reflexivity|lia|lia|lia].
  - discriminate.
Defined.

Definition demo_registry : Registry.GeeRegistry :=
  Registry.putServer 5 "tcp@b" (Registry.putServer 4 "tcp@a" (Registry.New 100)).

Lemma Refresh_from_registry_witness :
  Gee_Refresh (mkEnv 50 51 (from_registry id (λ _, 50) demo_registry))
    (NewGeeRegistryDiscovery (λ _ _, 9) "http://r" 10) =
  Ret (None, mkGee (mkMulti 1 unlocked ["tcp@a"; "tcp@b"]%string 9) "http://r" 10 51).
Proof.
  refine (Refresh_from_registry id (λ _, 50) demo_registry 50 51
    (NewGeeRegistryDiscovery (λ _ _, 9) "http://r" 10) _ _).
  - unfold Gee_idle, Multi_idle. cbn. split_and!; [reflexivity|lia|lia|lia].
  - assert ((Registry.aliveServers id (λ _, 50) demo_registry).1 = ["tcp@a"; "tcp@b"]%string) as E
      by (vm_compute; reflexivity).
    rewrite E. repeat constructor.
Defined.

Lemma GetAll_fatal_witness :
  Multi_GetAll (mkMulti 1 unlocked ["a"%string] 0) =
  Panic "fatal error: sync: Unlock of unlocked RWMutex".
Proof. apply (GetAll_fatal (mkMulti 1 unlocked ["a"%string] 0)). reflexivity. Defined.
