(* ===== verification/Client.v ===== *)
(** * geerpc: the client

    Models [src/geerpc/client.go] as a transition system on the goroutines
    that use one [Client]: the callers, inside [Go] or [Call], and the
    receiver, inside [receive].  Each step is one critical section of
    [client.mu], one operation on [client.sending], on a [Done] channel or on
    the codec; what the codec returns is chosen by the step.  A call is known by
    the caller that made it. *)

From S2P Require Import Prelude.

(** ** codec.Header and Call *)

Record Header := mkHeader { ServiceMethod : string; Seq : Z; Error : string }.

Definition ErrShutdown : string := "connection is shut down".

(** [KCall] is a call through [Call], with a channel of its own; [KGo] one
    through [Go], with a channel the user may share. *)
Inductive kind := KGo | KCall.

#[export] Instance kind_eq_dec : EqDecision kind.
Proof. solve_decision. Defined.

(** Where a caller is in [send], then in [Go] or [Call]. *)
Inductive cpc :=
  | CStart                  (* client.sending.Lock() *)
  | CLocked                 (* client.registerCall(call) *)
  | CWrite                  (* client.cc.Write(&client.header, call.Args) *)
  | CRemove (e : string)    (* Write failed: client.removeCall(seq) *)
  | CDone (c : nat)         (* call.done() *)
  | CUnlock                 (* client.sending.Unlock() *)
  | CGone                   (* Go has returned *)
  | CWait                   (* <-client.Go(...).Done *)
  | CSelect (c : nat)       (* the select of Call *)
  | CRet (err : error).     (* Call has returned *)

(** A call with its caller: [dch] is the channel [Done]. *)
Record Call := mkCall {
  c_kind : kind; dch : nat; c_method : string; c_pc : cpc;
  cSeq : Z; cErr : error; cReply : option string }.

Record chan := mkChan { cap : nat; items : list nat }.

(** ** Client *)

Record Client := mkClient {
  header : Header; seq : Z; pending : gmap Z nat; closing : bool; shutdown : bool }.

Definition newClientCodec : Client := mkClient (mkHeader "" 0 "") 1 ∅ false false.

(** The flag; [cc.Close] is the codec's. *)
Definition Close (cl : Client) : error * Client :=
  if closing cl then (Some ErrShutdown, cl)
  else (None, mkClient (header cl) (seq cl) (pending cl) true (shutdown cl)).

Definition IsAvailable (cl : Client) : bool := negb (closing cl) && negb (shutdown cl).

Definition registerCall (call : nat) (cl : Client) : (Z + string) * Client :=
  if closing cl || shutdown cl then (inr ErrShutdown, cl)
  else (inl (seq cl),
        mkClient (header cl) (u64 (seq cl + 1)) (<[seq cl := call]> (pending cl))
          (closing cl) (shutdown cl)).

Definition removeCall (s : Z) (cl : Client) : option nat * Client :=
  (pending cl !! s,
   mkClient (header cl) (seq cl) (delete s (pending cl)) (closing cl) (shutdown cl)).

Definition set_header (h : Header) (cl : Client) : Client :=
  mkClient h (seq cl) (pending cl) (closing cl) (shutdown cl).

Definition set_shutdown (cl : Client) : Client :=
  mkClient (header cl) (seq cl) (pending cl) (closing cl) true.

(** ** The system *)

(** Where the receiver is; [e] is the error that ends its loop. *)
Inductive rpc :=
  | RHeader                            (* client.cc.ReadHeader(&h) *)
  | RGot (h : Header)                  (* client.removeCall(h.Seq) *)
  | RBody (h : Header) (c : option nat) (* client.cc.ReadBody(...) *)
  | RDone (c : nat) (e : error)        (* call.done() *)
  | RTerm (e : string)                 (* terminateCalls: the two locks *)
  | RNotify (e : string) (todo : list nat) (* its loop over pending *)
  | REnd.

Inductive holder := HCaller (t : nat) | HReceiver.

(** [mu_held] is true while terminateCalls holds [client.mu] across steps.
    Ghost state: the calls on which [done] was called, in order, the responses
    received, each with its body, and the headers written. *)
Record sys := mkSys {
  cl : Client; sending : option holder; mu_held : bool;
  calls : list Call; chans : list chan; recv : rpc;
  done_log : list nat; heard : list (Header * string); wire : list Header }.

Inductive action :=
  | ALock (t : nat) | ARegister (t : nat) | AWrite (t : nat) (r : error)
  | ARemove (t : nat) | ADone (t : nat) | AUnlock (t : nat)
  | AFirst (t : nat) | ACtxDone (t : nat) (e : string) | ASecond (t : nat)
  | AHeader (r : Header + string) | ALookup | ABody (r : string + string) | ARecvDone
  | ATermLock | ANotify (i : nat) | ATermEnd
  | AClose | AUser (ch : nat).

Definition set_pc (p : cpc) (c : Call) : Call :=
  mkCall (c_kind c) (dch c) (c_method c) p (cSeq c) (cErr c) (cReply c).
Definition set_err (e : error) (c : Call) : Call :=
  mkCall (c_kind c) (dch c) (c_method c) (c_pc c) (cSeq c) e (cReply c).
Definition set_seq (s : Z) (c : Call) : Call :=
  mkCall (c_kind c) (dch c) (c_method c) (c_pc c) s (cErr c) (cReply c).
Definition set_reply (r : string) (c : Call) : Call :=
  mkCall (c_kind c) (dch c) (c_method c) (c_pc c) (cSeq c) (cErr c) (Some r).

(** [call.done()]: a send on the channel of the call, which must have room. *)
Definition done_on (c : nat) (cs : list Call) (chs : list chan) : option (list chan) :=
  call ← cs !! c; ch ← chs !! dch call;
  if bool_decide (length (items ch) < cap ch)%nat
  then Some (<[dch call := mkChan (cap ch) (items ch ++ [c])]> chs) else None.

(** A receive from a channel. *)
Definition recv_from (ch : nat) (chs : list chan) : option (nat * list chan) :=
  x ← chs !! ch;
  match items x with
  | c :: l => Some (c, <[ch := mkChan (cap x) l]> chs)
  | [] => None
  end.

Section Client.
(** [fmt.Errorf] of a format without arguments. *)
Context (Errorf : string → string).

(** The steps of a caller. *)
Definition caller_step (a : action) (s : sys) : option sys :=
  let '(mkSys k snd held cs chs rv lg hd wr) := s in
  match a with
  | ALock t =>
      c ← cs !! t;
      match c_pc c, snd with
      | CStart, None =>
          Some (mkSys k (Some (HCaller t)) held (<[t := set_pc CLocked c]> cs) chs rv lg hd wr)
      | _, _ => None
      end
  | ARegister t =>
      c ← cs !! t;
      match c_pc c, held with
      | CLocked, false =>
          match registerCall t k with
          | (inr e, k) => Some (mkSys k snd held (<[t := set_pc (CDone t) (set_err (Some e) c)]> cs)
                                  chs rv lg hd wr)
          | (inl n, k) => Some (mkSys k snd held (<[t := set_pc CWrite (set_seq n c)]> cs)
                                  chs rv lg hd wr)
          end
      | _, _ => None
      end
  | AWrite t r =>
      c ← cs !! t;
      match c_pc c with
      | CWrite =>
          let h := mkHeader (c_method c) (cSeq c) "" in
          let p := match r with None => CUnlock | Some e => CRemove e end in
          Some (mkSys (set_header h k) snd held (<[t := set_pc p c]> cs) chs rv lg hd (wr ++ [h]))
      | _ => None
      end
  | ARemove t =>
      c ← cs !! t;
      match c_pc c, held with
      | CRemove e, false =>
          match removeCall (cSeq c) k with
          | (None, k) => Some (mkSys k snd held (<[t := set_pc CUnlock c]> cs) chs rv lg hd wr)
          | (Some c', k) =>
              let cs := <[t := set_pc (CDone c') c]> cs in
              call ← cs !! c';
              Some (mkSys k snd held (<[c' := set_err (Some e) call]> cs) chs rv lg hd wr)
          end
      | _, _ => None
      end
  | ADone t =>
      c ← cs !! t;
      match c_pc c with
      | CDone c' =>
          chs ← done_on c' cs chs;
          Some (mkSys k snd held (<[t := set_pc CUnlock c]> cs) chs rv (lg ++ [c']) hd wr)
      | _ => None
      end
  | AUnlock t =>
      c ← cs !! t;
      match c_pc c with
      | CUnlock =>
          let p := match c_kind c with KGo => CGone | KCall => CWait end in
          Some (mkSys k None held (<[t := set_pc p c]> cs) chs rv lg hd wr)
      | _ => None
      end
  | AFirst t =>
      c ← cs !! t;
      match c_pc c with
      | CWait =>
          '(c', chs) ← recv_from (dch c) chs;
          Some (mkSys k snd held (<[t := set_pc (CSelect c') c]> cs) chs rv lg hd wr)
      | _ => None
      end
  | ACtxDone t e =>
      c ← cs !! t;
      match c_pc c, held with
      | CSelect c', false =>
          call ← cs !! c';
          let '(_, k) := removeCall (cSeq call) k in
          Some (mkSys k snd held (<[t := set_pc (CRet (Some ("rpc client:call failed: " +:+ e))) c]> cs)
                  chs rv lg hd wr)
      | _, _ => None
      end
  | ASecond t =>
      c ← cs !! t;
      match c_pc c with
      | CSelect c' =>
          call ← cs !! c';
          '(c2, chs) ← recv_from (dch call) chs;
          call2 ← cs !! c2;
          Some (mkSys k snd held (<[t := set_pc (CRet (cErr call2)) c]> cs) chs rv lg hd wr)
      | _ => None
      end
  | _ => None
  end.

Definition after_body (e : error) : rpc := match e with None => RHeader | Some e => RTerm e end.

(** The steps of the receiver, of [Close] and of the user of a channel. *)
Definition recv_step (a : action) (s : sys) : option sys :=
  let '(mkSys k snd held cs chs rv lg hd wr) := s in
  match a, rv with
  | AHeader (inl h), RHeader => Some (mkSys k snd held cs chs (RGot h) lg hd wr)
  | AHeader (inr e), RHeader => Some (mkSys k snd held cs chs (RTerm e) lg hd wr)
  | ALookup, RGot h =>
      if held then None
      else let '(c, k) := removeCall (Seq h) k in
           Some (mkSys k snd held cs chs (RBody h c) lg hd wr)
  | ABody r, RBody h c =>
      let e := match r with inl _ => None | inr e => Some e end in
      let hd := match r with inl body => hd ++ [(h, body)] | inr _ => hd end in
      match c with
      | None => Some (mkSys k snd held cs chs (after_body e) lg hd wr)
      | Some c =>
          call ← cs !! c;
          let call :=
            if bool_decide (Error h ≠ ""%string) then set_err (Some (Errorf (Error h))) call
            else match r with
                 | inl body => set_reply body call
                 | inr e => set_err (Some ("reading body" +:+ e)) call
                 end in
          Some (mkSys k snd held (<[c := call]> cs) chs (RDone c e) lg hd wr)
      end
  | ARecvDone, RDone c e =>
      chs ← done_on c cs chs;
      Some (mkSys k snd held cs chs (after_body e) (lg ++ [c]) hd wr)
  | ATermLock, RTerm e =>
      if held then None
      else match snd with
           | Some _ => None
           | None => Some (mkSys (set_shutdown k) (Some HReceiver) true cs chs
                             (RNotify e (map_to_list (pending k)).*2) lg hd wr)
           end
  | ANotify i, RNotify e todo =>
      c ← todo !! i;
      call ← cs !! c;
      let cs := <[c := set_err (Some e) call]> cs in
      chs ← done_on c cs chs;
      Some (mkSys k snd held cs chs (RNotify e (delete i todo)) (lg ++ [c]) hd wr)
  | ATermEnd, RNotify e [] => Some (mkSys k None false cs chs REnd lg hd wr)
  | AClose, _ =>
      if held then None
      else let '(_, k) := Close k in Some (mkSys k snd held cs chs rv lg hd wr)
  | AUser ch, _ =>
      if bool_decide (Forall (λ c, c_kind c = KGo ∨ dch c ≠ ch) cs) then
        '(_, chs) ← recv_from ch chs; Some (mkSys k snd held cs chs rv lg hd wr)
      else None
  | _, _ => None
  end.

Definition step (a : action) (s : sys) : option sys :=
  match caller_step a s with Some s' => Some s' | None => recv_step a s end.

Fixpoint run (tr : list action) (s : sys) : option sys :=
  match tr with
  | [] => Some s
  | a :: tr => s' ← step a s; run tr s'
  end.
End Client.

(** A new client and its receiver, with callers about to make a call each, on
    channels with the given capacities. *)
Definition started (cs : list (kind * nat * string)) (caps : list nat) : sys :=
  mkSys newClientCodec None false
    ((λ '(k, ch, m), mkCall k ch m CStart 0 None None) <$> cs) ((λ n, mkChan n []) <$> caps)
    RHeader [] [] [].

(** ** Specification *)

(** Where a call is until it is done: with its caller before [registerCall], in
    [pending], or in the hands of whoever is about to call [done]. *)
Definition caller_places (t : nat) (c : Call) : list nat :=
  match c_pc c with CStart | CLocked => [t] | CDone c' => [c'] | _ => [] end.

Definition recv_places (p : rpc) : list nat :=
  match p with RBody _ (Some c) | RDone c _ => [c] | RNotify _ todo => todo | _ => [] end.

Definition terminated (p : rpc) : bool :=
  match p with RNotify _ _ | REnd => true | _ => false end.

Definition pend_places (s : sys) : list nat :=
  if terminated (recv s) then [] else (map_to_list (pending (cl s))).*2.

Definition places (s : sys) : list nat :=
  concat (imap caller_places (calls s)) ++ recv_places (recv s) ++ pend_places s ++ done_log s.

(** The caller holds [client.sending]. *)
Definition holds (p : cpc) : bool :=
  match p with CLocked | CWrite | CRemove _ | CDone _ | CUnlock => true | _ => false end.

Definition writing (p : cpc) : bool := match p with CWrite | CRemove _ => true | _ => false end.
Definition unregistered (p : cpc) : bool := match p with CStart | CLocked => true | _ => false end.

(** The first receive of [Call] has happened. *)
Definition popped (p : cpc) : bool := match p with CSelect _ | CRet _ => true | _ => false end.

Definition notifying (p : rpc) : bool := match p with RNotify _ _ => true | _ => false end.

Record locks_inv (s : sys) : Prop := {
  li_caller : ∀ t c, calls s !! t = Some c → holds (c_pc c) = true → sending s = Some (HCaller t);
  li_recv : notifying (recv s) = true → sending s = Some HReceiver;
  li_mu : mu_held s = notifying (recv s);
  li_shut : shutdown (cl s) = terminated (recv s);
  li_writing : terminated (recv s) = true → ∀ t c, calls s !! t = Some c → writing (c_pc c) = false;
}.

(** [n] calls; the next number is above all that are in use and has not wrapped
    around. *)
Definition to_register (c : Call) : nat := if unregistered (c_pc c) then 1 else 0.

Record seq_inv (s : sys) : Prop := {
  si_seq : 1 ≤ seq (cl s) ∧
    seq (cl s) + Z.of_nat (sum_list_with to_register (calls s)) ≤ 1 + Z.of_nat (length (calls s));
  si_range : ∀ t c, calls s !! t = Some c → 0 ≤ cSeq c < seq (cl s);
  si_zero : ∀ t c, calls s !! t = Some c → unregistered (c_pc c) = true → cSeq c = 0;
  si_writing : ∀ t c, calls s !! t = Some c → writing (c_pc c) = true → cSeq c ≠ 0;
  si_uniq : ∀ t t' c c', calls s !! t = Some c → calls s !! t' = Some c' → cSeq c = cSeq c' →
    cSeq c ≠ 0 → t = t';
  si_pending : ∀ n t, pending (cl s) !! n = Some t →
    n ≠ 0 ∧ ∃ c, calls s !! t = Some c ∧ cSeq c = n;
}.

(** What comes out of a channel was done. *)
Record chan_inv (s : sys) : Prop := {
  ci_items : ∀ ch x c, chans s !! ch = Some x → c ∈ items x → c ∈ done_log s;
  ci_select : ∀ t c c', calls s !! t = Some c → c_pc c = CSelect c' → c' ∈ done_log s;
}.

(** Every call is in exactly one place, or done, exactly once. *)
Definition placed (s : sys) : Prop := places s ≡ₚ List.seq 0 (length (calls s)).

Record inv (s : sys) : Prop := {
  inv_size : Z.of_nat (length (calls s)) < 2 ^ 64 - 1;
  inv_locks : locks_inv s;
  inv_seq : seq_inv s;
  inv_chan : chan_inv s;
  inv_placed : placed s;
}.

(** A call without an error has the body of a response with its number. *)
Definition answered (hd : list (Header * string)) (c : Call) : Prop :=
  cErr c = None → ∃ h body, (h, body) ∈ hd ∧ cReply c = Some body ∧ Seq h = cSeq c ∧ Seq h ≠ 0 ∧
    Error h = ""%string.

Record reply_inv (s : sys) : Prop := {
  ri_body : ∀ h x c, recv s = RBody h (Some x) → calls s !! x = Some c → cSeq c = Seq h ∧ Seq h ≠ 0;
  ri_rdone : ∀ t e c, recv s = RDone t e → calls s !! t = Some c → answered (heard s) c;
  ri_cdone : ∀ t c c' call, calls s !! t = Some c → c_pc c = CDone c' →
    calls s !! c' = Some call → cErr call ≠ None;
  ri_log : ∀ t c, t ∈ done_log s → calls s !! t = Some c → answered (heard s) c;
}.

Definition ctx_error (err : error) : Prop :=
  ∃ e, err = Some ("rpc client:call failed: " +:+ e).

(** A call through [Call] has its channel for itself; the channel holds the
    call from [done] to the first receive. *)
Record call_inv (s : sys) : Prop := {
  kc_priv : ∀ t t' c c', calls s !! t = Some c → calls s !! t' = Some c' →
    c_kind c = KCall → dch c' = dch c → t' = t;
  kc_items : ∀ t c, calls s !! t = Some c → c_kind c = KCall → ∃ n,
    chans s !! dch c =
      Some (mkChan n (if decide (t ∈ done_log s ∧ popped (c_pc c) = false) then [t] else []));
  kc_popped : ∀ t c, calls s !! t = Some c → popped (c_pc c) = true →
    c_kind c = KCall ∧ t ∈ done_log s;
  kc_wait : ∀ t c, calls s !! t = Some c → c_pc c = CWait → c_kind c = KCall;
  kc_select : ∀ t c c', calls s !! t = Some c → c_pc c = CSelect c' → c' = t;
  kc_ret : ∀ t c err, calls s !! t = Some c → c_pc c = CRet err → ctx_error err;
}.

(** Every [Call] has a channel of its own. *)
Definition private (cs : list (kind * nat * string)) (caps : list nat) : Prop :=
  (∀ t x, cs !! t = Some x → (x.1.2 < length caps)%nat) ∧
  ∀ t t' x x', cs !! t = Some x → cs !! t' = Some x' → x.1.1 = KCall → x'.1.2 = x.1.2 → t' = t.

(** The write of a call is behind it. *)
Definition past_write (p : cpc) : bool :=
  match p with CStart | CLocked | CWrite => false | _ => true end.

(** What a step keeps of a call. *)
Definition kept (c c' : Call) : Prop :=
  c_kind c' = c_kind c ∧ c_method c' = c_method c ∧ (cSeq c ≠ 0 → cSeq c' = cSeq c) ∧
  (past_write (c_pc c) = true → past_write (c_pc c') = true).

Definition keeps (cs cs' : list Call) : Prop :=
  ∀ t c, cs !! t = Some c → ∃ c', cs' !! t = Some c' ∧ kept c c'.

(** ** Case analysis of a step *)

(** The cases of a step, with the equations of its guards. *)
Ltac step_cases H :=
  repeat (match type of H with
          | context [match (if ?b then _ else _) with _ => _ end] =>
              destruct b eqn:?; cbn in H; try discriminate H
          | context [mbind _ ?o] => destruct o eqn:?; cbn in H; [|try discriminate H]
          | context [match ?x with _ => _ end] => destruct x eqn:?; cbn in H; try discriminate H
          end); simplify_eq.

Ltac lookups :=
  repeat match goal with
  | Hi : ?l !! ?i = Some _, H : <[?i := _]> ?l !! ?i = Some _ |- _ =>
      rewrite (lookup_set _ _ _ _ _ Hi), decide_True in H by reflexivity; injection H as <-
  | Hi : ?l !! ?i = Some _, H : <[?i := _]> ?l !! _ = Some _ |- _ =>
      apply (lookup_set_inv _ _ _ _ _ _ Hi) in H as [[-> ->]|[? H]]
  end.

(** Facts about the caller that takes the step, from its program counter. *)
Ltac at_pc := match goal with E : c_pc ?c = _ |- context [c_pc ?c] => rewrite E end.

Section steps.
Context (Errorf : string → string).

Lemma step_split a s s' : step Errorf a s = Some s' →
  caller_step a s = Some s' ∨ recv_step Errorf a s = Some s'.
Proof. unfold step. destruct (caller_step a s); [|auto]. intros [= ->]. auto. Qed.

Lemma caller_locks a s s' : locks_inv s → caller_step a s = Some s' → locks_inv s'.
Proof.
  intros [Hc Hr Hm Hsh Hw] H. destruct s as [k snd held cs chs rv lg hd wr]. cbn in *.
  destruct a; cbn in H; try done; unfold registerCall, removeCall in H; step_cases H.
  all: split; cbn; try done.
  all: try (intros t' c'' Hl Hh; lookups; cbn in *; try done; eauto;
            try (eapply Hc; [eassumption|by at_pc]); fail).
  all: try (intros t' c'' Hl Hh; lookups; cbn in *; try done; exfalso;
            try (by specialize (Hc _ _ Hl Hh));
            pose proof (Hc _ _ Heqo ltac:(by at_pc)); pose proof (Hc _ _ Hl Hh); congruence).
  all: try (intros Hx; specialize (Hr Hx); try done;
            pose proof (Hc _ _ Heqo ltac:(by at_pc)); congruence).
  all: intros Ht; exfalso.
  - apply orb_false_iff in Heqb as [_ Hs]. congruence.
  - pose proof (Hw Ht _ _ Heqo) as Hx. by rewrite Heqc0 in Hx.
Qed.

Lemma recv_locks a s s' : locks_inv s → recv_step Errorf a s = Some s' → locks_inv s'.
Proof.
  intros [Hc Hr Hm Hsh Hw] H. destruct s as [k snd held cs chs rv lg hd wr]. cbn in *.
  destruct a; cbn in H; try done; unfold removeCall, Close, after_body in H; step_cases H.
  all: split; cbn; try done.
  all: try (intros t' c'' Hl Hh; lookups; cbn in *; try done; eauto; fail).
  all: try (by apply Hr).
  - intros t c Hl Hh. by specialize (Hc _ _ Hl Hh).
  - intros _ t c Hl. destruct (writing (c_pc c)) eqn:Hh; [|done].
    assert (holds (c_pc c) = true) as Hx by (by destruct (c_pc c)). by specialize (Hc _ _ Hl Hx).
  - intros t c Hl Hh. rewrite (Hr eq_refl) in Hc. by specialize (Hc _ _ Hl Hh).
Qed.

(** ** Numbers *)

(** An update of one call that keeps its number and does not move it back
    before [registerCall]. *)
Lemma seq_inv_set s s' t c c' : seq_inv s → calls s !! t = Some c →
  calls s' = <[t := c']> (calls s) → seq (cl s') = seq (cl s) →
  (∀ n t, pending (cl s') !! n = Some t → pending (cl s) !! n = Some t) →
  cSeq c' = cSeq c → (unregistered (c_pc c') = true → unregistered (c_pc c) = true) →
  (writing (c_pc c') = true → writing (c_pc c) = true) → seq_inv s'.
Proof.
  intros [Hseq Hrange Hzero Hw Hu Hp] Hc Hcs Hsq Hpe Hs Hun Hwr. split; rewrite ?Hcs, ?Hsq.
  - rewrite length_insert. pose proof (sum_list_with_set to_register (calls s) t c c' Hc) as Hsum.
    assert (to_register c' ≤ to_register c)%nat; [|lia]. unfold to_register.
    destruct (unregistered (c_pc c')); [by rewrite Hun|]. case_match; lia.
  - intros t' c'' Hl. lookups; [rewrite Hs; eauto|eauto].
  - intros t' c'' Hl Hh. lookups; [rewrite Hs; eauto|eauto].
  - intros t' c'' Hl Hh. lookups; [rewrite Hs; eauto|eauto].
  - intros t1 t2 c1 c2 Hl1 Hl2. lookups; rewrite ?Hs; eauto.
  - intros n t' Hn%Hpe. destruct (Hp n t' Hn) as (Hnz & c0 & Hc0 & <-). split; [done|].
    rewrite (lookup_set _ _ _ _ _ Hc). case_decide; [|eauto]. subst. exists c'. split; [done|].
    congruence.
Qed.

(** Changes of what the numbers do not depend on. *)
Lemma seq_inv_ext s s' : seq_inv s → calls s' = calls s → seq (cl s') = seq (cl s) →
  (∀ n t, pending (cl s') !! n = Some t → pending (cl s) !! n = Some t) → seq_inv s'.
Proof.
  intros [Hseq Hrange Hzero Hw Hu Hp] Hc Hs Hpe. split; rewrite ?Hc, ?Hs; eauto.
Qed.

Lemma caller_seq a s s' : Z.of_nat (length (calls s)) < 2 ^ 64 - 1 →
  seq_inv s → caller_step a s = Some s' → seq_inv s'.
Proof.
  intros Hn Hi H. pose proof Hi as [Hseq Hrange Hzero Hw Hu Hp].
  destruct s as [k snd held cs chs rv lg hd wr].
  assert (∀ p, unregistered p = false → unregistered p = true → False) as Hfalse by congruence.
  destruct a; cbn in H; try done; unfold registerCall, removeCall in H; step_cases H.
  3: { split; cbn in *.
    - rewrite length_insert.
      pose proof (sum_list_with_set to_register cs t c (set_pc CWrite (set_seq (seq k) c)) Heqo) as Hsum.
      unfold to_register in Hsum at 2 4. cbn in Hsum. rewrite Heqc0 in Hsum. cbn in Hsum.
      rewrite wrapu_small; lia.
    - assert (u64 (seq k + 1) = seq k + 1) as ->.
      { pose proof (sum_list_with_set to_register cs t c (set_pc CWrite (set_seq (seq k) c)) Heqo) as Hsum.
        unfold to_register in Hsum at 2 4. cbn in Hsum. rewrite Heqc0 in Hsum. cbn in Hsum.
        apply wrapu_small. lia. }
      intros t' c' Hl. lookups; cbn; [lia|]. specialize (Hrange _ _ Hl). lia.
    - intros t' c' Hl Hh. lookups; [done|eauto].
    - intros t' c' Hl Hh. lookups; [cbn; lia|eauto].
    - intros t1 t2 c1 c2 Hl1 Hl2 He Hnz. lookups; cbn in *; [done| | |eauto].
      + specialize (Hrange _ _ Hl1). lia.
      + specialize (Hrange _ _ Hl2). lia.
    - intros n t' [[<- <-]|[Hne Hn']]%lookup_insert_Some.
      + split; [lia|]. rewrite (lookup_set _ _ _ _ _ Heqo), decide_True by done. by eexists.
      + destruct (Hp n t' Hn') as (Hnz & c0 & Hc0 & <-). split; [done|].
        rewrite (lookup_set _ _ _ _ _ Heqo). case_decide as Ht; [|eauto]. subst t'.
        assert (cSeq c0 = 0) as E by (rewrite Heqo in Hc0; simplify_eq; eapply Hzero; [done|by at_pc]).
        done. }
  all: try (eapply (seq_inv_set _ _ _ _ _ Hi Heqo); [done|done| | | |]; cbn; try done; try (by at_pc);
    intros n0 t0 Hn0; by apply lookup_delete_Some in Hn0 as [_ ?]).
  assert (seq_inv (mkSys k snd false (<[t:=set_pc (CDone n) c]> cs) chs rv lg hd wr)) as Hi'.
  { eapply (seq_inv_set _ _ _ _ _ Hi Heqo); [done|done| | | |]; cbn; done. }
  eapply (seq_inv_set _ _ _ _ _ Hi' Heqo1); [done|done| | | |]; cbn; try done.
  intros n0 t0 Hn0. by apply lookup_delete_Some in Hn0 as [_ ?].
Qed.

Lemma recv_seq a s s' : seq_inv s → recv_step Errorf a s = Some s' → seq_inv s'.
Proof.
  intros Hi H. destruct s as [k snd held cs chs rv lg hd wr].
  destruct a; cbn in H; try done; unfold removeCall, Close in H; step_cases H.
  all: try (eapply (seq_inv_ext _ _ Hi); [done|done|]; cbn; try done;
    intros n0 t0 Hn0; by apply lookup_delete_Some in Hn0 as [_ ?]).
  all: match goal with Hl : @lookup nat Call (list Call) _ _ _ = Some _ |- _ =>
         eapply (seq_inv_set _ _ _ _ _ Hi Hl); [done|done| | | |]; cbn; done end.
Qed.

(** ** Channels *)

Lemma done_on_Some c cs chs chs' : done_on c cs chs = Some chs' → ∃ call ch,
  cs !! c = Some call ∧ chs !! dch call = Some ch ∧
  chs' = <[dch call := mkChan (cap ch) (items ch ++ [c])]> chs.
Proof using.
  unfold done_on. intros H. destruct (cs !! c) as [call|]; [|done]. cbn in H.
  destruct (chs !! dch call) as [ch|] eqn:Hch; [|done]. cbn in H. case_bool_decide; [|done].
  simplify_eq. eauto.
Qed.

Lemma recv_from_Some ch chs c chs' : recv_from ch chs = Some (c, chs') → ∃ x l,
  chs !! ch = Some x ∧ items x = c :: l ∧ chs' = <[ch := mkChan (cap x) l]> chs.
Proof using.
  unfold recv_from. intros H. destruct (chs !! ch) as [x|] eqn:Hx; [|done]. cbn in H.
  destruct (items x) as [|c0 l] eqn:E; [done|]. simplify_eq. eauto.
Qed.

Lemma done_on_items c cs chs chs' lg : done_on c cs chs = Some chs' →
  (∀ ch x c, chs !! ch = Some x → c ∈ items x → c ∈ lg) →
  ∀ ch x c', chs' !! ch = Some x → c' ∈ items x → c' ∈ lg ++ [c].
Proof using.
  intros (call & x0 & _ & Hx0 & ->)%done_on_Some Hlg ch x c' Hx Hin. apply elem_of_app.
  lookups; [|eauto]. cbn in Hin. apply elem_of_app in Hin as [Hin|Hin]; eauto.
Qed.

Lemma recv_from_items ch chs c chs' (lg : list nat) : recv_from ch chs = Some (c, chs') →
  (∀ ch x c, chs !! ch = Some x → c ∈ items x → c ∈ lg) →
  c ∈ lg ∧ ∀ ch x c', chs' !! ch = Some x → c' ∈ items x → c' ∈ lg.
Proof using.
  intros (x0 & l & Hx0 & Hl & ->)%recv_from_Some Hlg.
  assert (∀ c', c' ∈ c :: l → c' ∈ lg) as Hin by (intros c' Hc'; eapply Hlg; [done|by rewrite Hl]).
  split; [apply Hin; set_solver|]. intros ch' x c' Hx Hc'. lookups; [|eauto]. apply Hin. set_solver.
Qed.

Lemma caller_chan a s s' : chan_inv s → caller_step a s = Some s' → chan_inv s'.
Proof using.
  intros [Hi Hs] H. destruct s as [k snd held cs chs rv lg hd wr]. cbn in *.
  destruct a; cbn in H; try done; unfold registerCall, removeCall in H; step_cases H.
  all: repeat match goal with
    | E : done_on _ _ _ = Some _ |- _ => pose proof (done_on_items _ _ _ _ lg E Hi); clear E
    | E : recv_from _ _ = Some _ |- _ => pose proof (recv_from_items _ _ _ _ lg E Hi) as [? ?]; clear E
    end.
  all: split; cbn; try done; intros t1 c1' d1 Hl Hpc; lookups; cbn in *; simplify_eq;
    rewrite ?elem_of_app; eauto.
Qed.

Lemma recv_chan a s s' : chan_inv s → recv_step Errorf a s = Some s' → chan_inv s'.
Proof using.
  intros [Hi Hs] H. destruct s as [k snd held cs chs rv lg hd wr]. cbn in *.
  destruct a; cbn in H; try done; unfold removeCall, Close in H; step_cases H.
  all: repeat match goal with
    | E : done_on _ _ _ = Some _ |- _ => pose proof (done_on_items _ _ _ _ lg E Hi); clear E
    | E : recv_from _ _ = Some _ |- _ => pose proof (recv_from_items _ _ _ _ lg E Hi) as [? ?]; clear E
    end.
  all: split; cbn; try done; intros t1 c1' d1 Hl Hpc; lookups; cbn in *; simplify_eq;
    rewrite ?elem_of_app; eauto.
Qed.

(** ** Places *)

Lemma placed_set s s' t c c' : placed s → calls s !! t = Some c →
  calls s' = <[t := c']> (calls s) →
  caller_places t c ++ recv_places (recv s) ++ pend_places s ++ done_log s ≡ₚ
    caller_places t c' ++ recv_places (recv s') ++ pend_places s' ++ done_log s' →
  placed s'.
Proof using.
  unfold placed, places. intros Hp Hc Hcs Hrest. rewrite Hcs, length_insert, <- Hp.
  destruct (concat_imap_set caller_places (calls s) t c Hc) as (rest & -> & Hset). rewrite Hset.
  rewrite <- !(Permutation_app_comm rest), <- !app_assoc. by rewrite Hrest.
Qed.

Lemma placed_same s s' : placed s → calls s' = calls s →
  recv_places (recv s) ++ pend_places s ++ done_log s ≡ₚ
    recv_places (recv s') ++ pend_places s' ++ done_log s' →
  placed s'.
Proof using. unfold placed, places. intros Hp -> <-. done. Qed.

Lemma pend_insert (m : gmap Z nat) n t : m !! n = None →
  (map_to_list (<[n := t]> m)).*2 ≡ₚ t :: (map_to_list m).*2.
Proof using. intros H. by rewrite map_to_list_insert. Qed.

Lemma pend_delete (m : gmap Z nat) n t : m !! n = Some t →
  (map_to_list m).*2 ≡ₚ t :: (map_to_list (delete n m)).*2.
Proof using. intros H. by rewrite <- (map_to_list_delete m n t H). Qed.

(** A call that is done is not pending any more. *)
Lemma done_not_pending s c call : inv s → c ∈ done_log s → calls s !! c = Some call →
  terminated (recv s) = false → pending (cl s) !! cSeq call = None.
Proof using.
  intros [_ _ Hseq _ Hp] Hin Hc Ht. destruct (pending (cl s) !! cSeq call) as [c'|] eqn:E; [|done].
  exfalso. destruct (si_pending _ Hseq _ _ E) as (Hnz & call' & Hc' & Heq).
  assert (c' = c) as -> by (eapply (si_uniq _ Hseq c' c); [done|done|done|congruence]).
  assert (NoDup (places s)) as Hnd by (unfold placed in Hp; rewrite Hp; apply NoDup_seq).
  unfold places in Hnd. rewrite !app_assoc in Hnd. apply NoDup_app in Hnd as (_ & Hnd & _).
  apply (Hnd c); [|done]. apply elem_of_app. right. unfold pend_places. rewrite Ht.
  rewrite (pend_delete _ _ _ E). left.
Qed.

Lemma caller_placed a s s' : inv s → caller_step a s = Some s' → placed s'.
Proof using.
  intros Hinv H. pose proof Hinv as [_ Hl Hs Hch Hp].
  assert (Hwr : ∀ t c, calls s !! t = Some c → writing (c_pc c) = true → terminated (recv s) = false).
  { intros t c Hc Hw. destruct (terminated (recv s)) eqn:E; [|done].
    by rewrite (li_writing _ Hl E _ _ Hc) in Hw. }
  pose proof (li_shut _ Hl) as Hsh. pose proof (done_not_pending s) as Hdnp.
  destruct s as [k snd held cs chs rv lg hd wr].
  destruct a; cbn in H; try done; unfold registerCall, removeCall in H; step_cases H.
  all: try (eapply (placed_set _ _ _ _ _ Hp Heqo); [done|]; unfold caller_places, pend_places;
    cbn; rewrite ?Heqc0; cbn; done).
  - (* registered *)
    apply orb_false_iff in Heqb as [_ Hs']. cbn in Hsh. rewrite Hs' in Hsh.
    eapply (placed_set _ _ _ _ _ Hp Heqo); [done|]. unfold caller_places, pend_places.
    cbn. rewrite Heqc0, <- Hsh, pend_insert; [cbn; solve_Permutation|].
    destruct (pending k !! seq k) as [t'|] eqn:E; [|done].
    destruct (si_pending _ Hs _ _ E) as (_ & c' & Hc' & Heq).
    pose proof (si_range _ Hs _ _ Hc') as Hr. cbn in Hr. lia.
  - (* removed after a failed Write *)
    assert (placed (mkSys (mkClient (header k) (seq k) (delete (cSeq c) (pending k)) (closing k)
      (shutdown k)) snd false (<[t:=set_pc (CDone n) c]> cs) chs rv lg hd wr)) as Hp'.
    { eapply (placed_set _ _ _ _ _ Hp Heqo); [done|]. unfold caller_places, pend_places.
      pose proof (Hwr t c Heqo ltac:(by at_pc)) as Ht. cbn in Ht |- *. rewrite Ht, Heqc0, (pend_delete _ _ _ Heqo0).
      cbn. solve_Permutation. }
    eapply (placed_set _ _ _ _ _ Hp' Heqo1); [done|]. unfold caller_places, pend_places. cbn. done.
  - (* removed by the receiver before *)
    eapply (placed_set _ _ _ _ _ Hp Heqo); [done|]. unfold caller_places, pend_places. cbn.
    rewrite Heqc0, delete_id by done. done.
  - (* done *)
    eapply (placed_set _ _ _ _ _ Hp Heqo); [done|]. unfold caller_places, pend_places. cbn.
    rewrite Heqc0. cbn. solve_Permutation.
  - (* the context of Call *)
    eapply (placed_set _ _ _ _ _ Hp Heqo); [done|]. unfold caller_places, pend_places. cbn.
    rewrite Heqc0. cbn. destruct (terminated rv) eqn:Ht; [done|].
    rewrite delete_id; [done|]. eapply (Hdnp c0 c1 Hinv); [|done|done].
    eapply (ci_select _ Hch t c); done.
Qed.

Lemma recv_placed a s s' : inv s → recv_step Errorf a s = Some s' → placed s'.
Proof using.
  intros [_ Hl Hs Hch Hp] H. destruct s as [k snd held cs chs rv lg hd wr].
  destruct a; cbn in H; try done; unfold removeCall, Close, after_body in H; step_cases H.
  all: try (eapply (placed_same _ _ Hp); [done|]; unfold pend_places; cbn; done).
  - (* looked up *)
    eapply (placed_same _ _ Hp); [done|]. unfold pend_places. cbn.
    destruct (pending k !! Seq h) as [c|] eqn:E.
    + by rewrite (pend_delete _ _ _ E).
    + by rewrite delete_id.
  - by eapply (placed_set _ _ _ _ _ Hp Heqo0); [done|]; unfold caller_places, pend_places.
  - by eapply (placed_set _ _ _ _ _ Hp Heqo0); [done|]; unfold caller_places, pend_places.
  - by eapply (placed_set _ _ _ _ _ Hp Heqo0); [done|]; unfold caller_places, pend_places.
  - by eapply (placed_set _ _ _ _ _ Hp Heqo0); [done|]; unfold caller_places, pend_places.
  - eapply (placed_same _ _ Hp); [done|]. unfold pend_places. cbn. solve_Permutation.
  - eapply (placed_same _ _ Hp); [done|]. unfold pend_places. cbn. solve_Permutation.
  - (* notified *)
    eapply (placed_set _ _ _ _ _ Hp Heqo0); [done|]. unfold caller_places, pend_places. cbn.
    f_equiv. rewrite (delete_Permutation todo i n) at 1 by done. cbn. solve_Permutation.
Qed.

(** ** Every reachable state *)

Lemma step_size a s s' : step Errorf a s = Some s' → length (calls s') = length (calls s).
Proof using.
  intros H. apply step_split in H. destruct s as [k snd held cs chs rv lg hd wr].
  destruct H as [H|H]; destruct a; cbn in H; try done;
    unfold registerCall, removeCall, Close in H; step_cases H; cbn; by rewrite ?length_insert.
Qed.

Lemma client_step_inv a s s' : inv s → step Errorf a s = Some s' → inv s'.
Proof using.
  intros Hinv H. pose proof Hinv as [Hn Hl Hs Hc Hp]. pose proof (step_size _ _ _ H) as Hsz.
  apply step_split in H as [H|H]; split; rewrite ?Hsz; try done.
  - by eapply caller_locks.
  - by eapply caller_seq.
  - by eapply caller_chan.
  - by eapply caller_placed.
  - by eapply recv_locks.
  - by eapply recv_seq.
  - by eapply recv_chan.
  - by eapply recv_placed.
Qed.

Lemma client_run_inv tr s s' : inv s → run Errorf tr s = Some s' → inv s'.
Proof using.
  revert s. induction tr as [|a tr IH]; intros s Hs H; cbn in H; [by simplify_eq|].
  destruct (step Errorf a s) as [s1|] eqn:E; [|done]. cbn in H. eapply IH; [|done].
  by eapply client_step_inv.
Qed.

Lemma started_places cs caps : places (started cs caps) ≡ₚ List.seq 0 (length cs).
Proof using.
  unfold places, started, pend_places. cbn. rewrite map_to_list_empty, !app_nil_r.
  assert (∀ f n, (∀ t c, c_pc c = CStart → f t c = [n + t]%nat) →
    concat (imap f ((λ '(k, ch, m), mkCall k ch m CStart 0 None None) <$> cs))
      = List.seq n (length cs)) as H.
  { induction cs as [|[[k ch] m] cs IH]; intros f n Hf; [done|]. cbn. rewrite Hf by done.
    cbn. rewrite Nat.add_0_r. f_equal. apply IH. intros t c Hc. cbn. rewrite Hf by done.
    f_equal. lia. }
  rewrite (H caller_places 0%nat); [done|]. intros t c Hc. unfold caller_places. by rewrite Hc.
Qed.

Lemma client_started_inv cs caps : Z.of_nat (length cs) < 2 ^ 64 - 1 → inv (started cs caps).
Proof using.
  intros Hn. pose proof (started_places cs caps) as Hp.
  assert (∀ t c, calls (started cs caps) !! t = Some c → c_pc c = CStart ∧ cSeq c = 0) as Hc.
  { intros t c Hc. cbn in Hc. rewrite list_lookup_fmap in Hc.
    destruct (cs !! t) as [[[k ch] m]|]; by simplify_eq/=. }
  split.
  - cbn. by rewrite length_fmap.
  - split; try done; intros t c Hl; destruct (Hc t c Hl) as [Hpc _]; by rewrite Hpc.
  - split.
    + split; [done|]. cbn. rewrite length_fmap.
      assert (sum_list_with to_register
        ((λ '(k, ch, m), mkCall k ch m CStart 0 None None) <$> cs) = length cs)%nat as ->; [|lia].
      clear. induction cs as [|[[k ch] m] cs IH]; [done|]. cbn. by rewrite IH.
    + intros t c Hl. destruct (Hc t c Hl) as [_ ->]. done.
    + intros t c Hl _. by destruct (Hc t c Hl) as [_ ->].
    + intros t c Hl. destruct (Hc t c Hl) as [-> _]. done.
    + intros t t' c c' Hl _ _ Hnz. by destruct (Hc t c Hl) as [_ Hz].
    + intros n t Hn'. change ((∅ : gmap Z nat) !! n = Some t) in Hn'. by rewrite lookup_empty in Hn'.
  - split.
    + intros ch x c Hch Hin. cbn in Hch. rewrite list_lookup_fmap in Hch.
      destruct (caps !! ch); simplify_eq/=. by apply elem_of_nil in Hin.
    + intros t c c' Hl Hpc. destruct (Hc t c Hl) as [Hx _]. congruence.
  - unfold placed. rewrite Hp. cbn. by rewrite length_fmap.
Qed.

(** ** Replies *)

Lemma place_not_done s x : inv s →
  x ∈ concat (imap caller_places (calls s)) ++ recv_places (recv s) ++ pend_places s →
  x ∉ done_log s.
Proof using.
  intros [_ _ _ _ Hp] Hx Hd. assert (NoDup (places s)) as Hnd.
  { unfold placed in Hp. rewrite Hp. apply NoDup_seq. }
  unfold places in Hnd. rewrite !app_assoc in Hnd. apply NoDup_app in Hnd as (_ & Hnd & _).
  apply (Hnd x); [|done]. by rewrite <- app_assoc.
Qed.

Lemma at_caller s t c x : calls s !! t = Some c → x ∈ caller_places t c →
  x ∈ concat (imap caller_places (calls s)).
Proof using.
  intros Hc Hx. destruct (concat_imap_set caller_places (calls s) t c Hc) as (rest & -> & _).
  apply elem_of_app. by left.
Qed.

Lemma caller_not_elsewhere s t c x : inv s → calls s !! t = Some c → x ∈ caller_places t c →
  (x ∉ done_log s) ∧ (x ∉ recv_places (recv s)).
Proof using.
  intros Hinv Hc Hx. pose proof (at_caller s t c x Hc Hx) as Hin. split.
  - apply place_not_done; [done|]. set_solver.
  - destruct Hinv as [_ _ _ _ Hp]. assert (NoDup (places s)) as Hnd.
    { unfold placed in Hp. rewrite Hp. apply NoDup_seq. }
    unfold places in Hnd. apply NoDup_app in Hnd as (_ & Hnd & _). intros Hr.
    apply (Hnd x Hin). set_solver.
Qed.

Lemma answered_more hd x c : answered hd c → answered (hd ++ [x]) c.
Proof using.
  intros Ha He. destruct (Ha He) as (h & body & ? & ?). exists h, body. split; [|done].
  apply elem_of_app. by left.
Qed.

(** An update of one call that does not take an error away, and changes the
    number only of a call that nothing was answered for. *)
Lemma reply_set s s' t c c' : reply_inv s → calls s !! t = Some c →
  calls s' = <[t := c']> (calls s) → recv s' = recv s → heard s' = heard s →
  (∀ x call, x ∈ done_log s' → calls s !! x = Some call → x ∈ done_log s ∨ cErr call ≠ None) →
  (cErr c' = cErr c ∨ cErr c' ≠ None) → cReply c' = cReply c →
  (cSeq c' = cSeq c ∨ ((t ∉ done_log s') ∧ (t ∉ recv_places (recv s)))) →
  (∀ d, c_pc c' = CDone d → c_pc c = CDone d ∨ (d = t ∧ cErr c' ≠ None)) → reply_inv s'.
Proof using.
  intros [Hb Hrd Hcd Hlg] Hc Hcs Hrv Hhd Hdone He Hr Hsq Hpc.
  assert (cSeq c' = cSeq c → answered (heard s) c → answered (heard s) c') as Hans.
  { intros Hs Ha Hn. rewrite Hr, Hs. apply Ha. destruct He; congruence. }
  split; rewrite ?Hrv, ?Hhd, ?Hcs.
  - intros h x c0 Hx Hl. lookups; [|eauto].
    destruct Hsq as [->|[_ Hn]]; [by eapply Hb|]. destruct Hn. rewrite Hx. cbn. set_solver.
  - intros x e c0 Hx Hl. lookups; [|eauto]. destruct Hsq as [Hs|[_ Hn]]; [apply Hans; eauto|].
    destruct Hn. rewrite Hx. cbn. set_solver.
  - intros x c0 d call Hl Hd Hcall.
    assert ((x = t ∧ c0 = c') ∨ (∃ c1, calls s !! x = Some c1 ∧ c_pc c1 = CDone d)) as Hx
      by (lookups; eauto).
    assert ((d = t ∧ call = c') ∨ calls s !! d = Some call) as Hd' by (lookups; eauto).
    assert (∀ y c1, calls s !! y = Some c1 → c_pc c1 = CDone t → cErr c' ≠ None) as Hold.
    { intros y c1 Hy Hpy. destruct He as [->|]; [|done]. by eapply (Hcd y c1 t). }
    destruct Hx as [[-> ->]|(c1 & Hc1 & Hp1)], Hd' as [[-> ->]|Hd'].
    + destruct (Hpc _ Hd) as [Hp|[_ ?]]; [by apply (Hold t c)|done].
    + destruct (Hpc _ Hd) as [Hp|[-> ?]]; [by apply (Hcd t c d call)|].
      rewrite (lookup_set _ _ _ _ _ Hc), decide_True in Hcall by done. by simplify_eq.
    + by apply (Hold x c1).
    + by apply (Hcd x c1 d call).
  - intros x c0 Hin Hl. lookups.
    + destruct Hsq as [Hs|[Hn _]]; [|done]. destruct (Hdone _ _ Hin Hc) as [?|?]; [apply Hans; eauto|].
      intros Hn. destruct He; congruence.
    + destruct (Hdone _ _ Hin Hl) as [?|?]; [eauto|]. by intros ?.
Qed.

Lemma caller_reply a s s' : inv s → reply_inv s → caller_step a s = Some s' → reply_inv s'.
Proof using.
  intros Hinv Hri H.
  pose proof (caller_not_elsewhere s) as Hne.
  pose proof (inv_seq _ Hinv) as Hs. pose proof (ri_cdone _ Hri) as Hcd.
  destruct s as [k snd held cs chs rv lg hd wr].
  destruct a; cbn in H; try done; unfold registerCall, removeCall in H; step_cases H.
  all: try (eapply (reply_set _ _ _ _ _ Hri Heqo); [done|done|done| | | | |]; cbn; eauto; try done;
    intros d Hd; simplify_eq; eauto; fail).
  - destruct (Hne t c t Hinv Heqo) as [Hn1 Hn2]; [unfold caller_places; rewrite Heqc0; set_solver|].
    eapply (reply_set _ _ _ _ _ Hri Heqo); [done|done|done| | | | |]; cbn; eauto; try done.
  - assert (n = t) as ->.
    { destruct (si_pending _ Hs _ _ Heqo0) as (Hnz & c1 & Hc1 & Heq).
      eapply (si_uniq _ Hs n t c1 c); [done|done|done|congruence]. }
    rewrite (lookup_set _ _ _ _ _ Heqo), decide_True in Heqo1 by done. simplify_eq.
    eapply (reply_set _ _ t c (set_err (Some e) (set_pc (CDone t) c)) Hri Heqo);
      [cbn; by rewrite list_insert_insert_eq|done|done| | | | |]; cbn; eauto; try done.
    intros d Hd. simplify_eq. auto.
  - eapply (reply_set _ _ _ _ _ Hri Heqo); [done|done|done| | | | |]; cbn; eauto; try done.
    intros x call Hx Hcall. apply elem_of_app in Hx as [Hx|Hx%list_elem_of_singleton]; [auto|subst x].
    right. by apply (Hcd t c c0 call).
Qed.

Lemma answered_reply hd (cs : list Call) h n c body
  (Hb : ∀ h0 x c, RBody h (Some n) = RBody h0 (Some x) → cs !! x = Some c → cSeq c = Seq h0 ∧ Seq h0 ≠ 0) :
  cs !! n = Some c → bool_decide (Error h ≠ ""%string) = false →
  answered (hd ++ [(h, body)]) (set_reply body c).
Proof using.
  intros Hc He _. apply bool_decide_eq_false in He. destruct (Hb h n c eq_refl Hc) as [Heq Hnz].
  exists h, body. split; [apply elem_of_app; right; by left|]. split; [done|].
  split; [change (Seq h = cSeq c); congruence|]. split; [done|].
  by apply dec_stable.
Qed.

Lemma recv_reply a s s' : inv s → reply_inv s → recv_step Errorf a s = Some s' → reply_inv s'.
Proof using.
  intros Hinv [Hb Hrd Hcd Hlg] H. pose proof (si_pending _ (inv_seq _ Hinv)) as Hpe.
  destruct s as [k snd held cs chs rv lg hd wr]. cbn in *.
  destruct a; cbn in H; try done; unfold removeCall, Close, after_body in H; step_cases H.
  all: split; cbn; try done.
  all: try (intros t1 c1 d1 call1 Hl1 Hp1 Hl2; lookups; cbn in *; simplify_eq; eauto; fail).
  all: try (intros t1 c1 Hin Hl1; try rewrite elem_of_app, list_elem_of_singleton in Hin;
    lookups; try destruct Hin as [Hin| ->]; simplify_eq/=; eauto; try (by intros ?); fail).
  all: try (intros t1 e1 c1 Hin Hl1; lookups; simplify_eq/=; eauto; by intros ?).
  - intros h0 x c Hx Hc. injection Hx as <- Hx.
    destruct (Hpe _ _ Hx) as (Hnz & c1 & Hc1 & Heq). split; [congruence|done].
  - intros t c Hin Hl. lookups; [by intros ?|]. apply answered_more; eauto.
  - intros t e c Ht Hl. simplify_eq. lookups.
    by apply (answered_reply hd cs h _ c0 s Hb).
  - intros t c Hin Hl. lookups; [by apply (answered_reply hd cs h n c0 s Hb)|].
    apply answered_more; eauto.
  - intros t c Hin Hl. apply answered_more; eauto.
Qed.

(** ** The channel of a Call *)

Definition items_ok (cs : list Call) (chs : list chan) (lg : list nat) : Prop :=
  ∀ t c, cs !! t = Some c → c_kind c = KCall → ∃ n,
    chs !! dch c = Some (mkChan n (if decide (t ∈ lg ∧ popped (c_pc c) = false) then [t] else [])).

Definition own_channel (cs : list Call) : Prop :=
  ∀ t t' c c', cs !! t = Some c → cs !! t' = Some c' → c_kind c = KCall → dch c' = dch c → t' = t.

(** The part of the invariant that speaks of each call by itself. *)
Definition call_ok (lg : list nat) (t : nat) (c : Call) : Prop :=
  (popped (c_pc c) = true → c_kind c = KCall ∧ t ∈ lg) ∧
  (c_pc c = CWait → c_kind c = KCall) ∧
  (∀ c', c_pc c = CSelect c' → c' = t) ∧
  (∀ err, c_pc c = CRet err → ctx_error err).

Lemma call_inv_alt s : call_inv s ↔ own_channel (calls s) ∧
  items_ok (calls s) (chans s) (done_log s) ∧
  ∀ t c, calls s !! t = Some c → call_ok (done_log s) t c.
Proof using.
  split.
  - intros [H1 H2 H3 H4 H5 H6]. split_and!; [done|done|]. intros t c Hc. unfold call_ok. eauto 10.
  - intros (H1 & H2 & H3). split; [done|done| | | |]; intros t c; intros;
      edestruct (H3 t c) as (? & ? & ? & ?); eauto.
Qed.

Lemma own_channel_set cs t c c' : own_channel cs → cs !! t = Some c → c_kind c' = c_kind c →
  dch c' = dch c → own_channel (<[t := c']> cs).
Proof using.
  intros Ho Hc Hk Hd t1 t2 c1 c2 H1 H2 Hk1 Hd1.
  assert (∀ x y, <[t := c']> cs !! x = Some y → ∃ z, cs !! x = Some z ∧ c_kind z = c_kind y ∧
    dch z = dch y) as Hold by (intros x y Hx; lookups; eauto).
  destruct (Hold _ _ H1) as (z1 & Hz1 & E1 & E1'), (Hold _ _ H2) as (z2 & Hz2 & E2 & E2').
  apply (Ho t1 t2 z1 z2); congruence.
Qed.

Lemma items_ok_set cs chs lg t c c' : items_ok cs chs lg → cs !! t = Some c →
  c_kind c' = c_kind c → dch c' = dch c → popped (c_pc c') = popped (c_pc c) →
  items_ok (<[t := c']> cs) chs lg.
Proof using.
  intros Hi Hc Hk Hd Hp t1 c1 H1 Hk1. lookups; [|eauto]. rewrite Hp, Hd. apply Hi; congruence.
Qed.

Lemma items_ok_push cs chs lg c chs' : own_channel cs → items_ok cs chs lg →
  (∀ x, cs !! c = Some x → popped (c_pc x) = false) → c ∉ lg →
  done_on c cs chs = Some chs' → items_ok cs chs' (lg ++ [c]).
Proof using.
  intros Ho Hi Hp Hn (call & ch & Hcall & Hch & ->)%done_on_Some t0 c0 H0 Hk.
  destruct (Hi t0 c0 H0 Hk) as [n Hx]. destruct (decide (t0 = c)) as [->|Hne].
  - assert (call = c0) as -> by congruence. rewrite (lookup_set _ _ _ _ _ Hch), decide_True by done.
    rewrite Hx in Hch. injection Hch as <-. cbn [items cap].
    rewrite (decide_False (P := c ∈ lg ∧ _)) by tauto. exists n.
    rewrite decide_True by (split; [set_solver|by apply Hp]). done.
  - exists n. rewrite (lookup_set _ _ _ _ _ Hch), decide_False.
    + rewrite Hx. do 2 f_equal. apply decide_ext. rewrite elem_of_app, list_elem_of_singleton. tauto.
    + intros Hd. apply Hne. symmetry. by apply (Ho t0 c c0 call).
Qed.

Lemma call_ok_mono lg lg' t c : call_ok lg t c → (∀ x, x ∈ lg → x ∈ lg') → call_ok lg' t c.
Proof using.
  intros (Hp & Hw & Hsel & Hr) Hm. split_and!; try done. intros H. destruct (Hp H). auto.
Qed.

Lemma call_ok_set lg (cs : list Call) t c' : (∀ x y, cs !! x = Some y → call_ok lg x y) → call_ok lg t c' →
  ∀ x y, <[t := c']> cs !! x = Some y → call_ok lg x y.
Proof using. intros Ho Hc x y [(-> & -> & _)|[_ H]]%list_lookup_insert_Some; eauto. Qed.

(** A step of one caller that neither sends nor receives on a channel. *)
Lemma call_inv_set s s' t c c' : call_inv s → calls s !! t = Some c →
  calls s' = <[t := c']> (calls s) → chans s' = chans s → done_log s' = done_log s →
  c_kind c' = c_kind c → dch c' = dch c → popped (c_pc c') = popped (c_pc c) →
  call_ok (done_log s) t c' → call_inv s'.
Proof using.
  rewrite !call_inv_alt. intros (Ho & Hi & Hk) Hc Hcs Hch Hlg Hkd Hd Hp Hok. rewrite Hcs, Hch, Hlg.
  split_and!; [by eapply own_channel_set|by eapply items_ok_set|by eapply call_ok_set].
Qed.

(** A step that calls [done]. *)
Lemma call_inv_push s s' c : call_inv s → c ∉ done_log s → calls s' = calls s →
  done_on c (calls s) (chans s) = Some (chans s') → done_log s' = done_log s ++ [c] → call_inv s'.
Proof using.
  rewrite !call_inv_alt. intros (Ho & Hi & Hk) Hn Hcs Hch Hlg. rewrite Hcs, Hlg.
  split_and!; [done| |].
  - eapply items_ok_push; [done|done| |done|done]. intros x Hx.
    destruct (popped (c_pc x)) eqn:E; [|done]. by destruct (proj1 (Hk c x Hx) E).
  - intros t x Hx. eapply call_ok_mono; [by eapply Hk|]. set_solver.
Qed.

(** The first receive of a Call takes the call itself and leaves nothing. *)
Lemma call_inv_first s t c c' chs' : call_inv s → calls s !! t = Some c → c_pc c = CWait →
  recv_from (dch c) (chans s) = Some (c', chs') →
  c' = t ∧ t ∈ done_log s ∧ ∀ s', calls s' = <[t := set_pc (CSelect c') c]> (calls s) →
    chans s' = chs' → done_log s' = done_log s → call_inv s'.
Proof using.
  rewrite call_inv_alt. intros (Ho & Hi & Hk) Hc Hpc (x & l & Hx & Hl & ->)%recv_from_Some.
  assert (c_kind c = KCall) as Hkind by (by apply (Hk t c Hc)).
  destruct (Hi t c Hc Hkind) as [n Hn]. rewrite Hn in Hx. simplify_eq/=. rewrite Hpc in Hl. cbn in Hl.
  destruct (decide (t ∈ done_log s ∧ false = false)) as [Hin|]; [|done].
  injection Hl as <- <-. split_and!; [done|tauto|]. intros s' Hcs Hch Hlg.
  rewrite call_inv_alt, Hcs, Hch, Hlg. split_and!; [by eapply own_channel_set| |].
  - intros t1 c1 H1 Hk1. destruct (decide (t1 = t)) as [->|Hne].
    + lookups. exists n. cbn. rewrite (lookup_set _ _ _ _ _ Hn), decide_True by done.
      rewrite decide_False; [done|]. cbn. by intros [_ ?].
    + rewrite (lookup_set _ _ _ _ _ Hc), decide_False in H1 by done.
      destruct (Hi t1 c1 H1 Hk1) as [m Hm]. exists m.
      rewrite (lookup_set _ _ _ _ _ Hn), decide_False; [done|]. intros Hd. apply Hne.
      symmetry. by apply (Ho t1 t c1 c).
  - eapply call_ok_set; [done|]. split_and!; cbn; try done; try tauto. intros c1. by intros [= ->].
Qed.

(** After it the channel is empty for good. *)
Lemma call_inv_empty s t c : call_inv s → calls s !! t = Some c → popped (c_pc c) = true →
  recv_from (dch c) (chans s) = None.
Proof using.
  rewrite call_inv_alt. intros (Ho & Hi & Hk) Hc Hp.
  assert (c_kind c = KCall) as Hkind by (by destruct (proj1 (Hk t c Hc) Hp)).
  destruct (Hi t c Hc Hkind) as [n Hn]. unfold recv_from. rewrite Hn. cbn.
  rewrite decide_False; [done|]. rewrite Hp. by intros [_ ?].
Qed.

(** A receive on a channel that no Call owns. *)
Lemma call_inv_user s s' ch c : call_inv s →
  Forall (λ x, c_kind x = KGo ∨ dch x ≠ ch) (calls s) →
  recv_from ch (chans s) = Some (c, chans s') → calls s' = calls s →
  done_log s' = done_log s → call_inv s'.
Proof using.
  rewrite !call_inv_alt. intros (Ho & Hi & Hk) Hf (x & l & Hx & Hl & Hch)%recv_from_Some Hcs Hlg.
  rewrite Hcs, Hch, Hlg. split_and!; [done| |done]. intros t1 c1 H1 Hk1.
  destruct (Hi t1 c1 H1 Hk1) as [m Hm]. exists m. rewrite Forall_lookup in Hf.
  rewrite (lookup_set _ _ _ _ _ Hx), decide_False; [done|].
  intros Hd. destruct (Hf t1 c1 H1) as [?|?]; congruence.
Qed.

Lemma call_inv_ext s s' : call_inv s → calls s' = calls s → chans s' = chans s →
  done_log s' = done_log s → call_inv s'.
Proof using. rewrite !call_inv_alt. by intros ? -> -> ->. Qed.

Lemma caller_call a s s' : inv s → call_inv s → caller_step a s = Some s' → call_inv s'.
Proof using.
  intros Hinv Hci H.
  pose proof (proj1 (call_inv_alt _) Hci) as (_ & _ & Hk).
  pose proof (caller_not_elsewhere s) as Hne. pose proof (call_inv_first s) as Hfirst.
  pose proof (call_inv_empty s) as Hempty. pose proof (call_inv_set s) as Hset.
  pose proof (call_inv_push s) as Hpush.
  destruct s as [k snd held cs chs rv lg hd wr]. cbn in Hk, Hne, Hfirst, Hempty, Hset, Hpush.
  destruct a; cbn in H; try done; unfold registerCall, removeCall in H; step_cases H.
  all: try (eapply (Hset _ _ _ _ Hci Heqo); [reflexivity|reflexivity|reflexivity|..]; cbn;
    [done|done|by at_pc|]; unfold call_ok; cbn; split_and!; done).
  - (* ARemove *)
    set (s1 := mkSys k snd false (<[t:=set_pc (CDone n) c]> cs) chs rv lg hd wr).
    assert (call_inv s1) as H1.
    { eapply (Hset _ _ _ _ Hci Heqo); [reflexivity|reflexivity|reflexivity|..]; cbn;
        [done|done|by at_pc|]; unfold call_ok; cbn; split_and!; done. }
    eapply (call_inv_set s1 _ _ _ _ H1 Heqo1); [reflexivity|reflexivity|reflexivity|done..|].
    exact (proj2 (proj2 (proj1 (call_inv_alt _) H1)) n c0 Heqo1).
  - (* ADone *)
    set (s1 := mkSys k snd held cs l rv (lg ++ [c0]) hd wr).
    assert (call_inv s1) as H1.
    { apply (Hpush s1 c0); try done. eapply (Hne t c); [done|done|].
      unfold caller_places. rewrite Heqc0. set_solver. }
    eapply (call_inv_set s1 _ _ _ _ H1 Heqo); [reflexivity|reflexivity|reflexivity|..]; cbn;
      [done|done|by at_pc|]; unfold call_ok; cbn; split_and!; done.
  - (* AFirst *)
    destruct (Hfirst t c n l Hci Heqo) as (-> & Hin & H1); [by at_pc|done|]. by apply H1.
  - (* ACtxDone *)
    eapply (Hset _ _ _ _ Hci Heqo); [reflexivity|reflexivity|reflexivity|..]; cbn;
      [done|done|by at_pc|].
    destruct (Hk t c Heqo) as (Hp & _). unfold call_ok. cbn. split_and!; try done.
    + intros _. apply Hp. by at_pc.
    + intros err [= <-]. by eexists.
  - (* ASecond *)
    destruct (Hk t c Heqo) as (_ & _ & Hsel & _). specialize (Hsel c0 Heqc0). subst c0.
    rewrite Heqo in Heqo0. simplify_eq. rewrite (Hempty t c1 Hci Heqo ltac:(by at_pc)) in Heqo1. done.
Qed.

Lemma recv_call a s s' : inv s → call_inv s → recv_step Errorf a s = Some s' → call_inv s'.
Proof using.
  intros Hinv Hci H.
  pose proof (proj1 (call_inv_alt _) Hci) as (_ & _ & Hk).
  pose proof (place_not_done s) as Hne. pose proof (call_inv_set s) as Hset.
  pose proof (call_inv_push s) as Hpush.
  destruct s as [k snd held cs chs rv lg hd wr]. cbn in Hk, Hne, Hset, Hpush.
  destruct a; cbn in H; try done; unfold removeCall, Close, after_body in H; step_cases H.
  all: try (by eapply (call_inv_ext _ _ Hci)).
  all: try (eapply (Hset _ _ _ _ Hci Heqo0); [reflexivity|reflexivity|reflexivity|done..|];
    exact (Hk _ _ Heqo0)).
  - eapply (Hpush _ c Hci); [|done..]. apply Hne; [done|]. cbn. set_solver.
  - eapply (Hpush _ c Hci); [|done..]. apply Hne; [done|]. cbn. set_solver.
  - set (s1 := mkSys k snd held (<[n:=set_err (Some e) c]> cs) chs (RNotify e todo) lg hd wr).
    assert (call_inv s1) as H1.
    { eapply (Hset _ _ _ _ Hci Heqo0); [reflexivity|reflexivity|reflexivity|done..|].
      exact (Hk _ _ Heqo0). }
    eapply (call_inv_push s1 _ n H1); [|done..]. apply Hne; [done|].
    apply elem_of_app. right. apply elem_of_app. left. by eapply list_elem_of_lookup_2.
  - apply bool_decide_eq_true in Heqb. by eapply (call_inv_user _ _ ch n Hci).
Qed.

Lemma started_call cs caps : private cs caps → call_inv (started cs caps).
Proof using.
  intros [Hlt Ho]. apply call_inv_alt.
  assert (∀ t c, calls (started cs caps) !! t = Some c → ∃ x, cs !! t = Some x ∧
    c_pc c = CStart ∧ c_kind c = x.1.1 ∧ dch c = x.1.2) as Hc.
  { intros t c Hc. cbn in Hc. rewrite list_lookup_fmap in Hc.
    destruct (cs !! t) as [[[k ch] m]|]; simplify_eq/=. by eexists. }
  split_and!.
  - intros t t' c c' (x & Hx & _ & Hk & Hd)%Hc (x' & Hx' & _ & Hk' & Hd')%Hc HK HD.
    apply (Ho t t' x x'); congruence.
  - intros t c (x & Hx & Hp & Hk & Hd)%Hc HK.
    destruct (lookup_lt_is_Some_2 caps (dch c)) as [n Hn]; [rewrite Hd; by eapply Hlt|].
    exists n. cbn. rewrite list_lookup_fmap, Hn. cbn. rewrite decide_False; [done|].
    intros [Hin _]. by apply elem_of_nil in Hin.
  - intros t c (x & Hx & Hp & Hk & Hd)%Hc. unfold call_ok. rewrite Hp. split_and!; done.
Qed.

Lemma started_reply cs caps : reply_inv (started cs caps).
Proof using.
  split; try done.
  - intros t c c' call Hc Hp. cbn in Hc. rewrite list_lookup_fmap in Hc.
    destruct (cs !! t) as [[[k ch] m]|]; by simplify_eq/=.
  - intros t c Hin. by apply elem_of_nil in Hin.
Qed.

Lemma run_reply tr s s' : inv s → reply_inv s → run Errorf tr s = Some s' → reply_inv s'.
Proof using.
  revert s. induction tr as [|a tr IH]; intros s Hs Hr H; cbn in H; [by simplify_eq|].
  destruct (step Errorf a s) as [s1|] eqn:E; [|done]. cbn in H.
  eapply IH; [by eapply client_step_inv| |done]. apply step_split in E as [E|E].
  - by eapply caller_reply.
  - by eapply recv_reply.
Qed.

(** A call returns by the step in which its context ends. *)
Lemma step_returns a s s' t c' err : call_inv s → step Errorf a s = Some s' →
  calls s' !! t = Some c' → c_pc c' = CRet err →
  (∃ c, calls s !! t = Some c ∧ c_pc c = CRet err) ∨
  ∃ e, a = ACtxDone t e ∧ err = Some ("rpc client:call failed: " +:+ e).
Proof using.
  intros Hci H Hc Hp. pose proof (proj1 (call_inv_alt _) Hci) as (_ & _ & Hk).
  pose proof (call_inv_empty s) as Hempty. destruct s as [k snd held cs chs rv lg hd wr]. cbn in Hk, Hempty |- *.
  apply step_split in H as [H|H].
  - destruct a; cbn in H; try done; unfold registerCall, removeCall in H; step_cases H; cbn in Hc.
    all: try (by left; exists c'); lookups; try (by left; eauto); try (by cbn in Hp; simplify_eq).
    + right. cbn in Hp. injection Hp as <-. by exists e.
    + destruct (Hk t0 c Heqo) as (_ & _ & Hsel & _). specialize (Hsel c0 Heqc0). subst c0. simplify_eq.
      rewrite (Hempty t0 c Hci Heqo ltac:(by at_pc)) in Heqo1. done.
  - destruct a; cbn in H; try done; unfold removeCall, Close, after_body in H; step_cases H; cbn in Hc.
    all: try (by left; exists c'); lookups; try (by left; eauto).
Qed.

Lemma run_returns tr s s' t c err : inv s → call_inv s → run Errorf tr s = Some s' →
  calls s' !! t = Some c → c_pc c = CRet err →
  (∃ c0, calls s !! t = Some c0 ∧ c_pc c0 = CRet err) ∨
  ∃ e, ACtxDone t e ∈ tr ∧ err = Some ("rpc client:call failed: " +:+ e).
Proof using.
  revert s. induction tr as [|a tr IH]; intros s Hs Hr H Hc Hp; cbn in H; [simplify_eq; left; eauto|].
  destruct (step Errorf a s) as [s1|] eqn:E; [|done]. cbn in H.
  assert (call_inv s1) as Hr1.
  { pose proof (step_split _ _ _ E) as [E'|E']; [by eapply caller_call|by eapply recv_call]. }
  destruct (IH s1 (client_step_inv _ _ _ Hs E) Hr1 H Hc Hp) as [(c0 & Hc0 & Hp0)|(e & He & ->)].
  - destruct (step_returns _ _ _ _ _ _ Hr E Hc0 Hp0) as [?|(e & -> & ->)]; [by left|right].
    exists e. split; [by left|done].
  - right. exists e. split; [by right|done].
Qed.

(** What [Call] returns on a new client is the error of its context. *)
Lemma Call_returns_ctx cs caps tr s t c err : Z.of_nat (length cs) < 2 ^ 64 - 1 → private cs caps →
  run Errorf tr (started cs caps) = Some s → calls s !! t = Some c → c_pc c = CRet err →
  ∃ e, ACtxDone t e ∈ tr ∧ err = Some ("rpc client:call failed: " +:+ e).
Proof using.
  intros Hn Hpriv Hr Hc Hp. pose proof (client_started_inv cs caps Hn) as H0.
  destruct (run_returns _ _ _ _ _ _ H0 (started_call cs caps Hpriv) Hr Hc Hp) as [(c0 & Hc0 & Hp0)|?]; [|done].
  exfalso. cbn in Hc0. rewrite list_lookup_fmap in Hc0. destruct (cs !! t) as [[[k ch] m]|]; by simplify_eq/=.
Qed.
End steps.

(** ** What the steps of a client keep *)

Lemma keeps_refl cs : keeps cs cs.
Proof. intros t c Hc. by exists c. Qed.

Lemma keeps_set cs t c c' : cs !! t = Some c → kept c c' → keeps cs (<[t := c']> cs).
Proof.
  intros Hc Hk x c0 Hx. rewrite (lookup_set _ _ _ _ _ Hc). case_decide; [|by exists c0].
  subst. simplify_eq. by exists c'.
Qed.

Lemma keeps_trans cs cs1 cs2 : keeps cs cs1 → keeps cs1 cs2 → keeps cs cs2.
Proof.
  intros H1 H2 x c0 Hx. destruct (H1 x c0 Hx) as (c2 & Hx2 & ? & ? & E2 & ?).
  destruct (H2 x c2 Hx2) as (c3 & Hx3 & ? & ? & E3 & ?). exists c3. split; [done|].
  split_and!; [congruence|congruence| |auto].
  intros Hz. rewrite <- (E2 Hz). apply E3. by rewrite (E2 Hz).
Qed.

Lemma step_keeps Errorf a s s' : inv s → step Errorf a s = Some s' → keeps (calls s) (calls s').
Proof.
  intros Hinv H. pose proof (si_zero _ (inv_seq _ Hinv)) as Hz. apply step_split in H.
  destruct s as [k snd held cs chs rv lg hd wr]. cbn in Hz.
  destruct H as [H|H]; destruct a; cbn in H; try done; unfold registerCall, removeCall, Close in H;
    step_cases H; cbn.
  all: try apply keeps_refl.
  all: try (eapply keeps_set; [eassumption|]; unfold kept, past_write; cbn;
    repeat match goal with E : c_pc _ = _ |- _ => rewrite E end; split_and!; done).
  - eapply keeps_set; [done|]. unfold kept, past_write. cbn. rewrite Heqc0. split_and!; try done.
    intros []. apply (Hz t c); [done|]. by rewrite Heqc0.
  - eapply keeps_trans; (eapply keeps_set; [done|]); unfold kept, past_write; cbn; rewrite ?Heqc0; done.
Qed.

(** ** Properties *)

(** Whatever the interleaving of callers, receiver, Close and failures of the
    codec, [done] is called at most once on every call; and once the receiver
    has ended and no caller is inside [send], it has been called exactly once
    on every call: no call is lost when the connection fails. *)
Theorem done_exactly_once Errorf cs caps tr s :
  Z.of_nat (length cs) < 2 ^ 64 - 1 → run Errorf tr (started cs caps) = Some s →
  NoDup (done_log s) ∧
  (recv s = REnd → (∀ t c, calls s !! t = Some c → caller_places t c = []) →
   done_log s ≡ₚ List.seq 0 (length cs)).
Proof.
  intros Hn Hr. pose proof (client_run_inv Errorf _ _ _ (client_started_inv cs caps Hn) Hr) as Hinv.
  pose proof (inv_placed _ Hinv) as Hp. unfold placed in Hp.
  assert (length (calls s) = length cs) as Hlen.
  { clear -Hr. assert (length (calls (started cs caps)) = length cs) as <- by (cbn; by rewrite length_fmap).
    revert Hr. generalize (started cs caps). induction tr as [|a tr IH]; intros s0 Hr; cbn in Hr;
      [by simplify_eq|]. destruct (step Errorf a s0) as [s1|] eqn:E; [|done].
    rewrite (IH s1 Hr). by eapply step_size. }
  rewrite Hlen in Hp. split.
  - assert (NoDup (places s)) as Hnd by (rewrite Hp; apply NoDup_seq).
    unfold places in Hnd. rewrite !app_assoc in Hnd. by apply NoDup_app in Hnd as (_ & _ & ?).
  - intros Hend Hcs. rewrite <- Hp. unfold places, pend_places. rewrite Hend. cbn.
    assert (concat (imap caller_places (calls s)) = []) as ->; [|done].
    assert (∀ (f : nat → Call → list nat) l, (∀ t c, l !! t = Some c → f t c = []) →
      concat (imap f l) = []) as Hnil; [|by apply Hnil].
    intros f l. revert f. induction l as [|c l IH]; intros f Hf; [done|]. cbn.
    rewrite (Hf 0%nat c eq_refl). apply IH. intros t c' Hc. by apply (Hf (S t)).
Qed.

(** A call that is completed without an error has as its reply the body of a
    response that carries the call's own number and no error, and no other
    call has that number: responses that arrive in another order than the
    requests are not mixed up. *)
Theorem reply_is_for_its_call Errorf cs caps tr s t c :
  Z.of_nat (length cs) < 2 ^ 64 - 1 → run Errorf tr (started cs caps) = Some s →
  t ∈ done_log s → calls s !! t = Some c → cErr c = None →
  ∃ h body, (h, body) ∈ heard s ∧ cReply c = Some body ∧ Seq h = cSeq c ∧ Error h = ""%string ∧
  ∀ t' c', calls s !! t' = Some c' → cSeq c' = Seq h → t' = t.
Proof.
  intros Hn Hr Ht Hc He. pose proof (client_started_inv cs caps Hn) as H0.
  pose proof (client_run_inv Errorf _ _ _ H0 Hr) as Hinv.
  pose proof (run_reply Errorf _ _ _ H0 (started_reply cs caps) Hr) as Hrep.
  destruct (ri_log _ Hrep t c Ht Hc He) as (h & body & Hh & Hreply & Hseq & Hnz & Herr).
  exists h, body. split_and!; try done. intros t' c' Hc' Heq.
  apply (si_uniq _ (inv_seq _ Hinv) t' t c' c); [done|done|congruence|congruence].
Qed.

(** Call never returns the outcome of its call: it takes the completed call off
    its channel and then waits for it a second time, so it only returns when
    its context ends, with the error of that, also after a successful reply; a
    call whose context never ends does not return. *)
Theorem Call_never_returns_reply Errorf cs caps tr s t c err :
  Z.of_nat (length cs) < 2 ^ 64 - 1 → private cs caps →
  run Errorf tr (started cs caps) = Some s → calls s !! t = Some c → c_pc c = CRet err →
  ∃ e, ACtxDone t e ∈ tr ∧ err = Some ("rpc client:call failed: " +:+ e).
Proof. apply Call_returns_ctx. Qed.

(** ** Witnesses *)

(** Two calls whose responses come back in the other order, then the end of the
    connection. *)
Definition demo_calls : list (kind * nat * string) :=
  [(KCall, 0%nat, "Foo.Sum"%string); (KGo, 1%nat, "Foo.Mul"%string)].

Definition demo_trace : list action :=
  [ALock 0; ARegister 0; AWrite 0 None; AUnlock 0; ALock 1; ARegister 1; AWrite 1 None; AUnlock 1;
   AHeader (inl (mkHeader "Foo.Mul" 2 "")); ALookup; ABody (inl "6"%string); ARecvDone;
   AHeader (inl (mkHeader "Foo.Sum" 1 "")); ALookup; ABody (inl "5"%string); ARecvDone;
   AFirst 0; AHeader (inr "EOF"%string); ATermLock; ATermEnd; ACtxDone 0 "deadline"].

Lemma client_demo_run : ∃ s, run id demo_trace (started demo_calls [1; 10])%nat = Some s ∧
  recv s = REnd ∧ done_log s = [1; 0]%nat ∧
  ((λ c, (c_pc c, cSeq c, cReply c)) <$> calls s) =
    [(CRet (Some "rpc client:call failed: deadline"%string), 1, Some "5"%string);
     (CGone, 2, Some "6"%string)] ∧
  (∀ t c, calls s !! t = Some c → caller_places t c = [] ∧ cErr c = None) ∧
  (∃ c, calls s !! 0%nat = Some c ∧ c_pc c = CRet (Some "rpc client:call failed: deadline"%string)).
Proof.
  eexists. split; [vm_compute; reflexivity|]. split_and!; try reflexivity.
  - intros [|[|t]] c Hc; cbn in Hc; by simplify_eq.
  - eexists. split; reflexivity.
Qed.

Lemma done_exactly_once_witness : ∃ s, run id demo_trace (started demo_calls [1; 10])%nat = Some s ∧
  done_log s ≡ₚ [0; 1]%nat.
Proof.
  destruct client_demo_run as (s & Hr & Hend & _ & _ & Hc & _). exists s. split; [exact Hr|].
  apply (done_exactly_once id demo_calls [1; 10]%nat demo_trace s); [cbn; lia|exact Hr|exact Hend|].
  intros t c Hl. by destruct (Hc t c Hl).
Defined.

Lemma reply_is_for_its_call_witness : ∃ s c h body,
  run id demo_trace (started demo_calls [1; 10])%nat = Some s ∧ calls s !! 1%nat = Some c ∧
  (h, body) ∈ heard s ∧ cReply c = Some body ∧ Seq h = cSeq c.
Proof.
  destruct client_demo_run as (s & Hr & _ & Hd & Hl & Hc & _).
  destruct (calls s !! 1%nat) as [c|] eqn:E.
  - edestruct (reply_is_for_its_call id demo_calls [1; 10]%nat demo_trace s 1 c)
      as (h & body & Hh & Hb & Hs & _); [cbn; lia|exact Hr|rewrite Hd; left|exact E|by destruct (Hc _ _ E)|].
    exists s, c, h, body. split; [exact Hr|]. split; [exact E|]. split; [exact Hh|]. split; [exact Hb|exact Hs].
  - destruct (calls s) as [|? [|? ?]]; discriminate.
Defined.

Lemma Call_never_returns_reply_witness : ∃ s e,
  run id demo_trace (started demo_calls [1; 10])%nat = Some s ∧
  Some "rpc client:call failed: deadline"%string = Some ("rpc client:call failed: " +:+ e).
Proof.
  destruct client_demo_run as (s & Hr & _ & _ & _ & _ & c & Hc & Hp).
  edestruct (Call_never_returns_reply id demo_calls [1; 10]%nat demo_trace s 0 c) as (e & _ & He);
    [cbn; lia| |exact Hr|exact Hc|exact Hp|].
  - split.
    + intros [|[|t]] x Hx; cbn in Hx; simplify_eq; cbn; lia.
    + intros [|[|t]] [|[|t']] x x' Hx Hx' Hk Hd; cbn in *; simplify_eq; done.
  - exists s, e. split; [exact Hr|exact He].
Defined.
