(* ===== verification/ClientApi.v ===== *)
(** * geerpc: the client's interface

    Models how calls come to be: [Go] and [Call] of [src/geerpc/client.go] with
    the channels they make or are given, on top of the steps of [Client.v].  A
    program may make calls, and channels, at any time.  What such a program can
    reach, a client can reach whose calls were all there at the start, so that
    the theorems of [Client.v] hold for it. *)

From S2P Require Import Prelude Client.

(** ** Go and Call *)

(** A goroutine is about to call [send] with a new call. *)
Definition arrive (k : kind) (ch : nat) (serviceMethod : string) (s : sys) : sys :=
  mkSys (cl s) (sending s) (mu_held s) (calls s ++ [mkCall k ch serviceMethod CStart 0 None None])
    (chans s) (recv s) (done_log s) (heard s) (wire s).

(** [make(chan *Call, n)] *)
Definition make_chan (n : nat) (s : sys) : sys :=
  mkSys (cl s) (sending s) (mu_held s) (calls s) (chans s ++ [mkChan n []]) (recv s)
    (done_log s) (heard s) (wire s).

(** [Go] up to [client.send]; the channel of [done] is given by its position. *)
Definition Go (k : kind) (serviceMethod : string) (done : option nat) (s : sys) : outcome sys :=
  match done with
  | None => Ret (arrive k (length (chans s)) serviceMethod (make_chan 10 s))
  | Some ch =>
      match chans s !! ch with
      | Some x =>
          if bool_decide (cap x = 0%nat) then Panic "rpc client: done channel is unbuffered"
          else Ret (arrive k ch serviceMethod s)
      | None => Panic "no such channel"
      end
  end.

(** [Call] up to [client.send]: [Go] with a channel of its own. *)
Definition Call (serviceMethod : string) (s : sys) : outcome sys :=
  Go KCall serviceMethod (Some (length (chans s))) (make_chan 1 s).

(** ** A program that uses a client *)

Inductive xaction :=
  | XMake (n : nat) | XGo (serviceMethod : string) (done : option nat)
  | XCall (serviceMethod : string) | XAvailable | XStep (a : action).

Definition ret {A} (r : outcome A) : option A := match r with Ret a => Some a | _ => None end.

(** A channel that a program can name: that of a [Call] is not visible. *)
Definition nameable (done : option nat) (s : sys) : bool :=
  match done with
  | None => true
  | Some ch => bool_decide (Forall (λ c, c_kind c = KGo ∨ dch c ≠ ch) (calls s))
  end.

Definition xstep (Errorf : string → string) (x : xaction) (s : sys) : option sys :=
  match x with
  | XMake n => Some (make_chan n s)
  | XGo m done => if nameable done s then ret (Go KGo m done s) else None
  | XCall m => ret (Call m s)
  | XAvailable => if mu_held s then None else Some s
  | XStep a => step Errorf a s
  end.

Fixpoint xrun (Errorf : string → string) (tr : list xaction) (s : sys) : option sys :=
  match tr with
  | [] => Some s
  | x :: tr => s' ← xstep Errorf x s; xrun Errorf tr s'
  end.

(** A new client, before any call. *)
Definition new : sys := started [] [].

(** ** Specification *)

Definition steps (tr : list xaction) : list action :=
  omap (λ x, match x with XStep a => Some a | _ => None end) tr.

(** What the steps never change of the calls. *)
Definition static (s : sys) : list (kind * nat * string) := (λ c, (c_kind c, dch c, c_method c)) <$> calls s.

Definition extend (cs : list Client.Call) (chs : list chan) (s : sys) : sys :=
  mkSys (cl s) (sending s) (mu_held s) (calls s ++ cs) (chans s ++ chs) (recv s) (done_log s) (heard s) (wire s).

Record api_inv (s : sys) : Prop := {
  ai_inv : inv s;
  ai_call : call_inv s;
  ai_reply : reply_inv s;
}.

(** The receiver is in the loop of [terminateCalls], with both locks, and has
    yet to complete a call whose channel [d] is full. *)
Record jammed (t d : nat) (s : sys) : Prop := {
  ja_recv : ∃ e todo, recv s = RNotify e todo ∧ t ∈ todo;
  ja_send : sending s = Some HReceiver;
  ja_mu : mu_held s = true;
  ja_call : ∃ c, calls s !! t = Some c ∧ c_kind c = KGo ∧ dch c = d;
  ja_full : ∃ ch, chans s !! d = Some ch ∧ (cap ch ≤ length (items ch))%nat;
}.

Section proofs.
Context (Errorf : string → string).

(** ** A call that arrives later *)

Lemma done_on_extend c cs chs cs' chs' r : done_on c cs chs = Some r →
  done_on c (cs ++ cs') (chs ++ chs') = Some (r ++ chs').
Proof using.
  unfold done_on. destruct (cs !! c) as [x|] eqn:Hc; [|done]. rewrite (lookup_app_l_Some _ _ _ _ Hc).
  cbn [mbind option_bind]. destruct (chs !! dch x) as [ch|] eqn:Hch; [|done]. rewrite (lookup_app_l_Some _ _ _ _ Hch).
  cbn [mbind option_bind]. case_bool_decide; [|done]. intros [= <-].
  by rewrite insert_app_l by (by eapply lookup_lt_Some).
Qed.

Lemma recv_from_extend ch chs chs' c r : recv_from ch chs = Some (c, r) →
  recv_from ch (chs ++ chs') = Some (c, r ++ chs').
Proof using.
  unfold recv_from. destruct (chs !! ch) as [x|] eqn:Hx; [|done]. rewrite (lookup_app_l_Some _ _ _ _ Hx).
  cbn [mbind option_bind]. destruct (items x); [done|]. intros [= <- <-].
  by rewrite insert_app_l by (by eapply lookup_lt_Some).
Qed.

(** The rewriting of a step in the extended state. *)
Ltac extended :=
  repeat (match goal with
  | H : ?l !! ?i = Some _ |- context [(?l ++ _) !! ?i] => rewrite (lookup_app_l_Some _ _ _ _ H)
  | H : ?l !! ?i = Some _ |- context [<[?i := _]> (?l ++ _)] =>
      rewrite insert_app_l by (exact (lookup_lt_Some _ _ _ H))
  | H : done_on _ _ _ = Some _ |- _ => rewrite (done_on_extend _ _ _ _ _ _ H)
  | H : recv_from _ _ = Some _ |- _ => rewrite (recv_from_extend _ _ _ _ _ H)
  | |- context [match ?x with _ => _ end] => match goal with H : x = _ |- _ => rewrite H end
  end; cbn).

Lemma caller_extend a s s' cs chs : caller_step a s = Some s' →
  caller_step a (extend cs chs s) = Some (extend cs chs s').
Proof using.
  intros H. destruct s as [k snd held cs0 chs0 rv lg hd wr].
  destruct a; cbn in H |- *; try done; step_cases H; cbn; extended; try done.
Qed.

(** The calls that are added have channels the state does not. *)
Definition apart (cs : list Client.Call) (s : sys) : Prop :=
  Forall (λ c, c_kind c = KGo ∨ (length (chans s) ≤ dch c)%nat) cs.

Lemma user_extend ch cs0 chs0 cs r : recv_from ch chs0 = Some r →
  Forall (λ c, c_kind c = KGo ∨ (length chs0 ≤ dch c)%nat) cs →
  Forall (λ c, c_kind c = KGo ∨ dch c ≠ ch) cs0 → Forall (λ c, c_kind c = KGo ∨ dch c ≠ ch) (cs0 ++ cs).
Proof using.
  intros Hr Hcs H0. apply Forall_app. split; [done|]. eapply Forall_impl; [exact Hcs|].
  intros c [?|Hc]; [by left|right]. intros Heq. unfold recv_from in Hr.
  destruct (chs0 !! ch) eqn:E; [|done]. apply lookup_lt_Some in E. rewrite <- Heq in E. lia.
Qed.

Lemma recv_extend a s s' cs chs : apart cs s → recv_step Errorf a s = Some s' →
  recv_step Errorf a (extend cs chs s) = Some (extend cs chs s').
Proof using.
  intros Hap H. destruct s as [k snd held cs0 chs0 rv lg hd wr]. unfold apart in Hap. cbn in Hap.
  destruct a; cbn in H |- *; try done; step_cases H; cbn; extended; try done.
  by rewrite bool_decide_eq_true_2 by (apply bool_decide_eq_true in Heqb; by eapply user_extend).
Qed.

Lemma step_extend a s s' cs chs : apart cs s → step Errorf a s = Some s' →
  step Errorf a (extend cs chs s) = Some (extend cs chs s').
Proof using.
  intros Hap H. apply step_split in H as [H|H]; unfold step; [by rewrite (caller_extend _ _ _ _ _ H)|].
  assert (∀ s, caller_step a s = None) as ->.
  { intros s0. destruct s as [k snd held cs0 chs0 rv lg hd wr], s0. by destruct a. }
  by apply recv_extend.
Qed.

(** ** What steps keep *)

Lemma step_static a s s' : step Errorf a s = Some s' → static s' = static s ∧ length (chans s') = length (chans s).
Proof using.
  assert (∀ (f : Client.Call → kind * nat * string) (l : list Client.Call) i c c', l !! i = Some c → f c' = f c → f <$> <[i := c']> l = f <$> l) as Hset.
  { intros f l i c c' Hc Hf. rewrite list_fmap_insert, Hf. apply list_insert_id. by rewrite list_lookup_fmap, Hc. }
  assert (∀ c cs chs r, done_on c cs chs = Some r → length r = length chs) as Hdone.
  { intros c cs chs r H. unfold done_on in H. step_cases H. apply length_insert. }
  assert (∀ ch chs c r, recv_from ch chs = Some (c, r) → length r = length chs) as Hrecv.
  { intros ch chs c r H. unfold recv_from in H. step_cases H. apply length_insert. }
  intros H. apply step_split in H. destruct s as [k snd held cs0 chs0 rv lg hd wr].
  destruct H as [H|H]; destruct a; cbn in H; try done; unfold registerCall, removeCall, Close in H; step_cases H;
    unfold static; cbn; split; eauto.
  all: try (by erewrite Hset).
  by rewrite (Hset _ _ _ _ _ Heqo1), (Hset _ _ _ _ _ Heqo).
Qed.

Lemma run_extend tr s s' cs chs : apart cs s → run Errorf tr s = Some s' →
  run Errorf tr (extend cs chs s) = Some (extend cs chs s').
Proof using.
  revert s. induction tr as [|a tr IH]; intros s Hap H; cbn [run] in *; [by injection H as <-|].
  destruct (step Errorf a s) as [s1|] eqn:Hs; [|done]. rewrite (step_extend _ _ _ _ chs Hap Hs).
  apply IH; [|done]. unfold apart. by rewrite (proj2 (step_static _ _ _ Hs)).
Qed.

Lemma run_static tr s s' : run Errorf tr s = Some s' → static s' = static s ∧ length (chans s') = length (chans s).
Proof using.
  revert s. induction tr as [|a tr IH]; intros s H; cbn [run] in H; [by injection H as <-|].
  destruct (step Errorf a s) as [s1|] eqn:Hs; [|done]. destruct (step_static _ _ _ Hs) as [H1 H2].
  destruct (IH s1 H) as [H3 H4]. split; congruence.
Qed.

Lemma static_started cs caps : static (started cs caps) = cs.
Proof using.
  unfold static, started. cbn. rewrite <- list_fmap_compose.
  induction cs as [|[[k ch] m] cs IH]; [done|]. cbn. by rewrite IH.
Qed.

Lemma started_extend cs cs' caps caps' : started (cs ++ cs') (caps ++ caps') =
  extend ((λ '(k, ch, m), mkCall k ch m CStart 0 None None) <$> cs') ((λ n, mkChan n []) <$> caps') (started cs caps).
Proof using. unfold started, extend. cbn. by rewrite !fmap_app. Qed.

Lemma run_then tr tr' s : run Errorf (tr ++ tr') s = (s1 ← run Errorf tr s; run Errorf tr' s1).
Proof using.
  revert s. induction tr as [|a tr IH]; intros s; [done|]. cbn. destruct (step Errorf a s); [|done]. apply IH.
Qed.

(** ** A program's client is one whose calls were there from the start *)

(** [s] is what the steps [tr] make of a client with the calls it has now. *)
Definition reaches (tr : list action) (s : sys) : Prop := ∃ caps,
  run Errorf tr (started (static s) caps) = Some s ∧ private (static s) caps ∧ length caps = length (chans s).

Lemma reaches_extend tr s cs caps' : reaches tr s →
  let s' := extend ((λ '(k, ch, m), mkCall k ch m CStart 0 None None) <$> cs) ((λ n, mkChan n []) <$> caps') s in
  Forall (λ x, x.1.1 = KGo ∨ (length (chans s) ≤ x.1.2)%nat) cs →
  (∀ caps, private (static s) caps → length caps = length (chans s) → private (static s ++ cs) (caps ++ caps')) →
  reaches tr s'.
Proof using.
  intros (caps & Hr & Hp & Hl) s' Hap Hp'. exists (caps ++ caps').
  assert (static s' = static s ++ cs) as ->.
  { unfold static, s', extend. cbn. rewrite fmap_app. f_equal. rewrite <- list_fmap_compose.
    clear. induction cs as [|[[k ch] m] cs IH]; [done|]. cbn. by rewrite IH. }
  split_and!; [|by apply Hp'|unfold s', extend; cbn; by rewrite !length_app, Hl, length_fmap].
  rewrite started_extend. apply run_extend; [|done]. unfold apart. cbn. rewrite length_fmap, Hl.
  apply Forall_fmap. eapply Forall_impl; [exact Hap|]. by intros [[k ch] m].
Qed.

Lemma reaches_step tr a s s' : reaches tr s → step Errorf a s = Some s' → reaches (tr ++ [a]) s'.
Proof using.
  intros (caps & Hr & Hp & Hl) Hs. destruct (step_static _ _ _ Hs) as [Hst Hch]. exists caps. rewrite Hst, Hch.
  split_and!; [|done|done]. rewrite run_then, Hr. cbn. by rewrite Hs.
Qed.

(** One more call on a channel that no [Call] has. *)
Lemma private_snoc cs caps caps' k ch m : private cs caps → (ch < length caps + length caps')%nat →
  (∀ x, x ∈ cs → x.1.2 = ch → k = KGo ∧ x.1.1 = KGo) → private (cs ++ [(k, ch, m)]) (caps ++ caps').
Proof using.
  intros [H1 H2] Hch Hn. split.
  - intros t x Hx. rewrite length_app. apply lookup_snoc_Some in Hx as [[_ Hx]|[_ <-]]; [|done].
    specialize (H1 _ _ Hx). lia.
  - intros t t' x x' Hx Hx' Hk Hd.
    apply lookup_snoc_Some in Hx as [[Hl Hx]|[Hl <-]]; apply lookup_snoc_Some in Hx' as [[Hl' Hx']|[Hl' <-]].
    + by eapply H2.
    + cbn in Hd. destruct (Hn x) as [_ ?]; [by eapply list_elem_of_lookup_2|done|congruence].
    + cbn in Hk, Hd. destruct (Hn x') as [? _]; [by eapply list_elem_of_lookup_2|done|congruence].
    + congruence.
Qed.

Lemma private_nil caps caps' cs : private cs caps → private (cs ++ []) (caps ++ caps').
Proof using.
  rewrite app_nil_r. intros [H1 H2]. split; [|done]. intros t x Hx. rewrite length_app. specialize (H1 t x Hx). lia.
Qed.

Lemma static_elem x s : x ∈ static s → ∃ c, c ∈ calls s ∧ x = (c_kind c, dch c, c_method c).
Proof using. intros (c & -> & Hc)%list_elem_of_fmap. by exists c. Qed.

(** A call on a channel of its own. *)
Lemma reaches_own tr s k m n : reaches tr s → reaches tr (arrive k (length (chans s)) m (make_chan n s)).
Proof using.
  intros H. apply (reaches_extend tr s [(k, length (chans s), m)] [n] H).
  - apply Forall_singleton. by right.
  - intros caps Hp Hl. apply private_snoc; [done|cbn; lia|]. intros x (i & Hi)%list_elem_of_lookup Hx.
    pose proof (proj1 Hp i x Hi). lia.
Qed.

Lemma arrive_extend k ch m s : arrive k ch m s = extend [mkCall k ch m CStart 0 None None] [] s.
Proof using. unfold arrive, extend. by rewrite app_nil_r. Qed.

Lemma make_chan_extend n s : make_chan n s = extend [] [mkChan n []] s.
Proof using. unfold make_chan, extend. by rewrite app_nil_r. Qed.

Lemma xstep_reaches tr x s s' : reaches tr s → xstep Errorf x s = Some s' → reaches (tr ++ steps [x]) s'.
Proof using.
  intros H Hx. destruct x as [n|m [ch|]|m| |a]; cbn [xstep steps omap list_omap] in Hx |- *; rewrite ?app_nil_r.
  - injection Hx as <-. rewrite make_chan_extend. apply (reaches_extend tr s [] [n] H); [done|].
    intros caps Hp _. by apply private_nil.
  - unfold nameable, Go in Hx. case_bool_decide as Hn; [|done]. destruct (chans s !! ch) as [y|] eqn:Hch; [|done].
    case_bool_decide; [done|]. injection Hx as <-. rewrite arrive_extend.
    apply (reaches_extend tr s [(KGo, ch, m)] [] H); [apply Forall_singleton; by left|].
    intros caps Hp Hl. apply lookup_lt_Some in Hch. apply private_snoc; [done|cbn; lia|].
    intros x (c & Hc & ->)%static_elem Hd. cbn in Hd |- *. split; [done|].
    rewrite Forall_forall in Hn. by destruct (Hn c Hc).
  - injection Hx as <-. by apply reaches_own.
  - unfold Call, Go in Hx. cbn [make_chan chans] in Hx. rewrite lookup_app_r, Nat.sub_diag in Hx by done.
    injection Hx as <-. by apply reaches_own.
  - by destruct (mu_held s); simplify_eq.
  - by apply reaches_step with (s := s).
Qed.

Lemma steps_app tr1 tr2 : steps (tr1 ++ tr2) = steps tr1 ++ steps tr2.
Proof using. apply omap_app. Qed.

Lemma xrun_reaches tr0 tr s s' : reaches tr0 s → xrun Errorf tr s = Some s' → reaches (tr0 ++ steps tr) s'.
Proof using.
  revert tr0 s. induction tr as [|x tr IH]; intros tr0 s H Hr; cbn [xrun] in Hr.
  - injection Hr as <-. cbn. by rewrite app_nil_r.
  - destruct (xstep Errorf x s) as [s1|] eqn:Hs; [|done]. pose proof (xstep_reaches _ _ _ _ H Hs) as H1.
    change (x :: tr) with ([x] ++ tr). rewrite (steps_app [x] tr), app_assoc. by eapply IH.
Qed.

Lemma new_reaches : reaches [] new.
Proof using. exists []. split_and!; [done| |done]. split; intros t; by destruct t. Qed.

Lemma api_reaches tr s : xrun Errorf tr new = Some s → reaches (steps tr) s.
Proof using. exact (xrun_reaches [] tr new s new_reaches). Qed.

Lemma reaches_inv tr s : Z.of_nat (length (calls s)) < 2 ^ 64 - 1 → reaches tr s → api_inv s.
Proof using.
  intros Hn (caps & Hr & Hp & _). assert (inv (started (static s) caps)) as H0.
  { apply client_started_inv. unfold static. by rewrite length_fmap. }
  split.
  - by eapply client_run_inv.
  - revert Hr. pose proof (started_call _ _ Hp) as Hc. revert H0 Hc. generalize (started (static s) caps).
    induction tr as [|a tr IH]; intros s0 H0 Hc Hr; cbn [run] in Hr; [by injection Hr as <-|].
    destruct (step Errorf a s0) as [s1|] eqn:E; [|done]. eapply IH; [by eapply client_step_inv| |done].
    apply step_split in E as [E|E]; [by eapply caller_call|by eapply recv_call].
  - eapply run_reply; [exact H0|apply started_reply|exact Hr].
Qed.

(** ** A full channel *)

Lemma done_on_full c cs chs r d ch : done_on c cs chs = Some r → chs !! d = Some ch →
  (cap ch ≤ length (items ch))%nat → r !! d = Some ch ∧ ∃ x, cs !! c = Some x ∧ dch x ≠ d.
Proof using.
  intros H Hd Hfull. unfold done_on in H. destruct (cs !! c) as [x|] eqn:Hx; [|done]. cbn [mbind option_bind] in H.
  destruct (chs !! dch x) as [y|] eqn:Hy; [|done]. cbn [mbind option_bind] in H.
  case_bool_decide as Hlt; [|done]. injection H as <-.
  assert (dch x ≠ d) as Hne by (intros <-; simplify_eq; lia).
  split; [by rewrite list_lookup_insert_ne|by exists x].
Qed.

Lemma recv_from_other ch chs c r d : recv_from ch chs = Some (c, r) → ch ≠ d → r !! d = chs !! d.
Proof using. intros H Hne. unfold recv_from in H. step_cases H. by rewrite list_lookup_insert_ne. Qed.

(** The calls stay, with their channels; the ones that have not begun do not. *)
Definition waits (cs cs' : list Client.Call) : Prop := ∀ u c, cs !! u = Some c → ∃ c', cs' !! u = Some c' ∧
  c_kind c' = c_kind c ∧ dch c' = dch c ∧ (c_pc c = CStart → c_pc c' = CStart).

Lemma waits_set cs u c c' : cs !! u = Some c → c_kind c' = c_kind c → dch c' = dch c →
  (c_pc c = CStart → c_pc c' = CStart) → waits cs (<[u := c']> cs).
Proof using.
  intros Hc H1 H2 H3 v x Hx. rewrite (lookup_set _ _ _ _ _ Hc). case_decide as Huv; [subst v; simplify_eq|].
  - by exists c'.
  - by exists x.
Qed.

Lemma waits_refl cs : waits cs cs.
Proof using. intros u c Hc. by exists c. Qed.

Lemma waits_trans cs1 cs2 cs3 : waits cs1 cs2 → waits cs2 cs3 → waits cs1 cs3.
Proof using.
  intros H1 H2 u c Hc. destruct (H1 u c Hc) as (c2 & Hc2 & ? & ? & ?).
  destruct (H2 u c2 Hc2) as (c3 & Hc3 & ? & ? & ?). exists c3. split_and!; [done|congruence|congruence|auto].
Qed.

Lemma jammed_next t d s s' : jammed t d s → (∃ e todo, recv s' = RNotify e todo ∧ t ∈ todo) →
  sending s' = sending s → mu_held s' = mu_held s → (∀ ch, chans s !! d = Some ch → chans s' !! d = Some ch) →
  waits (calls s) (calls s') → jammed t d s'.
Proof using.
  intros [_ Hs Hm (c & Hc & Hk & Hd) (ch & Hch & Hf)] Hr Hs' Hm' Hch' Hw. split; [done|by rewrite Hs'|by rewrite Hm'| |].
  - destruct (Hw t c Hc) as (c' & Hc' & Hk' & Hd' & _). exists c'. split_and!; [done|congruence|congruence].
  - exists ch. split; [by apply Hch'|done].
Qed.

(** Nothing that needs one of the locks happens, and what is done leaves the
    channel full. *)
Lemma jammed_step t d a s s' : api_inv s → jammed t d s → step Errorf a s = Some s' → a ≠ AUser d →
  jammed t d s' ∧ a ≠ AClose ∧ (∀ u e, a ≠ ACtxDone u e) ∧ waits (calls s) (calls s').
Proof using.
  intros [Hi Hci _] Hj H Ha. pose proof (jammed_next t d s s' Hj) as Hnext.
  destruct Hj as [(e & todo & Hrv & Hin) Hsnd Hmu (ct & Hct & Hkind & Hd) (ch & Hch & Hfull)].
  pose proof (li_caller _ (inv_locks _ Hi)) as Hholds. pose proof (kc_priv _ Hci) as Hpriv.
  pose proof (kc_wait _ Hci) as Hwait. pose proof (kc_popped _ Hci) as Hpop. pose proof (kc_select _ Hci) as Hsel.
  apply step_split in H. destruct s as [k snd held cs chs rv lg hd wr]. cbn in *. subst snd held rv.
  assert (∀ u c, cs !! u = Some c → c_kind c = KCall → dch c ≠ d) as Hother.
  { intros u c Hc Hk Heq. assert (t = u) as -> by (eapply (Hpriv u t c ct); congruence). congruence. }
  destruct H as [H|H]; destruct a; cbn in H; try done; step_cases H.
  all: try (exfalso; by specialize (Hholds _ _ Heqo ltac:(by rewrite Heqc0))).
  - assert (waits cs (<[t0 := set_pc (CSelect n) c]> cs)) as Hw by (apply (waits_set cs t0 c); cbn; congruence).
    split_and!; try done. apply Hnext; eauto. intros x Hx. rewrite (recv_from_other _ _ _ _ _ Heqo0); [done|].
    eapply Hother; eauto.
  - assert (waits cs (<[t0 := set_pc (CRet (cErr c2)) c]> cs)) as Hw by (apply (waits_set cs t0 c); cbn; congruence).
    split_and!; try done. apply Hnext; eauto. intros x Hx. rewrite (recv_from_other _ _ _ _ _ Heqo1); [done|].
    assert (c0 = t0) as -> by (by eapply Hsel). simplify_eq. eapply Hother; [done|]. eapply (Hpop t0); [done|by at_pc].
  - destruct (done_on_full _ _ _ _ _ _ Heqo1 Hch Hfull) as [Hl (y & Hy & Hne)].
    assert (t ≠ n) as Htn.
    { intros <-. rewrite (lookup_set _ _ _ _ _ Heqo0), decide_True in Hy by done. injection Hy as <-.
      cbn in Hne. congruence. }
    assert (waits cs (<[n := set_err (Some e) c]> cs)) as Hw by (by apply (waits_set cs n c)).
    split_and!; try done. apply Hnext; eauto.
    + exists e, (delete i todo). split; [done|]. apply list_elem_of_lookup in Hin as [j Hj].
      apply (elem_of_delete_other _ _ _ _ _ Hj Heqo). congruence.
    + intros x Hx. simplify_eq. done.
  - by apply elem_of_nil in Hin.
  - split_and!; try done; [|apply waits_refl]. apply Hnext; eauto; [|apply waits_refl].
    intros x Hx. rewrite (recv_from_other _ _ _ _ _ Heqo); [done|]. congruence.
Qed.

(** The calls of [s] stay, and later ones have not begun. *)
Definition stalls (s s' : sys) : Prop := waits (calls s) (calls s') ∧
  ∀ u c, calls s' !! u = Some c → (length (calls s) ≤ u)%nat → c_pc c = CStart.

Lemma waits_length cs cs' : waits cs cs' → (length cs ≤ length cs')%nat.
Proof using.
  intros H. apply Nat.nlt_ge. intros Hlt. destruct (lookup_lt_is_Some_2 cs (length cs') Hlt) as [c Hc].
  destruct (H _ _ Hc) as (c' & Hc' & _). apply lookup_lt_Some in Hc'. lia.
Qed.

Lemma stalls_trans s1 s2 s3 : stalls s1 s2 → stalls s2 s3 → stalls s1 s3.
Proof using.
  intros [H1 H2] [H3 H4]. split; [by eapply waits_trans|]. intros u c Hc Hu.
  destruct (decide (length (calls s2) ≤ u)%nat) as [Hge|Hlt]; [by eapply H4|].
  destruct (lookup_lt_is_Some_2 (calls s2) u) as [c2 Hc2]; [lia|]. destruct (H3 u c2 Hc2) as (c' & Hc' & _ & _ & Hs).
  simplify_eq. apply Hs. by eapply H2.
Qed.

Lemma stalls_arrive cs s s' : calls s' = (calls s ++ cs)%list → Forall (λ c, c_pc c = CStart) cs → stalls s s'.
Proof using.
  intros Hc Hcs. unfold stalls. rewrite Hc. split.
  - intros u c Hu. exists c. by rewrite (lookup_app_l_Some _ _ _ _ Hu).
  - intros u c Hu Hge. rewrite lookup_app_r in Hu by done. rewrite Forall_lookup in Hcs. by eapply Hcs.
Qed.

Lemma jammed_arrive t d s s' cs chs : jammed t d s → s' = extend cs chs s → Forall (λ c, c_pc c = CStart) cs →
  jammed t d s' ∧ stalls s s'.
Proof using.
  intros Hj -> Hcs. assert (stalls s (extend cs chs s)) as Hst by by apply (stalls_arrive cs).
  split; [|done]. apply (jammed_next t d s); [done|apply Hj|done|done| |apply Hst].
  intros ch Hch. cbn. by rewrite (lookup_app_l_Some _ _ _ _ Hch).
Qed.

Definition needs_lock (x : xaction) : bool :=
  match x with XAvailable | XStep AClose | XStep (ACtxDone _ _) => true | _ => false end.

Lemma jammed_xstep t d x s s' : api_inv s → jammed t d s → xstep Errorf x s = Some s' → x ≠ XStep (AUser d) →
  jammed t d s' ∧ needs_lock x = false ∧ stalls s s'.
Proof using.
  intros Hi Hj H Hx. assert (∀ k ch m, Forall (λ c, c_pc c = CStart) [mkCall k ch m CStart 0 None None]) as Hnew
    by (intros; by apply Forall_singleton).
  destruct x as [n|m [ch|]|m| |a]; cbn [xstep] in H.
  - injection H as <-. destruct (jammed_arrive t d s _ [] _ Hj (make_chan_extend n s) (Forall_nil_2 _)). done.
  - destruct (nameable (Some ch) s); [|done]. unfold Go in H. destruct (chans s !! ch); [|done].
    case_bool_decide; [done|]. injection H as <-.
    by destruct (jammed_arrive t d s _ _ _ Hj (arrive_extend KGo ch m s) (Hnew _ _ _)).
  - injection H as <-. by destruct (jammed_arrive t d s _ [_] [mkChan 10 []] Hj eq_refl (Hnew KGo (length (chans s)) m)).
  - unfold Call, Go in H. cbn [make_chan chans] in H. rewrite lookup_app_r, Nat.sub_diag in H by done.
    injection H as <-. by destruct (jammed_arrive t d s _ [_] [mkChan 1 []] Hj eq_refl (Hnew KCall (length (chans s)) m)).
  - destruct Hj as [_ _ Hm _ _]. by rewrite Hm in H.
  - assert (a ≠ AUser d) as Ha by congruence. destruct (jammed_step t d a s s' Hi Hj H Ha) as (Hj' & Hc & Hx' & Hw).
    split_and!; [done|by destruct a; try done; by destruct (Hx' t0 e)|]. split; [done|]. intros u c Hu Hge.
    apply lookup_lt_Some in Hu. rewrite (step_size Errorf a s s' H) in Hu. lia.
Qed.

Lemma xstep_size x s s' : xstep Errorf x s = Some s' → (length (calls s) ≤ length (calls s'))%nat.
Proof using.
  intros H. destruct x as [n|m done|m| |a]; cbn [xstep] in H.
  - by injection H as <-.
  - destruct (nameable done s); [|done]. destruct done as [ch|]; cbn [Go] in H.
    + destruct (chans s !! ch); [|done]. case_bool_decide; [done|]. injection H as <-. cbn. rewrite length_app. lia.
    + injection H as <-. cbn. rewrite length_app. lia.
  - unfold Call, Go in H. destruct (chans _ !! _); [|done]. case_bool_decide; [done|]. injection H as <-. cbn.
    rewrite length_app. lia.
  - by destruct (mu_held s); simplify_eq.
  - by rewrite (step_size Errorf a s s' H).
Qed.

Lemma xrun_size tr s s' : xrun Errorf tr s = Some s' → (length (calls s) ≤ length (calls s'))%nat.
Proof using.
  revert s. induction tr as [|x tr IH]; intros s H; cbn [xrun] in H; [by injection H as <-|].
  destruct (xstep Errorf x s) as [s1|] eqn:Hs; [|done]. apply xstep_size in Hs. specialize (IH s1 H). lia.
Qed.

Lemma jammed_run t d tr0 tr s s' : Z.of_nat (length (calls s')) < 2 ^ 64 - 1 → reaches tr0 s → jammed t d s →
  xrun Errorf tr s = Some s' → XStep (AUser d) ∉ tr → jammed t d s' ∧ forallb (λ x, negb (needs_lock x)) tr ∧ stalls s s'.
Proof using.
  revert tr0 s. induction tr as [|x tr IH]; intros tr0 s Hn Hr Hj H Hd; cbn [xrun] in H.
  - injection H as <-. split_and!; [done|done|]. apply (stalls_arrive []); [by rewrite app_nil_r|constructor].
  - destruct (xstep Errorf x s) as [s1|] eqn:Hs; [|done]. apply not_elem_of_cons in Hd as [Hx Hd].
    pose proof (xstep_size _ _ _ Hs) as Hl1. pose proof (xrun_size _ _ _ H) as Hl2.
    assert (api_inv s) as Hi by (eapply reaches_inv; [lia|done]).
    destruct (jammed_xstep t d x s s1 Hi Hj Hs (not_eq_sym Hx)) as (Hj1 & Hl & Hst).
    destruct (IH _ s1 Hn (xstep_reaches _ _ _ _ Hr Hs) Hj1 H Hd) as (Hj' & Hall & Hst').
    split_and!; [done| |by eapply stalls_trans]. cbn. by rewrite Hl.
Qed.
End proofs.

(** ** Properties *)

(** C13: whatever a program does with a client - calls through [Go] and [Call] at
    any time, on any channels, [Close], receives from the channels it made -
    and whatever the interleaving and the failures of the codec, [done] is
    called at most once on every call, and exactly once on every call once the
    receiver has ended and nobody is inside [send]; and a call that is done
    without an error has the body of a response that carries the call's own
    number, which no other call has. *)
Theorem calls_complete_once Errorf tr s :
  xrun Errorf tr new = Some s → Z.of_nat (length (calls s)) < 2 ^ 64 - 1 →
  NoDup (done_log s) ∧
  (recv s = REnd → (∀ t c, calls s !! t = Some c → caller_places t c = []) →
   done_log s ≡ₚ List.seq 0 (length (calls s))) ∧
  ∀ t c, t ∈ done_log s → calls s !! t = Some c → cErr c = None →
    ∃ h body, (h, body) ∈ heard s ∧ cReply c = Some body ∧ Seq h = cSeq c ∧ Error h = ""%string ∧
      ∀ t' c', calls s !! t' = Some c' → cSeq c' = Seq h → t' = t.
Proof.
  intros Hr Hn. destruct (api_reaches Errorf tr s Hr) as (caps & Hrun & _ & _).
  assert (length (static s) = length (calls s)) as Hlen by apply length_fmap. rewrite <- Hlen in Hn |- *.
  destruct (done_exactly_once Errorf (static s) caps (steps tr) s Hn Hrun) as [H1 H2].
  split_and!; [done|done|]. intros t c. by apply (reply_is_for_its_call Errorf (static s) caps (steps tr)).
Qed.

(** C28: Call never returns the outcome of its call: it takes the completed call off
    its channel and then waits for it a second time, so it only returns when
    its context ends, with the error of that, also after a successful reply; a
    call whose context never ends does not return. *)
Theorem Call_returns_only_context Errorf tr s t c err :
  xrun Errorf tr new = Some s → Z.of_nat (length (calls s)) < 2 ^ 64 - 1 →
  calls s !! t = Some c → c_pc c = CRet err →
  ∃ e, XStep (ACtxDone t e) ∈ tr ∧ err = Some ("rpc client:call failed: " +:+ e).
Proof.
  intros Hr Hn Hc Hp. destruct (api_reaches Errorf tr s Hr) as (caps & Hrun & Hpriv & _).
  assert (length (static s) = length (calls s)) as Hlen by apply length_fmap. rewrite <- Hlen in Hn.
  destruct (Call_returns_ctx Errorf _ _ _ _ _ _ _ Hn Hpriv Hrun Hc Hp) as (e & He & ->). exists e. split; [|done].
  apply list_elem_of_omap in He as ([| | | |a] & Hin & Ha); try done. by injection Ha as <-.
Qed.

(** C29: a full channel blocks the client for good: [terminateCalls] calls [done]
    while it holds both mutexes.  If the connection ends while a channel that
    a program has given to [Go] is full, and a call on it is pending, then
    until somebody receives from that channel nothing that needs a mutex
    happens: [Close] and [IsAvailable] do not return, no [Call] returns even
    when its context ends, and every call that had not begun, or is made
    later, stays at the start of [send]. *)
Theorem full_channel_blocks_client Errorf tr tr' s s' e todo t c ch :
  xrun Errorf tr new = Some s → recv s = RNotify e todo → t ∈ todo →
  calls s !! t = Some c → c_kind c = KGo → chans s !! dch c = Some ch → (cap ch ≤ length (items ch))%nat →
  xrun Errorf tr' s = Some s' → Z.of_nat (length (calls s')) < 2 ^ 64 - 1 → XStep (AUser (dch c)) ∉ tr' →
  (∃ e todo, recv s' = RNotify e todo ∧ t ∈ todo) ∧
  Forall (λ x, needs_lock x = false) tr' ∧
  ∀ u x, calls s' !! u = Some x →
    ((length (calls s) ≤ u)%nat ∨ ∃ x0, calls s !! u = Some x0 ∧ c_pc x0 = CStart) → c_pc x = CStart.
Proof.
  intros Hr Hrv Hin Hc Hk Hch Hfull Hr' Hn Hu. pose proof (api_reaches Errorf tr s Hr) as Hreach.
  assert (api_inv s) as Hi by (eapply reaches_inv; [pose proof (xrun_size _ _ _ _ Hr'); lia|exact Hreach]).
  pose proof (inv_locks _ (ai_inv _ Hi)) as Hl.
  assert (jammed t (dch c) s) as Hj.
  { split; [by exists e, todo|apply (li_recv _ Hl); by rewrite Hrv|by rewrite (li_mu _ Hl), Hrv|by exists c|by exists ch]. }
  destruct (jammed_run Errorf t (dch c) _ tr' s s' Hn Hreach Hj Hr' Hu) as (Hj' & Hall & Hw & Hnew).
  split_and!; [apply Hj'| |].
  - apply Forall_forall. intros x Hx. apply Is_true_eq_true in Hall. rewrite forallb_forall in Hall.
    apply list_elem_of_In, Hall in Hx. by apply negb_true_iff.
  - intros u x Hx [Hge|(x0 & Hx0 & Hp)]; [by eapply Hnew|].
    destruct (Hw u x0 Hx0) as (x' & Hx' & _ & _ & Hs). simplify_eq. by apply Hs.
Qed.

(** ** Witnesses *)

(** Two calls on a channel of the program with room for one, and a [Call]; the
    responses to the first and the last come back, then the connection ends. *)
Definition demo_program : list xaction :=
  [XMake 1; XGo "Foo.Sum" (Some 0%nat)] ++ (XStep <$> [ALock 0; ARegister 0; AWrite 0 None; AUnlock 0]) ++
  [XGo "Foo.Mul" (Some 0%nat); XCall "Foo.Div"] ++
  (XStep <$> [ALock 1; ARegister 1; AWrite 1 None; AUnlock 1; ALock 2; ARegister 2; AWrite 2 None; AUnlock 2;
     AHeader (inl (mkHeader "Foo.Div" 3 "")); ALookup; ABody (inl "2"%string); ARecvDone;
     AHeader (inl (mkHeader "Foo.Sum" 1 "")); ALookup; ABody (inl "5"%string); ARecvDone;
     AFirst 2; ACtxDone 2 "deadline"; AHeader (inr "EOF"%string); ATermLock]).

Abbreviation demo_client := (xrun id demo_program new).

Example unbuffered_channel : ∃ s, xstep id (XMake 0) new = Some s ∧
  Go KGo "Foo.Sum" (Some 0%nat) s = Panic "rpc client: done channel is unbuffered".
Proof. eexists. split; reflexivity. Qed.

Lemma demo_client_state : ∃ s, demo_client = Some s ∧ done_log s = [2; 0]%nat ∧ recv s = RNotify "EOF" [1%nat] ∧
  (c_pc <$> calls s) = [CGone; CGone; CRet (Some "rpc client:call failed: deadline"%string)] ∧
  (cErr <$> calls s) = [None; None; None] ∧ (cReply <$> calls s) = [Some "5"; None; Some "2"]%string ∧
  (∃ c ch, calls s !! 1%nat = Some c ∧ c_kind c = KGo ∧ dch c = 0%nat ∧ chans s !! 0%nat = Some ch ∧
    (cap ch ≤ length (items ch))%nat).
Proof.
  eexists. split; [vm_compute; reflexivity|]. split_and!; try reflexivity. do 2 eexists. by split_and!.
Qed.

Lemma calls_complete_once_witness : ∃ s c h body, demo_client = Some s ∧ NoDup (done_log s) ∧
  calls s !! 2%nat = Some c ∧ (h, body) ∈ heard s ∧ cReply c = Some body ∧ Seq h = cSeq c.
Proof.
  destruct demo_client_state as (s & Hr & Hd & _ & Hp & He & _).
  destruct (calls s !! 2%nat) as [c|] eqn:Hc; [|apply (f_equal (lookup 2%nat)) in Hp; rewrite list_lookup_fmap, Hc in Hp; discriminate Hp].
  assert (cErr c = None) as Hce.
  { apply (f_equal (lookup 2%nat)) in He. rewrite list_lookup_fmap, Hc in He. by injection He. }
  assert (length (calls s) = 3%nat) as Hl by (apply (f_equal length) in Hp; by rewrite length_fmap in Hp).
  destruct (calls_complete_once id demo_program s Hr) as (Hnd & _ & Hrep); [rewrite Hl; reflexivity|].
  destruct (Hrep 2%nat c) as (h & body & Hh & Hb & Hs & _); [rewrite Hd; left|exact Hc|exact Hce|].
  exists s, c, h, body. split; [exact Hr|]. split; [exact Hnd|]. split; [exact Hc|]. split; [exact Hh|]. split; [exact Hb|exact Hs].
Defined.

Lemma Call_returns_only_context_witness : ∃ e, XStep (ACtxDone 2 e) ∈ demo_program ∧
  Some "rpc client:call failed: deadline"%string = Some ("rpc client:call failed: " +:+ e).
Proof.
  destruct demo_client_state as (s & Hr & _ & _ & Hp & _).
  destruct (calls s !! 2%nat) as [c|] eqn:Hc; [|apply (f_equal (lookup 2%nat)) in Hp; rewrite list_lookup_fmap, Hc in Hp; discriminate Hp].
  assert (length (calls s) = 3%nat) as Hl by (apply (f_equal length) in Hp; by rewrite length_fmap in Hp).
  apply (f_equal (lookup 2%nat)) in Hp. rewrite list_lookup_fmap, Hc in Hp. injection Hp as Hp.
  apply (Call_returns_only_context id demo_program s 2 c _ Hr); [rewrite Hl; reflexivity|exact Hc|exact Hp].
Defined.

(** A program that then makes two more calls, and a channel. *)
Definition more_calls : list xaction := [XGo "Foo.Sum" None; XCall "Foo.Sum"; XMake 1].

Lemma full_channel_blocks_client_witness : ∃ s s' x, demo_client = Some s ∧
  xrun id more_calls s = Some s' ∧ calls s' !! 4%nat = Some x ∧ c_pc x = CStart.
Proof.
  destruct demo_client_state as (s & Hr & _ & Hrv & _ & _ & _ & c & ch & Hc & Hk & Hd & Hch & Hf).
  assert ((λ s, (λ s', (c_pc <$> calls s' !! 4%nat, length (calls s'), length (calls s))) <$> xrun id more_calls s)
    <$> demo_client = Some (Some (Some CStart, 5%nat, 3%nat))) as H by (vm_compute; reflexivity).
  rewrite Hr in H. cbn [fmap option_fmap option_map] in H. apply (inj Some) in H.
  destruct (xrun id more_calls s) as [s'|] eqn:Hr'; [|discriminate H]. cbn in H. injection H as H Hl Hl3.
  destruct (calls s' !! 4%nat) as [x|] eqn:Hx; [|discriminate H].
  exists s, s', x. split; [exact Hr|]. split; [exact Hr'|]. split; [exact Hx|]. rewrite <- Hd in Hch.
  apply (full_channel_blocks_client id demo_program more_calls s s' "EOF" [1%nat] 1 c ch Hr Hrv ltac:(left) Hc Hk Hch Hf Hr'
    ltac:(rewrite Hl; reflexivity) ltac:(unfold more_calls; set_solver)) with (u := 4%nat) (x := x); [exact Hx|].
  left. rewrite Hl3. lia.
Defined.
