(* ===== verification/Service.v ===== *)
(** * geerpc: services and their methods

    Models [src/geerpc/service.go]: which methods of a receiver are published,
    how the argument and the reply of a call are made, and the call counter.
    A reflected type is what the code asks of it: its name, its package path,
    its kind and, for pointers, maps and slices, its element.  The methods of a
    type are known by their reflected signatures. *)

From S2P Require Import Prelude GoStrings.

(** ** Reflected types *)

Inductive rtype := RType (name pkg : string) (kind : rkind)
with rkind :=
  | Ptr (elem : rtype) | Map (elem : rtype) | Slice (elem : rtype) | Array (elem : rtype)
  | Chan (elem : rtype) | Plain.

Definition Name (t : rtype) : string := let '(RType n _ _) := t in n.
Definition PkgPath (t : rtype) : string := let '(RType _ p _) := t in p.
Definition Kind (t : rtype) : rkind := let '(RType _ _ k) := t in k.

(** [t.Elem()] panics for a kind without elements. *)
Definition Elem (t : rtype) : outcome rtype :=
  match Kind t with
  | Ptr e | Map e | Slice e | Array e | Chan e => Ret e
  | Plain => Panic ("reflect: Elem of invalid type " +:+ Name t)
  end.

(** The built-in type [error]. *)
Definition error_type : rtype := RType "error" "" Plain.

Fixpoint rtype_eqb (a b : rtype) : bool :=
  match a, b with RType n p k, RType n' p' k' =>
    bool_decide (n = n') && bool_decide (p = p') && rkind_eqb k k'
  end
with rkind_eqb (a b : rkind) : bool :=
  match a, b with
  | Ptr a, Ptr b | Map a, Map b | Slice a, Slice b | Array a, Array b | Chan a, Chan b => rtype_eqb a b
  | Plain, Plain => true
  | _, _ => false
  end.

(** A reflected method: its name and its signature, the receiver first. *)
Record rmethod := mkMethod { m_name : string; m_in : list rtype; m_out : list rtype }.

Section Service.
(** [unicode.IsUpper] of the first character of a name, when it is not ASCII. *)
Context (upper : string → bool).

(** [ast.IsExported] *)
Definition IsExported (name : string) : bool :=
  match name with
  | "" => false
  | String a _ => if bool_decide (code a < 128) then in_range 65 90 a else upper name
  end%string.

Definition IsExportedOrBuildinType (t : rtype) : bool :=
  IsExported (Name t) || bool_decide (PkgPath t = ""%string).

(** ** Methods *)

Record methodType := mkMethodType {
  method : rmethod; ArgType : rtype; ReplyType : rtype; numCalls : Z }.

Definition NumCalls (m : methodType) : Z := numCalls m.

(** A fresh value: a pointer to a zero value, map or slice, or a zero value
    that has an address. *)
Inductive rvalue :=
  | NewPtr (t : rtype) | NewPtrMap (t : rtype) | NewPtrSlice (t : rtype) | Zero (t : rtype).

Definition newArgv (m : methodType) : outcome rvalue :=
  match Kind (ArgType m) with
  | Ptr _ => let! e := Elem (ArgType m) in Ret (NewPtr e)
  | _ => Ret (Zero (ArgType m))
  end.

Definition newReplyv (m : methodType) : outcome rvalue :=
  let! e := Elem (ReplyType m) in
  match Kind e with
  | Map _ => Ret (NewPtrMap e)
  | Slice _ => Ret (NewPtrSlice e)
  | _ => Ret (NewPtr e)
  end.

(** ** Services *)

Record service := mkService { s_name : string; typ : list rmethod; methods : gmap string methodType }.

(** The body of the loop of [registerMethods] for one method. *)
Definition register_one (ms : gmap string methodType) (m : rmethod) : gmap string methodType :=
  match m_in m, m_out m with
  | [_; argType; replyType], [out] =>
      if negb (rtype_eqb out error_type) then ms
      else if negb (IsExportedOrBuildinType argType) || negb (IsExportedOrBuildinType replyType)
      then ms
      else <[m_name m := mkMethodType m argType replyType 0]> ms
  | _, _ => ms
  end.

Definition registerMethods (ms : list rmethod) : gmap string methodType := foldl register_one ∅ ms.

(** [newService] on a receiver of the named type with these methods;
    [log.Fatalf] ends the process. *)
Definition newService (name : string) (ms : list rmethod) : outcome service :=
  if negb (IsExported name)
  then Panic ("rpc server: " +:+ name +:+ " is not a valid service name")
  else Ret (mkService name ms (registerMethods ms)).

(** [s.call]: the counter; the method is code of the user, [f] its result. *)
Definition call {A} (m : methodType) (f : A → error) (args : A) : error * methodType :=
  (f args, mkMethodType (method m) (ArgType m) (ReplyType m) (u64 (numCalls m + 1))).

(** ** Specification *)

(** A method the code publishes, and the types of its argument and reply. *)
Definition published (m : rmethod) (arg reply : rtype) : Prop :=
  (∃ recv, m_in m = [recv; arg; reply]) ∧ m_out m = [error_type] ∧
  IsExportedOrBuildinType arg = true ∧ IsExportedOrBuildinType reply = true.

Definition pointer_to (t : rtype) : rtype := RType "" "" (Ptr t).

(** The type of a fresh value, and what [reflect.Value.Call] asks of the value
    for a parameter: its type, or one with the same structure when one of the
    two has no name. *)
Definition type_of (v : rvalue) : rtype :=
  match v with
  | NewPtr t | NewPtrMap t | NewPtrSlice t => pointer_to t
  | Zero t => t
  end.

Definition assignable (v t : rtype) : Prop :=
  v = t ∨ (Kind v = Kind t ∧ (Name v = "" ∨ Name t = ""))%string.

(** ** Publishing *)

Lemma rtype_eqb_eq a b : rtype_eqb a b = true → a = b
with rkind_eqb_eq a b : rkind_eqb a b = true → a = b.
Proof.
  - destruct a as [n p k], b as [n' p' k']. cbn.
    intros [[H1%bool_decide_eq_true H2%bool_decide_eq_true]%andb_true_iff H3]%andb_true_iff.
    apply rkind_eqb_eq in H3. congruence.
  - destruct a, b; cbn; intros H;
      solve [discriminate H | reflexivity | rewrite (rtype_eqb_eq _ _ H); reflexivity].
Qed.

Lemma register_one_published ms m :
  (∃ arg reply, published m arg reply ∧
     register_one ms m = <[m_name m := mkMethodType m arg reply 0]> ms) ∨
  ((∀ arg reply, ¬ published m arg reply) ∧ register_one ms m = ms).
Proof.
  unfold register_one, published.
  destruct (m_in m) as [|r [|a [|b [|? ?]]]] eqn:Hin;
    try (right; split; [|done]; intros arg reply ([recv ?] & _); congruence).
  destruct (m_out m) as [|o [|? ?]] eqn:Hout;
    try (right; split; [|done]; intros arg reply (_ & ? & _); congruence).
  destruct (rtype_eqb o error_type) eqn:Ho; cbn.
  - apply rtype_eqb_eq in Ho as ->.
    destruct (IsExportedOrBuildinType a) eqn:Ha; cbn;
      [destruct (IsExportedOrBuildinType b) eqn:Hb; cbn|].
    + left. exists a, b. eauto 10.
    + right. split; [|done]. intros arg reply ([recv ?] & _ & ? & ?). congruence.
    + right. split; [|done]. intros arg reply ([recv ?] & _ & ? & ?). congruence.
  - right. split; [|done]. intros arg reply (_ & ? & _). by simplify_eq.
Qed.

Lemma registerMethods_lookup ms n mt : NoDup (m_name <$> ms) →
  registerMethods ms !! n = Some mt ↔ ∃ m arg reply, m ∈ ms ∧ m_name m = n ∧
    published m arg reply ∧ mt = mkMethodType m arg reply 0.
Proof.
  induction ms as [|m ms IH] using rev_ind; intros Hnd.
  { cbn. rewrite lookup_empty. split; [done|]. intros (m & ? & ? & Hm & _). by apply elem_of_nil in Hm. }
  rewrite fmap_app in Hnd. apply NoDup_app in Hnd as (Hnd & Hdisj & _).
  unfold registerMethods. rewrite foldl_app. cbn. fold (registerMethods ms).
  assert (∀ x, x ∈ ms → m_name x ≠ m_name m) as Hne.
  { intros x Hx Heq. apply (Hdisj (m_name x)); [by apply list_elem_of_fmap_2|]. rewrite Heq. cbn. set_solver. }
  destruct (register_one_published (registerMethods ms) m)
    as [(arg & reply & Hpub & ->)|[Hnot ->]].
  - rewrite lookup_insert_Some, (IH Hnd). split.
    + intros [[Hn Hmt]|[_ (x & a & r & Hx & ?)]].
      * exists m, arg, reply. set_solver.
      * exists x, a, r. set_solver.
    + intros (x & a & r & [Hx|Hx%list_elem_of_singleton]%elem_of_app & Hn & Hp & ->).
      * right. split; [|by exists x, a, r]. subst n. intros Heq. by apply (Hne x).
      * subst x. left. split; [done|]. destruct Hpub as ([? Hin] & _), Hp as ([? Hin'] & _).
        congruence.
  - rewrite (IH Hnd). split.
    + intros (x & a & r & Hx & ?). exists x, a, r. set_solver.
    + intros (x & a & r & [Hx|Hx%list_elem_of_singleton]%elem_of_app & Hn & Hp & ->).
      * by exists x, a, r.
      * subst x. by destruct (Hnot a r).
Qed.

(** ** Properties *)

(** Registration publishes exactly the methods with two parameters of exported
    or built-in types and one result of type error, each under its own name
    with a zero counter. *)
Theorem newService_publishes name ms s : NoDup (m_name <$> ms) → newService name ms = Ret s →
  s_name s = name ∧ IsExported name = true ∧
  ∀ n mt, methods s !! n = Some mt ↔ ∃ m arg reply, m ∈ ms ∧ m_name m = n ∧
    published m arg reply ∧ mt = mkMethodType m arg reply 0.
Proof.
  intros Hnd H. unfold newService in H. destruct (IsExported name); [|done]. cbn in H. simplify_eq.
  split_and!; [done|done|]. intros n mt. cbn [methods]. by apply registerMethods_lookup.
Qed.

(** A new reply is a pointer to an element of the parameter's type. *)
Lemma newReplyv_elem mt e : Elem (ReplyType mt) = Ret e →
  ∃ r, newReplyv mt = Ret r ∧ type_of r = pointer_to e.
Proof. unfold newReplyv. intros ->. cbn [obind]. destruct (Kind e); by eexists. Qed.

(** C40: what registration lets through, and the values that are made for a call of
    it: every method with two parameters of exported or built-in types and the
    result error is registered, whatever the kinds of its parameters.  An
    argument can always be made and is assignable to its parameter.  For a
    reply parameter of pointer type the reply is a pointer that is assignable to
    it; for a map, a slice, an array or a channel it is a pointer to an
    element, which is not, so that the call panics; for any other type making
    the reply panics. *)
Theorem values_fit_method ms m arg reply : NoDup (m_name <$> ms) → m ∈ ms → published m arg reply →
  ∃ mt, registerMethods ms !! m_name m = Some mt ∧ method mt = m ∧
  (∃ a, newArgv mt = Ret a ∧ assignable (type_of a) arg) ∧
  match Kind reply with
  | Ptr e => ∃ r, newReplyv mt = Ret r ∧ type_of r = pointer_to e ∧ assignable (type_of r) reply
  | Map e | Slice e | Array e | Chan e =>
      ∃ r, newReplyv mt = Ret r ∧ type_of r = pointer_to e ∧ ¬ assignable (type_of r) reply
  | Plain => newReplyv mt = Panic ("reflect: Elem of invalid type " +:+ Name reply)
  end.
Proof.
  intros Hnd Hm Hp. exists (mkMethodType m arg reply 0). split; [|split; [done|split]].
  - apply registerMethods_lookup; [done|]. by exists m, arg, reply.
  - destruct arg as [an ap ak]. unfold newArgv, Elem, assignable. cbn.
    destruct ak; cbn; eexists; (split; [reflexivity|]); cbn; auto.
  - pose proof (newReplyv_elem (mkMethodType m arg reply 0)) as Hnew.
    destruct reply as [rn rp [e|e|e|e|e|]]; cbn [Kind]; [..|done];
      (destruct (Hnew e eq_refl) as (r & Hr & Ht); exists r; rewrite Ht; split_and!; [exact Hr|reflexivity|]);
      unfold assignable; cbn; first [by auto | by intros [[=]|[[=] _]]].
Qed.

(** The reply parameter need not be a pointer to be published, but a method
    whose reply is of a type without elements panics when a request for it is
    read, which ends the server. *)
Theorem published_reply_panics m recv arg name :
  m_in m = [recv; arg; RType name "" Plain] → m_out m = [error_type] →
  IsExportedOrBuildinType arg = true →
  published m arg (RType name "" Plain) ∧
  newReplyv (mkMethodType m arg (RType name "" Plain) 0) =
    Panic ("reflect: Elem of invalid type " +:+ name).
Proof.
  intros Hin Hout Harg. split; [|done]. split_and!; [by eexists|done|done|].
  unfold IsExportedOrBuildinType. cbn. by rewrite orb_true_r.
Qed.
End Service.

(** ** Witnesses *)

Definition int_type : rtype := RType "int" "" Plain.
Definition args_type : rtype := RType "Args" "main" Plain.
Definition foo_type : rtype := RType "" "" (Ptr (RType "Foo" "main" Plain)).
Definition Sum : rmethod :=
  mkMethod "Sum" [foo_type; args_type; RType "" "" (Ptr int_type)] [error_type].
Definition helper : rmethod := mkMethod "Helper" [foo_type; int_type] [error_type].
Definition by_value : rmethod := mkMethod "ByValue" [foo_type; args_type; int_type] [error_type].

Lemma newService_publishes_witness : ∃ s, newService (λ _, false) "Foo" [helper; Sum] = Ret s ∧
  (methods s !! "Sum"%string = Some (mkMethodType Sum args_type (RType "" "" (Ptr int_type)) 0)).
Proof.
  eexists. split; [reflexivity|].
  apply (newService_publishes (λ _, false) "Foo" [helper; Sum]); [|reflexivity|].
  - apply (bool_decide_eq_true_1 _). reflexivity.
  - exists Sum, args_type, (RType "" "" (Ptr int_type)). split; [right; left|].
    split; [reflexivity|]. split; [|reflexivity]. split; [eexists; reflexivity|].
    split; [reflexivity|]. split; reflexivity.
Defined.

(** A method whose reply is a map. *)
Definition Tally : rmethod :=
  mkMethod "Tally" [foo_type; args_type; RType "" "" (Map int_type)] [error_type].

Lemma values_fit_method_witness : ∃ mt r, registerMethods (λ _, false) [Sum; Tally] !! "Tally"%string = Some mt ∧
  newReplyv mt = Ret r ∧ type_of r = pointer_to int_type ∧ ¬ assignable (type_of r) (RType "" "" (Map int_type)).
Proof.
  destruct (values_fit_method (λ _, false) [Sum; Tally] Tally args_type (RType "" "" (Map int_type)))
    as (mt & Hmt & _ & _ & r & Hr & Ht & Hn).
  - apply (bool_decide_eq_true_1 _). reflexivity.
  - right. left.
  - split; [eexists; reflexivity|]. split; [reflexivity|]. split; reflexivity.
  - exists mt, r. split; [exact Hmt|]. split; [exact Hr|]. split; [exact Ht|exact Hn].
Defined.

Lemma published_reply_panics_witness :
  published (λ _, false) by_value args_type int_type ∧
  newReplyv (mkMethodType by_value args_type int_type 0) = Panic "reflect: Elem of invalid type int".
Proof. apply (published_reply_panics (λ _, false) by_value foo_type args_type "int"); reflexivity. Defined.
