(* ===== verification/Handshake.v ===== *)
(** * geerpc: options, dialing and the start of a connection

    Models the parts of [src/geerpc/client.go] ([parseOption], [NewClient],
    [dialTimeout]), [src/geerpc/server.go] ([Option], [Accept], [ServeConn],
    [ServeHTTP], [HandleHTTP]) and [src/geerpc/codec/codec.go] (the table of
    codecs) by which a client and a server agree on a connection.  The JSON
    syntax is a parameter, [scan]; how [json.Decoder] reads from the connection
    into its buffer until it has a value is modelled, because it reads ahead:
    the codec gets the connection without what is in the buffer. *)

From S2P Require Import Prelude Conn.

(** ** codec.go *)

Definition GobType : string := "application/god".
Definition JsonType : string := "application/json".

(** The constructor registered for a type, by its name. *)
Definition NewCodecFuncMap : gmap string string := {[ GobType := "NewGobCodec"%string ]}.

(** ** Options *)

Definition MagicNumber : Z := 3927900. (* 0x3bef5c *)

Record Option := mkOption {
  o_MagicNumber : Z; CodcType : string; ConnectTimeout : Z; HandleTimeout : Z }.

Definition DefaultOption : Option := mkOption MagicNumber GobType (10 * 10 ^ 9) 0.

(** [None] is a nil pointer among the options. *)
Definition parseOption (opts : list (option Option)) : Option + string :=
  match opts with
  | [] | None :: _ => inl DefaultOption
  | [Some opt] =>
      inl (mkOption (o_MagicNumber DefaultOption)
             (if bool_decide (CodcType opt = ""%string) then CodcType DefaultOption else CodcType opt)
             (ConnectTimeout opt) (HandleTimeout opt))
  | _ => inr "number of option is more than 1"%string
  end.

Section Handshake.
(** [json.Encoder.Encode]: the object, and the newline it writes behind it.
    What a decoder makes of the bytes in its buffer: [None] when they are the
    beginning of a value, or the value or its error.  [Duration_String] prints
    a number of nanoseconds. *)
Context (Marshal : Option → list Z) (scan : list Z → option (Option + string))
  (Duration_String : Z → string).

Definition Encode (o : Option) : list Z := Marshal o ++ [10].

(** ** The client's side *)

(** A connection the dialer returned: [None] is the nil of a failed dial; [inr]
    a connection whose next write fails with the error. *)
Definition netconn : Type := option (unit + string).

(** What [NewClient] did: the client on a codec with what it wrote, or an error
    and whether it closed the connection. *)
Inductive newClientResult :=
  | NewClientOk (codec : string) (sent : list Z)
  | NewClientErr (err : string) (closed : bool).

Definition nil_dereference : string := "invalid memory address or nil pointer dereference".

Definition NewClient (conn : netconn) (opt : Option) : outcome newClientResult :=
  match NewCodecFuncMap !! CodcType opt with
  | None => Ret (NewClientErr ("invalid codec type " +:+ CodcType opt) false)
  | Some f =>
      match conn with
      | None => Panic nil_dereference
      | Some (inr err) => Ret (NewClientErr err true)
      | Some (inl _) => Ret (NewClientOk f (Encode opt))
      end
  end.

(** What [Dial] gives its caller, and whether the connection was closed. *)
Inductive dialResult :=
  | DialOk (codec : string) (sent : list Z)
  | DialErr (err : string) (closed : bool).

(** The deferred [conn.Close()] when there is no client. *)
Definition close_conn (conn : netconn) (err : string) : outcome dialResult :=
  match conn with None => Panic nil_dereference | Some _ => Ret (DialErr err true) end.

(** [dialTimeout]; [dialed] is what [net.DialTimeout] returned (its error is
    assigned and not looked at), [slow] whether the timer fires before the
    result of [NewClient] arrives.  A panic in the goroutine that runs
    [NewClient] ends the process. *)
Definition dialTimeout (opts : list (option Option)) (dialed : unit + string) (write_err : error)
  (slow : bool) : outcome dialResult :=
  match parseOption opts with
  | inr err => Ret (DialErr err false)
  | inl opt =>
      let conn : netconn :=
        match dialed with
        | inl _ => Some (match write_err with None => inl tt | Some e => inr e end)
        | inr _ => None
        end in
      let! result := NewClient conn opt in
      if bool_decide (ConnectTimeout opt ≠ 0) && slow then
        close_conn conn ("rpc client: connect timeout: expect within " +:+
                           Duration_String (ConnectTimeout opt))
      else match result with
           | NewClientOk f sent => Ret (DialOk f sent)
           | NewClientErr err _ => close_conn conn err
           end
  end.

(** ** The server's side *)

(** [json.Decoder.Decode]: it reads until its buffer holds a value; [refill]
    makes room for 512 bytes at least. *)
Definition minRead : nat := 512.

Definition grow (cap : nat) (buf : list Z) : nat :=
  if bool_decide (cap - length buf < minRead)%nat then (2 * cap + minRead)%nat else cap.

Definition nonSpace (buf : list Z) : bool := existsb (λ b, negb (bool_decide (b ∈ [32; 9; 13; 10]))) buf.

Fixpoint read_value (fuel cap : nat) (buf : list Z) (c : conn) : outcome ((Option + string) * conn) :=
  match scan buf with
  | Some r => Ret (r, c)
  | None =>
      match fuel with
      | O => NoFuel
      | S fuel =>
          let cap := grow cap buf in
          let '(bs, err, c) := conn_Read (cap - length buf) c in
          match err with
          | None => read_value fuel cap (buf ++ bs) c
          | Some e => Ret (inr (if bool_decide (e = EOF) && nonSpace buf then ErrUnexpectedEOF else e), c)
          end
      end
  end.

(** Every turn takes a byte or an empty chunk off the connection, or ends. *)
Definition Decode (c : conn) : outcome ((Option + string) * conn) :=
  read_value (S (length (chunks c) + length (concat (chunks c)))) 0 [] c.

(** [ServeConn]: the codec with the options and the connection it serves, or
    the reason it closes it (the log has the numbers too). *)
Definition ServeConn (conn : conn) : outcome ((string * Option * Conn.conn) + string) :=
  let! (r, conn) := Decode conn in
  match r with
  | inr err => Ret (inr ("rpc server: options error: " +:+ err))
  | inl opt =>
      if bool_decide (o_MagicNumber opt ≠ MagicNumber) then Ret (inr "rpc server: invalid magic number"%string)
      else match NewCodecFuncMap !! CodcType opt with
           | None => Ret (inr ("rpc server: invalid codec type " +:+ CodcType opt))
           | Some f => Ret (inl (f, opt, conn))
           end
  end.

(** [server.Accept]: how the connections of a listener are served, each by a
    goroutine of its own, and the error that ended the loop if one did. *)
Fixpoint Accept (lis : list (conn + string)) : list (outcome ((string * Option * conn) + string)) * error :=
  match lis with
  | [] => ([], None)
  | inl conn :: lis => let '(served, err) := Accept lis in (ServeConn conn :: served, err)
  | inr err :: _ => ([], Some err)
  end.

Definition connected : string := "200 Connected to Gee RPC".
Definition defaultRPCPath : string := "/_geerpc_".
Definition newline : string := String "010" "".

(** The answer to an HTTP request: a response with its content type, nothing
    when the connection cannot be taken over, or what is written to the
    connection and how it is served from then on. *)
Inductive answer :=
  | Response (status : Z) (content_type body : string)
  | NotHijacked
  | Hijacked (written : string) (served : outcome ((string * Option * conn) + string)).

Definition ServeHTTP (method : string) (hijack : error) (conn : conn) : answer :=
  if bool_decide (method ≠ "CONNECT"%string)
  then Response 405 "text/plain; charset=utf-8" ("405 must CONNECT" +:+ newline)
  else match hijack with
       | Some _ => NotHijacked
       | None => Hijacked ("HTTP/1.0" +:+ connected +:+ newline +:+ newline) (ServeConn conn)
       end.

(** The default mux: the server registered for a path; a second registration
    panics. *)
Definition HandleHTTP {T} (server : T) (mux : gmap string T) : outcome (gmap string T) :=
  match mux !! defaultRPCPath with
  | Some _ => Panic ("http: multiple registrations for " +:+ defaultRPCPath)
  | None => Ret (<[defaultRPCPath := server]> mux)
  end.

(** ** Specification *)

(** An object is complete with its last byte and not before, and is decoded to
    the options it was written for, whatever follows. *)
Definition json_ok : Prop := ∀ o, Marshal o ≠ [] ∧
  (∀ k, (k < length (Marshal o))%nat → scan (take k (Marshal o)) = None) ∧
  ∀ rest, scan (Marshal o ++ rest) = Some (inl o).

(** The object of the options begins in the chunks [cs] and ends in [ch], where
    [tail] follows it. *)
Definition ends_in (o : Option) (cs : list (list Z)) (ch tail : list Z) : Prop :=
  concat cs ++ ch = Marshal o ++ tail ∧ (length (concat cs) < length (Marshal o))%nat ∧
  (length (Marshal o) ≤ length (concat cs ++ ch))%nat.

(** No read is cut short by the room in the buffer. *)
Definition short_chunks (cs : list (list Z)) : Prop := Forall (λ ch, length ch ≤ minRead)%nat cs.

(** What the server supports: gob, and its own magic number. *)
Definition supported (o : Option) : Prop := CodcType o = GobType ∧ o_MagicNumber o = MagicNumber.

(** ** Reading the options *)

Section Reading.
Context (Hjson : json_ok).

Lemma scan_part o buf rest tail : buf ++ rest = Marshal o ++ tail →
  (length buf < length (Marshal o))%nat → scan buf = None.
Proof using Hjson.
  intros Heq Hlt. destruct (Hjson o) as (_ & Hpart & _). rewrite <- (Hpart (length buf) Hlt). f_equal.
  apply (f_equal (take (length buf))) in Heq. rewrite take_app_length in Heq.
  rewrite take_app_le in Heq by lia. exact Heq.
Qed.

(** A read takes the whole chunk. *)
Lemma conn_Read_chunk cap buf ch cs e : (length buf ≤ cap)%nat → (length ch ≤ minRead)%nat →
  conn_Read (grow cap buf - length buf) (mkConn (ch :: cs) e) = (ch, None, mkConn cs e).
Proof using.
  intros Hcap Hch. assert (length ch ≤ grow cap buf - length buf)%nat as H.
  { unfold grow. case_bool_decide; unfold minRead in *; lia. }
  unfold conn_Read. cbn [chunks ending]. by rewrite take_ge, drop_ge, bool_decide_eq_true_2 by done.
Qed.

Lemma grow_room cap buf ch : (length buf ≤ cap)%nat → (length ch ≤ minRead)%nat →
  (length (buf ++ ch) ≤ grow cap buf)%nat.
Proof using.
  intros Hcap Hch. rewrite length_app. unfold grow. case_bool_decide; unfold minRead in *; lia.
Qed.

Lemma read_value_ok o cs ch tail cs2 e : short_chunks (cs ++ [ch]) → ∀ fuel cap buf,
  (length cs < fuel)%nat → (length buf ≤ cap)%nat →
  buf ++ concat cs ++ ch = Marshal o ++ tail → (length (buf ++ concat cs) < length (Marshal o))%nat →
  (length (Marshal o) ≤ length (buf ++ concat cs ++ ch))%nat →
  read_value fuel cap buf (mkConn (cs ++ ch :: cs2) e) = Ret (inl o, mkConn cs2 e).
Proof using Hjson.
  induction cs as [|c cs IH]; intros Hshort fuel cap buf Hfuel Hcap Heq Hlt Hle;
    (destruct fuel as [|fuel]; [cbn in Hfuel; lia|]); cbn [concat app] in *.
  - apply Forall_cons in Hshort as [Hch _]. rewrite app_nil_r in Hlt. cbn [read_value].
    rewrite (scan_part o buf ch tail) by done. rewrite conn_Read_chunk by done.
    destruct (Hjson o) as (_ & _ & Hall). rewrite Heq. destruct fuel; cbn [read_value]; by rewrite Hall.
  - apply Forall_cons in Hshort as [Hc Hshort]. cbn [read_value].
    rewrite (scan_part o buf (c ++ concat cs ++ ch) tail).
    2: { rewrite <- Heq. by rewrite !app_assoc. }
    2: { rewrite !length_app in Hlt. lia. }
    rewrite conn_Read_chunk by done. apply IH; [done|cbn in Hfuel; lia|by apply grow_room|..].
    + rewrite <- Heq. by rewrite !app_assoc.
    + by rewrite <- app_assoc.
    + rewrite !length_app in *. lia.
Qed.

Lemma ServeConn_ok o cs ch tail cs2 e : ends_in o cs ch tail → short_chunks (cs ++ [ch]) → supported o →
  ServeConn (mkConn (cs ++ ch :: cs2) e) = Ret (inl ("NewGobCodec"%string, o, mkConn cs2 e)).
Proof using Hjson.
  intros (Heq & Hlt & Hle) Hshort [Hc Hm]. unfold ServeConn, Decode.
  rewrite (read_value_ok o cs ch tail cs2 e Hshort); [|cbn; rewrite length_app; cbn; lia|done..].
  cbn [obind]. rewrite Hc, Hm. rewrite bool_decide_eq_false_2 by (intros H; by apply H).
  unfold NewCodecFuncMap. by rewrite lookup_singleton_eq.
Qed.

(** Where the first part of a sequence of bytes ends, in any chunks. *)
Lemma split_chunks (css : list (list Z)) (m rest : list Z) : concat css = m ++ rest → m ≠ [] →
  ∃ cs ch cs2 tail, css = cs ++ ch :: cs2 ∧ concat cs ++ ch = m ++ tail ∧ tail ++ concat cs2 = rest ∧
  (length (concat cs) < length m)%nat ∧ (length m ≤ length (concat cs ++ ch))%nat.
Proof using.
  revert m. induction css as [|c css IH]; intros m Heq Hm; cbn in Heq; [by destruct m|].
  destruct (decide (length m ≤ length c)%nat) as [Hle|Hgt].
  - exists [], c, css, (drop (length m) c). cbn. split_and!; [done| | |destruct m; [done|cbn; lia]|done].
    + apply (f_equal (take (length m))) in Heq. rewrite take_app_length, take_app_le in Heq by done.
      by rewrite <- Heq at 1; rewrite take_drop.
    + apply (f_equal (drop (length m))) in Heq. by rewrite drop_app_length, drop_app_le in Heq.
  - assert (m = c ++ drop (length c) m) as Hmc.
    { apply (f_equal (take (length c))) in Heq. rewrite take_app_length, take_app_le in Heq by lia.
      rewrite Heq at 1. by rewrite take_drop. }
    assert (length (drop (length c) m) = length m - length c)%nat as Hd by apply length_drop.
    destruct (IH (drop (length c) m)) as (cs & ch & cs2 & tail & -> & H1 & H2 & H3 & H4).
    + rewrite Hmc in Heq. rewrite <- app_assoc in Heq. by apply app_inv_head in Heq.
    + intros H. rewrite H in Hd. cbn in Hd. lia.
    + exists (c :: cs), ch, cs2, tail. cbn. rewrite !length_app in *.
      split_and!; [done|rewrite <- app_assoc, H1, app_assoc; by rewrite <- Hmc|done|lia|lia].
Qed.
End Reading.

(** Decoding ends: every read takes a byte or an empty chunk. *)
Lemma conn_Read_size n c bs c' : (0 < n)%nat → conn_Read n c = (bs, None, c') →
  (length (chunks c') + length (concat (chunks c')) < length (chunks c) + length (concat (chunks c)))%nat.
Proof using.
  intros Hn. unfold conn_Read. destruct c as [[|ch cs] e]; [done|]. cbn. intros [= <- <-]. cbn.
  rewrite length_app. case_bool_decide as Hd; cbn; [lia|]. rewrite length_app, length_drop.
  destruct ch; [by rewrite drop_nil in Hd|]. cbn. lia.
Qed.

Lemma read_value_returns fuel cap buf c :
  (length (chunks c) + length (concat (chunks c)) < fuel)%nat → (length buf ≤ cap)%nat →
  ∃ r, read_value fuel cap buf c = Ret r.
Proof using.
  revert cap buf c. induction fuel as [|fuel IH]; intros cap buf c Hf Hcap; [lia|]. cbn [read_value].
  destruct (scan buf); [by eexists|].
  assert (0 < grow cap buf - length buf)%nat as Hroom.
  { unfold grow. case_bool_decide; unfold minRead in *; lia. }
  destruct (conn_Read _ c) as [[bs [e|]] c'] eqn:Hr; [by eexists|].
  assert (length bs ≤ grow cap buf - length buf)%nat.
  { unfold conn_Read in Hr. destruct (chunks c); simplify_eq. rewrite length_take. lia. }
  apply conn_Read_size in Hr; [|done]. apply IH; [lia|]. rewrite length_app. lia.
Qed.

Lemma ServeConn_returns c : ∃ r, ServeConn c = Ret r.
Proof using.
  unfold ServeConn, Decode.
  destruct (read_value_returns (S (length (chunks c) + length (concat (chunks c)))) 0 [] c) as [[[opt|err] c'] ->];
    [lia|done| |by eexists].
  cbn [obind]. case_bool_decide; [by eexists|]. destruct (NewCodecFuncMap !! CodcType opt); by eexists.
Qed.

(** ** Properties *)

(** C30: client and server agree: with no options, or with options that leave the
    codec open or ask for gob, whatever magic number they carry, Dial on a
    working connection succeeds, and however the network cuts what it sent
    into chunks, the server accepts it and serves the connection with the same
    codec and the client's timeouts; of what was sent nothing but the newline
    can be left for the codec. *)
Theorem Dial_is_accepted opts opt : json_ok → parseOption opts = inl opt →
  (opts = [] ∨ opts = [None] ∨
   ∃ o, opts = [Some o] ∧ (CodcType o = ""%string ∨ CodcType o = GobType)) →
  ∃ sent, dialTimeout opts (inl tt) None false = Ret (DialOk "NewGobCodec" sent) ∧
  ∀ css e, concat css = sent → short_chunks css → ∃ css',
    ServeConn (mkConn css e) = Ret (inl ("NewGobCodec"%string, opt, mkConn css' e)) ∧
    (concat css' = [] ∨ concat css' = [10]).
Proof using.
  intros Hjson Hp Hopts. exists (Encode opt). unfold dialTimeout. rewrite Hp.
  assert (supported opt) as Hsup.
  { destruct Hopts as [->|[->|(o & -> & Ho)]]; cbn in Hp; injection Hp as <-; [done|done|].
    split; cbn; [|done]. case_bool_decide; [done|]. by destruct Ho. }
  split.
  - destruct Hsup as [Hc Hm]. unfold NewClient. rewrite Hc. cbn [obind].
    unfold NewCodecFuncMap. rewrite lookup_singleton_eq. cbn [obind]. by rewrite andb_false_r.
  - intros css e Hcss Hshort. destruct (Hjson opt) as (Hne & _).
    destruct (split_chunks css (Marshal opt) [10] Hcss Hne) as (cs & ch & cs2 & tail & -> & H1 & H2 & H3 & H4).
    exists cs2.
    split; [|destruct tail as [|x [|y tail]]; cbn in H2; [by right|left; by simplify_eq|done]].
    apply (ServeConn_ok Hjson opt cs ch tail); [by split_and!| |done].
    unfold short_chunks in *. rewrite cons_middle, app_assoc in Hshort. by apply Forall_app in Hshort as [? _].
Qed.

(** What follows the options in the same chunk is lost: the server takes the
    options from however many chunks they come in, and gives the codec the
    connection from the next chunk on, so that requests which arrive together
    with the end of the options are never read. *)
Theorem options_swallow_requests o cs ch tail cs2 e :
  json_ok → supported o → ends_in o cs ch tail → short_chunks (cs ++ [ch]) →
  ServeConn (mkConn (cs ++ ch :: cs2) e) = Ret (inl ("NewGobCodec"%string, o, mkConn cs2 e)).
Proof using. intros Hjson Hsup Hends Hshort. by eapply ServeConn_ok. Qed.

(** When the connection cannot be made, Dial does not return the error of the
    dialer: it goes on with a nil connection and the process ends with a
    nil-pointer panic, whatever the (well-formed) options and the timing. *)
Theorem Dial_failure_panics opts opt err write_err slow :
  parseOption opts = inl opt →
  dialTimeout opts (inr err) write_err slow = Panic nil_dereference.
Proof using.
  intros Hp. unfold dialTimeout, NewClient. rewrite Hp.
  destruct (NewCodecFuncMap !! CodcType opt); [done|]. cbn. by destruct (_ && slow).
Qed.
End Handshake.

(** ** Witnesses *)

Definition demo_duration (ns : Z) : string := pretty ns +:+ "ns".

(** A stand-in for JSON: the four fields, each as one symbol. *)
Definition demo_Marshal (o : Option) : list Z :=
  [o_MagicNumber o; ConnectTimeout o; HandleTimeout o; Zpos (encode (CodcType o))].

Definition demo_scan (buf : list Z) : option (Option + string) :=
  match buf with
  | m :: c :: h :: t :: _ =>
      Some (match decode (Z.to_pos t) with
            | Some codec => inl (mkOption m codec c h)
            | None => inr "json: cannot unmarshal"%string
            end)
  | _ => None
  end.

Lemma demo_json : json_ok demo_Marshal demo_scan.
Proof.
  intros [m t c h]. split; [done|]. split.
  - intros k Hk. cbn in Hk. by destruct k as [|[|[|[|k]]]]; [..|lia].
  - intros rest. cbn. change (Z.to_pos (Zpos (encode t))) with (encode t). by rewrite decode_encode.
Qed.

Lemma Dial_is_accepted_witness : ∃ css',
  ServeConn demo_scan (mkConn [[3927900; 5]; [7; Zpos (encode GobType)]; [10]] "EOF") =
    Ret (inl ("NewGobCodec"%string, mkOption MagicNumber GobType 5 7, mkConn css' "EOF")) ∧
  (concat css' = [] ∨ concat css' = [10]).
Proof.
  destruct (Dial_is_accepted demo_Marshal demo_scan demo_duration [Some (mkOption 0 "" 5 7)]
    (mkOption MagicNumber GobType 5 7) demo_json eq_refl) as (sent & Hd & H).
  - right. right. exists (mkOption 0 "" 5 7). split; [reflexivity|]. left. reflexivity.
  - injection Hd as <-. apply H; [reflexivity|]. 
    unfold short_chunks, minRead. rewrite !Forall_cons. cbn. split_and!; [lia..|by apply Forall_nil].
Defined.

(** Options and two bytes of a request in one chunk. *)
Lemma options_swallow_requests_witness :
  ServeConn demo_scan (mkConn [demo_Marshal DefaultOption ++ [10; 77; 78]] "EOF") =
    Ret (inl ("NewGobCodec"%string, DefaultOption, mkConn [] "EOF")).
Proof.
  apply (options_swallow_requests demo_Marshal demo_scan DefaultOption [] _ [10; 77; 78] [] "EOF" demo_json).
  - split; reflexivity.
  - split; [reflexivity|]. split; cbn; lia.
  - apply Forall_singleton. unfold minRead. cbn. lia.
Defined.

Lemma Dial_failure_panics_witness :
  dialTimeout demo_Marshal demo_duration [] (inr "connection refused"%string) None false = Panic nil_dereference.
Proof.
  apply (Dial_failure_panics demo_Marshal demo_duration [] DefaultOption "connection refused" None false). reflexivity.
Defined.
