(* ===== verification/Codec.v ===== *)
(** * geerpc/codec: the codec interface and the gob codec

    Models [src/geerpc/codec/codec.go] and [god.go].  [Codec] is the reading
    half of the interface, with the laws a server relies on; [items_codec] is
    the stream of typed values that encoding/gob reads.  [Write] of the gob
    codec is modelled down to the connection: what the encoder writes for a
    value is a parameter (the messages of encoding/gob and its error), the
    [bufio.Writer] between encoder and connection is the library's, and the
    connection answers each write as [answers] says. *)

From S2P Require Import Prelude GoStrings Service.
From S2P Require Client.

Abbreviation Header := Client.Header.

(** ** The codec interface *)

Class Codec (C V : Type) := {
  ReadHeader : C → (Header + string) * C;
  ReadBody : rtype → C → (V + string) * C;
}.

(** What writing on the other side of a codec promises to the reader.  A body
    can be read as a header only when the two have a field in common:
    [as_header] is the header that is read then. *)
Class CodecLaws (C V : Type) `{Codec C V} := {
  eof : C;
  put_header : Header → C → C;
  put_body : rtype → V → C → C;
  as_header : rtype → V → option Header;
  ReadHeader_put h c : ReadHeader (put_header h c) = (inl h, c);
  ReadBody_put t v c : ReadBody t (put_body t v c) = (inl v, c);
  ReadHeader_eof : ∃ e, ReadHeader eof = (inr e, eof);
  ReadHeader_body t v c : as_header t v = None →
    ∃ e c', ReadHeader (put_body t v c) = (inr e, c');
}.

(** A value on a stream of typed values: a header, or a body with its type. *)
Inductive item (V : Type) := IHeader (h : Header) | IBody (t : rtype) (v : V).
Arguments IHeader {V} h.
Arguments IBody {V} t v.

(** ** The connection *)

Record conn := mkConn { sent : list Z; answers : list (option (nat * string)); closed : bool }.

Definition ErrClosed : string := "use of closed network connection".

(** [Write]: everything is sent, or the first [n] bytes and an error is
    returned, which [io.Writer] requires of a short write. *)
Definition conn_Write (p : list Z) (c : conn) : nat * error * conn :=
  if closed c then (0%nat, Some ErrClosed, c)
  else match answers c with
       | Some (n, e) :: l => (n `min` length p, Some e, mkConn (sent c ++ take n p) l false)%nat
       | None :: l => (length p, None, mkConn (sent c ++ p) l false)
       | [] => (length p, None, mkConn (sent c ++ p) [] false)
       end.

Definition conn_Close (c : conn) : error * conn :=
  if closed c then (Some ErrClosed, c) else (None, mkConn (sent c) (answers c) true).

(** ** bufio.Writer *)

Record bufWriter := mkBufWriter { buffered : list Z; werr : error; wr : conn }.

Definition defaultBufSize : Z := 4096.

Definition NewWriter (c : conn) : bufWriter := mkBufWriter [] None c.

Definition Available (w : bufWriter) : Z := defaultBufSize - Z.of_nat (length (buffered w)).

(** An error is kept and returned by every later operation. *)
Definition Flush (w : bufWriter) : error * bufWriter :=
  match werr w with
  | Some e => (Some e, w)
  | None =>
      if bool_decide (buffered w = []) then (None, w)
      else match conn_Write (buffered w) (wr w) with
           | (n, Some e, c) => (Some e, mkBufWriter (drop n (buffered w)) (Some e) c)
           | (_, None, c) => (None, mkBufWriter [] None c)
           end
  end.

Fixpoint write_loop (fuel : nat) (p : list Z) (w : bufWriter) : outcome (error * bufWriter) :=
  if bool_decide (Available w < Z.of_nat (length p)) && bool_decide (werr w = None) then
    match fuel with
    | O => NoFuel
    | S fuel =>
        if bool_decide (buffered w = []) then
          let '(n, e, c) := conn_Write p (wr w) in
          write_loop fuel (drop n p) (mkBufWriter [] e c)
        else
          let n := Z.to_nat (Available w) in
          let w1 := (Flush (mkBufWriter (buffered w ++ take n p) None (wr w))).2 in
          write_loop fuel (drop n p) w1
    end
  else match werr w with
       | Some e => Ret (Some e, w)
       | None => Ret (None, mkBufWriter (buffered w ++ p) None (wr w))
       end.

Definition buf_Write (p : list Z) (w : bufWriter) : outcome (error * bufWriter) := write_loop 3 p w.

(** ** The gob codec *)

(** How [Write] ends: it returns an error or nil, or panics. *)
Inductive wreturn := Returned (e : error) | Panicked (msg : string).

Section GobCodec.
(** [encode] is what the encoder in a state makes of a value: messages, the
    error that stopped it, and its next state.  [decode_header] and
    [decode_body] are the decoder. *)
Context {G D X V : Type} (encode : G → Header + X → list (list Z) * error * G)
  (decode_header : D → (Header + string) * D) (decode_body : rtype → D → (V + string) * D)
  (newEncoder : G) (newDecoder : D).

Record GobCodec := mkGobCodec { buf : bufWriter; dec : D; enc : G }.

Definition NewGobCodec (c : conn) : GobCodec := mkGobCodec (NewWriter c) newDecoder newEncoder.

#[export] Instance gob_codec : Codec GobCodec V := {
  ReadHeader c := let '(r, d) := decode_header (dec c) in (r, mkGobCodec (buf c) d (enc c));
  ReadBody t c := let '(r, d) := decode_body t (dec c) in (r, mkGobCodec (buf c) d (enc c));
}.

(** The encoder writes each message with one [Write]; it returns the first
    error of those, or its own. *)
Fixpoint write_all (msgs : list (list Z)) (w : bufWriter) : outcome (error * bufWriter) :=
  match msgs with
  | [] => Ret (None, w)
  | p :: msgs =>
      let! (e1, w) := buf_Write p w in
      let! (e2, w) := write_all msgs w in
      Ret (match e1 with Some _ => e1 | None => e2 end, w)
  end.

Definition Encode (v : Header + X) (c : GobCodec) : outcome (error * GobCodec) :=
  let '(msgs, e, g) := encode (enc c) v in
  let! (we, w) := write_all msgs (buf c) in
  Ret (match we with Some _ => we | None => e end, mkGobCodec w (dec c) g).

Definition Close (c : GobCodec) : error * GobCodec :=
  let '(e, k) := conn_Close (wr (buf c)) in
  (e, mkGobCodec (mkBufWriter (buffered (buf c)) (werr (buf c)) k) (dec c) (enc c)).

(** The deferred function; [err] is the named result, which a panic leaves nil. *)
Definition deferred (err : error) (c : GobCodec) : GobCodec :=
  let c := mkGobCodec (Flush (buf c)).2 (dec c) (enc c) in
  match err with Some _ => (Close c).2 | None => c end.

Definition Write (h : Header) (body : X) (c : GobCodec) : outcome (wreturn * GobCodec) :=
  let! (e1, c) := Encode (inl h) c in
  match e1 with
  | Some e => Ret (Returned (Some e), deferred (Some e) c)
  | None =>
      let! (e2, c) := Encode (inr body) c in
      match e2 with
      | Some e => Ret (Panicked ("rpc codec:god error encoding body: " +:+ e +:+ String "010"%char ""), deferred None c)
      | None => Ret (Returned None, deferred None c)
      end
  end.

(** ** Specification *)

(** The bytes of a value, when it can be encoded. *)
Definition bytes (g : G) (v : Header + X) : list Z := concat (encode g v).1.1.
Definition after (g : G) (v : Header + X) : G := (encode g v).2.
Definition encodes (g : G) (v : Header + X) : Prop := (encode g v).1.2 = None.

(** The codec between two writes of an open connection without errors. *)
Definition idle (c : GobCodec) : Prop :=
  buffered (buf c) = [] ∧ werr (buf c) = None ∧ closed (wr (buf c)) = false.
End GobCodec.

(** [w'] is [w] after the bytes [p] were written to it. *)
Definition wrote (p : list Z) (w w' : bufWriter) : Prop :=
  closed (wr w') = false ∧ (answers (wr w) = [] → werr w' = None ∧ answers (wr w') = []) ∧
  match werr w' with
  | None => sent (wr w') ++ buffered w' = (sent (wr w) ++ buffered w) ++ p
  | Some _ => sent (wr w') `prefix_of` (sent (wr w) ++ buffered w) ++ p
  end.

(** ** Streams of typed values

    encoding/gob reads one value per call, and fails on a value of another
    type; no body on this stream has a field in common with a header. *)

#[export] Instance items_codec {V} : Codec (list (item V)) V := {
  ReadHeader c :=
    match c with
    | [] => (inr "EOF"%string, [])
    | IHeader h :: c => (inl h, c)
    | IBody _ _ :: c => (inr "gob: type mismatch"%string, c)
    end;
  ReadBody t c :=
    match c with
    | [] => (inr "EOF"%string, [])
    | IBody t' v :: c => (if rtype_eqb t t' then inl v else inr "gob: type mismatch"%string, c)
    | IHeader _ :: c => (inr "gob: type mismatch"%string, c)
    end;
}.

Lemma rtype_eqb_refl t : rtype_eqb t t = true
with rkind_eqb_refl k : rkind_eqb k k = true.
Proof.
  - destruct t as [n p k]. cbn. by rewrite !bool_decide_eq_true_2, rkind_eqb_refl.
  - destruct k; cbn; solve [apply rtype_eqb_refl | reflexivity].
Qed.

#[export, refine] Instance items_laws {V} : CodecLaws (list (item V)) V := {
  eof := [];
  put_header h c := IHeader h :: c;
  put_body t v c := IBody t v :: c;
  as_header _ _ := None;
}.
Proof.
  - done.
  - intros t v c. cbn. by rewrite rtype_eqb_refl.
  - by eexists.
  - intros t v c _. by do 2 eexists.
Defined.

(** ** The connection and the buffer *)

Lemma conn_Write_open p c : closed c = false → ∃ n e c', conn_Write p c = (n, e, c') ∧
  closed c' = false ∧ sent c' = sent c ++ take n p ∧ (e = None → n = length p) ∧
  (answers c = [] → e = None ∧ answers c' = []).
Proof.
  intros Hc. unfold conn_Write. rewrite Hc. destruct (answers c) as [|[[n e]|] l];
    do 3 eexists; (split; [reflexivity|]); cbn; rewrite ?take_min_length, ?firstn_all; done.
Qed.

Lemma wrote_trans p q w w1 w2 : wrote p w w1 → werr w1 = None → wrote q w1 w2 → wrote (p ++ q) w w2.
Proof.
  intros (_ & Ha & Hp) He (Hc & Ha' & Hq). rewrite He, Hp in *. rewrite <- app_assoc in Hq.
  split_and!; [done| |done]. intros [_ H]%Ha. auto.
Qed.

Lemma wrote_more p q w w' : wrote p w w' → is_Some (werr w') → wrote (p ++ q) w w'.
Proof.
  intros (Hc & Ha & Hp) [e He]. split_and!; [done..|]. rewrite He in *. rewrite app_assoc.
  by apply prefix_app_r.
Qed.

Lemma Flush_ok w : werr w = None → closed (wr w) = false →
  ∃ w', Flush w = (werr w', w') ∧ wrote [] w w' ∧ (werr w' = None → buffered w' = []).
Proof.
  intros He Hc. unfold Flush, wrote. rewrite He. case_bool_decide as Hb.
  - exists w. by rewrite He, app_nil_r.
  - destruct (conn_Write_open (buffered w) _ Hc) as (n & e & c' & -> & Hc' & Hs & Hn & Ha).
    destruct e as [e|]; [exists (mkBufWriter (drop n (buffered w)) (Some e) c')|exists (mkBufWriter [] None c')];
      (split; [reflexivity|]); cbn; rewrite Hs, !app_nil_r.
    + split_and!; try done. apply prefix_app, prefix_take.
    + rewrite Hn, firstn_all by done. by split_and!.
Qed.

Lemma write_loop_err fuel p w e : werr w = Some e → write_loop fuel p w = Ret (Some e, w).
Proof. intros He. destruct fuel; cbn; by rewrite He, andb_false_r. Qed.

Lemma write_loop_empty fuel p w : buffered w = [] → werr w = None → closed (wr w) = false →
  ∃ w', write_loop (S fuel) p w = Ret (werr w', w') ∧ wrote p w w'.
Proof.
  intros Hb He Hc. unfold wrote. cbn [write_loop]. rewrite He, (bool_decide_eq_true_2 (None = None)) by done.
  rewrite andb_true_r, (bool_decide_eq_true_2 (buffered w = [])) by done.
  case_bool_decide as Hlen.
  - destruct (conn_Write_open p _ Hc) as (n & e & c' & -> & Hc' & Hs & Hn & Ha).
    rewrite Hb. destruct e as [e|].
    + rewrite (write_loop_err _ _ _ e) by done. exists (mkBufWriter [] (Some e) c').
      split; [reflexivity|]. cbn.
      rewrite Hs, app_nil_r. split_and!; [done|by intros [? _]%Ha|]. apply prefix_app, prefix_take.
    + rewrite Hn, drop_all by done. exists (mkBufWriter [] None c'). split.
      { destruct fuel; reflexivity. }
      cbn. rewrite Hs, Hn, firstn_all, !app_nil_r by done. by split_and!.
  - exists (mkBufWriter (buffered w ++ p) None (wr w)). split; [reflexivity|]. cbn.
    rewrite Hb. cbn. by rewrite app_nil_r.
Qed.

Lemma buf_Write_ok p w : werr w = None → closed (wr w) = false →
  ∃ w', buf_Write p w = Ret (werr w', w') ∧ wrote p w w'.
Proof.
  intros He Hc. destruct (decide (buffered w = [])) as [Hb|Hb]; [by apply write_loop_empty|].
  unfold buf_Write. remember 2%nat as fuel eqn:Ef. cbn [write_loop].
  rewrite He, (bool_decide_eq_true_2 (None = None)), andb_true_r by done.
  rewrite (bool_decide_eq_false_2 (buffered w = [])) by done. case_bool_decide as Hlen.
  - set (n := Z.to_nat (Available w)).
    destruct (Flush_ok (mkBufWriter (buffered w ++ take n p) None (wr w)) eq_refl Hc)
      as (w1 & -> & Hw1 & Hnil). cbn [snd].
    assert (wrote (take n p) w w1) as Hw.
    { unfold wrote in *. cbn in Hw1. by rewrite app_nil_r, app_assoc in Hw1. }
    destruct (werr w1) as [e|] eqn:He1.
    + rewrite (write_loop_err _ _ _ e) by done. exists w1. rewrite He1. split; [done|].
      rewrite <- (take_drop n p). by apply wrote_more.
    + destruct (write_loop_empty 1 (drop n p) w1) as (w' & E & Hw'); [auto|done|by apply Hw1|].
      subst fuel. rewrite E. exists w'. split; [done|]. rewrite <- (take_drop n p).
      by eapply wrote_trans.
  - exists (mkBufWriter (buffered w ++ p) None (wr w)). split; [reflexivity|].
    unfold wrote. cbn. by rewrite app_assoc.
Qed.

Lemma write_all_err msgs w e : werr w = Some e →
  write_all msgs w = Ret (match msgs with [] => None | _ => Some e end, w).
Proof.
  intros He. induction msgs as [|p msgs IH]; [done|]. cbn [write_all]. unfold buf_Write.
  rewrite (write_loop_err _ _ _ e) by done. cbn [obind]. by rewrite IH.
Qed.

Lemma write_all_ok msgs w : werr w = None → closed (wr w) = false →
  ∃ w', write_all msgs w = Ret (werr w', w') ∧ wrote (concat msgs) w w'.
Proof.
  revert w. induction msgs as [|p msgs IH]; intros w He Hc.
  - exists w. cbn. unfold wrote. rewrite He. by rewrite app_nil_r.
  - cbn [write_all concat]. destruct (buf_Write_ok p w He Hc) as (w1 & -> & Hw1). cbn [obind].
    destruct (werr w1) as [e|] eqn:He1.
    + rewrite (write_all_err _ _ e) by done. exists w1. rewrite He1. split; [done|].
      by apply wrote_more.
    + destruct (IH w1 He1) as (w' & -> & Hw'); [apply Hw1|]. exists w'. split; [done|].
      by eapply wrote_trans.
Qed.

(** Nothing reaches the connection while the buffer has room. *)
Lemma write_all_small msgs w : werr w = None →
  Z.of_nat (length (buffered w) + length (concat msgs)) ≤ defaultBufSize →
  write_all msgs w = Ret (None, mkBufWriter (buffered w ++ concat msgs) None (wr w)).
Proof.
  revert w. induction msgs as [|p msgs IH]; intros [b e k] He Hlen; cbn in *; subst e.
  - by rewrite app_nil_r.
  - rewrite length_app in Hlen. unfold buf_Write. cbn [write_loop]. unfold Available. cbn [buffered werr].
    rewrite (bool_decide_eq_false_2 (_ < _)) by lia. cbn [andb obind].
    rewrite IH; cbn [buffered werr wr]; [|done|rewrite length_app; lia]. cbn [obind].
    by rewrite app_assoc.
Qed.

(** ** Writing a message *)

Section Write.
Context {G D X : Type} (encode : G → Header + X → list (list Z) * error * G).
Implicit Types c : GobCodec (G := G) (D := D).

Lemma Encode_ok v c : werr (buf c) = None → closed (wr (buf c)) = false → encodes encode (enc c) v →
  ∃ w, Encode encode v c = Ret (werr w, mkGobCodec w (dec c) (after encode (enc c) v)) ∧
       wrote (bytes encode (enc c) v) (buf c) w ∧
       (Z.of_nat (length (buffered (buf c)) + length (bytes encode (enc c) v)) ≤ defaultBufSize →
        w = mkBufWriter (buffered (buf c) ++ bytes encode (enc c) v) None (wr (buf c))).
Proof.
  unfold Encode, encodes, bytes, after. intros He Hc Hv.
  destruct (encode (enc c) v) as [[msgs e] g]. cbn [fst snd] in *. subst e.
  destruct (write_all_ok msgs (buf c) He Hc) as (w & E & Hw). exists w. rewrite E. cbn [obind].
  split_and!; [by destruct (werr w)|done|]. intros Hlen.
  rewrite write_all_small in E by done. by simplify_eq.
Qed.

(** The buffer is flushed after a write that has not failed. *)
Lemma deferred_ok c : werr (buf c) = None → closed (wr (buf c)) = false →
  ∃ w, deferred None c = mkGobCodec w (dec c) (enc c) ∧ wrote [] (buf c) w ∧
       (werr w = None → buffered w = []).
Proof.
  intros He Hc. unfold deferred. destruct (Flush_ok (buf c) He Hc) as (w & -> & Hw). by exists w.
Qed.

Lemma deferred_err c e : werr (buf c) = Some e → closed (wr (buf c)) = false →
  werr (buf (deferred (Some e) c)) = Some e ∧ closed (wr (buf (deferred (Some e) c))) = true ∧
  sent (wr (buf (deferred (Some e) c))) = sent (wr (buf c)).
Proof. intros He Hc. unfold deferred, Flush, Close, conn_Close. rewrite He. cbn. by rewrite Hc. Qed.

(** Once the buffer has failed, a write reports it and closes the connection. *)
Lemma Write_broken h b c e : werr (buf c) = Some e → closed (wr (buf c)) = false →
  (encode (enc c) (inl h)).1.1 ≠ [] →
  ∃ c', Write encode h b c = Ret (Returned (Some e), c') ∧
        closed (wr (buf c')) = true ∧ sent (wr (buf c')) = sent (wr (buf c)).
Proof.
  intros He Hc Hh. unfold Write, Encode. destruct (encode (enc c) (inl h)) as [[[|p msgs] e1] g]; [done|].
  rewrite (write_all_err _ _ e) by done. cbn [obind].
  eexists. split; [reflexivity|]. exact (proj2 (deferred_err (mkGobCodec (buf c) (dec c) g) e He Hc)).
Qed.

(** The deferred function of a write that failed, after it wrote [p]. *)
Lemma deferred_failed c w p e (d : D) (g : G) : idle c → wrote p (buf c) w → werr w = Some e →
  let c' := deferred (Some e) (mkGobCodec w d g) in
  sent (wr (buf c')) `prefix_of` sent (wr (buf c)) ++ p ∧
  werr (buf c') = Some e ∧ answers (wr (buf c)) ≠ [] ∧ closed (wr (buf c')) = true.
Proof.
  intros (Hb & _ & _) (Hc & Ha & Hp) He c'.
  destruct (deferred_err (mkGobCodec w d g) e He Hc) as (E1 & E2 & E3). fold c' in E1, E2, E3.
  rewrite E3. cbn [buf]. rewrite He, Hb, app_nil_r in *. split_and!; try done. by intros [? _]%Ha.
Qed.

(** C34: what a write of an encodable header and body on an idle codec does:
    the peer gets a prefix of the two encodings, in order.  Either all of it,
    with no error; or the connection failed, and then the error is returned
    and the connection closed, or [Write] panics (only with more bytes than
    the buffer holds), or, when only the last flush failed, it returns no
    error, and the next [Write] returns it and closes the connection.  A
    connection that accepts every write gets everything. *)
Theorem Write_delivers_or_breaks h b c :
  idle c → encodes encode (enc c) (inl h) → encodes encode (after encode (enc c) (inl h)) (inr b) →
  let all := bytes encode (enc c) (inl h) ++ bytes encode (after encode (enc c) (inl h)) (inr b) in
  ∃ r c', Write encode h b c = Ret (r, c') ∧
    sent (wr (buf c')) `prefix_of` sent (wr (buf c)) ++ all ∧
    (r = Returned None ∧ idle c' ∧ sent (wr (buf c')) = sent (wr (buf c)) ++ all ∨
     ∃ e, werr (buf c') = Some e ∧ answers (wr (buf c)) ≠ [] ∧
       (r = Returned (Some e) ∧ closed (wr (buf c')) = true ∨
        (∃ msg, r = Panicked msg) ∧ closed (wr (buf c')) = false ∧
          defaultBufSize < Z.of_nat (length all) ∨
        r = Returned None ∧ closed (wr (buf c')) = false ∧
        ∀ h' b', (encode (enc c') (inl h')).1.1 ≠ [] →
          ∃ c'', Write encode h' b' c' = Ret (Returned (Some e), c'') ∧
                 closed (wr (buf c'')) = true ∧ sent (wr (buf c'')) = sent (wr (buf c')))).
Proof.
  intros Hi Hh Hb all. pose proof Hi as (Hnil & He & Hc).
  destruct (Encode_ok (inl h) c He Hc Hh) as (w1 & E1 & Hw1 & Hs1). unfold Write. rewrite E1. cbn [obind].
  destruct (werr w1) as [e|] eqn:He1.
  { destruct (deferred_failed c w1 _ e (dec c) (after encode (enc c) (inl h)) Hi Hw1 He1) as (Hp & ? & ? & ?).
    do 2 eexists. split; [reflexivity|]. split; [|right; exists e; by auto].
    unfold all. rewrite app_assoc. by apply prefix_app_r. }
  destruct (Encode_ok (inr b) (mkGobCodec w1 (dec c) (after encode (enc c) (inl h))) He1
    (proj1 Hw1) Hb) as (w2 & E2 & Hw2 & Hs2). rewrite E2. cbn [obind buf dec enc] in *.
  pose proof (wrote_trans _ _ _ _ _ Hw1 He1 Hw2) as Hw. fold all in Hw.
  destruct (werr w2) as [e|] eqn:He2.
  { do 2 eexists. split; [reflexivity|]. unfold deferred, Flush. cbn [buf dec enc]. rewrite He2. cbn [snd buf].
    destruct Hw as (Hc2 & Ha2 & Hp2). rewrite He2, Hnil, app_nil_r in Hp2. split; [done|].
    right. exists e. split; [done|]. split; [intros [? _]%Ha2; congruence|]. right; left.
    split_and!; [by eexists|done|]. destruct (decide (defaultBufSize < Z.of_nat (length all))); [done|].
    unfold all in *. rewrite length_app in *. rewrite Hs1, Hnil in Hs2 by (rewrite Hnil; cbn; lia).
    cbn in Hs2. rewrite Hs2 in He2 by lia. done. }
  destruct (deferred_ok (mkGobCodec w2 (dec c) (after encode (after encode (enc c) (inl h)) (inr b)))
    He2 (proj1 Hw)) as (w3 & -> & Hw3 & Hb3).
  pose proof (wrote_trans _ _ _ _ _ Hw He2 Hw3) as (Hc3 & Ha3 & Hs3).
  rewrite Hnil, !app_nil_r in Hs3. do 2 eexists. split; [reflexivity|]. cbn [buf dec enc].
  destruct (werr w3) as [e|] eqn:He3.
  - split; [done|]. right. exists e. split; [done|]. split; [intros [? _]%Ha3; congruence|].
    right; right. split_and!; [done|done|]. intros h' b' Hne. by apply Write_broken.
  - rewrite Hb3, app_nil_r in Hs3 by done. split; [by rewrite Hs3|]. left.
    split_and!; [done| |done]. by split_and!; [apply Hb3| |].
Qed.

(** A body that cannot be encoded makes [Write] panic; the header is sent all
    the same, with no body behind it but what the encoder had written, and
    the connection stays open. *)
Theorem Write_bad_body_panics h b c e : idle c → answers (wr (buf c)) = [] →
  encodes encode (enc c) (inl h) → (encode (after encode (enc c) (inl h)) (inr b)).1.2 = Some e →
  ∃ c' msg, Write encode h b c = Ret (Panicked msg, c') ∧ idle c' ∧
    sent (wr (buf c')) = sent (wr (buf c)) ++ bytes encode (enc c) (inl h) ++
      bytes encode (after encode (enc c) (inl h)) (inr b).
Proof.
  intros Hi Hans Hh Hb. pose proof Hi as (Hnil & He & Hc).
  destruct (Encode_ok (inl h) c He Hc Hh) as (w1 & E1 & Hw1 & _). unfold Write. rewrite E1. cbn [obind].
  destruct (proj1 (proj2 Hw1) Hans) as [He1 Ha1]. rewrite He1. unfold Encode, bytes at 2.
  cbn [buf dec enc]. destruct (encode (after encode (enc c) (inl h)) (inr b)) as [[msgs e2] g].
  cbn in Hb. subst e2. destruct (write_all_ok msgs w1 He1 (proj1 Hw1)) as (w2 & -> & Hw2). cbn [obind].
  pose proof (wrote_trans _ _ _ _ _ Hw1 He1 Hw2) as Hw.
  destruct (proj1 (proj2 Hw) Hans) as [He2 Ha2]. rewrite He2.
  destruct (deferred_ok (mkGobCodec w2 (dec c) g) He2 (proj1 Hw)) as (w3 & E3 & Hw3 & Hb3).
  rewrite E3. do 2 eexists. split; [reflexivity|]. cbn [buf].
  pose proof (wrote_trans _ _ _ _ _ Hw He2 Hw3) as (Hc3 & Ha3 & Hs3).
  destruct (Ha3 Hans) as [He3 _]. rewrite He3, Hnil, Hb3, !app_nil_r in Hs3 by done.
  split; [|done]. by split_and!; [apply Hb3| |].
Qed.
End Write.

(** ** Witnesses *)

(** An encoder without state: a header is its number, a body is its bytes and
    cannot be encoded when it is empty. *)
Definition demo_encode (g : unit) (v : Header + list Z) : list (list Z) * error * unit :=
  match v with
  | inl h => ([[Client.Seq h]], None, g)
  | inr [] => ([], Some "gob: type has no exported fields"%string, g)
  | inr b => ([b], None, g)
  end.

Definition demo_codec (l : list (option (nat * string))) : GobCodec (G := unit) (D := unit) :=
  NewGobCodec tt tt (mkConn [] l false).

Definition demo_head (n : Z) : Header := Client.mkHeader "Foo.Sum" n "".

(** The last flush fails after one byte, and the next write reports it. *)
Lemma Write_delivers_or_breaks_witness : ∃ r c',
  Write demo_encode (demo_head 7) [1; 2] (demo_codec [Some (1%nat, "broken pipe"%string)]) =
    Ret (r, c') ∧ r = Returned None ∧ sent (wr (buf c')) = [7] ∧ sent (wr (buf c')) `prefix_of` [7; 1; 2].
Proof.
  destruct (Write_delivers_or_breaks demo_encode (demo_head 7) [1; 2]
    (demo_codec [Some (1%nat, "broken pipe"%string)])) as (r & c' & E & Hp & _).
  - by split_and!.
  - reflexivity.
  - reflexivity.
  - exists r, c'. split; [exact E|]. vm_compute in E. injection E as <- <-. by split_and!.
Defined.

Lemma Write_bad_body_panics_witness : ∃ c' msg,
  Write demo_encode (demo_head 7) [] (demo_codec []) = Ret (Panicked msg, c') ∧
  idle c' ∧ sent (wr (buf c')) = [7].
Proof. by apply (Write_bad_body_panics demo_encode (demo_head 7) [] (demo_codec []) "gob: type has no exported fields"). Defined.

(** A connection error inside the encoding of a body panics too: a reply larger
    than the buffer, to a client that has gone, ends the process. *)
Example Write_failure_panics :
  match Write demo_encode (demo_head 7) (replicate 5000 0) (demo_codec [Some (0%nat, "broken pipe"%string)]) with
  | Ret (Panicked _, c') => closed (wr (buf c')) = false ∧ sent (wr (buf c')) = []
  | _ => False
  end.
Proof. vm_compute. by split. Qed.
