(* ===== verification/Server.v ===== *)
(** * geerpc: the server

    Models [src/geerpc/server.go]: registration, the lookup of a method, the loop
    that reads requests off a codec, and the race between a method and its
    timeout.  A codec is what the class [Codec] of [Codec.v] says, and the
    theorems hold for every codec with its laws.  The goroutine that handles a
    request is a transition system of its own. *)

From S2P Require Import Prelude GoStrings Service Codec.
From S2P Require Client.

Section Server.
Context (upper : string → bool) {C V : Type} `{!Codec C V}.

(** ** Registration and lookup *)

Record Server := mkServer { serviceMap : gmap string service }.

Definition NewServer : Server := mkServer ∅.

(** The server of the package, which the functions [Register], [Accept] and
    [HandleHTTP] without a receiver use. *)
Definition DefaultServer : Server := NewServer.

Definition Register (name : string) (ms : list rmethod) (s : Server) : outcome (error * Server) :=
  let! svc := newService upper name ms in
  match serviceMap s !! s_name svc with
  | Some _ => Ret (Some ("rpc: service already defined: " +:+ s_name svc), s)
  | None => Ret (None, mkServer (<[s_name svc := svc]> (serviceMap s)))
  end.

Definition findService (s : Server) (serviceMethod : string)
  : option service * option methodType * error :=
  match cut_last "."%char serviceMethod with
  | None => (None, None, Some ("rpc server: service/method request ill-formed: " +:+ serviceMethod))
  | Some (serviceName, methodName) =>
      match serviceMap s !! serviceName with
      | None => (None, None, Some ("rpc server: can't find service " +:+ serviceName))
      | Some svc =>
          match methods svc !! methodName with
          | None => (Some svc, None, Some ("rpc server: can't find method " +:+ methodName))
          | Some mtype => (Some svc, Some mtype, None)
          end
      end
  end.

(** ** Reading requests *)

(** The argument that was read, with the values made for it and the reply. *)
Record request := mkRequest {
  h : Header; argv : option (rvalue * V); replyv : option rvalue;
  mtype : option methodType; svc : option service }.

(** The type a body is decoded at: the pointer [argvi] points to it. *)
Definition body_type (v : rvalue) : rtype :=
  match v with NewPtr t | NewPtrMap t | NewPtrSlice t | Zero t => t end.

Definition readRequest (s : Server) (c : C) : outcome (option request * error * C) :=
  match ReadHeader c with
  | (inr err, c) => Ret (None, Some err, c)
  | (inl h, c) =>
      match findService s (Client.ServiceMethod h) with
      | (svc, mtype, Some err) => Ret (Some (mkRequest h None None mtype svc), Some err, c)
      | (svc, None, None) => Panic "invalid memory address or nil pointer dereference"
      | (svc, Some m, None) =>
          let! a := newArgv m in
          let! r := newReplyv m in
          match ReadBody (body_type a) c with
          | (inr err, c) => Ret (Some (mkRequest h None (Some r) (Some m) svc), Some err, c)
          | (inl v, c) => Ret (Some (mkRequest h (Some (a, v)) (Some r) (Some m) svc), None, c)
          end
      end
  end.

(** What the loop does with a request: it answers with an error itself, or
    starts a goroutine that handles it. *)
Inductive event := Refused (h : Header) | Started (r : request).

Definition set_error (e : string) (h : Header) : Header :=
  Client.mkHeader (Client.ServiceMethod h) (Client.Seq h) e.

(** [serveCodec] up to the end of its loop; every turn reads from the codec. *)
Fixpoint serveCodec (fuel : nat) (s : Server) (c : C) : outcome (list event * C) :=
  match fuel with
  | O => NoFuel
  | S fuel =>
      let! (req, err, c) := readRequest s c in
      match err, req with
      | Some _, None => Ret ([], c)
      | Some e, Some r =>
          let! (evs, c) := serveCodec fuel s c in Ret (Refused (set_error e (h r)) :: evs, c)
      | None, Some r =>
          let! (evs, c) := serveCodec fuel s c in Ret (Started r :: evs, c)
      | None, None => Panic "invalid memory address or nil pointer dereference"
      end
  end.

(** ** Specification *)

(** The request that a header for a registered method and a body make. *)
Definition request_of (s : Server) (h : Header) (v : V) : option request :=
  match findService s (Client.ServiceMethod h) with
  | (svc, Some m, None) =>
      match newArgv m, newReplyv m with
      | Ret a, Ret r => Some (mkRequest h (Some (a, v)) (Some r) (Some m) svc)
      | _, _ => None
      end
  | _ => None
  end.

Definition wanted (r : request) : rtype :=
  match argv r with Some (a, _) => body_type a | None => error_type end.

(** The bytes of calls as the client writes them. *)
Definition written `{!CodecLaws C V} (rs : list (Header * V * request)) : C :=
  foldr (λ '(h, v, r) c, put_header h (put_body (wanted r) v c)) eof rs.

(** ** Lookup *)

Lemma findService_registered name ms s s' m : Register name ms s = Ret (None, s') →
  contains "."%char m = false →
  findService s' (name +:+ String "."%char m) =
    match registerMethods upper ms !! m with
    | Some mt => (Some (mkService name ms (registerMethods upper ms)), Some mt, None)
    | None => (Some (mkService name ms (registerMethods upper ms)), None,
               Some ("rpc server: can't find method " +:+ m))
    end.
Proof using.
  intros H Hm. unfold Register, newService in H. destruct (IsExported upper name); [|done]. cbn in H.
  destruct (serviceMap s !! name); [done|]. simplify_eq. unfold findService.
  rewrite cut_last_app by done. cbn [serviceMap]. rewrite lookup_insert_eq. cbn [methods]. done.
Qed.

Lemma readRequest_unknown s c h0 c' err : ReadHeader c = (inl h0, c') →
  (findService s (Client.ServiceMethod h0)).2 = Some err →
  ∃ r, readRequest s c = Ret (Some r, Some err, c') ∧ h r = h0.
Proof using.
  intros Hc Herr. unfold readRequest. rewrite Hc.
  destruct (findService s _) as [[svc0 [m|]] e]; cbn in Herr; subst e; by eexists.
Qed.

(** ** Properties *)

(** Registering a service makes exactly its published methods callable under
    "Service.Method" (for a method name without dots, as Go's are), a second
    service of the same name is refused without a change, and no other name
    is affected. *)
Theorem Register_findService name ms s s' : Register name ms s = Ret (None, s') →
  (∀ m, contains "."%char m = false →
    (findService s' (name +:+ String "."%char m)).1.2 = registerMethods upper ms !! m) ∧
  (∀ ms', Register name ms' s' = Ret (Some ("rpc: service already defined: " +:+ name), s')) ∧
  (∀ sm n m, cut_last "."%char sm = Some (n, m) → n ≠ name → findService s' sm = findService s sm).
Proof using.
  intros H. split_and!.
  - intros m Hm. rewrite (findService_registered _ _ _ _ _ H Hm). by destruct (registerMethods upper ms !! m).
  - intros ms'. unfold Register, newService in *. destruct (IsExported upper name); [|done]. cbn in *.
    destruct (serviceMap s !! name); [done|]. simplify_eq. cbn. by rewrite lookup_insert_eq.
  - intros sm n m Hcut Hne. unfold Register, newService in H.
    destruct (IsExported upper name); [|done]. cbn in H.
    destruct (serviceMap s !! name); [done|]. simplify_eq. unfold findService. rewrite Hcut.
    cbn [serviceMap]. by rewrite lookup_insert_ne.
Qed.

(** On a connection whose requests all name published methods with bodies of
    their argument types, the loop starts a handler for every request, in
    order, answers nothing by itself, and ends when the client hangs up. *)
Theorem serveCodec_starts_all `{!CodecLaws C V} s rs fuel :
  Forall (λ '(h, v, r), request_of s h v = Some r) rs → (length rs < fuel)%nat →
  serveCodec fuel s (written rs) = Ret ((λ '(h, v, r), Started r) <$> rs, eof).
Proof using.
  intros Hrs. revert fuel. induction Hrs as [|[[h0 v] r] rs Hr Hrs IH]; intros [|fuel] Hf;
    cbn in Hf; try lia.
  - cbn. destruct ReadHeader_eof as [e He]. unfold readRequest. by rewrite He.
  - cbn [serveCodec written foldr]. unfold readRequest. rewrite ReadHeader_put.
    unfold request_of in Hr.
    destruct (findService s _) as [[svc0 [m|]] [e|]]; try done.
    destruct (newArgv m) as [a| |]; try done. destruct (newReplyv m) as [p| |]; try done.
    simplify_eq. cbn [obind wanted argv]. rewrite ReadBody_put. cbn [obind].
    fold (written rs). by rewrite IH by lia.
Qed.

(** C31: a request for an unknown method ends the connection when its body has no
    field in common with a header: the loop answers it with an error but does
    not read its body, takes the body for the next header, and stops; the
    requests behind it are never read. *)
Theorem unknown_method_ends_connection `{!CodecLaws C V} s rs h0 v t rest err fuel :
  Forall (λ '(h, v, r), request_of s h v = Some r) rs → (length rs + 1 < fuel)%nat →
  (findService s (Client.ServiceMethod h0)).2 = Some err → as_header t v = None →
  ∃ c, serveCodec fuel s
    (foldr (λ '(h, v, r) c, put_header h (put_body (wanted r) v c))
       (put_header h0 (put_body t v rest)) rs) =
  Ret (((λ '(h, v, r), Started r) <$> rs) ++ [Refused (set_error err h0)], c).
Proof using.
  intros Hrs. revert fuel. induction Hrs as [|[[h1 v1] r] rs Hr Hrs IH]; intros fuel Hf Herr Hbody.
  - destruct fuel as [|[|fuel]]; cbn in Hf; try lia. cbn [serveCodec foldr].
    destruct (readRequest_unknown s (put_header h0 (put_body t v rest)) h0 _ err
      (ReadHeader_put _ _) Herr) as (r & -> & Hr). cbn [obind].
    destruct (ReadHeader_body t v rest Hbody) as (e & c' & Hb).
    assert (readRequest s (put_body t v rest) = Ret (None, Some e, c')) as ->
      by (unfold readRequest; by rewrite Hb).
    cbn. rewrite Hr. eauto.
  - destruct fuel as [|fuel]; [lia|]. cbn in Hf. cbn [serveCodec foldr]. unfold readRequest at 1.
    rewrite ReadHeader_put. unfold request_of in Hr.
    destruct (findService s (Client.ServiceMethod h1)) as [[svc0 [m|]] [e|]]; try done.
    destruct (newArgv m) as [a| |]; try done. destruct (newReplyv m) as [p| |]; try done.
    simplify_eq. cbn [obind wanted argv]. rewrite ReadBody_put. cbn [obind].
    destruct (IH fuel ltac:(lia) Herr Hbody) as [c ->]. cbn. eauto.
Qed.
End Server.

(** ** Handling one request

    [handleRequest] with its child goroutine.  [called] and [sent] are
    unbuffered, so a send and its receive are one step of both. *)

Inductive main_pc :=
  | MWait     (* <-called, or the select with the timer *)
  | MTimeout  (* the timer fired: sendResponse *)
  | MSent     (* <-sent *)
  | MDone.    (* returned; wg.Done() *)

Inductive child_pc :=
  | CCall               (* req.svc.call(...) *)
  | CCalled (e : error) (* called <- struct{}{} *)
  | CSend (e : error)   (* sendResponse *)
  | CSent               (* sent <- struct{}{} *)
  | CEnd.

(** A response: the method's error or reply, or the timeout's error. *)
Inductive response := RResult (e : error) | RTimeout.

Record handling := mkHandling { main : main_pc; child : child_pc; responses : list response }.

Inductive haction := HReturn (e : error) | HTimer | HMainSend | HCalled | HChildSend | HSent.

(** [timeout] is the handle timeout of the connection; 0 for none. *)
Definition hstep (timeout : Z) (a : haction) (s : handling) : option handling :=
  match a, main s, child s with
  | HReturn e, m, CCall => Some (mkHandling m (CCalled e) (responses s))
  | HTimer, MWait, c =>
      if bool_decide (timeout = 0) then None else Some (mkHandling MTimeout c (responses s))
  | HMainSend, MTimeout, c => Some (mkHandling MDone c (responses s ++ [RTimeout]))
  | HCalled, MWait, CCalled e => Some (mkHandling MSent (CSend e) (responses s))
  | HChildSend, m, CSend e => Some (mkHandling m CSent (responses s ++ [RResult e]))
  | HSent, MSent, CSent => Some (mkHandling MDone CEnd (responses s))
  | _, _, _ => None
  end.

Fixpoint hrun (timeout : Z) (tr : list haction) (s : handling) : option handling :=
  match tr with
  | [] => Some s
  | a :: tr => s' ← hstep timeout a s; hrun timeout tr s'
  end.

Definition handleRequest : handling := mkHandling MWait CCall [].

(** What the two goroutines have done so far, by where they are. *)
Definition handling_inv (timeout : Z) (tr : list haction) (s : handling) : Prop :=
  match main s, child s with
  | MWait, CCall => responses s = []
  | MWait, CCalled e => responses s = [] ∧ HReturn e ∈ tr
  | MTimeout, CCall => responses s = [] ∧ timeout ≠ 0
  | MTimeout, CCalled e => responses s = [] ∧ timeout ≠ 0
  | MDone, CCall => responses s = [RTimeout] ∧ timeout ≠ 0
  | MDone, CCalled e => responses s = [RTimeout] ∧ timeout ≠ 0
  | MSent, CSend e => responses s = [] ∧ HReturn e ∈ tr
  | MSent, CSent => ∃ e, responses s = [RResult e] ∧ HReturn e ∈ tr
  | MDone, CEnd => ∃ e, responses s = [RResult e] ∧ HReturn e ∈ tr
  | _, _ => False
  end.

Lemma hstep_inv timeout tr a s s' : handling_inv timeout tr s → hstep timeout a s = Some s' →
  handling_inv timeout (tr ++ [a]) s'.
Proof.
  destruct s as [m c rs]. unfold handling_inv. cbn. intros Hi H.
  destruct a, m, c; cbn in *; try done; repeat case_bool_decide; simplify_eq; cbn in *;
    destruct_and?; try destruct Hi as (e' & -> & Hin); subst; rewrite ?elem_of_app;
    try (eexists; rewrite elem_of_app); split_and?; try done; try (left; done); set_solver.
Qed.

Lemma hrun_inv timeout tr0 tr s s' : handling_inv timeout tr0 s → hrun timeout tr s = Some s' →
  handling_inv timeout (tr0 ++ tr) s'.
Proof.
  revert tr0 s. induction tr as [|a tr IH]; intros tr0 s Hi H; cbn in H.
  - simplify_eq. by rewrite app_nil_r.
  - destruct (hstep timeout a s) as [s1|] eqn:E; [|done]. cbn in H.
    rewrite (cons_middle a tr0 tr), app_assoc. eapply IH; [by eapply hstep_inv|done].
Qed.

(** C32: whatever the race between the method and its timeout, at most one response
    is sent for a request, and when the handler has returned exactly one was:
    the timeout's error, which needs a timeout, or the result the method
    returned. *)
Theorem handleRequest_responds_once timeout tr s : hrun timeout tr handleRequest = Some s →
  (length (responses s) ≤ 1)%nat ∧
  (main s = MDone → (responses s = [RTimeout] ∧ timeout ≠ 0) ∨
     ∃ e, responses s = [RResult e] ∧ HReturn e ∈ tr).
Proof.
  intros H. apply (hrun_inv timeout [] tr) in H; [|done]. unfold handling_inv in H.
  destruct s as [m c rs]. cbn in *.
  destruct m, c; cbn in H; try done; destruct_and?; try destruct H as (e' & -> & Hin); subst;
    cbn; split; try lia; intros ?; try done; eauto.
Qed.

(** A request that ran into its timeout leaks its goroutine: however the
    method goes on, the child never gets past the send on the channel nobody
    receives from, so it never ends. *)
Theorem timeout_leaks_goroutine timeout tr tr' s s' : hrun timeout tr handleRequest = Some s →
  main s = MDone → responses s = [RTimeout] → hrun timeout tr' s = Some s' →
  child s' = CCall ∨ ∃ e, child s' = CCalled e.
Proof.
  intros H Hm Hr H'. apply (hrun_inv timeout [] tr) in H; [|done].
  assert (child s = CCall ∨ ∃ e, child s = CCalled e) as Hc.
  { unfold handling_inv in H. rewrite Hm, Hr in H. destruct (child s); try done; eauto.
    by destruct H as (? & ? & _). }
  clear H Hr. revert s Hm Hc H'. induction tr' as [|a tr' IH]; intros s Hm Hc H'; cbn in H'.
  { by simplify_eq. }
  destruct (hstep timeout a s) as [s1|] eqn:E; [|done]. cbn in H'.
  assert (main s1 = MDone ∧ (child s1 = CCall ∨ ∃ e, child s1 = CCalled e)) as [Hm1 Hc1]; [|eauto].
  unfold hstep in E. rewrite Hm in E.
  destruct Hc as [Hc|[e Hc]]; rewrite Hc in E; destruct a; simplify_eq; cbn; eauto.
Qed.

(** ** Witnesses *)

Definition demo_server : Server :=
  mkServer {[ "Foo"%string := mkService "Foo" [Sum] (registerMethods (λ _, false) [Sum]) ]}.

Definition demo_header (m : string) (n : Z) : Header := Client.mkHeader m n "".

Definition demo_request (n v : Z) : request (V := Z) :=
  mkRequest (demo_header "Foo.Sum" n) (Some (Zero args_type, v)) (Some (NewPtr int_type))
    (Some (mkMethodType Sum args_type (RType "" "" (Service.Ptr int_type)) 0))
    (Some (mkService "Foo" [Sum] (registerMethods (λ _, false) [Sum]))).

Lemma Register_findService_witness : ∃ s', Register (λ _, false) "Foo" [Sum] NewServer = Ret (None, s') ∧
  is_Some (findService s' "Foo.Sum").1.2.
Proof.
  eexists. split; [reflexivity|].
  pose proof (proj1 (Register_findService (λ _, false) "Foo" [Sum] NewServer _ eq_refl) "Sum"%string
    eq_refl) as H.
  change ("Foo" +:+ String "."%char "Sum") with "Foo.Sum"%string in H. rewrite H.
  eexists. reflexivity.
Defined.

Lemma serveCodec_starts_all_witness :
  serveCodec (C := list (item Z)) (V := Z) 3 demo_server
    (written [(demo_header "Foo.Sum" 1, 10, demo_request 1 10);
              (demo_header "Foo.Sum" 2, 20, demo_request 2 20)]) =
  Ret ([Started (demo_request 1 10); Started (demo_request 2 20)], []).
Proof.
  refine (serveCodec_starts_all (C := list (item Z)) (CodecLaws0 := items_laws) demo_server
    [(demo_header "Foo.Sum" 1, 10, demo_request 1 10);
     (demo_header "Foo.Sum" 2, 20, demo_request 2 20)] 3 _ _).
  - repeat constructor.
  - cbn. lia.
Defined.

Lemma unknown_method_ends_connection_witness : ∃ c,
  serveCodec 9 demo_server
    [IHeader (demo_header "Foo.Sum" 1); IBody args_type 10;
     IHeader (demo_header "Foo.Nope" 2); IBody args_type 20;
     IHeader (demo_header "Foo.Sum" 3); IBody args_type 30] =
  Ret ([Started (demo_request 1 10);
        Refused (Client.mkHeader "Foo.Nope" 2 "rpc server: can't find method Nope")], c).
Proof.
  refine (unknown_method_ends_connection (C := list (item Z)) (CodecLaws0 := items_laws) demo_server
    [(demo_header "Foo.Sum" 1, 10, demo_request 1 10)] (demo_header "Foo.Nope" 2) 20 args_type
    [IHeader (demo_header "Foo.Sum" 3); IBody args_type 30]
    "rpc server: can't find method Nope" 9 _ _ _ _).
  - repeat constructor.
  - cbn. lia.
  - reflexivity.
  - reflexivity.
Defined.

Lemma handleRequest_responds_once_witness :
  (RTimeout :: [] = [RTimeout] ∧ 5 ≠ 0) ∨
  ∃ e, [RTimeout] = [RResult e] ∧ HReturn e ∈ [HTimer; HMainSend; HReturn None].
Proof.
  apply (handleRequest_responds_once 5 [HTimer; HMainSend; HReturn None]
    (mkHandling MDone (CCalled None) [RTimeout])); reflexivity.
Defined.

Lemma timeout_leaks_goroutine_witness :
  CCalled None = CCall ∨ ∃ e, CCalled None = CCalled e.
Proof.
  apply (timeout_leaks_goroutine 5 [HTimer; HMainSend] [HReturn None]
    (mkHandling MDone CCall [RTimeout]) (mkHandling MDone (CCalled None) [RTimeout])); reflexivity.
Defined.
