(* ===== verification/Rpc.v ===== *)
(** * geerpc: a client and a server on one connection

    Composes the client of [Client.v] with the server of [Server.v] through
    the two ordered streams of values that a connection is for their codecs.
    The callers and the receiver of the client, the loop of [serveCodec] and
    the goroutines of [handleRequest] take their steps in any order; the
    connection can break between any two values of either stream, and the
    server can crash.  What a method returns is chosen by the step in which it
    returns; the types of arguments and replies are those of the two programs.
    The end of the file is the service of [src/geerpc/main/main.go]. *)

From S2P Require Import Prelude GoStrings Service Codec Server.
From S2P Require Client.

Abbreviation stream := (list (item string)).

(** What a caller passes: the argument with its type, and the type its reply
    variable has. *)
Record Args := mkArgs { a_type : rtype; a_value : string; r_type : rtype }.

(** ** State *)

(** Where [serveCodec] is: reading the next request, answering one that it
    refuses, past its loop, or done; or the process is dead. *)
Inductive loop_pc := LRead | LRefuse (h : Header) | LWait | LClosed | LCrashed.

(** A goroutine of [handleRequest] with its child; [result] is what the method
    stored in the reply and what it returned. *)
Record handler := mkHandler {
  req : request (V := string); state : handling; result : option (string * error) }.

(** [up] is read by the server and [down] by the client; a stream that is cut
    ends where it does. *)
Record net := mkNet {
  client : Client.sys;
  up : stream; up_cut : bool; down : stream; down_cut : bool;
  loop : loop_pc; handlers : list handler }.

Inductive naction :=
  | NClient (a : Client.action)
  | NWrite (t : nat) (r : error) (n : nat)
  | NHeader | NBody
  | NCutUp (k : nat) | NCutDown (k : nat)
  | SRead | SRefuse
  | SHandler (i : nat) (a : haction) (reply : string)
  | SClose | SCrash.

(** The steps of a client that do not use the connection. *)
Definition local (a : Client.action) : bool :=
  match a with
  | Client.AWrite _ _ | Client.AHeader _ | Client.ABody _ => false
  | _ => true
  end.

Definition set_client (c : Client.sys) (s : net) : net :=
  mkNet c (up s) (up_cut s) (down s) (down_cut s) (loop s) (handlers s).
Definition set_down (d : stream) (s : net) : net :=
  mkNet (client s) (up s) (up_cut s) d (down_cut s) (loop s) (handlers s).
Definition set_loop (l : loop_pc) (s : net) : net :=
  mkNet (client s) (up s) (up_cut s) (down s) (down_cut s) l (handlers s).

(** The type of [invalidRequest]. *)
Definition invalidRequest_type : rtype := RType "" "" Plain.

(** [sendResponse] *)
Definition sendResponse (h : Header) (t : rtype) (v : string) (s : net) : net :=
  if down_cut s then s else set_down (down s ++ [IHeader h; IBody t v]) s.

Definition crashed (l : loop_pc) : bool := match l with LCrashed => true | _ => false end.

(** The header of a response to a method that returned [e]. *)
Definition with_error (e : error) (h : Header) : Header :=
  match e with Some e => set_error e h | None => h end.

(** The type and the value of [req.replyv] after the method. *)
Definition reply_type (hd : handler) : rtype :=
  match replyv (req hd) with Some v => body_type v | None => invalidRequest_type end.
Definition reply_value (hd : handler) : string :=
  match result hd with Some (v, _) => v | None => "" end.

(** [cc.ReadBody(nil)] *)
Definition ReadBody_nil (d : stream) : (string + string) * stream :=
  match d with
  | [] => (inr "EOF"%string, [])
  | IBody _ v :: d => (inl v, d)
  | IHeader _ :: d => (inl ""%string, d)
  end.

Section Rpc.
(** [fmt.Errorf] of a format without arguments, and [Duration.String]. *)
Context (Errorf : string → string) (Duration_String : Z → string).
(** The server after registration, its handle timeout, and the calls that are
    made: kind, channel, method and arguments. *)
Context (srv : Server) (timeout : Z) (reqs : list (Client.kind * nat * string * Args)).

Definition args_of (t : nat) : option Args := snd <$> reqs !! t.

Definition timeout_error : string :=
  "rpc server: request handle timeout: expect within " +:+ Duration_String timeout.

(** The steps of the client. *)
Definition client_step (a : naction) (s : net) : option net :=
  match a with
  | NClient a =>
      if local a then c ← Client.step Errorf a (client s); Some (set_client c s) else None
  | NWrite t r n =>
      call ← Client.calls (client s) !! t;
      a ← args_of t;
      c ← Client.step Errorf (Client.AWrite t r) (client s);
      let sent := [IHeader (Client.mkHeader (Client.c_method call) (Client.cSeq call) "");
                   IBody (a_type a) (a_value a)] in
      Some (mkNet c (if up_cut s then up s else up s ++ take n sent)
              (up_cut s || bool_decide (n < 2)%nat) (down s) (down_cut s) (loop s) (handlers s))
  | NHeader =>
      if bool_decide (down s = []) && negb (down_cut s) then None
      else let '(r, d) := ReadHeader (down s) in
           c ← Client.step Errorf (Client.AHeader r) (client s);
           Some (set_down d (set_client c s))
  | NBody =>
      if bool_decide (down s = []) && negb (down_cut s) then None
      else match Client.recv (client s) with
           | Client.RBody h (Some t) =>
               a ← args_of t;
               let '(r, d) :=
                 if bool_decide (Client.Error h ≠ ""%string) then ReadBody_nil (down s)
                 else ReadBody (r_type a) (down s) in
               c ← Client.step Errorf (Client.ABody r) (client s);
               Some (set_down d (set_client c s))
           | Client.RBody h None =>
               let '(r, d) := ReadBody_nil (down s) in
               c ← Client.step Errorf (Client.ABody r) (client s);
               Some (set_down d (set_client c s))
           | _ => None
           end
  | _ => None
  end.

(** The connection breaks: what a reader has not got yet is lost from some
    point on. *)
Definition cut_step (a : naction) (s : net) : option net :=
  match a with
  | NCutUp k => Some (mkNet (client s) (take k (up s)) true (down s) (down_cut s) (loop s) (handlers s))
  | NCutDown k => Some (mkNet (client s) (up s) (up_cut s) (take k (down s)) true (loop s) (handlers s))
  | _ => None
  end.

(** The loop of [serveCodec]: one turn is [readRequest]. *)
Definition loop_step (a : naction) (s : net) : option net :=
  match a, loop s with
  | SRead, LRead =>
      if bool_decide (up s = []) && negb (up_cut s) then None
      else let next u l hs := mkNet (client s) u (up_cut s) (down s) (down_cut s) l hs in
           match readRequest srv (up s) with
           | Ret (None, _, u) => Some (next u LWait (handlers s))
           | Ret (Some r, Some e, u) => Some (next u (LRefuse (set_error e (h r))) (handlers s))
           | Ret (Some r, None, u) =>
               Some (next u LRead (handlers s ++ [mkHandler r handleRequest None]))
           | Panic _ => Some (mkNet (client s) (up s) true (down s) true LCrashed (handlers s))
           | NoFuel => None
           end
  | SRefuse, LRefuse h => Some (set_loop LRead (sendResponse h invalidRequest_type "" s))
  | SClose, LWait =>
      if forallb (λ hd, match main (state hd) with MDone => true | _ => false end) (handlers s)
      then Some (mkNet (client s) (up s) true (down s) true LClosed (handlers s)) else None
  | SCrash, _ => Some (mkNet (client s) (up s) true (down s) true LCrashed (handlers s))
  | _, _ => None
  end.

(** A step of a goroutine of [handleRequest] or of its child. *)
Definition handler_step (i : nat) (a : haction) (reply : string) (s : net) : option net :=
  hd ← handlers s !! i;
  if crashed (loop s) then None
  else
    st ← hstep timeout a (state hd);
    let hd' := mkHandler (req hd) st
                 (match a with HReturn e => Some (reply, e) | _ => result hd end) in
    let s' := mkNet (client s) (up s) (up_cut s) (down s) (down_cut s) (loop s)
                (<[i := hd']> (handlers s)) in
    Some (match a, child (state hd) with
          | HMainSend, _ => sendResponse (set_error timeout_error (h (req hd))) invalidRequest_type "" s'
          | HChildSend, CSend e =>
              sendResponse (with_error e (h (req hd))) (reply_type hd) (reply_value hd) s'
          | _, _ => s'
          end).

Definition nstep (a : naction) (s : net) : option net :=
  match a with
  | NClient _ | NWrite _ _ _ | NHeader | NBody => client_step a s
  | NCutUp _ | NCutDown _ => cut_step a s
  | SRead | SRefuse | SClose | SCrash => loop_step a s
  | SHandler i a reply => handler_step i a reply s
  end.

Fixpoint nrun (tr : list naction) (s : net) : option net :=
  match tr with
  | [] => Some s
  | a :: tr => s' ← nstep a s; nrun tr s'
  end.

(** A new client, and a server that has accepted its options. *)
Definition connected (caps : list nat) : net :=
  mkNet (Client.started reqs.*1 caps) [] false [] false LRead [].

(** ** Specification *)

(** A call's request as the caller made it: header, and argument with its
    type. *)
Definition request_from (cs : list Client.Call) (t : nat) (h : Header) (ty : rtype) (v : string) : Prop :=
  ∃ c a, cs !! t = Some c ∧ args_of t = Some a ∧ Client.past_write (Client.c_pc c) = true ∧
    Client.cSeq c ≠ 0 ∧ h = Client.mkHeader (Client.c_method c) (Client.cSeq c) "" ∧
    ty = a_type a ∧ v = a_value a.

(** A request as the server has it is the one the caller made, for a method
    that is published. *)
Definition serves (cs : list Client.Call) (t : nat) (r : request (V := string)) : Prop :=
  ∃ z v, request_from cs t (h r) (body_type z) v ∧ argv r = Some (z, v) ∧
    (∃ m, findService srv (Client.ServiceMethod (h r)) = (svc r, Some m, None) ∧ mtype r = Some m).

(** A handler that executes the method [m] on the arguments [a]. *)
Definition executes (m : string) (a : Args) (hd : handler) : Prop :=
  Client.ServiceMethod (h (req hd)) = m ∧
  (∃ z, argv (req hd) = Some (z, a_value a) ∧ body_type z = a_type a) ∧
  ∃ mt, findService srv m = (svc (req hd), Some mt, None) ∧ mtype (req hd) = Some mt.

(** The number [n] is that of a handler whose method stored [v] and returned
    no error, or one without text. *)
Definition returned (hs : list handler) (n : Z) (v : string) : Prop :=
  ∃ i hd e, hs !! i = Some hd ∧ Client.Seq (h (req hd)) = n ∧ result hd = Some (v, e) ∧
    (e = None ∨ e = Some ""%string).

Definition sound (hs : list handler) (h : Header) (v : string) : Prop :=
  Client.Error h = ""%string → returned hs (Client.Seq h) v.

(** A stream of headers, each with its body; the last body can be missing on a
    stream that is cut. *)
Fixpoint paired (P : Header → rtype → string → Prop) (cut : bool) (l : stream) : Prop :=
  match l with
  | [] => True
  | [IHeader _] => cut = true
  | IHeader h :: IBody t v :: l => P h t v ∧ paired P cut l
  | _ => False
  end.

(** What the receiver of the client finds next on the stream. *)
Definition down_ok (hs : list handler) (rv : Client.rpc) (cut : bool) (d : stream) : Prop :=
  match rv with
  | Client.RHeader | Client.RDone _ None => paired (λ h _, sound hs h) cut d
  | Client.RGot h | Client.RBody h _ =>
      match d with
      | [] => cut = true
      | IBody _ v :: d => sound hs h v ∧ paired (λ h _, sound hs h) cut d
      | IHeader _ :: _ => False
      end
  | _ => True
  end.

(** What the loop finds next: requests, or the body of one it has refused. *)
Definition up_ok (cs : list Client.Call) (cut : bool) (u : stream) : Prop :=
  paired (λ h ty v, ∃ t, request_from cs t h ty v) cut u ∨ ∃ ty v u', u = IBody ty v :: u'.

Definition headers (u : stream) : list Z :=
  omap (λ i, match i with IHeader h => Some (Client.Seq h) | IBody _ _ => None end) u.

Definition in_flight (u : stream) (hs : list handler) : list Z :=
  headers u ++ ((λ hd, Client.Seq (h (req hd))) <$> hs).

(** Numbers of calls that were written, each once. *)
Definition flight_ok (cs : list Client.Call) (l : list Z) : Prop :=
  NoDup l ∧ ∀ n, n ∈ l → ∃ t c, cs !! t = Some c ∧ Client.cSeq c = n ∧ n ≠ 0 ∧
    Client.past_write (Client.c_pc c) = true.

(** Handlers come and go on, but what a method returned stays. *)
Definition grown (hs hs' : list handler) : Prop :=
  ∀ i hd, hs !! i = Some hd → ∃ hd', hs' !! i = Some hd' ∧ req hd' = req hd ∧
    (is_Some (result hd) → result hd' = result hd).

Definition handler_ok (cs : list Client.Call) (hd : handler) : Prop :=
  (∃ t, serves cs t (req hd)) ∧
  match child (state hd) with
  | CCall => result hd = None
  | CCalled e | CSend e => ∃ v, result hd = Some (v, e)
  | CSent | CEnd => True
  end.

Record net_inv (s : net) : Prop := {
  ni_client : Client.inv (client s);
  ni_reply : Client.reply_inv (client s);
  ni_calls : Client.keeps (Client.calls (Client.started reqs.*1 [])) (Client.calls (client s));
  ni_heard : ∀ h v, (h, v) ∈ Client.heard (client s) → sound (handlers s) h v;
  ni_down : down_ok (handlers s) (Client.recv (client s)) (down_cut s) (down s);
  ni_up : loop s = LRead ∨ (∃ h, loop s = LRefuse h) → up_ok (Client.calls (client s)) (up_cut s) (up s);
  ni_refuse : ∀ h, loop s = LRefuse h → Client.Error h ≠ ""%string;
  ni_flight : flight_ok (Client.calls (client s)) (in_flight (up s) (handlers s));
  ni_handlers : Forall (handler_ok (Client.calls (client s))) (handlers s);
}.

(** ** Streams *)

Lemma paired_mono (P Q : Header → rtype → string → Prop) (b b' : bool) l :
  (∀ h t v, P h t v → Q h t v) → (b = true → b' = true) → paired P b l → paired Q b' l.
Proof using.
  intros HP Hb. revert l. fix IH 1. intros [|[h|t v] [|[h2|t2 v2] l]]; cbn; try done.
  intros [? ?]. split; [auto|by apply IH].
Qed.

Lemma paired_app (P : Header → rtype → string → Prop) b l h t v : paired P false l → P h t v →
  paired P b (l ++ [IHeader h; IBody t v]).
Proof using.
  intros Hl Hp. revert l Hl. fix IH 1. intros [|[h1|t1 v1] [|[h2|t2 v2] l]]; cbn; try done.
  intros [? ?]. split; [done|by apply IH].
Qed.

Lemma paired_take P b k l : paired P b l → paired P true (take k l).
Proof using.
  revert l k. fix IH 1. intros [|[h1|t1 v1] [|[h2|t2 v2] l]] [|[|k]]; cbn; try done.
  intros [? ?]. split; [done|by apply IH].
Qed.

(** What a write puts on the stream, whole or cut off. *)
Lemma paired_write P n l h t v : paired P false l → P h t v →
  paired P (bool_decide (n < 2)%nat) (l ++ take n [IHeader h; IBody t v]).
Proof using.
  intros Hl Hp. case_bool_decide as Hn.
  - replace (l ++ take n [IHeader h; IBody t v]) with (take (length l + n) (l ++ [IHeader h; IBody t v])).
    + eapply paired_take. by apply (paired_app P false).
    + by rewrite take_app_add.
  - rewrite take_ge by (cbn; lia). by apply paired_app.
Qed.

Lemma headers_app u u' : headers (u ++ u') = headers u ++ headers u'.
Proof using. apply omap_app. Qed.

Lemma headers_take k u : headers (take k u) `sublist_of` headers u.
Proof using.
  rewrite <- (take_drop k u) at 2. rewrite headers_app. apply sublist_inserts_r. reflexivity.
Qed.

(** ** What stays true while the rest goes on *)

Lemma request_from_keeps cs cs' t h ty v : Client.keeps cs cs' →
  request_from cs t h ty v → request_from cs' t h ty v.
Proof using.
  intros Hk (c & a & Hc & Ha & Hp & Hz & -> & Ht & Hv).
  destruct (Hk t c Hc) as (c' & Hc' & _ & Hm & Hs & Hp').
  exists c', a. rewrite Hm, (Hs Hz). auto 10.
Qed.

Lemma handler_ok_keeps cs cs' hd : Client.keeps cs cs' → handler_ok cs hd → handler_ok cs' hd.
Proof using.
  intros Hk [(t & z & v & Hr & Ha) Hc]. split; [|done].
  exists t, z, v. split; [by eapply request_from_keeps|done].
Qed.

Lemma up_ok_keeps cs cs' (b b' : bool) u : Client.keeps cs cs' → (b = true → b' = true) →
  up_ok cs b u → up_ok cs' b' u.
Proof using.
  intros Hk Hb [Hu|Hu]; [left|by right]. revert Hu. apply paired_mono; [|done].
  intros h ty v (t & Ht). exists t. by eapply request_from_keeps.
Qed.

Lemma flight_keeps cs cs' l : Client.keeps cs cs' → flight_ok cs l → flight_ok cs' l.
Proof using.
  intros Hk [Hn Hl]. split; [done|]. intros n Hin. destruct (Hl n Hin) as (t & c & Hc & Hs & Hz & Hp).
  destruct (Hk t c Hc) as (c' & Hc' & _ & _ & Hs' & Hp').
  exists t, c'. split_and!; [done| |done|by apply Hp']. rewrite <- Hs. apply Hs'. by rewrite Hs.
Qed.

Lemma flight_sub cs l l' : l' ⊆+ l → flight_ok cs l → flight_ok cs l'.
Proof using.
  intros Hs [Hn Hl]. split; [|intros n Hin; by apply Hl; eapply elem_of_submseteq].
  apply submseteq_Permutation in Hs as [k Hk]. rewrite Hk in Hn. by apply NoDup_app in Hn as (? & _).
Qed.

Lemma grown_refl hs : grown hs hs.
Proof using. intros i hd H. by exists hd. Qed.

Lemma grown_snoc hs hd : grown hs (hs ++ [hd]).
Proof using. intros i hd' H. exists hd'. split; [|done]. by apply lookup_app_l_Some. Qed.

Lemma grown_set hs i hd hd' : hs !! i = Some hd → req hd' = req hd →
  (is_Some (result hd) → result hd' = result hd) → grown hs (<[i := hd']> hs).
Proof using.
  intros Hi Hq Hr j x Hj. rewrite (lookup_set _ _ _ _ _ Hi). case_decide; [|by exists x].
  subst. simplify_eq. by exists hd'.
Qed.

Lemma sound_grown hs hs' h v : grown hs hs' → sound hs h v → sound hs' h v.
Proof using.
  intros Hg Hs He. destruct (Hs He) as (i & hd & e & Hi & Hn & Hr & Hv).
  destruct (Hg i hd Hi) as (hd' & Hi' & Hq & Hr'). exists i, hd', e. rewrite Hq, Hr' by (by rewrite Hr).
  done.
Qed.

Lemma down_ok_mono hs hs' rv (b b' : bool) d : grown hs hs' → (b = true → b' = true) →
  down_ok hs rv b d → down_ok hs' rv b' d.
Proof using.
  intros Hg Hb. assert (∀ l, paired (λ h _, sound hs h) b l → paired (λ h _, sound hs' h) b' l) as Hp.
  { intros l. apply paired_mono; [|done]. intros h _ v. by apply sound_grown. }
  destruct rv as [|h|h c|c [e|]| | |]; cbn; auto;
    destruct d as [|[|]]; auto; intros [? ?]; split; auto; by eapply sound_grown.
Qed.

Lemma down_ok_take hs rv b k d : down_ok hs rv b d → down_ok hs rv true (take k d).
Proof using.
  destruct rv as [|h|h c|c [e|]| | |]; cbn; auto; try apply paired_take;
    destruct k, d as [|[|]]; cbn; auto; try done; intros [? ?]; (split; [done|]); by eapply paired_take.
Qed.

Lemma down_ok_app hs rv h t v d : down_ok hs rv false d → sound hs h v →
  down_ok hs rv false (d ++ [IHeader h; IBody t v]).
Proof using.
  intros Hd Hs. destruct rv as [|h1|h1 c|c [e|]| | |]; cbn in *; auto; try by apply paired_app.
  all: destruct d as [|[|]]; try done; destruct Hd; (split; [done|]); by apply paired_app.
Qed.

(** ** The steps of the client *)

Lemma client_inv_step a c c' : Client.inv c → Client.reply_inv c → Client.step Errorf a c = Some c' →
  Client.inv c' ∧ Client.reply_inv c' ∧ Client.keeps (Client.calls c) (Client.calls c').
Proof using.
  intros Hi Hr H. split_and!; [by eapply Client.client_step_inv| |by eapply Client.step_keeps].
  apply Client.step_split in H as [H|H]; [by eapply Client.caller_reply|by eapply Client.recv_reply].
Qed.

Lemma local_step a c c' : local a = true → Client.step Errorf a c = Some c' →
  Client.heard c' = Client.heard c ∧
  (∀ hs b d, down_ok hs (Client.recv c) b d → down_ok hs (Client.recv c') b d).
Proof using.
  intros Hl H. apply Client.step_split in H. destruct c as [k snd held cs chs rv lg hd wr].
  destruct H as [H|H]; destruct a; cbn in H, Hl; try done;
    unfold Client.registerCall, Client.removeCall, Client.Close, Client.after_body in H;
    Client.step_cases H; try done; split; try done; intros hs b d; cbn; done.
Qed.

Lemma write_step t r c c' : Client.step Errorf (Client.AWrite t r) c = Some c' → ∃ call call',
  Client.calls c !! t = Some call ∧ Client.c_pc call = Client.CWrite ∧
  Client.calls c' !! t = Some call' ∧ Client.past_write (Client.c_pc call') = true ∧
  Client.c_method call' = Client.c_method call ∧ Client.cSeq call' = Client.cSeq call ∧
  Client.heard c' = Client.heard c ∧ Client.recv c' = Client.recv c.
Proof using.
  intros H. apply Client.step_split in H as [H|H]; destruct c as [k snd held cs chs rv lg hd wr];
    cbn in H; [|done].
  destruct (cs !! t) as [call|] eqn:E; [|done]. cbn in H. destruct (Client.c_pc call) eqn:Ep; try done.
  simplify_eq. cbn. do 2 eexists. split; [done|]. split; [done|].
  rewrite (lookup_set _ _ _ _ _ E), decide_True by done. split; [done|]. by destruct r.
Qed.

Lemma header_step r c c' : Client.step Errorf (Client.AHeader r) c = Some c' →
  Client.recv c = Client.RHeader ∧ Client.heard c' = Client.heard c ∧
  Client.recv c' = match r with inl h => Client.RGot h | inr e => Client.RTerm e end.
Proof using.
  intros H. apply Client.step_split in H as [H|H]; destruct c as [k snd held cs chs rv lg hd wr];
    cbn in H; [done|]. by destruct r, rv; simplify_eq.
Qed.

Lemma body_step r h x c c' : Client.recv c = Client.RBody h x →
  Client.step Errorf (Client.ABody r) c = Some c' →
  Client.heard c' = Client.heard c ++ (match r with inl v => [(h, v)] | inr _ => [] end) ∧
  (∀ hs b d, match r with inl _ => paired (λ h _, sound hs h) b d | inr _ => True end →
     down_ok hs (Client.recv c') b d).
Proof using.
  intros Hx H. apply Client.step_split in H as [H|H]; destruct c as [k snd held cs chs rv lg hd wr];
    cbn in H, Hx; [done|]. subst rv. destruct x as [x|]; [destruct (cs !! x); [|done]|]; cbn in H;
    simplify_eq; cbn; (split; [destruct r; by rewrite ?app_nil_r|]); by destruct r.
Qed.

(** A step of the client that leaves the streams to the server alone. *)
Lemma client_inv s c d : net_inv s → Client.inv c → Client.reply_inv c →
  Client.keeps (Client.calls (client s)) (Client.calls c) →
  (∀ h v, (h, v) ∈ Client.heard c → sound (handlers s) h v) →
  down_ok (handlers s) (Client.recv c) (down_cut s) d → net_inv (set_down d (set_client c s)).
Proof using.
  intros [] ? ? Hk ? ?. split; cbn; try done.
  - by eapply Client.keeps_trans.
  - intros Hl. eapply up_ok_keeps; eauto.
  - by eapply flight_keeps.
  - eapply Forall_impl; [done|]. intros hd. by apply handler_ok_keeps.
Qed.

Lemma local_inv a s s' : net_inv s → client_step (NClient a) s = Some s' → net_inv s'.
Proof using.
  intros Hn H. cbn in H. destruct (local a) eqn:Hl; [|done].
  destruct (Client.step Errorf a (client s)) as [c|] eqn:E; [|done]. simplify_eq/=.
  destruct (client_inv_step _ _ _ (ni_client _ Hn) (ni_reply _ Hn) E) as (Hi & Hr & Hk).
  destruct (local_step _ _ _ Hl E) as [Hh Hd].
  replace (set_client c s) with (set_down (down s) (set_client c s)) by done.
  apply client_inv; try done; [rewrite Hh; apply (ni_heard _ Hn)|apply Hd, (ni_down _ Hn)].
Qed.

Lemma header_inv s s' : net_inv s → client_step NHeader s = Some s' → net_inv s'.
Proof using.
  intros Hn H. unfold client_step in H. destruct (_ && _); [done|].
  destruct (ReadHeader (down s)) as [r d] eqn:Er.
  destruct (Client.step Errorf _ (client s)) as [c|] eqn:E; [|done]. simplify_eq/=.
  destruct (client_inv_step _ _ _ (ni_client _ Hn) (ni_reply _ Hn) E) as (Hi & Hr & Hk).
  destruct (header_step _ _ _ E) as (Hv & Hh & Hv'). pose proof (ni_down _ Hn) as Hd. rewrite Hv in Hd.
  apply client_inv; try done; [rewrite Hh; apply (ni_heard _ Hn)|]. rewrite Hv'.
  destruct r as [h|]; [|done]. cbn in Hd. destruct (down s) as [|[h1|] l]; cbn in Er; simplify_eq.
  cbn in Hd |- *. by destruct d as [|[]].
Qed.

Lemma read_body_inv s c' h x r d : net_inv s → Client.recv (client s) = Client.RBody h x →
  Client.step Errorf (Client.ABody r) (client s) = Some c' →
  (∀ v, r = inl v → sound (handlers s) h v ∧ paired (λ h _, sound (handlers s) h) (down_cut s) d) →
  net_inv (set_down d (set_client c' s)).
Proof using.
  intros Hn Hx E Hr. destruct (client_inv_step _ _ _ (ni_client _ Hn) (ni_reply _ Hn) E) as (Hi & Hri & Hk).
  destruct (body_step _ _ _ _ _ Hx E) as [Hh Hd].
  apply client_inv; try done.
  - intros h1 v1. rewrite Hh, elem_of_app. intros [Hin|Hin]; [by apply (ni_heard _ Hn)|].
    destruct r as [v|]; [|by apply elem_of_nil in Hin]. apply list_elem_of_singleton in Hin.
    simplify_eq. by apply (Hr v).
  - apply Hd. destruct r as [v|]; [|done]. by apply (Hr v).
Qed.

(** Reading a body, typed or not, gives the value that is next. *)
Lemma next_body s h x r d : net_inv s → Client.recv (client s) = Client.RBody h x →
  ((∃ t, ReadBody t (down s) = (r, d)) ∨ ReadBody_nil (down s) = (r, d)) →
  ∀ v, r = inl v → sound (handlers s) h v ∧ paired (λ h _, sound (handlers s) h) (down_cut s) d.
Proof using.
  intros Hn Hx H v ->. pose proof (ni_down _ Hn) as Hd. rewrite Hx in Hd. cbn in Hd.
  destruct (down s) as [|[|t1 v1] l]; [|done|].
  - by destruct H as [[t H]|H].
  - destruct H as [[t H]|H]; cbn in H; [destruct (rtype_eqb t t1)|]; by simplify_eq.
Qed.

(** The body that the receiver reads, typed or not. *)
Lemma client_reads_body s s' : client_step NBody s = Some s' → ∃ r d c h x,
  Client.recv (client s) = Client.RBody h x ∧
  ((∃ t, ReadBody t (down s) = (r, d)) ∨ ReadBody_nil (down s) = (r, d)) ∧
  Client.step Errorf (Client.ABody r) (client s) = Some c ∧ s' = set_down d (set_client c s).
Proof using.
  intros H. unfold client_step in H. destruct (_ && _); [done|].
  destruct (Client.recv (client s)) as [| |h [x|]| | | |] eqn:Hx; try done.
  - destruct (args_of x) as [a|]; [|done]. cbn [mbind option_bind] in H.
    case_bool_decide; [destruct (ReadBody_nil (down s)) as [r d] eqn:Er|
      destruct (ReadBody (r_type a) (down s)) as [r d] eqn:Er];
      (destruct (Client.step _ _ _) as [c|] eqn:E; [|done]); injection H as <-; exists r, d, c, h, (Some x); eauto 10.
  - destruct (ReadBody_nil (down s)) as [r d] eqn:Er.
    destruct (Client.step _ _ _) as [c|] eqn:E; [|done]. injection H as <-. exists r, d, c, h, None; eauto 10.
Qed.

Lemma body_inv s s' : net_inv s → client_step NBody s = Some s' → net_inv s'.
Proof using.
  intros Hn (r & d & c & h & x & Hx & Hrd & E & ->)%client_reads_body.
  eapply read_body_inv; [done..|]. by eapply next_body.
Qed.

(** The number of a call that is being written is not in flight. *)
Lemma flight_new cs l t c : (∀ x y cx cy, cs !! x = Some cx → cs !! y = Some cy →
    Client.cSeq cx = Client.cSeq cy → Client.cSeq cx ≠ 0 → x = y) →
  flight_ok cs l → cs !! t = Some c → Client.past_write (Client.c_pc c) = false →
  Client.cSeq c ∉ l.
Proof using.
  intros Hu [_ Hl] Hc Hp Hin. destruct (Hl _ Hin) as (x & cx & Hx & Hs & Hz & Hpx).
  assert (x = t) as -> by (apply (Hu x t cx c); congruence). congruence.
Qed.

Lemma flight_snoc cs l n t c : flight_ok cs l → n ∉ l → cs !! t = Some c → Client.cSeq c = n → n ≠ 0 →
  Client.past_write (Client.c_pc c) = true → flight_ok cs (n :: l).
Proof using.
  intros [Hn Hl] Hin Hc Hs Hz Hp. split; [by constructor|].
  intros m [->|Hm]%elem_of_cons; [by exists t, c|by apply Hl].
Qed.

Lemma flight_write u n h t v hs : in_flight (u ++ take n [IHeader h; IBody t v]) hs ⊆+
  Client.Seq h :: in_flight u hs.
Proof using.
  unfold in_flight. rewrite headers_app.
  assert (headers (take n [IHeader h; IBody t v]) ⊆+ [Client.Seq h]) as Hs.
  { destruct n as [|[|n]]; cbn; [apply submseteq_nil_l|done|by rewrite take_nil]. }
  trans ((headers u ++ [Client.Seq h]) ++ ((λ hd, Client.Seq (Server.h (req hd))) <$> hs)).
  - apply submseteq_app; [by apply submseteq_app|done].
  - rewrite <- app_assoc. apply Permutation_submseteq. symmetry. apply Permutation_middle.
Qed.

Lemma write_inv t r n s s' : net_inv s → client_step (NWrite t r n) s = Some s' → net_inv s'.
Proof using.
  intros Hn H. cbn in H. destruct (Client.calls (client s) !! t) as [call|] eqn:Hc; [|done]. cbn in H.
  destruct (args_of t) as [a|] eqn:Ha; [|done]. cbn in H.
  destruct (Client.step _ _ _) as [c|] eqn:E; [|done]. simplify_eq/=.
  destruct (client_inv_step _ _ _ (ni_client _ Hn) (ni_reply _ Hn) E) as (Hi & Hr & Hk).
  destruct (write_step _ _ _ _ E) as (call1 & call' & Hc1 & Hp & Hc' & Hp' & Hm & Hs & Hh & Hv).
  rewrite Hc in Hc1. injection Hc1 as <-.
  pose proof (Client.inv_seq _ (ni_client _ Hn)) as Hseq.
  assert (Client.cSeq call ≠ 0) as Hz by (apply (Client.si_writing _ Hseq t); [done|by rewrite Hp]).
  pose proof (flight_keeps _ _ _ Hk (ni_flight _ Hn)) as Hf.
  assert (Client.cSeq call ∉ in_flight (up s) (handlers s)) as Hnew.
  { eapply flight_new; [apply (Client.si_uniq _ Hseq)|apply (ni_flight _ Hn)|done|by rewrite Hp]. }
  destruct Hn as [? ? ? Hheard Hdown Hup ? ? Hhs].
  split; cbn; try done; rewrite ?Hh, ?Hv; try done.
  - by eapply Client.keeps_trans.
  - intros Hl. specialize (Hup Hl). destruct (up_cut s); cbn; [by eapply up_ok_keeps|].
    apply (up_ok_keeps _ _ false false _ Hk) in Hup; [|done]. destruct Hup as [Hu|(ty & v & u & ->)].
    + left. apply paired_write; [done|]. exists t, call', a. by rewrite Hm, Hs.
    + right. by do 3 eexists.
  - destruct (up_cut s); [done|]. eapply flight_sub; [apply flight_write|]. cbn.
    eapply flight_snoc; try done.
  - eapply Forall_impl; [done|]. intros hd. by apply handler_ok_keeps.
Qed.

(** ** The steps of the connection and the server *)

Lemma cut_inv a s s' : net_inv s → cut_step a s = Some s' → net_inv s'.
Proof using.
  intros [] H. destruct a; cbn in H; try done; simplify_eq; split; cbn; try done.
  - intros Hl. destruct (ni_up0 Hl) as [Hu|(ty & v & u & Hu)]; [left; by eapply paired_take|].
    rewrite Hu. destruct k; [left; done|right; by do 3 eexists].
  - eapply flight_sub; [|done]. unfold in_flight. apply submseteq_app; [|done].
    apply sublist_submseteq, headers_take.
  - by eapply down_ok_take.
Qed.

Lemma sendResponse_inv h t v s : net_inv s → sound (handlers s) h v → net_inv (sendResponse h t v s).
Proof using.
  intros Hn Hs. unfold sendResponse. destruct (down_cut s) eqn:Hc; [done|]. destruct Hn.
  split; cbn; try done. rewrite Hc in *. by apply down_ok_app.
Qed.

Lemma findService_error m a b e : findService srv m = (a, b, Some e) → e ≠ ""%string.
Proof using.
  unfold findService. destruct (cut_last _ m) as [[x y]|]; [destruct (serviceMap srv !! x) as [sv|]|];
    [destruct (methods sv !! y)|..]; intros ?; by simplify_eq.
Qed.

Lemma readRequest_ended (u : stream) e u' : readRequest (V := string) srv u = Ret (None, e, u') → u' = tail u.
Proof using.
  unfold readRequest. destruct u as [|[h0|] u]; cbn; [by intros [= _ <-]| |by intros [= _ <-]].
  destruct (findService srv _) as [[sv [m|]] [e0|]]; try done.
  destruct (newArgv m) as [z| |]; try done. cbn. destruct (newReplyv m) as [p| |]; try done. cbn.
  destruct u as [|[|t v] u]; cbn; [done|done|]. by destruct (rtype_eqb (body_type z) t).
Qed.

Lemma readRequest_refused (u : stream) (r : request (V := string)) e u' : readRequest srv u = Ret (Some r, Some e, u') →
  e ≠ ""%string ∧ ∃ u0, u = IHeader (h r) :: u0 ∧ (u' = u0 ∨ u' = tail u0).
Proof using.
  unfold readRequest. destruct u as [|[h0|] u]; cbn; [done| |done].
  destruct (findService srv _) as [[sv om] [e0|]] eqn:Ef.
  - intros H. assert (e0 = e ∧ h r = h0 ∧ u' = u) as (-> & <- & ->) by (destruct om; by simplify_eq).
    split; [by eapply findService_error|]. by exists u; auto.
  - destruct om as [m|]; [|done]. destruct (newArgv m) as [z| |]; try done. cbn.
    destruct (newReplyv m) as [p| |]; try done. cbn. destruct u as [|[h1|t v] u]; cbn.
    + intros [= <- <- <-]. split; [done|]. eexists. split; [done|]. by left.
    + intros [= <- <- <-]. split; [done|]. eexists. split; [done|]. by right.
    + destruct (rtype_eqb (body_type z) t); intros [= <- <- <-].
      split; [done|]. eexists. split; [done|]. by right.
Qed.

Lemma readRequest_started (u : stream) (r : request (V := string)) u' : readRequest srv u = Ret (Some r, None, u') → ∃ z v m,
  u = IHeader (h r) :: IBody (body_type z) v :: u' ∧ argv r = Some (z, v) ∧
  findService srv (Client.ServiceMethod (h r)) = (svc r, Some m, None) ∧ mtype r = Some m.
Proof using.
  unfold readRequest. destruct u as [|[h0|] u]; cbn; [done| |done].
  destruct (findService srv _) as [[sv [m|]] [e0|]] eqn:Ef; try done.
  destruct (newArgv m) as [z| |]; try done. cbn. destruct (newReplyv m) as [p| |]; try done. cbn.
  destruct u as [|[h1|t v] u]; cbn; try done. destruct (rtype_eqb (body_type z) t) eqn:Et; [|done].
  intros [= <- <-]. apply rtype_eqb_eq in Et as <-. by exists z, v, m.
Qed.

(** The request that was read goes from the stream to a handler. *)
Lemma flight_started hs r z v u : in_flight (IHeader (h r) :: IBody (body_type z) v :: u) hs ≡ₚ
  in_flight u (hs ++ [mkHandler r handleRequest None]).
Proof using. unfold in_flight. rewrite fmap_app. cbn. rewrite app_assoc. apply Permutation_cons_append. Qed.

Lemma flight_tail u u' hs : u' `suffix_of` u → in_flight u' hs ⊆+ in_flight u hs.
Proof using.
  intros [x ->]. unfold in_flight. rewrite headers_app, <- app_assoc.
  by apply submseteq_inserts_l.
Qed.

Lemma tail_suffix (u : stream) : tail u `suffix_of` u.
Proof using. destruct u as [|x u]; [done|by exists [x]]. Qed.

Lemma read_started_inv s r u' : net_inv s → loop s = LRead → readRequest srv (up s) = Ret (Some r, None, u') →
  net_inv (mkNet (client s) u' (up_cut s) (down s) (down_cut s) LRead
             (handlers s ++ [mkHandler r handleRequest None])).
Proof using.
  intros Hn Hl Hrd. apply readRequest_started in Hrd as (z & v & m & Hu & Hav & Hf & Hm).
  destruct Hn as [? ? ? Hheard Hdown Hup ? Hfl Hhs]. specialize (Hup (or_introl Hl)). rewrite Hu in Hup, Hfl.
  destruct Hup as [[[t Hq] Hp]|(ty & v0 & u0 & ?)]; [|done].
  split; cbn; try done.
  - intros h0 v0 Hin. eapply sound_grown; [apply grown_snoc|by apply Hheard].
  - eapply down_ok_mono; [apply grown_snoc|done|done].
  - intros _. by left.
  - eapply flight_sub; [|done]. apply Permutation_submseteq. symmetry. apply flight_started.
  - apply Forall_app_2; [done|]. apply Forall_singleton. split; [|done]. exists t, z, v. eauto.
Qed.

Lemma read_refused_inv s r e u' : net_inv s → loop s = LRead →
  readRequest srv (up s) = Ret (Some r, Some e, u') →
  net_inv (mkNet (client s) u' (up_cut s) (down s) (down_cut s) (LRefuse (set_error e (h r))) (handlers s)).
Proof using.
  intros Hn Hl Hrd. apply readRequest_refused in Hrd as (He & u0 & Hu & Hor).
  destruct Hn as [? ? ? Hheard Hdown Hup ? Hfl Hhs]. specialize (Hup (or_introl Hl)). rewrite Hu in Hup, Hfl.
  destruct Hup as [Hp|(? & ? & ? & ?)]; [|done].
  split; cbn; try done.
  - intros _. destruct u0 as [|[|ty v] u0]; [|by cbn in Hp|].
    + left. by destruct Hor as [->| ->].
    + destruct Hp as [_ Hp]. destruct Hor as [->| ->]; [right; by do 3 eexists|by left].
  - by intros h0 [= <-].
  - eapply flight_sub; [|done]. apply flight_tail. destruct Hor as [->| ->]; [by exists [IHeader (h r)]|].
    destruct u0 as [|x u0]; [by exists [IHeader (h r)]|by exists [IHeader (h r); x]].
Qed.

(** The loop ends, or the process does. *)
Lemma ended_inv s u b d l : net_inv s → u `suffix_of` up s → (down_cut s = true → d = true) →
  l ≠ LRead → (∀ h, l ≠ LRefuse h) →
  net_inv (mkNet (client s) u b (down s) d l (handlers s)).
Proof using.
  intros [] Hu Hd Hl1 Hl2. split; cbn; try done.
  - eapply down_ok_mono; [apply grown_refl|done|done].
  - intros [->|[h0 Hh]]; [done|by destruct (Hl2 h0)].
  - intros h0 Hh. by destruct (Hl2 h0).
  - eapply flight_sub; [by apply flight_tail|done].
Qed.

Lemma loop_inv a s s' : net_inv s → loop_step a s = Some s' → net_inv s'.
Proof using.
  intros Hn H. unfold loop_step in H. destruct a; try done.
  - destruct (loop s) eqn:Hl; try done. destruct (_ && _); [done|].
    destruct (readRequest srv (up s)) as [[[[r|] [e|]] u]|msg|] eqn:Er; simplify_eq.
    + by apply (read_refused_inv _ _ _ _ Hn Hl Er).
    + by apply (read_started_inv _ _ _ Hn Hl Er).
    + apply readRequest_ended in Er as ->. apply ended_inv; try done. apply tail_suffix.
    + apply readRequest_ended in Er as ->. apply ended_inv; try done. apply tail_suffix.
    + by apply ended_inv.
  - destruct (loop s) as [|h0| | |] eqn:Hl; try done. simplify_eq.
    pose proof (sendResponse_inv h0 invalidRequest_type "" s Hn) as Hs.
    assert (net_inv (sendResponse h0 invalidRequest_type "" s)) as [? ? ? ? ? Hup ? ? ?].
    { apply Hs. intros He. by destruct (ni_refuse _ Hn h0 Hl). }
    split; cbn; try done. intros _. apply Hup. right. exists h0.
    unfold sendResponse. by destruct (down_cut s).
  - destruct (loop s) eqn:Hl; try done. destruct (forallb _ _); [|done]. simplify_eq.
    by apply ended_inv.
  - simplify_eq. by apply ended_inv.
Qed.

(** A step of a handler that sends nothing. *)
Lemma handler_set_inv s i hd hd' : net_inv s → handlers s !! i = Some hd → req hd' = req hd →
  (is_Some (result hd) → result hd' = result hd) → handler_ok (Client.calls (client s)) hd' →
  net_inv (mkNet (client s) (up s) (up_cut s) (down s) (down_cut s) (loop s) (<[i := hd']> (handlers s))).
Proof using.
  intros [? ? ? Hheard ? ? ? Hfl Hhs] Hi Hq Hr Hok. pose proof (grown_set _ _ _ _ Hi Hq Hr) as Hg.
  split; cbn [client up up_cut down down_cut loop handlers]; try done.
  - intros h0 v Hin. eapply sound_grown; [done|by apply Hheard].
  - by eapply down_ok_mono.
  - assert (in_flight (up s) (<[i := hd']> (handlers s)) = in_flight (up s) (handlers s)) as ->; [|done].
    unfold in_flight. f_equal. rewrite list_fmap_insert, list_insert_id; [done|].
    by rewrite list_lookup_fmap, Hi, Hq.
  - by apply Forall_insert.
Qed.

Lemma handler_hstep_ok cs hd a st reply : handler_ok cs hd → hstep timeout a (state hd) = Some st →
  let hd' := mkHandler (req hd) st (match a with HReturn e => Some (reply, e) | _ => result hd end) in
  (is_Some (result hd) → result hd' = result hd) ∧ handler_ok cs hd'.
Proof using.
  intros [Hs Hc] H. unfold handler_ok. cbn. destruct (state hd) as [m c rs]. cbn in *.
  destruct a, m, c; cbn in H; try done; try case_bool_decide; simplify_eq; cbn in *; split; eauto;
    rewrite Hc; by intros [].
Qed.

(** The response of a method carries what the method returned. *)
Lemma response_sound cs hd i hs e st : handler_ok cs hd → child (state hd) = CSend e →
  hs !! i = Some (mkHandler (req hd) st (result hd)) →
  sound hs (with_error e (h (req hd))) (reply_value hd).
Proof using.
  intros [(t & z & v0 & (c & a & _ & _ & _ & _ & Hh & _) & _) Hc] Hch Hi He. rewrite Hch in Hc.
  destruct Hc as [v Hv]. unfold reply_value. rewrite Hv in Hi |- *.
  exists i, (mkHandler (req hd) st (Some (v, e))), e. split; [done|].
  split; [by destruct e|]. split; [done|]. destruct e as [e|]; [|by left]. right. by rewrite <- He.
Qed.

Lemma handler_inv i a reply s s' : net_inv s → handler_step i a reply s = Some s' → net_inv s'.
Proof using.
  intros Hn H. unfold handler_step in H. destruct (handlers s !! i) as [hd|] eqn:Hi; [|done].
  cbn [mbind option_bind] in H. destruct (crashed (loop s)); [done|].
  destruct (hstep timeout a (state hd)) as [st|] eqn:E; [|done]. cbn [mbind option_bind] in H.
  pose proof (proj1 (Forall_lookup _ _) (ni_handlers _ Hn) i hd Hi) as Hok.
  destruct (handler_hstep_ok _ _ _ _ reply Hok E) as [Hr Hok'].
  pose proof (λ Hq, handler_set_inv _ _ _ _ Hn Hi Hq Hr Hok') as Hs. specialize (Hs eq_refl). injection H as <-.
  destruct a; try done.
  - apply sendResponse_inv; [done|]. by intros ?.
  - destruct (child (state hd)) eqn:Hch; try done. apply sendResponse_inv; [done|].
    eapply response_sound; [done|done|]. cbn [handlers]. by rewrite (lookup_set _ _ _ _ _ Hi), decide_True.
Qed.

(** ** Every reachable state *)

Lemma nstep_inv a s s' : net_inv s → nstep a s = Some s' → net_inv s'.
Proof using.
  intros Hn H. destruct a; cbn [nstep] in H.
  - by eapply local_inv.
  - by eapply write_inv.
  - by eapply header_inv.
  - by eapply body_inv.
  - by eapply cut_inv.
  - by eapply cut_inv.
  - by eapply loop_inv.
  - by eapply loop_inv.
  - by eapply handler_inv.
  - by eapply loop_inv.
  - by eapply loop_inv.
Qed.

Lemma nrun_inv tr s s' : net_inv s → nrun tr s = Some s' → net_inv s'.
Proof using.
  revert s. induction tr as [|a tr IH]; intros s Hn H; cbn in H; [by simplify_eq|].
  destruct (nstep a s) as [s1|] eqn:E; [|done]. eapply IH; [by eapply nstep_inv|done].
Qed.

Lemma connected_inv caps : Z.of_nat (length reqs) < 2 ^ 64 - 1 → net_inv (connected caps).
Proof using.
  intros Hl. split; cbn; try done.
  - apply Client.client_started_inv. by rewrite length_fmap.
  - apply Client.started_reply.
  - apply Client.keeps_refl.
  - intros h0 v Hin. by apply elem_of_nil in Hin.
  - intros _. by left.
  - split; [constructor|]. intros n Hin. by apply elem_of_nil in Hin.
Qed.

(** A call has one handler at most. *)
Lemma one_handler s i j hd hd' : net_inv s → handlers s !! i = Some hd → handlers s !! j = Some hd' →
  Client.Seq (h (req hd)) = Client.Seq (h (req hd')) → i = j.
Proof using.
  intros Hn Hi Hj He. destruct (ni_flight _ Hn) as [Hnd _]. unfold in_flight in Hnd.
  apply NoDup_app in Hnd as (_ & _ & Hnd). rewrite NoDup_alt in Hnd.
  apply (Hnd i j (Client.Seq (h (req hd)))); rewrite list_lookup_fmap, ?Hi, ?Hj; cbn; congruence.
Qed.

(** The call that a handler serves. *)
Lemma handler_serves s i hd : net_inv s → handlers s !! i = Some hd → ∃ t c k ch m a,
  Client.calls (client s) !! t = Some c ∧ reqs !! t = Some (k, ch, m, a) ∧
  Client.Seq (h (req hd)) = Client.cSeq c ∧ Client.cSeq c ≠ 0 ∧ executes m a hd.
Proof using.
  intros Hn Hi. destruct (proj1 (Forall_lookup _ _) (ni_handlers _ Hn) i hd Hi) as [(t & z & v & Hr & Hav & mt & Hf & Hm) _].
  destruct Hr as (c & a & Hc & Ha & _ & Hz & Hh & Ht & ->). unfold args_of in Ha.
  destruct (reqs !! t) as [[[[k ch] m] a']|] eqn:Er; [|done]. cbn in Ha. simplify_eq.
  destruct (ni_calls _ Hn t (Client.mkCall k ch m Client.CStart 0 None None)) as (c' & Hc' & _ & Hm' & _).
  { cbn. by rewrite !list_lookup_fmap, Er. }
  rewrite Hc in Hc'. injection Hc' as <-. cbn in Hm'.
  exists t, c, k, ch, m, a. rewrite Hh in Hf |- *. cbn in Hf |- *. rewrite Hm' in Hf.
  split_and!; try done. split_and!; [by rewrite Hh|by exists z|by exists mt].
Qed.

(** ** Properties *)

(** C11: no call is executed twice, and nothing is executed that was not called:
    in every reachable state each handler that was started executes, on the
    arguments of the caller, the method that a call of the client names, which
    is published, and no other handler has the number of that call, however
    steps interleave, connections break or the server crashes. *)
Theorem executed_at_most_once caps tr s i hd :
  Z.of_nat (length reqs) < 2 ^ 64 - 1 → nrun tr (connected caps) = Some s → handlers s !! i = Some hd →
  ∃ t c k ch m a, Client.calls (client s) !! t = Some c ∧ reqs !! t = Some (k, ch, m, a) ∧
    Client.Seq (h (req hd)) = Client.cSeq c ∧ executes m a hd ∧
    (∀ j hd', handlers s !! j = Some hd' → Client.Seq (h (req hd')) = Client.cSeq c → j = i).
Proof using.
  intros Hl Hr Hi. pose proof (nrun_inv _ _ _ (connected_inv caps Hl) Hr) as Hn.
  destruct (handler_serves _ _ _ Hn Hi) as (t & c & k & ch & m & a & Hc & Ha & Hs & Hz & He).
  exists t, c, k, ch, m, a. split_and!; try done. intros j hd' Hj Hs'.
  eapply one_handler; [done..|]. congruence.
Qed.

(** C4: a remote call is a call: when a call is done without an error, the server
    has executed its method, once, on the caller's arguments, and the reply
    is what that execution stored.  The method returned no error, or one
    whose text is empty, which the protocol cannot tell from none. *)
Theorem call_is_execution caps tr s t c k ch m a :
  Z.of_nat (length reqs) < 2 ^ 64 - 1 → nrun tr (connected caps) = Some s →
  t ∈ Client.done_log (client s) → Client.calls (client s) !! t = Some c → Client.cErr c = None →
  reqs !! t = Some (k, ch, m, a) →
  ∃ i hd v e, handlers s !! i = Some hd ∧ executes m a hd ∧ result hd = Some (v, e) ∧
    (e = None ∨ e = Some ""%string) ∧ Client.cReply c = Some v ∧
    (∀ j hd', handlers s !! j = Some hd' → Client.Seq (h (req hd')) = Client.cSeq c → j = i).
Proof using.
  intros Hl Hr Ht Hc Herr Ha. pose proof (nrun_inv _ _ _ (connected_inv caps Hl) Hr) as Hn.
  destruct (Client.ri_log _ (ni_reply _ Hn) t c Ht Hc Herr) as (h0 & v & Hh & Hv & Hs & Hz & He).
  destruct (ni_heard _ Hn h0 v Hh He) as (i & hd & e & Hi & Hsq & Hres & Hor).
  destruct (handler_serves _ _ _ Hn Hi) as (t' & c' & k' & ch' & m' & a' & Hc' & Ha' & Hs' & Hz' & Hex).
  assert (t' = t) as ->.
  { eapply (Client.si_uniq _ (Client.inv_seq _ (ni_client _ Hn)) t' t c' c); congruence. }
  rewrite Ha in Ha'. injection Ha' as <- <- <- <-. exists i, hd, v, e. split_and!; try done.
  intros j hd' Hj Hs''. eapply one_handler; [done..|]. congruence.
Qed.
End Rpc.

(** ** The demonstration service *)

(** [Args] of main.go and the methods of [Foo]; [Sleep] waits before it does
    the same. *)
Record FooArgs := mkFooArgs { Num1 : Z; Num2 : Z }.

Definition Foo_Sum (args : FooArgs) : Z * error := (i64 (Num1 args + Num2 args), None).

Definition Foo_Sleep (args : FooArgs) : Z * (Z * error) := (i64 (10 ^ 9 * Num1 args), Foo_Sum args).

Definition int_ptr : rtype := RType "" "" (Ptr int_type).
Definition Sleep : rmethod := mkMethod "Sleep" [foo_type; args_type; int_ptr] [error_type].

(** [startServer] up to [Accept]. *)
Definition startServer : outcome (error * Server) :=
  Register (λ _, false) "Foo" [Sleep; Sum] NewServer.

Definition foo_server : Server := match startServer with Ret (_, s) => s | _ => NewServer end.

(** The call of [foo] with the arguments [a]; a stand-in for their encoding. *)
Definition foo_args (a : FooArgs) : Args :=
  mkArgs args_type (pretty (Num1 a) +:+ "," +:+ pretty (Num2 a)) int_type.

Definition foo_call (m : string) (ch : nat) (i : Z) : Client.kind * nat * string * Args :=
  (Client.KGo, ch, m, foo_args (mkFooArgs i (i * i))).

Definition demo_reqs : list (Client.kind * nat * string * Args) :=
  [foo_call "Foo.Sum" 0 1; foo_call "Foo.Sum" 1 2; foo_call "Foo.Nope" 2 3].

Definition send (t : nat) : list naction :=
  [NClient (Client.ALock t); NClient (Client.ARegister t); NWrite t None 2; NClient (Client.AUnlock t)].

Definition receive : list naction := [NHeader; NClient Client.ALookup; NBody; NClient Client.ARecvDone].

Definition execute (i : nat) (args : FooArgs) : list naction :=
  let '(sum, e) := Foo_Sum args in
  [SHandler i (HReturn e) (pretty sum); SHandler i HCalled ""; SHandler i HChildSend ""; SHandler i HSent ""].

(** Three calls, the second of which is answered first and the last of which
    names no method; the server stops reading, and the client notices. *)
Definition demo_trace : list naction :=
  send 0 ++ send 1 ++ [SRead; SRead] ++ execute 1 (mkFooArgs 2 4) ++ send 2 ++ [SRead; SRefuse; SRead] ++
  receive ++ execute 0 (mkFooArgs 1 1) ++ receive ++ receive ++
  [SClose; NHeader; NClient Client.ATermLock; NClient Client.ATermEnd].

Definition demo_start : net := connected demo_reqs [1; 1; 1]%nat.

Abbreviation demo_run := (nrun id (pretty : Z → string) foo_server 0 demo_reqs demo_trace demo_start).

Example demo_rpc : (λ s, (Client.done_log (client s), (λ c, (Client.cReply c, Client.cErr c)) <$> Client.calls (client s))) <$> demo_run =
  Some ([1; 2; 0]%nat,
        [(Some "2", None); (Some "6", None); (None, Some "rpc server: can't find method Nope")]%string).
Proof. vm_compute. reflexivity. Qed.

(** A method that fails with an error without text: the call succeeds. *)
Example empty_error_is_lost :
  (λ s, (result <$> handlers s, (λ c, (Client.cReply c, Client.cErr c)) <$> Client.calls (client s))) <$>
    nrun id (pretty : Z → string) foo_server 0 [foo_call "Foo.Sum" 0 1]
      (send 0 ++ [SRead; SHandler 0 (HReturn (Some "")) "0"; SHandler 0 HCalled "";
                  SHandler 0 HChildSend ""; SHandler 0 HSent ""] ++ receive)
      (connected [foo_call "Foo.Sum" 0 1] [1]%nat) =
  Some ([Some ("0", Some "")], [(Some "0", None)])%string.
Proof. vm_compute. reflexivity. Qed.

Lemma demo_run_facts : ∃ s c hd, demo_run = Some s ∧ 1%nat ∈ Client.done_log (client s) ∧
  Client.calls (client s) !! 1%nat = Some c ∧ Client.cErr c = None ∧ handlers s !! 1%nat = Some hd.
Proof.
  assert ((λ s, (bool_decide (1%nat ∈ Client.done_log (client s)),
    Client.cErr <$> Client.calls (client s) !! 1%nat, bool_decide (is_Some (handlers s !! 1%nat)))) <$> demo_run =
    Some (true, Some None, true)) as H by (vm_compute; reflexivity).
  destruct demo_run as [s|]; [|done]. cbn in H. injection H as H1 H2 H3.
  apply bool_decide_eq_true in H1, H3. destruct (Client.calls (client s) !! 1%nat) as [c|] eqn:Hc; [|done].
  destruct H3 as [hd Hhd]. injection H2 as H2. by exists s, c, hd.
Qed.

Lemma executed_at_most_once_witness : ∃ s hd, demo_run = Some s ∧ handlers s !! 1%nat = Some hd ∧
  ∃ t c k ch m a, Client.calls (client s) !! t = Some c ∧ demo_reqs !! t = Some (k, ch, m, a) ∧
    Client.Seq (h (req hd)) = Client.cSeq c ∧ executes foo_server m a hd ∧
    (∀ j hd', handlers s !! j = Some hd' → Client.Seq (h (req hd')) = Client.cSeq c → j = 1%nat).
Proof.
  destruct demo_run_facts as (s & c & hd & Hr & _ & _ & _ & Hhd). exists s, hd. split; [exact Hr|].
  split; [exact Hhd|].
  apply (executed_at_most_once id pretty foo_server 0 demo_reqs [1; 1; 1]%nat demo_trace s 1 hd);
    [cbn; lia|exact Hr|exact Hhd].
Defined.

Lemma call_is_execution_witness : ∃ s c, demo_run = Some s ∧ Client.calls (client s) !! 1%nat = Some c ∧
  ∃ i hd v e, handlers s !! i = Some hd ∧ executes foo_server "Foo.Sum" (foo_args (mkFooArgs 2 4)) hd ∧
    result hd = Some (v, e) ∧ (e = None ∨ e = Some ""%string) ∧ Client.cReply c = Some v ∧
    (∀ j hd', handlers s !! j = Some hd' → Client.Seq (h (req hd')) = Client.cSeq c → j = i).
Proof.
  destruct demo_run_facts as (s & c & hd & Hr & Hd & Hc & He & _). exists s, c. split; [exact Hr|].
  split; [exact Hc|].
  apply (call_is_execution id pretty foo_server 0 demo_reqs [1; 1; 1]%nat demo_trace s 1 c
    Client.KGo 1 "Foo.Sum" (foo_args (mkFooArgs 2 4))); [cbn; lia|exact Hr|exact Hd|exact Hc|exact He|reflexivity].
Defined.
