(* ===== verification/RpcProgress.v ===== *)
(** * geerpc: no call is left behind

    Shows of the composition in [Rpc.v] that it cannot get stuck before every
    call is done: what each pending call waits for is always somewhere on its
    way, and whoever has it can take a step. *)

From S2P Require Import Prelude GoStrings Service Codec Server Rpc.
From S2P Require Client.

Section Progress.
Context (Errorf : string → string) (Duration_String : Z → string).
Context (srv : Server) (timeout : Z) (reqs : list (Client.kind * nat * string * Args)).

Abbreviation nstep := (nstep Errorf Duration_String srv timeout reqs).
Abbreviation nrun := (nrun Errorf Duration_String srv timeout reqs).
Abbreviation net_inv := (net_inv srv reqs).

(** ** Specification *)

(** The steps that client, server and the methods take by themselves, when
    writes succeed, and the receives of the user of a shared channel. *)
Definition internal (a : naction) : bool :=
  match a with
  | NClient (Client.AClose | Client.ACtxDone _ _) => false
  | NClient _ | NHeader | NBody | SRead | SRefuse | SClose => true
  | NWrite _ None 2 => true
  | SHandler _ HTimer _ => false
  | SHandler _ _ _ => true
  | _ => false
  end.

Definition quiescent (s : net) : Prop := ∀ a, internal a = true → nstep a s = None.

(** The receiver of the client still reads. *)
Definition reading (rv : Client.rpc) : bool :=
  match rv with
  | Client.RHeader | Client.RGot _ | Client.RBody _ _ | Client.RDone _ None => true
  | _ => false
  end.

Definition serving (l : loop_pc) : bool := match l with LRead | LRefuse _ => true | _ => false end.

(** Where the request or the response with the number [n] is. *)
Definition transit (n : Z) (s : net) : Prop :=
  (∃ t c, Client.calls (client s) !! t = Some c ∧ Client.c_pc c = Client.CWrite ∧ Client.cSeq c = n) ∨
  n ∈ headers (up s) ∨
  (∃ h, loop s = LRefuse h ∧ Client.Seq h = n) ∨
  (∃ i hd, handlers s !! i = Some hd ∧ Client.Seq (h (req hd)) = n ∧ responses (state hd) = []) ∨
  n ∈ headers (down s) ∨
  (∃ h, Client.recv (client s) = Client.RGot h ∧ Client.Seq h = n).

Definition whole (s : net) : bool :=
  negb (up_cut s) && negb (down_cut s) && serving (loop s) && reading (Client.recv (client s)).

(** Who holds [client.sending] is about to release it. *)
Definition holder_ok (snd : option Client.holder) (cs : list Client.Call) (rv : Client.rpc) : Prop :=
  match snd with
  | Some (Client.HCaller t) => ∃ call, cs !! t = Some call ∧ Client.holds (Client.c_pc call) = true
  | Some Client.HReceiver => Client.notifying rv = true
  | None => True
  end.

(** Every call has a channel with room for something. *)
Definition channels_ok (cs : list Client.Call) (chs : list Client.chan) : Prop :=
  ∀ t call, cs !! t = Some call → ∃ x, chs !! Client.dch call = Some x ∧ (0 < Client.cap x)%nat.

(** The parts of the invariant that are the client's own. *)
Record client_live (c : Client.sys) : Prop := {
  cv_call : Client.call_inv c;
  cv_channels : channels_ok (Client.calls c) (Client.chans c);
  cv_holder : holder_ok (Client.sending c) (Client.calls c) (Client.recv c);
}.

Record live_inv (s : net) : Prop := {
  lv_client : client_live (client s);
  lv_size : length (Client.calls (client s)) = length reqs;
  lv_closed : loop s = LClosed ∨ loop s = LCrashed → down_cut s = true;
  lv_handlers : Forall (λ hd, ∃ tr, handling_inv timeout tr (state hd)) (handlers s);
  lv_transit : whole s = true → ∀ n t, Client.pending (Client.cl (client s)) !! n = Some t → transit n s;
}.

(** ** The client *)

Lemma holder_set snd (cs : list Client.Call) rv t c c' : holder_ok snd cs rv → cs !! t = Some c →
  (Client.holds (Client.c_pc c) = true → Client.holds (Client.c_pc c') = true) →
  holder_ok snd (<[t := c']> cs) rv.
Proof using.
  intros Hh Hc Hp. destruct snd as [[u|]|]; [|done..]. destruct Hh as (call & Hu & Hd).
  cbn. rewrite (lookup_set _ _ _ _ _ Hc). case_decide; [|by exists call].
  subst. simplify_eq. exists c'. auto.
Qed.

Lemma holder_self t (cs : list Client.Call) rv c c' : cs !! t = Some c → Client.holds (Client.c_pc c') = true →
  holder_ok (Some (Client.HCaller t)) (<[t := c']> cs) rv.
Proof using. intros Hc Hh. exists c'. by rewrite (lookup_set _ _ _ _ _ Hc), decide_True. Qed.

Lemma step_holder a c c' : Client.inv c → holder_ok (Client.sending c) (Client.calls c) (Client.recv c) →
  Client.step Errorf a c = Some c' → holder_ok (Client.sending c') (Client.calls c') (Client.recv c').
Proof using.
  intros Hi Hh H. pose proof (Client.li_caller _ (Client.inv_locks _ Hi)) as Hl.
  pose proof (Client.li_recv _ (Client.inv_locks _ Hi)) as Hr. apply Client.step_split in H.
  destruct c as [k snd held cs chs rv lg hd wr].
  destruct H as [H|H]; destruct a; cbn in H; try done;
    unfold Client.registerCall, Client.removeCall, Client.Close in H; Client.step_cases H; cbn in *; try done.
  all: try (eapply (holder_self _ _ rv); [eassumption|reflexivity]).
  all: try (eapply holder_set; [exact Hh|eassumption|]; repeat match goal with E : Client.c_pc _ = _ |- _ => rewrite E end; done).
  - eapply holder_set; [eapply holder_set; [exact Hh|exact Heqo|by rewrite Heqc0]|exact Heqo1|done].
  - destruct snd as [[u|]|]; by cbn in *.
Qed.

Lemma channels_set (cs : list Client.Call) chs t c c' : channels_ok cs chs → cs !! t = Some c →
  Client.dch c' = Client.dch c → channels_ok (<[t := c']> cs) chs.
Proof using.
  intros Hc Ht Hd u call Hu. rewrite (lookup_set _ _ _ _ _ Ht) in Hu. case_decide; [|by eapply Hc].
  simplify_eq. rewrite Hd. by eapply Hc.
Qed.

Lemma channels_chan (cs : list Client.Call) chs ch x x' : channels_ok cs chs → chs !! ch = Some x →
  Client.cap x' = Client.cap x → channels_ok cs (<[ch := x']> chs).
Proof using.
  intros Hc Hx Hcap u call Hu. destruct (Hc u call Hu) as (y & Hy & Hpos).
  rewrite (lookup_set _ _ _ _ _ Hx). case_decide; [|by exists y].
  simplify_eq. exists x'. by rewrite Hcap.
Qed.

Lemma channels_done cs0 (cs : list Client.Call) chs chs' c : channels_ok cs chs →
  Client.done_on c cs0 chs = Some chs' → channels_ok cs chs'.
Proof using.
  intros Hc (call & x & _ & Hx & ->)%Client.done_on_Some. by eapply channels_chan.
Qed.

Lemma channels_recv (cs : list Client.Call) chs chs' ch c : channels_ok cs chs →
  Client.recv_from ch chs = Some (c, chs') → channels_ok cs chs'.
Proof using.
  intros Hc (x & l & Hx & _ & ->)%Client.recv_from_Some. by eapply channels_chan.
Qed.

Lemma step_channels a c c' : channels_ok (Client.calls c) (Client.chans c) →
  Client.step Errorf a c = Some c' → channels_ok (Client.calls c') (Client.chans c').
Proof using.
  intros Hc H. apply Client.step_split in H. destruct c as [k snd held cs chs rv lg hd wr].
  destruct H as [H|H]; destruct a; cbn in H; try done;
    unfold Client.registerCall, Client.removeCall, Client.Close in H; Client.step_cases H; cbn in *; try done.
  all: try (eapply channels_set; [|eassumption|done]).
  all: try done.
  all: try (eapply channels_done; [|eassumption]; done).
  all: try (eapply channels_recv; [|eassumption]; done).
  by eapply channels_set.
Qed.

Lemma step_live a c c' : Client.inv c → client_live c → Client.step Errorf a c = Some c' → client_live c'.
Proof using.
  intros Hi [] H. split; [|by eapply step_channels|by eapply step_holder].
  apply Client.step_split in H as [H|H]; [by eapply Client.caller_call|by eapply Client.recv_call].
Qed.

(** A call that is about to be written stays so until it is. *)
Lemma write_stays a c c' t call : Client.step Errorf a c = Some c' → (∀ r, a ≠ Client.AWrite t r) →
  Client.calls c !! t = Some call → Client.c_pc call = Client.CWrite →
  ∃ call', Client.calls c' !! t = Some call' ∧ Client.c_pc call' = Client.CWrite ∧
    Client.cSeq call' = Client.cSeq call.
Proof using.
  intros H Ha Hc Hp. apply Client.step_split in H. destruct c as [k snd held cs chs rv lg hd wr].
  assert (∀ (l : list Client.Call) u d d', l !! u = Some d →
    (u = t → Client.c_pc d = Client.CWrite → Client.c_pc d' = Client.CWrite ∧ Client.cSeq d' = Client.cSeq d) →
    (∃ x, l !! t = Some x ∧ Client.c_pc x = Client.CWrite ∧ Client.cSeq x = Client.cSeq call) →
    ∃ x, <[u := d']> l !! t = Some x ∧ Client.c_pc x = Client.CWrite ∧ Client.cSeq x = Client.cSeq call) as Hset.
  { intros l u d d' Hd Hw (x & Hx & Hpx & Hsx). rewrite (lookup_set _ _ _ _ _ Hd).
    case_decide as Hu; [|by exists x]. subst. simplify_eq. destruct (Hw eq_refl Hpx).
    exists d'. split_and!; congruence. }
  destruct H as [H|H]; destruct a; cbn in H, Hc; try done;
    unfold Client.registerCall, Client.removeCall, Client.Close in H; Client.step_cases H; cbn in *.
  all: try (by exists call).
  all: try (eapply Hset; [eassumption| |by exists call]; intros ? ?; (congruence || by split)).
  all: try (eapply Hset; [eassumption| |by exists call]; intros -> _; by edestruct Ha).
  eapply Hset; [eassumption|by intros|]. eapply Hset; [eassumption| |by exists call]. intros ? ?. congruence.
Qed.

(** What a step that does not use the connection does to the pending calls and
    to the receiver. *)
Lemma local_pending a c c' n t : local a = true → Client.step Errorf a c = Some c' →
  Client.pending (Client.cl c') !! n = Some t →
  (Client.pending (Client.cl c) !! n = Some t ∧
   (∀ h, Client.recv c = Client.RGot h → Client.Seq h = n → Client.recv c' = Client.RGot h)) ∨
  ∃ u call, Client.calls c' !! u = Some call ∧ Client.c_pc call = Client.CWrite ∧ Client.cSeq call = n.
Proof using.
  intros Hl H Hp. apply Client.step_split in H. destruct c as [k snd held cs chs rv lg hd wr].
  destruct H as [H|H]; destruct a; cbn in H, Hl; try done;
    unfold Client.registerCall, Client.removeCall, Client.Close in H; Client.step_cases H; cbn in *; try done.
  all: try (by left).
  all: try (rewrite lookup_delete_Some in Hp; destruct Hp as [Hn Hp]).
  all: try (left; split; [done|by intros ? ?]).
  - rewrite lookup_insert_Some in Hp. destruct Hp as [[<- <-]|[_ Hp]]; [|by left].
    right. exists t0, (Client.set_pc Client.CWrite (Client.set_seq (Client.seq k) c)).
    by rewrite (lookup_set _ _ _ _ _ Heqo), decide_True.
  - left. split; [done|]. intros h0 [= <-] ?. congruence.
Qed.

Lemma local_reading a c c' : local a = true → Client.step Errorf a c = Some c' →
  reading (Client.recv c') = true → reading (Client.recv c) = true.
Proof using.
  intros Hl H. apply Client.step_split in H. destruct c as [k snd held cs chs rv lg hd wr].
  destruct H as [H|H]; destruct a; cbn in H, Hl; try done;
    unfold Client.registerCall, Client.removeCall, Client.Close, Client.after_body in H;
    Client.step_cases H; cbn in *; try done.
Qed.

Lemma net_pending a c c' : local a = false → Client.step Errorf a c = Some c' →
  Client.pending (Client.cl c') = Client.pending (Client.cl c).
Proof using.
  intros Hl H. apply Client.step_split in H. destruct c as [k snd held cs chs rv lg hd wr].
  destruct H as [H|H]; destruct a; cbn in H, Hl; try done; Client.step_cases H; cbn in *; try done.
Qed.

(** ** The steps of the client *)

(** The requests and responses on the way stay there when the client takes a
    step that is not the one of the pending number. *)
Lemma transit_client n s s' : transit n s →
  (n ∈ headers (up s) → n ∈ headers (up s')) → loop s' = loop s → handlers s' = handlers s →
  (n ∈ headers (down s) → transit n s') →
  (∀ t call, Client.calls (client s) !! t = Some call → Client.c_pc call = Client.CWrite →
     Client.cSeq call = n → transit n s') →
  (∀ h, Client.recv (client s) = Client.RGot h → Client.Seq h = n → transit n s') → transit n s'.
Proof using.
  intros Ht Hu Hl Hh Hd Hw Hr. unfold transit in Ht.
  destruct Ht as [(t & call & Hc & Hp & Hs)|[Ht|[Ht|[Ht|[Ht|(h & Hh' & Hs)]]]]]; eauto; unfold transit;
    rewrite ?Hl, ?Hh; auto.
Qed.

Lemma local_live a s s' : net_inv s → live_inv s → nstep (NClient a) s = Some s' → live_inv s'.
Proof using.
  intros Hn Hv H. cbn in H. destruct (local a) eqn:Hl; [|done].
  destruct (Client.step Errorf a (client s)) as [c|] eqn:E; [|done]. simplify_eq/=.
  destruct Hv as [Hcv Hlen Hclosed Hhs Htr]. split; cbn; try done.
  - eapply step_live; [apply (ni_client _ _ _ Hn)|done|done].
  - by rewrite (Client.step_size _ _ _ _ E).
  - intros Hw n t Hp. unfold whole in Hw, Htr. cbn in Hw.
    apply andb_true_iff in Hw as [Hw Hrd]. rewrite Hw, (local_reading _ _ _ Hl E Hrd) in Htr.
    destruct (local_pending _ _ _ _ _ Hl E Hp) as [[Hp0 Hgot]|Hwr]; [|by left].
    apply (transit_client n s); try done; [by eapply Htr|..].
    + intros Hd. unfold transit. cbn. tauto.
    + intros u call Hu Hpc Hs. left. cbn.
      destruct (write_stays _ _ _ _ _ E ltac:(intros r Ha; by rewrite Ha in Hl) Hu Hpc) as (call' & Hc' & Hp' & Hs').
      exists u, call'. split_and!; congruence.
    + intros h Hh Hs. unfold transit. cbn. do 5 right. exists h. split; [by apply Hgot|done].
Qed.

Lemma write_live t r n s s' : net_inv s → live_inv s → nstep (NWrite t r n) s = Some s' → live_inv s'.
Proof using.
  intros Hn Hv H. cbn in H. destruct (Client.calls (client s) !! t) as [call|] eqn:Hc; [|done]. cbn in H.
  destruct (args_of reqs t) as [a|] eqn:Ha; [|done]. cbn in H.
  destruct (Client.step _ _ _) as [c|] eqn:E; [|done]. simplify_eq/=.
  destruct Hv as [Hcv Hlen Hclosed Hhs Htr]. split; cbn; try done.
  - eapply step_live; [apply (ni_client _ _ _ Hn)|done|done].
  - by rewrite (Client.step_size _ _ _ _ E).
  - destruct (write_step _ _ _ _ _ E) as (call0 & call' & Hc0 & Hp & Hc' & _ & _ & Hs & _ & Hrv).
    rewrite Hc in Hc0. injection Hc0 as <-.
    intros Hw m u Hpd. unfold whole in Hw, Htr. cbn in Hw. rewrite Hrv in Hw.
    destruct (up_cut s); [done|]. case_bool_decide as Hlt; [done|]. cbn in Hw, Htr.
    rewrite (net_pending (Client.AWrite t r) _ _ eq_refl E) in Hpd.
    assert (∀ k : Z, k ∈ headers (up s) ∨ k = Client.cSeq call →
      k ∈ headers (up s ++ take n [IHeader (Client.mkHeader (Client.c_method call) (Client.cSeq call) "");
                                    IBody (a_type a) (a_value a)])) as Hup.
    { intros k Hk. rewrite take_ge by (cbn; lia). rewrite headers_app. cbn. apply elem_of_app.
      rewrite list_elem_of_singleton. tauto. }
    apply (transit_client m s); try done; cbn; [by eapply Htr|intros; by apply Hup; left|..].
    + unfold transit. cbn. tauto.
    + intros x callx Hx Hpx Hsx. destruct (decide (x = t)) as [->|Hne].
      * right. left. cbn. apply Hup. right. congruence.
      * left. destruct (write_stays _ _ _ x callx E ltac:(intros r' [= ? ?]; congruence) Hx Hpx)
          as (y & Hy & Hpy & Hsy). exists x, y. split_and!; cbn; congruence.
    + intros h0 Hh Hs0. unfold transit. cbn. rewrite Hrv. eauto 10.
Qed.

Lemma header_live s s' : net_inv s → live_inv s → nstep NHeader s = Some s' → live_inv s'.
Proof using.
  intros Hn Hv H. cbn [nstep client_step] in H. destruct (_ && _); [done|].
  destruct (ReadHeader (down s)) as [r d] eqn:Er.
  destruct (Client.step Errorf _ (client s)) as [c|] eqn:E; [|done]. simplify_eq/=.
  destruct Hv as [Hcv Hlen Hclosed Hhs Htr]. split; cbn; try done.
  - eapply step_live; [apply (ni_client _ _ _ Hn)|done|done].
  - by rewrite (Client.step_size _ _ _ _ E).
  - destruct (header_step _ _ _ _ E) as (Hv & _ & Hv'). intros Hw m u Hpd.
    unfold whole in Hw, Htr. cbn in Hw. rewrite Hv' in Hw.
    destruct r as [h|e]; [|by rewrite andb_false_r in Hw]. rewrite Hv in Htr.
    rewrite (net_pending (Client.AHeader (inl h)) _ _ eq_refl E) in Hpd.
    apply (transit_client m s); try done; [by eapply Htr|..].
    + destruct (down s) as [|[h0|] l]; cbn in Er; simplify_eq. cbn.
      intros [->|Hin]%elem_of_cons; unfold transit; cbn; [|tauto].
      do 5 right. by exists h.
    + intros x callx Hx Hpx Hsx. left.
      destruct (write_stays _ _ _ _ _ E ltac:(done) Hx Hpx) as (y & Hy & Hpy & Hsy).
      exists x, y. split_and!; cbn; congruence.
    + intros h0 Hh. congruence.
Qed.

Lemma body_live s s' : net_inv s → live_inv s → nstep NBody s = Some s' → live_inv s'.
Proof using.
  intros Hn Hv (r & d & c & h & x & Hx & Hrd & E & ->)%client_reads_body.
  pose proof (ni_down _ _ _ Hn) as Hdn. rewrite Hx in Hdn. cbn in Hdn.
  assert (headers d = headers (down s)) as Hd.
  { destruct (down s) as [|[|t v] l]; [|done|]; destruct Hrd as [[t' Hrd]|Hrd]; cbn in Hrd; simplify_eq; done. }
  destruct Hv as [Hcv Hlen Hclosed Hhs Htr]. split; cbn; try done.
  - eapply step_live; [apply (ni_client _ _ _ Hn)|done|done].
  - by rewrite (Client.step_size _ _ _ _ E).
  - intros Hw m u Hpd. unfold whole in Hw, Htr. cbn in Hw. apply andb_true_iff in Hw as [Hw _].
    rewrite Hw, Hx in Htr. rewrite (net_pending (Client.ABody r) _ _ eq_refl E) in Hpd.
    apply (transit_client m s); try done; [by eapply Htr|..].
    + intros Hin. do 4 right. left. change (m ∈ headers d). by rewrite Hd.
    + intros y cally Hy Hpy Hsy. left.
      destruct (write_stays _ _ _ _ _ E ltac:(done) Hy Hpy) as (z & Hz & Hpz & Hsz).
      exists y, z. split_and!; cbn; congruence.
    + intros h0 Hh. congruence.
Qed.

(** ** The steps of the connection and the server *)

Lemma cut_live a s s' : live_inv s → cut_step a s = Some s' → live_inv s'.
Proof using.
  intros [Hcv Hlen Hclosed Hhs Htr] H. destruct a; cbn in H; try done; simplify_eq; split; cbn; try done;
    unfold whole; cbn; by rewrite andb_false_r.
Qed.

Lemma sendResponse_transit h t v s n : down_cut s = false → (transit n s ∨ Client.Seq h = n) →
  transit n (sendResponse h t v s).
Proof using.
  intros Hc Hor. unfold sendResponse. rewrite Hc. unfold transit.
  assert (∀ k : Z, k ∈ headers (down s) ∨ k = Client.Seq h →
    k ∈ headers (down s ++ [IHeader h; IBody t v])) as Hd.
  { intros k Hk. rewrite headers_app. apply elem_of_app. cbn. rewrite list_elem_of_singleton.
    by destruct Hk; auto. }
  cbn [client up down loop handlers set_down].
  destruct Hor as [Ht|Hs]; [|do 4 right; left; apply Hd; by right].
  destruct Ht as [Ht|[Ht|[Ht|[Ht|[Ht|Ht]]]]]; auto 10.
Qed.

(** A turn of the loop: the request goes to a handler or is about to be refused. *)
Lemma read_transit s r e u' n : net_inv s → loop s = LRead →
  readRequest srv (up s) = Ret (Some r, e, u') → transit n s →
  transit n (mkNet (client s) u' (up_cut s) (down s) (down_cut s)
    (match e with Some e => LRefuse (set_error e (h r)) | None => LRead end)
    (match e with Some _ => handlers s | None => handlers s ++ [mkHandler r handleRequest None] end)).
Proof using.
  intros Hn Hl Hrd Ht. pose proof (ni_up _ _ _ Hn (or_introl Hl)) as Hup.
  assert (∀ k : Z, k ∈ headers (up s) → k ∈ headers u' ∨ k = Client.Seq (h r)) as Hu.
  { intros k Hk. destruct e as [e|].
    - apply readRequest_refused in Hrd as (_ & u0 & Hu & Hor). rewrite Hu in Hup, Hk.
      cbn in Hk. apply elem_of_cons in Hk as [->|Hk]; [by right|left].
      destruct Hor as [->| ->]; [done|]. destruct Hup as [Hp|(? & ? & ? & ?)]; [|done].
      by destruct u0 as [|[h1|ty v] u0].
    - apply readRequest_started in Hrd as (z & v & m & Hu & _). rewrite Hu in Hk. cbn in Hk.
      apply elem_of_cons in Hk as [->|Hk]; by auto. }
  unfold transit. cbn [client up down loop handlers].
  destruct Ht as [Ht|[Ht|[(h0 & Hh & _)|[(i & hd & Hi & Ht)|[Ht|Ht]]]]]; auto 10; [|congruence|].
  - destruct (Hu _ Ht) as [?|Hk]; [auto|]. destruct e as [e|].
    + do 2 right. left. by exists (set_error e (h r)).
    + do 3 right. left. exists (length (handlers s)), (mkHandler r handleRequest None).
      by rewrite lookup_app_r, Nat.sub_diag.
  - do 3 right. left. exists i, hd. split; [|done]. destruct e; [done|by apply lookup_app_l_Some].
Qed.

Lemma loop_live a s s' : net_inv s → live_inv s → loop_step srv a s = Some s' → live_inv s'.
Proof using.
  intros Hn [Hcv Hlen Hclosed Hhs Htr] H. unfold loop_step in H. destruct a; try done.
  - destruct (loop s) eqn:Hl; try done. destruct (_ && _); [done|].
    assert (negb (up_cut s) && negb (down_cut s) && reading (Client.recv (client s)) = true → whole s = true) as Hwh.
    { unfold whole. rewrite Hl. cbn. by rewrite andb_true_r. }
    destruct (readRequest srv (up s)) as [[[[r|] [e|]] u]|msg|] eqn:Er; simplify_eq.
    + split; cbn; try done; try (by intros []). unfold whole. cbn. rewrite andb_true_r.
      intros Hw n t Hp. exact (read_transit s r (Some e) u n Hn Hl Er (Htr (Hwh Hw) n t Hp)).
    + split; cbn; try done; try (by intros []).
      * apply Forall_app_2; [done|]. apply Forall_singleton. by exists [].
      * unfold whole. cbn. rewrite andb_true_r. intros Hw n t Hp.
        exact (read_transit s r None u n Hn Hl Er (Htr (Hwh Hw) n t Hp)).
    + split; cbn; try done; try (by intros []). unfold whole. cbn. by rewrite andb_false_r.
    + split; cbn; try done; try (by intros []). unfold whole. cbn. by rewrite andb_false_r.
    + split; cbn; try done.
  - destruct (loop s) as [|h0| | |] eqn:Hl; try done. simplify_eq. unfold sendResponse.
    destruct (down_cut s) eqn:Hdc; split; cbn; try done; try (by intros []);
      unfold whole; cbn; rewrite Hdc; [by rewrite andb_false_r|].
    intros Hw n t Hp. pose proof (sendResponse_transit h0 invalidRequest_type "" (set_loop LRead s) n Hdc) as Ht.
    unfold sendResponse in Ht. cbn [down_cut set_loop] in Ht. rewrite Hdc in Ht. apply Ht.
    assert (transit n s) as Hs by (eapply Htr; [|done]; unfold whole; by rewrite Hl, Hdc).
    unfold transit in Hs |- *. rewrite Hl in Hs. cbn [client up down loop handlers set_loop].
    destruct Hs as [?|[?|[(h1 & [= <-] & ?)|?]]]; auto.
  - destruct (loop s) eqn:Hl; try done. destruct (forallb _ _); [|done]. simplify_eq. by split.
  - simplify_eq. by split.
Qed.

Definition responds (a : haction) : bool :=
  match a with HMainSend | HChildSend => true | _ => false end.

Lemma hstep_responses a x y : hstep timeout a x = Some y → responds a = false → responses y = responses x.
Proof using.
  destruct x as [m c rs]. destruct a, m, c; cbn; try done; intros H; try case_bool_decide; by simplify_eq.
Qed.

(** A step of a handler: what it sends, if it does, has the number of its
    request. *)
Lemma handler_step_split i a reply s s' : handler_step Duration_String timeout i a reply s = Some s' →
  ∃ hd st h0 ty v r, handlers s !! i = Some hd ∧ crashed (loop s) = false ∧ hstep timeout a (state hd) = Some st ∧
    Client.Seq h0 = Client.Seq (h (req hd)) ∧
    let s1 := mkNet (client s) (up s) (up_cut s) (down s) (down_cut s) (loop s)
                (<[i := mkHandler (req hd) st r]> (handlers s)) in
    s' = if responds a then sendResponse h0 ty v s1 else s1.
Proof using.
  intros H. unfold handler_step in H. destruct (handlers s !! i) as [hd|]; [|done].
  cbn [mbind option_bind] in H. destruct (crashed (loop s)); [done|].
  destruct (hstep timeout a (state hd)) as [st|] eqn:E; [|done]. cbn [mbind option_bind] in H.
  injection H as <-. exists hd, st.
  destruct a; try (exists (h (req hd)), error_type, ""%string; eexists; refine (conj eq_refl (conj eq_refl (conj E (conj eq_refl _)))); exact eq_refl).
  - exists (set_error (timeout_error Duration_String timeout) (h (req hd))), invalidRequest_type, ""%string.
    eexists. exact (conj eq_refl (conj eq_refl (conj E (conj eq_refl eq_refl)))).
  - assert (∃ e, child (state hd) = CSend e) as [e He].
    { destruct (state hd) as [m c rs]. destruct m, c; cbn in E; try done; eexists; reflexivity. }
    rewrite He. exists (with_error e (h (req hd))), (reply_type hd), (reply_value hd).
    eexists. refine (conj eq_refl (conj eq_refl (conj E (conj _ eq_refl)))). by destruct e.
Qed.

Lemma handler_live i a reply s s' : live_inv s → handler_step Duration_String timeout i a reply s = Some s' →
  live_inv s'.
Proof using.
  intros [Hcv Hlen Hclosed Hhs Htr] (hd & st & h0 & ty & v & r & Hi & _ & E & Hs & ->)%handler_step_split.
  set (s1 := mkNet _ _ _ _ _ _ _).
  assert (client s1 = client s ∧ loop s1 = loop s ∧ down_cut s1 = down_cut s ∧ whole s1 = whole s) as (Ec & El & Ed & Ew) by done.
  assert (Forall (λ hd, ∃ tr, handling_inv timeout tr (state hd)) (handlers s1)) as Hh1.
  { apply Forall_insert; [done|]. destruct (proj1 (Forall_lookup _ _) Hhs i hd Hi) as [tr Htr'].
    exists (tr ++ [a]). by eapply hstep_inv. }
  assert (∀ n, transit n s → transit n s1 ∨ (responds a = true ∧ Client.Seq h0 = n)) as Ht1.
  { intros n Ht. unfold transit in Ht |- *. cbn [s1 client up down loop handlers].
    destruct Ht as [?|[?|[?|[(j & hd' & Hj & Hsq & Hrs)|[?|?]]]]]; auto 10.
    destruct (decide (j = i)) as [->|Hne].
    - rewrite Hi in Hj. injection Hj as <-. destruct (responds a) eqn:Ea; [right; split; congruence|].
      left. do 3 right. left. eexists i, _. rewrite (lookup_set _ _ _ _ _ Hi), decide_True by done.
      split_and!; [done|done|]. cbn. by rewrite (hstep_responses _ _ _ E Ea).
    - left. do 3 right. left. exists j, hd'. by rewrite list_lookup_insert_ne by done. }
  clearbody s1. destruct (responds a).
  - unfold sendResponse. destruct (down_cut s1) eqn:Hdc.
    + split; rewrite ?Ec, ?El; try done. unfold whole. rewrite Hdc. by rewrite andb_false_r.
    + split; cbn; rewrite ?Ec, ?El; try done. { intros Hl. by rewrite Hclosed in Ed. }
      intros Hw n t Hp. pose proof (sendResponse_transit h0 ty v s1 n Hdc) as Hst.
      unfold sendResponse in Hst. rewrite Hdc in Hst. apply Hst.
      destruct (Ht1 n) as [?|[_ ?]]; auto. eapply Htr; [|done]. rewrite <- Ew. exact Hw.
  - split; rewrite ?Ec, ?El, ?Ed; try done. rewrite Ew. intros Hw n t Hp.
    destruct (Ht1 n) as [?|[? _]]; [by eapply Htr|done|done].
Qed.

(** ** Every reachable state *)

Lemma nstep_live a s s' : net_inv s → live_inv s → nstep a s = Some s' → live_inv s'.
Proof using.
  intros Hn Hv H. destruct a as [| | | |k|k| | |i a r| |].
  - by eapply local_live.
  - by eapply write_live.
  - by eapply header_live.
  - by eapply body_live.
  - by apply (cut_live (NCutUp k) s).
  - by apply (cut_live (NCutDown k) s).
  - by apply (loop_live SRead s).
  - by apply (loop_live SRefuse s).
  - by apply (handler_live i a r s).
  - by apply (loop_live SClose s).
  - by apply (loop_live SCrash s).
Qed.

Lemma nrun_live tr s s' : net_inv s → live_inv s → nrun tr s = Some s' → net_inv s' ∧ live_inv s'.
Proof using.
  revert s. induction tr as [|a tr IH]; intros s Hn Hv H; cbn in H; [by simplify_eq|].
  destruct (nstep a s) as [s1|] eqn:E; [|done].
  eapply IH; [by eapply nstep_inv|by eapply nstep_live|done].
Qed.

Lemma connected_live caps : Client.private reqs.*1 caps → Forall (λ n, 0 < n)%nat caps →
  live_inv (connected reqs caps).
Proof using.
  intros Hp Hc. split; cbn; try done; try (by intros []).
  - split; [by apply Client.started_call| |done].
    intros t call Hl. cbn in Hl |- *. rewrite list_lookup_fmap in Hl.
    destruct (reqs.*1 !! t) as [[[k ch] m]|] eqn:E; [|done]. cbn in Hl. simplify_eq. cbn.
    destruct (lookup_lt_is_Some_2 caps ch) as [n Hn]; [by apply (proj1 Hp) in E|].
    exists (Client.mkChan n []). rewrite list_lookup_fmap, Hn. split; [done|].
    by apply (proj1 (Forall_lookup _ _) Hc ch).
  - by rewrite !length_fmap.
Qed.

(** ** A client that cannot go on *)

Definition still (c : Client.sys) : Prop :=
  ∀ a, local a = true → internal (NClient a) = true → Client.step Errorf a c = None.

Lemma done_on_room c (cs : list Client.Call) chs call x : cs !! c = Some call → chs !! Client.dch call = Some x →
  (length (Client.items x) < Client.cap x)%nat → is_Some (Client.done_on c cs chs).
Proof using.
  intros Hc Hx Hl. unfold Client.done_on. rewrite Hc. cbn. rewrite Hx. cbn.
  rewrite bool_decide_eq_true_2 by done. by eexists.
Qed.

Lemma placed_call c x : Client.inv c → x ∈ Client.places c → is_Some (Client.calls c !! x).
Proof using.
  intros [_ _ _ _ Hp] Hx. unfold Client.placed in Hp. rewrite Hp in Hx.
  apply lookup_lt_is_Some. by apply elem_of_seq in Hx as [_ ?].
Qed.

(** A call that is not done finds room on its channel. *)
Lemma still_room c x call : Client.inv c → client_live c → still c → x ∉ Client.done_log c →
  Client.calls c !! x = Some call → ∃ ch, Client.chans c !! Client.dch call = Some ch ∧
  (length (Client.items ch) < Client.cap ch)%nat.
Proof using.
  intros Hi [Hcall Hch _] Hs Hx Hc. destruct (Hch x call Hc) as (ch & Hl & Hcap). exists ch. split; [done|].
  assert (Client.items ch = []) as ->; [|done].
  destruct (Client.c_kind call) eqn:Hk.
  - pose proof (Hs (Client.AUser (Client.dch call)) eq_refl eq_refl) as Hu.
    pose proof (Client.kc_priv _ Hcall) as Hpriv. destruct c as [k snd held cs chs rv lg hd wr].
    unfold Client.step in Hu. cbn in *. rewrite bool_decide_eq_true_2 in Hu.
    + unfold Client.recv_from in Hu. rewrite Hl in Hu. cbn in Hu. by destruct (Client.items ch).
    + apply Forall_lookup. intros t d Hd. destruct (Client.c_kind d) eqn:Hkd; [by left|right].
      intros Heq. assert (x = t) as -> by (by apply (Hpriv t x d call)). congruence.
  - destruct (Client.kc_items _ Hcall x call Hc Hk) as [n Hn]. rewrite Hl in Hn. injection Hn as ->.
    rewrite decide_False; [done|]. by intros [? _].
Qed.

(** [done] can be called on a call that somebody holds. *)
Lemma still_done c x cs' : Client.inv c → client_live c → still c → x ∈ Client.places c → x ∉ Client.done_log c →
  (∀ call, Client.calls c !! x = Some call → ∃ call', cs' !! x = Some call' ∧ Client.dch call' = Client.dch call) →
  is_Some (Client.done_on x cs' (Client.chans c)).
Proof using.
  intros Hi Hl Hs Hx Hd Hcs. destruct (placed_call c x Hi Hx) as [call Hc].
  destruct (still_room c x call Hi Hl Hs Hd Hc) as (ch & Hch & Hroom).
  destruct (Hcs call Hc) as (call' & Hc' & Hdch). eapply done_on_room; [done|by rewrite Hdch|done].
Qed.

Lemma still_notify c : Client.inv c → client_live c → still c → Client.notifying (Client.recv c) = false.
Proof using.
  intros Hi Hl Hs. destruct (Client.recv c) as [| | | | |e todo|] eqn:Hr; try done. exfalso.
  destruct todo as [|x todo].
  - pose proof (Hs Client.ATermEnd eq_refl eq_refl) as Hst. destruct c. cbn in *. by subst.
  - pose proof (Hs (Client.ANotify 0) eq_refl eq_refl) as Hst.
    assert (x ∈ Client.recv_places (Client.recv c)) as Hx by (rewrite Hr; by left).
    assert (x ∈ Client.places c) as Hp by (unfold Client.places; apply elem_of_app; right; apply elem_of_app; by left).
    assert (x ∉ Client.done_log c) as Hd by (apply Client.place_not_done; [done|apply elem_of_app; right; apply elem_of_app; by left]).
    destruct (placed_call c x Hi Hp) as [call Hc].
    destruct (still_done c x (<[x := Client.set_err (Some e) call]> (Client.calls c)) Hi Hl Hs Hp Hd) as [chs Hch].
    { intros call0 Hc0. rewrite Hc in Hc0. injection Hc0 as <-.
      exists (Client.set_err (Some e) call). by rewrite (lookup_set _ _ _ _ _ Hc), decide_True. }
    destruct c. cbn in *. subst. cbn in Hst. rewrite Hc in Hst. cbn in Hst. by rewrite Hch in Hst.
Qed.

(** No caller is inside [send], unless it is about to write. *)
Lemma still_callers c t call : Client.inv c → client_live c → still c → Client.calls c !! t = Some call →
  Client.c_pc call ≠ Client.CWrite → Client.holds (Client.c_pc call) = false.
Proof using.
  intros Hi Hl Hs Hc Hw. pose proof (still_notify c Hi Hl Hs) as Hnt.
  pose proof (Client.li_mu _ (Client.inv_locks _ Hi)) as Hmu. rewrite Hnt in Hmu.
  destruct (Client.c_pc call) eqn:Hp; try done; exfalso.
  - pose proof (Hs (Client.ARegister t) eq_refl eq_refl) as Hst. destruct c. cbn in *. subst.
    unfold Client.step in Hst. cbn in Hst. rewrite Hc in Hst. cbn in Hst. rewrite Hp in Hst.
    by destruct (Client.registerCall _ _) as [[]].
  - pose proof (Hs (Client.ARemove t) eq_refl eq_refl) as Hst.
    pose proof (Client.si_pending _ (Client.inv_seq _ Hi)) as Hpe. destruct c. cbn in *. subst.
    unfold Client.step in Hst. cbn in Hst. rewrite Hc in Hst. cbn in Hst. rewrite Hp in Hst.
    destruct (Client.pending cl !! Client.cSeq call) as [x|] eqn:Hx; [|done].
    destruct (Hpe _ _ Hx) as (_ & d & Hd & _).
    assert (is_Some (<[t := Client.set_pc (Client.CDone x) call]> calls !! x)) as [d' Hd'].
    { rewrite (lookup_set _ _ _ _ _ Hc). case_decide; [by eexists|by rewrite Hd]. }
    cbn in Hst. by rewrite Hd' in Hst.
  - pose proof (Hs (Client.ADone t) eq_refl eq_refl) as Hst.
    assert (c0 ∈ Client.caller_places t call) as Hx by (unfold Client.caller_places; rewrite Hp; by left).
    pose proof (Client.at_caller _ _ _ _ Hc Hx) as Hx'.
    destruct (still_done c c0 (Client.calls c) Hi Hl Hs) as [chs Hch].
    { unfold Client.places. apply elem_of_app. by left. }
    { by destruct (Client.caller_not_elsewhere _ _ _ _ Hi Hc Hx). }
    { intros d Hd. by exists d. }
    destruct c. cbn in *. subst. unfold Client.step in Hst. cbn in Hst. rewrite Hc in Hst. cbn in Hst.
    rewrite Hp in Hst. by rewrite Hch in Hst.
  - pose proof (Hs (Client.AUnlock t) eq_refl eq_refl) as Hst. destruct c. cbn in *. subst.
    unfold Client.step in Hst. cbn in Hst. rewrite Hc in Hst. cbn in Hst. by rewrite Hp in Hst.
Qed.

Lemma still_quiet c : Client.inv c → client_live c → still c →
  (∀ t call, Client.calls c !! t = Some call → Client.c_pc call ≠ Client.CWrite) →
  (∀ t call, Client.calls c !! t = Some call → Client.caller_places t call = []) ∧
  (Client.recv c = Client.RHeader ∨ (∃ h x, Client.recv c = Client.RBody h x) ∨ Client.recv c = Client.REnd).
Proof using.
  intros Hi Hl Hs Hw.
  assert (∀ t call, Client.calls c !! t = Some call → Client.holds (Client.c_pc call) = false) as Hh
    by (intros t call Hc; eapply still_callers; eauto).
  pose proof (still_notify c Hi Hl Hs) as Hnt.
  pose proof (Client.li_mu _ (Client.inv_locks _ Hi)) as Hmu. rewrite Hnt in Hmu.
  assert (Client.sending c = None) as Hsnd.
  { pose proof (cv_holder _ Hl) as Hho. destruct (Client.sending c) as [[t|]|]; [|cbn in Hho; congruence|done].
    destruct Hho as (call & Hc & Hhd). specialize (Hh t call Hc). congruence. }
  split.
  - intros t call Hc. pose proof (Hs (Client.ALock t) eq_refl eq_refl) as Hst. specialize (Hh t call Hc).
    unfold Client.caller_places. destruct (Client.c_pc call) eqn:Hp; try done. exfalso.
    destruct c. cbn in *. subst. unfold Client.step in Hst. cbn in Hst. rewrite Hc in Hst. cbn in Hst.
    by rewrite Hp in Hst.
  - destruct (Client.recv c) as [|h|h x|x e|e|e todo|] eqn:Hr; try done; eauto; exfalso.
    + pose proof (Hs Client.ALookup eq_refl eq_refl) as Hst. destruct c. cbn in *. by subst.
    + assert (x ∈ Client.recv_places (Client.recv c)) as Hx by (rewrite Hr; by left).
      destruct (still_done c x (Client.calls c) Hi Hl Hs) as [chs Hch].
      { unfold Client.places. apply elem_of_app. right. apply elem_of_app. by left. }
      { apply Client.place_not_done; [done|]. apply elem_of_app. right. apply elem_of_app. by left. }
      { intros d Hd. by exists d. }
      pose proof (Hs Client.ARecvDone eq_refl eq_refl) as Hst. destruct c. cbn in *. subst.
      unfold Client.step in Hst. cbn in Hst. by rewrite Hch in Hst.
    + pose proof (Hs Client.ATermLock eq_refl eq_refl) as Hst. destruct c. cbn in *. by subst.
Qed.

Lemma places_done c : Client.inv c →
  (∀ t call, Client.calls c !! t = Some call → Client.caller_places t call = []) →
  Client.recv_places (Client.recv c) = [] → Client.pend_places c = [] →
  Client.done_log c ≡ₚ List.seq 0 (length (Client.calls c)).
Proof using.
  intros [_ _ _ _ Hp] Hc Hr Hpe. unfold Client.placed, Client.places in Hp. rewrite Hr, Hpe in Hp.
  rewrite <- Hp. assert (concat (imap Client.caller_places (Client.calls c)) = []) as ->; [|done].
  clear -Hc. revert Hc. generalize Client.caller_places. induction (Client.calls c) as [|d l IH]; intros f Hf; [done|].
  cbn. rewrite (Hf 0%nat d eq_refl). apply IH. intros t d' Hd. by apply (Hf (S t)).
Qed.

(** ** A server that cannot go on *)

Lemma quiet_handler s i hd : live_inv s → quiescent s → crashed (loop s) = false → handlers s !! i = Some hd →
  main (state hd) = MDone.
Proof using.
  intros Hv Hq Hl Hi. destruct (proj1 (Forall_lookup _ _) (lv_handlers _ Hv) i hd Hi) as [tr Htr].
  assert (∀ a, internal (SHandler i a "") = true → hstep timeout a (state hd) = None) as Hst.
  { intros a Ha. specialize (Hq _ Ha). cbn in Hq. unfold handler_step in Hq. rewrite Hi in Hq. cbn in Hq.
    rewrite Hl in Hq. by destruct (hstep timeout a (state hd)). }
  pose proof (Hst (HReturn None) eq_refl) as H1. pose proof (Hst HCalled eq_refl) as H2.
  pose proof (Hst HMainSend eq_refl) as H3. pose proof (Hst HChildSend eq_refl) as H4.
  pose proof (Hst HSent eq_refl) as H5. destruct (state hd) as [m c rs]. destruct m, c; cbn in *; done.
Qed.

Lemma quiet_write s t call : net_inv s → live_inv s → quiescent s →
  Client.calls (client s) !! t = Some call → Client.c_pc call ≠ Client.CWrite.
Proof using.
  intros Hn Hv Hq Hc Hp. specialize (Hq (NWrite t None 2) eq_refl). cbn in Hq. rewrite Hc in Hq. cbn in Hq.
  destruct (lookup_lt_is_Some_2 reqs t) as [q Ha].
  { rewrite <- (lv_size _ Hv). by apply lookup_lt_Some in Hc. }
  unfold args_of in Hq. rewrite Ha in Hq. cbn in Hq. destruct (client s). cbn in *.
  unfold Client.step in Hq. cbn in Hq. rewrite Hc in Hq. cbn in Hq. by rewrite Hp in Hq.
Qed.

(** Reading is possible when something is there, or nothing will come. *)
Lemma blocked (u : stream) (b : bool) : (u = [] → b = true) → bool_decide (u = []) && negb b = false.
Proof using. intros H. case_bool_decide; [by rewrite H|done]. Qed.

Lemma quiet_body s h x : net_inv s → live_inv s → quiescent s → Client.recv (client s) ≠ Client.RBody h x.
Proof using.
  intros Hn Hv Hq Hr. pose proof (ni_down _ _ _ Hn) as Hd. rewrite Hr in Hd.
  specialize (Hq NBody eq_refl). cbn [Rpc.nstep client_step] in Hq.
  rewrite blocked, Hr in Hq by (intros E; by rewrite E in Hd).
  assert (∀ r, (∀ y, x = Some y → is_Some (Client.calls (client s) !! y)) →
    is_Some (Client.step Errorf (Client.ABody r) (client s))) as Hst.
  { intros r Hy. destruct (client s). cbn in *. subst. destruct x as [y|]; [|by eexists].
    destruct (Hy y eq_refl) as [d Hd']. unfold Client.step. cbn. rewrite Hd'. by eexists. }
  destruct x as [y|].
  - destruct (placed_call (client s) y (ni_client _ _ _ Hn)) as [d Hc].
    { unfold Client.places. rewrite Hr. apply elem_of_app. right. apply elem_of_app. left. by left. }
    destruct (lookup_lt_is_Some_2 reqs y) as [q Ha].
    { rewrite <- (lv_size _ Hv). by apply lookup_lt_Some in Hc. }
    unfold args_of in Hq. rewrite Ha in Hq. cbn [fmap option_fmap option_map mbind option_bind] in Hq.
    assert (∀ k : (string + string) * stream,
      (let '(r, d0) := k in c ← Client.step Errorf (Client.ABody r) (client s); Some (set_down d0 (set_client c s))) ≠ None) as Hk.
    { intros [r d0]. destruct (Hst r) as [c ->]; [|done]. intros z [= <-]. by exists d. }
    by apply Hk in Hq.
  - destruct (ReadBody_nil (down s)) as [r d0]. destruct (Hst r) as [c Hc]; [done|]. by rewrite Hc in Hq.
Qed.

Lemma quiet_header s : quiescent s → Client.recv (client s) = Client.RHeader →
  down s = [] ∧ down_cut s = false.
Proof using.
  intros Hq Hr. specialize (Hq NHeader eq_refl). cbn [Rpc.nstep client_step] in Hq.
  destruct (bool_decide (down s = []) && negb (down_cut s)) eqn:Hb.
  - apply andb_true_iff in Hb as [Hd%bool_decide_eq_true Hc]. by apply negb_true_iff in Hc.
  - destruct (ReadHeader (down s)) as [r d]. destruct (client s). cbn in *. subst. by destruct r.
Qed.

Lemma readRequest_total (u : stream) : readRequest (V := string) srv u ≠ NoFuel.
Proof using.
  unfold readRequest. destruct (ReadHeader u) as [[h0|e] c]; [|done].
  destruct (findService srv _) as [[sv [m|]] [e|]]; try done.
  assert (newArgv m ≠ NoFuel) as Ha by (unfold newArgv, Elem; by destruct (Kind (ArgType m))).
  assert (newReplyv m ≠ NoFuel) as Hr.
  { unfold newReplyv, Elem. destruct (Kind (ReplyType m)) as [e|e|e|e|e|]; cbn; by try destruct (Kind e). }
  destruct (newArgv m) as [z| |]; [|done..]. destruct (newReplyv m) as [p| |]; [|done..]. cbn [obind].
  by destruct (ReadBody (body_type z) c) as [[v|e] c'].
Qed.

Lemma quiet_loop s : live_inv s → quiescent s → down_cut s = false →
  loop s = LRead ∧ up s = [] ∧ up_cut s = false.
Proof using.
  intros Hv Hq Hd. destruct (loop s) eqn:Hl.
  - split; [done|]. specialize (Hq SRead eq_refl). cbn [Rpc.nstep] in Hq. unfold loop_step in Hq. rewrite Hl in Hq.
    destruct (bool_decide (up s = []) && negb (up_cut s)) eqn:Hb.
    + apply andb_true_iff in Hb as [Hu%bool_decide_eq_true Hc]. by apply negb_true_iff in Hc.
    + pose proof (readRequest_total (up s)). by destruct (readRequest srv (up s)) as [[[[r|] [e|]] u]|msg|].
  - specialize (Hq SRefuse eq_refl). cbn [Rpc.nstep] in Hq. unfold loop_step in Hq. by rewrite Hl in Hq.
  - assert (forallb (λ hd, match main (state hd) with MDone => true | _ => false end) (handlers s) = true) as Hall.
    { apply forallb_forall. intros hd Hin. apply list_elem_of_In, list_elem_of_lookup in Hin as [i Hi].
      rewrite (quiet_handler s i hd Hv Hq) by (by rewrite ?Hl || done). done. }
    specialize (Hq SClose eq_refl). cbn [Rpc.nstep] in Hq. unfold loop_step in Hq. rewrite Hl in Hq.
    by rewrite Hall in Hq.
  - by rewrite (lv_closed _ Hv) in Hd; auto.
  - by rewrite (lv_closed _ Hv) in Hd; auto.
Qed.

(** Nothing is on its way, so nothing is pending. *)
Lemma quiet_pending s : net_inv s → live_inv s → quiescent s → Client.recv (client s) = Client.RHeader →
  Client.pending (Client.cl (client s)) = ∅.
Proof using.
  intros Hn Hv Hq Hr. destruct (quiet_header s Hq Hr) as [Hd Hdc].
  destruct (quiet_loop s Hv Hq Hdc) as (Hl & Hu & Huc). apply map_eq. intros n. rewrite lookup_empty.
  destruct (Client.pending _ !! n) as [t|] eqn:Hp; [exfalso|done].
  assert (transit n s) as Ht.
  { eapply (lv_transit _ Hv); [|done]. unfold whole. by rewrite Hdc, Huc, Hl, Hr. }
  destruct Ht as [(u & call & Hc & Hw & _)|[Ht|[(h0 & Ht & _)|[(i & hd & Hi & _ & Hrs)|[Ht|(h0 & Ht & _)]]]]].
  - by apply (quiet_write s u call Hn Hv Hq Hc).
  - rewrite Hu in Ht. by apply elem_of_nil in Ht.
  - congruence.
  - destruct (proj1 (Forall_lookup _ _) (lv_handlers _ Hv) i hd Hi) as [tr Htr].
    unfold handling_inv in Htr. rewrite (quiet_handler s i hd Hv Hq) in Htr by (by rewrite ?Hl || done).
    rewrite Hrs in Htr. destruct (child (state hd)); try done; try (by destruct Htr); by destruct Htr as (? & ? & _).
  - rewrite Hd in Ht. by apply elem_of_nil in Ht.
  - congruence.
Qed.

Lemma quiet_done s : net_inv s → live_inv s → quiescent s →
  Client.done_log (client s) ≡ₚ List.seq 0 (length reqs).
Proof using.
  intros Hn Hv Hq. pose proof (ni_client _ _ _ Hn) as Hi. pose proof (lv_client _ Hv) as Hl.
  assert (still (client s)) as Hs.
  { intros a Ha Ha'. specialize (Hq _ Ha'). cbn in Hq. rewrite Ha in Hq. by destruct (Client.step _ _ _). }
  destruct (still_quiet _ Hi Hl Hs) as [Hc Hr]; [intros t call; by apply quiet_write|].
  rewrite <- (lv_size _ Hv). destruct Hr as [Hr|[(h0 & x & Hr)|Hr]].
  - apply places_done; try done; [by rewrite Hr|]. unfold Client.pend_places. rewrite Hr. cbn.
    by rewrite quiet_pending, map_to_list_empty.
  - by apply quiet_body in Hr.
  - apply places_done; try done; [by rewrite Hr|]. unfold Client.pend_places. by rewrite Hr.
Qed.

(** ** Properties *)

(** C8: no call is left behind: whatever has happened, broken connections, refused
    requests, timeouts and a crash of the server included, a client and a
    server that can go no further have finished every call.  Assumed are what
    Go demands of its users (a channel with room for every call, one of its
    own for each [Call], and users who take what is done off shared channels),
    that a method returns and that a write does not hang. *)
Theorem no_call_left_behind caps tr s :
  Z.of_nat (length reqs) < 2 ^ 64 - 1 → Client.private reqs.*1 caps → Forall (λ n, 0 < n)%nat caps →
  nrun tr (connected reqs caps) = Some s → quiescent s →
  Client.done_log (client s) ≡ₚ List.seq 0 (length reqs).
Proof using.
  intros Hl Hp Hc Hr Hq.
  destruct (nrun_live tr _ s (connected_inv srv reqs caps Hl) (connected_live caps Hp Hc) Hr) as [Hn Hv].
  by apply quiet_done.
Qed.
End Progress.

(** ** Witness *)

(** One call to a server without services, until nothing can happen any more. *)
Definition one_call : list (Client.kind * nat * string * Args) := [foo_call "Foo.Sum" 0 1].

Definition one_trace : list naction :=
  send 0 ++ [SRead; SRefuse; SRead; SClose] ++ receive ++
  [NHeader; NClient Client.ATermLock; NClient Client.ATermEnd; NClient (Client.AUser 0)].

Abbreviation one_run := (nrun id (pretty : Z → string) NewServer 0 one_call one_trace (connected one_call [1]%nat)).
Abbreviation one_quiescent := (quiescent id (pretty : Z → string) NewServer 0 one_call).

Lemma one_run_ends : ∃ s, one_run = Some s ∧ one_quiescent s.
Proof.
  eexists. split; [vm_compute; reflexivity|]. intros a Ha.
  destruct a as [[t|t|t r|t|t|t|t|t e|t|r| |r| | |i| | |ch]|t r n| | |k|k| | |i a r| |]; try done.
  all: try (destruct t as [|t]; done).
  all: try (destruct ch as [|ch]; done).
Qed.

Lemma no_call_left_behind_witness : ∃ s, one_run = Some s ∧ Client.done_log (client s) ≡ₚ [0%nat].
Proof.
  destruct one_run_ends as (s & Hr & Hq). exists s. split; [exact Hr|].
  apply (no_call_left_behind id pretty NewServer 0 one_call [1]%nat one_trace s).
  - cbn. lia.
  - split.
    + intros [|t] x Hx; cbn in Hx; [injection Hx as <-; cbn; lia|discriminate].
    + intros [|t] [|t'] x x' Hx Hx' _ _; cbn in *; [reflexivity|discriminate..].
  - repeat constructor.
  - exact Hr.
  - exact Hq.
Defined.
