(* ===== verification/XClient.v ===== *)
(** * geerpc/xclient: the client with service discovery

    Models [src/geerpc/xclient/xclient.go] over any discovery that implements
    the interface of [Discovery.v], and over the client's own operations
    [Close] and [IsAvailable] of [Client.v].  Clients are shared objects: the
    map holds positions in a heap.  [XDial] is not defined in the repository; it
    is a parameter that may fail, and a successful dial is a new client. *)

From S2P Require Import Prelude Discovery.
From S2P Require Client.

Section XClient.
Context {D : Type} `{!Discovery D}.
(** The error of dialing an address. *)
Context (XDial : string → error).

Record XClient := mkXClient { d : D; mode : Z; clients : gmap string nat }.

(** The XClient with the clients that were ever made. *)
Record world := mkWorld { xc : XClient; heap : list Client.Client }.

Definition NewClient (d : D) (mode : Z) : XClient := mkXClient d mode ∅.

Definition set_clients (m : gmap string nat) (x : XClient) : XClient :=
  mkXClient (d x) (mode x) m.

(** [client.Close()] on the heap; its error is dropped. *)
Definition close_at (c : nat) (hp : list Client.Client) : list Client.Client :=
  match hp !! c with
  | Some cl => <[c := (Client.Close cl).2]> hp
  | None => hp
  end.

Definition available (c : nat) (hp : list Client.Client) : bool :=
  match hp !! c with Some cl => Client.IsAvailable cl | None => false end.

(** The loop of [Close] over the map, in some order of its entries. *)
Definition Close (w : world) : world :=
  mkWorld (set_clients ∅ (xc w)) (foldr (λ p hp, close_at p.2 hp) (heap w) (map_to_list (clients (xc w)))).

(** [client] keeps its old value when the entry is deleted. *)
Definition dial (rpcAddr : string) (w : world) : (nat + string) * world :=
  let client := clients (xc w) !! rpcAddr in
  let w1 :=
    match client with
    | Some c =>
        if negb (available c (heap w))
        then mkWorld (set_clients (delete rpcAddr (clients (xc w))) (xc w)) (close_at c (heap w))
        else w
    | None => w
    end in
  match client with
  | Some c => (inl c, w1)
  | None =>
      match XDial rpcAddr with
      | Some err => (inr err, w1)
      | None =>
          let c := length (heap w1) in
          (inl c, mkWorld (set_clients (<[rpcAddr := c]> (clients (xc w1))) (xc w1))
                    (heap w1 ++ [Client.newClientCodec]))
      end
  end.

(** [invoke c] is what [client.Call] on the client [c] returns, [None] while it
    has not returned. *)
Definition call (invoke : nat → world → option error * world) (rpcAddr : string) (w : world)
  : option error * world :=
  match dial rpcAddr w with
  | (inr err, w) => (Some (Some err), w)
  | (inl c, w) => invoke c w
  end.

(** The address that was chosen, if any, with what the call returns, [None] when
    it waits in [client.Call]. *)
Definition Call (invoke : nat → world → option error * world) (e : Env) (w : world)
  : outcome (option string * option error * world) :=
  let! (rpcAddr, err, d') := d_Get e (mode (xc w)) (d (xc w)) in
  let w := mkWorld (mkXClient d' (mode (xc w)) (clients (xc w))) (heap w) in
  match err with
  | Some err => Ret (None, Some (Some err), w)
  | None => let '(res, w) := call invoke rpcAddr w in Ret (Some rpcAddr, res, w)
  end.

(** ** Broadcast *)

(** What the goroutines share: the first error, whether the reply is set, the
    reply, and whether the context was cancelled. *)
Record shared {A : Type} := mkShared { e : error; replyDone : bool; reply : option A; cancelled : bool }.
Arguments shared : clear implicits.

(** The critical section of one goroutine, with the outcome of its call. *)
Definition finish {A} (r : A + string) (s : shared A) : shared A :=
  let s1 :=
    match r with
    | inr err => if bool_decide (e s = None)
                 then mkShared _ (Some err) (replyDone s) (reply s) true else s
    | inl _ => s
    end in
  match r with
  | inl v => if replyDone s1 then s1 else mkShared _ (e s1) true (Some v) (cancelled s1)
  | inr _ => s1
  end.

(** Where the goroutine of a server is: about to call [dial], inside
    [client.Call], with the outcome of its call, or ended. *)
Inductive gpc {A : Type} := GDial | GCall (c : nat) | GResult (r : A + string) | GEnd.
Arguments gpc : clear implicits.

(** A running broadcast.  Ghost state: the outcomes with the number of their
    goroutine, in the order in which the goroutines finished. *)
Record broadcast {A : Type} := mkBroadcast {
  b_world : world; b_shared : shared A; b_gs : list (string * gpc A); b_log : list (nat * (A + string)) }.
Arguments broadcast : clear implicits.

(** What [client.Call] returns is chosen by the step. *)
Inductive baction {A : Type} := BDial (i : nat) | BReturn (i : nat) (r : A + string) | BFinish (i : nat).
Arguments baction : clear implicits.

Definition bstep {A} (a : baction A) (s : broadcast A) : option (broadcast A) :=
  match a with
  | BDial i =>
      '(addr, p) ← b_gs s !! i;
      match p with
      | GDial =>
          let '(r, w) := dial addr (b_world s) in
          let p := match r with inr err => GResult (inr err) | inl c => GCall c end in
          Some (mkBroadcast _ w (b_shared s) (<[i := (addr, p)]> (b_gs s)) (b_log s))
      | _ => None
      end
  | BReturn i r =>
      '(addr, p) ← b_gs s !! i;
      match p with
      | GCall _ =>
          Some (mkBroadcast _ (b_world s) (b_shared s) (<[i := (addr, GResult r)]> (b_gs s)) (b_log s))
      | _ => None
      end
  | BFinish i =>
      '(addr, p) ← b_gs s !! i;
      match p with
      | GResult r =>
          Some (mkBroadcast _ (b_world s) (finish r (b_shared s)) (<[i := (addr, GEnd)]> (b_gs s))
                  (b_log s ++ [(i, r)]))
      | _ => None
      end
  end.

Fixpoint brun {A} (tr : list (baction A)) (s : broadcast A) : option (broadcast A) :=
  match tr with
  | [] => Some s
  | a :: tr => s' ← bstep a s; brun tr s'
  end.

(** The goroutines are started; [want] is whether the caller passed a reply. *)
Definition bstart {A} (want : bool) (servers : list string) (w : world) : broadcast A :=
  mkBroadcast _ w (mkShared _ None (negb want) None false) ((λ addr, (addr, GDial)) <$> servers) [].

Definition ended {A} (g : string * gpc A) : bool := match g.2 with GEnd => true | _ => false end.

(** The goroutines for a list of servers, under the schedule [tr]; [wg.Wait]
    returns when every one has ended. *)
Definition call_all {A} (want : bool) (tr : list (baction A)) (servers : list string) (w : world)
  : outcome (error * option A * world) :=
  match brun tr (bstart want servers w) with
  | Some s =>
      if forallb ended (b_gs s) then Ret (e (b_shared s), reply (b_shared s), b_world s) else NoFuel
  | None => NoFuel
  end.

Definition Broadcast {A} (env : Env) (want : bool) (tr : list (baction A)) (w : world)
  : outcome (error * option A * world) :=
  let! (servers, err, d') := d_GetAll env (d (xc w)) in
  let w := mkWorld (mkXClient d' (mode (xc w)) (clients (xc w))) (heap w) in
  match err with
  | Some err => Ret (Some err, None, w)
  | None => call_all want tr servers w
  end.

(** ** Specification *)

Definition first_error {A} (l : list (A + string)) : error :=
  head (omap (λ r, match r with inr x => Some x | _ => None end) l).
Definition first_reply {A} (l : list (A + string)) : option A :=
  head (omap (λ r, match r with inl v => Some v | _ => None end) l).

(** Every client of the map is on the heap. *)
Definition clients_ok (w : world) : Prop :=
  ∀ a c, clients (xc w) !! a = Some c → is_Some (heap w !! c).

(** The shared variables are the fold of the outcomes so far, each from its own
    goroutine. *)
Definition binv {A} (want : bool) (servers : list string) (s : broadcast A) : Prop :=
  (b_gs s).*1 = servers ∧ NoDup (b_log s).*1 ∧
  (∀ i, i ∈ (b_log s).*1 ↔ ∃ addr, b_gs s !! i = Some (addr, GEnd)) ∧
  b_shared s = foldl (λ s r, finish r s) (mkShared _ None (negb want) None false) (b_log s).*2.

(** ** Closing *)

Lemma close_at_lookup c hp i : close_at c hp !! i =
  if decide (i = c) then (λ cl, (Client.Close cl).2) <$> hp !! i else hp !! i.
Proof using Type.
  unfold close_at. destruct (hp !! c) as [cl|] eqn:E.
  - rewrite (lookup_set _ _ _ _ _ E). repeat case_decide; subst; try done. by rewrite E.
  - case_decide; [subst; by rewrite E|done].
Qed.

Lemma Close_closing cl : Client.closing (Client.Close cl).2 = true.
Proof using. unfold Client.Close. by destruct (Client.closing cl) eqn:E. Qed.

Lemma close_all_lookup (l : list (string * nat)) hp i cl : hp !! i = Some cl →
  ∃ cl', foldr (λ p hp, close_at p.2 hp) hp l !! i = Some cl' ∧
    ((∃ a, (a, i) ∈ l) → Client.closing cl' = true) ∧ ((∀ a, (a, i) ∉ l) → cl' = cl).
Proof using Type.
  clear XDial.
  intros Hi. induction l as [|[a c] l IH]; cbn.
  - exists cl. split_and!; [done| |done]. intros [a Ha]. by apply elem_of_nil in Ha.
  - destruct IH as (cl' & Hl & Hc & Hn). rewrite close_at_lookup, Hl. cbn. case_decide as Hic.
    + subst c. eexists. split_and!; [done|intros _; apply Close_closing|].
      intros H. destruct (H a). set_solver.
    + exists cl'. split_and!; [done| |].
      * intros [b [Hb|Hb]%elem_of_cons]; [congruence|]. eauto.
      * intros H. apply Hn. intros b Hb. apply (H b). set_solver.
Qed.

(** ** Properties *)

(** Close closes every client the XClient holds, forgets all of them, and
    touches no other client. *)
Theorem Close_closes_all w : clients_ok w →
  clients (xc (Close w)) = ∅ ∧
  ∀ i cl, heap w !! i = Some cl → ∃ cl', heap (Close w) !! i = Some cl' ∧
    ((∃ a, clients (xc w) !! a = Some i) → Client.IsAvailable cl' = false) ∧
    ((∀ a, clients (xc w) !! a ≠ Some i) → cl' = cl).
Proof using Type.
  intros Hok. split; [done|]. intros i cl Hi. unfold Close. cbn [heap].
  destruct (close_all_lookup (map_to_list (clients (xc w))) (heap w) i cl Hi) as (cl' & Hl & Hc & Hn).
  exists cl'. split_and!; [done| |].
  - intros [a Ha]. unfold Client.IsAvailable. rewrite Hc; [done|]. exists a. by apply elem_of_map_to_list.
  - intros Ha. apply Hn. intros a Hin. apply (Ha a). by apply elem_of_map_to_list.
Qed.

(** A client whose connection is lost fails one more call: dial finds that it is
    not available, closes it and removes it from the map, and returns it all
    the same, so that call is refused; the next dial makes a new client, which
    is available. *)
Theorem dial_returns_dead_client w a c cl : clients (xc w) !! a = Some c → heap w !! c = Some cl →
  Client.IsAvailable cl = false → XDial a = None →
  ∃ w1, dial a w = (inl c, w1) ∧ available c (heap w1) = false ∧
  (∀ x cl1, heap w1 !! c = Some cl1 → (Client.registerCall x cl1).1 = inr Client.ErrShutdown) ∧
  ∃ c2 w2, dial a w1 = (inl c2, w2) ∧ c2 ≠ c ∧ available c2 (heap w2) = true.
Proof using Type.
  intros Ha Hc Hav Hx. assert (available c (heap w) = false) as Hav' by (unfold available; by rewrite Hc).
  unfold dial at 1. rewrite Ha, Hav'. cbn [negb].
  set (w1 := mkWorld _ _). exists w1. split; [done|].
  assert (heap w1 !! c = Some (Client.Close cl).2) as Hc1.
  { unfold w1. cbn [heap]. rewrite close_at_lookup, decide_True, Hc by done. done. }
  assert (Client.closing (Client.Close cl).2 = true) as Hclosing by apply Close_closing.
  split_and!.
  - unfold available. rewrite Hc1. unfold Client.IsAvailable. by rewrite Hclosing.
  - intros x cl1 H1. rewrite Hc1 in H1. simplify_eq. unfold Client.registerCall. by rewrite Hclosing.
  - unfold dial. assert (clients (xc w1) !! a = None) as -> by apply lookup_delete_eq. rewrite Hx.
    do 2 eexists. split; [done|]. split.
    + apply lookup_lt_Some in Hc1. lia.
    + unfold available. cbn [heap]. by rewrite list_lookup_middle.
Qed.

(** [call] changes the discovery and the mode only through the client's call. *)
Lemma call_world invoke a w res w' : call invoke a w = (res, w') → ∃ w0,
  d (xc w0) = d (xc w) ∧ mode (xc w0) = mode (xc w) ∧
  ((w' = w0 ∧ ∃ err, res = Some (Some err)) ∨ ∃ c, invoke c w0 = (res, w')).
Proof using Type.
  intros Hcall. unfold call, dial in Hcall.
  repeat (case_match; simplify_eq/=); eexists;
    (split; [|split; [|first [right; eexists; eassumption | left; split; [reflexivity|eexists; reflexivity]]]]); done.
Qed.

(** A call through a discovery that keeps its promise is made to one of the
    servers the discovery knows at that moment, or not made at all with an
    error. *)
Theorem Call_goes_to_known_server `{!DiscoveryLaws D} invoke env w :
  env_ok env → idle (d (xc w)) →
  (∀ c w1, d (xc (invoke c w1).2) = d (xc w1)) →
  ∃ addr res w', Call invoke env w = Ret (addr, res, w') ∧ idle (d (xc w')) ∧
  match addr with
  | Some a => a ∈ known (d (xc w'))
  | None => ∃ err, res = Some (Some err)
  end.
Proof using Type.
  intros He Hd Hinv. destruct (Get_known env (mode (xc w)) (d (xc w)) He Hd)
    as (s & err & d' & Hget & Hd' & Hs). unfold Call. rewrite Hget. cbn [obind].
  destruct err as [err|]; [do 3 eexists; split; [done|]; by split; [|eexists]|].
  set (w0 := mkWorld _ _). destruct (call invoke s w0) as [res w'] eqn:Hcall.
  do 3 eexists. split; [done|].
  destruct (call_world invoke s w0 res w' Hcall) as (w1 & Hd1 & _ & Hw').
  assert (d (xc w') = d') as ->; [|split; [done|by apply Hs]].
  destruct Hw' as [[-> _]|[c Hc]]; [done|]. pose proof (Hinv c w1) as Hd2. rewrite Hc in Hd2. cbn in Hd2. by rewrite Hd2.
Qed.

Lemma finish_fold {A} (l : list (A + string)) s :
  let s' := foldl (λ s r, finish r s) s l in
  e s' = match e s with Some x => Some x | None => first_error l end ∧
  reply s' = (if replyDone s then reply s else match first_reply l with Some v => Some v | None => reply s end).
Proof using Type.
  revert s. induction l as [|[v|err] l IH]; intros s; cbn [foldl].
  - cbn. by destruct (e s), (replyDone s).
  - destruct (IH (finish (inl v) s)) as [-> ->]. unfold finish. destruct (replyDone s) eqn:E; cbn;
      rewrite ?E; done.
  - destruct (IH (finish (inr err) s)) as [-> ->]. unfold finish.
    destruct (e s) eqn:E; cbn; rewrite ?E; done.
Qed.

Lemma finish_cancelled {A} (l : list (A + string)) s :
  cancelled s = bool_decide (e s ≠ None) →
  let s' := foldl (λ s r, finish r s) s l in cancelled s' = bool_decide (e s' ≠ None).
Proof using Type.
  revert s. induction l as [|r l IH]; intros s Hs; [done|]. cbn [foldl]. apply IH.
  unfold finish. destruct r as [v|err]; [by destruct (replyDone s)|].
  destruct (decide (e s = None)) as [He|He].
  - rewrite (bool_decide_eq_true_2 (e s = None)) by done. done.
  - by rewrite (bool_decide_eq_false_2 (e s = None)).
Qed.

(** A goroutine moves on without finishing. *)
Lemma binv_move {A} want servers (s : broadcast A) w i addr p p' :
  b_gs s !! i = Some (addr, p) → p ≠ GEnd → p' ≠ GEnd → binv want servers s →
  binv want servers (mkBroadcast _ w (b_shared s) (<[i := (addr, p')]> (b_gs s)) (b_log s)).
Proof using Type.
  intros Hi Hp Hp' (Hs & Hnd & Hl & Hsh). split_and!; [|done| |done]; cbn.
  - rewrite list_fmap_insert, <- Hs. apply list_insert_id. by rewrite list_lookup_fmap, Hi.
  - intros j. rewrite Hl, (lookup_set _ _ _ _ _ Hi). case_decide as E; [|done]. subst j. rewrite Hi.
    split; intros [? ?]; simplify_eq.
Qed.

Lemma bstep_inv {A} want servers a (s s' : broadcast A) :
  binv want servers s → bstep a s = Some s' → binv want servers s'.
Proof using Type.
  intros Hinv H. destruct a as [i|i r|i]; cbn in H;
    (destruct (b_gs s !! i) as [[addr p]|] eqn:Hi; [|done]); cbn in H;
    destruct p as [|c|r'|] eqn:Hp; try done.
  - destruct (dial addr (b_world s)) as [[c|err] w]; injection H as <-; by eapply binv_move.
  - injection H as <-. by eapply binv_move.
  - injection H as <-. destruct Hinv as (Hs & Hnd & Hl & Hsh). unfold binv. cbn.
    rewrite !fmap_app, foldl_app, <- Hsh. cbn. split_and!; [| | |done].
    + rewrite list_fmap_insert, <- Hs. apply list_insert_id. by rewrite list_lookup_fmap, Hi.
    + apply NoDup_app. split_and!; [done| |apply NoDup_singleton].
      intros j Hj ->%list_elem_of_singleton. apply Hl in Hj as [? Hj]. congruence.
    + intros j. rewrite elem_of_app, list_elem_of_singleton, Hl, (lookup_set _ _ _ _ _ Hi).
      case_decide as E; [subst; naive_solver|]. split; [intros [H|H]; [done|congruence]|by left].
Qed.

Lemma brun_inv {A} want servers tr (s s' : broadcast A) :
  binv want servers s → brun tr s = Some s' → binv want servers s'.
Proof using Type.
  revert s. induction tr as [|a tr IH]; intros s Hs H; cbn in H; [by simplify_eq|].
  destruct (bstep a s) as [s1|] eqn:E; [|done]. eapply IH; [by eapply bstep_inv|done].
Qed.

Lemma bstart_inv {A} want servers w : binv want servers (bstart (A := A) want servers w).
Proof using Type.
  split_and!; cbn; [by rewrite <- list_fmap_compose, list_fmap_id|apply NoDup_nil_2| |done].
  intros i. rewrite list_lookup_fmap. split; [by intros ?%elem_of_nil|].
  intros [addr H]. by destruct (servers !! i).
Qed.

(** Every step of a goroutine is one of the three that it takes at most. *)
Definition left {A} (g : string * gpc A) : nat :=
  match g.2 with GDial => 3 | GCall _ => 2 | GResult _ => 1 | GEnd => 0 end.

Lemma bstep_left {A} a (s s' : broadcast A) : bstep a s = Some s' →
  (sum_list_with left (b_gs s') < sum_list_with left (b_gs s))%nat.
Proof using Type.
  intros H. destruct a as [i|i r|i]; cbn in H;
    (destruct (b_gs s !! i) as [[addr p]|] eqn:Hi; [|done]); cbn in H; destruct p as [|c|r'|]; try done;
    [destruct (dial addr (b_world s)) as [[c|err] w]|..]; injection H as <-; cbn [b_gs];
    match goal with |- context [<[i := ?y]> _] => pose proof (sum_list_with_set left _ _ _ y Hi) as Hs end;
    cbn in Hs; lia.
Qed.

Lemma brun_left {A} tr (s s' : broadcast A) : brun tr s = Some s' →
  (length tr + sum_list_with left (b_gs s') ≤ sum_list_with left (b_gs s))%nat.
Proof using Type.
  revert s. induction tr as [|a tr IH]; intros s H; cbn in H; [by simplify_eq|].
  destruct (bstep a s) as [s1|] eqn:Hs; [|done]. apply bstep_left in Hs. specialize (IH s1 H). cbn. lia.
Qed.

Lemma bstart_left {A} want servers w :
  sum_list_with left (b_gs (bstart (A := A) want servers w)) = (3 * length servers)%nat.
Proof using Type. cbn. induction servers as [|a l IH]; cbn in *; lia. Qed.

(** A goroutine that has not ended can take a step. *)
Lemma all_ended {A} (s : broadcast A) : (∀ a, bstep a s = None) → forallb ended (b_gs s) = true.
Proof using Type.
  intros Hq. apply List.forallb_forall. intros [addr p] (i & Hi)%list_elem_of_In%list_elem_of_lookup_1.
  destruct p as [|c|r|]; [exfalso..|done].
  - specialize (Hq (BDial i)). cbn in Hq. rewrite Hi in Hq. cbn in Hq. by destruct (dial _ _).
  - specialize (Hq (BReturn i (inr ""%string))). cbn in Hq. by rewrite Hi in Hq.
  - specialize (Hq (BFinish i)). cbn in Hq. by rewrite Hi in Hq.
Qed.

(** C33: the goroutines that a broadcast starts for a list of servers, however they
    are scheduled and whatever their calls return: they take at most three
    steps each; when none is left to take, every [client.Call] having returned,
    the broadcast returns; and it returns only when every server's goroutine
    has finished, each once, with the first error to arrive and (when the
    caller asked for one) the first successful reply, also beside an error; the
    context was cancelled by then exactly when there was an error.  (The list
    would come from GetAll, which gives none with the discoveries of this
    package, [Broadcast_is_fatal] and [RpcMain.Broadcast_fails]; and
    [client.Call] returns errors only.) *)
Theorem Broadcast_first {A} want (tr : list (baction A)) servers w s :
  brun tr (bstart want servers w) = Some s →
  (length tr ≤ 3 * length servers)%nat ∧
  ((∀ a, bstep a s = None) → ∃ err rep, call_all want tr servers w = Ret (err, rep, b_world s)) ∧
  ∀ err rep w', call_all want tr servers w = Ret (err, rep, w') →
    (b_log s).*1 ≡ₚ seq 0 (length servers) ∧
    err = first_error (b_log s).*2 ∧ rep = (if want then first_reply (b_log s).*2 else None) ∧
    cancelled (b_shared s) = bool_decide (err ≠ None).
Proof using Type.
  intros Hrun. pose proof (brun_left _ _ _ Hrun) as Hleft. rewrite bstart_left in Hleft.
  pose proof (brun_inv _ _ _ _ _ (bstart_inv _ _ _) Hrun) as (Hs & Hnd & Hl & Hsh).
  unfold call_all. rewrite Hrun. split_and!; [lia|intros Hq; rewrite all_ended by done; by do 2 eexists|].
  intros err rep w'. destruct (forallb ended (b_gs s)) eqn:Hend; [|done]. intros H. injection H as <- <- <-.
  pose proof (finish_fold (b_log s).*2 (mkShared _ None (negb want) None false)) as [He Hr].
  split_and!.
  - apply NoDup_Permutation; [done|apply NoDup_seq|]. intros i. rewrite Hl, elem_of_seq, <- Hs, length_fmap.
    split; [intros [addr Hi]; apply lookup_lt_Some in Hi; lia|].
    intros [_ Hlt]. destruct (lookup_lt_is_Some_2 (b_gs s) i) as [[addr p] Hi]; [lia|].
    assert (ended (addr, p) = true) as Hp.
    { apply (proj1 (List.forallb_forall _ _) Hend). by eapply list_elem_of_In, list_elem_of_lookup_2. }
    destruct p; try done. by exists addr.
  - by rewrite Hsh, He.
  - rewrite Hsh, Hr. cbn. destruct want; cbn; [|done]. by destruct (first_reply (b_log s).*2).
  - rewrite Hsh. by apply finish_cancelled.
Qed.
End XClient.
Arguments baction : clear implicits.

(** With the repository's own discoveries no broadcast ever completes: reading
    the list of servers ends the process. *)
Theorem Broadcast_is_fatal {A} Intn XDial env want (tr : list (baction A))
  (w : world (D := MultiServersDiscovery)) :
  mu (d (xc w)) = unlocked →
  Broadcast (Discovery0 := Multi_Discovery Intn) XDial env want tr w =
    Panic "fatal error: sync: Unlock of unlocked RWMutex".
Proof. intros Hmu. unfold Broadcast. cbn. unfold Multi_GetAll. by rewrite Hmu. Qed.

(** ** Witnesses *)

Definition live : Client.Client := Client.newClientCodec.
Definition dead : Client.Client := Client.set_shutdown Client.newClientCodec.

Definition demo_discovery : MultiServersDiscovery := mkMulti 1 unlocked ["tcp@a"; "tcp@b"]%string 0.

Definition demo_world : world (D := MultiServersDiscovery) :=
  mkWorld (mkXClient demo_discovery RoundRobinSelect {[ "tcp@a"%string := 1%nat ]}) [live; dead].

Lemma Close_closes_all_witness :
  clients (xc (Close demo_world)) = ∅ ∧
  (∃ cl', heap (Close demo_world) !! 1%nat = Some cl' ∧ Client.IsAvailable cl' = false).
Proof.
  destruct (Close_closes_all demo_world) as [Hm Hc].
  - intros a c Ha. change (({[ "tcp@a"%string := 1%nat ]} : gmap string nat) !! a = Some c) in Ha.
    apply lookup_singleton_Some in Ha as [_ <-]. by eexists.
  - split; [exact Hm|]. destruct (Hc 1%nat dead eq_refl) as (cl' & Hl & Hcl & _). exists cl'.
    split; [exact Hl|]. apply Hcl. exists "tcp@a"%string. reflexivity.
Defined.

Lemma dial_returns_dead_client_witness : ∃ w1, dial (λ _, None) "tcp@a" demo_world = (inl 1%nat, w1) ∧
  available 1 (heap w1) = false.
Proof.
  destruct (dial_returns_dead_client (λ _, None) demo_world "tcp@a" 1 dead) as (w1 & Hd & Hav & _);
    [reflexivity..|]. exists w1. split; [exact Hd|exact Hav].
Defined.

Lemma demo_Intn (k : nat) (n : Z) : 0 < n → 0 ≤ (λ (_ : nat) (_ : Z), 0) k n < n.
Proof. lia. Qed.

Lemma Call_goes_to_known_server_witness : ∃ addr err w',
  Call (Discovery0 := Multi_Discovery (λ _ _, 0)) (λ _, None) (λ _ w, (None, w))
    (mkEnv 0 0 (λ _, inr "none"%string)) demo_world = Ret (addr, err, w') ∧
  Multi_idle (d (xc w')) ∧
  match addr with Some a => a ∈ servers (d (xc w')) | None => ∃ x, err = Some (Some x) end.
Proof.
  refine (Call_goes_to_known_server (Discovery0 := Multi_Discovery (λ _ _, 0))
    (DiscoveryLaws0 := Multi_laws (λ _ _, 0) demo_Intn) (λ _, None) (λ _ w, (None, w))
    (mkEnv 0 0 (λ _, inr "none"%string)) demo_world _ _ _).
  - intros a h H. discriminate.
  - cbn. unfold Multi_idle. cbn. split; [reflexivity|lia].
  - reflexivity.
Defined.

(** Four servers, one of which cannot be dialed; the others answer in another
    order than they were called in. *)
Definition demo_XDial (addr : string) : error :=
  if bool_decide (addr = "b"%string) then Some "refused"%string else None.

Definition demo_schedule : list (baction Z) :=
  [BDial 0; BDial 2; BReturn 2 (inl 3); BDial 1; BFinish 2; BDial 3; BFinish 1;
   BReturn 3 (inr "context canceled"%string); BReturn 0 (inl 1); BFinish 3; BFinish 0].

Abbreviation demo_broadcast := (brun demo_XDial demo_schedule (bstart true ["a"; "b"; "c"; "d"]%string demo_world)).

Lemma Broadcast_first_witness : ∃ s w', demo_broadcast = Some s ∧ (length demo_schedule ≤ 12)%nat ∧
  call_all demo_XDial true demo_schedule ["a"; "b"; "c"; "d"]%string demo_world =
    Ret (Some "refused"%string, Some 3, w') ∧
  (b_log s).*1 ≡ₚ [0; 1; 2; 3]%nat ∧ Some "refused"%string = first_error (b_log s).*2 ∧
  Some 3 = first_reply (b_log s).*2.
Proof.
  destruct demo_broadcast as [s|] eqn:Hr; [|vm_compute in Hr; discriminate Hr].
  destruct (call_all demo_XDial true demo_schedule ["a"; "b"; "c"; "d"]%string demo_world)
    as [[[err rep] w']|m|] eqn:Hc; [|vm_compute in Hc; discriminate Hc..].
  destruct (Broadcast_first demo_XDial true demo_schedule ["a"; "b"; "c"; "d"]%string demo_world s Hr)
    as (Hl & _ & Hret).
  destruct (Hret err rep w' Hc) as (Hp & He & Hrep & _).
  assert (err = Some "refused"%string ∧ rep = Some 3) as [-> ->]
    by (vm_compute in Hc; injection Hc as <- <- _; split; reflexivity).
  exists s, w'. split; [reflexivity|]. split; [exact Hl|]. split; [reflexivity|].
  split; [exact Hp|]. split; [exact He|exact Hrep].
Defined.

Lemma Broadcast_is_fatal_witness :
  Broadcast (Discovery0 := Multi_Discovery (λ _ _, 0)) (A := Z) (λ _, None)
    (mkEnv 0 0 (λ _, inr "none"%string)) true [] demo_world =
    Panic "fatal error: sync: Unlock of unlocked RWMutex".
Proof.
  apply (Broadcast_is_fatal (λ _ _, 0) (λ _, None) (mkEnv 0 0 (λ _, inr "none"%string)) true [] demo_world).
  reflexivity.
Defined.
