(* ===== verification/Fleet.v ===== *)
(** * geerpc: a registry, its servers and the clients that find them

    Composes [Registry.v], [Discovery.v] and [XClient.v] the way
    [src/geerpc/main/main.go] means to: servers send their heartbeats to one
    registry, and any number of XClients, each with a discovery that refreshes
    its list from that registry, make calls.  A refresh takes time, during
    which the registry visits its servers, and it can fail.  What a call does
    on the connection is the subject of [Rpc.v]; here it is what it leaves of
    the client objects, and that it waits in [client.Call] until its context
    ends: that is all it can do ([Call_returns_only_context] of
    [ClientApi.v]).  A call that waits holds no lock, so that others go on. *)

From S2P Require Import Prelude GoStrings Discovery.
From S2P Require Registry Client XClient.

Section Fleet.
Context (Intn : nat → Z → Z).


Abbreviation world := (XClient.world (D := GeeRegistryDiscovery)).

(** ** The system *)

Record fleet := mkFleet { reg : Registry.GeeRegistry; xcs : list world }.

(** What a call finds: the clock before and after the refresh, the error of
    [http.Get], the order in which the registry visits its servers and the
    clock at each, the errors of dialing, the error with which the context ends
    inside [client.Call], if it ends there, and what the call leaves of the
    clients. *)
Record surroundings := mkSurroundings {
  n1 : Z; n2 : Z; unreachable : error; iter : list string → list string; clock : string → Z;
  XDial : string → error; ends : option string; leaves : list Client.Client → list Client.Client }.

Definition fetched (c : surroundings) (rg : Registry.GeeRegistry) : string → string + string :=
  match unreachable c with
  | Some err => λ _, inr err
  | None => from_registry (iter c) (clock c) rg
  end.

(** The discovery asks the registry. *)
Definition due (c : surroundings) (d : GeeRegistryDiscovery) : bool :=
  bool_decide (lastUpdate d + timeout d ≤ n1 c).

(** The registry after the refresh: a GET deletes what has expired. *)
Definition asked (c : surroundings) (d : GeeRegistryDiscovery) (rg : Registry.GeeRegistry)
  : Registry.GeeRegistry :=
  match unreachable c with
  | None => if due c d
            then (Registry.ServeHTTP (iter c) (clock c) (Registry.mkRequest "GET" "") rg).2 else rg
  | Some _ => rg
  end.

(** [client.Call]: it returns when the context ends, never with the reply. *)
Definition invoke (c : surroundings) (_ : nat) (w : world) : option error * world :=
  ((λ e, Some ("rpc client:call failed: " +:+ e)) <$> ends c, XClient.mkWorld (XClient.xc w) (leaves c (XClient.heap w))).

(** A call of the [i]-th XClient: the address that was chosen, and what the call
    returns, if it does. *)
Definition call_step (i : nat) (c : surroundings) (s : fleet)
  : outcome (option string * option error * fleet) :=
  match xcs s !! i with
  | None => Panic "index out of range"
  | Some w =>
      let e := mkEnv (n1 c) (n2 c) (fetched c (reg s)) in
      let! (target, res, w') :=
        XClient.Call (Discovery0 := Gee_Discovery Intn) (XDial c) (invoke c) e w in
      Ret (target, res, mkFleet (asked c (XClient.d (XClient.xc w)) (reg s)) (<[i := w']> (xcs s)))
  end.

Inductive fop := Beat (now : Z) (addr : string) | Call (i : nat) (c : surroundings).

Definition fstep (o : fop) (s : fleet) : outcome fleet :=
  match o with
  | Beat now addr => Ret (mkFleet (Registry.apply_op (Registry.Post now addr) (reg s)).2 (xcs s))
  | Call i c => let! (_, _, s) := call_step i c s in Ret s
  end.

Fixpoint frun (h : list fop) (s : fleet) : outcome fleet :=
  match h with
  | [] => Ret s
  | o :: h => let! s := fstep o s in frun h s
  end.

(** A new registry with the timeout [T], and XClients with their selection modes
    and update timeouts. *)
Definition new_fleet (T : Z) (url : string) (cs : list (Z * Z)) : fleet :=
  mkFleet (Registry.New T)
    ((λ '(mode, u), XClient.mkWorld (XClient.NewClient (NewGeeRegistryDiscovery Intn url u) mode) []) <$> cs).

(** ** Specification *)

(** There are [n] clients, the clock does not go back, a refresh takes at most [delay], and addresses
    are such as survive the header. *)
Fixpoint in_order (n : nat) (delay lo : Z) (h : list fop) (hi : Z) : Prop :=
  match h with
  | [] => lo ≤ hi
  | Beat now addr :: h => lo ≤ now ∧ clean addr = true ∧ in_order n delay now h hi
  | Call i c :: h =>
      (i < n)%nat ∧ lo ≤ n1 c ∧ n2 c ≤ n1 c + delay ∧ (∀ l, iter c l ≡ₚ l) ∧ (∀ a, n1 c ≤ clock c a ≤ n2 c) ∧
      in_order n delay (n2 c) h hi
  end.

Definition posts (h : list fop) : list Registry.op :=
  omap (λ o, match o with Beat now addr => Some (Registry.Post now addr) | Call _ _ => None end) h.

(** A server is live at [now] when its last heartbeat is within the timeout. *)
Definition live (T : Z) (h : list fop) (now : Z) (a : string) : Prop :=
  ∃ t, Registry.last_post a (posts h) = Some t ∧ (T = 0 ∨ now < t + T).

(** What a discovery knows comes from a refresh that ended at [lastUpdate]. *)
Definition knows (T delay : Z) (h : list fop) (d : GeeRegistryDiscovery) : Prop :=
  Forall (λ a, ∃ t τ, Beat t a ∈ h ∧ (T = 0 ∨ τ < t + T) ∧ τ ≤ lastUpdate d ≤ τ + delay) (servers (multi d)).

Definition update_timeout (u : Z) : Z := if bool_decide (u = 0) then defaultUpdateTimeout else u.

Definition client_ok (T delay : Z) (h : list fop) (cfg : Z * Z) (w : world) : Prop :=
  let d := XClient.d (XClient.xc w) in
  Gee_idle d ∧ XClient.mode (XClient.xc w) = cfg.1 ∧ timeout d = update_timeout cfg.2 ∧ knows T delay h d.

Record finv (T delay : Z) (cs : list (Z * Z)) (h : list fop) (lo : Z) (s : fleet) : Prop := {
  fi_reg : Registry.tracks T (posts h) lo (reg s);
  fi_clean : ∀ a t, Beat t a ∈ h → clean a = true;
  fi_xcs : Forall2 (client_ok T delay h) cs (xcs s);
}.

(** ** The registry *)

Lemma posts_app h h' : posts (h ++ h') = posts h ++ posts h'.
Proof using. apply omap_app. Qed.

Lemma last_post_In a h t : Registry.last_post a (posts h) = Some t → Beat t a ∈ h.
Proof using.
  induction h as [|[now b|i c] h IH]; [done| |intros Ht; right; by apply IH].
  change (posts (Beat now b :: h)) with (Registry.Post now b :: posts h). cbn [Registry.last_post].
  destruct (Registry.last_post a (posts h)) as [t'|].
  - intros [= ->]. right. by apply IH.
  - case_bool_decide; [|done]. intros [= ->]. subst. by left.
Qed.

(** A GET during a refresh: what is listed is live, at the time it is visited. *)
Lemma asked_lists T h lo rg c : Registry.tracks T (posts h) lo rg → lo ≤ n1 c →
  (∀ l, iter c l ≡ₚ l) → (∀ a, n1 c ≤ clock c a ≤ n2 c) →
  NoDup (Registry.aliveServers (iter c) (clock c) rg).1 ∧
  ∀ a, a ∈ (Registry.aliveServers (iter c) (clock c) rg).1 ↔ live T h (clock c a) a.
Proof using.
  intros [HT Htr] Hlo Hiter Hc.
  pose proof (Registry.aliveServers_ok (iter c) (clock c) rg Hiter) as Hok.
  destruct (Registry.aliveServers (iter c) (clock c) rg) as [l r']. destruct Hok as (_ & Hnd & Hin & _).
  split; [done|]. intros a. cbn. rewrite Hin. unfold Registry.alive_now, live. specialize (Htr a). specialize (Hc a).
  destruct (Registry.servers rg !! a) as [x|].
  - destruct Htr as [_ Htr]. rewrite Registry.not_expired_fresh, HT, Htr. split; [by eexists|].
    by intros (t & [= <-] & ?).
  - split; [done|]. intros (t & Ht & Hf). destruct (Htr t Ht). destruct Hf; lia.
Qed.

(** The number of listed servers is that of the heartbeats at most. *)
Lemma listed_length (l : list string) h : NoDup l → (∀ a, a ∈ l → ∃ t, Beat t a ∈ h) →
  (length l ≤ length h)%nat.
Proof using.
  intros Hnd Hl. pose (f o := match o with Beat _ a => Some a | Call _ _ => None end).
  trans (length (omap f h)).
  - apply submseteq_length, NoDup_submseteq; [done|]. intros a Ha. destruct (Hl a Ha) as [t Ht].
    apply list_elem_of_omap. by exists (Beat t a).
  - clear. induction h as [|o h IH]; [done|]. cbn. destruct (f o); cbn; lia.
Qed.

Lemma asked_tracks T h lo rg c d : Registry.tracks T (posts h) lo rg → lo ≤ n1 c →
  (∀ l, iter c l ≡ₚ l) → (∀ a, n1 c ≤ clock c a ≤ n2 c) →
  Registry.tracks T (posts h) (n2 c) (asked c d rg).
Proof using.
  intros Htr Hlo Hiter Hc. pose proof (Hc ""%string).
  assert (Registry.tracks T (posts h) (n2 c) rg) as Hsame.
  { destruct Htr as [HT Htr]. split; [done|]. intros a. specialize (Htr a).
    destruct (Registry.servers rg !! a); [done|]. intros t Ht. destruct (Htr t Ht). split; [done|lia]. }
  unfold asked. destruct (unreachable c); [done|]. destruct (due c d); [|done].
  destruct (Registry.List_tracks T (posts h) lo (n2 c) (iter c) (clock c) rg) as [HT Hl]; [done|done| |].
  { intros a. pose proof (Hc a). lia. }
  split; [done|]. intros a. specialize (Hl a). rewrite Registry.last_post_app in Hl. cbn in Hl.
  by destruct (Registry.last_post a (posts h)).
Qed.

(** ** A refresh *)

Section Call.
Context (T delay : Z) (h : list fop) (lo : Z) (rg : Registry.GeeRegistry) (c : surroundings).
Context (Htr : Registry.tracks T (posts h) lo rg) (Hclean : ∀ a t, Beat t a ∈ h → clean a = true).
Context (Hlen : Z.of_nat (length h) < 2 ^ 31).
Context (Hlo : lo ≤ n1 c) (Hdelay : n2 c ≤ n1 c + delay) (Hiter : ∀ l, iter c l ≡ₚ l).
Context (Hclock : ∀ a, n1 c ≤ clock c a ≤ n2 c).

Abbreviation env := (mkEnv (n1 c) (n2 c) (fetched c rg)).
Abbreviation listed := (Registry.aliveServers (iter c) (clock c) rg).1.

(** A server that was live when this call, or the last refresh, saw it. *)
Definition recent (u : Z) (a : string) : Prop :=
  ∃ t, Beat t a ∈ h ∧ (T = 0 ∨ n1 c < t + T + delay + Z.max 0 u).

Lemma listed_ok : Forall (λ a, clean a = true) listed ∧ (length listed ≤ length h)%nat ∧
  ∀ a, a ∈ listed ↔ live T h (clock c a) a.
Proof using Htr Hclean Hlo Hiter Hclock.
  destruct (asked_lists T h lo rg c Htr Hlo Hiter Hclock) as [Hnd Hin]. split_and!; [| |done].
  - apply Forall_forall. intros a (t & Ht & _)%Hin. by eapply Hclean, last_post_In.
  - apply listed_length; [done|]. intros a (t & Ht & _)%Hin. exists t. by apply last_post_In.
Qed.

Lemma refresh_ok d : Gee_idle d → knows T delay h d → ∃ err d1,
  Gee_Refresh env d = Ret (err, d1) ∧ Gee_idle d1 ∧ knows T delay h d1 ∧ timeout d1 = timeout d ∧
  (err = None → Forall (recent (timeout d)) (servers (multi d1))) ∧
  (due c d = true → unreachable c = None →
     err = None ∧ ∀ a, a ∈ servers (multi d1) ↔ live T h (clock c a) a).
Proof using All.
  intros Hidle Hk. destruct listed_ok as (Hcl & Hll & Hin). pose proof (Hclock ""%string).
  pose proof Hidle as (Hmu & Hix & Hsz). rewrite Gee_Refresh_body by done. unfold refresh_body.
  cbn [gee_mu with_mu multi registry timeout lastUpdate mu r servers index now1 now2 fetch].
  unfold due. case_bool_decide as Hd.
  - do 2 eexists. split; [done|]. split; [by split|]. split_and!; try done.
    + intros _. eapply Forall_impl; [exact Hk|]. intros a (t & τ & Ht & Hf & Hu). exists t. split; [done|].
      destruct Hf; [by left|right; lia].
    + rewrite bool_decide_eq_false_2 by lia. done.
  - unfold fetched. destruct (unreachable c) as [err|].
    { do 2 eexists. split; [done|]. split; [by split|]. by split_and!. }
    unfold from_registry, Registry.ServeHTTP. cbn [Registry.Method].
    rewrite (bool_decide_eq_true_2 ("GET" = "GET")%string) by done.
    destruct (Registry.aliveServers (iter c) (clock c) rg) as [l reg']. cbn [fst Registry.X_Geerpc_Servers] in *.
    rewrite clean_parse by done. do 2 eexists. split; [done|].
    split; [unfold Gee_idle, Multi_idle; cbn; split_and!; [done|lia|lia|lia]|]. split_and!; try done.
    + apply Forall_forall. intros a Ha. cbn in Ha. apply Hin in Ha as (t & Ht & Hf). exists t, (clock c a).
      split; [by apply last_post_In|]. cbn. specialize (Hclock a). split; [done|lia].
    + intros _. apply Forall_forall. intros a Ha. cbn in Ha. apply Hin in Ha as (t & Ht & Hf). exists t.
      split; [by apply last_post_In|]. specialize (Hclock a). destruct Hf; [by left|right; lia].
Qed.
(** ** A call *)

Lemma call_ok (HIntn : ∀ k n, 0 < n → 0 ≤ Intn k n < n) cfg w : client_ok T delay h cfg w → ∃ target res w',
  XClient.Call (Discovery0 := Gee_Discovery Intn) (XDial c) (invoke c) env w = Ret (target, res, w') ∧
  client_ok T delay h cfg w' ∧
  (∀ a, target = Some a → recent (update_timeout cfg.2) a) ∧ (target = None → is_Some res) ∧ res ≠ Some None ∧
  (due c (XClient.d (XClient.xc w)) = true → unreachable c = None →
   cfg.1 = RandomSelect ∨ cfg.1 = RoundRobinSelect → (∃ b, live T h (clock c b) b) →
   ∃ a, target = Some a ∧ live T h (clock c a) a).
Proof using All.
  intros (Hidle & Hmode & Hu & Hk). unfold XClient.Call. cbn [d_Get Gee_Discovery]. unfold Gee_Get.
  destruct (refresh_ok _ Hidle Hk) as (err & d1 & -> & Hidle1 & Hk1 & Ht1 & Hrec & Hdue). cbn [obind].
  destruct err as [err|].
  { cbn [obind]. do 3 eexists. split; [done|]. split; [unfold client_ok; cbn; split_and!; (done || congruence)|].
    split_and!; [done|by eexists|done|]. intros Hd Hr. by destruct (Hdue Hd Hr). }
  destruct (Multi_Get_total Intn HIntn (XClient.mode (XClient.xc w)) (multi d1) Hidle1)
    as (a & err & m' & Hget & Hm' & Ha). rewrite Hget. cbn [obind].
  destruct (Multi_Get_spec _ _ _ _ _ _ Hget) as [Hsv Herr].
  assert (knows T delay h (mkGee m' (registry d1) (timeout d1) (lastUpdate d1))) as Hk'.
  { unfold knows in *. cbn. by rewrite Hsv. }
  destruct err as [err|].
  { do 3 eexists. split; [done|]. split; [unfold client_ok; cbn; split_and!; (done || congruence)|].
    split_and!; [done|by eexists|done|]. intros Hd Hr Hm (b & Hb). destruct (Hdue Hd Hr) as [_ Hin].
    apply Hin in Hb. destruct Herr as [He|He]; [by eexists| |].
    - rewrite He in Hb. by apply elem_of_nil in Hb.
    - rewrite Hmode in He. destruct He, Hm; congruence. }
  destruct (XClient.call _ _ _ _) as [res w'] eqn:Hcall.
  assert (XClient.d (XClient.xc w') = mkGee m' (registry d1) (timeout d1) (lastUpdate d1) ∧
    XClient.mode (XClient.xc w') = XClient.mode (XClient.xc w) ∧ res ≠ Some None) as (Hd' & Hm2 & Hres).
  { apply XClient.call_world in Hcall as (w0 & Hd0 & Hm0 & [[-> [x ->]]|[n Hn]]); [done|].
    unfold invoke in Hn. injection Hn as <- <-. split_and!; [done|done|]. by destruct (ends c). }
  do 3 eexists. split; [done|]. rewrite Hsv in Ha. specialize (Ha eq_refl).
  split; [unfold client_ok; rewrite Hd', Hm2; cbn; split_and!; (done || congruence)|].
  split_and!.
  - intros x [= <-]. specialize (Hrec eq_refl). rewrite Forall_forall in Hrec. rewrite <- Hu. by apply Hrec.
  - done.
  - done.
  - intros Hd Hr _ _. exists a. split; [done|]. destruct (Hdue Hd Hr) as [_ Hin]. by apply Hin.
Qed.
End Call.

(** ** Histories *)

Lemma knows_more T delay h h' d : knows T delay h d → knows T delay (h ++ h') d.
Proof using.
  intros H. eapply Forall_impl; [exact H|]. intros a (t & τ & Ht & Hf). exists t, τ.
  split; [apply elem_of_app; by left|done].
Qed.

Lemma clients_more T delay h h' cs ws :
  Forall2 (client_ok T delay h) cs ws → Forall2 (client_ok T delay (h ++ h')) cs ws.
Proof using.
  intros H. eapply Forall2_impl; [exact H|]. intros cfg w (H1 & H2 & H3 & H4).
  split_and!; try done. by apply knows_more.
Qed.

Lemma Beat_step T delay cs h lo s now a : finv T delay cs h lo s → lo ≤ now → clean a = true →
  finv T delay cs (h ++ [Beat now a]) now
    (mkFleet (Registry.apply_op (Registry.Post now a) (reg s)).2 (xcs s)).
Proof using.
  intros [Hr Hc Hx] Hle Ha. split.
  - rewrite posts_app. apply Registry.Post_tracks with lo; [done|done|]. intros ->. done.
  - intros b t [H|H%list_elem_of_singleton]%elem_of_app; [by eapply Hc|]. by simplify_eq.
  - by apply clients_more.
Qed.

Lemma Call_step (HIntn : ∀ k n, 0 < n → 0 ≤ Intn k n < n) T delay cs h lo s i c mode u :
  finv T delay cs h lo s → cs !! i = Some (mode, u) → Z.of_nat (length h) < 2 ^ 31 → lo ≤ n1 c →
  n2 c ≤ n1 c + delay → (∀ l, iter c l ≡ₚ l) → (∀ a, n1 c ≤ clock c a ≤ n2 c) →
  ∃ w target res s', xcs s !! i = Some w ∧ call_step i c s = Ret (target, res, s') ∧
  finv T delay cs (h ++ [Call i c]) (n2 c) s' ∧
  (∀ a, target = Some a → recent T delay h c (update_timeout u) a) ∧ (target = None → is_Some res) ∧ res ≠ Some None ∧
  (due c (XClient.d (XClient.xc w)) = true → unreachable c = None →
   mode = RandomSelect ∨ mode = RoundRobinSelect → (∃ b, live T h (clock c b) b) →
   ∃ a, target = Some a ∧ live T h (clock c a) a).
Proof using.
  intros [Hr Hc Hx] Hi Hlen Hlo Hd Hit Hcl.
  destruct (Forall2_lookup_l _ _ _ _ _ Hx Hi) as (w & Hw & Hok).
  destruct (call_ok T delay h lo (reg s) c Hr Hc Hlen Hlo Hd Hit Hcl HIntn (mode, u) w Hok)
    as (target & res & w' & Hcall & Hok' & Htgt). exists w, target, res. unfold call_step. rewrite Hw, Hcall. cbn [obind].
  eexists. split; [done|]. split; [done|]. split; [|exact Htgt]. split.
  - rewrite posts_app. change (posts [Call i c]) with (@nil Registry.op). rewrite app_nil_r.
    by eapply asked_tracks.
  - intros b t [H|H%list_elem_of_singleton]%elem_of_app; [by eapply Hc|done].
  - apply clients_more. cbn. rewrite <- (list_insert_id cs i (mode, u)) by done. by apply Forall2_insert.
Qed.

Lemma frun_ok (HIntn : ∀ k n, 0 < n → 0 ≤ Intn k n < n) T delay cs h h' lo hi s :
  finv T delay cs h lo s → in_order (length cs) delay lo h' hi →
  Z.of_nat (length h + length h') < 2 ^ 31 →
  ∃ s', frun h' s = Ret s' ∧ finv T delay cs (h ++ h') hi s'.
Proof using.
  revert h lo s. induction h' as [|o h' IH]; intros h lo s Hf Ho Hlen.
  { exists s. split; [done|]. rewrite app_nil_r. destruct Hf as [[HT Hr] Hc Hx]. cbn in Ho. split; [|done|done].
    split; [done|]. intros a. specialize (Hr a). destruct (Registry.servers (reg s) !! a); [done|].
    intros t Ht. destruct (Hr t Ht). split; [done|lia]. }
  rewrite (cons_middle o h h'), app_assoc. cbn [length] in Hlen. destruct o as [now a|i c].
  - destruct Ho as (Hle & Ha & Ho). eapply (IH (h ++ [Beat now a])); [by apply Beat_step with lo|done|].
    rewrite length_app. cbn. lia.
  - destruct Ho as (Hi & Hlo & Hd & Hit & Hcl & Ho). destruct (lookup_lt_is_Some_2 _ _ Hi) as [[m u] Hcs].
    destruct (Call_step HIntn T delay cs h lo s i c m u Hf Hcs ltac:(lia) Hlo Hd Hit Hcl)
      as (w & target & res & s' & _ & Hstep & Hf' & _).
    destruct (IH (h ++ [Call i c]) _ _ Hf' Ho) as (s2 & Hrun & Hf2); [rewrite length_app; cbn; lia|].
    exists s2. split; [|done]. cbn [frun fstep]. rewrite Hstep. exact Hrun.
Qed.

Lemma in_order_app n delay lo h h' hi : in_order n delay lo (h ++ h') hi →
  ∃ mid, in_order n delay lo h mid ∧ in_order n delay mid h' hi.
Proof using.
  revert lo. induction h as [|[now a|i c] h IH]; intros lo H; cbn in H.
  - exists lo. split; [cbn; lia|done].
  - destruct H as (? & ? & (mid & H1 & H2)%IH). by exists mid.
  - destruct H as (? & ? & ? & ? & ? & (mid & H1 & H2)%IH). by exists mid.
Qed.

Lemma new_fleet_ok (HIntn : ∀ k n, 0 < n → 0 ≤ Intn k n < n) T delay url cs lo :
  finv T delay cs [] lo (new_fleet T url cs).
Proof using.
  split.
  - apply Registry.New_tracks.
  - intros a t H. by apply elem_of_nil in H.
  - unfold new_fleet. cbn [xcs]. apply Forall2_fmap_r, Forall_Forall2_diag, Forall_true. intros [mode u].
    pose proof (HIntn 0%nat (2 ^ 31 - 1 - 1) ltac:(lia)). unfold client_ok. cbn. split_and!; try done.
    + unfold Gee_idle, Multi_idle. cbn. split_and!; [done|lia|lia|lia].
    + by apply Forall_nil.
Qed.

(** ** Properties *)

Context (HIntn : ∀ k n, 0 < n → 0 ≤ Intn k n < n).

(** C16: calls reach live servers: whatever heartbeats, calls and failures came
    before, and however the registry walks its map, a call makes its choice
    without blocking or panic, and
    - the server it chooses had sent a heartbeat less than the timeout of the
      registry, the update timeout of the client and the time of a refresh ago;
    - when it chooses none, it returns an error;
    - it returns nothing but errors: once it is inside [client.Call] it waits
      for the end of its context, which may never come;
    - when the list is due and the registry answers, it chooses a server that is
      live at that moment, if there is one.
    Addresses are such as survive the header, the clock does not go back, a
    refresh takes no longer than [delay], and there were fewer than 2^31
    operations. *)
Theorem calls_reach_live_servers T delay url cs h i c mode u lo hi :
  in_order (length cs) delay lo (h ++ [Call i c]) hi → cs !! i = Some (mode, u) →
  Z.of_nat (length h) < 2 ^ 31 →
  ∃ s w target res s', frun h (new_fleet T url cs) = Ret s ∧ xcs s !! i = Some w ∧
  call_step i c s = Ret (target, res, s') ∧
  (∀ a, target = Some a → ∃ t, Beat t a ∈ h ∧
     (T = 0 ∨ n1 c < t + T + delay + Z.max 0 (update_timeout u))) ∧
  (target = None → is_Some res) ∧ res ≠ Some None ∧
  (due c (XClient.d (XClient.xc w)) = true → unreachable c = None →
   mode = RandomSelect ∨ mode = RoundRobinSelect → (∃ b, live T h (clock c b) b) →
   ∃ a, target = Some a ∧ live T h (clock c a) a).
Proof using HIntn.
  intros (mid & Hh & Ho)%in_order_app Hi Hlen. cbn in Ho. destruct Ho as (_ & Hlo & Hd & Hit & Hcl & _).
  destruct (frun_ok HIntn T delay cs [] h lo mid _ (new_fleet_ok HIntn T delay url cs lo) Hh Hlen) as (s & Hs & Hf).
  destruct (Call_step HIntn T delay cs h mid s i c mode u Hf Hi Hlen Hlo Hd Hit Hcl)
    as (w & target & res & s' & Hw & Hstep & _ & Htgt).
  by exists s, w, target, res, s'.
Qed.
End Fleet.

(** ** Witnesses *)

(** Two servers, one of which stops its heartbeats, and two clients; the second
    call is made while the registry cannot be reached.  Contexts have no end. *)
Definition demo_call (now : Z) (unreachable : error) : surroundings :=
  mkSurroundings now (now + 1) unreachable reverse (λ _, now) (λ _, None) None id.

Definition demo_cs : list (Z * Z) := [(RoundRobinSelect, 10); (RandomSelect, 0)].

Definition demo_history : list fop :=
  [Beat 0 "tcp@a"; Beat 5 "tcp@b"; Call 0 (demo_call 20 None); Call 1 (demo_call 30 (Some "refused"%string));
   Beat 60 "tcp@b"; Call 0 (demo_call 70 None)].

Abbreviation demo_fleet := (new_fleet (λ _ _, 0) 100 "http://localhost:9999/_geerpc_/registry" demo_cs).

Example demo_calls :
  (λ s, (λ x, (x.1.1, x.1.2)) <$>
     match call_step (λ _ _, 0) 0 (demo_call 140 None) s with Ret x => Some x | _ => None end) <$>
    match frun (λ _ _, 0) demo_history demo_fleet with Ret s => Some s | _ => None end =
  Some (Some (Some "tcp@b"%string, None)).
Proof. vm_compute. reflexivity. Qed.

Lemma calls_reach_live_servers_witness : ∃ s target err s',
  frun (λ _ _, 0) demo_history demo_fleet = Ret s ∧
  call_step (λ _ _, 0) 0 (demo_call 140 None) s = Ret (target, err, s') ∧
  ∀ a, target = Some a → ∃ t, Beat t a ∈ demo_history ∧ (100 = 0 ∨ 140 < t + 100 + 1 + Z.max 0 10).
Proof.
  destruct (calls_reach_live_servers (λ _ _, 0) ltac:(intros k n Hn; lia) 100 1
    "http://localhost:9999/_geerpc_/registry" demo_cs demo_history 0 (demo_call 140 None) RoundRobinSelect 10 0 141)
    as (s & w & target & err & s' & Hs & Hw & Hc & Ht & _).
  - cbn. repeat split; try lia; apply reverse_Permutation.
  - reflexivity.
  - cbn. lia.
  - exists s, target, err, s'. split; [exact Hs|]. split; [exact Hc|exact Ht].
Defined.
