(* ===== verification/RpcMain.v ===== *)
(** * geerpc: the demonstration program

    Models [src/geerpc/main/main.go]: the start of the registry and of the
    servers, and the goroutines of [call] and [broadcast], which call [foo].  A
    step is one call of the discovery, one call of [dial], or the return of
    [client.Call].  [xclient.NewXClient], which is not in the repository, is a
    parameter: an XClient with the discovery it is given. *)

From S2P Require Import Prelude Discovery.
From S2P Require Registry Client Server Rpc XClient.

(** ** Registry and servers *)

(** [startRegistry] up to [http.Serve], on the default mux. *)
Definition startRegistry (mux : gmap string Registry.GeeRegistry) : outcome (gmap string Registry.GeeRegistry) :=
  Registry.HandleHTTP mux.

(** [startServer] up to [Accept], listening on [addr]: [err] is the error of its
    first heartbeat, which the registry [reg] gets when there is none. *)
Definition startServer (now : Z) (addr : string) (err : error) (reg : Registry.GeeRegistry)
  : outcome (Server.Server * Registry.GeeRegistry) :=
  let! (_, server) := Rpc.startServer in
  Ret (server, match err with
               | None => (Registry.apply_op (Registry.Post now ("tcp@" +:+ addr)) reg).2
               | Some _ => reg
               end).

(** ** The clients *)

Section RpcMain.
Context (Intn : nat → Z → Z).
Context (NewXClient : GeeRegistryDiscovery → Z → XClient.XClient (D := GeeRegistryDiscovery)).

#[local] Existing Instance Gee_Discovery.
Abbreviation world := (XClient.world (D := GeeRegistryDiscovery)).

Inductive context := Background | WithTimeout (d : Z).

(** The arguments of a call of [foo]. *)
Record job := mkJob { typ : string; ctx : context; serviceMethod : string; args : Rpc.FooArgs }.

(** Inside [foo]: at its switch, behind [Get] with an address to dial, or inside
    [client.Call] of a client. *)
Inductive fpc := FSwitch | FDial (addr : string) | FCall (client : nat).

(** A goroutine: the calls of [foo] that are left, and where it is in the first. *)
Record goroutine := mkG { jobs : list job; pc : fpc }.

(** [call] or [broadcast], with what has been logged and the fatal error that
    has ended the process. *)
Record phase := mkPhase { xw : world; gors : list goroutine; lines : list string; fatal : error }.

(** What [foo] logs. *)
Definition foo_line (j : job) (err : error) (reply : Z) : string :=
  match err with
  | Some e => typ j +:+ " " +:+ serviceMethod j +:+ " error: " +:+ e
  | None => typ j +:+ " " +:+ serviceMethod j +:+ " success: " +:+ pretty (Rpc.Num1 (args j)) +:+ " + " +:+
              pretty (Rpc.Num2 (args j)) +:+ " = " +:+ pretty reply
  end.

Definition set_d (d : GeeRegistryDiscovery) (w : world) : world :=
  XClient.mkWorld (XClient.mkXClient d (XClient.mode (XClient.xc w)) (XClient.clients (XClient.xc w)))
    (XClient.heap w).

Definition foo_at (i : nat) (g : goroutine) (p : fpc) (w : world) (s : phase) : phase :=
  mkPhase w (<[i := mkG (jobs g) p]> (gors s)) (lines s) (fatal s).
Definition foo_end (i : nat) (g : goroutine) (j : job) (err : error) (reply : Z) (w : world) (s : phase) : phase :=
  mkPhase w (<[i := mkG (tail (jobs g)) FSwitch]> (gors s)) (lines s ++ [foo_line j err reply]) (fatal s).
Definition die (m : string) (s : phase) : phase := mkPhase (xw s) (gors s) (lines s) (Some m).

(** The switch with what the discovery finds and, for a broadcast, what dialing
    returns and the schedule of its goroutines; a dial; the return of
    [client.Call]. *)
Inductive paction :=
  | PSwitch (i : nat) (e : Env) (XDial : string → error) (tr : list (XClient.baction Z))
  | PDial (i : nat) (XDial : string → error)
  | PReturn (i : nat) (err : error) (reply : Z).

Definition pstep (a : paction) (s : phase) : option phase :=
  match fatal s with Some _ => None | None =>
  match a with
  | PSwitch i e XDial tr =>
      g ← gors s !! i; j ← head (jobs g);
      match pc g with
      | FSwitch =>
          let xc := XClient.xc (xw s) in
          if bool_decide (typ j = "call"%string) then
            match Gee_Get Intn e (XClient.mode xc) (XClient.d xc) with
            | Ret (addr, None, d) => Some (foo_at i g (FDial addr) (set_d d (xw s)) s)
            | Ret (_, Some err, d) => Some (foo_end i g j (Some err) 0 (set_d d (xw s)) s)
            | Panic m => Some (die m s)
            | NoFuel => None
            end
          else if bool_decide (typ j = "broadcast"%string) then
            match XClient.Broadcast (Discovery0 := Gee_Discovery Intn) XDial e true tr (xw s) with
            | Ret (err, reply, w) => Some (foo_end i g j err (default 0 reply) w s)
            | Panic m => Some (die m s)
            | NoFuel => None
            end
          else Some (foo_end i g j None 0 (xw s) s)
      | _ => None
      end
  | PDial i XDial =>
      g ← gors s !! i; j ← head (jobs g);
      match pc g with
      | FDial addr =>
          match XClient.dial XDial addr (xw s) with
          | (inl c, w) => Some (foo_at i g (FCall c) w s)
          | (inr err, w) => Some (foo_end i g j (Some err) 0 w s)
          end
      | _ => None
      end
  | PReturn i err reply =>
      g ← gors s !! i; j ← head (jobs g);
      match pc g with
      | FCall _ => Some (foo_end i g j err reply (xw s) s)
      | _ => None
      end
  end end.

(** The goroutines of [call] and of [broadcast]. *)
Definition call_jobs (i : Z) : list job := [mkJob "call" Background "Foo.Sum" (Rpc.mkFooArgs i (i * i))].
Definition broadcast_jobs (i : Z) : list job :=
  [mkJob "broadcast" Background "Foo.Sum" (Rpc.mkFooArgs i (i * i));
   mkJob "broadcast" (WithTimeout (2 * 10 ^ 9)) "Foo.Sleep" (Rpc.mkFooArgs i (i * i))].

Definition started (f : Z → list job) (registry : string) : phase :=
  mkPhase (XClient.mkWorld (NewXClient (NewGeeRegistryDiscovery Intn registry 0) RandomSelect) [])
    ((λ i, mkG (f i) FSwitch) <$> [0; 1; 2; 3; 4]) [] None.

(** [wg.Wait] returns, and the deferred [xc.Close] runs. *)
Definition finished (s : phase) : option world :=
  if forallb (λ g, match jobs g with [] => true | _ => false end) (gors s) then Some (XClient.Close (xw s)) else None.

Fixpoint prun (tr : list paction) (s : phase) : option phase :=
  match tr with
  | [] => Some s
  | a :: tr => s' ← pstep a s; prun tr s'
  end.

(** [call] or [broadcast] under the schedule [tr], which must take it to its
    end: what it logs. *)
Definition run_phase (f : Z → list job) (registry : string) (tr : list paction) : outcome (list string) :=
  match prun tr (started f registry) with
  | Some s =>
      match fatal s, finished s with
      | Some m, _ => Panic m
      | None, Some _ => Ret (lines s)
      | None, None => NoFuel
      end
  | None => NoFuel
  end.

(** The servers of [main], with the time, the address and the error of the first
    heartbeat of each. *)
Fixpoint startServers (l : list (Z * string * error)) (reg : Registry.GeeRegistry) : outcome Registry.GeeRegistry :=
  match l with
  | [] => Ret reg
  | (now, addr, err) :: l => let! (_, reg) := startServer now addr err reg in startServers l reg
  end.

Definition registryAddr : string := "http://localhost:9999/_geerpc_/registry".

(** What [main] logs through [foo]. *)
Definition main (mux : gmap string Registry.GeeRegistry) (servers : list (Z * string * error)) (tr1 tr2 : list paction)
  : outcome (list string) :=
  let! mux := startRegistry mux in
  let! _ := startServers servers (default Registry.DefaultGeeRegister (mux !! Registry.defaultPath)) in
  let! l1 := run_phase call_jobs registryAddr tr1 in
  let! l2 := run_phase broadcast_jobs registryAddr tr2 in
  Ret (l1 ++ l2).

(** ** Specification *)

(** How the context of a call ends. *)
Definition ctx_ends (c : context) (e : string) : Prop :=
  match c with Background => False | WithTimeout _ => e = "context deadline exceeded"%string end.

(** What [client.Call] can return: what a call of a client of [Client.v] does,
    among any other calls, when its context ends only as it can. *)
Definition Call_returns (c : context) (err : error) : Prop := ∃ Errorf cs caps tr s t x,
  Z.of_nat (length cs) < 2 ^ 64 - 1 ∧ Client.private cs caps ∧
  Client.run Errorf tr (Client.started cs caps) = Some s ∧ Client.calls s !! t = Some x ∧
  Client.c_pc x = Client.CRet err ∧ ∀ e, Client.ACtxDone t e ∈ tr → ctx_ends c e.

Definition allowed (a : paction) (s : phase) : Prop :=
  match a with
  | PSwitch _ e _ _ => env_ok e
  | PDial _ _ => True
  | PReturn i err _ => ∀ g j, gors s !! i = Some g → head (jobs g) = Some j → Call_returns (ctx j) err
  end.

Fixpoint permitted (tr : list paction) (s : phase) : Prop :=
  match tr with
  | [] => True
  | a :: tr => allowed a s ∧ match pstep a s with Some s' => permitted tr s' | None => True end
  end.

Definition pmove (s s' : phase) : Prop := ∃ a, allowed a s ∧ pstep a s = Some s'.

(** A call of [foo] by [call], which has no deadline, or by [broadcast], which
    never gets to dial a server. *)
Definition job_ok (j : job) : Prop := typ j = "call"%string ∧ ctx j = Background ∨ typ j = "broadcast"%string.

Definition g_ok (g : goroutine) : Prop :=
  Forall job_ok (jobs g) ∧ (pc g ≠ FSwitch → ∃ j, head (jobs g) = Some j ∧ typ j = "call"%string).

Definition is_error (l : string) : Prop := ∃ j e, l = foo_line j (Some e) 0.

Record pinv (s : phase) : Prop := {
  pi_idle : Gee_idle (XClient.d (XClient.xc (xw s)));
  pi_gors : ∀ i g, gors s !! i = Some g → g_ok g;
  pi_lines : Forall is_error (lines s);
}.

(** ** Steps *)

Lemma Background_hangs err : ¬ Call_returns Background err.
Proof using.
  intros (Errorf & cs & caps & tr & s & t & x & Hn & Hp & Hr & Hx & Hret & Hctx).
  destruct (Client.Call_returns_ctx _ _ _ _ _ _ _ _ Hn Hp Hr Hx Hret) as (e & He & _). exact (Hctx e He).
Qed.

Lemma dial_d XDial addr (w : world) : XClient.d (XClient.xc (XClient.dial XDial addr w).2) = XClient.d (XClient.xc w).
Proof using.
  unfold XClient.dial. destruct (XClient.clients _ !! addr) as [c|]; [by destruct (negb _)|]. by destruct (XDial addr).
Qed.

(** A broadcast over an idle discovery of the registry fails or ends the
    process. *)
Lemma Broadcast_fails XDial e tr (w : world) err reply w' : env_ok e → Gee_idle (XClient.d (XClient.xc w)) →
  XClient.Broadcast (A := Z) (Discovery0 := Gee_Discovery Intn) XDial e true tr w = Ret (err, reply, w') →
  (∃ x, err = Some x) ∧ Gee_idle (XClient.d (XClient.xc w')).
Proof using.
  intros He Hd H. unfold XClient.Broadcast in H. cbn in H. unfold Gee_GetAll in H.
  destruct (Gee_Refresh_total e _ He Hd) as (rerr & d' & Hr & Hd'). rewrite Hr in H. cbn [obind] in H.
  destruct rerr as [x|].
  - cbn [obind] in H. injection H as <- <- <-. split; [by exists x|done].
  - unfold Multi_GetAll in H. destruct Hd' as [Hmu _]. by rewrite Hmu in H.
Qed.

Lemma gors_set (s : phase) i g g' : gors s !! i = Some g → g_ok g' → (∀ j x, gors s !! j = Some x → g_ok x) →
  ∀ j x, <[i := g']> (gors s) !! j = Some x → g_ok x.
Proof using.
  intros Hi Hg Hall j x Hj. rewrite (lookup_set _ _ _ _ _ Hi) in Hj. case_decide; [by simplify_eq|by eapply Hall].
Qed.

Lemma pinv_at s i g p w : pinv s → gors s !! i = Some g → Gee_idle (XClient.d (XClient.xc w)) →
  (∃ j, head (jobs g) = Some j ∧ typ j = "call"%string) → pinv (foo_at i g p w s).
Proof using.
  intros [Hd Hg Hl] Hi Hw Hj. split; cbn; [done| |done]. eapply gors_set; [done| |done].
  destruct (Hg i g Hi) as [Hall _]. by split.
Qed.

Lemma pinv_end s i g j x reply w : pinv s → gors s !! i = Some g → Gee_idle (XClient.d (XClient.xc w)) →
  pinv (foo_end i g j (Some x) reply w s).
Proof using.
  intros [Hd Hg Hl] Hi Hw. split; cbn; [done| |].
  - eapply gors_set; [done| |done]. destruct (Hg i g Hi) as [Hall _]. split; [|done].
    cbn. destruct (jobs g); [done|]. by apply Forall_cons in Hall as [_ ?].
  - apply Forall_app_2; [done|]. apply Forall_singleton. by exists j, x.
Qed.

(** No [client.Call] of the program returns. *)
Lemma no_return s i err reply g c : pinv s → gors s !! i = Some g → pc g = FCall c →
  ¬ allowed (PReturn i err reply) s.
Proof using.
  intros [_ Hg _] Hi Hp Ha. destruct (Hg i g Hi) as [Hall Hpc]. destruct (Hpc ltac:(by rewrite Hp)) as (j & Hj & Ht).
  apply (Background_hangs err). enough (ctx j = Background) as <- by by eapply Ha.
  destruct (jobs g) as [|j0 l]; [done|]. cbn in *. simplify_eq.
  apply Forall_cons in Hall as [[[_ ?]|?] _]; congruence.
Qed.

Context (HIntn : ∀ k n, 0 < n → 0 ≤ Intn k n < n).

Lemma pstep_inv a s s' : pinv s → allowed a s → pstep a s = Some s' → pinv s'.
Proof using HIntn.
  intros Hinv Ha H. pose proof Hinv as [Hd Hg Hl]. unfold pstep in H. destruct (fatal s); [done|].
  destruct a as [i e XDial tr|i XDial|i err reply]; (destruct (gors s !! i) as [g|] eqn:Hi; [|done]); cbn in H;
    (destruct (head (jobs g)) as [j|] eqn:Hj; [|done]); cbn in H; destruct (Hg i g Hi) as [Hall Hpc].
  - destruct (pc g); try done. case_bool_decide as Hc.
    + pose proof (Get_known (DiscoveryLaws := Gee_laws Intn HIntn) e (XClient.mode (XClient.xc (xw s))) _ Ha Hd)
        as (addr & err & d' & Hget & Hd' & _). cbn in Hget. rewrite Hget in H. destruct err as [x|]; injection H as <-.
      * by apply pinv_end.
      * apply pinv_at; try done. by exists j.
    + case_bool_decide as Hb.
      * destruct (XClient.Broadcast _ _ _ _ _) as [[[err reply] w]|m|] eqn:Hbr; [| |done].
        -- destruct (Broadcast_fails _ _ _ _ _ _ _ Ha Hd Hbr) as [[x ->] Hw]. injection H as <-. by apply pinv_end.
        -- injection H as <-. by split.
      * exfalso. destruct (jobs g) as [|j' l]; [done|]. cbn in Hj. simplify_eq. apply Forall_cons in Hall as [[[? _]|?] _]; done.
  - destruct (pc g) as [|addr|c] eqn:Hp; try done. pose proof (dial_d XDial addr (xw s)) as Hw.
    destruct (XClient.dial _ _ _) as [[c|x] w]; cbn in Hw; injection H as <-.
    + apply pinv_at; try done; [by rewrite Hw|]. by apply Hpc.
    + apply pinv_end; try done. by rewrite Hw.
  - exfalso. destruct (pc g) as [|addr|c] eqn:Hp; try done. eapply (no_return s i err reply g c); done.
Qed.

Lemma pmoves_inv s s' : pinv s → rtc pmove s s' → pinv s'.
Proof using HIntn.
  intros Hi Hr. induction Hr as [|s s1 s2 (a & Ha & Hst) _ IH]; [done|]. apply IH. by eapply pstep_inv.
Qed.

(** A goroutine inside [client.Call] stays there. *)
Lemma pstep_hangs a s s' i g c : pinv s → allowed a s → pstep a s = Some s' →
  gors s !! i = Some g → pc g = FCall c → gors s' !! i = Some g.
Proof using.
  intros Hinv Ha H Hi Hc. unfold pstep in H. destruct (fatal s); [done|].
  assert (∀ u x y, gors s !! u = Some x → (u = i → False) → <[u := y]> (gors s) !! i = Some g) as Hset.
  { intros u x y Hu Hne. rewrite (lookup_set _ _ _ _ _ Hu), decide_False; done. }
  destruct a as [u e XDial tr|u XDial|u err reply]; (destruct (gors s !! u) as [x|] eqn:Hu; [|done]); cbn in H;
    (destruct (head (jobs x)) as [j|] eqn:Hj; [|done]); cbn in H.
  - assert (pc x = FSwitch → u ≠ i) as Hne by (intros Hx ->; congruence).
    destruct (pc x); try done. specialize (Hne eq_refl). repeat case_match; simplify_eq; cbn; try done; by eapply Hset.
  - assert (∀ a, pc x = FDial a → u ≠ i) as Hne by (intros a Hx ->; congruence).
    destruct (pc x); try done. specialize (Hne _ eq_refl). repeat case_match; simplify_eq; cbn; by eapply Hset.
  - destruct (pc x) as [|addr|c'] eqn:Hp; try done. exfalso. by eapply (no_return s u err reply x c').
Qed.

Lemma pmoves_hang s s' i g c : pinv s → rtc pmove s s' → gors s !! i = Some g → pc g = FCall c → gors s' !! i = Some g.
Proof using HIntn.
  intros Hi Hr. revert Hi. induction Hr as [|s s1 s2 (a & Ha & Hst) _ IH]; intros Hi Hg Hc; [done|].
  apply IH; [by eapply pstep_inv|by eapply pstep_hangs|done].
Qed.

Context (HNew : ∀ d mode, XClient.d (NewXClient d mode) = d).

Lemma started_inv f registry : (∀ i, Forall job_ok (f i)) → pinv (started f registry).
Proof using HIntn HNew.
  intros Hf. pose proof (HIntn 0%nat (2 ^ 31 - 1 - 1) ltac:(lia)). split; [cbn|intros i g Hi|constructor].
  - rewrite HNew. unfold Gee_idle, Multi_idle. cbn. split_and!; [done|lia|lia|lia].
  - cbn [gors started] in Hi. apply list_lookup_fmap_Some in Hi as (n & -> & _). split; [apply Hf|done].
Qed.

Lemma prun_moves tr s s' : permitted tr s → prun tr s = Some s' → rtc pmove s s'.
Proof using.
  revert s. induction tr as [|a tr IH]; intros s Htr H; cbn in H; [simplify_eq; done|].
  destruct Htr as [Ha Htr]. destruct (pstep a s) as [s1|] eqn:E; [|done].
  eapply rtc_l; [by exists a|by eapply IH].
Qed.

Lemma phase_inv f registry s : f = call_jobs ∨ f = broadcast_jobs → rtc pmove (started f registry) s → pinv s.
Proof using HIntn HNew.
  intros Hf Hr. eapply pmoves_inv; [|exact Hr]. apply started_inv. intros i.
  destruct Hf as [->| ->]; repeat (apply Forall_cons; split); try apply Forall_nil; try done; solve [by left|by right].
Qed.

Lemma run_phase_errors f registry tr ls : f = call_jobs ∨ f = broadcast_jobs → permitted tr (started f registry) →
  run_phase f registry tr = Ret ls → Forall is_error ls.
Proof using HIntn HNew.
  intros Hf Htr H. unfold run_phase in H. destruct (prun _ _) as [s|] eqn:Hr; [|done].
  destruct (fatal s), (finished s); try done. injection H as <-.
  exact (pi_lines _ (phase_inv _ _ _ Hf (prun_moves _ _ _ Htr Hr))).
Qed.

(** C36: the demonstration never reports a success: whatever the registry, the
    servers and the network do, what [main] has logged when it returns are
    errors, and so is everything it logs before; and once a call of [call] is
    with a client, [call] never returns, because [client.Call] waits for the
    end of a context that has none. *)
Theorem main_reports_no_success :
  (∀ mux servers tr1 tr2 ls, permitted tr1 (started call_jobs registryAddr) →
     permitted tr2 (started broadcast_jobs registryAddr) → main mux servers tr1 tr2 = Ret ls → Forall is_error ls) ∧
  ∀ f s, f = call_jobs ∨ f = broadcast_jobs → rtc pmove (started f registryAddr) s →
    Forall is_error (lines s) ∧
    ∀ i g c, gors s !! i = Some g → pc g = FCall c → ∀ s', rtc pmove s s' →
      gors s' !! i = Some g ∧ finished s' = None.
Proof using HIntn HNew.
  split.
  - intros mux servers tr1 tr2 ls H1 H2 H. unfold main in H.
    destruct (startRegistry mux) as [mux'| |]; try done. cbn [obind] in H.
    destruct (startServers _ _); try done. cbn [obind] in H.
    destruct (run_phase call_jobs _ _) as [l1| |] eqn:E1; try done. cbn [obind] in H.
    destruct (run_phase broadcast_jobs _ _) as [l2| |] eqn:E2; try done. injection H as <-.
    apply Forall_app_2; eapply run_phase_errors; [|exact H1|done| |exact H2|done]; [by left|by right].
  - intros f s Hf Hr. pose proof (phase_inv f _ s Hf Hr) as Hs.
    split; [apply Hs|]. intros i g c Hi Hc s' Hr'. pose proof (pmoves_hang s s' i g c Hs Hr' Hi Hc) as Hi'.
    split; [done|]. unfold finished. destruct (forallb _ _) eqn:Hall; [|done]. exfalso.
    rewrite forallb_forall in Hall. apply list_elem_of_lookup_2, list_elem_of_In, Hall in Hi'.
    destruct (pi_gors _ Hs i g Hi) as [_ Hj]. destruct (Hj ltac:(by rewrite Hc)) as (j & Hj' & _). by destruct (jobs g).
Qed.
End RpcMain.

(** ** Witnesses *)

Definition stub (d : GeeRegistryDiscovery) (mode : Z) : XClient.XClient (D := GeeRegistryDiscovery) :=
  XClient.NewClient d mode.

(** The registry after the start of two servers. *)
Example registry_lists_both :
  (let! mux := startRegistry ∅ in
   match mux !! Registry.defaultPath with
   | Some reg =>
       let! (_, reg) := startServer 1 "[::]:40001" None reg in
       let! (_, reg) := startServer 2 "[::]:40002" None reg in
       Ret (Registry.aliveServers id (λ _, 5) reg).1
   | None => Ret []
   end) = Ret ["tcp@[::]:40001"; "tcp@[::]:40002"]%string.
Proof. vm_compute. reflexivity. Qed.

Definition first_one (_ : nat) (_ : Z) : Z := 0.

Lemma first_one_ok : ∀ k n, 0 < n → 0 ≤ first_one k n < n.
Proof. intros k n Hn. unfold first_one. lia. Qed.

Definition up : Env := mkEnv 0 1 (λ _, inl "tcp@[::]:40001"%string).
Definition down : Env := mkEnv 0 1 (λ _, inr "connection refused"%string).

(** The first call is sent, the registry is gone for the second. *)
Definition demo_trace : list paction :=
  [PSwitch 0 up (λ _, None) []; PDial 0 (λ _, None); PSwitch 1 (mkEnv (20 * 10 ^ 9) 1 (fetch down)) (λ _, None) []].

(** The registry cannot be reached at all. *)
Definition all_down (n : nat) : list paction := (λ i, PSwitch i down (λ _, None) []) <$> seq 0 n.

Abbreviation demo_main :=
  (main first_one stub ∅ [(1, "[::]:40001", None); (2, "[::]:40002", None)]%string (all_down 5) (all_down 5 ++ all_down 5)).

Example main_returns : length <$> match demo_main with Ret ls => Some ls | _ => None end = Some 15%nat.
Proof. vm_compute. reflexivity. Qed.

Lemma permitted_switch Intn tr : Forall (λ a, match a with PSwitch _ e _ _ => env_ok e | PDial _ _ => True | _ => False end) tr →
  ∀ s, permitted Intn tr s.
Proof.
  induction 1 as [|a tr Ha _ IH]; intros s; cbn; [done|]. split; [by destruct a|]. by destruct (pstep Intn a s).
Qed.

Lemma all_down_ok n : Forall (λ a, match a with PSwitch _ e _ _ => env_ok e | PDial _ _ => True | _ => False end) (all_down n).
Proof. apply Forall_fmap, Forall_true. intros i a h H. discriminate H. Qed.

Lemma main_reports_no_success_witness : (∃ ls, demo_main = Ret ls ∧ Forall is_error ls) ∧
  ∃ s g, prun first_one demo_trace (started first_one stub call_jobs registryAddr) = Some s ∧
    gors s !! 0%nat = Some g ∧ lines s = ["call Foo.Sum error: connection refused"]%string ∧
    Forall is_error (lines s) ∧ finished s = None.
Proof.
  destruct (main_reports_no_success first_one stub first_one_ok (λ _ _, eq_refl)) as [H1 H2]. split.
  - assert (match demo_main with Ret _ => True | _ => False end) as H by (vm_compute; exact I).
    destruct demo_main as [ls|m|] eqn:Hm; [|destruct H|destruct H]. exists ls. split; [reflexivity|].
    refine (H1 _ _ _ _ ls _ _ Hm); apply permitted_switch; [apply all_down_ok|].
    apply Forall_app_2; apply all_down_ok.
  - assert (match prun first_one demo_trace (started first_one stub call_jobs registryAddr) with
            | Some s => gors s !! 0%nat = Some (mkG (call_jobs 0) (FCall 0)) ∧
                        lines s = ["call Foo.Sum error: connection refused"]%string
            | None => False
            end) as H by (vm_compute; split; reflexivity).
    destruct (prun first_one demo_trace _) as [s|] eqn:Hr; [|destruct H]. destruct H as [Hg Hl].
    assert (rtc (pmove first_one) (started first_one stub call_jobs registryAddr) s) as Hm.
    { eapply prun_moves; [|exact Hr]. apply permitted_switch.
      repeat constructor; cbn; intros a h H; try discriminate H; injection H as <-; reflexivity. }
    destruct (H2 call_jobs s (or_introl eq_refl) Hm) as [H3 H4].
    exists s, (mkG (call_jobs 0) (FCall 0)). split; [reflexivity|]. split; [exact Hg|]. split; [exact Hl|]. split; [exact H3|].
    exact (proj2 (H4 0%nat _ 0%nat Hg eq_refl s (rtc_refl _ s))).
Defined.
