(* ===== verification/Connection.v ===== *)
(** * myzinx: a connection and its goroutines

    Models [src/myzinx/znet/connection.go] as a transition system on the
    goroutines of one connection: the reader, the writer, the goroutine that
    started it, the callers of [SendMsg] and the callers of [Stop].  The two
    channels are as the code makes them, [msgChan] without a buffer and
    [ExitChan] with a buffer of one; what [Unpack] and [Write] return is chosen
    by the step, except that a socket closed here only gives errors other than
    EOF.  Sending on, or closing, a closed channel panics. *)

From S2P Require Import Prelude Conn DataPack.

(** ** State *)

(** The reader: at [Unpack], about to report an error on [ExitChan], or done; a
    panic is final. *)
Inductive reader_pc := RUnpack | RExit (err : string) | RStop (s : bool) | RDone | RPanic.

(** The writer: at its select, or with bytes to write. *)
Inductive writer_pc := WSelect | WWrite (data : list Z) | WDone.

Inductive starter_pc := SSelect | SDone.

(** A caller of [SendMsg]: at the test of [isClosed], at the send, or back. *)
Inductive sender_pc :=
  | MCheck (msgID : Z) (data : list Z) | MSend (msg : Message) | MRet (err : error).

(** A caller of [Stop] that is not the reader: at the test, behind it, or back. *)
Inductive stopper_pc := TCheck | TClose | TRet | TPanic.

(** [exit_buf] is the number of values in [ExitChan].  Ghost state: the bytes
    on the socket, the messages handed to the writer and the messages given to
    the handler. *)
Record Connection := mkConnection {
  isClosed : bool; sock_open : bool; exit_buf : nat; exit_closed : bool;
  reader : reader_pc; writer : writer_pc; starter : starter_pc;
  senders : list sender_pc; stoppers : list stopper_pc;
  wire : list Z; handed : list Message; dispatched : list Message }.

(** [NewConnection] and [Start], with goroutines about to call [SendMsg] with
    the given numbers and data and [nstop] goroutines about to call [Stop]. *)
Definition NewConnection (msgs : list (Z * list Z)) (nstop : nat) : Connection :=
  mkConnection false true 0 false RUnpack WSelect SSelect
    ((λ '(id, data), MCheck id data) <$> msgs) (replicate nstop TCheck) [] [] [].

Inductive action :=
  | AUnpack (r : Message + string) | AReport | AReaderStop
  | AHand (i : nat) | AWrite (r : option (nat * string)) | AWriterExit | AStarterExit
  | ACheck (i : nat) | AStopCheck (i : nat) | AStopClose (i : nat).

(** The body of [Stop] behind its test. *)
Definition shut (c : Connection) : Connection :=
  mkConnection true false (exit_buf c) true (reader c) (writer c) (starter c) (senders c)
    (stoppers c) (wire c) (handed c) (dispatched c).

Definition set_reader (p : reader_pc) (c : Connection) : Connection :=
  mkConnection (isClosed c) (sock_open c) (exit_buf c) (exit_closed c) p (writer c) (starter c)
    (senders c) (stoppers c) (wire c) (handed c) (dispatched c).
Definition set_exit_buf (n : nat) (c : Connection) : Connection :=
  mkConnection (isClosed c) (sock_open c) n (exit_closed c) (reader c) (writer c) (starter c)
    (senders c) (stoppers c) (wire c) (handed c) (dispatched c).
Definition set_writer (p : writer_pc) (c : Connection) : Connection :=
  mkConnection (isClosed c) (sock_open c) (exit_buf c) (exit_closed c) (reader c) p (starter c)
    (senders c) (stoppers c) (wire c) (handed c) (dispatched c).
Definition set_starter (p : starter_pc) (c : Connection) : Connection :=
  mkConnection (isClosed c) (sock_open c) (exit_buf c) (exit_closed c) (reader c) (writer c) p
    (senders c) (stoppers c) (wire c) (handed c) (dispatched c).
Definition set_sender (i : nat) (p : sender_pc) (c : Connection) : Connection :=
  mkConnection (isClosed c) (sock_open c) (exit_buf c) (exit_closed c) (reader c) (writer c)
    (starter c) (<[i := p]> (senders c)) (stoppers c) (wire c) (handed c) (dispatched c).
Definition set_stopper (i : nat) (p : stopper_pc) (c : Connection) : Connection :=
  mkConnection (isClosed c) (sock_open c) (exit_buf c) (exit_closed c) (reader c) (writer c)
    (starter c) (senders c) (<[i := p]> (stoppers c)) (wire c) (handed c) (dispatched c).
(** One more goroutine calls [SendMsg]. *)
Definition add_sender (msgID : Z) (data : list Z) (c : Connection) : Connection :=
  mkConnection (isClosed c) (sock_open c) (exit_buf c) (exit_closed c) (reader c) (writer c)
    (starter c) (senders c ++ [MCheck msgID data]) (stoppers c) (wire c) (handed c) (dispatched c).
Definition add_wire (bs : list Z) (c : Connection) : Connection :=
  mkConnection (isClosed c) (sock_open c) (exit_buf c) (exit_closed c) (reader c) (writer c)
    (starter c) (senders c) (stoppers c) (wire c ++ bs) (handed c) (dispatched c).
Definition hand (m : Message) (c : Connection) : Connection :=
  mkConnection (isClosed c) (sock_open c) (exit_buf c) (exit_closed c) (reader c) (writer c)
    (starter c) (senders c) (stoppers c) (wire c) (handed c ++ [m]) (dispatched c).
Definition dispatch (m : Message) (c : Connection) : Connection :=
  mkConnection (isClosed c) (sock_open c) (exit_buf c) (exit_closed c) (reader c) (writer c)
    (starter c) (senders c) (stoppers c) (wire c) (handed c) (dispatched c ++ [m]).

(** [<-c.ExitChan]: a value, or the zero value of a closed channel. *)
Definition exit_recv (c : Connection) : option Connection :=
  match exit_buf c with
  | S n => Some (set_exit_buf n c)
  | O => if exit_closed c then Some c else None
  end.

Definition step (a : action) (c : Connection) : option Connection :=
  match a with
  | AUnpack r =>
      match reader c, r with
      | RUnpack, inl msg => if sock_open c then Some (dispatch msg c) else None
      | RUnpack, inr err =>
          if negb (sock_open c) && bool_decide (err = EOF) then None else Some (set_reader (RExit err) c)
      | _, _ => None
      end
  | AReport =>
      match reader c with
      | RExit err =>
          if exit_closed c then Some (set_reader RPanic c)
          else if bool_decide (exit_buf c < 1)%nat then
            Some (set_reader (if bool_decide (err = EOF) then RStop false else RUnpack)
                    (set_exit_buf (S (exit_buf c)) c))
          else None
      | _ => None
      end
  | AReaderStop =>
      match reader c with
      | RStop false => Some (set_reader (if isClosed c then RDone else RStop true) c)
      | RStop true => Some (if exit_closed c then set_reader RPanic c else set_reader RDone (shut c))
      | _ => None
      end
  | AHand i =>
      p ← senders c !! i;
      match p, writer c with
      | MSend msg, WSelect =>
          Some (hand msg (set_sender i (MRet None) (set_writer (WWrite (Pack msg).1) c)))
      | _, _ => None
      end
  | AWrite r =>
      match writer c with
      | WWrite data =>
          match r with
          | None => if sock_open c then Some (set_writer WSelect (add_wire data c)) else None
          | Some (n, _) => Some (set_writer WDone (add_wire (take n data) c))
          end
      | _ => None
      end
  | AWriterExit =>
      match writer c with WSelect => set_writer WDone <$> exit_recv c | _ => None end
  | AStarterExit =>
      match starter c with SSelect => set_starter SDone <$> exit_recv c | SDone => None end
  | ACheck i =>
      p ← senders c !! i;
      match p with
      | MCheck msgID data =>
          let msg := NewMsgPackage msgID data in
          Some (set_sender i
                  (if isClosed c then MRet (Some "Connection closed when send msg"%string)
                   else match (Pack msg).2 with
                        | Some _ => MRet (Some "Pack error msg"%string)
                        | None => MSend msg
                        end) c)
      | _ => None
      end
  | AStopCheck i =>
      p ← stoppers c !! i;
      match p with
      | TCheck => Some (set_stopper i (if isClosed c then TRet else TClose) c)
      | _ => None
      end
  | AStopClose i =>
      p ← stoppers c !! i;
      match p with
      | TClose => Some (if exit_closed c then set_stopper i TPanic c else set_stopper i TRet (shut c))
      | _ => None
      end
  end.

Fixpoint run (tr : list action) (c : Connection) : option Connection :=
  match tr with
  | [] => Some c
  | a :: tr => c' ← step a c; run tr c'
  end.

(** ** Specification *)

(** The only error of the reader is the end of the stream. *)
Definition only_eof (a : action) : bool :=
  match a with AUnpack (inr err) => bool_decide (err = EOF) | _ => true end.

Definition packs (msgs : list Message) : list Z := msgs ≫= λ m, (Pack m).1.

(** The bytes on the socket are whole messages, in the order they were handed
    over; the last may be missing while it is written, and cut off when its
    write failed. *)
Definition wire_inv (c : Connection) : Prop :=
  match writer c with
  | WSelect => wire c = packs (handed c)
  | WWrite data => ∃ ms m, handed c = ms ++ [m] ∧ data = (Pack m).1 ∧ wire c = packs ms
  | WDone => wire c = packs (handed c) ∨
      ∃ ms m n, handed c = ms ++ [m] ∧ wire c = packs ms ++ take n (Pack m).1
  end.

(** A connection nobody else stops: its reader reports once and closes. *)
Definition eof_inv (c : Connection) : Prop :=
  (∀ i p, stoppers c !! i = Some p → False) ∧
  match reader c with
  | RUnpack => isClosed c = false ∧ exit_closed c = false ∧ exit_buf c = 0%nat ∧ sock_open c = true
  | RExit err => err = EOF ∧ isClosed c = false ∧ exit_closed c = false ∧ exit_buf c = 0%nat
  | RStop _ => isClosed c = false ∧ exit_closed c = false
  | RDone => isClosed c = true ∧ exit_closed c = true ∧ sock_open c = false
  | RPanic => False
  end.

(** ** The bytes on the socket *)

#[local] Arguments packs : simpl never.
#[local] Arguments Pack : simpl never.

Ltac conn_cases H :=
  repeat (match type of H with
          | context [mbind _ ?o] => destruct o eqn:?; cbn in H; [|try discriminate H]
          | context [match ?x with _ => _ end] => destruct x eqn:?; cbn in H; try discriminate H
          end); simplify_eq.

Lemma packs_app l1 l2 : packs (l1 ++ l2) = packs l1 ++ packs l2.
Proof. apply bind_app. Qed.

Lemma packs_one m : packs [m] = (Pack m).1.
Proof. unfold packs. cbn. by rewrite app_nil_r. Qed.

Lemma step_wire a c c' : wire_inv c → step a c = Some c' → wire_inv c'.
Proof.
  intros Hi H. destruct c as [cl so eb ec rd w st sd sp wr hd dp]. unfold wire_inv in *.
  destruct a; cbn in H; unfold exit_recv in H; conn_cases H; cbn in *; try done; eauto.
  - destruct Hi as (ms & m & -> & -> & ->). right. by do 3 eexists.
  - destruct Hi as (ms & m & -> & -> & ->). by rewrite packs_app, packs_one.
Qed.

Lemma run_wire tr c c' : wire_inv c → run tr c = Some c' → wire_inv c'.
Proof.
  revert c. induction tr as [|a tr IH]; intros c Hc H; cbn in H; [by simplify_eq|].
  destruct (step a c) as [c1|] eqn:E; [|done]. eapply IH; [by eapply step_wire|done].
Qed.

(** ** Shutting down *)

Lemma step_eof a c c' : only_eof a = true → eof_inv c → step a c = Some c' → eof_inv c'.
Proof.
  intros Ho [Hs Hi] H. destruct c as [cl so eb ec rd w st sd sp wr hd dp]. unfold eof_inv in *.
  cbn in Hs, Hi. destruct a; cbn in H, Ho; unfold exit_recv in H;
    try (by destruct (sp !! i) as [p|] eqn:Hp; [destruct (Hs i p Hp)|]);
    conn_cases H; cbn in *; destruct_and?; simplify_eq; cbn; split; try done; split_and?; try done.
  - by apply bool_decide_eq_true in Ho.
  - destruct rd; by destruct_and?.
  - destruct rd; by destruct_and?.
Qed.

Lemma run_eof tr c c' : forallb only_eof tr = true → eof_inv c → run tr c = Some c' → eof_inv c'.
Proof.
  revert c. induction tr as [|a tr IH]; intros c Ho Hc H; cbn in Ho, H; [by simplify_eq|].
  apply andb_true_iff in Ho as [Ha Ho]. destruct (step a c) as [c1|] eqn:E; [|done].
  eapply IH; [done|by eapply step_eof|done].
Qed.

(** The reader of a connection that was closed under it. *)
Definition doomed (dp : list Message) (c : Connection) : Prop :=
  exit_closed c = true ∧ sock_open c = false ∧ dispatched c = dp ∧
  match reader c with RUnpack | RExit _ | RPanic => True | _ => False end.

Lemma step_doomed dp a c c' : doomed dp c → step a c = Some c' → doomed dp c'.
Proof.
  intros Hi H. destruct c as [cl so eb ec rd w st sd sp wr hd dp']. unfold doomed in *. cbn in Hi.
  destruct Hi as (-> & -> & -> & Hrd).
  destruct a; cbn in H; unfold exit_recv in H; conn_cases H; cbn in *; by split_and!.
Qed.

Lemma run_doomed dp tr c c' : doomed dp c → run tr c = Some c' → doomed dp c'.
Proof.
  revert c. induction tr as [|a tr IH]; intros c Hc H; cbn in H; [by simplify_eq|].
  destruct (step a c) as [c1|] eqn:E; [|done]. eapply IH; [by eapply step_doomed|done].
Qed.

Lemma step_blocked a c c' i m : writer c = WDone → senders c !! i = Some (MSend m) →
  step a c = Some c' → writer c' = WDone ∧ senders c' !! i = Some (MSend m).
Proof.
  intros Hw Hs H. destruct c as [cl so eb ec rd w st sd sp wr hd dp]. cbn in Hw, Hs. subst w.
  destruct a; cbn in H; unfold exit_recv in H; conn_cases H; cbn in *; try done;
    split; try done; rewrite list_lookup_insert_ne; try done; intros ->; congruence.
Qed.

(** ** Properties *)

(** Whoever calls SendMsg and whenever the connection ends, the bytes on the
    socket are the packed messages in the order in which their senders handed
    them over, whole and never mixed; only the last one can be missing, or cut
    off by a failed write, after which nothing is written. *)
Theorem socket_carries_whole_messages msgs nstop tr c :
  run tr (NewConnection msgs nstop) = Some c →
  ∃ ms rest part, handed c = ms ++ rest ∧ wire c = packs ms ++ part ∧
    (length rest ≤ 1)%nat ∧ part `prefix_of` packs rest ∧
    (writer c = WSelect → rest = []) ∧ (part ≠ [] → writer c = WDone).
Proof.
  intros H. apply run_wire in H; [|done]. unfold wire_inv in H. destruct (writer c).
  - exists (handed c), [], []. rewrite !app_nil_r. split_and!; try done. cbn. lia.
  - destruct H as (ms & m & Hh & _ & Hw). exists ms, [m], []. rewrite app_nil_r.
    split_and!; try done. apply prefix_nil.
  - destruct H as [Hw|(ms & m & n & Hh & Hw)].
    + exists (handed c), [], []. rewrite !app_nil_r. split_and!; try done. cbn. lia.
    + exists ms, [m], (take n (Pack m).1). rewrite packs_one.
      split_and!; try done. apply prefix_take.
Qed.

(** A connection that its peer closes shuts down cleanly when nobody stops it
    from outside and no message is malformed: no goroutine panics, the reader
    ends with the socket closed and further sends refused, and from then on the
    writer and the goroutine that started it can end. *)
Theorem eof_shuts_down msgs tr c : forallb only_eof tr = true →
  run tr (NewConnection msgs 0) = Some c →
  reader c ≠ RPanic ∧
  (reader c = RDone → isClosed c = true ∧ sock_open c = false ∧
   (writer c = WSelect → is_Some (step AWriterExit c)) ∧
   (starter c = SSelect → is_Some (step AStarterExit c)) ∧
   ∀ i id data, senders c !! i = Some (MCheck id data) →
     step (ACheck i) c = Some (set_sender i (MRet (Some "Connection closed when send msg"%string)) c)).
Proof.
  intros Ho H. apply run_eof in H as [Hs H]; [|done|].
  - split; [by intros Hp; rewrite Hp in H|]. intros Hd. rewrite Hd in H.
    destruct H as (Hc & He & Hso). split_and!; [done|done| | |].
    + intros Hw. cbn. rewrite Hw. unfold exit_recv. rewrite He. destruct (exit_buf c); by eexists.
    + intros Hw. cbn. rewrite Hw. unfold exit_recv. rewrite He. destruct (exit_buf c); by eexists.
    + intros i id data Hi. cbn. by rewrite Hi, Hc.
  - split; [by intros i p Hp|]. by split_and!.
Qed.

(** Stopping a connection from outside its reader crashes the server: once Stop
    has closed the channel while the reader waits for the next message, the
    reader never handles another message and never ends normally; its next
    error makes it send on the closed channel, which panics. *)
Theorem Stop_crashes_reader c tr c' :
  exit_closed c = true → sock_open c = false → reader c = RUnpack → run tr c = Some c' →
  reader c' ≠ RDone ∧ dispatched c' = dispatched c ∧
  ∀ e, reader c' = RExit e → step AReport c' = Some (set_reader RPanic c').
Proof.
  intros He Hs Hr H. assert (doomed (dispatched c) c) as Hd by (unfold doomed; by rewrite Hr).
  apply (run_doomed _ _ _ _ Hd) in H as (He' & _ & Hdp & Hrd). split_and!.
  - intros Hx. by rewrite Hx in Hrd.
  - done.
  - intros e Hx. cbn. by rewrite Hx, He'.
Qed.

(** A SendMsg that passed its test before the connection closed never returns
    once the writer has ended: it waits for a receiver that does not exist. *)
Theorem SendMsg_blocks_forever c tr c' i m : writer c = WDone →
  senders c !! i = Some (MSend m) → run tr c = Some c' → senders c' !! i = Some (MSend m).
Proof.
  revert c. induction tr as [|a tr IH]; intros c Hw Hs H; cbn in H; [by simplify_eq|].
  destruct (step a c) as [c1|] eqn:E; [|done]. destruct (step_blocked _ _ _ _ _ Hw Hs E). by eapply IH.
Qed.

(** ** Witnesses *)

Definition s1 : Z * list Z := (1, [104; 105]).
Definition s2 : Z * list Z := (2, [111; 107]).
Definition m1 : Message := NewMsgPackage 1 [104; 105].
Definition m2 : Message := NewMsgPackage 2 [111; 107].

Definition demo_trace : list action :=
  [ACheck 0; ACheck 1; AHand 1; AUnpack (inl m1); AWrite None; AHand 0; AWrite None;
   AUnpack (inr EOF); AReport; AStarterExit; AReaderStop; AReaderStop; AWriterExit].

Lemma conn_demo_run : ∃ c, run demo_trace (NewConnection [s1; s2; s1] 0) = Some c ∧
  handed c = [m2; m1] ∧ reader c = RDone ∧ writer c = WDone ∧ wire c = packs [m2; m1].
Proof. eexists. split; [vm_compute; reflexivity|]. split_and!; reflexivity. Qed.

Lemma socket_carries_whole_messages_witness : ∃ c ms rest part,
  run demo_trace (NewConnection [s1; s2; s1] 0) = Some c ∧
  handed c = ms ++ rest ∧ wire c = packs ms ++ part ∧ (length rest ≤ 1)%nat.
Proof.
  destruct conn_demo_run as (c & Hr & _).
  destruct (socket_carries_whole_messages [s1; s2; s1] 0 demo_trace c Hr)
    as (ms & rest & part & H1 & H2 & H3 & _).
  exists c, ms, rest, part. split; [exact Hr|]. split; [exact H1|]. split; [exact H2|exact H3].
Defined.

Lemma eof_shuts_down_witness : ∃ c, run demo_trace (NewConnection [s1; s2; s1] 0) = Some c ∧
  isClosed c = true ∧ sock_open c = false.
Proof.
  destruct conn_demo_run as (c & Hr & _ & Hd & _). exists c. split; [exact Hr|].
  destruct (eof_shuts_down [s1; s2; s1] demo_trace c eq_refl Hr) as [_ H].
  destruct (H Hd) as (H1 & H2 & _). split; [exact H1|exact H2].
Defined.

(** A connection that a handler has stopped. *)
Definition stopped : Connection :=
  set_stopper 0 TRet (shut (set_stopper 0 TClose (NewConnection [s1] 1))).

Lemma Stop_crashes_reader_witness :
  run [AStopCheck 0; AStopClose 0] (NewConnection [s1] 1) = Some stopped ∧
  ∀ e, reader (set_reader (RExit "use of closed network connection") stopped) = RExit e →
  step AReport (set_reader (RExit "use of closed network connection") stopped) =
    Some (set_reader RPanic (set_reader (RExit "use of closed network connection") stopped)).
Proof.
  split; [reflexivity|].
  apply (Stop_crashes_reader stopped [AUnpack (inr "use of closed network connection"%string)]
    (set_reader (RExit "use of closed network connection") stopped)); reflexivity.
Defined.

Lemma SendMsg_blocks_forever_witness :
  senders (set_starter SDone (set_writer WDone (set_sender 0 (MSend m1) stopped))) !! 0%nat
    = Some (MSend m1).
Proof.
  apply (SendMsg_blocks_forever (set_writer WDone (set_sender 0 (MSend m1) stopped)) [AStarterExit]
    _ 0 m1); reflexivity.
Defined.
