(* ===== verification/Zinx.v ===== *)
(** * myzinx: a server and its clients

    Completes [src/myzinx/znet/server.go] and composes the parts of myzinx the
    way a running server has them: the readers of the connections take the
    messages of their clients off the network with [Unpack] and give them to
    the worker pool of [MsgHandler.v]; what a router sends goes through
    [SendMsg] and the writer of the connection back to the client.  The clients
    are those of [src/myzinx/main/Client/Client.go], which send a message and
    wait for one in return; the end of the file is the program
    [src/myzinx/main/Server/Server.go].  The network keeps the order of the
    bytes of a direction but cuts them into chunks as it likes. *)

From S2P Require Import Prelude Conn DataPack MsgHandler PoolProgress.

(** ** server.go *)

Section Server.
Context {R A C : Type}.

(** The accept loop, on what [AcceptTCP] returns: the connections it starts
    with their identifiers. *)
Fixpoint accept_loop (accepts : list (C + string)) (cid : Z) : list (Z * C) :=
  match accepts with
  | [] => []
  | inl conn :: accepts => (cid, conn) :: accept_loop accepts (u32 (cid + 1))
  | inr _ :: accepts => accept_loop accepts cid
  end.

(** [resolve] and [listen] are [net.ResolveTCPAddr] and [net.ListenTCP]; a
    failed resolution is printed and leaves a nil address. *)
Definition Start (resolve : string → string → A + string)
  (listen : string → option A → list (C + string) + string) (s : Server (R := R))
  : Server (R := R) * list (Z * C) :=
  let s := mkServer (s_Name s) (s_IPVersion s) (s_IP s) (s_Port s) (StartWorkerPool (s_msgHandler s)) in
  let addr := match resolve (s_IPVersion s) (s_IP s +:+ ":" +:+ pretty (s_Port s)) with
              | inl addr => Some addr
              | inr _ => None
              end in
  match listen (s_IPVersion s) addr with
  | inr _ => (s, [])
  | inl accepts => (s, accept_loop accepts 0)
  end.

(** [Serve] up to its endless loop. *)
Definition Serve (resolve : string → string → A + string)
  (listen : string → option A → list (C + string) + string) (s : Server (R := R)) := Start resolve listen s.

(** Routers added one after another. *)
Fixpoint add_routers (routers : list (Z * R)) (s : Server (R := R)) : outcome (Server (R := R)) :=
  match routers with
  | [] => Ret s
  | (id, router) :: routers => let! s := Server_AddRouter id router s in add_routers routers s
  end.

(** Only prints. *)
Definition Stop (s : Server (R := R)) : Server (R := R) := s.

(** [data] is the slice up to its capacity, which [data[:cnt]] must not exceed. *)
Definition defaultcall_back (write : list Z → error) (data : list Z) (cnt : Z) : outcome error :=
  if bool_decide (0 ≤ cnt ≤ Z.of_nat (length data)) then
    Ret (match write (take (Z.to_nat cnt) data) with
         | Some _ => Some "CallBackToClien error"%string
         | None => None
         end)
  else Panic "slice bounds out of range".
End Server.

(** ** A server with its clients *)

(** A client: the messages it still has to send, whether it waits for one, and
    what it has received. *)
Record client := mkClient { to_send : list Message; waiting : bool; received : list Message }.

(** A connection: the chunks under way to the server, the packed messages in
    [msgChan] and before it, the chunks under way to the client. *)
Record link := mkLink { up : list (list Z); outbox : list (list Z); down : list (list Z); peer : client }.

Section Zinx.
(** What a method of a router sends on the connection of a request. *)
Context {R : Type} (sends : method → R → Request → list (Z * list Z)).
(** [MaxPackerSize] and [MaxWorkerTaskLen]. *)
Context (max : Z) (cap : nat).

Record zsys := mkZ { pool : sys R; links : gmap Z link }.

Inductive zaction :=
  | ZSend (c : Z)                             (* conn.Write of the client *)
  | ZNet (c : Z) (to_server : bool) (cs : list (list Z)) (* the network cuts its bytes anew *)
  | ZRead (t : nat)                           (* a reader unpacks a message *)
  | ZPool (a : action)                        (* a step of the pool *)
  | ZWrite (c : Z)                            (* conn.Write of a writer *)
  | ZRecv (c : Z).                            (* dp.Unpack of the client *)

(** [SendMsg] of everything that a call sends. *)
Definition replies (ev : event R) : list Message :=
  (λ '(id, data), NewMsgPackage id data) <$> sends (ev_method ev) (ev_router ev) (ev_req ev).

(** What is sent waits for the writer.  [SendMsg] itself blocks until the writer
    takes a message; that is modelled in [ZinxEnds.v].  With clients that wait
    for the answer to a message before they send the next there is one message
    at most to be taken, and a writer that can always take it. *)
Definition put_out (ms : list Message) (l : link) : link :=
  mkLink (up l) (outbox l ++ ((λ m, (Pack m).1) <$> ms)) (down l) (peer l).

Definition rechunk (cs cs' : list (list Z)) : option (list (list Z)) :=
  if bool_decide (concat cs' = concat cs ∧ Forall (λ ch, ch ≠ []) cs') then Some cs' else None.

Definition zstep (a : zaction) (s : zsys) : option zsys :=
  match a with
  | ZSend c =>
      l ← links s !! c;
      match to_send (peer l), waiting (peer l) with
      | m :: ms, false =>
          let l := mkLink (up l ++ [(Pack m).1]) (outbox l) (down l) (mkClient ms true (received (peer l))) in
          Some (mkZ (pool s) (<[c := l]> (links s)))
      | _, _ => None
      end
  | ZNet c true cs =>
      l ← links s !! c; cs ← rechunk (up l) cs;
      Some (mkZ (pool s) (<[c := mkLink cs (outbox l) (down l) (peer l)]> (links s)))
  | ZNet c false cs =>
      l ← links s !! c; cs ← rechunk (down l) cs;
      Some (mkZ (pool s) (<[c := mkLink (up l) (outbox l) cs (peer l)]> (links s)))
  | ZRead t =>
      r ← rdrs (pool s) !! t; l ← links s !! connID r;
      match Unpack max (mkConn (up l) EOF) with
      | Ret (Some m, None, conn) =>
          p ← step cap (ARead t m) (pool s);
          Some (mkZ p (<[connID r := mkLink (chunks conn) (outbox l) (down l) (peer l)]> (links s)))
      | _ => None
      end
  | ZPool (ARead _ _) => None
  | ZPool (AExec g) =>
      p ← step cap (AExec g) (pool s);
      ev ← next_event g (pool s);
      Some (mkZ p (alter (put_out (replies ev)) (GetConnection (ev_req ev)) (links s)))
  | ZPool a => p ← step cap a (pool s); Some (mkZ p (links s))
  | ZWrite c =>
      l ← links s !! c;
      match outbox l with
      | p :: ps => Some (mkZ (pool s) (<[c := mkLink (up l) ps (down l ++ [p]) (peer l)]> (links s)))
      | [] => None
      end
  | ZRecv c =>
      l ← links s !! c;
      if waiting (peer l) then
        match Unpack max (mkConn (down l) EOF) with
        | Ret (Some m, None, conn) =>
            let cl := mkClient (to_send (peer l)) false (received (peer l) ++ [m]) in
            Some (mkZ (pool s) (<[c := mkLink (up l) (outbox l) (chunks conn) cl]> (links s)))
        | _ => None
        end
      else None
  end.

Fixpoint zrun (tr : list zaction) (s : zsys) : option zsys :=
  match tr with
  | [] => Some s
  | a :: tr => s' ← zstep a s; zrun tr s'
  end.

(** A started server with a client on each connection. *)
Definition serving (h : MsgHandle R) (clients : list (Z * list Message)) : zsys :=
  mkZ (started h clients.*1)
    (list_to_map ((λ '(c, ms), (c, mkLink [] [] [] (mkClient ms false []))) <$> clients)).

(** ** Specification *)

Definition bytes (m : Message) : list Z := (Pack m).1.

(** What the clients of [c] should get for the messages it sends. *)
Definition answers (h : MsgHandle R) (c : Z) (ms : list Message) : list Message :=
  ms ≫= λ m, DoMsgHandle h (mkRequest c m) ≫= replies.

(** A message as [NewMsgPackage] makes it, within the limits. *)
Definition msg_ok (m : Message) : Prop :=
  m = NewMsgPackage (Id m) (Data m) ∧ u32_ok (Id m) ∧ Z.of_nat (length (Data m)) < 2 ^ 32 ∧
  Z.of_nat (length (Data m)) ≤ max.

(** A server that answers each message with exactly one. *)
Definition answers_once (h : MsgHandle R) (c : Z) (ms : list Message) : Prop :=
  Forall (λ m, msg_ok m ∧ ∃ a, answers h c [m] = [a] ∧ msg_ok a) ms.

(** The chunks [cs] carry exactly the messages [ms]. *)
Definition carries (cs : list (list Z)) (ms : list Message) : Prop :=
  concat cs = concat (bytes <$> ms) ∧ Forall (λ ch, ch ≠ []) cs.

(** What the client of [c] has sent and the server has not read is on its way
    up, what the routers have sent and the client has not got is on its way
    down, and at most one message is under way or being handled. *)
Definition link_inv (p : sys R) (c : Z) (ms : list Message) (l : link) : Prop :=
  ∃ t r rd us os ds, rdrs p !! t = Some r ∧ connID r = c ∧ seen r = mkRequest c <$> rd ∧
    ms = rd ++ us ++ to_send (peer l) ∧ carries (up l) us ∧
    of_conn c (log p) ≫= replies = received (peer l) ++ ds ++ os ∧
    carries (down l) ds ∧ outbox l = bytes <$> os ∧
    (length (received (peer l)) + (if waiting (peer l) then 1 else 0) = length rd + length us)%nat.

(** ** Chunks *)

Lemma bytes_ne m : bytes m ≠ [].
Proof using. done. Qed.

Lemma carries_app cs ms m : carries cs ms → carries (cs ++ [bytes m]) (ms ++ [m]).
Proof using.
  intros [Hc Hf]. split.
  - rewrite fmap_app, !concat_app, Hc. cbn. done.
  - apply Forall_app_2; [done|]. apply Forall_singleton, bytes_ne.
Qed.

Lemma carries_rechunk cs cs' ms : carries cs ms → rechunk cs cs' = Some cs' → carries cs' ms.
Proof using.
  intros [Hc Hf] H. unfold rechunk in H. case_bool_decide as Hb; [|done]. destruct Hb as [Hb Hf'].
  split; [by rewrite Hb|done].
Qed.

Lemma rechunk_Some cs cs' x : rechunk cs cs' = Some x → x = cs'.
Proof using. unfold rechunk. case_bool_decide; [|done]. by intros [= <-]. Qed.

Lemma carries_nil cs : carries cs [] → cs = [].
Proof using. intros [Hc Hf]. by apply concat_nil_inv. Qed.

(** A reader gets the only message there is, however it is cut. *)
Lemma Unpack_one cs m : carries cs [m] → msg_ok m →
  Unpack max (mkConn cs EOF) = Ret (Some m, None, mkConn [] EOF).
Proof using.
  intros [Hc Hf] (Hm & Hid & Hlen & Hmax). rewrite <- (app_nil_r cs).
  destruct (Unpack_prefix max cs [] EOF m []) as (r & -> & Hr).
  - done.
  - rewrite Hc. cbn. done.
  - done.
  - rewrite Hm. cbn. apply wrapu_small. lia.
  - rewrite Hm. cbn. unfold u32_ok. rewrite wrapu_small; lia.
  - rewrite Hm. cbn. rewrite wrapu_small; lia.
  - destruct Hr as (_ & He & cs1 & Hch & Hall & Hnil). apply app_eq_nil in Hnil as [_ Hnil].
    apply concat_nil_inv in Hnil; [|done]. subst cs1. destruct r as [? ? [chs en]]. cbn in *. by subst.
Qed.

Lemma Unpack_none m c : Unpack max (mkConn [] EOF) ≠ Ret (Some m, None, c).
Proof using. by vm_compute. Qed.

(** ** Counting *)

Lemma answers_app h c ms ms' : answers h c (ms ++ ms') = answers h c ms ++ answers h c ms'.
Proof using. apply bind_app. Qed.

Lemma answers_handle_all h c ms : handle_all h (mkRequest c <$> ms) ≫= replies = answers h c ms.
Proof using.
  unfold handle_all, answers. induction ms as [|m ms IH]; [done|]. cbn. by rewrite bind_app, <- IH.
Qed.

Lemma answers_once_length h c ms : answers_once h c ms → length (answers h c ms) = length ms.
Proof using.
  induction 1 as [|m ms (_ & a & Ha & _) _ IH]; [done|].
  change (m :: ms) with ([m] ++ ms). rewrite answers_app, Ha. cbn. by rewrite IH.
Qed.

Lemma answers_once_ok h c ms : answers_once h c ms → Forall msg_ok (answers h c ms).
Proof using.
  induction 1 as [|m ms (_ & a & Ha & Hok) _ IH]; [constructor|].
  change (m :: ms) with ([m] ++ ms). rewrite answers_app, Ha. by constructor.
Qed.

(** What has been sent for [c] are the answers to the first messages read. *)
Lemma sent_answers h (p : sys R) t r rd : inv p → Apis (mh p) = Apis h → rdrs p !! t = Some r →
  seen r = mkRequest (connID r) <$> rd →
  (of_conn (connID r) (log p) ≫= replies) `prefix_of` answers h (connID r) rd.
Proof using.
  intros Hi Ha Hr Hs. pose proof (inv_flow _ Hi _ _ Hr) as Hf. rewrite Hs in Hf.
  rewrite (handle_all_Apis h (mh p)) in Hf by done. rewrite (handle_all_Apis h (mh p)) in Hf by done.
  rewrite <- answers_handle_all, <- Hf, bind_app. by apply prefix_app_r.
Qed.

(** ** One connection *)

(** At most one message is under way or with the pool. *)
Lemma link_bound h (p : sys R) c ms l : inv p → Apis (mh p) = Apis h → answers_once h c ms →
  link_inv p c ms l → ∃ t r rd us os ds, rdrs p !! t = Some r ∧ connID r = c ∧
    seen r = mkRequest c <$> rd ∧ ms = rd ++ us ++ to_send (peer l) ∧ carries (up l) us ∧
    of_conn c (log p) ≫= replies = received (peer l) ++ ds ++ os ∧
    carries (down l) ds ∧ outbox l = bytes <$> os ∧
    (length (received (peer l)) + (if waiting (peer l) then 1 else 0) = length rd + length us)%nat ∧
    (length us + length ds + length os ≤ if waiting (peer l) then 1 else 0)%nat ∧
    (received (peer l) ++ ds ++ os) `prefix_of` answers h c rd ∧ Forall msg_ok rd ∧ Forall msg_ok us.
Proof using.
  intros Hi Ha Ho (t & r & rd & us & os & ds & Hr & Hc & Hs & Hms & Hu & Hl & Hd & Hob & Hn).
  exists t, r, rd, us, os, ds.
  assert ((received (peer l) ++ ds ++ os) `prefix_of` answers h c rd) as Hp.
  { rewrite <- Hl, <- Hc. eapply sent_answers; [done|done|done|]. by rewrite Hc. }
  rewrite Hms in Ho. apply Forall_app in Ho as [Hrd Ho]. apply Forall_app in Ho as [Hus _].
  pose proof (prefix_length _ _ Hp) as Hlen. rewrite (answers_once_length h c rd Hrd), !length_app in Hlen.
  split_and!; try done.
  - lia.
  - eapply Forall_impl; [exact Hrd|]. by intros m [? _].
  - eapply Forall_impl; [exact Hus|]. by intros m [? _].
Qed.

Lemma single {A} (l : list A) (n : nat) : (length l ≤ 1)%nat → l ≠ [] → ∃ x, l = [x].
Proof using. destruct l as [|x [|]]; cbn; [done|by exists x|lia]. Qed.

Lemma link_inv_pool (p p' : sys R) c ms l : link_inv p c ms l → log p' = log p →
  (∀ t r, rdrs p !! t = Some r → connID r = c →
     ∃ r', rdrs p' !! t = Some r' ∧ connID r' = connID r ∧ seen r' = seen r) →
  link_inv p' c ms l.
Proof using.
  intros (t & r & rd & us & os & ds & Hr & Hc & Hs & Hms & H) Hl Hsn.
  destruct (Hsn t r Hr Hc) as (r' & Hr' & Hc' & Hs'). exists t, r', rd, us, os, ds.
  rewrite Hl, Hs', Hc'. auto 10.
Qed.

(** A call for the requests of another connection. *)
Lemma link_inv_other (p p' : sys R) c ms l ev : link_inv p c ms l → log p' = log p ++ [ev] →
  rdrs p' = rdrs p → req_conn (ev_req ev) ≠ c → link_inv p' c ms l.
Proof using.
  intros (t & r & rd & us & os & ds & Hr & Hc & Hs & Hms & Hu & Hl & H) Hlog Hrd Hne.
  exists t, r, rd, us, os, ds. rewrite Hrd, Hlog, of_conn_app.
  assert (of_conn c [ev] = []) as -> by (unfold of_conn; cbn; by rewrite decide_False).
  rewrite app_nil_r. auto 10.
Qed.

Lemma link_inv_send (p : sys R) c ms l m todo : link_inv p c ms l → to_send (peer l) = m :: todo →
  waiting (peer l) = false →
  link_inv p c ms (mkLink (up l ++ [bytes m]) (outbox l) (down l) (mkClient todo true (received (peer l)))).
Proof using.
  intros (t & r & rd & us & os & ds & Hr & Hc & Hs & Hms & Hu & Hl & Hd & Hob & Hn) Hts Hw.
  rewrite Hts in Hms. rewrite Hw in Hn. exists t, r, rd, (us ++ [m]), os, ds. cbn.
  split_and!; try done; [by rewrite <- app_assoc|by apply carries_app|rewrite length_app; cbn; lia].
Qed.

Lemma link_inv_net (p : sys R) c ms l cs (b : bool) : link_inv p c ms l →
  is_Some (rechunk (if b then up l else down l) cs) →
  link_inv p c ms (if b then mkLink cs (outbox l) (down l) (peer l)
                   else mkLink (up l) (outbox l) cs (peer l)).
Proof using.
  intros (t & r & rd & us & os & ds & Hr & Hc & Hs & Hms & Hu & Hl & Hd & Hob & Hn) [x Hx].
  pose proof (rechunk_Some _ _ _ Hx) as ->.
  exists t, r, rd, us, os, ds. destruct b; cbn; split_and!; try done; by eapply carries_rechunk.
Qed.

Lemma link_inv_read h (p p' : sys R) c ms l t r q m conn : inv p → Apis (mh p) = Apis h →
  answers_once h c ms → link_inv p c ms l → rdrs p !! t = Some r → connID r = c →
  log p' = log p → rdrs p' = <[t := mkRdr (connID r) q (seen r ++ [mkRequest (connID r) m])]> (rdrs p) →
  Unpack max (mkConn (up l) EOF) = Ret (Some m, None, conn) →
  link_inv p' c ms (mkLink (chunks conn) (outbox l) (down l) (peer l)).
Proof using.
  intros Hi Ha Ho Hl Hr Hc Hlog Hrd Hun.
  destruct (link_bound h p c ms l Hi Ha Ho Hl) as
    (t' & r' & rd & us & os & ds & Hr' & Hc' & Hs & Hms & Hu & Hlg & Hd & Hob & Hn & Hb & _ & _ & Hok).
  assert (t = t') as <- by (eapply same_reader; [done|exact Hr|exact Hr'|congruence]).
  rewrite Hr in Hr'. injection Hr' as <-.
  assert (us ≠ []) as Hne.
  { intros ->. apply carries_nil in Hu. rewrite Hu in Hun. by apply Unpack_none in Hun. }
  destruct (single us 0) as [m' ->]; [destruct (waiting _); lia|done|].
  rewrite Forall_singleton in Hok. rewrite (Unpack_one _ _ Hu Hok) in Hun. injection Hun as -> <-.
  exists t, (mkRdr (connID r) q (seen r ++ [mkRequest (connID r) m])), (rd ++ [m]), [], os, ds.
  rewrite Hlog, Hrd, (lookup_set _ _ _ _ _ Hr), decide_True by done.
  cbn. split_and!; try done.
  - rewrite fmap_app, Hs, Hc. done.
  - by rewrite Hms, <- app_assoc.
  - rewrite length_app. cbn in *. lia.
Qed.

Lemma link_inv_exec (p p' : sys R) c ms l ev : link_inv p c ms l → log p' = log p ++ [ev] →
  rdrs p' = rdrs p → req_conn (ev_req ev) = c → link_inv p' c ms (put_out (replies ev) l).
Proof using.
  intros (t & r & rd & us & os & ds & Hr & Hc & Hs & Hms & Hu & Hl & Hd & Hob & Hn) Hlog Hrd Heq.
  exists t, r, rd, us, (os ++ replies ev), ds. rewrite Hrd, Hlog, of_conn_app, bind_app, Hl.
  assert (of_conn c [ev] = [ev]) as -> by (unfold of_conn; cbn; by rewrite decide_True).
  cbn. rewrite app_nil_r, Hob, fmap_app, !app_assoc. split_and!; try done. by rewrite <- app_assoc.
Qed.

Lemma link_inv_write (p : sys R) c ms l b ps : link_inv p c ms l → outbox l = b :: ps →
  link_inv p c ms (mkLink (up l) ps (down l ++ [b]) (peer l)).
Proof using.
  intros (t & r & rd & us & os & ds & Hr & Hc & Hs & Hms & Hu & Hl & Hd & Hob & Hn) Ho.
  rewrite Ho in Hob. destruct os as [|m os]; [done|]. cbn in Hob. injection Hob as -> ->.
  exists t, r, rd, us, os, (ds ++ [m]). cbn. split_and!; try done; [by rewrite Hl, <- app_assoc|].
  by apply carries_app.
Qed.

Lemma link_inv_recv h (p : sys R) c ms l m conn : inv p → Apis (mh p) = Apis h → answers_once h c ms →
  link_inv p c ms l → waiting (peer l) = true → Unpack max (mkConn (down l) EOF) = Ret (Some m, None, conn) →
  link_inv p c ms (mkLink (up l) (outbox l) (chunks conn)
    (mkClient (to_send (peer l)) false (received (peer l) ++ [m]))).
Proof using.
  intros Hi Ha Ho Hl Hw Hun.
  destruct (link_bound h p c ms l Hi Ha Ho Hl) as
    (t & r & rd & us & os & ds & Hr & Hc & Hs & Hms & Hu & Hlg & Hd & Hob & Hn & Hb & Hpre & Hrd & _).
  rewrite Hw in Hb, Hn. assert (ds ≠ []) as Hne.
  { intros ->. apply carries_nil in Hd. rewrite Hd in Hun. by apply Unpack_none in Hun. }
  destruct (single ds 0) as [m' ->]; [lia|done|]. cbn in Hb.
  assert (msg_ok m') as Hm.
  { assert (Forall msg_ok (answers h c rd)) as Hall.
    { apply answers_once_ok. rewrite Hms in Ho. by apply Forall_app in Ho as [? _]. }
    destruct Hpre as [x Hx]. rewrite Hx in Hall.
    apply Forall_app in Hall as [Hall _]. apply Forall_app in Hall as [_ Hall].
    apply Forall_app in Hall as [Hall _]. by rewrite Forall_singleton in Hall. }
  rewrite (Unpack_one _ _ Hd Hm) in Hun. injection Hun as -> <-.
  exists t, r, rd, us, os, []. cbn. split_and!; try done.
  - by rewrite Hlg, <- app_assoc.
  - rewrite length_app. cbn. lia.
Qed.

(** ** Every reachable state *)

(** A worker for each connection, and each connection in order. *)
Record zinv (h : MsgHandle R) (clients : list (Z * list Message)) (s : zsys) : Prop := {
  zi_pool : inv (pool s);
  zi_apis : Apis (mh (pool s)) = Apis h;
  zi_workers : NoDup (wid (mh (pool s)) <$> (connID <$> rdrs (pool s)));
  zi_links : ∀ c ms, (c, ms) ∈ clients → ∃ l, links s !! c = Some l ∧ link_inv (pool s) c ms l;
}.

Lemma zinv_pool a h clients s p L : zinv h clients s → step cap a (pool s) = Some p →
  (∀ c ms, (c, ms) ∈ clients → ∃ l, L !! c = Some l ∧ link_inv p c ms l) → zinv h clients (mkZ p L).
Proof using.
  intros [Hi Ha Hw _] Hst HL. pose proof (step_const _ _ _ _ Hst) as (Hap & Hsz & Hcid).
  split; cbn; [|by rewrite Hap| |done].
  - eapply pool_step_inv; [done|by apply NoDup_initialising|done].
  - rewrite Hcid. unfold wid in *. by rewrite Hsz.
Qed.

Lemma zinv_link h clients s c l : zinv h clients s →
  (∀ ms, (c, ms) ∈ clients → link_inv (pool s) c ms l) →
  zinv h clients (mkZ (pool s) (<[c := l]> (links s))).
Proof using.
  intros [Hi Ha Hw HL] Hl. split; cbn; try done. intros c' ms Hin.
  destruct (decide (c = c')) as [->|Hne]; [rewrite lookup_insert_eq; eauto|].
  rewrite lookup_insert_ne by done. by apply HL.
Qed.

(** The link that the invariant speaks of. *)
Lemma the_link h clients s c ms l : zinv h clients s → (c, ms) ∈ clients → links s !! c = Some l →
  link_inv (pool s) c ms l.
Proof using.
  intros Hz Hin Hl. destruct (zi_links _ _ _ Hz c ms Hin) as (l' & Hl' & H). congruence.
Qed.

Definition all_answered (h : MsgHandle R) (clients : list (Z * list Message)) : Prop :=
  ∀ c ms, (c, ms) ∈ clients → answers_once h c ms.

Lemma read_zinv h clients t s s' : all_answered h clients → zinv h clients s → zstep (ZRead t) s = Some s' →
  zinv h clients s'.
Proof using.
  intros Ho Hz H. cbn in H. destruct (rdrs (pool s) !! t) as [r|] eqn:Hr; [|done]. cbn in H.
  destruct (links s !! connID r) as [l|] eqn:Hl; [|done]. cbn in H.
  destruct (Unpack max _) as [[[[m|] [e|]] conn]| |] eqn:Hun; try done.
  destruct (step cap (ARead t m) (pool s)) as [p|] eqn:Hst; [|done]. cbn in H. injection H as <-.
  destruct (step_read _ _ _ _ Hst) as (r' & q & Hr' & Hlog & Hrd). rewrite Hr in Hr'. injection Hr' as <-.
  eapply zinv_pool; [done|done|]. intros c ms Hin. destruct (decide (connID r = c)) as [Hc|Hne].
  - rewrite Hc, lookup_insert_eq. rewrite Hc in Hl. eexists. split; [done|].
    eapply (link_inv_read h (pool s) p); eauto; [apply (zi_pool _ _ _ Hz)|apply (zi_apis _ _ _ Hz)|].
    by eapply the_link.
  - rewrite lookup_insert_ne by done. destruct (zi_links _ _ _ Hz c ms Hin) as (l' & Hl' & Hli).
    exists l'. split; [done|]. eapply link_inv_pool; [done|done|]. intros u x Hu Hx.
    exists x. rewrite Hrd, (lookup_set _ _ _ _ _ Hr). case_decide; [|done]. subst. congruence.
Qed.

Lemma exec_zinv h clients g s s' : zinv h clients s → zstep (ZPool (AExec g)) s = Some s' →
  zinv h clients s'.
Proof using.
  intros Hz H. cbn [zstep] in H. destruct (step cap (AExec g) (pool s)) as [p|] eqn:Hst; [|done].
  destruct (step_exec _ _ _ Hst) as (ev & Hev & Hlog & Hrd & _). cbn [mbind option_bind] in H. rewrite Hev in H.
  cbn [mbind option_bind] in H. injection H as <-.
  eapply zinv_pool; [done|done|]. intros c ms Hin.
  destruct (zi_links _ _ _ Hz c ms Hin) as (l & Hl & Hli).
  destruct (decide (GetConnection (ev_req ev) = c)) as [Hc|Hne].
  - rewrite Hc, lookup_alter_eq, Hl. eexists. split; [done|]. by eapply link_inv_exec.
  - rewrite lookup_alter_ne by done. exists l. split; [done|]. by eapply link_inv_other.
Qed.

Lemma pool_zinv h clients a s s' : zinv h clients s → zstep (ZPool a) s = Some s' → zinv h clients s'.
Proof using.
  intros Hz H. destruct (decide (∃ g, a = AExec g)) as [[g ->]|Hne]; [by eapply exec_zinv|].
  assert (∃ p, step cap a (pool s) = Some p ∧ s' = mkZ p (links s) ∧ ∀ t m, a ≠ ARead t m) as (p & Hst & -> & Hnr).
  { destruct a; try done; try (by destruct Hne; eexists); cbn [zstep] in H;
      destruct (step cap _ (pool s)) as [p|]; try done; injection H as <-; by exists p. }
  eapply zinv_pool; [exact Hz|exact Hst|]. intros c ms Hin.
  destruct (zi_links _ _ _ Hz c ms Hin) as (l & Hl & Hli). exists l. split; [done|].
  eapply link_inv_pool; [exact Hli|eapply step_log; [exact Hst|]|].
  - intros g ->. by apply Hne; exists g.
  - intros u x Hu _. by apply (step_seen (cap:=cap) a (pool s) p u x).
Qed.

Lemma zstep_inv h clients a s s' : all_answered h clients → zinv h clients s → zstep a s = Some s' →
  zinv h clients s'.
Proof using.
  intros Ho Hz H. destruct a as [c|c [|] cs|t|a|c|c].
  - cbn in H. destruct (links s !! c) as [l|] eqn:Hl; [|done]. cbn in H.
    destruct (to_send (peer l)) as [|m todo] eqn:Ht; [done|]. destruct (waiting (peer l)) eqn:Hw; [done|].
    injection H as <-. apply zinv_link; [done|]. intros ms Hin. apply link_inv_send; [by eapply the_link|done..].
  - cbn in H. destruct (links s !! c) as [l|] eqn:Hl; [|done]. cbn in H.
    destruct (rechunk (up l) cs) as [x|] eqn:Hx; [|done]. pose proof (rechunk_Some _ _ _ Hx) as ->. injection H as <-.
    apply zinv_link; [done|]. intros ms Hin. apply (link_inv_net _ _ _ _ cs true); [by eapply the_link|by exists cs].
  - cbn in H. destruct (links s !! c) as [l|] eqn:Hl; [|done]. cbn in H.
    destruct (rechunk (down l) cs) as [x|] eqn:Hx; [|done]. pose proof (rechunk_Some _ _ _ Hx) as ->. injection H as <-.
    apply zinv_link; [done|]. intros ms Hin. apply (link_inv_net _ _ _ _ cs false); [by eapply the_link|by exists cs].
  - by eapply read_zinv.
  - by eapply pool_zinv.
  - cbn in H. destruct (links s !! c) as [l|] eqn:Hl; [|done]. cbn in H.
    destruct (outbox l) as [|b ps] eqn:Hob; [done|]. injection H as <-. apply zinv_link; [done|]. intros ms Hin.
    apply link_inv_write; [by eapply the_link|done].
  - cbn in H. destruct (links s !! c) as [l|] eqn:Hl; [|done]. cbn in H.
    destruct (waiting (peer l)) eqn:Hw; [|done].
    destruct (Unpack max _) as [[[[m|] [e|]] conn]| |] eqn:Hun; try done. injection H as <-.
    apply zinv_link; [done|]. intros ms Hin.
    eapply (link_inv_recv h); [apply (zi_pool _ _ _ Hz)|apply (zi_apis _ _ _ Hz)|by apply Ho|by eapply the_link|done|done].
Qed.

Lemma zrun_inv h clients tr s s' : all_answered h clients → zinv h clients s → zrun tr s = Some s' →
  zinv h clients s'.
Proof using.
  intros Ho. revert s. induction tr as [|a tr IH]; intros s Hz H; cbn in H; [by simplify_eq|].
  destruct (zstep a s) as [s1|] eqn:E; [|done]. eapply IH; [by eapply zstep_inv|done].
Qed.

Lemma serving_inv h clients : IsOpen h = true → 0 < WorkerPoolSize h → fresh h → NoDup clients.*1 →
  NoDup (wid h <$> clients.*1) → zinv h clients (serving h clients).
Proof using.
  intros Ho Hw Hf Hnd Hd. split; [by apply pool_started_inv|done| |].
  - cbn. rewrite <- (list_fmap_compose _ connID). cbn. by rewrite list_fmap_id.
  - intros c ms Hin. exists (mkLink [] [] [] (mkClient ms false [])). split.
    + cbn. apply elem_of_list_to_map_1.
      * rewrite <- list_fmap_compose. rewrite (list_fmap_ext _ fst); [done|]. by intros i [? ?] _.
      * apply (list_elem_of_fmap_2 (λ '(c, ms), (c, mkLink [] [] [] (mkClient ms false []))) _ (c, ms)). done.
    + apply list_elem_of_lookup in Hin as [t Ht]. exists t, (mkRdr c RRead []), [], [], [], [].
      cbn. rewrite list_lookup_fmap, list_lookup_fmap, Ht. cbn. split_and!; try done; by split.
Qed.

(** ** A server that cannot go on *)

Lemma zstep_staffed a s s' : zstep a s = Some s' → staffed (pool s) → staffed (pool s').
Proof using.
  intros H Hs.
  assert (pool s' = pool s ∨ ∃ b, step cap b (pool s) = Some (pool s')) as [->|[b Hb]];
    [|done|by eapply step_staffed].
  destruct a as [c|c [|] cs|t|a|c|c]; cbn in H; try destruct a;
    repeat (match type of H with
            | context [mbind _ ?o] => destruct o eqn:?; [|done]
            | context [match ?x with _ => _ end] => destruct x eqn:?; try done
            end; cbn in H); simplify_eq; cbn; solve [by left | right; by eexists].
Qed.

(** Nothing can happen but that the network cuts its bytes anew. *)
Definition zquiet (s : zsys) : Prop :=
  ∀ a, match a with ZNet _ _ _ => false | _ => true end = true → zstep a s = None.

Lemma quiet_pool s : zquiet s → pool_quiet cap (λ _, true) (pool s).
Proof using.
  intros Hq a Ha _. destruct (step cap a (pool s)) as [p|] eqn:Hst; [exfalso|done].
  specialize (Hq (ZPool a) eq_refl). destruct (decide (∃ g, a = AExec g)) as [[g ->]|Hne].
  - destruct (step_exec _ _ _ Hst) as (ev & Hev & _). cbn [zstep] in Hq. rewrite Hst in Hq.
    cbn [mbind option_bind] in Hq. by rewrite Hev in Hq.
  - destruct a; try (by destruct (Ha t msg)); try (by destruct Hne; eexists); cbn [zstep] in Hq; by rewrite Hst in Hq.
Qed.

(** Every message that has arrived has been handled. *)
Lemma quiet_handled s t r : (0 < cap)%nat → inv (pool s) → staffed (pool s) → zquiet s →
  rdrs (pool s) !! t = Some r →
  rp r = RRead ∧ of_conn (connID r) (log (pool s)) = handle_all (mh (pool s)) (seen r).
Proof using.
  intros Hcap Hi Hs Hq Hr. destruct (quiet_served _ _ t r Hcap Hi Hs (quiet_pool s Hq) Hr) as [?|H]; [done|].
  by destruct H as (g & _ & H).
Qed.

(** A client that waits when nothing can happen has nothing under way. *)
Lemma quiet_client h clients s c ms l : (0 < cap)%nat → all_answered h clients → zinv h clients s →
  staffed (pool s) → zquiet s → (c, ms) ∈ clients → links s !! c = Some l →
  waiting (peer l) = false ∧ to_send (peer l) = [].
Proof using.
  intros Hcap Ho Hz Hs Hq Hin Hl. pose proof (zi_pool _ _ _ Hz) as Hi.
  destruct (link_bound h (pool s) c ms l Hi (zi_apis _ _ _ Hz) (Ho c ms Hin) (the_link _ _ _ _ _ _ Hz Hin Hl)) as
    (t & r & rd & us & os & ds & Hr & Hc & Hsn & Hms & Hu & Hlg & Hd & Hob & Hn & Hb & Hpre & Hrd & Hus).
  destruct (quiet_handled s t r Hcap Hi Hs Hq Hr) as [Hp Hf].
  destruct (waiting (peer l)) eqn:Hw.
  - exfalso. assert (os = []) as ->.
    { pose proof (Hq (ZWrite c) eq_refl) as H. cbn in H. rewrite Hl in H. cbn in H. rewrite Hob in H. by destruct os. }
    assert (ds = []) as ->.
    { destruct ds as [|d ds]; [done|]. destruct ds; [|cbn in Hb; lia].
      pose proof (Hq (ZRecv c) eq_refl) as H. cbn in H. rewrite Hl in H. cbn in H. rewrite Hw in H.
      assert (msg_ok d) as Hok.
      { assert (Forall msg_ok (answers h c ms)) as Hall by (apply answers_once_ok, Ho, Hin).
        destruct Hpre as [x Hx]. rewrite Hms, answers_app, Hx in Hall.
        apply Forall_app in Hall as [Hall _]. apply Forall_app in Hall as [Hall _].
        apply Forall_app in Hall as [_ Hall]. by apply Forall_cons in Hall as [? _]. }
      by rewrite (Unpack_one _ _ Hd Hok) in H. }
    assert (us = []) as ->.
    { destruct us as [|u us]; [done|]. destruct us; [|cbn in Hb; lia]. rewrite Forall_singleton in Hus.
      pose proof (Hq (ZRead t) eq_refl) as H. cbn in H. rewrite Hr in H. cbn in H. rewrite Hc, Hl in H. cbn in H.
      rewrite (Unpack_one _ _ Hu Hus) in H. destruct (pool s) as [h0 chs rs gs lg]. cbn in *.
      rewrite Hr in H. cbn in H. by rewrite Hp in H. }
    rewrite Hc, Hsn in Hf.
    rewrite Hf, (handle_all_Apis h (mh (pool s))), answers_handle_all in Hlg by apply (zi_apis _ _ _ Hz).
    apply (f_equal length) in Hlg. rewrite answers_once_length in Hlg.
    + rewrite !length_app in Hlg. cbn in *. lia.
    + specialize (Ho c ms Hin). rewrite Hms in Ho. by apply Forall_app in Ho as [? _].
  - split; [done|]. pose proof (Hq (ZSend c) eq_refl) as H. cbn in H. rewrite Hl in H. cbn in H.
    rewrite Hw in H. by destruct (to_send (peer l)).
Qed.

Lemma zrun_staffed tr s s' : zrun tr s = Some s' → staffed (pool s) → staffed (pool s').
Proof using.
  revert s. induction tr as [|a tr IH]; intros s H Hs; cbn in H; [by simplify_eq|].
  destruct (zstep a s) as [s1|] eqn:E; [|done]. eapply IH; [done|by eapply zstep_staffed].
Qed.

(** What every state of a server shows to its clients. *)
Lemma client_received h clients s c ms l : all_answered h clients → zinv h clients s →
  (c, ms) ∈ clients → links s !! c = Some l →
  received (peer l) `prefix_of` answers h c ms ∧
  (waiting (peer l) = false → to_send (peer l) = [] → received (peer l) = answers h c ms).
Proof using.
  intros Ho Hz Hin Hl.
  destruct (link_bound h (pool s) c ms l (zi_pool _ _ _ Hz) (zi_apis _ _ _ Hz) (Ho c ms Hin)
    (the_link _ _ _ _ _ _ Hz Hin Hl)) as
    (t & r & rd & us & os & ds & Hr & Hc & Hsn & Hms & Hu & Hlg & Hd & Hob & Hn & Hb & Hpre & Hrd & Hus).
  assert (answers h c ms = answers h c rd ++ answers h c (us ++ to_send (peer l))) as Ha
    by (by rewrite Hms, answers_app).
  split.
  - rewrite Ha. apply prefix_app_r. etrans; [|exact Hpre]. by apply prefix_app_r.
  - intros Hw Ht. rewrite Hw in Hb, Hn. destruct us, ds, os; cbn in Hb; try lia.
    rewrite Ht, app_nil_r in Ha. rewrite Ha, app_nil_r in *. destruct Hpre as [x Hx]. rewrite Hx.
    assert (length (answers h c rd) = length rd) as Hlen.
    { apply answers_once_length. specialize (Ho c ms Hin). rewrite Hms in Ho. by apply Forall_app in Ho as [? _]. }
    rewrite Hx, length_app in Hlen. cbn in Hn. destruct x; [by rewrite app_nil_r|cbn in Hlen; lia].
Qed.
End Zinx.

(** ** From the program of a server *)

Lemma accept_loop_cids {C} (accepts : list (C + string)) cid :
  (accept_loop accepts cid).*1 = accept_cids (length (accept_loop accepts cid)) cid.
Proof.
  revert cid. induction accepts as [|[conn|e] accepts IH]; intros cid; [done| |by apply IH].
  cbn. by rewrite <- IH.
Qed.

Section Main.
Context {R A : Type}.

(** A server that has not been started. *)
Definition idle_server (W : Z) (s : Server (R := R)) : Prop :=
  WorkerPoolSize (s_msgHandler s) = W ∧ fresh (s_msgHandler s) ∧ IsOpen (s_msgHandler s) = false.

Lemma NewServer_idle name file g s g' : NewServer name file g = Ret (s, g') → idle_server (g_WorkerPoolSize g') s.
Proof.
  unfold NewServer. destruct (Reload file g) as [g1| |]; [|done..]. cbn. intros [= <- <-]. by split_and!.
Qed.

Lemma add_routers_idle W (routers : list (Z * R)) s s' : add_routers routers s = Ret s' →
  idle_server W s → idle_server W s'.
Proof.
  revert s. induction routers as [|[id router] routers IH]; intros s H Hs; cbn in H; [by simplify_eq|].
  unfold Server_AddRouter, AddRouter in H. destruct (Apis (s_msgHandler s) !! id); cbn in H; [done|].
  eapply IH; [done|]. destruct Hs as (? & Hf & ?). by split_and!.
Qed.

Lemma wid_small (h : MsgHandle R) n : Z.of_nat n ≤ WorkerPoolSize h → Z.of_nat n ≤ 2 ^ 32 →
  NoDup (accept_cids n 0) ∧ NoDup (wid h <$> accept_cids n 0).
Proof.
  intros Hn Hn'. assert (∀ i x, accept_cids n 0 !! i = Some x → (i < n)%nat ∧ x = Z.of_nat i) as Hat.
  { intros i x Hi. pose proof (lookup_lt_Some _ _ _ Hi) as Hlt. rewrite length_accept_cids in Hlt.
    rewrite accept_cids_lookup in Hi by (unfold u32_ok; lia). split; [done|].
    injection Hi as <-. rewrite Z.add_0_l. apply wrapu_small. lia. }
  split; apply NoDup_alt.
  - intros i j x Hi Hj. apply Hat in Hi as [_ ->], Hj as [_ ?]. lia.
  - intros i j x Hi Hj. rewrite list_lookup_fmap in Hi, Hj.
    destruct (accept_cids n 0 !! i) as [a|] eqn:Ei; [|done]. destruct (accept_cids n 0 !! j) as [b|] eqn:Ej; [|done].
    apply Hat in Ei as [? ->], Ej as [? ->]. unfold wid in *. cbn in Hi, Hj.
    injection Hi as <-. injection Hj as Hj. rewrite !Z.mod_small in Hj by lia. lia.
Qed.

(** A server that was made, given routers and started serves the clients it
    accepts, when there are no more of them than workers. *)
Lemma Start_serves (sends : method → R → Request → list (Z * list Z)) name file g routers s0 g' s1 s2
    resolve (listen : string → option A → list (list Message + string) + string) clients :
  NewServer name file g = Ret (s0, g') → add_routers routers s0 = Ret s1 →
  Start resolve listen s1 = (s2, clients) →
  0 < g_WorkerPoolSize g' ≤ 2 ^ 32 → Z.of_nat (length clients) ≤ g_WorkerPoolSize g' →
  zinv sends (s_msgHandler s2) clients (serving (s_msgHandler s2) clients).
Proof.
  intros Hn Ha Hs HW Hc. apply NewServer_idle in Hn. apply (add_routers_idle _ _ _ _ Ha) in Hn as (HW1 & Hf & Ho).
  set (h := StartWorkerPool (s_msgHandler s1)).
  assert (s_msgHandler s2 = h ∧ ∃ accepts, clients = accept_loop accepts 0) as [-> [accepts Hcl]].
  { unfold Start in Hs. destruct (listen _ _) as [accepts|e]; injection Hs as <- <-; (split; [done|]);
      [by exists accepts|by exists []]. }
  assert (WorkerPoolSize h = g_WorkerPoolSize g' ∧ IsOpen h = true ∧ fresh h) as (Hsz & Hop & Hfr).
  { unfold h, StartWorkerPool. unfold IsOpen in Ho. by rewrite Ho. }
  destruct (wid_small h (length clients)) as [Hnd Hwd]; [lia|lia|].
  apply serving_inv; try done; [lia| |]; rewrite Hcl, accept_loop_cids, <- Hcl; done.
Qed.
End Main.

(** ** Properties *)

Section Properties.
Context {R A : Type} (sends : method → R → Request → list (Z * list Z)).
Context (name : string) (file : Config + string) (g : GlobalObj) (routers : list (Z * R)).
Context (resolve : string → string → A + string).
Context (listen : string → option A → list (list Message + string) + string).
Context (s0 s1 s2 : Server (R := R)) (g' : GlobalObj) (clients : list (Z * list Message)).
(** A server that was made, given its routers and started, and has accepted the
    clients, no more of them than it has workers; whatever a client sends is
    answered by one message, and all are within the limits. *)
Context (Hnew : NewServer name file g = Ret (s0, g')) (Hadd : add_routers routers s0 = Ret s1).
Context (Hstart : Start resolve listen s1 = (s2, clients)).
Context (Hsize : 0 < g_WorkerPoolSize g' ≤ 2 ^ 32) (Hfew : Z.of_nat (length clients) ≤ g_WorkerPoolSize g').
Context (Hone : all_answered sends (MaxPackerSize g') (s_msgHandler s2) clients).

(** C3: every client gets the answers to its messages, in order: in every
    state that a started server and its clients can reach, however readers,
    workers, writers and clients interleave and however the network cuts the
    bytes of either direction into chunks, what a client has received are the
    first of the answers that the routers give to its messages one after
    another, and all of them once it has sent everything and waits for
    nothing.

    Required: there are no more clients than workers, so that none of them
    share one (with a shared worker [MsgHandler.race_reorders] can happen); and
    every message of a client is answered by exactly one message, both within
    the limits of the package size, since a client waits for one answer to
    each message. *)
Theorem clients_are_answered cap tr s c ms l :
  zrun sends (MaxPackerSize g') cap tr (serving (s_msgHandler s2) clients) = Some s →
  (c, ms) ∈ clients → links s !! c = Some l →
  received (peer l) `prefix_of` answers sends (s_msgHandler s2) c ms ∧
  (waiting (peer l) = false → to_send (peer l) = [] →
   received (peer l) = answers sends (s_msgHandler s2) c ms).
Proof using Hnew Hadd Hstart Hsize Hfew Hone.
  intros Hr Hin Hl. pose proof (Start_serves sends _ _ _ _ _ _ _ _ _ _ _ Hnew Hadd Hstart Hsize Hfew) as H0.
  eapply client_received; [done| |done|done]. by eapply zrun_inv.
Qed.

(** C9: no client is left waiting: when readers, workers, writers and clients
    can go no further, every client has sent all of its messages and has
    received all of the answers.  Required, as before: no more clients than
    workers, and every message of a client is answered by exactly one message,
    both within the limits (a client whose message gets no answer waits for
    ever); and the channels of the workers have room for a request. *)
Theorem no_client_left_waiting cap tr s c ms l : (0 < cap)%nat →
  zrun sends (MaxPackerSize g') cap tr (serving (s_msgHandler s2) clients) = Some s →
  zquiet sends (MaxPackerSize g') cap s → (c, ms) ∈ clients → links s !! c = Some l →
  to_send (peer l) = [] ∧ received (peer l) = answers sends (s_msgHandler s2) c ms.
Proof using Hnew Hadd Hstart Hsize Hfew Hone.
  intros Hcap Hr Hq Hin Hl. pose proof (Start_serves sends _ _ _ _ _ _ _ _ _ _ _ Hnew Hadd Hstart Hsize Hfew) as H0.
  assert (zinv sends (s_msgHandler s2) clients s) as Hz by (by eapply zrun_inv).
  assert (staffed (pool s)) as Hs.
  { eapply zrun_staffed; [done|]. intros w q Hqq. exfalso.
    destruct (inv_chan _ (zi_pool _ _ _ _ H0) _ _ Hqq) as (ch & Hch & _). by cbn in Hch. }
  destruct (quiet_client sends (MaxPackerSize g') cap (s_msgHandler s2) clients s c ms l) as [Hw Ht]; [done..|].
  split; [done|]. by eapply client_received.
Qed.
End Properties.

(** C37: the accept loop numbers the connections of a server from 0, whatever
    errors [AcceptTCP] returns in between: the first 2^32 of them have
    different identifiers, and the identifiers are 32 bits wide, so the next
    connection has the identifier 0 again. *)
Theorem connection_ids {C} (accepts : list (C + string)) :
  (Z.of_nat (length (accept_loop accepts 0)) ≤ 2 ^ 32 → NoDup (accept_loop accepts 0).*1) ∧
  (2 ^ 32 < Z.of_nat (length (accept_loop accepts 0)) →
   (accept_loop accepts 0).*1 !! Z.to_nat (2 ^ 32) = Some 0) ∧
  (accept_loop accepts 0).*2 = omap (λ a, match a with inl conn => Some conn | inr _ => None end) accepts.
Proof.
  rewrite accept_loop_cids. split; [|split].
  - intros H. by apply (accept_cids_distinct (length (accept_loop accepts 0))).
  - intros H. by apply (accept_cids_distinct (length (accept_loop accepts 0))).
  - generalize 0. induction accepts as [|[conn|e] accepts IH]; intros cid; cbn; [done| |by apply IH].
    by rewrite IH.
Qed.

(** ** The demonstration programs *)

Inductive router := PingRouter | HelloZinxRouter.

(** [znet.BaseRouter], whose methods do nothing. *)
Definition BaseRouter (_ : method) (_ : Request) : list (Z * list Z) := [].

(** [Handle] of the two; the other methods are those of [BaseRouter]. *)
Definition demo_sends (m : method) (r : router) (req : Request) : list (Z * list Z) :=
  match m, r with
  | Handle, PingRouter => [(0, bytes_of "ping...ping...ping")]
  | Handle, HelloZinxRouter => [(1, bytes_of "Hello Zinx Router V0.6")]
  | _, _ => BaseRouter m req
  end.

Definition demo_routers : list (Z * router) := [(0, PingRouter); (1, HelloZinxRouter)].

(** [main] of the server, up to the endless loop of [Serve]. *)
Definition main (file : Config + string) (g : GlobalObj)
  (listen : string → option string → list (list Message + string) + string)
  : outcome (Server (R := router) * list (Z * list Message)) :=
  let! (s, _) := NewServer "server" file g in
  let! s := add_routers demo_routers s in
  Ret (Serve (λ _ addr, inl addr) listen s).

(** What [main] of the client sends in each round. *)
Definition client_message : Message := NewMsgPackage 1 (bytes_of "Zinx V0.5 Client Test Message").

(** What [main] of the client prints: the errors it gives up with and the
    answers that are not empty. *)
Inductive printed := StartError | WriteError (e : string) | UnpackError (e : string) | Received (m : Message).

(** Its loop, in rounds: the error of the write, and the chunks that arrive
    before the next write; [rest] has arrived but was not read.  The bytes it
    has sent, and what it prints. *)
Fixpoint client_loop (max : Z) (rounds : list (error * list (list Z))) (rest : list (list Z))
  : outcome (list (list Z) * list printed) :=
  match rounds with
  | [] => Ret ([], [])
  | (Some e, _) :: _ => Ret ([], [WriteError e])
  | (None, cs) :: rounds =>
      let! (msg, err, conn) := Unpack max (mkConn (rest ++ cs) EOF) in
      match msg, err with
      | Some m, None =>
          let! (sent, out) := client_loop max rounds (chunks conn) in
          Ret (bytes client_message :: sent, (if bool_decide (0 < GetDataLen m) then [Received m] else []) ++ out)
      | _, _ => Ret ([bytes client_message], [UnpackError (default ""%string err)])
      end
  end.

(** [main] of the client, with the error of [net.Dial]. *)
Definition client_main (max : Z) (dial : error) (rounds : list (error * list (list Z)))
  : outcome (list (list Z) * list printed) :=
  match dial with
  | Some _ => Ret ([], [StartError])
  | None => client_loop max rounds []
  end.

(** A round in which the answer [m] arrives, in whatever chunks. *)
Definition answered_by (max : Z) (round : error * list (list Z)) (m : Message) : Prop :=
  round.1 = None ∧ carries round.2 [m] ∧ msg_ok max m.

Definition empty_config : Config := mkConfig None None None None None None None None None.

Definition demo_listen (_ : string) (_ : option string) : list (list Message + string) + string :=
  inl [inl [client_message; client_message]; inr "accept"%string; inl [NewMsgPackage 0 []]].

Definition demo_server : Server (R := router) * list (Z * list Message) :=
  match main (inl empty_config) GlobalObject_defaults demo_listen with
  | Ret x => x
  | _ => (mkServer "" "" "" 0 (NewMsgHandle GlobalObject_defaults), [])
  end.

Definition demo_start : zsys (R := router) := serving (s_msgHandler demo_server.1) demo_server.2.

(** One message of the client [c] and back, its bytes cut in two on both ways;
    [t] is its reader and [g] its worker. *)
Definition halves (m : Message) : list (list Z) := [take 5 (bytes m); drop 5 (bytes m)].

Definition round (c : Z) (t g : nat) (m answer : Message) (first : bool) : list zaction :=
  [ZSend c; ZNet c true (halves m); ZRead t; ZPool (ACheck t)] ++
  (if first then [ZPool (AMake t); ZPool (AGo t)] else []) ++
  [ZPool (ASend t); ZPool (ARecv g); ZPool (AExec g); ZPool (AExec g); ZPool (AExec g);
   ZWrite c; ZNet c false (halves answer); ZRecv c].

Definition pong : Message := NewMsgPackage 0 (bytes_of "ping...ping...ping").
Definition hello : Message := NewMsgPackage 1 (bytes_of "Hello Zinx Router V0.6").

Definition demo_trace : list zaction :=
  round 0 0 0 client_message hello true ++ round 1 1 1 (NewMsgPackage 0 []) pong true ++
  round 0 0 0 client_message hello false.

Abbreviation demo_run := (zrun demo_sends 4096 1024 demo_trace demo_start).

Example demo_answers : (λ s, (λ c, (λ l, received (peer l)) <$> links s !! c) <$> [0; 1]) <$> demo_run =
  Some [Some [hello; hello]; Some [pong]].
Proof. vm_compute. reflexivity. Qed.

(** ** Witnesses *)

Lemma demo_main : main (inl empty_config) GlobalObject_defaults demo_listen = Ret demo_server.
Proof. reflexivity. Qed.

Lemma hello_once c : answers_once demo_sends 4096 (s_msgHandler demo_server.1) c [client_message; client_message].
Proof.
  assert (msg_ok 4096 client_message ∧ msg_ok 4096 hello) as [H1 H2].
  { split; (split; [reflexivity|]); (split; [unfold u32_ok; cbn; lia|]); split; vm_compute; congruence. }
  repeat constructor; try done; by exists hello.
Qed.

Lemma pong_once c : answers_once demo_sends 4096 (s_msgHandler demo_server.1) c [NewMsgPackage 0 []].
Proof.
  assert (msg_ok 4096 (NewMsgPackage 0 []) ∧ msg_ok 4096 pong) as [H1 H2].
  { split; (split; [reflexivity|]); (split; [unfold u32_ok; cbn; lia|]); split; vm_compute; congruence. }
  repeat constructor; try done; by exists pong.
Qed.

Lemma demo_once : all_answered demo_sends 4096 (s_msgHandler demo_server.1) demo_server.2.
Proof.
  intros c ms Hin. apply elem_of_cons in Hin as [Hin|Hin].
  - injection Hin as -> ->. apply hello_once.
  - apply list_elem_of_singleton in Hin. injection Hin as -> ->. apply pong_once.
Qed.

(** A state with nothing under way is quiet. *)
Lemma drained_quiet {R} (sends : method → R → Request → list (Z * list Z)) max cap s :
  drained (pool s) → map_Forall (λ _ l, up l = [] ∧ outbox l = [] ∧ to_send (peer l) = [] ∧ waiting (peer l) = false) (links s) →
  zquiet sends max cap s.
Proof.
  intros (Hch & Hwk & Hrd) HL a Ha. rewrite Forall_lookup in Hch. rewrite Forall_lookup in Hwk.
  rewrite Forall_lookup in Hrd.
  destruct a as [c|c [|] cs|t|a|c|c]; try done; cbn.
  - destruct (links s !! c) as [l|] eqn:Hl; [|done]. destruct (HL c l Hl) as (_ & _ & Ht & _). cbn. by rewrite Ht.
  - destruct (rdrs (pool s) !! t) as [r|] eqn:Hr; [|done]. cbn.
    destruct (links s !! connID r) as [l|] eqn:Hl; [|done]. destruct (HL _ l Hl) as (Hu & _). cbn. by rewrite Hu.
  - destruct (pool s) as [h chs rs gs lg]. cbn in *.
    destruct a; cbn; try done;
      try (destruct (rs !! t) as [r|] eqn:Hr; [|done]; cbn; by rewrite (Hrd t r Hr)).
    + destruct (rs !! t) as [r|] eqn:Hr; [|done]. cbn. destruct (gs !! g); [|done]. cbn. by rewrite (Hrd t r Hr).
    + destruct (gs !! g) as [wk|] eqn:Hg; [|done]. cbn. destruct (on wk) as [q|]; [|done]. cbn.
      destruct (chs !! q) as [ch|] eqn:Hq; [|done]. cbn. rewrite (Hwk g wk Hg), (Hch q ch Hq). done.
    + destruct (gs !! g) as [wk|] eqn:Hg; [|done]. cbn. by rewrite (Hwk g wk Hg).
  - destruct (links s !! c) as [l|] eqn:Hl; [|done]. destruct (HL c l Hl) as (_ & Ho & _). cbn. by rewrite Ho.
  - destruct (links s !! c) as [l|] eqn:Hl; [|done]. destruct (HL c l Hl) as (_ & _ & _ & Hw). cbn. by rewrite Hw.
Qed.

Definition idle_link (l : link) : bool :=
  match up l, outbox l, to_send (peer l), waiting (peer l) with [], [], [], false => true | _, _, _, _ => false end.

Definition idle_pool {R} (p : sys R) : bool :=
  forallb (λ ch, match ch with [] => true | _ => false end) (MsgHandler.chans p) &&
  forallb (λ wk, match todo wk with [] => true | _ => false end) (gors p) &&
  forallb (λ r, match rp r with RRead => true | _ => false end) (rdrs p).

Lemma idle_quiet {R} (sends : method → R → Request → list (Z * list Z)) max cap s :
  idle_pool (pool s) = true → forallb (λ x, idle_link x.2) (map_to_list (links s)) = true → zquiet sends max cap s.
Proof.
  intros Hp HL. unfold idle_pool in Hp. apply andb_true_iff in Hp as [Hp H3].
  apply andb_true_iff in Hp as [H1 H2]. rewrite forallb_forall in H1, H2, H3, HL.
  apply drained_quiet.
  - split_and!; apply Forall_forall; intros x Hx%list_elem_of_In.
    + specialize (H1 x Hx). by destruct x.
    + specialize (H2 x Hx). by destruct (todo x).
    + specialize (H3 x Hx). by destruct (rp x).
  - intros c l Hl. apply elem_of_map_to_list, list_elem_of_In, HL in Hl. cbn in Hl. unfold idle_link in Hl.
    destruct (up l), (outbox l), (to_send (peer l)), (waiting (peer l)); done.
Qed.

Lemma demo_end : ∃ s l, demo_run = Some s ∧ zquiet demo_sends 4096 1024 s ∧ links s !! 0 = Some l.
Proof.
  assert ((λ s, (idle_pool (pool s), forallb (λ x, idle_link x.2) (map_to_list (links s)),
    bool_decide (is_Some (links s !! 0)))) <$> demo_run = Some (true, true, true)) as H by (vm_compute; reflexivity).
  destruct demo_run as [s|]; [|done]. cbn in H. injection H as H1 H2 H3.
  apply bool_decide_eq_true in H3 as [l Hl]. exists s, l. split; [done|]. split; [by apply idle_quiet|done].
Qed.

Lemma demo_clients : ∃ s0 s1 g', NewServer "server" (inl empty_config) GlobalObject_defaults = Ret (s0, g') ∧
  add_routers demo_routers s0 = Ret s1 ∧ g' = GlobalObject_defaults ∧
  Start (λ _ addr, inl addr) demo_listen s1 = (demo_server.1, demo_server.2).
Proof. do 3 eexists. split; [reflexivity|]. split; [reflexivity|]. split; reflexivity. Qed.

Lemma clients_are_answered_witness : ∃ s l, demo_run = Some s ∧ links s !! 0 = Some l ∧
  received (peer l) `prefix_of` answers demo_sends (s_msgHandler demo_server.1) 0 [client_message; client_message].
Proof.
  destruct demo_end as (s & l & Hr & _ & Hl). destruct demo_clients as (s0 & s1 & g' & Hn & Ha & -> & Hs).
  exists s, l. split; [exact Hr|]. split; [exact Hl|].
  refine (proj1 (clients_are_answered demo_sends _ _ _ _ _ _ _ _ _ _ _ Hn Ha Hs _ _ demo_once 1024 demo_trace
    s 0 [client_message; client_message] l Hr _ Hl)).
  - cbn. lia.
  - vm_compute. discriminate.
  - left.
Defined.

Lemma no_client_left_waiting_witness : ∃ s l, demo_run = Some s ∧ links s !! 0 = Some l ∧
  to_send (peer l) = [] ∧
  received (peer l) = answers demo_sends (s_msgHandler demo_server.1) 0 [client_message; client_message].
Proof.
  destruct demo_end as (s & l & Hr & Hq & Hl). destruct demo_clients as (s0 & s1 & g' & Hn & Ha & -> & Hs).
  exists s, l. split; [exact Hr|]. split; [exact Hl|].
  refine (no_client_left_waiting demo_sends _ _ _ _ _ _ _ _ _ _ _ Hn Ha Hs _ _ demo_once 1024 demo_trace
    s 0 [client_message; client_message] l _ Hr Hq _ Hl).
  - cbn. lia.
  - vm_compute. discriminate.
  - lia.
  - left.
Defined.

(** The client of a server that answers: it sends its message in every round and
    prints the answers in order, those without data left out. *)
Theorem client_prints_answers max rounds ms : Forall2 (answered_by max) rounds ms →
  client_main max None rounds =
    Ret (replicate (length rounds) (bytes client_message), Received <$> filter (λ m, 0 < GetDataLen m) ms).
Proof.
  unfold client_main. induction 1 as [|[e cs] m rounds ms (He & Hc & Hm) _ IH]; [done|]. cbn in He, Hc. subst e.
  cbn [client_loop app]. rewrite (Unpack_one _ _ _ Hc Hm). cbn [obind chunks]. rewrite IH. cbn [obind].
  rewrite filter_cons. case_bool_decide; case_decide; done.
Qed.

(** Two answers, each cut in two, and a write that fails. *)
Lemma client_prints_answers_witness :
  client_main 4096 None [(None, halves hello); (None, halves pong)] =
    Ret ([bytes client_message; bytes client_message], [Received hello; Received pong]).
Proof.
  refine (client_prints_answers 4096 [(None, halves hello); (None, halves pong)] [hello; pong] _).
  repeat (apply Forall2_cons; split); try apply Forall2_nil_2; (split; [reflexivity|]); (split; [split; [reflexivity|]|]);
    try (repeat (apply Forall_cons; split); [discriminate|discriminate|apply Forall_nil_2]);
    (split; [reflexivity|]); (split; [unfold u32_ok; cbn; lia|]); split; vm_compute; congruence.
Defined.

Example client_write_fails : client_main 4096 None [(None, halves hello); (Some "broken pipe"%string, [])] =
  Ret ([bytes client_message], [Received hello; WriteError "broken pipe"]).
Proof. vm_compute. reflexivity. Qed.

(** [connection_ids] at three attempts, one of which fails. *)
Lemma connection_ids_witness : NoDup (accept_loop [inl "a"; inr "accept"; inl "b"]%string 0).*1.
Proof. apply (connection_ids [inl "a"; inr "accept"; inl "b"]%string). cbn. lia. Defined.
