(* ===== verification/ZinxEnds.v ===== *)
(** * myzinx: a server whose connections end

    Puts the goroutines of the connections ([Connection.v]) together with the
    worker pool ([MsgHandler.v]): the reader of a connection gives its messages
    to the pool, and a router that calls [SendMsg] of
    [src/myzinx/znet/connection.go] keeps its worker until the writer of the
    connection takes the message, [SendMsg] returns an error, or for ever.  Any
    number of connections end in any way while others go on; in [Zinx.v], where
    the clients are part of the model, no connection ends.  A router sends on
    the connection of its request, what the request determines, and goes on
    when a send fails, as those of [src/myzinx/main/Server/Server.go] do. *)

From S2P Require Import Prelude Conn DataPack Connection MsgHandler PoolProgress Zinx.

Section ZinxEnds.
(** What a method of a router sends on the connection of a request, and
    [MaxWorkerTaskLen]. *)
Context {R : Type} (sends : method → R → Request → list (Z * list Z)) (cap : nat).

(** ** State *)

(** A goroutine inside the method of a router: in its call [at_] of [SendMsg]
    of the connection [to], with the sends that follow. *)
Record sending := mkSending { to : Z; at_ : nat; later : list (Z * list Z) }.

(** The connection of each identifier: the numbers that were not given out have
    one that nobody uses. *)
Record esys := mkE { epool : sys R; conns : Z → Connection; calls : gmap nat sending }.

Inductive eaction :=
  | ERead (t : nat) (msg : Message)           (* Unpack of a reader returned a message *)
  | EFail (t : nat) (err : string)            (* Unpack of a reader returned an error *)
  | EConn (c : Z) (a : Connection.action)     (* another step of a goroutine of a connection *)
  | EPool (a : MsgHandler.action)             (* another step of the pool *)
  | ECall (g : nat)                           (* the next call of DoMsgHandle *)
  | ENext (g : nat).                          (* SendMsg has returned to the router *)

Definition set_pool (p : sys R) (s : esys) : esys := mkE p (conns s) (calls s).
Definition set_conn (c : Z) (k : Connection) (s : esys) : esys :=
  mkE (epool s) (λ x, if decide (x = c) then k else conns s x) (calls s).

(** The method that [g] is in sends the next of [l], or returns. *)
Definition send_next (g : nat) (c : Z) (l : list (Z * list Z)) (s : esys) : esys :=
  match l with
  | [] => mkE (epool s) (conns s) (delete g (calls s))
  | (id, data) :: l =>
      let s' := set_conn c (add_sender id data (conns s c)) s in
      mkE (epool s') (conns s') (<[g := mkSending c (length (senders (conns s c))) l]> (calls s'))
  end.

(** Not inside the method of a router. *)
Definition free (s : esys) (g : nat) : bool := bool_decide (calls s !! g = None).

Definition estep (a : eaction) (s : esys) : option esys :=
  match a with
  | ERead t msg =>
      r ← rdrs (epool s) !! t;
      p ← MsgHandler.step cap (ARead t msg) (epool s);
      k ← Connection.step (AUnpack (inl msg)) (conns s (connID r));
      Some (set_conn (connID r) k (set_pool p s))
  | EFail t err =>
      r ← rdrs (epool s) !! t;
      match rp r with
      | RRead =>
          k ← Connection.step (AUnpack (inr err)) (conns s (connID r));
          Some (set_conn (connID r) k s)
      | _ => None
      end
  | EConn c (AUnpack _) => None
  | EConn c a => k ← Connection.step a (conns s c); Some (set_conn c k s)
  | EPool (ARead _ _) | EPool (AExec _) => None
  | EPool a =>
      if from_option (free s) true (mover a) then
        p ← MsgHandler.step cap a (epool s); Some (set_pool p s)
      else None
  | ECall g =>
      if free s g then
        p ← MsgHandler.step cap (AExec g) (epool s);
        ev ← next_event g (epool s);
        Some (send_next g (GetConnection (ev_req ev))
                (sends (ev_method ev) (ev_router ev) (ev_req ev)) (set_pool p s))
      else None
  | ENext g =>
      x ← calls s !! g;
      p ← senders (conns s (to x)) !! at_ x;
      match p with
      | MRet _ => Some (send_next g (to x) (later x) s)
      | _ => None
      end
  end.

Fixpoint erun (tr : list eaction) (s : esys) : option esys :=
  match tr with
  | [] => Some s
  | a :: tr => s' ← estep a s; erun tr s'
  end.

(** A started server that has accepted connections with these identifiers. *)
Definition open_server (h : MsgHandle R) (cids : list Z) : esys :=
  mkE (started h cids) (λ _, Connection.NewConnection [] 0) ∅.

(** No two readers are between the test for nil and the [go] for one worker
    ([MsgHandler.race_reorders] is about those that are). *)
Fixpoint ecalm (tr : list eaction) (s : esys) : bool :=
  calm (epool s) && match tr with
                    | [] => true
                    | a :: tr => match estep a s with Some s' => ecalm tr s' | None => true end
                    end.


(** ** Specification *)

(** What the routers were to send on [c] by the calls made so far. *)
Definition asked (c : Z) (s : esys) : list Message := of_conn c (log (epool s)) ≫= replies sends.

Definition messages (l : list (Z * list Z)) : list Message := (λ '(id, data), NewMsgPackage id data) <$> l.

Definition returned (p : sender_pc) : Prop := ∃ err, p = MRet err.

(** The message that a call of [SendMsg] still has to hand over. *)
Definition in_send (p : sender_pc) : list Message :=
  match p with MCheck id data => [NewMsgPackage id data] | MSend m => [m] | MRet _ => [] end.

(** The writer was handed all of [ms] but what is left to send, or the
    connection is closed and the writer was handed the first of them. *)
Definition handed_of (ms left : list Message) (k : Connection) : Prop :=
  handed k ++ left = ms ∨ isClosed k = true ∧ handed k `prefix_of` ms.

(** No [SendMsg] is under way, and [l] is still to be sent. *)
Definition resting (ms : list Message) (l : list (Z * list Z)) (k : Connection) : Prop :=
  (∀ i p, senders k !! i = Some p → returned p) ∧ handed_of ms (messages l) k.

(** The same in the call [i] of [SendMsg], the last one. *)
Definition sending_at (ms : list Message) (i : nat) (l : list (Z * list Z)) (k : Connection) : Prop :=
  ∃ p, senders k !! i = Some p ∧ (∀ j q, senders k !! j = Some q → j ≠ i → returned q) ∧
    (handed k ++ in_send p ++ messages l = ms ∨
     isClosed k = true ∧ handed k `prefix_of` ms ∧ ∀ m, p ≠ MSend m).

(** Where the routers are in sending [ms] on the connection [c]. *)
Definition asks (s : esys) (c : Z) (ms : list Message) (k : Connection) : Prop :=
  (∀ g x, calls s !! g = Some x → to x ≠ c) ∧ resting ms [] k ∨
  ∃ g i l, calls s !! g = Some (mkSending c i l) ∧ sending_at ms i l k.

(** The reader is the only one who closes. *)
Definition sound (k : Connection) : Prop :=
  stoppers k = [] ∧ Connection.reader k ≠ Connection.RPanic ∧ exit_closed k = isClosed k ∧
  (isClosed k = true → Connection.reader k = RDone).

Definition conn_ok (s : esys) (c : Z) : Prop :=
  wire_inv (conns s c) ∧ sound (conns s c) ∧ asks s c (asked c s) (conns s c).

(** The reader of a connection has given its messages to the pool; a goroutine
    in the method of a router is the worker of its connection. *)
Record pool_ok (h : MsgHandle R) (s : esys) : Prop := {
  po_pool : inv (epool s);
  po_apis : Apis (mh (epool s)) = Apis h;
  po_size : WorkerPoolSize (mh (epool s)) = WorkerPoolSize h;
  po_staffed : staffed (epool s);
  po_read : ∀ t r, rdrs (epool s) !! t = Some r →
    seen r = mkRequest (connID r) <$> dispatched (conns s (connID r));
  po_calls : ∀ g x, calls s !! g = Some x → serves g (to x) (epool s);
}.

Definition einv (h : MsgHandle R) (s : esys) : Prop := pool_ok h s ∧ ∀ c, conn_ok s c.

(** ** One connection *)

Lemma step_sound a k k' : sound k → Connection.step a k = Some k' → sound k'.
Proof using.
  intros (Hs & Hp & He & Hc) H. destruct k as [cl so eb ec rd w st sd sp wr hd dp]. unfold sound in *.
  cbn in Hs, Hp, He, Hc. subst sp ec. destruct cl; [rewrite Hc in H by done|];
    destruct a; cbn in H; unfold exit_recv in H; conn_cases H; cbn in *; split_and!; try done; by case_bool_decide.
Qed.

Lemma step_dispatched a k k' : Connection.step a k = Some k' →
  dispatched k' = match a with AUnpack (inl m) => dispatched k ++ [m] | _ => dispatched k end.
Proof using.
  intros H. destruct k as [cl so eb ec rd w st sd sp wr hd dp].
  destruct a; cbn in H; unfold exit_recv in H; conn_cases H; done.
Qed.

(** Only a call of [SendMsg] and the hand-over to the writer change what has
    been sent. *)
Lemma step_frame a k k' : (∀ j, a ≠ Connection.ACheck j ∧ a ≠ AHand j) → Connection.step a k = Some k' →
  senders k' = senders k ∧ handed k' = handed k ∧ (isClosed k = true → isClosed k' = true).
Proof using.
  intros Ha H. destruct k as [cl so eb ec rd w st sd sp wr hd dp].
  destruct a; try (by destruct (Ha i)); cbn in H; unfold exit_recv in H; conn_cases H; done.
Qed.

Lemma handed_frame ms l k k' : handed k' = handed k → (isClosed k = true → isClosed k' = true) →
  handed_of ms l k → handed_of ms l k'.
Proof using. intros Hh Hc. unfold handed_of. rewrite Hh. intros [?|[? ?]]; [by left|right; by split; [apply Hc|]]. Qed.

Lemma step_check j k k' : Connection.step (Connection.ACheck j) k = Some k' → ∃ id data,
  senders k !! j = Some (MCheck id data) ∧
  k' = set_sender j (if isClosed k then MRet (Some "Connection closed when send msg"%string)
                     else MSend (NewMsgPackage id data)) k.
Proof using.
  intros H. cbn in H. destruct (senders k !! j) as [[id data|m|e]|]; try done. cbn in H.
  exists id, data. split; [done|]. by injection H as <-.
Qed.

Lemma step_hand j k k' : Connection.step (AHand j) k = Some k' → ∃ m, senders k !! j = Some (MSend m) ∧
  writer k = WSelect ∧ k' = hand m (set_sender j (MRet None) (set_writer (WWrite (Pack m).1) k)).
Proof using.
  intros H. cbn in H. destruct (senders k !! j) as [[id data|m|e]|]; try done. cbn in H.
  destruct (writer k); try done. exists m. by injection H as <-.
Qed.

Lemma step_resting a k k' ms l : Connection.step a k = Some k' → resting ms l k → resting ms l k'.
Proof using.
  intros H [Hr Hh]. assert (∀ j, a ≠ Connection.ACheck j ∧ a ≠ AHand j) as Ha.
  { intros j. split; intros ->.
    - destruct (step_check _ _ _ H) as (id & data & Hj & _). by destruct (Hr _ _ Hj).
    - destruct (step_hand _ _ _ H) as (m & Hj & _). by destruct (Hr _ _ Hj). }
  destruct (step_frame _ _ _ Ha H) as (Hs & Hd & Hc). split; [by rewrite Hs|by eapply handed_frame].
Qed.

(** The current call of [SendMsg] moves on. *)
Lemma sending_move k k' ms i l p p' : senders k !! i = Some p → senders k' = <[i := p']> (senders k) →
  (∀ j q, senders k !! j = Some q → j ≠ i → returned q) →
  (handed k' ++ in_send p' ++ messages l = ms ∨
   isClosed k' = true ∧ handed k' `prefix_of` ms ∧ ∀ m, p' ≠ MSend m) → sending_at ms i l k'.
Proof using.
  intros Hi Hs Ho Hm. exists p'. rewrite Hs. split_and!; [|intros j q Hj Hne|done].
  - by rewrite (lookup_set _ _ _ _ _ Hi), decide_True.
  - rewrite (lookup_set _ _ _ _ _ Hi), decide_False in Hj by done. by eapply Ho.
Qed.

Lemma step_sending a k k' ms i l : Connection.step a k = Some k' → sending_at ms i l k → sending_at ms i l k'.
Proof using.
  intros H (p & Hi & Ho & Hm). destruct a as [r| | |j|r| | |j|j|j];
    try (pose proof (λ Ha, step_frame _ k k' Ha H) as Hf; destruct Hf as (Hs & Hd & Hc); [by intros ?; split|];
         exists p; rewrite Hs, Hd; split_and!; try done; destruct Hm as [Hm|(Hcl & Hm)]; [by left|right; split; [by apply Hc|done]]).
  - destruct (step_hand _ _ _ H) as (m & Hj & _ & ->). destruct (decide (j = i)) as [->|Hne].
    2: { by destruct (Ho _ _ Hj Hne). }
    simplify_eq. eapply sending_move; [done|done|done|]. cbn. destruct Hm as [<-|(_ & _ & Hm)].
    + left. by rewrite <- app_assoc.
    + by destruct (Hm m).
  - destruct (step_check _ _ _ H) as (id & data & Hj & ->). destruct (decide (j = i)) as [->|Hne].
    2: { by destruct (Ho _ _ Hj Hne). }
    simplify_eq. eapply sending_move; [done|done|done|]. cbn. destruct (isClosed k) eqn:Hc; cbn.
    + right. split_and!; [done| |done]. destruct Hm as [<-|(_ & Hm & _)]; [by eexists|done].
    + left. destruct Hm as [Hm|(? & _)]; [done|congruence].
Qed.

Lemma step_asks a s c k k' ms : Connection.step a k = Some k' → asks s c ms k → asks s c ms k'.
Proof using.
  intros H [[Hn Hr]|(g & i & l & Hg & Hs)]; [left; split; [done|by eapply step_resting]|].
  right. exists g, i, l. split; [done|by eapply step_sending].
Qed.

(** A call that is back leaves the rest to be sent. *)
Lemma sending_back k ms i l e : sending_at ms i l k → senders k !! i = Some (MRet e) → resting ms l k.
Proof using.
  intros (p & Hi & Ho & Hm) He. simplify_eq. split.
  - intros j q Hj. destruct (decide (j = i)) as [->|Hne]; [simplify_eq; by eexists|by eapply Ho].
  - destruct Hm as [Hm|(Hc & Hm & _)]; [by left|by right].
Qed.

Lemma resting_more k ms l : resting ms [] k → resting (ms ++ messages l) l k.
Proof using.
  intros [Hr Hh]. split; [done|]. destruct Hh as [Hh|[Hc Hh]]; [left|right; split; [done|by apply prefix_app_r]].
  cbn in Hh. rewrite app_nil_r in Hh. by rewrite Hh.
Qed.

(** The next call of [SendMsg]. *)
Lemma resting_send k ms id data l : resting ms ((id, data) :: l) k →
  sending_at ms (length (senders k)) l (add_sender id data k).
Proof using.
  intros [Hr Hh]. exists (MCheck id data). cbn. split_and!.
  - by rewrite lookup_app_r, Nat.sub_diag.
  - intros j q Hj Hne. apply lookup_app_Some in Hj as [Hj|[Hle Hj]]; [by eapply Hr|].
    apply list_lookup_singleton_Some in Hj as [Hj _]. lia.
  - destruct Hh as [Hh|[Hc Hh]]; [by left|by right].
Qed.

(** ** The whole server *)

Lemma pool_ok_step h s s' a : pool_ok h s → calm (epool s) = true →
  MsgHandler.step cap a (epool s) = Some (epool s') → calls s' = calls s →
  (∀ t r, rdrs (epool s') !! t = Some r →
     seen r = mkRequest (connID r) <$> dispatched (conns s' (connID r))) → pool_ok h s'.
Proof using.
  intros [Hi Ha Hw Hs Hr Hc] Hcalm H Hcalls Hr'. destruct (step_const _ _ _ _ H) as (Ha' & Hw' & _). split.
  - by eapply pool_step_inv.
  - by rewrite Ha'.
  - by rewrite Hw'.
  - by eapply step_staffed.
  - done.
  - intros g x Hg. rewrite Hcalls in Hg. eapply step_serves; [done|done|by apply Hc].
Qed.

Lemma conn_ok_ext s s' c : conns s' c = conns s c → calls s' = calls s → asked c s' = asked c s →
  conn_ok s c → conn_ok s' c.
Proof using. intros Hk Hc Ha. unfold conn_ok, asks. by rewrite Hk, Hc, Ha. Qed.

Lemma set_conn_eq c k s : conns (set_conn c k s) c = k.
Proof using. cbn. by rewrite decide_True. Qed.

Lemma set_conn_ne c c' k s : c' ≠ c → conns (set_conn c k s) c' = conns s c'.
Proof using. intros Hne. cbn. by rewrite decide_False. Qed.

(** A step of a goroutine of one connection. *)
Lemma conn_ok_step s c a k c' : conn_ok s c' → Connection.step a (conns s c) = Some k → conn_ok (set_conn c k s) c'.
Proof using.
  intros Hok H. destruct (decide (c' = c)) as [->|Hne].
  - destruct Hok as (Hw & Hs & Ha). unfold conn_ok. rewrite set_conn_eq. split_and!.
    + by eapply step_wire.
    + by eapply step_sound.
    + by eapply step_asks.
  - apply (conn_ok_ext s); [by apply set_conn_ne|done|done|done].
Qed.

Lemma econn_inv h s c a k : einv h s → Connection.step a (conns s c) = Some k →
  (∀ m, a ≠ AUnpack (inl m)) → einv h (set_conn c k s).
Proof using.
  intros [[Hi Ha Hw Hs Hr Hc] Hk] H Hne. split; [|intros c'; by eapply conn_ok_step].
  split; try done. intros t r Ht. rewrite (Hr t r Ht). destruct (decide (connID r = c)) as [<-|Hx].
  - rewrite set_conn_eq, (step_dispatched _ _ _ H). destruct a as [[m|e]| | | | | | | | |]; try done. by destruct (Hne m).
  - by rewrite set_conn_ne.
Qed.

Lemma epool_inv h s a p : einv h s → calm (epool s) = true → MsgHandler.step cap a (epool s) = Some p →
  (∀ t m, a ≠ ARead t m) → (∀ g, a ≠ AExec g) → einv h (set_pool p s).
Proof using.
  intros [Hp Hk] Hcalm H Hnr Hne. split.
  - eapply pool_ok_step; [done|done|exact H|done|]. cbn. intros t r Ht.
    destruct (lookup_lt_is_Some_2 (rdrs (epool s)) t) as [r0 Hr0].
    { destruct (step_const _ _ _ _ H) as (_ & _ & Hc). apply (f_equal length) in Hc. rewrite !length_fmap in Hc.
      rewrite <- Hc. by eapply lookup_lt_Some. }
    destruct (step_seen _ _ _ _ _ H Hnr Hr0) as (r' & Hr' & Hid & Hsn). simplify_eq.
    rewrite Hsn, Hid. by apply (po_read _ _ Hp t).
  - intros c. apply (conn_ok_ext s); [done|done| |done]. unfold asked. cbn. by rewrite (step_log _ _ _ H Hne).
Qed.

Lemma eread_inv h s t m r p k : einv h s → calm (epool s) = true → rdrs (epool s) !! t = Some r →
  MsgHandler.step cap (ARead t m) (epool s) = Some p →
  Connection.step (AUnpack (inl m)) (conns s (connID r)) = Some k →
  einv h (set_conn (connID r) k (set_pool p s)).
Proof using.
  intros [Hp Hk] Hcalm Hr H Hst. destruct (step_read _ _ _ _ H) as (r0 & q & Hr0 & Hlog & Hrs).
  assert (r0 = r) as -> by congruence. split.
  - eapply pool_ok_step; [done|done|exact H|done|]. intros u x Hu. cbn [epool set_conn set_pool] in Hu.
    rewrite Hrs, (lookup_set _ _ _ _ _ Hr) in Hu. case_decide; [subst|].
    + injection Hu as <-. cbn [connID seen]. rewrite set_conn_eq, (step_dispatched _ _ _ Hst), fmap_app.
      by rewrite (po_read _ _ Hp u r).
    + rewrite set_conn_ne; [by apply (po_read _ _ Hp u)|]. intros Hid.
      pose proof (inv_cids _ (po_pool _ _ Hp)) as Hnd. eapply H0, NoDup_lookup; [exact Hnd| |];
        rewrite list_lookup_fmap; [by rewrite Hr|rewrite Hu; cbn; by rewrite Hid].
  - intros c. eapply conn_ok_step; [|exact Hst]. apply (conn_ok_ext s); [done|done| |done].
    unfold asked. cbn. by rewrite Hlog.
Qed.

(** The method that [g] is in sends the next message, or returns. *)
Lemma send_next_inv h s g c l : pool_ok h s → (∀ c', c' ≠ c → conn_ok s c') →
  wire_inv (conns s c) → sound (conns s c) → resting (asked c s) l (conns s c) → serves g c (epool s) →
  (∀ x, calls s !! g = Some x → to x = c) → einv h (send_next g c l s).
Proof using.
  intros Hp Hk Hw Hs Ha Hg Hx.
  assert (∀ g' x, calls s !! g' = Some x → to x = c → g' = g) as Huniq.
  { intros g' x Hg' <-. eapply serves_unique; [apply Hp|by apply (po_calls _ _ Hp)|done]. }
  assert (∀ s' c', c' ≠ c → conns s' c' = conns s c' → epool s' = epool s →
    (∀ g', g' ≠ g → calls s' !! g' = calls s !! g') → (∀ x, calls s' !! g = Some x → to x = c) → conn_ok s' c') as Hother.
  { intros s' c' Hne Hc He Hcs Hg'. destruct (Hk c' Hne) as (Hw' & Hs' & Ha'). unfold conn_ok, asked.
    rewrite Hc, He. split_and!; try done. destruct Ha' as [[Hn Hr]|(g1 & i & l1 & Hg1 & Hsn)]; [left|right].
    - split; [|done]. intros g1 x H1. destruct (decide (g1 = g)) as [->|Hd].
      + rewrite (Hg' x H1). done.
      + rewrite Hcs in H1 by done. by eapply Hn.
    - exists g1, i, l1. split; [|done]. rewrite Hcs; [done|]. intros ->. apply Hx in Hg1. by cbn in Hg1. }
  destruct l as [|[id data] l]; cbn [send_next].
  - split; [split; try apply Hp; cbn|].
    + intros g' x H. apply lookup_delete_Some in H as [_ H]. by apply (po_calls _ _ Hp).
    + intros c'. destruct (decide (c' = c)) as [->|Hne].
      * unfold conn_ok. cbn. split_and!; try done. left. split; [|done].
        intros g' x H. cbn in H. apply lookup_delete_Some in H as [Hne H]. intros Hto. by apply Hne; symmetry; eapply Huniq.
      * apply Hother; try done; cbn.
        -- intros g' Hne'. by rewrite lookup_delete_ne.
        -- intros x H. by rewrite lookup_delete_eq in H.
  - set (k := add_sender id data (conns s c)). split; [split; try apply Hp|].
    + intros t r Ht. rewrite (po_read _ _ Hp t r Ht). cbn. case_decide as Hcc; [by subst|done].
    + intros g' x H. cbn in H. apply lookup_insert_Some in H as [[<- <-]|[_ H]]; [done|by apply (po_calls _ _ Hp)].
    + intros c'. destruct (decide (c' = c)) as [->|Hne].
      * unfold conn_ok. cbn. rewrite decide_True by done. split_and!; try done. right.
        exists g, (length (senders (conns s c))), l. split; [cbn; by rewrite lookup_insert_eq|by apply resting_send].
      * apply Hother; try done; cbn.
        -- by rewrite decide_False.
        -- intros g' Hne'. by rewrite lookup_insert_ne.
        -- intros x H. rewrite lookup_insert_eq in H. by simplify_eq.
Qed.

Lemma of_conn_one c (ev : event R) :
  of_conn c [ev] = if decide (GetConnection (ev_req ev) = c) then [ev] else [].
Proof using. unfold of_conn. rewrite filter_cons, filter_nil. done. Qed.

Lemma ecall_inv h s g p ev : einv h s → calm (epool s) = true → free s g = true →
  MsgHandler.step cap (AExec g) (epool s) = Some p → next_event g (epool s) = Some ev →
  einv h (send_next g (GetConnection (ev_req ev)) (sends (ev_method ev) (ev_router ev) (ev_req ev)) (set_pool p s)).
Proof using.
  intros [Hp Hk] Hcalm Hf H Hev. apply bool_decide_eq_true in Hf.
  destruct (step_exec _ _ _ H) as (ev' & Hev' & Hlog & Hrs & _). assert (ev' = ev) as -> by congruence.
  pose proof (exec_serves _ _ _ _ (po_pool _ _ Hp) H Hev) as Hg. set (c := GetConnection (ev_req ev)) in *.
  assert (∀ c', asked c' (set_pool p s) = asked c' s ++ if decide (c = c') then replies sends ev else []) as Hasked.
  { intros c'. unfold asked. cbn. rewrite Hlog, of_conn_app, of_conn_one, bind_app. f_equal.
    unfold c. case_decide; [|done]. cbn. by rewrite app_nil_r. }
  apply send_next_inv.
  - eapply pool_ok_step; [done|done|exact H|done|]. cbn. intros t r Ht. rewrite Hrs in Ht. by apply (po_read _ _ Hp t).
  - intros c' Hne. apply (conn_ok_ext s); [done|done| |done].
    by rewrite Hasked, decide_False, app_nil_r.
  - apply (Hk c).
  - apply (Hk c).
  - rewrite Hasked, decide_True by done. apply resting_more. destruct (Hk c) as (_ & _ & [[_ Hr]|(g' & i & l & Hg' & _)]); [done|].
    pose proof (po_calls _ _ Hp _ _ Hg') as Hs'. rewrite (serves_unique _ _ _ _ (po_pool _ _ Hp) Hs' Hg) in Hg'. congruence.
  - cbn. eapply step_serves; [apply Hp|exact H|done].
  - intros x Hx. cbn in Hx. congruence.
Qed.

Lemma enext_inv h s g x e : einv h s → calls s !! g = Some x → senders (conns s (to x)) !! at_ x = Some (MRet e) →
  einv h (send_next g (to x) (later x) s).
Proof using.
  intros [Hp Hk] Hx He. pose proof (po_calls _ _ Hp _ _ Hx) as Hg. apply send_next_inv; try done; try apply (Hk (to x)).
  - destruct (Hk (to x)) as (_ & _ & [[Hn _]|(g' & i & l & Hg' & Hs)]); [by destruct (Hn _ _ Hx)|].
    pose proof (po_calls _ _ Hp _ _ Hg') as Hs'. rewrite (serves_unique _ _ _ _ (po_pool _ _ Hp) Hs' Hg) in Hg'.
    rewrite Hx in Hg'. destruct x as [c j r]. cbn in *. injection Hg' as -> ->. by eapply sending_back.
  - intros y Hy. congruence.
Qed.

Lemma estep_inv h a s s' : einv h s → calm (epool s) = true → estep a s = Some s' → einv h s'.
Proof using.
  intros Hi Hc H. destruct a as [t m|t err|c a|a|g|g]; cbn [estep] in H.
  - destruct (rdrs (epool s) !! t) as [r|] eqn:Hr; [|done]. cbn [mbind option_bind] in H.
    destruct (MsgHandler.step cap (ARead t m) (epool s)) as [p|] eqn:Hst; [|done]. cbn [mbind option_bind] in H.
    destruct (Connection.step _ _) as [k|] eqn:Hk; [|done]. cbn [mbind option_bind] in H. simplify_eq. by eapply eread_inv.
  - destruct (rdrs (epool s) !! t) as [r|] eqn:Hr; [|done]. cbn [mbind option_bind] in H. destruct (rp r); try done.
    destruct (Connection.step _ _) as [k|] eqn:Hk; [|done]. cbn [mbind option_bind] in H. simplify_eq. by eapply econn_inv.
  - assert (∃ k, Connection.step a (conns s c) = Some k ∧ s' = set_conn c k s ∧ ∀ m, a ≠ AUnpack (inl m))
      as (k & Hk & -> & Hne); [|by eapply econn_inv].
    destruct a; try done; destruct (Connection.step _ _) as [k|]; try done; injection H as <-; by exists k.
  - assert (∃ p, MsgHandler.step cap a (epool s) = Some p ∧ s' = set_pool p s ∧ (∀ t m, a ≠ ARead t m) ∧
      ∀ g, a ≠ AExec g) as (p & Hp & -> & Hnr & Hne); [|by eapply epool_inv].
    destruct a; try done; destruct (from_option (free s) true _); try done;
      destruct (MsgHandler.step _ _ _) as [p|]; try done; injection H as <-; by exists p.
  - destruct (free s g) eqn:Hf; [|done].
    destruct (MsgHandler.step cap (AExec g) (epool s)) as [p|] eqn:Hst; [|done]. cbn [mbind option_bind] in H.
    destruct (next_event g (epool s)) as [ev|] eqn:Hev; [|done]. cbn [mbind option_bind] in H. simplify_eq. by eapply ecall_inv.
  - destruct (calls s !! g) as [x|] eqn:Hx; [|done]. cbn [mbind option_bind] in H.
    destruct (senders (conns s (to x)) !! at_ x) as [[| |e]|] eqn:He; try done. cbn [mbind option_bind] in H.
    simplify_eq. by eapply enext_inv.
Qed.

Lemma ecalm_start tr s : ecalm tr s = true → calm (epool s) = true.
Proof using. destruct tr; cbn; intros H; by apply andb_true_iff in H as [? _]. Qed.

Lemma erun_inv h tr s s' : einv h s → ecalm tr s = true → erun tr s = Some s' → einv h s'.
Proof using.
  revert s. induction tr as [|a tr IH]; intros s Hi Hc H; cbn in Hc, H; [by simplify_eq|].
  apply andb_true_iff in Hc as [Hc Hcs]. destruct (estep a s) as [s1|] eqn:E; [|done].
  eapply IH; [by eapply estep_inv|done|done].
Qed.

Lemma open_inv h cids : IsOpen h = true → 0 < WorkerPoolSize h → fresh h → NoDup cids → einv h (open_server h cids).
Proof using.
  intros Ho Hw Hf Hnd. pose proof (pool_started_inv h cids Ho Hw Hf Hnd) as H0. split; [split; try done|].
  - intros w q Hq. cbn in Hq. by rewrite queue_at_fresh in Hq.
  - intros t r Hr. cbn in Hr. apply list_lookup_fmap_Some in Hr as (c & -> & _). done.
  - intros c. split_and!; [done|by split_and!|]. left. split; [done|]. split; [done|]. by left.
Qed.

Lemma estep_pool a s s' : estep a s = Some s' →
  epool s' = epool s ∨ ∃ b, MsgHandler.step cap b (epool s) = Some (epool s').
Proof using.
  assert (∀ g c l s, epool (send_next g c l s) = epool s) as Hn by (by intros g c [|[? ?] ?] ?).
  intros H. destruct a as [t m|t err|c a|a|g|g]; cbn [estep] in H; try destruct a; try done;
    repeat (match type of H with
            | context [mbind _ ?o] => destruct o eqn:?; cbn [mbind option_bind] in H; [|done]
            | context [match ?x with _ => _ end] => destruct x eqn:?; try done
            end); injection H as <-; rewrite ?Hn; solve [by left | right; by eexists].
Qed.

(** With a worker for each connection no two readers start the same one. *)
Lemma distinct_ecalm h tr s : einv h s → NoDup (wid h <$> (connID <$> rdrs (epool s))) → ecalm tr s = true.
Proof using.
  revert s. induction tr as [|a tr IH]; intros s Hi Hnd; cbn;
    (assert (calm (epool s) = true) as Hc; [apply NoDup_initialising; [apply Hi|]; unfold wid in *; by rewrite (po_size _ _ (proj1 Hi))|]);
    rewrite Hc; [done|]. cbn. destruct (estep a s) as [s'|] eqn:E; [|done]. apply IH; [by eapply estep_inv|].
  destruct (estep_pool _ _ _ E) as [->|[b Hb]]; [done|]. by destruct (step_const _ _ _ _ Hb) as (_ & _ & ->).
Qed.

Lemma reachable_inv h cids tr s : IsOpen h = true → 0 < WorkerPoolSize h → fresh h → NoDup cids →
  ecalm tr (open_server h cids) = true ∨ NoDup (wid h <$> cids) → erun tr (open_server h cids) = Some s → einv h s.
Proof using.
  intros Ho Hw Hf Hnd Hc Hr. pose proof (open_inv h cids Ho Hw Hf Hnd) as H0. eapply erun_inv; [done| |done].
  destruct Hc as [?|Hd]; [done|]. eapply distinct_ecalm; [done|]. cbn.
  rewrite <- (list_fmap_compose _ connID). cbn. by rewrite list_fmap_id.
Qed.

Lemma asks_prefix s c ms k : asks s c ms k → handed k `prefix_of` ms.
Proof using.
  intros [[_ [_ [H|[_ H]]]]|(g & i & l & _ & p & _ & _ & [H|(_ & H & _)])]; try done; rewrite <- H; by apply prefix_app_r.
Qed.

Lemma wire_prefix k : wire_inv k → wire k `prefix_of` packs (handed k).
Proof using.
  unfold wire_inv. destruct (writer k); intros H.
  - by rewrite H.
  - destruct H as (ms & m & -> & _ & ->). rewrite packs_app. by apply prefix_app_r.
  - destruct H as [->|(ms & m & n & -> & ->)]; [done|]. rewrite packs_app, packs_one. apply prefix_app, prefix_take.
Qed.

Lemma asked_answers h s t r : einv h s → rdrs (epool s) !! t = Some r →
  asked (connID r) s `prefix_of` answers sends h (connID r) (dispatched (conns s (connID r))).
Proof using.
  intros [Hp _] Hr. eapply sent_answers; [apply Hp|by rewrite (po_apis _ _ Hp)|done|]. by apply (po_read _ _ Hp t).
Qed.

(** ** A server that cannot go on *)





(** ** A worker that waits for ever *)

(** The goroutine [g] is in a call of [SendMsg] that no writer will take. *)
Definition stuck (g : nat) (c : Z) (i : nat) (m : Message) (s : esys) : Prop :=
  (∃ l, calls s !! g = Some (mkSending c i l)) ∧ writer (conns s c) = WDone ∧
  senders (conns s c) !! i = Some (MSend m).

Lemma stuck_conn g c i m s c' a k : stuck g c i m s → Connection.step a (conns s c') = Some k →
  stuck g c i m (set_conn c' k s).
Proof using.
  intros (Hg & Hw & Hi) H. unfold stuck. destruct (decide (c = c')) as [<-|Hne].
  - rewrite set_conn_eq. destruct (step_blocked _ _ _ _ _ Hw Hi H). by split_and!.
  - by rewrite set_conn_ne.
Qed.

Lemma stuck_send_next g c i m s g' c' l : stuck g c i m s → g' ≠ g → stuck g c i m (send_next g' c' l s).
Proof using.
  intros ((l0 & Hg) & Hw & Hi) Hne. unfold stuck. destruct l as [|[id data] l]; cbn [send_next].
  - split_and!; try done. exists l0. cbn. by rewrite lookup_delete_ne.
  - split; [exists l0; cbn; by rewrite lookup_insert_ne|]. cbn. case_decide; [subst|done].
    split; [done|]. cbn. by rewrite lookup_app_l_Some with (x := MSend m).
Qed.

Lemma estep_stuck h g c i m a s s' c' : einv h s → stuck g c i m s → estep a s = Some s' →
  wid h c' = wid h c → stuck g c i m s' ∧ of_conn c' (log (epool s')) = of_conn c' (log (epool s)).
Proof using.
  intros [Hp Hk] Hst H Hwid. destruct a as [t msg|t err|x a|a|g'|g']; cbn [estep] in H.
  - destruct (rdrs (epool s) !! t) as [r|]; [|done]. cbn [mbind option_bind] in H.
    destruct (MsgHandler.step cap (ARead t msg) (epool s)) as [p|] eqn:E; [|done]. cbn [mbind option_bind] in H.
    destruct (Connection.step _ _) as [k|] eqn:Ek; [|done]. cbn [mbind option_bind] in H. injection H as <-.
    split; [by eapply (stuck_conn _ _ _ _ (set_pool p s))|]. cbn. by rewrite (step_log _ _ _ E).
  - destruct (rdrs (epool s) !! t) as [r|]; [|done]. cbn [mbind option_bind] in H. destruct (rp r); try done.
    destruct (Connection.step _ _) as [k|] eqn:Ek; [|done]. cbn [mbind option_bind] in H. injection H as <-.
    split; [by eapply stuck_conn|done].
  - destruct a; try done; destruct (Connection.step _ _) as [k|] eqn:Ek; try done; injection H as <-;
      (split; [by eapply stuck_conn|done]).
  - destruct a; try done; destruct (from_option (free s) true _); try done;
      destruct (MsgHandler.step _ _ _) as [p|] eqn:E; try done; injection H as <-;
      (split; [done|]); cbn; by rewrite (step_log _ _ _ E).
  - destruct (free s g') eqn:Hf; [|done]. apply bool_decide_eq_true in Hf.
    destruct (MsgHandler.step cap (AExec g') (epool s)) as [p|] eqn:E; [|done]. cbn [mbind option_bind] in H.
    destruct (next_event g' (epool s)) as [ev|] eqn:Hev; [|done]. cbn [mbind option_bind] in H. injection H as <-.
    pose proof Hst as ((l & Hg) & _). split.
    + apply stuck_send_next; [done|]. intros ->. congruence.
    + destruct (step_exec _ _ _ E) as (ev' & Hev' & Hlog & _). assert (ev' = ev) as -> by congruence.
      replace (epool (send_next _ _ _ _)) with p by (by destruct (sends _ _ _) as [|[? ?] ?]).
      rewrite Hlog, of_conn_app, of_conn_one, decide_False; [apply app_nil_r|]. intros <-.
      destruct (exec_serves _ _ _ _ (po_pool _ _ Hp) E Hev) as (q & wk & Hq & Hgk).
      assert (g' = g) as ->; [|congruence].
      eapply serves_unique; [apply Hp| |apply (po_calls _ _ Hp _ _ Hg)]. exists q, wk. split; [|done].
      cbn. unfold wid in *. rewrite (po_size _ _ Hp) in *. by rewrite <- Hwid.
  - destruct (decide (g' = g)) as [->|Hne].
    + destruct Hst as ((l & Hg) & _ & Hi). rewrite Hg in H. cbn in H. by rewrite Hi in H.
    + destruct (calls s !! g') as [x|]; [|done]. cbn [mbind option_bind] in H.
      destruct (senders (conns s (to x)) !! at_ x) as [[| |e]|]; try done. cbn [mbind option_bind] in H. injection H as <-.
      split; [by apply stuck_send_next|]. by destruct (later x) as [|[? ?] ?].
Qed.

Lemma erun_stuck h g c i m tr s s' c' : einv h s → ecalm tr s = true → stuck g c i m s → erun tr s = Some s' →
  wid h c' = wid h c → stuck g c i m s' ∧ of_conn c' (log (epool s')) = of_conn c' (log (epool s)).
Proof using.
  revert s. induction tr as [|a tr IH]; intros s Hi Hc Hs H Hw; cbn in H, Hc; [by simplify_eq|].
  apply andb_true_iff in Hc as [Hc Hcs]. destruct (estep a s) as [s1|] eqn:E; [|done].
  destruct (estep_stuck _ _ _ _ _ _ _ _ c' Hi Hs E Hw) as [Hs1 <-]. apply IH; try done. by eapply estep_inv.
Qed.

(** A [SendMsg] before the hand-over is the call that some goroutine is in. *)
Lemma msend_busy h s c i m : einv h s → senders (conns s c) !! i = Some (MSend m) →
  ∃ g l, calls s !! g = Some (mkSending c i l).
Proof using.
  intros [_ Hk] Hi. destruct (Hk c) as (_ & _ & [[_ [Hr _]]|(g & j & l & Hg & p & Hj & Ho & _)]).
  - by destruct (Hr _ _ Hi).
  - destruct (decide (i = j)) as [->|Hne]; [by exists g, l|]. by destruct (Ho _ _ Hi Hne).
Qed.

(** ** Properties *)

Context (h : MsgHandle R) (cids : list Z) (tr : list eaction) (s : esys).
(** A started server, in which workers are started one by one. *)
Context (Hopen : IsOpen h = true) (Hsize : 0 < WorkerPoolSize h) (Hfresh : fresh h) (Hcids : NoDup cids).
Context (Hcalm : ecalm tr (open_server h cids) = true ∨ NoDup (wid h <$> cids)).

(** C6: a connection carries the answers to its own messages, however it and
    the others end: whatever errors reads and writes return and however all
    goroutines interleave, no reader panics, the writer of a connection has
    been handed the first of the answers to the messages that have arrived on
    it, in order, and the bytes on its socket are the first of theirs.

    Required, here and for the next two theorems: the pool is open and fresh,
    the connections have different identifiers, and no two readers race to
    start the same worker at any moment of the run, as is the case when the
    connections have different workers.  With such a race two workers take
    from one channel, and the order is lost ([MsgHandler.race_reorders]). *)
Theorem wire_carries_answers (Hrun : erun tr (open_server h cids) = Some s) t r :
  rdrs (epool s) !! t = Some r →
  rp r ≠ MsgHandler.RPanic ∧ Connection.reader (conns s (connID r)) ≠ Connection.RPanic ∧
  handed (conns s (connID r)) `prefix_of` answers sends h (connID r) (dispatched (conns s (connID r))) ∧
  wire (conns s (connID r)) `prefix_of` packs (handed (conns s (connID r))).
Proof using Hopen Hsize Hfresh Hcids Hcalm.
  intros Hr. assert (einv h s) as Hi by by eapply reachable_inv. pose proof Hi as [Hp Hk].
  destruct (Hk (connID r)) as (Hw & (_ & Hpanic & _) & Ha). split_and!.
  - intros Hrp. pose proof (inv_pc _ (po_pool _ _ Hp) _ _ Hr) as Hok. unfold pc_ok in Hok. by rewrite Hrp in Hok.
  - done.
  - etrans; [by eapply asks_prefix|by eapply asked_answers].
  - by apply wire_prefix.
Qed.


(** C39: a connection that ends while a router sends on it takes its worker
    along: once the writer has ended with a message still to be handed over,
    that message waits for ever, and no message of any connection with the same
    worker is handled any more, as long as no two readers race to start a
    worker, before or after (a second worker of the same channel would handle
    some of them). *)
Theorem ended_connection_starves (Hrun : erun tr (open_server h cids) = Some s)
  c i m tr' s' c' : writer (conns s c) = WDone →
  senders (conns s c) !! i = Some (MSend m) → ecalm tr' s = true → erun tr' s = Some s' → wid h c' = wid h c →
  senders (conns s' c) !! i = Some (MSend m) ∧ of_conn c' (log (epool s')) = of_conn c' (log (epool s)).
Proof using Hopen Hsize Hfresh Hcids Hcalm.
  intros Hw Hi Hc Hr Hwid. assert (einv h s) as He by by eapply reachable_inv.
  destruct (msend_busy h s c i m He Hi) as (g & l & Hg).
  destruct (erun_stuck h g c i m tr' s s' c' He Hc) as [(_ & _ & Hi') Hlog]; [split; [by exists l|done]|done|done|done].
Qed.
End ZinxEnds.

(** ** Witnesses *)

Definition ping : Message := NewMsgPackage 0 [].

Definition demo_handler : MsgHandle router :=
  StartWorkerPool (match AddRouter 0 PingRouter (mkMsgHandle ∅ 2 [None; None] false) with
                   | Ret h => h
                   | _ => mkMsgHandle ∅ 2 [None; None] false
                   end).

(** The client of connection 0 sends a message and disconnects at once: the
    writer ends while the router is in SendMsg.  Connection 2 has the same
    worker, connection 1 has the other one. *)
Definition demo_trace : list eaction :=
  [ERead 0 ping; EPool (ACheck 0); EPool (AMake 0); EPool (AGo 0); EPool (ASend 0); EPool (ARecv 0);
   ECall 0; ECall 0; EConn 0 (Connection.ACheck 0);
   EFail 0 EOF; EConn 0 AReport; EConn 0 AWriterExit; EConn 0 AReaderStop; EConn 0 AReaderStop;
   EConn 0 AStarterExit;
   ERead 2 ping; EPool (ACheck 2); EPool (ASend 2);
   ERead 1 ping; EPool (ACheck 1); EPool (AMake 1); EPool (AGo 1); EPool (ASend 1); EPool (ARecv 1);
   ECall 1; ECall 1; EConn 1 (Connection.ACheck 0); EConn 1 (AHand 0); EConn 1 (AWrite None); ENext 1; ECall 1].

Abbreviation demo_run := (erun demo_sends 1024 demo_trace (open_server demo_handler [0; 1; 2])).

Definition pong_bytes : list Z := (Pack pong).1.

(** The answer of connection 1 is on its socket; the message of connection 2
    is not handled, and the answer of connection 0 waits for its writer. *)
Example demo_wires :
  (λ s, ((λ c, wire (conns s c)) <$> [0; 1; 2], (λ c, length (of_conn c (log (epool s)))) <$> [0; 1; 2],
         senders (conns s 0))) <$> demo_run =
  Some ([[]; pong_bytes; []], [2; 3; 0]%nat, [MSend pong]).
Proof. vm_compute. reflexivity. Qed.

(** A message that is too long has the same effect on a connection that stays
    open: the reader reports the error, the writer takes the report for the end
    and is gone, and the answer to the next message waits for ever. *)
Definition long_trace : list eaction :=
  [EFail 0 "too large msg data recieved"; EConn 0 AReport; EConn 0 AWriterExit; ERead 0 ping; EPool (ACheck 0);
   EPool (AMake 0); EPool (AGo 0); EPool (ASend 0); EPool (ARecv 0); ECall 0; ECall 0; EConn 0 (Connection.ACheck 0)].

Example long_message_ends_writer :
  (λ s, (isClosed (conns s 0), Connection.reader (conns s 0), writer (conns s 0), senders (conns s 0))) <$>
    erun demo_sends 1024 long_trace (open_server demo_handler [0; 1; 2]) =
  Some (false, RUnpack, WDone, [MSend pong]).
Proof. vm_compute. reflexivity. Qed.

Lemma demo_calm : ecalm demo_sends 1024 demo_trace (open_server demo_handler [0; 1; 2]) = true.
Proof. vm_compute. reflexivity. Qed.

Lemma demo_ids : NoDup [0; 1; 2].
Proof. apply (bool_decide_unpack _). vm_compute. exact I. Qed.

Lemma wire_carries_answers_witness : ∃ s r, demo_run = Some s ∧ rdrs (epool s) !! 1%nat = Some r ∧ connID r = 1 ∧
  handed (conns s 1) `prefix_of` answers demo_sends demo_handler 1 (dispatched (conns s 1)) ∧
  wire (conns s 1) `prefix_of` packs (handed (conns s 1)).
Proof.
  assert ((λ s, rdrs (epool s) !! 1%nat) <$> demo_run = Some (Some (mkRdr 1 RRead [mkRequest 1 ping]))) as H
    by (vm_compute; reflexivity).
  destruct demo_run as [s|] eqn:Hr; [|discriminate H]. cbn in H. injection H as H.
  exists s, (mkRdr 1 RRead [mkRequest 1 ping]). split; [reflexivity|]. split; [exact H|]. split; [reflexivity|].
  exact (proj2 (proj2 (wire_carries_answers demo_sends 1024 demo_handler [0; 1; 2] demo_trace s eq_refl eq_refl eq_refl
    demo_ids (or_introl demo_calm) Hr 1 _ H))).
Defined.

(** Connection 2 starves: here it is still quiet that its message arrived. *)
Definition demo_cut : nat := 15.

Lemma ended_connection_starves_witness : ∃ s s',
  erun demo_sends 1024 (take demo_cut demo_trace) (open_server demo_handler [0; 1; 2]) = Some s ∧
  erun demo_sends 1024 (drop demo_cut demo_trace) s = Some s' ∧
  map (length ∘ seen) (rdrs (epool s')) = [1; 1; 1]%nat ∧
  of_conn 2 (log (epool s')) = of_conn 2 (log (epool s)).
Proof.
  set (s0 := open_server demo_handler [0; 1; 2]).
  assert ((λ s, (writer (conns s 0), senders (conns s 0) !! 0%nat, ecalm demo_sends 1024 (drop demo_cut demo_trace) s)) <$>
    erun demo_sends 1024 (take demo_cut demo_trace) s0 = Some (WDone, Some (MSend pong), true) ∧
    (s ← erun demo_sends 1024 (take demo_cut demo_trace) s0; s' ← erun demo_sends 1024 (drop demo_cut demo_trace) s;
     Some (map (length ∘ seen) (rdrs (epool s')))) = Some [1; 1; 1]%nat ∧
    ecalm demo_sends 1024 (take demo_cut demo_trace) s0 = true)
    as (H & H' & Hc) by (vm_compute; split_and!; reflexivity).
  destruct (erun demo_sends 1024 (take demo_cut demo_trace) s0) as [s|] eqn:Hr; [|discriminate H]. cbn in H.
  injection H as Hw Hs Hcs. cbn [mbind option_bind] in H'.
  destruct (erun demo_sends 1024 (drop demo_cut demo_trace) s) as [s'|] eqn:Hr'; [|discriminate H'].
  injection H' as H'. exists s, s'. split; [reflexivity|]. split; [exact Hr'|]. split; [exact H'|].
  exact (proj2 (ended_connection_starves demo_sends 1024 demo_handler [0; 1; 2] (take demo_cut demo_trace) s eq_refl eq_refl
    eq_refl demo_ids (or_introl Hc) Hr 0 0 pong (drop demo_cut demo_trace) s' 2 Hw Hs Hcs Hr' eq_refl)).
Defined.

(** ** A state in which nothing can go on *)











