(* ===== verification/Debug.v ===== *)
(** * geerpc: the debug page

    Models [src/geerpc/debug.go]: the page that lists the services of a server
    with their methods and the number of calls of each.  [html/template] is
    part of the language's library: what it does with this template is the
    sequence of writes of its text and of its values, which it escapes for
    HTML, with a map visited in the order of its keys.  The text of a reflected
    type is a parameter, and so is the response it is written to. *)

From S2P Require Import Prelude GoStrings Service Server.

#[local] Open Scope string_scope.

(** ** html/template *)

(** The text that stands for a byte in HTML text; that of the byte 0 is the
    replacement character. *)
Definition html_replacement (a : ascii) : string :=
  match a with
  | "000"%char => bytes_str [239; 191; 189]%Z
  | "034"%char => "&#34;"
  | "&"%char => "&amp;"
  | "'"%char => "&#39;"
  | "+"%char => "&#43;"
  | "<"%char => "&lt;"
  | ">"%char => "&gt;"
  | a => String a ""
  end.

Fixpoint html_escape (s : string) : string :=
  match s with
  | "" => ""
  | String a s => html_replacement a ++ html_escape s
  end.

(** A map in the order of its keys. *)
Definition in_key_order {A} (m : gmap string A) : list (string * A) :=
  omap (λ k, (k,.) <$> m !! k) (merge_sort String.le (map_to_list m).*1).

Section Debug.
Context (type_String : rtype → string).
(** The response: what a write leaves of it, and its error. *)
Context {W : Type} (Write : string → W → error * W).

(** ** debug.go *)

Record debugService := mkDebugService { Name : string; Method : gmap string methodType }.

(** The texts and values of the inner range of [debugText] for one method. *)
Definition method_nodes '(name, mtype) : list string :=
  ["
			<tr>
			<td align=left font=fixed>"; html_escape name; "("; html_escape (type_String (ArgType mtype)); ", ";
   html_escape (type_String (ReplyType mtype)); ") error</td>
			<td align=center>"; html_escape (pretty (NumCalls mtype)); "</td>
			</tr>
		"].

Definition service_nodes (s : debugService) : list string :=
  ["
	<hr>
	Service "; html_escape (Name s); "
	<hr>
		<table>
		<th align=center>Method</th><th align=center>Calls</th>
		"] ++ (in_key_order (Method s) ≫= method_nodes) ++ ["
		</table>
	"].

Definition debugText (services : list debugService) : list string :=
  ["<html>
	<body>
	<title>GeeRPC Services</title>
	"] ++ (services ≫= service_nodes) ++ ["
	</body>
	</html>"].

(** The writes of [debug.Execute], up to the first that fails. *)
Fixpoint Execute (nodes : list string) (w : W) : error * W :=
  match nodes with
  | [] => (None, w)
  | node :: nodes =>
      match Write node w with
      | (None, w) => Execute nodes w
      | (Some err, w) => (Some err, w)
      end
  end.

(** [iter] is the order in which [Range] visits the services; the counters are
    those of one moment. *)
Definition ServeHTTP (iter : list (string * service) → list (string * service)) (server : Server) (w : W) : W :=
  let services := (λ '(namei, svc), mkDebugService namei (methods svc)) <$> iter (map_to_list (serviceMap server)) in
  match Execute (debugText services) w with
  | (None, w) => w
  | (Some err, w) => (Write ("rpc: error executing template: " ++ err ++ "
") w).2
  end.

(** ** Specification *)

(** What a reader of the page sees in a piece of it that begins behind a [<]. *)
Inductive cell := CService (name : string) | CMethod (signature : string) | CCalls (n : string).

Definition drop_end (n : nat) (s : string) : string := String.substring 0 (String.length s - n) s.

Fixpoint first_some {A} (l : list (option A)) : option A :=
  match l with [] => None | Some x :: _ => Some x | None :: l => first_some l end.

(** The text of escaped text. *)
Definition entities : list (string * ascii) :=
  [("&#34;", "034"%char); ("&amp;", "&"%char); ("&#39;", "'"%char); ("&#43;", "+"%char);
   ("&lt;", "<"%char); ("&gt;", ">"%char)].

Fixpoint unescape (fuel : nat) (s : string) : string :=
  match fuel, s with
  | S fuel, String a r =>
      match first_some ((λ '(e, c), (c,.) <$> strip_prefix e s) <$> entities) with
      | Some (c, r) => String c (unescape fuel r)
      | None => String a (unescape fuel r)
      end
  | _, _ => ""
  end.

Definition text (s : string) : string := unescape (String.length s) s.

Definition cell_of (s : string) : option cell :=
  first_some
    [(λ r, CService (text (drop_end 2 r))) <$> strip_prefix "hr>
	Service " s;
     (λ r, CMethod (text r)) <$> strip_prefix "td align=left font=fixed>" s;
     (λ r, CCalls (text r)) <$> strip_prefix "td align=center>" s].

Definition cells (page : string) : list cell := omap cell_of (tail (Split "<"%char page)).

(** What the page should show of a service. *)
Definition shown_method '(name, mtype) : list cell :=
  [CMethod (name ++ "(" ++ type_String (ArgType mtype) ++ ", " ++ type_String (ReplyType mtype) ++ ") error");
   CCalls (pretty (numCalls mtype))].

Definition shown '(name, svc) : list cell :=
  CService name :: (in_key_order (methods svc) ≫= shown_method).

Definition no_nul (s : string) : Prop := contains "000"%char s = false.

Definition printable_method (m : string) (mt : methodType) : Prop :=
  no_nul m ∧ no_nul (type_String (ArgType mt)) ∧ no_nul (type_String (ReplyType mt)).

Definition printable (server : Server) : Prop :=
  ∀ name svc, serviceMap server !! name = Some svc →
    no_nul name ∧ ∀ m mt, methods svc !! m = Some mt → printable_method m mt.
End Debug.

(** ** Escaping *)

(** Lemmas on one byte are checked for each. *)
Ltac all_bytes a := destruct a as [b0 b1 b2 b3 b4 b5 b6 b7]; destruct b0, b1, b2, b3, b4, b5, b6, b7.

Lemma html_replacement_lt a : contains "<"%char (html_replacement a) = false.
Proof. all_bytes a; reflexivity. Qed.

Lemma html_escape_lt s : contains "<"%char (html_escape s) = false.
Proof. induction s as [|a s IH]; [done|]. cbn. by rewrite contains_app, html_replacement_lt. Qed.

Lemma html_escape_app x y : html_escape (x ++ y) = html_escape x ++ html_escape y.
Proof. induction x as [|a x IH]; [done|]. rewrite app_cons. cbn. by rewrite IH, str_assoc. Qed.

Lemma html_replacement_ne a : html_replacement a ≠ "".
Proof. all_bytes a; discriminate. Qed.

Lemma unescape_replacement a n r : a ≠ "000"%char →
  unescape (S n) (html_replacement a ++ r) = String a (unescape n r).
Proof. all_bytes a; first [reflexivity | intros H; by destruct H]. Qed.

Lemma unescape_escape s n : no_nul s → (String.length (html_escape s) ≤ n)%nat →
  unescape n (html_escape s) = s.
Proof.
  unfold no_nul. revert n. induction s as [|a s IH]; intros n Hs Hn; [by destruct n|].
  cbn in Hs, Hn. apply orb_false_iff in Hs as [Ha%Ascii.eqb_neq Hs].
  rewrite str_length in Hn. pose proof (html_replacement_ne a) as Hne.
  assert (0 < String.length (html_replacement a))%nat by (destruct (html_replacement a); [done|cbn; lia]).
  destruct n as [|n]; [lia|]. cbn [html_escape]. rewrite unescape_replacement by done.
  rewrite IH; [done|done|lia].
Qed.

Lemma text_escape s : no_nul s → text (html_escape s) = s.
Proof. intros Hs. by apply unescape_escape. Qed.

Lemma no_nul_app x y : no_nul x → no_nul y → no_nul (x ++ y).
Proof. unfold no_nul. rewrite contains_app. by intros -> ->. Qed.

Lemma no_nul_pretty (z : Z) : no_nul (pretty z).
Proof.
  assert (∀ x s, no_nul s → no_nul (pretty_N_go x s)) as Hgo.
  { intros x. induction (N.lt_wf_0 x) as [x _ IH]; intros s Hs.
    assert (x = 0 ∨ 0 < x)%N as [->|?] by lia; [done|].
    rewrite pretty_N_go_step by done. apply IH; [by apply N.div_lt|].
    unfold no_nul. cbn [contains]. rewrite Hs, orb_false_r. unfold pretty_N_char. by repeat case_match. }
  assert (∀ p, no_nul (pretty (Npos p))) as Hp by (intros p; by apply (Hgo (Npos p) "")).
  destruct z as [|p|p]; [done|apply Hp|]. exact (Hp p).
Qed.

(** ** Reading a page *)

Lemma tail_Split_app sep x s : contains sep x = false → tail (Split sep (x ++ s)) = tail (Split sep s).
Proof.
  induction x as [|a x IH]; [done|]. rewrite app_cons. cbn. intros [Ha Hx]%orb_false_iff.
  rewrite Ha, <- IH by done. by destruct (Split sep (x ++ s)).
Qed.

Lemma cells_text x s : contains "<"%char x = false → cells (x ++ s) = cells s.
Proof. intros Hx. unfold cells. by rewrite tail_Split_app. Qed.

(** A tag that shows something, and one that does not. *)
Lemma cells_cell x c s : contains "<"%char x = false → cell_of x = Some c →
  cells (String "<" (x ++ String "<" s)) = c :: cells (String "<" s).
Proof.
  intros Hx Hc. unfold cells. cbn [Split tail Ascii.eqb Bool.eqb]. rewrite Split_app by done.
  cbn [omap list_omap]. by rewrite Hc.
Qed.

Lemma cells_skip x s : contains "<"%char x = false → (∀ y, cell_of (x ++ y) = None) →
  cells (String "<" (x ++ s)) = cells s.
Proof.
  intros Hx Hc. unfold cells. cbn [Split tail Ascii.eqb Bool.eqb]. rewrite Split_app_text by done.
  destruct (Split "<"%char s) as [|h t]; [done|]. cbn [omap list_omap tail]. by rewrite Hc.
Qed.

Section Page.
Context (type_String : rtype → string).

Definition join (nodes : list string) : string := foldr String.append "" nodes.

Lemma join_app x y : join (app x y) = join x ++ join y.
Proof using.
  induction x as [|a x IH]; [done|]. change (a ++ join (app x y) = (a ++ join x) ++ join y).
  by rewrite IH, str_assoc.
Qed.

Lemma cell_of_method s : no_nul s → cell_of ("td align=left font=fixed>" ++ html_escape s) = Some (CMethod s).
Proof using. intros Hs. change (Some (CMethod (text (html_escape s))) = Some (CMethod s)). by rewrite text_escape. Qed.

Lemma cell_of_calls s : no_nul s → cell_of ("td align=center>" ++ html_escape s) = Some (CCalls s).
Proof using. intros Hs. change (Some (CCalls (text (html_escape s))) = Some (CCalls s)). by rewrite text_escape. Qed.

Lemma method_cells name mt r : printable_method type_String name mt →
  cells (join (method_nodes type_String (name, mt)) ++ r) = app (shown_method type_String (name, mt)) (cells r).
Proof using.
  intros (Hn & Ha & Hr). set (sig := name ++ "(" ++ type_String (ArgType mt) ++ ", " ++ type_String (ReplyType mt) ++ ") error").
  assert (join (method_nodes type_String (name, mt)) ++ r = "
			" ++ String "<" ("tr>
			" ++ String "<" (("td align=left font=fixed>" ++ html_escape sig) ++ String "<" ("/td>
			" ++ String "<" (("td align=center>" ++ html_escape (pretty (numCalls mt))) ++ String "<" ("/td>
			" ++ String "<" ("/tr>
		" ++ r))))))) as ->.
  { unfold sig. rewrite !html_escape_app. cbn [join foldr method_nodes NumCalls]. rewrite !str_assoc. done. }
  rewrite cells_text by done. rewrite cells_skip by done.
  rewrite (cells_cell _ (CMethod sig)).
  2: { rewrite contains_app. by rewrite html_escape_lt. }
  2: { apply cell_of_method. unfold sig. repeat apply no_nul_app; done. }
  rewrite cells_skip by done. rewrite (cells_cell _ (CCalls (pretty (numCalls mt)))).
  2: { rewrite contains_app. by rewrite html_escape_lt. }
  2: { apply cell_of_calls, no_nul_pretty. }
  rewrite !cells_skip by done. done.
Qed.

Lemma substring_app x y : String.substring 0 (String.length x) (x ++ y) = x.
Proof using. induction x as [|a x IH]; [by destruct y|]. rewrite app_cons. cbn. by rewrite IH. Qed.

Lemma drop_end_app x y : drop_end (String.length y) (x ++ y) = x.
Proof using.
  unfold drop_end. rewrite str_length, Nat.add_sub. apply substring_app.
Qed.

Lemma cell_of_service s : no_nul s → cell_of ("hr>
	Service " ++ html_escape s ++ "
	") = Some (CService s).
Proof using.
  intros Hs. change (Some (CService (text (drop_end 2 (html_escape s ++ "
	")))) = Some (CService s)).
  pose proof (drop_end_app (html_escape s) "
	") as Hd. cbn in Hd. rewrite Hd. by rewrite text_escape.
Qed.

Lemma rows_cells ms r :
  Forall (λ '(m, mt), printable_method type_String m mt) ms →
  cells (join (ms ≫= method_nodes type_String) ++ r) = app (ms ≫= shown_method type_String) (cells r).
Proof using.
  intros Hms. induction Hms as [|[m mt] ms Hm _ IH]; [done|].
  rewrite bind_cons, join_app, str_assoc, method_cells, IH by done.
  rewrite bind_cons. by rewrite <- app_assoc.
Qed.

Lemma head_cells name r : no_nul name →
  cells (join ["
	<hr>
	Service "; html_escape name; "
	<hr>
		<table>
		<th align=center>Method</th><th align=center>Calls</th>
		"] ++ r) = CService name :: cells r.
Proof using.
  intros Hn. assert (∀ a b, join [a; html_escape name; b] ++ r = a ++ html_escape name ++ b ++ r) as ->.
  { intros a b. cbn [join foldr]. by rewrite !str_assoc. }
  match goal with |- cells ?s = _ => assert (s = "
	" ++ String "<" (("hr>
	Service " ++ html_escape name ++ "
	") ++ String "<" ("hr>
		" ++ String "<" ("table>
		" ++ String "<" ("th align=center>Method" ++ String "<" ("/th>" ++ String "<" ("th align=center>Calls" ++
    String "<" ("/th>
		" ++ r)))))))) as -> by (by rewrite !str_assoc) end.
  rewrite cells_text by done. rewrite (cells_cell _ (CService name)).
  2: { by rewrite !contains_app, html_escape_lt. }
  2: { by apply cell_of_service. }
  by rewrite !cells_skip.
Qed.

Lemma service_cells name svc r : no_nul name →
  Forall (λ '(m, mt), printable_method type_String m mt) (in_key_order (methods svc)) →
  cells (join (service_nodes type_String (mkDebugService name (methods svc))) ++ r) =
  app (shown type_String (name, svc)) (cells r).
Proof using.
  intros Hn Hms. unfold service_nodes. rewrite !join_app, !str_assoc. cbn [Name Method].
  rewrite head_cells, rows_cells by done. unfold shown. cbn [app]. do 2 f_equal.
  change (cells ("
		" ++ String "<" ("/table>
	" ++ r)) = cells r).
  rewrite cells_text by done. by rewrite cells_skip.
Qed.

Lemma services_cells svcs r :
  Forall (λ '(name, svc), no_nul name ∧
    Forall (λ '(m, mt), printable_method type_String m mt) (in_key_order (methods svc))) svcs →
  cells (join (((λ '(namei, svc), mkDebugService namei (methods svc)) <$> svcs) ≫= service_nodes type_String) ++ r) =
  app (svcs ≫= shown type_String) (cells r).
Proof using.
  intros H. induction H as [|[name svc] svcs [Hn Hms] _ IH]; [done|].
  rewrite fmap_cons, bind_cons, join_app, str_assoc, service_cells, IH by done.
  rewrite bind_cons. by rewrite <- app_assoc.
Qed.

Lemma page_cells svcs :
  Forall (λ '(name, svc), no_nul name ∧
    Forall (λ '(m, mt), printable_method type_String m mt) (in_key_order (methods svc))) svcs →
  cells (join (debugText type_String ((λ '(namei, svc), mkDebugService namei (methods svc)) <$> svcs))) =
  svcs ≫= shown type_String.
Proof using.
  intros H. unfold debugText. rewrite !join_app. 
  match goal with |- cells (_ ++ ?s) = _ => change (cells (String "<" ("html>
	" ++ String "<" ("body>
	" ++ String "<" ("title>GeeRPC Services" ++ String "<" ("/title>
	" ++ s))))) = svcs ≫= shown type_String) end.
  rewrite !cells_skip by done. rewrite services_cells by done.
  change (cells (join _)) with ([] : list cell). by rewrite app_nil_r.
Qed.

(** Everything is written to a response that takes it. *)
Lemma Execute_all nodes w : Execute (λ node w, (None, w ++ node)) nodes w = (None, w ++ join nodes).
Proof using.
  revert w. induction nodes as [|n nodes IH]; intros w; cbn [Execute].
  - cbn. f_equal. clear. induction w as [|a w IH]; [done|]. rewrite app_cons. by rewrite <- IH.
  - by rewrite IH, str_assoc.
Qed.

(** ** Maps in the order of their keys *)

Lemma in_key_order_fst {A} (m : gmap string A) : (in_key_order m).*1 = merge_sort String.le (map_to_list m).*1.
Proof using.
  unfold in_key_order. assert (∀ l, (∀ k, k ∈ l → is_Some (m !! k)) → (omap (λ k, (k,.) <$> m !! k) l).*1 = l) as H.
  { induction l as [|k l IH]; intros Hl; [done|]. cbn. destruct (Hl k) as [x ->]; [by left|]. cbn.
    f_equal. apply IH. intros k' Hk'. apply Hl. by right. }
  apply H. intros k Hk. rewrite merge_sort_Permutation in Hk. apply list_elem_of_fmap in Hk as ([k' x] & -> & Hx).
  apply elem_of_map_to_list in Hx. by exists x.
Qed.

Lemma elem_of_in_key_order {A} (m : gmap string A) k x : (k, x) ∈ in_key_order m ↔ m !! k = Some x.
Proof using.
  unfold in_key_order. rewrite list_elem_of_omap. split.
  - intros (k' & _ & H). destruct (m !! k') eqn:E; [|done]. cbn in H. by simplify_eq.
  - intros H. exists k. rewrite H. split; [|done]. rewrite merge_sort_Permutation.
    apply list_elem_of_fmap. exists (k, x). by rewrite elem_of_map_to_list.
Qed.

(** ** Properties *)

(** C35: the page shows every registered service once, in the order in which
    [Range] visits them, and of each all of its methods, sorted by name, with
    their signatures and the number of their calls; a reader recovers them from
    the text between the tags, so no name can change the page. *)
Theorem debug_page iter server : (∀ l, iter l ≡ₚ l) → printable type_String server → ∃ svcs,
  svcs ≡ₚ map_to_list (serviceMap server) ∧
  cells (ServeHTTP type_String (λ node w, (None, w ++ node)) iter server "") = svcs ≫= shown type_String ∧
  ∀ svc : service, StronglySorted String.le (in_key_order (methods svc)).*1 ∧
    NoDup (in_key_order (methods svc)).*1 ∧
    ∀ m mt, (m, mt) ∈ in_key_order (methods svc) ↔ methods svc !! m = Some mt.
Proof using.
  intros Hiter Hs. exists (iter (map_to_list (serviceMap server))). split; [done|]. split.
  - unfold ServeHTTP. rewrite Execute_all. change ("" ++ ?s) with s. apply page_cells, Forall_forall. intros [name svc] Hin. rewrite Hiter, elem_of_map_to_list in Hin.
    destruct (Hs _ _ Hin) as [Hn Hm]. split; [done|]. apply Forall_forall. intros [m mt] Hmt.
    apply (Hm m mt). by apply elem_of_in_key_order.
  - intros svc. rewrite in_key_order_fst. split_and!.
    + apply StronglySorted_merge_sort; apply _.
    + rewrite merge_sort_Permutation. apply NoDup_fst_map_to_list.
    + intros m mt. apply elem_of_in_key_order.
Qed.

(** A response that fails gets nothing more of the page: what was written
    before, and the error. *)
Lemma debug_page_fails {W} (Write : string → W → error * W) iter server (w w' : W) err :
  Execute Write (debugText type_String ((λ '(namei, svc), mkDebugService namei (methods svc)) <$>
    iter (map_to_list (serviceMap server)))) w = (Some err, w') →
  ServeHTTP type_String Write iter server w = (Write ("rpc: error executing template: " ++ err ++ "
") w').2.
Proof using. intros H. unfold ServeHTTP. by rewrite H. Qed.
End Page.

(** ** Witnesses *)

(** The service [Foo] of [src/geerpc/main/main.go] and one whose name has
    markup in it. *)
Definition int_ptr : rtype := RType "" "" (Ptr int_type).

Definition demo_String (t : rtype) : string :=
  match t with
  | RType "" _ (Ptr (RType n _ _)) => "*" ++ n
  | RType n "" _ => n
  | RType n p _ => p ++ "." ++ n
  end.

Definition demo_methods : gmap string methodType :=
  {[ "Sum" := mkMethodType (mkMethod "Sum" [foo_type; args_type; int_ptr] [error_type]) args_type int_ptr 3;
     "Sleep" := mkMethodType (mkMethod "Sleep" [foo_type; args_type; int_ptr] [error_type]) args_type int_ptr 0 ]}.

Definition demo_server : Server :=
  mkServer {[ "Foo" := mkService "Foo" [] demo_methods; "A<b>&'c'" := mkService "A" [] ∅ ]}.

Definition demo_page : string := ServeHTTP demo_String (λ node w, (None, w ++ node)) reverse demo_server "".

Example demo_cells : cells demo_page =
  [CService "Foo"; CMethod "Sleep(main.Args, *int) error"; CCalls "0"; CMethod "Sum(main.Args, *int) error"; CCalls "3";
   CService "A<b>&'c'"] ∨ cells demo_page =
  [CService "A<b>&'c'"; CService "Foo"; CMethod "Sleep(main.Args, *int) error"; CCalls "0";
   CMethod "Sum(main.Args, *int) error"; CCalls "3"].
Proof. vm_compute. first [by left | by right]. Qed.

Lemma demo_printable : printable demo_String demo_server.
Proof.
  intros name svc Hs. unfold demo_server in Hs. cbn [serviceMap] in Hs.
  apply lookup_insert_Some in Hs as [[<- <-]|[_ [<- <-]%lookup_singleton_Some]]; (split; [done|]).
  - intros m mt H. unfold demo_methods in H. cbn [methods] in H.
    apply lookup_insert_Some in H as [[<- <-]|[_ [<- <-]%lookup_singleton_Some]]; by split_and!.
  - intros m mt H. cbn in H. by rewrite lookup_empty in H.
Qed.

Lemma debug_page_witness : ∃ svcs, svcs ≡ₚ map_to_list (serviceMap demo_server) ∧
  cells demo_page = svcs ≫= shown demo_String.
Proof.
  destruct (debug_page demo_String reverse demo_server) as (svcs & H1 & H2 & _).
  - intros l. apply reverse_Permutation.
  - exact demo_printable.
  - exists svcs. split; [exact H1|exact H2].
Defined.
